(* ===== verification/_CoqProject ===== *)
-Q . S2P
Prelude.v
Codec.v
Crc.v
Protocol.v
CrushLn.v
CrushHash.v
CrushMap.v
CrushPlace.v
MonMap.v
Pool.v
OSDMap.v
Incremental.v
Placement.v
MsgrFrame.v
MsgrMessage.v
Budget.v
Aead.v
Secure.v
SecureBudget.v
Control.v
SessionTable.v
Session.v
SessionInv.v
SessionTurn.v
SessionSend.v
SessionRun.v
SessionRefine.v
OsdWire.v
OsdMessages.v
