(* ===== verification/Prelude.v ===== *)
(** * rados-go: verification library (root file)

    Placeholder header; completed below. *)

From stdpp Require Import base gmap list numbers strings.
From coqutil Require Import Byte Word.LittleEndianList.

Open Scope Z_scope.

(** ** Notations of the development, in a scope of their own *)

Declare Scope go_scope.
Delimit Scope go_scope with go.

(** ** Go machine integers

    A Go integer is a [Z]; a conversion or an arithmetic operation that can
    leave the range of its type is written with the wrap-around of the type. *)

Definition wrapU (w z : Z) : Z := z mod 2 ^ w.
Definition wrapS (w z : Z) : Z := (z + 2 ^ (w - 1)) mod 2 ^ w - 2 ^ (w - 1).

Abbreviation u8 := (wrapU 8).
Abbreviation u16 := (wrapU 16).
Abbreviation u32 := (wrapU 32).
Abbreviation u64 := (wrapU 64).
Abbreviation i8 := (wrapS 8).
Abbreviation i16 := (wrapS 16).
Abbreviation i32 := (wrapS 32).
Abbreviation i64 := (wrapS 64).

Definition inU (w z : Z) : Prop := 0 <= z < 2 ^ w.
Definition inS (w z : Z) : Prop := - 2 ^ (w - 1) <= z < 2 ^ (w - 1).

Lemma wrapU_id w z : inU w z -> wrapU w z = z.
Proof. apply Z.mod_small. Qed.

Lemma wrapU_range w z : 0 <= w -> inU w (wrapU w z).
Proof. intros. apply Z.mod_pos_bound. lia. Qed.

Lemma wrapU_wrapU w z : 0 <= w -> wrapU w (wrapU w z) = wrapU w z.
Proof. intros. apply wrapU_id, wrapU_range. done. Qed.

Lemma wrapS_id w z : 0 < w -> inS w z -> wrapS w z = z.
Proof.
  intros Hw [Hl Hh]. unfold wrapS.
  assert (2 ^ w = 2 * 2 ^ (w - 1)) as E.
  { rewrite <- Z.pow_succ_r by lia. f_equal. lia. }
  rewrite Z.mod_small; lia.
Qed.

Lemma wrapS_range w z : 0 < w -> inS w (wrapS w z).
Proof.
  intros Hw. unfold inS, wrapS.
  assert (2 ^ w = 2 * 2 ^ (w - 1)) as E.
  { rewrite <- Z.pow_succ_r by lia. f_equal. lia. }
  pose proof (Z.mod_pos_bound (z + 2 ^ (w - 1)) (2 ^ w)). lia.
Qed.

(** A signed value survives the trip through the unsigned type of its width. *)
Lemma wrapS_wrapU w z : 0 < w -> wrapS w (wrapU w z) = wrapS w z.
Proof.
  intros Hw. unfold wrapS, wrapU. f_equal.
  rewrite Zplus_mod_idemp_l. done.
Qed.

(** ** Bytes and Go strings *)

#[export] Instance byte_eq_dec : EqDecision Byte.byte := Byte.byte_eq_dec.

#[export] Instance byte_countable : Countable Byte.byte.
Proof.
  apply (inj_countable Byte.to_N Byte.of_N). apply Byte.of_to_N.
Defined.

#[export] Instance byte_inhabited : Inhabited Byte.byte := populate Byte.x00.

(** A Go [string] and a Go [[]byte] are both byte sequences. *)
Abbreviation bytes := (list Byte.byte).

Definition len {A} (l : list A) : Z := Z.of_nat (length l).

(** [make([]byte, n)]. *)
Definition zeros (n : nat) : bytes := replicate n Byte.x00.

Arguments zeros : simpl never.

(** [data[from:to]] for bounds already known to be in range. *)
Definition slice {A} (from to : Z) (l : list A) : list A :=
  take (Z.to_nat (to - from)) (drop (Z.to_nat from) l).

(** ** Errors and results

    The sentinel errors of the packages.  [fmt.Errorf("%w: ...", sentinel)] is
    the sentinel: callers classify with [errors.Is], and the text is not
    modelled. *)

Inductive error :=
  | wire_ErrLimitExceeded
  | wire_ErrMalformed
  | wire_ErrUnsupportedVersion
  | protocol_ErrInvalidAddress
  | crush_ErrUnsupported
  | crush_ErrPlacement
  | maps_ErrMalformedMap
  | maps_ErrUnsupportedPlacement
  | msgr_ErrMalformed
  | msgr_ErrLimitExceeded
  | msgr_ErrUnsupportedFeature
  | msgr_ErrIntegrity
  | msgr_ErrAborted
  | msgr_ErrReceiveBudgetExceeded
  | msgr_ErrInvalidSecret
  | msgr_ErrCounterExhausted
  | msgr_ErrUnsupportedPayload
  | msgr_ErrSessionClosed
  | msgr_ErrSessionDisconnected
  | msgr_ErrSessionRenewal
  | msgr_ErrQueueSaturated
  | msgr_ErrTransitionLimit
  | msgr_ErrReconnectExhausted
  | msgr_ErrOutcomeUnknown
  | msgr_ErrControlInvalidated
  | context_Canceled
  | context_DeadlineExceeded
  | aes_KeySizeError
  | io_ErrUnexpectedEOF
  | osd_ErrMalformedReply
  | osd_ErrMalformedCommandReply.

#[export] Instance error_eq_dec : EqDecision error.
Proof. solve_decision. Defined.

(** What a Go call ends in: values, a non-nil error, or a run-time panic
    (an index out of range, a division by zero). *)
Inductive res (A : Type) :=
  | Ok (a : A)
  | Err (e : error)
  | Panic.
Arguments Ok {A} a.
Arguments Err {A} e.
Arguments Panic {A}.

#[export] Instance res_ret : MRet res := fun _ a => Ok a.
#[export] Instance res_bind : MBind res := fun _ _ k m =>
  match m with Ok a => k a | Err e => Err e | Panic => Panic end.

Definition of_err (e : option error) : res unit :=
  match e with None => Ok tt | Some e => Err e end.

Definition is_panic {A} (r : res A) : bool :=
  match r with Panic => true | _ => false end.

Definition res_map_err {A} (f : error -> error) (r : res A) : res A :=
  match r with Err e => Err (f e) | r => r end.

Lemma res_bind_ok {A B} (m : res A) (k : A -> res B) b :
  (m ≫= k) = Ok b <-> exists a, m = Ok a /\ k a = Ok b.
Proof. destruct m; cbn; naive_solver. Qed.

Lemma bind_Ok {A B} (a : A) (k : A -> res B) : (Ok a ≫= k) = k a.
Proof. done. Qed.

Lemma bind_no_panic {A B} (m : res A) (k : A -> res B) :
  m <> Panic -> (forall a, k a <> Panic) -> (m ≫= k) <> Panic.
Proof. intros. destruct m; cbn; auto. Qed.

(** [if cond { return nil, e }] *)
Definition guard_err {A} (cond : bool) (e : error) (k : res A) : res A :=
  if cond then Err e else k.

(** A counted loop whose body may return early. *)
Fixpoint repeat_res {S} (n : nat) (body : S -> res S) (s : S) : res S :=
  match n with
  | O => Ok s
  | S n => body s ≫= repeat_res n body
  end.

(** A [range] loop over a slice whose body may return early. *)
Fixpoint fold_res {A S} (body : A -> S -> res S) (l : list A) (s : S) : res S :=
  match l with
  | [] => Ok s
  | x :: l => body x s ≫= fold_res body l
  end.

Lemma fold_res_app {A S} (body : A -> S -> res S) l k s : fold_res body (l ++ k) s = (fold_res body l s ≫= fold_res body k).
Proof. revert s. induction l as [|x l IH]; intros s; [done|]. cbn. destruct (body x s); [apply IH|done|done]. Qed.

(** [s[i]] and [s[i] = x], which panic out of range. *)
Definition index {A} (l : list A) (i : Z) : res A :=
  if i <? 0 then Panic else
  match l !! Z.to_nat i with Some x => Ok x | None => Panic end.

Definition store {A} (l : list A) (i : Z) (x : A) : res (list A) :=
  if (0 <=? i) && (i <? len l) then Ok (<[Z.to_nat i := x]> l) else Panic.

(** ** Automation *)

Create HintDb go.
Create Rewrite HintDb golen.

(** Case analysis on the innermost [if] or [match] of a hypothesis or goal. *)
Ltac bdestruct_in H :=
  match type of H with
  | context [if ?b then _ else _] => destruct b eqn:?
  end.

Ltac bsplit :=
  repeat match goal with
  | H : _ && _ = true |- _ => apply andb_true_iff in H as [? ?]
  | H : _ || _ = false |- _ => apply orb_false_iff in H as [? ?]
  | H : negb _ = true |- _ => apply negb_true_iff in H
  | H : negb _ = false |- _ => apply negb_false_iff in H
  end.

(** Strip the successful prefix of a monadic computation. *)
Ltac res_inv H :=
  repeat match type of H with
  | (_ ≫= _) = Ok _ =>
      let a := fresh "a" in let E := fresh "E" in
      apply res_bind_ok in H as (a & E & H)
  | Ok _ = Ok _ => injection H as H
  | Err _ = Ok _ => discriminate H
  | Panic = Ok _ => discriminate H
  | guard_err ?b _ _ = Ok _ =>
      let G := fresh "G" in
      unfold guard_err in H; destruct b eqn:G; [discriminate H|]
  end.

#[export] Hint Resolve wrapU_id wrapS_id wrapU_range wrapS_range : go.
#[export] Hint Rewrite @length_app @length_take @length_drop @length_replicate
  length_le_split @length_insert : golen.

(** ** Generic lemmas *)

Lemma len_nonneg {A} (l : list A) : 0 <= len l.
Proof. unfold len. lia. Qed.

Lemma len_app {A} (l k : list A) : len (l ++ k) = len l + len k.
Proof. unfold len. rewrite length_app. lia. Qed.

Lemma len_cons {A} (x : A) l : len (x :: l) = 1 + len l.
Proof. unfold len. cbn [length]. lia. Qed.

Lemma len_le_split n z : len (le_split n z) = Z.of_nat n.
Proof. unfold len. rewrite length_le_split. done. Qed.

Lemma le_combine_le_split_id n z :
  inU (8 * Z.of_nat n) z -> le_combine (le_split n z) = z.
Proof.
  intros H. rewrite le_combine_split. rewrite Z.mul_comm. apply Z.mod_small, H.
Qed.

Lemma le_split_combine_n n bs : length bs = n -> le_split n (le_combine bs) = bs.
Proof. intros <-. apply split_le_combine. Qed.

Lemma le_combine_inU n bs : length bs = n -> inU (8 * Z.of_nat n) (le_combine bs).
Proof. intros <-. apply le_combine_bound. Qed.

Lemma index_ok {A} (l : list A) i x :
  index l i = Ok x <-> 0 <= i /\ l !! Z.to_nat i = Some x.
Proof.
  unfold index. destruct (Z.ltb_spec i 0); [split; [done|lia]|].
  destruct (l !! Z.to_nat i); naive_solver lia.
Qed.

Lemma index_in_range {A} (l : list A) i :
  0 <= i < len l -> exists x, index l i = Ok x /\ x ∈ l.
Proof.
  intros [H0 H1]. unfold len in H1.
  destruct (lookup_lt_is_Some_2 l (Z.to_nat i)) as [x Hx]; [lia|].
  exists x. split; [by apply index_ok|]. by eapply list_elem_of_lookup_2.
Qed.

Lemma store_ok {A} (l : list A) i x :
  0 <= i < len l -> store l i x = Ok (<[Z.to_nat i := x]> l).
Proof.
  intros. unfold store.
  destruct (Z.leb_spec 0 i), (Z.ltb_spec i (len l)); try lia. done.
Qed.

(** Writing at the seam of a split slice, and reading what is before it. *)
Lemma store_mid {A} (pre : list A) x y post :
  store (pre ++ x :: post) (len pre) y = Ok (pre ++ y :: post).
Proof.
  rewrite store_ok by (pose proof (len_nonneg pre); pose proof (len_nonneg post); rewrite len_app, len_cons; lia).
  f_equal. unfold len. rewrite Nat2Z.id. by rewrite insert_app_r_alt, Nat.sub_diag.
Qed.

Lemma slice_pre {A} (pre post : list A) : slice 0 (len pre) (pre ++ post) = pre.
Proof. unfold slice, len. rewrite Z.sub_0_r, Nat2Z.id, drop_0. apply take_app_length. Qed.

Lemma existsb_eqb_false x l : existsb (Z.eqb x) l = false <-> x ∉ l.
Proof.
  induction l as [|y l IH]; cbn; [split; [set_solver|done]|].
  rewrite orb_false_iff, IH, Z.eqb_neq. set_solver.
Qed.

(** *** Bit-level bounds *)

Lemma inU_testbit n z i : inU n z -> 0 <= n <= i -> Z.testbit z i = false.
Proof.
  intros Hz Hi. rewrite <- (Z.mod_small z (2 ^ n)) by exact Hz.
  apply Z.mod_pow2_bits_high. lia.
Qed.

Lemma inU_of_bits n z :
  0 <= n -> (forall i, n <= i -> Z.testbit z i = false) -> inU n z.
Proof.
  intros Hn Hz. assert (z mod 2 ^ n = z) as <-; [|apply Z.mod_pos_bound; lia].
  apply Z.bits_inj'. intros i Hi. destruct (Z.lt_ge_cases i n).
  - apply Z.mod_pow2_bits_low. lia.
  - rewrite Z.mod_pow2_bits_high by lia. symmetry. by apply Hz.
Qed.

Lemma inU_lxor n a b : 0 <= n -> inU n a -> inU n b -> inU n (Z.lxor a b).
Proof.
  intros Hn Ha Hb. apply inU_of_bits; [done|]. intros i Hi.
  by rewrite Z.lxor_spec, (inU_testbit n a), (inU_testbit n b) by (done || lia).
Qed.

Lemma inU_lor n a b : 0 <= n -> inU n a -> inU n b -> inU n (Z.lor a b).
Proof.
  intros Hn Ha Hb. apply inU_of_bits; [done|]. intros i Hi.
  by rewrite Z.lor_spec, (inU_testbit n a), (inU_testbit n b) by (done || lia).
Qed.

Lemma inU_land_l n a b : 0 <= n -> inU n a -> inU n (Z.land a b).
Proof.
  intros Hn Ha. apply inU_of_bits; [done|]. intros i Hi.
  by rewrite Z.land_spec, (inU_testbit n a) by (done || lia).
Qed.

Lemma inU_land_r n a b : 0 <= n -> inU n b -> inU n (Z.land a b).
Proof. rewrite Z.land_comm. apply inU_land_l. Qed.

Lemma inU_shiftr n k a : 0 <= k -> inU (n + k) a -> 0 <= n -> inU n (Z.shiftr a k).
Proof.
  intros Hk Ha Hn. apply inU_of_bits; [done|]. intros i Hi.
  rewrite Z.shiftr_spec by lia. apply (inU_testbit (n + k)); [done|lia].
Qed.

Lemma inU_le m n a : m <= n -> 0 <= m -> inU m a -> inU n a.
Proof. intros Hmn Hm [H0 H1]. split; [done|]. pose proof (Z.pow_le_mono_r 2 m n). lia. Qed.

Lemma byte_inU b : inU 8 (byte.unsigned b).
Proof. apply byte.unsigned_range. Qed.

#[export] Hint Resolve inU_lxor inU_lor inU_land_l inU_land_r byte_inU : go.

(** ** Lists and loops *)

Lemma list_filter_all {A} (P : A -> Prop) `{!forall x, Decision (P x)} (l : list A) : Forall P l -> filter P l = l.
Proof. induction 1 as [|x l Hx Hl IH]; [done|]. by rewrite filter_cons_True, IH. Qed.

(** A [range] loop that never returns early, from an invariant on what is left. *)
Lemma fold_res_inv {A S} (body : A -> S -> res S) (I : list A -> S -> Prop) l s :
  (forall x l s, I (x :: l) s -> exists s', body x s = Ok s' /\ I l s') -> I l s ->
  exists s', fold_res body l s = Ok s' /\ I [] s'.
Proof.
  intros H. revert s. induction l as [|x l IH]; intros s Hs; [eauto|].
  destruct (H x l s Hs) as (s1 & E & H1). cbn [fold_res]. rewrite E. exact (IH s1 H1).
Qed.
