(* ===== verification/Codec.v ===== *)
(** * Bounded wire primitives (src/internal/encoding/codec.go)

    [Encoder] and [Decoder] are the two Go structs, their methods are state
    transformers.  [emits] and [parses] specify what a sequence of calls
    writes and reads; every wire type of the other files is proved against
    them through the class [Wire]. *)

From stdpp Require Import base gmap list numbers strings.
From coqutil Require Import Byte Word.LittleEndianList.
From S2P Require Import Prelude.

Open Scope Z_scope.

Definition MaxUint32 : Z := 2 ^ 32 - 1.

Record Limits := mkLimits { MaxBytes : Z }.

(** ** Encoder *)

Record Encoder := mkEncoder {
  e_buf : bytes;
  e_max : Z;
  e_err : option error }.

Definition NewEncoder (maxBytes : Z) : Encoder := mkEncoder [] maxBytes None.

Module Enc.

(** The body of an encoding method: it updates the encoder in place. *)
Definition M := Encoder -> Encoder.

Definition skip : M := fun e => e.
Definition seq (f g : M) : M := fun e => g (f e).

Definition set_err (x : error) : M := fun e => mkEncoder (e_buf e) (e_max e) (Some x).

Definition reserve (size : Z) (e : Encoder) : bool * Encoder :=
  match e_err e with
  | Some _ => (false, e)
  | None =>
      if (e_max e <? size) || (e_max e - size <? len (e_buf e))
      then (false, set_err wire_ErrLimitExceeded e)
      else (true, e)
  end.

Definition Raw (value : bytes) : M := fun e =>
  let '(ok, e) := reserve (len value) e in
  if ok then mkEncoder (e_buf e ++ value) (e_max e) (e_err e) else e.

Definition Uint8 (value : Z) : M := Raw [byte.of_Z value].
Definition Uint16 (value : Z) : M := Raw (le_split 2 value).
Definition Uint32 (value : Z) : M := Raw (le_split 4 value).
Definition Uint64 (value : Z) : M := Raw (le_split 8 value).
Definition Int8 (value : Z) : M := Uint8 (u8 value).
Definition Int16 (value : Z) : M := Uint16 (u16 value).
Definition Int32 (value : Z) : M := Uint32 (u32 value).
Definition Int64 (value : Z) : M := Uint64 (u64 value).

Definition Bool (value : bool) : M := if value then Uint8 1 else Uint8 0.

Definition Bytes (value : bytes) : M := fun e =>
  if MaxUint32 <? len value then set_err wire_ErrLimitExceeded e
  else Raw value (Uint32 (u32 (len value)) e).

Definition String (value : bytes) : M := Bytes value.

Definition Versioned (version compat : Z) (encode : M) : M := fun e =>
  let payload := encode (NewEncoder (u32 (Z.min (e_max e) MaxUint32))) in
  let data := e_buf payload in
  match e_err payload with
  | Some err => match e_err e with None => set_err err e | Some _ => e end
  | None => Raw data (Uint32 (u32 (len data)) (Uint8 compat (Uint8 version e)))
  end.

Definition BytesResult (e : Encoder) : res bytes :=
  match e_err e with Some x => Err x | None => Ok (e_buf e) end.

Definition TakeBytesResult (e : Encoder) : res bytes * Encoder :=
  let detached := mkEncoder [] (e_max e) (e_err e) in
  match e_err e with
  | Some x => (Err x, detached)
  | None => if len (e_buf e) =? 0 then (Ok [], detached) else (Ok (e_buf e), detached)
  end.

End Enc.

Notation "f ⨾ g" := (Enc.seq f g) (at level 60, right associativity) : go_scope.
Open Scope go_scope.

(** ** Decoder *)

Record Decoder := mkDecoder {
  d_data : bytes;
  d_offset : Z;
  d_limits : Limits;
  d_err : option error }.

Definition NewDecoder (data : bytes) (limits : Limits) : Decoder :=
  mkDecoder data 0 limits None.

Definition DecM (A : Type) := Decoder -> A * Decoder.

#[export] Instance dec_ret : MRet DecM := fun _ a d => (a, d).
#[export] Instance dec_bind : MBind DecM := fun _ _ k m d =>
  let '(a, d) := m d in k a d.

(** [x, err := m; if err != nil { return err }; k] *)
Definition try_bind {A B} (m : DecM (res A)) (k : A -> DecM (res B)) : DecM (res B) :=
  r ← m; match r with Ok a => k a | Err e => mret (Err e) | Panic => mret Panic end.

Notation "x ←? y ; z" := (try_bind y (fun x => z))
  (at level 20, y at level 100, z at level 200, only parsing) : go_scope.
Notation "' x ←? y ; z" := (try_bind y (fun x => z))
  (at level 20, x pattern, y at level 100, z at level 200, only parsing) : go_scope.

Definition ok {A} (a : A) : DecM (res A) := mret (Ok a).
Definition fail {A} (e : error) : DecM (res A) := mret (Err e).

(** Run a computation on a child decoder that is not used afterwards. *)
Definition child {A} (payload : Decoder) (m : DecM A) : DecM A :=
  fun d => (fst (m payload), d).

Module Dec.

Definition set_err (x : error) : DecM unit := fun d =>
  (tt, mkDecoder (d_data d) (d_offset d) (d_limits d) (Some x)).

Definition get_err : DecM (option error) := fun d => (d_err d, d).

(** [None] is the nil slice a failed [take] returns. *)
Definition take (size : Z) : DecM (option bytes) := fun d =>
  match d_err d with
  | Some _ => (None, d)
  | None =>
      if len (d_data d) - d_offset d <? size
      then (None, snd (set_err wire_ErrMalformed d))
      else (Some (slice (d_offset d) (d_offset d + size) (d_data d)),
            mkDecoder (d_data d) (d_offset d + size) (d_limits d) (d_err d))
  end.

Definition Raw (size : Z) : DecM bytes :=
  data ← take size; mret (default [] data).

Definition Uint8 : DecM Z :=
  data ← take 1;
  mret (match data with Some (b :: _) => byte.unsigned b | _ => 0 end).

Definition fixed (size : nat) : DecM bytes :=
  data ← take (Z.of_nat size);
  mret (match data with Some data => data | None => zeros size end).

Definition Uint16 : DecM Z := data ← fixed 2; mret (le_combine data).
Definition Uint32 : DecM Z := data ← fixed 4; mret (le_combine data).
Definition Uint64 : DecM Z := data ← fixed 8; mret (le_combine data).
Definition Int8 : DecM Z := v ← Uint8; mret (i8 v).
Definition Int16 : DecM Z := v ← Uint16; mret (i16 v).
Definition Int32 : DecM Z := v ← Uint32; mret (i32 v).
Definition Int64 : DecM Z := v ← Uint64; mret (i64 v).
Definition Bool : DecM bool := v ← Uint8; mret (negb (v =? 0)).

Definition Bytes : DecM bytes :=
  size ← Uint32;
  err ← get_err;
  limits ← (fun d => (d_limits d, d));
  match err with
  | Some _ => mret []
  | None =>
      if MaxBytes limits <? size
      then _ ← set_err wire_ErrLimitExceeded; mret []
      else Raw size
  end.

Definition String : DecM bytes := Bytes.

Definition Versioned (localVersion : Z) : DecM (Z * Decoder) :=
  version ← Uint8;
  compat ← Uint8;
  size ← Uint32;
  err ← get_err;
  limits ← (fun d => (d_limits d, d));
  match err with
  | Some _ => mret (0, NewDecoder [] limits)
  | None =>
      if localVersion <? compat
      then _ ← set_err wire_ErrUnsupportedVersion; mret (0, NewDecoder [] limits)
      else if MaxBytes limits <? size
      then _ ← set_err wire_ErrLimitExceeded; mret (0, NewDecoder [] limits)
      else
        data ← take size;
        match data with
        | None => mret (0, NewDecoder [] limits)
        | Some data => mret (version, NewDecoder data limits)
        end
  end.

Definition Remaining : DecM Z := fun d => (len (d_data d) - d_offset d, d).
Definition Position : DecM Z := fun d => (d_offset d, d).
Definition Finish : DecM (res unit) := fun d => (of_err (d_err d), d).

End Dec.

(** [for range count { body }] and the same loop with an early return. *)
Fixpoint repeat_dec {A} (n : nat) (body : DecM A) : DecM (list A) :=
  match n with
  | O => mret []
  | S n => a ← body; l ← repeat_dec n body; mret (a :: l)
  end.

Fixpoint loop_dec {S} (n : nat) (body : S -> DecM (res S)) (s : S) : DecM (res S) :=
  match n with
  | O => ok s
  | S n => s ←? body s; loop_dec n body s
  end.

(** [for _, x := range l { body }], also [for i := 0; i < n; i++] over
    [seqZ 0 n], with an early return. *)
Fixpoint for_dec {A S} (l : list A) (body : A -> S -> DecM (res S)) (s : S) : DecM (res S) :=
  match l with
  | [] => ok s
  | x :: l => s ←? body x s; for_dec l body s
  end.

(** ** What a sequence of encoder calls writes

    [emits f bs]: on an encoder without error, [f] appends exactly [bs], or,
    when [bs] does not fit, leaves the limit error; on an encoder that has
    failed it does nothing. *)

Definition enc_wf (e : Encoder) : Prop :=
  0 <= e_max e <= MaxUint32 /\ len (e_buf e) <= e_max e.

Definition emits (f : Enc.M) (bs : bytes) : Prop := forall e, enc_wf e ->
  match e_err e with
  | Some _ => f e = e
  | None =>
      if len (e_buf e) + len bs <=? e_max e
      then f e = mkEncoder (e_buf e ++ bs) (e_max e) None
      else e_err (f e) = Some wire_ErrLimitExceeded /\ e_max (f e) = e_max e
           /\ enc_wf (f e)
  end.

(** ** What a sequence of decoder calls reads

    [ready d r]: the decoder has no error and [r] is what is left of its
    input.  [parses max p bs a]: with the limit [max], [p] consumes exactly
    [bs] in front of any continuation and returns [a]. *)

Definition dec_wf (d : Decoder) : Prop := 0 <= d_offset d <= len (d_data d).

Definition rest (d : Decoder) : bytes := drop (Z.to_nat (d_offset d)) (d_data d).

Definition ready (max : Z) (d : Decoder) (r : bytes) : Prop :=
  d_err d = None /\ MaxBytes (d_limits d) = max /\ dec_wf d /\ rest d = r.

Definition advance (n : Z) (d : Decoder) : Decoder :=
  mkDecoder (d_data d) (d_offset d + n) (d_limits d) (d_err d).

Definition parses {A} (max : Z) (p : DecM A) (bs : bytes) (a : A) : Prop :=
  forall d r, ready max d (bs ++ r) -> p d = (a, advance (len bs) d) /\ ready max (advance (len bs) d) r.

(** [dec_safe p]: [p] stays inside the input, never moves backwards, keeps
    the data and the limits, and leaves a failed decoder as it is. *)
Class dec_safe {A} (p : DecM A) : Prop := {
  safe_wf d : dec_wf d -> dec_wf (snd (p d)) /\ d_offset d <= d_offset (snd (p d));
  safe_frame d : d_data (snd (p d)) = d_data d /\ d_limits (snd (p d)) = d_limits d;
  safe_sticky d : d_err d <> None -> snd (p d) = d }.

(** A wire type: its encoder and decoder, the bytes that stand for a value,
    and the values that a decoder with the given limit accepts. *)
Record wire (A : Type) := mkWire {
  wire_bytes : A -> bytes;
  wire_ok : Z -> A -> Prop;
  wire_enc : A -> Enc.M;
  wire_dec : DecM A;
  wire_emits max a : wire_ok max a -> emits (wire_enc a) (wire_bytes a);
  wire_parses max a : wire_ok max a -> parses max wire_dec (wire_bytes a) a }.
Arguments wire_bytes {A} w a.
Arguments wire_ok {A} w max a.
Arguments wire_enc {A} w a.
Arguments wire_dec {A} w.

(** ** Encoder lemmas *)

Create HintDb wire.

Lemma NewEncoder_wf max : 0 <= max <= MaxUint32 -> enc_wf (NewEncoder max).
Proof. unfold enc_wf, len. cbn. lia. Qed.

Lemma emits_skip : emits Enc.skip [].
Proof.
  intros [b m [x|]] [Hm Hb]; [done|]. cbn [e_buf e_max e_err] in *. rewrite app_nil_r.
  replace (len b + len []) with (len b) by (unfold len; cbn; lia).
  destruct (Z.leb_spec (len b) m); [reflexivity|lia].
Qed.

Lemma emits_raw bs : emits (Enc.Raw bs) bs.
Proof.
  intros [b m [x|]] [Hm Hb]; [done|]. unfold Enc.Raw, Enc.reserve. cbn in *.
  pose proof (len_nonneg bs). pose proof (len_nonneg b).
  destruct (Z.leb_spec (len b + len bs) m).
  - destruct (Z.ltb_spec m (len bs)), (Z.ltb_spec (m - len bs) (len b)); try lia.
    reflexivity.
  - destruct (Z.ltb_spec m (len bs)), (Z.ltb_spec (m - len bs) (len b)); try lia;
      unfold enc_wf; cbn; auto with lia.
Qed.

Lemma emits_seq f g a b : emits f a -> emits g b -> emits (f ⨾ g) (a ++ b).
Proof.
  intros Hf Hg e We. unfold Enc.seq. pose proof (Hf e We) as F.
  destruct (e_err e) eqn:Ee.
  { rewrite F. specialize (Hg e We). by rewrite Ee in Hg. }
  rewrite len_app, Z.add_assoc. pose proof (len_nonneg b).
  destruct (Z.leb_spec (len (e_buf e) + len a) (e_max e)) as [Ha|Ha].
  - assert (enc_wf (f e)) as W.
    { rewrite F. destruct We. split; cbn; [done|]. rewrite len_app. lia. }
    specialize (Hg _ W). rewrite F in Hg |- *. cbn in Hg.
    rewrite len_app, <- app_assoc in Hg. done.
  - destruct F as (Fe & Fm & Fw). specialize (Hg _ Fw). rewrite Fe in Hg. rewrite Hg.
    destruct (Z.leb_spec (len (e_buf e) + len a + len b) (e_max e)); [lia|]. done.
Qed.

Lemma emits_eq f bs bs' : emits f bs -> bs = bs' -> emits f bs'.
Proof. by intros ? <-. Qed.

Lemma emits_u8 v : emits (Enc.Uint8 v) [byte.of_Z v].
Proof. apply emits_raw. Qed.
Lemma emits_u16 v : emits (Enc.Uint16 v) (le_split 2 v).
Proof. apply emits_raw. Qed.
Lemma emits_u32 v : emits (Enc.Uint32 v) (le_split 4 v).
Proof. apply emits_raw. Qed.
Lemma emits_u64 v : emits (Enc.Uint64 v) (le_split 8 v).
Proof. apply emits_raw. Qed.
Lemma emits_i32 v : emits (Enc.Int32 v) (le_split 4 (u32 v)).
Proof. apply emits_raw. Qed.
Lemma emits_i64 v : emits (Enc.Int64 v) (le_split 8 (u64 v)).
Proof. apply emits_raw. Qed.

Lemma emits_bool v : emits (Enc.Bool v) [byte.of_Z (Z.b2z v)].
Proof. destruct v; apply emits_raw. Qed.

(** The bytes of [Bytes]/[String]: a length prefix and the payload. *)
Definition prefixed (bs : bytes) : bytes := le_split 4 (len bs) ++ bs.

Lemma emits_bytes bs : len bs <= MaxUint32 -> emits (Enc.Bytes bs) (prefixed bs).
Proof.
  intros Hl. unfold MaxUint32 in *. pose proof (len_nonneg bs).
  assert (emits (Enc.Uint32 (u32 (len bs)) ⨾ Enc.Raw bs) (prefixed bs)) as E.
  { apply emits_seq; [|apply emits_raw]. rewrite wrapU_id by (unfold inU; lia). apply emits_u32. }
  intros e We. specialize (E e We). unfold Enc.Bytes.
  destruct (Z.ltb_spec MaxUint32 (len bs)); [unfold MaxUint32 in *; lia|]. exact E.
Qed.

Definition envelope (version compat : Z) (payload : bytes) : bytes :=
  byte.of_Z version :: byte.of_Z compat :: le_split 4 (len payload) ++ payload.

Arguments envelope : simpl never.
Arguments prefixed : simpl never.

Lemma len_envelope v c p : len (envelope v c p) = 6 + len p.
Proof. unfold envelope. unfold len. cbn [length]. rewrite length_app, length_le_split. lia. Qed.

Lemma emits_versioned v c f payload :
  emits f payload -> emits (Enc.Versioned v c f) (envelope v c payload).
Proof.
  intros Hf e We. pose proof (len_nonneg payload) as Hp.
  assert (e_max e = u32 (Z.min (e_max e) MaxUint32)) as Hmax.
  { destruct We as [[? ?] _]. unfold MaxUint32 in *. rewrite wrapU_id; unfold inU; lia. }
  unfold Enc.Versioned. rewrite <- Hmax.
  specialize (Hf (NewEncoder (e_max e))). cbn in Hf.
  destruct We as [Hm Hb]. pose proof (len_nonneg (e_buf e)).
  specialize (Hf (NewEncoder_wf _ Hm)).
  destruct (Z.leb_spec (len payload) (e_max e)) as [Hfit|Hfit].
  - replace (len [] + len payload) with (len payload) in Hf by (unfold len; cbn; lia).
    destruct (Z.leb_spec (len payload) (e_max e)); [|lia]. rewrite Hf. cbn [e_err e_buf].
    assert (emits (Enc.Uint8 v ⨾ Enc.Uint8 c ⨾ Enc.Uint32 (u32 (len payload)) ⨾ Enc.Raw payload)
                  (envelope v c payload)) as E.
    { rewrite wrapU_id by (unfold inU, MaxUint32 in *; lia).
      apply (emits_seq _ _ [_]); [apply emits_u8|].
      apply (emits_seq _ _ [_]); [apply emits_u8|].
      apply emits_seq; [apply emits_u32|apply emits_raw]. }
    apply (E e (conj Hm Hb)).
  - replace (len [] + len payload) with (len payload) in Hf by (unfold len; cbn; lia).
    destruct (Z.leb_spec (len payload) (e_max e)); [lia|]. destruct Hf as (-> & _ & _).
    destruct (e_err e) eqn:Ee; [done|]. rewrite len_envelope.
    destruct (Z.leb_spec (len (e_buf e) + (6 + len payload)) (e_max e)); [lia|].
    unfold enc_wf; cbn; auto.
Qed.

#[export] Hint Resolve emits_skip emits_raw emits_u8 emits_u16 emits_u32 emits_u64
  emits_i32 emits_i64 emits_bool emits_bytes emits_versioned emits_seq : wire.

(** Marshalling with a limit: the bytes, or the limit error. *)
Lemma emits_result f bs max : 0 <= max <= MaxUint32 -> emits f bs ->
  Enc.BytesResult (f (NewEncoder max)) =
  if len bs <=? max then Ok bs else Err wire_ErrLimitExceeded.
Proof.
  intros Hm Hf. specialize (Hf _ (NewEncoder_wf max Hm)). cbn in Hf.
  change (len [] + len bs) with (len bs) in Hf. unfold Enc.BytesResult.
  destruct (len bs <=? max); [by rewrite Hf|]. by destruct Hf as (-> & _).
Qed.

(** ** Decoder lemmas *)

Lemma len_rest d : dec_wf d -> len (rest d) = len (d_data d) - d_offset d.
Proof. intros [? ?]. unfold rest, len in *. rewrite length_drop. lia. Qed.

Lemma ready_new max bs : ready max (NewDecoder bs (mkLimits max)) bs.
Proof.
  repeat split; cbn; [|apply len_nonneg]. lia.
Qed.

Lemma advance_0 d : advance 0 d = d.
Proof. destruct d; unfold advance; cbn. by rewrite Z.add_0_r. Qed.

Lemma advance_add a b d : advance b (advance a d) = advance (a + b) d.
Proof. unfold advance; cbn. by rewrite Z.add_assoc. Qed.

Lemma ready_limits max d r : ready max d r -> d_limits d = mkLimits max.
Proof. intros (_ & <- & _). by destruct d as [? ? [?] ?]. Qed.

Lemma ready_advance max d bs r : ready max d (bs ++ r) -> ready max (advance (len bs) d) r.
Proof.
  intros (He & Hm & Hw & Hr). pose proof (len_nonneg bs).
  assert (len bs + len r = len (d_data d) - d_offset d) as Hl.
  { rewrite <- len_app, <- Hr. by apply len_rest. }
  pose proof (len_nonneg r). destruct Hw.
  repeat split; cbn; [done|done|lia|lia|].
  unfold rest, advance in *. cbn. rewrite Z2Nat.inj_add by lia.
  rewrite <- drop_drop, Hr. unfold len. rewrite Nat2Z.id, drop_app_length. done.
Qed.

Lemma parses_ret {A} max (a : A) : parses max (mret a) [] a.
Proof. intros d r Hr. cbn. rewrite advance_0. done. Qed.

Lemma parses_bind {A B} max (m : DecM A) (k : A -> DecM B) bs1 bs2 a b :
  parses max m bs1 a -> parses max (k a) bs2 b -> parses max (m ≫= k) (bs1 ++ bs2) b.
Proof.
  intros Hm Hk d r Hr. rewrite <- app_assoc in Hr.
  destruct (Hm _ _ Hr) as [E1 R1]. destruct (Hk _ _ R1) as [E2 R2].
  unfold mbind, dec_bind. rewrite E1, E2, advance_add, <- len_app.
  by rewrite advance_add, <- len_app in R2.
Qed.

Lemma parses_try {A B} max (m : DecM (res A)) (k : A -> DecM (res B)) bs1 bs2 a b :
  parses max m bs1 (Ok a) -> parses max (k a) bs2 b -> parses max (try_bind m k) (bs1 ++ bs2) b.
Proof. intros Hm Hk. unfold try_bind. by eapply parses_bind. Qed.

Lemma parses_eq {A} max (m : DecM A) bs bs' a a' :
  parses max m bs a -> bs = bs' -> a = a' -> parses max m bs' a'.
Proof. by intros ? <- <-. Qed.

(** Read-only observations of the decoder. *)
Lemma parses_finish max : parses max Dec.Finish [] (Ok tt).
Proof.
  intros d r Hr. rewrite advance_0. split; [|done].
  destruct Hr as (He & _). unfold Dec.Finish. by rewrite He.
Qed.

(** [if err := decoder.Finish(); err != nil { return err }] passes. *)
Lemma parses_finish_then {B} max (k : unit -> DecM (res B)) bs b :
  parses max (k tt) bs b -> parses max (try_bind Dec.Finish k) bs b.
Proof. intros H. apply (parses_try max _ k [] bs tt b (parses_finish max) H). Qed.

Lemma parses_finish_ok {B} max (b : B) : parses max (try_bind Dec.Finish (fun _ => ok b)) [] (Ok b).
Proof. apply parses_finish_then, parses_ret. Qed.

Lemma parses_child {A} max payload bs junk (m : DecM A) a :
  ready max payload (bs ++ junk) -> parses max m bs a -> parses max (child payload m) [] a.
Proof.
  intros Hp Hm d r Hr. rewrite advance_0. split; [|done].
  unfold child. destruct (Hm _ _ Hp) as [-> _]. done.
Qed.

Lemma parses_take max bs : parses max (Dec.take (len bs)) bs (Some bs).
Proof.
  intros d r Hr. split; [|by apply ready_advance].
  pose proof Hr as (He & Hm & Hw & Hd). unfold Dec.take. rewrite He.
  pose proof (len_rest _ Hw) as Hl. rewrite Hd, len_app in Hl.
  pose proof (len_nonneg r). destruct (Z.ltb_spec (len (d_data d) - d_offset d) (len bs)); [lia|].
  unfold advance. rewrite He. repeat f_equal. unfold slice.
  replace (d_offset d + len bs - d_offset d) with (len bs) by lia.
  unfold rest in Hd. rewrite Hd. unfold len. by rewrite Nat2Z.id, take_app_length.
Qed.

Lemma parses_raw max bs n : n = len bs -> parses max (Dec.Raw n) bs bs.
Proof.
  intros ->. eapply parses_eq; [eapply parses_bind; [apply parses_take|apply parses_ret]|
    apply app_nil_r|done].
Qed.

Lemma parses_fixed max n bs : length bs = n -> parses max (Dec.fixed n) bs bs.
Proof.
  intros <-. eapply parses_eq; [eapply parses_bind; [apply parses_take|apply parses_ret]|
    apply app_nil_r|done].
Qed.

Lemma parses_u8 max v : inU 8 v -> parses max Dec.Uint8 [byte.of_Z v] v.
Proof.
  intros Hv. eapply parses_eq;
    [eapply parses_bind; [apply (parses_take max [byte.of_Z v])|apply parses_ret]|done|].
  rewrite byte.unsigned_of_Z. by apply Z.mod_small.
Qed.

Lemma parses_le max n v : inU (8 * Z.of_nat n) v ->
  parses max (data ← Dec.fixed n; mret (le_combine data)) (le_split n v) v.
Proof.
  intros Hv. eapply parses_eq;
    [eapply parses_bind; [apply parses_fixed, length_le_split|apply parses_ret]|apply app_nil_r|].
  by apply le_combine_le_split_id.
Qed.

Lemma parses_u16 max v : inU 16 v -> parses max Dec.Uint16 (le_split 2 v) v.
Proof. apply (parses_le max 2). Qed.
Lemma parses_u32 max v : inU 32 v -> parses max Dec.Uint32 (le_split 4 v) v.
Proof. apply (parses_le max 4). Qed.
Lemma parses_u64 max v : inU 64 v -> parses max Dec.Uint64 (le_split 8 v) v.
Proof. apply (parses_le max 8). Qed.

Lemma parses_signed max (w : Z) (m : DecM Z) bs v :
  0 < w -> inS w v -> parses max m bs (wrapU w v) -> parses max (x ← m; mret (wrapS w x)) bs v.
Proof.
  intros Hw Hv Hm. eapply parses_eq;
    [eapply parses_bind; [exact Hm|apply parses_ret]|apply app_nil_r|].
  rewrite wrapS_wrapU by done. by apply wrapS_id.
Qed.

Lemma parses_i8 max v : inS 8 v -> parses max Dec.Int8 [byte.of_Z (u8 v)] v.
Proof. intros. apply parses_signed; [lia|done|]. apply parses_u8, wrapU_range. lia. Qed.
Lemma parses_i32 max v : inS 32 v -> parses max Dec.Int32 (le_split 4 (u32 v)) v.
Proof. intros. apply parses_signed; [lia|done|]. apply parses_u32, wrapU_range. lia. Qed.
Lemma parses_i64 max v : inS 64 v -> parses max Dec.Int64 (le_split 8 (u64 v)) v.
Proof. intros. apply parses_signed; [lia|done|]. apply parses_u64, wrapU_range. lia. Qed.

Lemma parses_bool max b : parses max Dec.Bool [byte.of_Z (Z.b2z b)] b.
Proof.
  eapply parses_eq; [eapply parses_bind; [apply parses_u8|apply parses_ret]|done|].
  - destruct b; unfold inU; cbn; lia.
  - by destruct b.
Qed.

Lemma parses_bytes max bs : len bs <= max -> max <= MaxUint32 ->
  parses max Dec.Bytes (prefixed bs) bs.
Proof.
  intros Hl Hm. unfold Dec.Bytes, prefixed. pose proof (len_nonneg bs).
  eapply parses_bind; [apply parses_u32; unfold inU, MaxUint32 in *; lia|].
  intros d r Hr. pose proof (ready_limits _ _ _ Hr) as Hlim. pose proof Hr as (He & _).
  unfold mbind, dec_bind, Dec.get_err. rewrite He, Hlim. cbn [MaxBytes].
  destruct (Z.ltb_spec max (len bs)); [lia|]. by apply parses_raw.
Qed.

(** The child decoder of an envelope sees exactly the payload, and the parent
    continues after it whatever the child reads. *)
Lemma parses_versioned max local v c payload :
  inU 8 v -> inU 8 c -> c <= local -> len payload <= max -> max <= MaxUint32 ->
  parses max (Dec.Versioned local) (envelope v c payload)
    (v, NewDecoder payload (mkLimits max)).
Proof.
  intros Hv Hc Hcl Hl Hm. unfold Dec.Versioned, envelope. pose proof (len_nonneg payload).
  apply (parses_bind _ _ _ [_] _ v); [by apply parses_u8|].
  apply (parses_bind _ _ _ [_] _ c); [by apply parses_u8|].
  apply (parses_bind _ _ _ _ _ (len payload));
    [apply parses_u32; unfold inU, MaxUint32 in *; lia|].
  intros d r Hr. pose proof (ready_limits _ _ _ Hr) as Hlim. pose proof Hr as (He & _).
  unfold mbind, dec_bind, Dec.get_err. rewrite He, Hlim. cbn [MaxBytes].
  destruct (Z.ltb_spec local c); [lia|]. destruct (Z.ltb_spec max (len payload)); [lia|].
  destruct (parses_take _ _ _ _ Hr) as [-> R]. done.
Qed.

#[export] Hint Resolve parses_ret parses_finish parses_u8 parses_u16 parses_u32 parses_u64
  parses_i8 parses_i32 parses_i64 parses_bool parses_bytes parses_raw : wire.

(** ** Every decoding routine stays inside its input *)

#[export] Instance safe_ret {A} (a : A) : dec_safe (mret a : DecM A).
Proof. split; cbn; auto with lia. Qed.

(** [Q] holds of whatever the first computation returns. *)
Lemma safe_bind_post {A B} (Q : A -> Prop) (m : DecM A) (k : A -> DecM B) :
  dec_safe m -> (forall d, Q (fst (m d))) -> (forall a, Q a -> dec_safe (k a)) ->
  dec_safe (m ≫= k).
Proof.
  intros Hm HQ Hk. split; intros d; unfold mbind, dec_bind;
    pose proof (@safe_wf _ m _ d) as W; pose proof (@safe_frame _ m _ d) as F;
    pose proof (@safe_sticky _ m _ d) as S; specialize (HQ d);
    destruct (m d) as [a d1] eqn:E; cbn in *; pose proof (Hk a HQ) as Ha.
  - intros Hd. destruct (W Hd) as [W1 O1]. destruct (@safe_wf _ (k a) _ d1 W1). split; [done|lia].
  - destruct F as [F1 F2]. destruct (@safe_frame _ (k a) _ d1). split; congruence.
  - intros He. specialize (S He). subst d1. by apply (@safe_sticky _ (k a) _ d).
Qed.

#[export] Instance safe_bind {A B} (m : DecM A) (k : A -> DecM B) :
  dec_safe m -> (forall a, dec_safe (k a)) -> dec_safe (m ≫= k).
Proof. intros. by apply (safe_bind_post (fun _ => True)). Qed.

#[export] Instance safe_try {A B} (m : DecM (res A)) (k : A -> DecM (res B)) :
  dec_safe m -> (forall a, dec_safe (k a)) -> dec_safe (try_bind m k).
Proof.
  intros Hm Hk. unfold try_bind. apply safe_bind; [done|]. intros [a|e|]; apply _.
Qed.

#[export] Instance safe_ok {A} (a : A) : dec_safe (ok a) := safe_ret _.
#[export] Instance safe_fail {A} e : dec_safe (fail e : DecM (res A)) := safe_ret _.
#[export] Instance safe_panic {A} : dec_safe (mret Panic : DecM (res A)) := safe_ret _.

#[export] Instance safe_child {A} payload (m : DecM A) : dec_safe (child payload m).
Proof. split; cbn; auto with lia. Qed.

#[export] Instance safe_get {A} (f : Decoder -> A) : dec_safe (fun d => (f d, d)).
Proof. split; cbn; auto with lia. Qed.

#[export] Instance safe_finish : dec_safe Dec.Finish := safe_get _.
#[export] Instance safe_remaining : dec_safe Dec.Remaining := safe_get _.
#[export] Instance safe_position : dec_safe Dec.Position := safe_get _.

#[export] Instance safe_if {A} (b : bool) (m k : DecM A) :
  dec_safe m -> dec_safe k -> dec_safe (if b then m else k).
Proof. by destruct b. Qed.

(** The counts read from the wire are unsigned, so [take] gets one. *)
Lemma safe_take n : 0 <= n -> dec_safe (Dec.take n).
Proof.
  intros Hn. split; intros d; unfold Dec.take; destruct (d_err d) eqn:E; cbn; auto with lia.
  - intros [? ?]. destruct (Z.ltb_spec (len (d_data d) - d_offset d) n); cbn;
      unfold dec_wf; cbn; lia.
  - destruct (_ <? _); done.
  - done.
Qed.

#[export] Instance safe_u8 : dec_safe Dec.Uint8.
Proof. apply safe_bind; [by apply safe_take|apply _]. Qed.

#[export] Instance safe_fixed n : dec_safe (Dec.fixed n).
Proof. apply safe_bind; [apply safe_take; lia|apply _]. Qed.

#[export] Instance safe_u16 : dec_safe Dec.Uint16 := safe_bind _ _ _ _.
#[export] Instance safe_u32 : dec_safe Dec.Uint32 := safe_bind _ _ _ _.
#[export] Instance safe_u64 : dec_safe Dec.Uint64 := safe_bind _ _ _ _.
#[export] Instance safe_i8 : dec_safe Dec.Int8 := safe_bind _ _ _ _.
#[export] Instance safe_i32 : dec_safe Dec.Int32 := safe_bind _ _ _ _.
#[export] Instance safe_i64 : dec_safe Dec.Int64 := safe_bind _ _ _ _.
#[export] Instance safe_bool : dec_safe Dec.Bool := safe_bind _ _ _ _.

Lemma safe_raw n : 0 <= n -> dec_safe (Dec.Raw n).
Proof. intros. apply safe_bind; [by apply safe_take|apply _]. Qed.

(** A continuation that starts by looking at the error only runs its body on
    a decoder without error. *)
Lemma safe_after_err {A} (m : DecM A) (z : Limits -> A) (k : Limits -> DecM A) :
  m = (err ← Dec.get_err; limits ← (fun d => (d_limits d, d));
       match err with Some _ => mret (z limits) | None => k limits end) ->
  (forall l d, d_err d = None ->
     (dec_wf d -> dec_wf (snd (k l d)) /\ d_offset d <= d_offset (snd (k l d))) /\
     d_data (snd (k l d)) = d_data d /\ d_limits (snd (k l d)) = d_limits d) ->
  dec_safe m.
Proof.
  intros -> Hk. split; intros d; unfold mbind, dec_bind, Dec.get_err;
    destruct (d_err d) eqn:E; cbn; auto with lia.
  - apply Hk, E.
  - apply Hk, E.
  - done.
Qed.

Lemma le_combine_nonneg bs : 0 <= le_combine bs.
Proof. apply le_combine_bound. Qed.

Lemma take_frame n d : 0 <= n ->
  (dec_wf d -> dec_wf (snd (Dec.take n d)) /\ d_offset d <= d_offset (snd (Dec.take n d))) /\
  d_data (snd (Dec.take n d)) = d_data d /\ d_limits (snd (Dec.take n d)) = d_limits d.
Proof. intros Hn. pose proof (safe_take n Hn). split; [apply safe_wf|apply safe_frame]. Qed.

Lemma u32_nonneg d : 0 <= fst (Dec.Uint32 d).
Proof. unfold Dec.Uint32, mbind, dec_bind. destruct (Dec.fixed 4 d). apply le_combine_nonneg. Qed.

#[export] Instance safe_bytes : dec_safe Dec.Bytes.
Proof.
  apply (safe_bind_post (fun n => 0 <= n)); [apply _|apply u32_nonneg|]. intros size Hs.
  eapply (safe_after_err _ (fun _ => [])); [reflexivity|]. intros l d He. cbn beta.
  destruct (_ <? _).
  - unfold mbind, dec_bind, mret, dec_ret, Dec.set_err, dec_wf. cbn. auto with lia.
  - pose proof (safe_raw size Hs). split; [apply safe_wf|apply safe_frame].
Qed.

#[export] Instance safe_string : dec_safe Dec.String := safe_bytes.

#[export] Instance safe_versioned local : dec_safe (Dec.Versioned local).
Proof.
  apply safe_bind; [apply _|]. intros version. apply safe_bind; [apply _|]. intros compat.
  apply (safe_bind_post (fun n => 0 <= n)); [apply _|apply u32_nonneg|]. intros size Hs.
  eapply (safe_after_err _ (fun l => (0, NewDecoder [] l))); [reflexivity|]. intros l d He.
  cbn beta. unfold mbind, dec_bind, mret, dec_ret, Dec.set_err.
  destruct (_ <? _); [unfold dec_wf; cbn; auto with lia|].
  destruct (_ <? _); [unfold dec_wf; cbn; auto with lia|].
  pose proof (take_frame size d Hs) as T.
  destruct (Dec.take size d) as [[data|] d1]; exact T.
Qed.

#[export] Instance safe_repeat {A} n (body : DecM A) :
  dec_safe body -> dec_safe (repeat_dec n body).
Proof. intros. induction n; cbn [repeat_dec]; apply _. Qed.

#[export] Instance safe_loop {S} n (body : S -> DecM (res S)) s :
  (forall s, dec_safe (body s)) -> dec_safe (loop_dec n body s).
Proof. intros. revert s. induction n; intros; cbn [loop_dec]; apply _. Qed.

#[export] Instance safe_for {A S} (l : list A) (body : A -> S -> DecM (res S)) s :
  (forall x s, dec_safe (body x s)) -> dec_safe (for_dec l body s).
Proof. intros. revert s. induction l; intros; cbn [for_dec]; apply _. Qed.

(** ** Loops and observations in front of a parse *)

Lemma parses_loop_append {A B} max (dec : DecM (res B)) (bytes_of : A -> bytes) (value : A -> B) l acc :
  Forall (fun a => parses max dec (bytes_of a) (Ok (value a))) l ->
  parses max (loop_dec (length l) (fun acc => b ←? dec; ok (acc ++ [b])) acc)
    (concat (bytes_of <$> l)) (Ok (acc ++ (value <$> l))).
Proof.
  intros H. revert acc. induction H as [|a l Ha Hl IH]; intros acc.
  - eapply parses_eq; [apply parses_ret|done|]. by rewrite app_nil_r.
  - cbn [loop_dec length]. cbn [fmap list_fmap concat]. eapply parses_try.
    + eapply parses_eq; [eapply parses_try; [exact Ha|apply parses_ret]|apply app_nil_r|reflexivity].
    + eapply parses_eq; [apply IH|done|]. by rewrite <- app_assoc.
Qed.

Lemma parses_repeat {A} max (dec : DecM A) (bytes_of : A -> bytes) l :
  Forall (fun a => parses max dec (bytes_of a) a) l ->
  parses max (repeat_dec (length l) dec) (concat (bytes_of <$> l)) l.
Proof.
  induction 1 as [|a l Ha Hl IH]; cbn [repeat_dec length]; [apply parses_ret|].
  cbn [fmap list_fmap concat]. eapply parses_bind; [exact Ha|].
  eapply parses_eq; [eapply parses_bind; [exact IH|apply parses_ret]|apply app_nil_r|done].
Qed.

Lemma parses_remaining {A} max (k : Z -> DecM A) bs a :
  (forall n, len bs <= n -> parses max (k n) bs a) -> parses max (Dec.Remaining ≫= k) bs a.
Proof.
  intros H d r Hr. unfold Dec.Remaining, mbind, dec_bind.
  pose proof Hr as (_ & _ & Hw & Hd). rewrite <- len_rest by done. rewrite Hd, len_app.
  pose proof (len_nonneg r). apply H; [lia|]. exact Hr.
Qed.

(** One read after the other, the value returned at the end. *)
Ltac parse_steps :=
  lazymatch goal with
  | |- parses _ (mret _) _ _ => eapply parses_eq; [apply parses_ret|reflexivity|reflexivity]
  | |- parses _ (ok _) _ _ => eapply parses_eq; [apply parses_ret|reflexivity|reflexivity]
  | |- parses _ (try_bind Dec.Finish _) _ _ => apply parses_finish_then; parse_steps
  | |- parses _ (try_bind _ _) (_ ++ _) _ => eapply parses_try; [solve [eauto with wire]|parse_steps]
  | |- parses _ (_ ≫= _) (_ ++ _) _ => eapply parses_bind; [solve [eauto with wire]|parse_steps]
  | |- parses _ (try_bind _ _) _ _ =>
      eapply parses_eq; [eapply parses_try; [solve [eauto with wire]|parse_steps]|apply app_nil_r|reflexivity]
  | |- parses _ (_ ≫= _) _ _ =>
      eapply parses_eq; [eapply parses_bind; [solve [eauto with wire]|parse_steps]|apply app_nil_r|reflexivity]
  | |- _ => idtac
  end.

Lemma bind_eq {A B} (m : DecM A) (k : A -> DecM B) d :
  (m ≫= k) d = k (fst (m d)) (snd (m d)).
Proof. unfold mbind, dec_bind. by destruct (m d). Qed.

(** *** Reading up to the end

    [consumes max p bs a]: on a decoder with exactly [bs] left, [p] returns [a]. *)

Definition consumes {A} (max : Z) (p : DecM A) (bs : bytes) (a : A) : Prop := forall d, ready max d bs -> fst (p d) = a.

Lemma consumes_bind {A B} max (m : DecM A) (k : A -> DecM B) bs1 bs2 a b :
  parses max m bs1 a -> consumes max (k a) bs2 b -> consumes max (m ≫= k) (bs1 ++ bs2) b.
Proof. intros Hm Hk d Hd. rewrite bind_eq. destruct (Hm d bs2 Hd) as [-> Hr]. by apply Hk. Qed.

Lemma consumes_try {A B} max (m : DecM (res A)) (k : A -> DecM (res B)) bs1 bs2 a b :
  parses max m bs1 (Ok a) -> consumes max (k a) bs2 b -> consumes max (try_bind m k) (bs1 ++ bs2) b.
Proof. intros Hm Hk. by eapply consumes_bind. Qed.

Lemma consumes_finish_then {B} max (k : unit -> DecM (res B)) bs b :
  consumes max (k tt) bs b -> consumes max (try_bind Dec.Finish k) bs b.
Proof. intros H. apply (consumes_try max _ k [] bs tt b (parses_finish max) H). Qed.

Lemma consumes_remaining {A} max (k : Z -> DecM A) bs a : consumes max (k (len bs)) bs a -> consumes max (Dec.Remaining ≫= k) bs a.
Proof.
  intros H d Hr. unfold Dec.Remaining, mbind, dec_bind. pose proof Hr as (_ & _ & Hw & Hd).
  rewrite <- len_rest, Hd by done. by apply H.
Qed.

Lemma consumes_ret {A} max (a : A) bs : consumes max (mret a) bs a.
Proof. done. Qed.

Lemma consumes_child {A} max payload bs (m : DecM A) a :
  ready max payload bs -> consumes max m bs a -> parses max (child payload m) [] a.
Proof. intros Hp Hm d r Hr. rewrite advance_0. split; [|done]. unfold child. by rewrite (Hm _ Hp). Qed.

Lemma consumes_new {A} max (m : DecM A) bs a : consumes max m bs a -> fst (m (NewDecoder bs (mkLimits max))) = a.
Proof. intros H. apply H, ready_new. Qed.

Lemma parses_consumes {A} max (m : DecM A) bs a : parses max m bs a -> consumes max m bs a.
Proof. intros H d Hd. rewrite <- (app_nil_r bs) in Hd. by destruct (H d [] Hd) as [-> _]. Qed.

(** [if err := decoder.Finish(); err != nil || decoder.Remaining() != 0 { return e }] *)
Definition ended (e : error) : DecM (res unit) :=
  r ← Dec.Finish;
  n ← Dec.Remaining;
  match r with Ok _ => if n =? 0 then ok tt else fail e | _ => fail e end.

Lemma consumes_ended {B} max e (k : unit -> DecM (res B)) b : consumes max (k tt) [] b -> consumes max (try_bind (ended e) k) [] b.
Proof.
  intros H d Hd. unfold try_bind, ended. rewrite !bind_eq. pose proof Hd as (He & _ & Hw & Hr). cbn. rewrite He. cbn.
  rewrite <- len_rest, Hr by done. cbn. by apply H.
Qed.

#[export] Instance safe_ended e : dec_safe (ended e).
Proof.
  apply safe_bind; [typeclasses eauto|intros r]. apply safe_bind; [typeclasses eauto|intros n].
  destruct r; [destruct (_ =? _)|..]; typeclasses eauto.
Qed.

(** ** What a successful read returned *)

Lemma take_some n d bs d' : 0 <= n -> dec_wf d -> Dec.take n d = (Some bs, d') ->
  len bs = n /\ d_err d' = None /\ d_err d = None.
Proof.
  intros Hn [H0 H1]. unfold Dec.take. destruct (d_err d) eqn:E; [done|].
  destruct (Z.ltb_spec (len (d_data d) - d_offset d) n); [done|]. intros [= <- <-]. cbn.
  split; [|done]. unfold slice, len in *. rewrite length_take, length_drop. lia.
Qed.

Lemma take_none n d d' : Dec.take n d = (None, d') -> d_err d' <> None.
Proof.
  unfold Dec.take. destruct (d_err d) eqn:E; [intros [= <-]; by rewrite E|].
  destruct (_ <? _); [|done]. by intros [= <-].
Qed.

Lemma raw_len n d bs d' : 0 <= n -> dec_wf d -> Dec.Raw n d = (bs, d') -> d_err d' = None ->
  len bs = n.
Proof.
  intros Hn Hw. unfold Dec.Raw, mbind, dec_bind, mret, dec_ret.
  destruct (Dec.take n d) as [[x|] d1] eqn:E; intros [= <- <-] He.
  - by apply take_some in E as (? & _).
  - by apply take_none in E.
Qed.

(** The state after one safe step is again well formed. *)
Lemma step_wf {A} (m : DecM A) `{!dec_safe m} d : dec_wf d -> dec_wf (snd (m d)).
Proof. intros. by apply safe_wf. Qed.

Lemma finish_ok d d' u : Dec.Finish d = (Ok u, d') -> d' = d /\ d_err d = None.
Proof. unfold Dec.Finish. destruct (d_err d); cbn; naive_solver. Qed.

Lemma try_ok {A B} (m : DecM (res A)) (k : A -> DecM (res B)) d b d' :
  try_bind m k d = (Ok b, d') -> exists a d1, m d = (Ok a, d1) /\ k a d1 = (Ok b, d').
Proof.
  unfold try_bind, mbind, dec_bind. destruct (m d) as [[a|e|] d1]; [|done..]. eauto.
Qed.

Lemma child_eq {A} payload (m : DecM A) d : child payload m d = (fst (m payload), d).
Proof. done. Qed.

(** ** What a decoder returns

    [yields m P]: whatever the input, the value [m] returns satisfies [P].
    [okP P] for a fallible decoder: it does not panic, and the value of a
    successful call satisfies [P]. *)

Definition yields {A} (m : DecM A) (P : A -> Prop) : Prop := forall d, P (fst (m d)).

Definition okP {A} (P : A -> Prop) (r : res A) : Prop :=
  match r with Ok a => P a | Err _ => True | Panic => False end.

Create HintDb yields.

Lemma yields_any {A} (m : DecM A) : yields m (fun _ => True).
Proof. done. Qed.

Lemma yields_impl {A} (m : DecM A) (P Q : A -> Prop) :
  yields m P -> (forall a, P a -> Q a) -> yields m Q.
Proof. intros H I d. apply I, H. Qed.

Lemma okP_impl {A} (P Q : A -> Prop) r : okP P r -> (forall a, P a -> Q a) -> okP Q r.
Proof. destruct r; cbn; auto. Qed.

Lemma yields_ret {A} (a : A) (P : A -> Prop) : P a -> yields (mret a) P.
Proof. by intros H d. Qed.

Lemma yields_ok {A} (a : A) (P : A -> Prop) : P a -> yields (ok a) (okP P).
Proof. by intros H d. Qed.

Lemma yields_fail {A} e (P : A -> Prop) : yields (fail e) (okP P).
Proof. done. Qed.

Lemma yields_bind {A B} (m : DecM A) (k : A -> DecM B) Q P :
  yields m Q -> (forall a, Q a -> yields (k a) P) -> yields (m ≫= k) P.
Proof.
  intros Hm Hk d. specialize (Hm d). unfold mbind, dec_bind.
  destruct (m d) as [a d']. by apply Hk.
Qed.

Lemma yields_try {A B} (m : DecM (res A)) (k : A -> DecM (res B)) Q P :
  yields m (okP Q) -> (forall a, Q a -> yields (k a) (okP P)) ->
  yields (try_bind m k) (okP P).
Proof.
  intros Hm Hk. eapply yields_bind; [exact Hm|]. intros [a|e|] Ha; [by apply Hk|done|done].
Qed.

Lemma yields_if {A} (b : bool) (m k : DecM A) P :
  (b = true -> yields m P) -> (b = false -> yields k P) -> yields (if b then m else k) P.
Proof. destruct b; auto. Qed.

Lemma yields_finish : yields Dec.Finish (okP (fun _ => True)).
Proof. intros d. cbn. by destruct (d_err d). Qed.

Lemma yields_child {A} payload (m : DecM A) P : yields m P -> yields (child payload m) P.
Proof. intros H d. rewrite child_eq. apply H. Qed.

Lemma yields_le n : yields (data ← Dec.fixed n; mret (le_combine data)) (inU (8 * Z.of_nat n)).
Proof.
  intros d. rewrite bind_eq. cbn [fst mret dec_ret].
  assert (length (fst (Dec.fixed n d)) <= n)%nat as Hl.
  { unfold Dec.fixed. rewrite bind_eq. unfold Dec.take. destruct (d_err d).
    { cbn. unfold zeros. by rewrite length_replicate. }
    destruct (_ <? _); cbn.
    { unfold zeros. by rewrite length_replicate. }
    unfold slice. rewrite length_take. lia. }
  pose proof (le_combine_bound (fst (Dec.fixed n d))) as B.
  eapply (inU_le (8 * Z.of_nat (length (fst (Dec.fixed n d))))); [lia|lia|exact B].
Qed.

Lemma yields_u8 : yields Dec.Uint8 (inU 8).
Proof.
  intros d. unfold Dec.Uint8. rewrite bind_eq.
  destruct (fst (Dec.take 1 d)) as [[|b ?]|]; cbn; [done|apply byte_inU|done].
Qed.

Lemma yields_u16 : yields Dec.Uint16 (inU 16).
Proof. apply (yields_le 2). Qed.
Lemma yields_u32 : yields Dec.Uint32 (inU 32).
Proof. apply (yields_le 4). Qed.
Lemma yields_u64 : yields Dec.Uint64 (inU 64).
Proof. apply (yields_le 8). Qed.

Lemma yields_i32 : yields Dec.Int32 (inS 32).
Proof. eapply yields_bind; [apply yields_any|]. intros v _. apply yields_ret, wrapS_range. lia. Qed.
Lemma yields_i64 : yields Dec.Int64 (inS 64).
Proof. eapply yields_bind; [apply yields_any|]. intros v _. apply yields_ret, wrapS_range. lia. Qed.

Lemma yields_repeat {A} n (m : DecM A) P :
  yields m P -> yields (repeat_dec n m) (fun l => length l = n /\ Forall P l).
Proof.
  intros Hm. induction n as [|n IH]; cbn [repeat_dec]; [by apply yields_ret|].
  eapply yields_bind; [exact Hm|]. intros a Ha. eapply yields_bind; [exact IH|].
  intros l [<- Hl]. apply yields_ret. split; [done|]. by constructor.
Qed.

(** Loops, by an invariant. *)
Lemma yields_loop {S} n (body : S -> DecM (res S)) s (I : S -> Prop) :
  I s -> (forall s, I s -> yields (body s) (okP I)) -> yields (loop_dec n body s) (okP I).
Proof.
  intros Hs Hb. revert s Hs. induction n as [|n IH]; intros s Hs; cbn [loop_dec]; [by apply yields_ok|].
  eapply yields_try; [by apply Hb|]. apply IH.
Qed.

Lemma yields_for {A S} (l : list A) (body : A -> S -> DecM (res S)) s (I : S -> Prop) :
  I s -> (forall x s, x ∈ l -> I s -> yields (body x s) (okP I)) -> yields (for_dec l body s) (okP I).
Proof.
  revert s. induction l as [|x l IH]; intros s Hs Hb; cbn [for_dec]; [by apply yields_ok|].
  eapply yields_try; [apply Hb; [set_solver|done]|]. intros s' Hs'. apply IH; [done|]. set_solver.
Qed.

#[export] Hint Resolve yields_u8 yields_u16 yields_u32 yields_u64 yields_i32 yields_i64
  yields_finish : yields.

(** One step of such a derivation: the next call of the sequence; [yany] when
    nothing needs to be known of its result. *)
Ltac ystep :=
  lazymatch goal with
  | |- yields (try_bind _ _) _ =>
      eapply yields_try; [solve [eauto 1 with yields nocore]|intros ? ?; cbv beta in *]
  | |- yields (mbind _ Dec.Remaining) _ => eapply yields_bind; [apply yields_any|intros ? _]
  | |- yields (mbind _ _) _ =>
      eapply yields_bind; [solve [eauto 1 with yields nocore]|intros ? ?; cbv beta in *]
  | |- yields (if _ then _ else _) _ => apply yields_if; intros ?; [apply yields_fail|]
  end.

Ltac yany := eapply yields_bind; [apply yields_any|intros ? _].

Ltac ysteps := repeat ystep.

(** ** Properties of the encoder and the decoder *)

(** The encoding routines: whatever is built from the methods of [Encoder],
    with a closure of the same kind inside [Versioned]. *)
Inductive encoding_routine : Enc.M -> Prop :=
  | er_skip : encoding_routine Enc.skip
  | er_raw bs : encoding_routine (Enc.Raw bs)
  | er_bytes bs : encoding_routine (Enc.Bytes bs)
  | er_versioned v c f : encoding_routine f -> encoding_routine (Enc.Versioned v c f)
  | er_seq f g : encoding_routine f -> encoding_routine g -> encoding_routine (f ⨾ g).

Definition enc_step_ok (f : Enc.M) : Prop := forall e, enc_wf e ->
  enc_wf (f e) /\ e_max (f e) = e_max e /\
  match e_err e with
  | None =>
      (e_err (f e) = None /\ e_buf e `prefix_of` e_buf (f e)) \/
      e_err (f e) = Some wire_ErrLimitExceeded
  | Some x =>
      e_buf (f e) = e_buf e /\
      (e_err (f e) = Some x \/ e_err (f e) = Some wire_ErrLimitExceeded)
  end.

Lemma enc_step_raw bs : enc_step_ok (Enc.Raw bs).
Proof.
  intros [b m [x|]] [Hm Hb]; unfold Enc.Raw, Enc.reserve, enc_wf in *; cbn in *; [auto|].
  destruct (_ || _) eqn:E; cbn; [auto|].
  apply orb_false_iff in E as [E1 E2]. apply Z.ltb_ge in E1, E2.
  rewrite len_app. split; [lia|]. split; [done|]. left. split; [done|]. by eexists.
Qed.

Lemma enc_step_set_err : enc_step_ok (Enc.set_err wire_ErrLimitExceeded).
Proof. intros [b m [x|]] We; cbn; auto. Qed.

Lemma enc_step_seq f g : enc_step_ok f -> enc_step_ok g -> enc_step_ok (f ⨾ g).
Proof.
  intros Hf Hg e We. unfold Enc.seq. destruct (Hf e We) as (W1 & M1 & S1).
  destruct (Hg (f e) W1) as (W2 & M2 & S2).
  split; [done|]. split; [congruence|].
  destruct (e_err e) as [x|].
  - destruct S1 as [B1 [E1|E1]]; rewrite E1 in S2; destruct S2 as [B2 S2];
      (split; [congruence|]); naive_solver.
  - destruct S1 as [[E1 P1]|E1]; rewrite E1 in S2.
    + destruct S2 as [[E2 P2]|E2]; [left|by right]. split; [done|]. by etrans.
    + right. naive_solver.
Qed.

Lemma enc_step_versioned v c f : enc_step_ok f -> enc_step_ok (Enc.Versioned v c f).
Proof.
  intros Hf e We. unfold Enc.Versioned.
  assert (0 <= u32 (Z.min (e_max e) MaxUint32) <= MaxUint32) as Hmax.
  { pose proof (wrapU_range 32 (Z.min (e_max e) MaxUint32)). unfold inU, MaxUint32 in *. lia. }
  destruct (Hf _ (NewEncoder_wf _ Hmax)) as (_ & _ & S1).
  set (payload := f (NewEncoder _)) in *.
  destruct (e_err payload) as [x|] eqn:Ep; cbn in S1.
  - destruct S1 as [[? _]|[= ->]]; [done|]. pose proof (enc_step_set_err e We) as S.
    destruct (e_err e) eqn:Ee; [|exact S]. rewrite ?Ee. auto.
  - apply (enc_step_seq _ _ (enc_step_seq _ _ (enc_step_seq _ _ (enc_step_raw _) (enc_step_raw _))
      (enc_step_raw _)) (enc_step_raw _) e We).
Qed.

Lemma enc_routine_step f : encoding_routine f -> enc_step_ok f.
Proof.
  induction 1; auto using enc_step_raw, enc_step_seq, enc_step_versioned.
  - intros e We. unfold Enc.skip. split; [done|]. split; [done|]. destruct (e_err e); auto.
  - intros e We. unfold Enc.Bytes. destruct (_ <? _); [apply (enc_step_set_err e We)|].
    apply (enc_step_seq _ _ (enc_step_raw _) (enc_step_raw _) e We).
Qed.

(** C33. Whatever encoding routine runs on an encoder made with limit [max],
    the result is at most [max] bytes or the limit error, never a panic and
    never another error; and once the encoder has failed, no later routine
    makes it succeed or changes its buffer. *)
Theorem encoder_bounded_and_sticky f g max :
  encoding_routine f -> encoding_routine g -> 0 <= max <= MaxUint32 ->
  match Enc.BytesResult (f (NewEncoder max)) with
  | Ok bs => len bs <= max
  | Err e => e = wire_ErrLimitExceeded /\
             Enc.BytesResult (g (f (NewEncoder max))) = Err wire_ErrLimitExceeded /\
             e_buf (g (f (NewEncoder max))) = e_buf (f (NewEncoder max))
  | Panic => False
  end.
Proof.
  intros Rf Rg Hm. destruct (enc_routine_step f Rf _ (NewEncoder_wf max Hm)) as (W & M & S).
  destruct (enc_routine_step g Rg _ W) as (_ & _ & T).
  unfold Enc.BytesResult. destruct (e_err (f (NewEncoder max))) as [x|] eqn:E; cbn in *.
  - destruct S as [[? _]|[= ->]]; [done|]. destruct T as [-> [-> | ->]]; auto.
  - destruct W as [_ W]. by rewrite M in W.
Qed.

Lemma encoder_bounded_and_sticky_witness :
  Enc.BytesResult ((Enc.Uint32 7 ⨾ Enc.Raw [Byte.x01]) (NewEncoder 4)) = Err wire_ErrLimitExceeded /\
  Enc.BytesResult (Enc.skip ((Enc.Uint32 7 ⨾ Enc.Raw [Byte.x01]) (NewEncoder 4))) =
    Err wire_ErrLimitExceeded.
Proof.
  split; [vm_compute; reflexivity|].
  pose proof (encoder_bounded_and_sticky (Enc.Uint32 7 ⨾ Enc.Raw [Byte.x01]) Enc.skip 4
    (er_seq _ _ (er_raw _) (er_raw _)) er_skip ltac:(unfold MaxUint32; lia)) as H.
  vm_compute in H. vm_compute. tauto.
Defined.

(** C34. Forward compatibility of the versioned envelope: a decoder that
    understands version [local] reads the fields it knows from the child,
    ignores the unknown trailing fields of the payload, and the parent
    continues exactly after the envelope; an envelope that requires a newer
    reader is refused and the refusal is sticky. *)
Theorem versioned_envelope {A} (p : DecM A) max local v c known unknown r a :
  inU 8 v -> inU 8 c -> len (known ++ unknown) <= max -> max <= MaxUint32 ->
  parses max p known a ->
  let '((v', payload), d') :=
    Dec.Versioned local (NewDecoder (envelope v c (known ++ unknown) ++ r) (mkLimits max)) in
  if local <? c
  then d_err d' = Some wire_ErrUnsupportedVersion /\ snd (Dec.Uint8 d') = d'
  else v' = v /\ fst (p payload) = a /\ d_err d' = None /\ rest d' = r.
Proof.
  intros Hv Hc Hl Hm Hp. destruct (Z.ltb_spec local c) as [Hlt|Hle].
  - unfold Dec.Versioned, envelope.
    set (tail := le_split 4 (len (known ++ unknown)) ++ (known ++ unknown)).
    pose proof (ready_new max ((byte.of_Z v :: byte.of_Z c :: tail) ++ r)) as R0.
    destruct (parses_u8 max v Hv _ (byte.of_Z c :: tail ++ r) R0) as [E1 R1].
    destruct (parses_u8 max c Hc _ (tail ++ r) R1) as [E2 R2].
    unfold tail in R2. rewrite <- app_assoc in R2.
    pose proof (len_nonneg (known ++ unknown)).
    destruct (parses_u32 max (len (known ++ unknown)) ltac:(unfold inU, MaxUint32 in *; lia) _ _ R2)
      as [E3 R3].
    unfold mbind, dec_bind. subst tail. rewrite E1, E2, E3. destruct R3 as (Herr & _).
    unfold Dec.get_err. rewrite Herr. destruct (Z.ltb_spec local c); [|lia]. done.
  - destruct (parses_versioned max local v c (known ++ unknown) Hv Hc ltac:(lia) Hl Hm _ r
      (ready_new max _)) as [-> (He & _ & _ & Hr)].
    destruct (Hp _ unknown (ready_new max (known ++ unknown))) as [-> _]. done.
Qed.

Lemma versioned_envelope_witness :
  let bs := envelope 3 1 (le_split 4 258 ++ [Byte.x09; Byte.x08]) ++ [Byte.x07] in
  let '((v', payload), d') := Dec.Versioned 2 (NewDecoder bs (mkLimits 64)) in
  v' = 3 /\ fst (Dec.Uint32 payload) = 258 /\ d_err d' = None /\ rest d' = [Byte.x07].
Proof.
  apply (versioned_envelope Dec.Uint32 64 2 3 1 (le_split 4 258) [Byte.x09; Byte.x08] [Byte.x07] 258);
    [unfold inU; lia | unfold inU; lia | vm_compute; discriminate | vm_compute; discriminate |].
  apply parses_u32. unfold inU. lia.
Defined.
