(* ===== verification/Crc.v ===== *)
(** * CRC-32C (src/internal/encoding/crc.go)

    [hash/crc32]'s table and byte loop for the Castagnoli polynomial, and
    [CRC32C] with the seed and final complement Ceph uses. *)

From stdpp Require Import base gmap list numbers strings.
From coqutil Require Import Byte Word.LittleEndianList.
From S2P Require Import Prelude.

Open Scope Z_scope.

Definition castagnoli : Z := 0x82f63b78.

(** One bit of the reflected polynomial division. *)
Definition crc_bit (poly crc : Z) : Z :=
  if Z.land crc 1 =? 1 then Z.lxor (Z.shiftr crc 1) poly else Z.shiftr crc 1.

Definition makeTable (poly : Z) : list Z :=
  (fun i => Nat.iter 8 (crc_bit poly) (Z.of_nat i)) <$> seq 0 256.

Definition castagnoliTable : list Z := Eval vm_compute in makeTable castagnoli.

Definition not32 (x : Z) : Z := Z.lxor x (2 ^ 32 - 1).

Definition crc_step (tab : list Z) (crc : Z) (b : Byte.byte) : Z :=
  Z.lxor (nth (Z.to_nat (Z.lxor (Z.land crc 0xff) (byte.unsigned b))) tab 0) (Z.shiftr crc 8).

Definition crc32_Update (crc : Z) (tab : list Z) (p : bytes) : Z :=
  not32 (foldl (crc_step tab) (not32 crc) p).

Definition CRC32C (seed : Z) (payload : bytes) : Z :=
  not32 (crc32_Update (not32 seed) castagnoliTable payload).

Example CRC32C_check :
  CRC32C 0xffffffff (byte.of_Z <$> [49;50;51;52;53;54;55;56;57]) = not32 0xE3069283.
Proof. vm_compute. reflexivity. Qed.

(** ** Lemmas *)

Lemma lxor_cancel_l a b c : Z.lxor a b = Z.lxor a c -> b = c.
Proof.
  intros H. apply (f_equal (Z.lxor a)) in H.
  by rewrite <- !Z.lxor_assoc, Z.lxor_nilpotent, !Z.lxor_0_l in H.
Qed.

Lemma not32_involutive x : not32 (not32 x) = x.
Proof. unfold not32. by rewrite Z.lxor_assoc, Z.lxor_nilpotent, Z.lxor_0_r. Qed.

(** The two complements cancel: [CRC32C] is the plain table loop. *)
Lemma CRC32C_loop seed payload :
  CRC32C seed payload = foldl (crc_step castagnoliTable) seed payload.
Proof. unfold CRC32C, crc32_Update. by rewrite !not32_involutive. Qed.

Definition u32_entry (tab : list Z) : bool :=
  forallb (fun t => (0 <=? t) && (t <? 2 ^ 32)) tab.

Lemma table_u32 i : inU 32 (nth i castagnoliTable 0).
Proof.
  assert (u32_entry castagnoliTable = true) as H by (vm_compute; reflexivity).
  destruct (nth_in_or_default i castagnoliTable 0) as [Hi| ->]; [|unfold inU; lia].
  unfold u32_entry in H. rewrite forallb_forall in H. specialize (H _ Hi).
  apply andb_true_iff in H as [? ?]. unfold inU. lia.
Qed.

(** The high bytes of the table are a permutation of the byte values. *)
Lemma table_high_inj i j : (i < 256)%nat -> (j < 256)%nat ->
  Z.shiftr (nth i castagnoliTable 0) 24 = Z.shiftr (nth j castagnoliTable 0) 24 -> i = j.
Proof.
  intros Hi Hj E.
  assert (NoDup ((fun t => Z.shiftr t 24) <$> castagnoliTable)) as ND.
  { apply (bool_decide_eq_true_1 _). vm_compute. reflexivity. }
  assert (forall k, (k < 256)%nat ->
    ((fun t => Z.shiftr t 24) <$> castagnoliTable) !! k = Some (Z.shiftr (nth k castagnoliTable 0) 24)) as L.
  { intros k Hk. rewrite list_lookup_fmap.
    destruct (lookup_lt_is_Some_2 castagnoliTable k) as [t Ht]; [exact Hk|].
    rewrite Ht. cbn [fmap option_fmap option_map]. by rewrite (nth_lookup_Some _ _ _ _ Ht). }
  eapply NoDup_lookup; [exact ND|by apply L|]. rewrite E. by apply L.
Qed.

Definition crc_index (crc : Z) (b : Byte.byte) : Z :=
  Z.lxor (Z.land crc 0xff) (byte.unsigned b).

Lemma crc_index_range crc b : inU 8 (crc_index crc b).
Proof. apply inU_lxor; [lia|apply inU_land_r; [lia|]|apply byte_inU]. unfold inU. lia. Qed.

Lemma crc_step_u32 crc b : inU 32 crc -> inU 32 (crc_step castagnoliTable crc b).
Proof.
  intros Hc. apply inU_lxor; [lia|apply table_u32|].
  apply inU_shiftr; [lia| |lia]. apply (inU_le 32); [lia..|done].
Qed.

(** The table index and the high bits of the state can be read off the next
    state. *)
Lemma crc_step_inv c1 b1 c2 b2 : inU 32 c1 -> inU 32 c2 ->
  crc_step castagnoliTable c1 b1 = crc_step castagnoliTable c2 b2 ->
  crc_index c1 b1 = crc_index c2 b2 /\ Z.shiftr c1 8 = Z.shiftr c2 8.
Proof.
  intros H1 H2 E. unfold crc_step in E. fold (crc_index c1 b1) (crc_index c2 b2) in E.
  assert (forall c, inU 32 c -> Z.shiftr (Z.shiftr c 8) 24 = 0) as S.
  { intros c Hc. rewrite Z.shiftr_shiftr by lia. rewrite Z.shiftr_div_pow2 by lia.
    apply Z.div_small. exact Hc. }
  assert (crc_index c1 b1 = crc_index c2 b2) as I.
  { pose proof (f_equal (fun z => Z.shiftr z 24) E) as E24. cbn beta in E24.
    rewrite !Z.shiftr_lxor, !S, !Z.lxor_0_r in E24 by done.
    pose proof (crc_index_range c1 b1) as [? ?]. pose proof (crc_index_range c2 b2) as [? ?].
    apply table_high_inj in E24; lia. }
  rewrite I in E. apply lxor_cancel_l in E. done.
Qed.

Lemma crc_step_inj c1 c2 b : inU 32 c1 -> inU 32 c2 ->
  crc_step castagnoliTable c1 b = crc_step castagnoliTable c2 b -> c1 = c2.
Proof.
  intros H1 H2 E. destruct (crc_step_inv _ _ _ _ H1 H2 E) as [I S].
  unfold crc_index in I. rewrite !(Z.lxor_comm _ (byte.unsigned b)) in I.
  apply lxor_cancel_l in I. change 0xff with (Z.ones 8) in I.
  rewrite !Z.land_ones in I by lia. rewrite !Z.shiftr_div_pow2 in S by lia.
  rewrite (Z.div_mod c1 (2 ^ 8)), (Z.div_mod c2 (2 ^ 8)) by lia. congruence.
Qed.

Lemma crc_loop_u32 p crc : inU 32 crc -> inU 32 (foldl (crc_step castagnoliTable) crc p).
Proof. revert crc. induction p; intros; cbn; auto using crc_step_u32. Qed.

Lemma crc_loop_inj p c1 c2 : inU 32 c1 -> inU 32 c2 ->
  foldl (crc_step castagnoliTable) c1 p = foldl (crc_step castagnoliTable) c2 p -> c1 = c2.
Proof.
  revert c1 c2. induction p as [|b p IH]; intros c1 c2 H1 H2 E; cbn in E; [done|].
  apply IH in E; [|by apply crc_step_u32..]. by apply crc_step_inj in E.
Qed.

Lemma CRC32C_byte_inj seed pre b b' post : inU 32 seed ->
  CRC32C seed (pre ++ b :: post) = CRC32C seed (pre ++ b' :: post) -> b = b'.
Proof.
  intros Hs E. rewrite !CRC32C_loop, !foldl_app in E. cbn [foldl] in E.
  pose proof (crc_loop_u32 pre seed Hs) as Hp.
  apply crc_loop_inj in E; [|by apply crc_step_u32..].
  destruct (crc_step_inv _ _ _ _ Hp Hp E) as [I _]. apply lxor_cancel_l in I.
  by apply byte.unsigned_inj in I.
Qed.

Lemma CRC32C_u32 seed p : inU 32 seed -> inU 32 (CRC32C seed p).
Proof. rewrite CRC32C_loop. apply crc_loop_u32. Qed.

(** ** Properties *)

(** The checksum of a concatenation is the checksum of the second part
    seeded with the checksum of the first: the OSDMap decoder may skip over
    the four bytes of the embedded checksum by chaining two calls. *)
Theorem CRC32C_app seed a b : CRC32C seed (a ++ b) = CRC32C (CRC32C seed a) b.
Proof. by rewrite !CRC32C_loop, foldl_app. Qed.

(** C40. Corruption of one byte is always detected: two payloads that differ
    in exactly one byte have different checksums, whatever the seed. *)
Theorem CRC32C_detects_byte seed pre b b' post :
  inU 32 seed -> b <> b' ->
  CRC32C seed (pre ++ b :: post) <> CRC32C seed (pre ++ b' :: post).
Proof. intros Hs Hb E. by apply CRC32C_byte_inj in E. Qed.

Lemma CRC32C_detects_byte_witness :
  CRC32C 0 ([Byte.x01] ++ Byte.x02 :: [Byte.x03]) <> CRC32C 0 ([Byte.x01] ++ Byte.x82 :: [Byte.x03]).
Proof. apply CRC32C_detects_byte; [unfold inU; lia|discriminate]. Defined.
