(* ===== verification/Protocol.v ===== *)
(** * Protocol values (src/internal/protocol)

    Features, errno classes, entity names and entity addresses, with the
    legacy and the modern address encodings.  [netip] holds what
    address.go uses of Go's [net/netip]. *)

From stdpp Require Import base gmap list numbers strings.
From coqutil Require Import Byte Word.LittleEndianList.
From S2P Require Import Prelude Codec.

Open Scope Z_scope.
Open Scope go_scope.

(** ** Features (features.go) *)

Definition FeatureServerNautilus : Z := 2 ^ 2.
Definition FeatureServerMimicIncarnation : Z := Z.lor (2 ^ 57) (2 ^ 28).
Definition FeatureServerNautilusMask : Z :=
  Z.lor FeatureServerNautilus FeatureServerMimicIncarnation.
Definition FeatureMessageAddress2 : Z := 2 ^ 59.

Definition Has (features mask : Z) : bool := Z.land features mask =? mask.

(** ** Wire errno classes (errno.go) *)

Inductive ErrorClass :=
  | ErrorUnknown | ErrorNotFound | ErrorExists | ErrorPermission | ErrorUnsupported
  | ErrorInvalid | ErrorQuotaOrFull | ErrorConflict | ErrorTimeout | ErrorCanceled.

Definition Class_ (errno : Z) : ErrorClass :=
  if errno =? -2 then ErrorNotFound
  else if errno =? -17 then ErrorExists
  else if (errno =? -1) || (errno =? -13) then ErrorPermission
  else if (errno =? -38) || (errno =? -95) then ErrorUnsupported
  else if errno =? -22 then ErrorInvalid
  else if (errno =? -28) || (errno =? -122) then ErrorQuotaOrFull
  else if (errno =? -11) || (errno =? -16) || (errno =? -35) then ErrorConflict
  else if errno =? -110 then ErrorTimeout
  else if errno =? -125 then ErrorCanceled
  else ErrorUnknown.

Definition WireErrno_Encode (errno : Z) : Enc.M := Enc.Int32 errno.
Definition DecodeWireErrno : DecM Z := Dec.Int32.

(** ** Entity names (entity.go) *)

Record EntityName := mkEntityName { en_Type : Z; en_Num : Z }.

Definition EntityName_Encode (name : EntityName) : Enc.M :=
  Enc.Uint8 (en_Type name) ⨾ Enc.Int64 (en_Num name).

Definition DecodeEntityName : DecM EntityName :=
  t ← Dec.Uint8; n ← Dec.Int64; mret (mkEntityName t n).

(** ** Entity addresses (address.go) *)

Definition linuxAFUnspec : Z := 0.
Definition linuxAFInet : Z := 2.
Definition linuxAFInet6 : Z := 10.
Definition legacySockaddrSize : nat := 128.

Definition AddressNone : Z := 0.
Definition AddressLegacy : Z := 1.
Definition AddressV2 : Z := 2.
Definition AddressAny : Z := 3.

Record EntityAddr := mkEntityAddr {
  Type_ : Z;
  Nonce : Z;
  Family : Z;
  SocketData : bytes }.

(** What the source uses of [net/netip]. *)
Module netip.

Inductive Addr :=
  | AddrInvalid
  | Addr4 (a : bytes)
  | Addr6 (a : bytes) (zone : bytes).

Record AddrPort := mkAddrPort { addr : Addr; port : Z }.

#[global] Instance addr_eq_dec : EqDecision Addr.
Proof. solve_decision. Defined.

#[global] Instance addrport_eq_dec : EqDecision AddrPort.
Proof. solve_decision. Defined.

Definition Is4 (a : Addr) : bool := match a with Addr4 _ => true | _ => false end.
Definition Is6 (a : Addr) : bool := match a with Addr6 _ _ => true | _ => false end.
Definition Is4In6 (a : Addr) : bool :=
  match a with
  | Addr6 b _ => bool_decide (take 12 b = zeros 10 ++ [Byte.xff; Byte.xff])
  | _ => false
  end.
Definition Unmap (a : Addr) : Addr :=
  match a with
  | Addr6 b _ => if Is4In6 a then Addr4 (drop 12 b) else a
  | _ => a
  end.
Definition Zone (a : Addr) : bytes := match a with Addr6 _ z => z | _ => [] end.

Definition wf (a : Addr) : Prop :=
  match a with
  | AddrInvalid => True
  | Addr4 b => length b = 4%nat
  | Addr6 b _ => length b = 16%nat
  end.

End netip.

(** [binary.BigEndian.PutUint16] and [binary.BigEndian.Uint16]. *)
Definition be16 (v : Z) : bytes := rev (le_split 2 v).
Definition be16_get (b : bytes) : Z := le_combine (rev (take 2 b)).

Arguments be16 : simpl never.
Arguments be16_get : simpl never.

Definition IPv4EntityAddr (addressType nonce : Z) (endpoint : netip.AddrPort) : res EntityAddr :=
  match netip.Unmap (netip.addr endpoint) with
  | netip.Addr4 value =>
      Ok (mkEntityAddr addressType nonce linuxAFInet
            (be16 (netip.port endpoint) ++ value ++ zeros 8))
  | _ => Err protocol_ErrInvalidAddress
  end.

Definition IPv6EntityAddr (addressType nonce : Z) (endpoint : netip.AddrPort)
    (flowInfo scopeID : Z) : res EntityAddr :=
  let address := netip.addr endpoint in
  if negb (netip.Is6 address) || netip.Is4In6 address
     || negb (bool_decide (netip.Zone address = []))
  then Err protocol_ErrInvalidAddress
  else match address with
  | netip.Addr6 value _ =>
      Ok (mkEntityAddr addressType nonce linuxAFInet6
            (be16 (netip.port endpoint) ++ le_split 4 flowInfo ++ value ++ le_split 4 scopeID))
  | _ => Err protocol_ErrInvalidAddress
  end.

Definition EntityAddr_AddrPort (address : EntityAddr) : option netip.AddrPort :=
  let data := SocketData address in
  if Family address =? linuxAFInet then
    if negb (len data =? 14) then None
    else Some (netip.mkAddrPort (netip.Addr4 (slice 2 6 data)) (be16_get data))
  else if Family address =? linuxAFInet6 then
    if negb (len data =? 26) then None
    else Some (netip.mkAddrPort (netip.Addr6 (slice 6 22 data) []) (be16_get data))
  else None.

Definition socketDataLength (family : Z) : res Z :=
  if family =? linuxAFInet then Ok 14
  else if (family =? linuxAFUnspec) || (family =? linuxAFInet6) then Ok 26
  else Err protocol_ErrInvalidAddress.

Definition validate (address : EntityAddr) : option error :=
  match socketDataLength (Family address) with
  | Ok length =>
      if negb (len (SocketData address) =? length) then Some protocol_ErrInvalidAddress else None
  | Err e => Some e
  | Panic => None
  end.

(** [copy(dst, src)] into a fresh buffer of [n] zero bytes. *)
Definition copy_into_zeros (n : nat) (src : bytes) : bytes := take n (src ++ zeros n).

Definition EntityAddr_Encode (address : EntityAddr) (features : Z) (e : Encoder)
    : option error * Encoder :=
  match validate address with
  | Some err => (Some err, e)
  | None =>
      if negb (Has features FeatureMessageAddress2) then
        let legacy := be16 (Family address) ++ copy_into_zeros 126 (SocketData address) in
        (None, (Enc.Uint32 0 ⨾ Enc.Uint32 (Nonce address) ⨾ Enc.Raw legacy) e)
      else
        let addressType :=
          if (Type_ address =? AddressAny) && negb (Has features FeatureServerNautilusMask)
          then AddressLegacy else Type_ address in
        (None, (Enc.Uint8 1 ⨾ Enc.Versioned 1 1 (
            Enc.Uint32 addressType ⨾
            Enc.Uint32 (Nonce address) ⨾
            Enc.Uint32 (u32 (2 + len (SocketData address))) ⨾
            Enc.Uint16 (Family address) ⨾
            Enc.Raw (SocketData address))) e)
  end.

Definition decodeEntityAddrAfterMarker (marker : Z) : DecM (res EntityAddr) :=
  if marker =? 0 then
    _ ← Dec.Raw 3;
    nonce ← Dec.Uint32;
    sockaddr ← Dec.Raw (Z.of_nat legacySockaddrSize);
    _ ←? Dec.Finish;
    let family := be16_get sockaddr in
    let addressType := if family =? linuxAFUnspec then AddressNone else AddressLegacy in
    match socketDataLength family with
    | Ok dataLength => ok (mkEntityAddr addressType nonce family (slice 2 (2 + dataLength) sockaddr))
    | Err e => fail e
    | Panic => mret Panic
    end
  else if marker =? 1 then
    '(_, payload) ← Dec.Versioned 1;
    r ← child payload (
      addressType ← Dec.Uint32;
      nonce ← Dec.Uint32;
      encodedLength ← Dec.Uint32;
      if encodedLength =? 0 then
        _ ←? Dec.Finish;
        ok (mkEntityAddr addressType nonce 0 (zeros 26))
      else if encodedLength <? 2 then fail protocol_ErrInvalidAddress
      else
        family ← Dec.Uint16;
        let dataLength := encodedLength - 2 in
        match socketDataLength family with
        | Ok maximum =>
            if maximum <? dataLength then fail protocol_ErrInvalidAddress
            else
              raw ← Dec.Raw dataLength;
              let data := copy_into_zeros (Z.to_nat maximum) raw in
              _ ←? Dec.Finish;
              ok (mkEntityAddr addressType nonce family data)
        | _ => fail protocol_ErrInvalidAddress
        end);
    match r with
    | Ok a => _ ←? Dec.Finish; ok a
    | Err e => fail e
    | Panic => mret Panic
    end
  else fail protocol_ErrInvalidAddress.

Definition DecodeEntityAddr : DecM (res EntityAddr) :=
  marker ← Dec.Uint8;
  _ ←? Dec.Finish;
  decodeEntityAddrAfterMarker marker.

(** ** Address vectors *)

(** [for _, address := range addresses { if err := address.Encode(...) ... }] *)
Fixpoint encode_each (addresses : list EntityAddr) (features : Z) (e : Encoder)
    : option error * Encoder :=
  match addresses with
  | [] => (None, e)
  | a :: rest =>
      match EntityAddr_Encode a features e with
      | (Some err, e) => (Some err, e)
      | (None, e) => encode_each rest features e
      end
  end.

Definition EntityAddrVec_Encode (addresses : list EntityAddr) (features : Z) (e : Encoder)
    : option error * Encoder :=
  if negb (Has features FeatureMessageAddress2) then
    let address :=
      default (mkEntityAddr 0 0 linuxAFUnspec (zeros 26))
        (find (fun candidate => Type_ candidate =? AddressLegacy) addresses) in
    EntityAddr_Encode address 0 e
  else if MaxUint32 <? len addresses then (Some wire_ErrLimitExceeded, e)
  else encode_each addresses features ((Enc.Uint8 2 ⨾ Enc.Uint32 (len addresses)) e).

Definition DecodeEntityAddrVec (maxAddresses : Z) : DecM (res (list EntityAddr)) :=
  marker ← Dec.Uint8;
  _ ←? Dec.Finish;
  if marker <? 2 then
    address ←? decodeEntityAddrAfterMarker marker;
    ok [address]
  else if 2 <? marker then fail protocol_ErrInvalidAddress
  else
    count ← Dec.Uint32;
    if maxAddresses <? count then fail wire_ErrLimitExceeded
    else
      remaining ← Dec.Remaining;
      if remaining <? count then fail wire_ErrMalformed
      else
        addresses ←? loop_dec (Z.to_nat count) (fun acc =>
          address ←? DecodeEntityAddr; ok (acc ++ [address])) [];
        _ ←? Dec.Finish;
        ok addresses.

(** ** The bytes of an address and the value a reader gets back *)

Definition addr_wf (a : EntityAddr) : Prop :=
  inU 32 (Type_ a) /\ inU 32 (Nonce a) /\ inU 16 (Family a) /\ validate a = None.

Definition sent_type (features : Z) (a : EntityAddr) : Z :=
  if (Type_ a =? AddressAny) && negb (Has features FeatureServerNautilusMask)
  then AddressLegacy else Type_ a.

Definition addr_payload (t : Z) (a : EntityAddr) : bytes :=
  le_split 4 t ++ le_split 4 (Nonce a) ++ le_split 4 (2 + len (SocketData a)) ++
  le_split 2 (Family a) ++ SocketData a.

Definition addr_bytes (features : Z) (a : EntityAddr) : bytes :=
  if Has features FeatureMessageAddress2
  then byte.of_Z 1 :: envelope 1 1 (addr_payload (sent_type features a) a)
  else le_split 4 0 ++ le_split 4 (Nonce a) ++ be16 (Family a) ++ copy_into_zeros 126 (SocketData a).

(** The legacy form carries no type: a reader sees [AddressLegacy], or
    [AddressNone] for the unspecified family. *)
Definition addr_received (features : Z) (a : EntityAddr) : EntityAddr :=
  mkEntityAddr
    (if Has features FeatureMessageAddress2 then sent_type features a
     else if Family a =? linuxAFUnspec then AddressNone else AddressLegacy)
    (Nonce a) (Family a) (SocketData a).

Lemma validate_length a : validate a = None ->
  exists n, socketDataLength (Family a) = Ok n /\ len (SocketData a) = n /\ (n = 14 \/ n = 26).
Proof.
  unfold validate, socketDataLength. intros H.
  destruct (Family a =? linuxAFInet); [|destruct (_ || _)]; [| |done];
    (destruct (negb _) eqn:E; [done|]); bsplit; apply Z.eqb_eq in E; eauto.
Qed.

Lemma length_be16 v : length (be16 v) = 2%nat.
Proof. unfold be16. by rewrite length_rev, length_le_split. Qed.

Lemma be16_get_put v r : inU 16 v -> be16_get (be16 v ++ r) = v.
Proof.
  intros Hv. unfold be16_get. rewrite take_app_le by (rewrite length_be16; lia).
  rewrite take_ge by (rewrite length_be16; lia). unfold be16. rewrite rev_involutive.
  by apply le_combine_le_split_id.
Qed.

Lemma length_copy n src : length (copy_into_zeros n src) = n.
Proof. unfold copy_into_zeros, zeros. rewrite length_take, length_app, length_replicate. lia. Qed.

Lemma copy_exact n src : length src = n -> copy_into_zeros n src = src.
Proof. intros <-. unfold copy_into_zeros. by rewrite take_app_length. Qed.

Lemma addr_emits features a : addr_wf a ->
  fst (EntityAddr_Encode a features (NewEncoder 0)) = None /\
  emits (fun e => snd (EntityAddr_Encode a features e)) (addr_bytes features a).
Proof.
  intros (Ht & Hn & Hf & Hv). destruct (validate_length a Hv) as (n & _ & Hl & Hr).
  unfold EntityAddr_Encode, addr_bytes. rewrite Hv.
  destruct (Has features FeatureMessageAddress2); cbn [negb]; (split; [done|]).
  - apply (emits_seq _ _ [_]); [apply emits_u8|]. apply emits_versioned.
    unfold addr_payload. rewrite wrapU_id by (unfold inU; lia). auto 10 with wire.
  - apply emits_seq; [apply emits_u32|]. auto with wire.
Qed.

Lemma encode_ok_any features a e e' :
  fst (EntityAddr_Encode a features e) = fst (EntityAddr_Encode a features e').
Proof. unfold EntityAddr_Encode. destruct (validate a); [done|]. by destruct (negb _). Qed.

Lemma len_addr_payload t a : len (addr_payload t a) = 14 + len (SocketData a).
Proof. unfold addr_payload. rewrite !len_app, !len_le_split. lia. Qed.

Lemma inU_sent_type features a : inU 32 (Type_ a) -> inU 32 (sent_type features a).
Proof. unfold sent_type, AddressLegacy. destruct (_ && _); [unfold inU; lia|done]. Qed.

(** The child reads the whole payload of a modern address. *)
Lemma addr_parses_modern max features a :
  addr_wf a -> Has features FeatureMessageAddress2 = true ->
  14 + len (SocketData a) <= max -> max <= MaxUint32 ->
  parses max (decodeEntityAddrAfterMarker 1)
    (envelope 1 1 (addr_payload (sent_type features a) a)) (Ok (addr_received features a)).
Proof.
  intros (Ht & Hn & Hf & Hv) HF Hl Hm. destruct (validate_length a Hv) as (n & Hs & Hd & Hr).
  unfold decodeEntityAddrAfterMarker. change (1 =? 0) with false. cbn iota. change (1 =? 1) with true. cbn iota.
  eapply parses_eq; [eapply (parses_bind _ _ _ _ []);
    [apply (parses_versioned max 1 1 1 (addr_payload (sent_type features a) a))|]
    |apply app_nil_r|reflexivity].
  1-3: unfold inU; lia. 1: by rewrite len_addr_payload. 1: done. cbn beta iota.
  apply (parses_bind _ _ _ [] [] (Ok (addr_received features a))).
  2: { apply parses_finish_ok. }
  eapply parses_child; [rewrite app_nil_r; apply ready_new|].
  unfold addr_payload. eapply parses_bind; [apply parses_u32; by apply inU_sent_type|].
  eapply parses_bind; [by apply parses_u32|].
  eapply parses_bind; [apply parses_u32; unfold inU; lia|].
  destruct (Z.eqb_spec (2 + len (SocketData a)) 0); [lia|].
  destruct (Z.ltb_spec (2 + len (SocketData a)) 2); [lia|].
  eapply parses_bind; [by apply parses_u16|]. cbn beta. rewrite Hs.
  replace (2 + len (SocketData a) - 2) with (len (SocketData a)) by lia.
  destruct (Z.ltb_spec n (len (SocketData a))); [lia|].
  eapply parses_eq; [eapply parses_bind; [by apply parses_raw|] | apply app_nil_r |].
  { apply parses_finish_ok. }
  unfold addr_received. rewrite HF, copy_exact; [done|]. unfold len in Hd. lia.
Qed.

(** The legacy form after its first marker byte, which is zero. *)
Definition legacy_tail (a : EntityAddr) : bytes :=
  zeros 3 ++ le_split 4 (Nonce a) ++ be16 (Family a) ++ copy_into_zeros 126 (SocketData a).

Lemma addr_bytes_legacy features a : Has features FeatureMessageAddress2 = false ->
  addr_bytes features a = [byte.of_Z 0] ++ legacy_tail a.
Proof. intros HF. unfold addr_bytes. by rewrite HF. Qed.

Lemma addr_parses_legacy_tail max features a :
  addr_wf a -> Has features FeatureMessageAddress2 = false ->
  parses max (decodeEntityAddrAfterMarker 0) (legacy_tail a) (Ok (addr_received features a)).
Proof.
  intros (Ht & Hn & Hf & Hv) HF. destruct (validate_length a Hv) as (n & Hs & Hd & Hr).
  unfold decodeEntityAddrAfterMarker. change (0 =? 0) with true. cbn iota. unfold legacy_tail.
  eapply parses_bind; [by apply parses_raw|].
  eapply parses_bind; [by apply parses_u32|].
  eapply parses_eq; [eapply parses_bind; [apply parses_raw|] | apply app_nil_r |reflexivity].
  { unfold len. by rewrite length_app, length_be16, length_copy. }
  apply parses_finish_then.
  rewrite be16_get_put by done. rewrite Hs.
  eapply parses_eq; [apply parses_ret|done|]. unfold addr_received. rewrite HF. do 2 f_equal.
  unfold slice. replace (2 + n - 2) with n by lia.
  rewrite drop_app_ge by (rewrite length_be16; lia). rewrite length_be16.
  change (Z.to_nat 2 - 2)%nat with 0%nat. rewrite drop_0.
  unfold copy_into_zeros. rewrite take_take. unfold len in Hd.
  rewrite take_app_le by lia. rewrite take_ge by lia. done.
Qed.

Lemma addr_parses max features a :
  addr_wf a -> 40 <= max -> max <= MaxUint32 ->
  parses max DecodeEntityAddr (addr_bytes features a) (Ok (addr_received features a)).
Proof.
  intros Wa Hl Hm. destruct (Has features FeatureMessageAddress2) eqn:HF.
  - unfold addr_bytes. rewrite HF. unfold DecodeEntityAddr.
    eapply (parses_bind _ _ _ [_]); [apply parses_u8; unfold inU; lia|].
    apply parses_finish_then.
    apply addr_parses_modern; auto. destruct Wa as (_ & _ & _ & Hv).
    destruct (validate_length a Hv) as (n & _ & Hd & Hr). lia.
  - rewrite addr_bytes_legacy by done.
    eapply parses_bind; [apply parses_u8; unfold inU; lia|].
    apply parses_finish_then. by apply addr_parses_legacy_tail.
Qed.

(** ** Address vectors *)

Definition chosen_legacy (l : list EntityAddr) : EntityAddr :=
  default (mkEntityAddr 0 0 linuxAFUnspec (zeros 26))
    (find (fun candidate => Type_ candidate =? AddressLegacy) l).

Definition vec_bytes (features : Z) (l : list EntityAddr) : bytes :=
  if Has features FeatureMessageAddress2
  then byte.of_Z 2 :: le_split 4 (len l) ++ concat (addr_bytes features <$> l)
  else addr_bytes 0 (chosen_legacy l).

(** A legacy peer gets one address; a modern one gets them all. *)
Definition vec_received (features : Z) (l : list EntityAddr) : list EntityAddr :=
  if Has features FeatureMessageAddress2 then addr_received features <$> l
  else [addr_received 0 (chosen_legacy l)].

Lemma encode_each_emits features l : Forall addr_wf l ->
  (forall e, fst (encode_each l features e) = None) /\
  emits (fun e => snd (encode_each l features e)) (concat (addr_bytes features <$> l)).
Proof.
  induction 1 as [|a l Ha Hl [IH1 IH2]]; [split; [done|apply emits_skip]|].
  destruct (addr_emits features a Ha) as [E1 E2]. cbn [fmap list_fmap concat].
  assert (forall e, encode_each (a :: l) features e =
    encode_each l features (snd (EntityAddr_Encode a features e))) as Step.
  { intros e. cbn [encode_each]. pose proof (encode_ok_any features a e (NewEncoder 0)) as H.
    rewrite E1 in H. destruct (EntityAddr_Encode a features e) as [o e1]. cbn in *. by rewrite H. }
  split; [intros e; by rewrite Step|].
  pose proof (emits_seq _ _ _ _ E2 IH2) as S. unfold Enc.seq in S.
  intros e We. specialize (S e We). by rewrite Step.
Qed.

Lemma chosen_wf l : Forall addr_wf l -> addr_wf (chosen_legacy l).
Proof.
  intros Hl. unfold chosen_legacy. destruct (find _ l) eqn:E; cbn.
  - apply List.find_some in E as [Hin _]. rewrite Forall_forall in Hl.
    apply Hl. by apply list_elem_of_In.
  - unfold addr_wf, inU. split_and!; first [done | cbn [Type_ Nonce Family]; lia].
Qed.

Lemma addr_bytes_pos features a : 1 <= len (addr_bytes features a).
Proof.
  unfold addr_bytes. destruct (Has _ _).
  - unfold len. cbn [length]. lia.
  - rewrite len_app, len_le_split. pose proof (len_nonneg
      (le_split 4 (Nonce a) ++ be16 (Family a) ++ copy_into_zeros 126 (SocketData a))). lia.
Qed.

Lemma vec_bytes_count features l : len l <= len (concat (addr_bytes features <$> l)).
Proof.
  induction l as [|a l IH]; [done|]. rewrite fmap_cons. cbn [concat].
  rewrite len_app, len_cons. pose proof (addr_bytes_pos features a). lia.
Qed.

Lemma vec_emits features l : Forall addr_wf l -> len l <= MaxUint32 ->
  (forall e, fst (EntityAddrVec_Encode l features e) = None) /\
  emits (fun e => snd (EntityAddrVec_Encode l features e)) (vec_bytes features l).
Proof.
  intros Hl Hn. unfold EntityAddrVec_Encode, vec_bytes. fold (chosen_legacy l).
  destruct (Has features FeatureMessageAddress2); cbn [negb].
  - destruct (Z.ltb_spec MaxUint32 (len l)); [lia|].
    destruct (encode_each_emits features l Hl) as [E1 E2]. split; [done|].
    rewrite app_comm_cons.
    apply (emits_seq (Enc.Uint8 2 ⨾ Enc.Uint32 (len l)) _ _ _
      (emits_seq _ _ [_] _ (emits_u8 2) (emits_u32 (len l))) E2).
  - destruct (addr_emits 0 _ (chosen_wf l Hl)) as [E1 E2]. split; [|exact E2].
    intros e. by rewrite (encode_ok_any _ _ e (NewEncoder 0)).
Qed.

Lemma vec_parses max features maxAddresses l :
  Forall addr_wf l -> len l <= maxAddresses -> len l <= MaxUint32 -> 40 <= max -> max <= MaxUint32 ->
  parses max (DecodeEntityAddrVec maxAddresses) (vec_bytes features l) (Ok (vec_received features l)).
Proof.
  intros Hl Hn Hn' Hmin Hmax. unfold vec_bytes, vec_received, DecodeEntityAddrVec.
  destruct (Has features FeatureMessageAddress2) eqn:HF.
  - apply (parses_bind _ _ _ [_] (le_split 4 (len l) ++ concat (addr_bytes features <$> l)) 2);
      [apply parses_u8; unfold inU; lia|].
    apply parses_finish_then.
    change (2 <? 2) with false. cbn iota. pose proof (len_nonneg l).
    eapply parses_bind; [apply parses_u32; unfold inU, MaxUint32 in *; lia|].
    destruct (Z.ltb_spec maxAddresses (len l)); [lia|].
    apply parses_remaining. intros n Hrem. pose proof (vec_bytes_count features l).
    destruct (Z.ltb_spec n (len l)); [lia|].
    unfold len at 1. rewrite Nat2Z.id.
    eapply parses_eq; [eapply (parses_try _ _ _ _ []);
      [apply (parses_loop_append max DecodeEntityAddr (addr_bytes features) (addr_received features))|]
      |apply app_nil_r|reflexivity].
    + eapply Forall_impl; [exact Hl|]. intros a Ha. by apply addr_parses.
    + apply parses_finish_ok.
  - rewrite addr_bytes_legacy by reflexivity.
    eapply parses_bind; [apply parses_u8; unfold inU; lia|].
    apply parses_finish_then. change (0 <? 2) with true. cbn iota.
    eapply parses_eq; [eapply parses_try; [|apply parses_ret]|apply app_nil_r|reflexivity].
    apply addr_parses_legacy_tail; [by apply chosen_wf|reflexivity].
Qed.

(** ** What a reader of arbitrary bytes gets *)

Lemma socketDataLength_ok family n : socketDataLength family = Ok n -> n = 14 \/ n = 26.
Proof.
  unfold socketDataLength. destruct (_ =? _); [|destruct (_ || _)]; naive_solver.
Qed.

Lemma validate_of_length a n :
  socketDataLength (Family a) = Ok n -> len (SocketData a) = n -> validate a = None.
Proof. intros Hs Hl. unfold validate. by rewrite Hs, Hl, Z.eqb_refl. Qed.

Lemma legacy_validates d a d' :
  dec_wf d -> decodeEntityAddrAfterMarker 0 d = (Ok a, d') -> validate a = None.
Proof.
  intros Hw H. change (decodeEntityAddrAfterMarker 0) with (
    _ ← Dec.Raw 3; nonce ← Dec.Uint32; sockaddr ← Dec.Raw 128; _ ←? Dec.Finish;
    match socketDataLength (be16_get sockaddr) with
    | Ok n => ok (mkEntityAddr (if be16_get sockaddr =? linuxAFUnspec then AddressNone else AddressLegacy)
                    nonce (be16_get sockaddr) (slice 2 (2 + n) sockaddr))
    | Err e => fail e
    | Panic => mret Panic
    end) in H.
  rewrite !bind_eq in H.
  set (d1 := snd (Dec.Uint32 (snd (Dec.Raw 3 d)))) in H.
  assert (dec_wf d1) as W1.
  { pose proof (safe_raw 3 ltac:(lia)). apply step_wf; [apply _|]. by apply step_wf. }
  destruct (Dec.Raw 128 d1) as [sockaddr d2] eqn:R. cbn [fst snd] in H.
  apply try_ok in H as ([] & d3 & F & H). apply finish_ok in F as [-> He].
  apply raw_len in R; [|done..].
  destruct (socketDataLength (be16_get sockaddr)) as [n| |] eqn:Hs; [|done..].
  injection H as <- <-. apply (validate_of_length _ n); [done|]. cbn [SocketData].
  apply socketDataLength_ok in Hs. unfold slice, len in *. rewrite length_take, length_drop. lia.
Qed.

Lemma modern_validates d a d' :
  decodeEntityAddrAfterMarker 1 d = (Ok a, d') -> validate a = None.
Proof.
  unfold decodeEntityAddrAfterMarker. change (1 =? 0) with false. change (1 =? 1) with true. cbn iota.
  rewrite bind_eq. destruct (fst (Dec.Versioned 1 d)) as [v payload].
  rewrite bind_eq, child_eq. cbn [fst snd]. intros H.
  match type of H with context [match fst ?r with _ => _ end] => destruct r as [[x| |] d3] eqn:R end;
    cbn [fst] in H; [|done..].
  apply try_ok in H as ([] & d4 & _ & [= <- <-]).
  revert R. rewrite !bind_eq. destruct (_ =? 0).
  { intros H. by apply try_ok in H as ([] & d5 & _ & [= <- <-]). }
  destruct (_ <? 2); [done|]. rewrite bind_eq.
  match goal with |- context [socketDataLength ?f] => destruct (socketDataLength f) as [n| |] eqn:Hs end;
    [|done..].
  destruct (_ <? _); [done|]. rewrite bind_eq. intros H.
  apply try_ok in H as ([] & d5 & _ & [= <- <-]). apply (validate_of_length _ n); [done|].
  apply socketDataLength_ok in Hs. unfold len. cbn [SocketData]. rewrite length_copy. lia.
Qed.

(** ** Properties *)

(** C37. Every address that a decoder accepts, from whatever bytes and in
    either encoding, satisfies [validate]: its socket data has the length of
    its family.  In particular it can be encoded again. *)
Theorem DecodeEntityAddr_validates d a d' :
  dec_wf d -> DecodeEntityAddr d = (Ok a, d') -> validate a = None.
Proof.
  intros Hw H. unfold DecodeEntityAddr in H. rewrite bind_eq in H.
  apply try_ok in H as ([] & d1 & F & H). apply finish_ok in F as [-> _].
  destruct (Z.eqb_spec (fst (Dec.Uint8 d)) 0) as [E|N0].
  { rewrite E in H. eapply legacy_validates; [|exact H]. apply step_wf; [apply _|done]. }
  destruct (Z.eqb_spec (fst (Dec.Uint8 d)) 1) as [E|N1].
  { rewrite E in H. by eapply modern_validates. }
  unfold decodeEntityAddrAfterMarker in H.
  by rewrite (proj2 (Z.eqb_neq _ _) N0), (proj2 (Z.eqb_neq _ _) N1) in H.
Qed.

(** An IPv4 address sent with only four bytes of socket data. *)
Definition short_inet : Decoder := NewDecoder
  (byte.of_Z 1 :: envelope 1 1 (le_split 4 2 ++ le_split 4 9 ++ le_split 4 6 ++ le_split 2 2 ++ zeros 4))
  (mkLimits 100).

Lemma DecodeEntityAddr_validates_witness :
  fst (DecodeEntityAddr short_inet) = Ok (mkEntityAddr 2 9 2 (zeros 14)) /\
  validate (mkEntityAddr 2 9 2 (zeros 14)) = None.
Proof.
  assert (fst (DecodeEntityAddr short_inet) = Ok (mkEntityAddr 2 9 2 (zeros 14))) as E
    by (vm_compute; reflexivity).
  split; [exact E|].
  apply (DecodeEntityAddr_validates short_inet _ (snd (DecodeEntityAddr short_inet))).
  - unfold dec_wf. vm_compute. split; discriminate.
  - rewrite <- E. apply surjective_pairing.
Defined.

(** C35. Address round trip under any feature set of the peer: what the
    encoder writes is read back as the same address, except for the type,
    which the legacy encoding and a pre-Nautilus peer reduce exactly as
    [addr_received] says; the reader stops exactly at the end. *)
Theorem EntityAddr_roundtrip max features a r :
  addr_wf a -> 40 <= max -> max <= MaxUint32 -> len (addr_bytes features a) <= max ->
  EntityAddr_Encode a features (NewEncoder max) =
    (None, mkEncoder (addr_bytes features a) max None) /\
  exists d', DecodeEntityAddr (NewDecoder (addr_bytes features a ++ r) (mkLimits max)) =
               (Ok (addr_received features a), d') /\ rest d' = r /\ d_err d' = None.
Proof.
  intros Wa Hmin Hmax Hfit. destruct (addr_emits features a Wa) as [E1 E2]. split.
  - rewrite (encode_ok_any _ _ _ (NewEncoder max)) in E1.
    specialize (E2 (NewEncoder max) (NewEncoder_wf max ltac:(lia))). cbn [e_err e_buf e_max NewEncoder] in E2.
    change (len [] + len (addr_bytes features a)) with (len (addr_bytes features a)) in E2.
    destruct (Z.leb_spec (len (addr_bytes features a)) max); [|lia].
    destruct (EntityAddr_Encode a features (NewEncoder max)). cbn in *. congruence.
  - destruct (addr_parses max features a Wa Hmin Hmax _ r (ready_new max _)) as [-> (He & _ & _ & Hr)].
    eauto.
Qed.

Definition sample_addr : EntityAddr :=
  mkEntityAddr AddressAny 7 linuxAFInet (be16 6789 ++ [Byte.x0a; Byte.x00; Byte.x00; Byte.x01] ++ zeros 8).

Lemma EntityAddr_roundtrip_witness :
  exists d', DecodeEntityAddr (NewDecoder (addr_bytes FeatureMessageAddress2 sample_addr ++ [Byte.x55])
     (mkLimits 200)) = (Ok (mkEntityAddr AddressLegacy 7 linuxAFInet (SocketData sample_addr)), d')
     /\ rest d' = [Byte.x55] /\ d_err d' = None.
Proof.
  apply (EntityAddr_roundtrip 200 FeatureMessageAddress2 sample_addr [Byte.x55]);
    [|lia|unfold MaxUint32; lia|vm_compute; discriminate].
  unfold addr_wf, inU, sample_addr. cbn [Type_ Nonce Family]. unfold AddressAny, linuxAFInet.
  split_and!; try lia. vm_compute. reflexivity.
Defined.

(** C36. Address vector round trip: a modern peer receives every address in
    order, a legacy peer exactly one, the first [AddressLegacy] entry or the
    unspecified address. *)
Theorem EntityAddrVec_roundtrip max features maxAddresses l r :
  Forall addr_wf l -> len l <= maxAddresses -> maxAddresses <= MaxUint32 ->
  40 <= max -> max <= MaxUint32 -> len (vec_bytes features l) <= max ->
  EntityAddrVec_Encode l features (NewEncoder max) =
    (None, mkEncoder (vec_bytes features l) max None) /\
  exists d', DecodeEntityAddrVec maxAddresses (NewDecoder (vec_bytes features l ++ r) (mkLimits max)) =
               (Ok (vec_received features l), d') /\ rest d' = r /\ d_err d' = None.
Proof.
  intros Hl Hn Hn' Hmin Hmax Hfit. destruct (vec_emits features l Hl ltac:(lia)) as [E1 E2]. split.
  - specialize (E1 (NewEncoder max)).
    specialize (E2 (NewEncoder max) (NewEncoder_wf max ltac:(lia))). cbn [e_err e_buf e_max NewEncoder] in E2.
    change (len [] + len (vec_bytes features l)) with (len (vec_bytes features l)) in E2.
    destruct (Z.leb_spec (len (vec_bytes features l)) max); [|lia].
    destruct (EntityAddrVec_Encode l features (NewEncoder max)). cbn in *. congruence.
  - destruct (vec_parses max features maxAddresses l Hl Hn ltac:(lia) Hmin Hmax _ r (ready_new max _))
      as [-> (He & _ & _ & Hr)]. eauto.
Qed.

Lemma EntityAddrVec_roundtrip_witness :
  exists d', DecodeEntityAddrVec 8 (NewDecoder
     (vec_bytes (Z.lor FeatureMessageAddress2 FeatureServerNautilusMask) [sample_addr; sample_addr]) (mkLimits 200)) =
     (Ok [sample_addr; sample_addr], d') /\ rest d' = [] /\ d_err d' = None.
Proof.
  assert (addr_wf sample_addr) as W.
  { unfold addr_wf, inU, sample_addr. cbn [Type_ Nonce Family]. unfold AddressAny, linuxAFInet.
    split_and!; try lia. vm_compute. reflexivity. }
  rewrite <- (app_nil_r (vec_bytes _ _)).
  apply (EntityAddrVec_roundtrip 200 (Z.lor FeatureMessageAddress2 FeatureServerNautilusMask) 8
    [sample_addr; sample_addr] []); [by repeat constructor|vm_compute; discriminate..].
Defined.

Lemma slice_mid {A} (pre mid post : list A) a b :
  a = len pre -> b = len pre + len mid -> slice a b (pre ++ mid ++ post) = mid.
Proof.
  intros -> ->. unfold slice, len. rewrite Nat2Z.id, drop_app_length.
  replace (Z.to_nat _) with (length mid) by lia. apply take_app_length.
Qed.

Lemma Unmap_addr4 a b : netip.wf a -> netip.Unmap a = netip.Addr4 b -> length b = 4%nat.
Proof.
  destruct a as [|x|x z]; cbn; [done|congruence|]. intros Hl.
  destruct (bool_decide _); [|done]. intros [= <-]. rewrite length_drop. lia.
Qed.

(** Socket endpoints survive the translation to the Linux-shaped address
    and back: the address built from an endpoint is valid, and its endpoint
    is the one it was built from (unmapped, for an IPv4-mapped address). *)
Theorem entity_endpoint_roundtrip t n endpoint flowInfo scopeID :
  netip.wf (netip.addr endpoint) -> inU 16 (netip.port endpoint) ->
  (forall a, IPv4EntityAddr t n endpoint = Ok a -> validate a = None /\
     EntityAddr_AddrPort a =
       Some (netip.mkAddrPort (netip.Unmap (netip.addr endpoint)) (netip.port endpoint))) /\
  (forall a, IPv6EntityAddr t n endpoint flowInfo scopeID = Ok a -> validate a = None /\
     EntityAddr_AddrPort a = Some endpoint).
Proof.
  intros Hw Hp. destruct endpoint as [address port]. cbn [netip.addr netip.port] in *. split; intros a H.
  - unfold IPv4EntityAddr in H. cbn [netip.addr netip.port] in H.
    destruct (netip.Unmap address) as [|b|b z] eqn:U; [done| |done].
    assert (a = mkEntityAddr t n linuxAFInet (be16 port ++ b ++ zeros 8)) as -> by congruence.
    apply Unmap_addr4 in U as Hb; [|done].
    assert (len (be16 port ++ b ++ zeros 8) = 14) as Hl.
    { rewrite !len_app. unfold len, zeros. rewrite length_be16, length_replicate. lia. }
    split; [by apply (validate_of_length _ 14)|].
    unfold EntityAddr_AddrPort. cbn [Family SocketData Z.eqb linuxAFInet].
    rewrite Hl, be16_get_put, slice_mid; [done| | |done]; unfold len; rewrite length_be16; lia.
  - unfold IPv6EntityAddr in H. cbn [netip.addr netip.port] in H.
    destruct (_ || _) eqn:G; [done|]. apply orb_false_iff in G as [G Hz].
    apply negb_false_iff, bool_decide_eq_true in Hz.
    destruct address as [|b|b z]; [done..|]. cbn in Hz, Hw. subst z.
    assert (a = mkEntityAddr t n linuxAFInet6 ((be16 port ++ le_split 4 flowInfo) ++ b ++ le_split 4 scopeID))
      as -> by (rewrite <- app_assoc; congruence).
    assert (len ((be16 port ++ le_split 4 flowInfo) ++ b ++ le_split 4 scopeID) = 26) as Hl.
    { rewrite !len_app, !len_le_split. unfold len. rewrite length_be16. lia. }
    split; [by apply (validate_of_length _ 26)|].
    unfold EntityAddr_AddrPort. cbn [Family SocketData].
    change (linuxAFInet6 =? linuxAFInet) with false. cbn iota.
    rewrite Hl, slice_mid, <- app_assoc, be16_get_put by
      (done || (rewrite len_app, len_le_split; unfold len; rewrite length_be16; lia)).
    done.
Qed.

Lemma entity_endpoint_roundtrip_witness :
  exists a, IPv4EntityAddr AddressV2 5
    (netip.mkAddrPort (netip.Addr4 [Byte.x7f; Byte.x00; Byte.x00; Byte.x01]) 3300) = Ok a /\
  EntityAddr_AddrPort a =
    Some (netip.mkAddrPort (netip.Addr4 [Byte.x7f; Byte.x00; Byte.x00; Byte.x01]) 3300).
Proof.
  eexists. split; [reflexivity|].
  destruct (entity_endpoint_roundtrip AddressV2 5
    (netip.mkAddrPort (netip.Addr4 [Byte.x7f; Byte.x00; Byte.x00; Byte.x01]) 3300) 0 0) as [H _];
    [reflexivity|unfold inU; cbn; lia|].
  exact (proj2 (H _ eq_refl)).
Defined.

(** The wire type of entity names. *)
Lemma entity_name_emits n :
  emits (EntityName_Encode n) ([byte.of_Z (en_Type n)] ++ le_split 8 (u64 (en_Num n))).
Proof. apply emits_seq; auto with wire. Qed.

Lemma entity_name_parses max n : inU 8 (en_Type n) -> inS 64 (en_Num n) ->
  parses max DecodeEntityName ([byte.of_Z (en_Type n)] ++ le_split 8 (u64 (en_Num n))) n.
Proof.
  intros Ht Hn. eapply parses_bind; [by apply parses_u8|].
  eapply parses_eq; [eapply parses_bind; [by apply parses_i64|apply parses_ret]|
    apply app_nil_r|]. by destruct n.
Qed.

Definition entity_name_wire : wire EntityName := mkWire EntityName
  (fun n => [byte.of_Z (en_Type n)] ++ le_split 8 (u64 (en_Num n)))
  (fun _ n => inU 8 (en_Type n) /\ inS 64 (en_Num n))
  EntityName_Encode DecodeEntityName
  (fun _ n _ => entity_name_emits n)
  (fun max n H => entity_name_parses max n (proj1 H) (proj2 H)).

(** ** Absence of panics, for the map decoders *)

Lemma decodeEntityAddrAfterMarker_post marker :
  yields (decodeEntityAddrAfterMarker marker) (okP (fun _ => True)).
Proof.
  unfold decodeEntityAddrAfterMarker. apply yields_if; intros _.
  - yany. ystep. yany. ystep. unfold socketDataLength.
    destruct (_ =? linuxAFInet); [by apply yields_ok|]. destruct (_ || _); [by apply yields_ok|done].
  - apply yields_if; intros _; [|apply yields_fail].
    eapply yields_bind; [apply yields_any|intros [v payload] _].
    eapply yields_bind with (Q := okP (fun _ => True)).
    + apply yields_child. ysteps. apply yields_if; intros _; [ysteps; by apply yields_ok|]. ysteps.
      unfold socketDataLength.
      destruct (_ =? linuxAFInet); [ysteps; yany; ysteps; by apply yields_ok|].
      destruct (_ || _); [ysteps; yany; ysteps; by apply yields_ok|done].
    + intros [a|e|] H; [ysteps; by apply yields_ok|done|done].
Qed.

Lemma DecodeEntityAddrVec_post n : yields (DecodeEntityAddrVec n) (okP (fun _ => True)).
Proof.
  unfold DecodeEntityAddrVec. ysteps. apply yields_if; intros _.
  { eapply yields_try; [apply decodeEntityAddrAfterMarker_post|]. intros a' _. by apply yields_ok. }
  ysteps. eapply yields_try.
  { apply yields_loop with (I := fun _ => True); [done|]. intros s _. unfold DecodeEntityAddr.
    eapply yields_try; [|intros a' _; by apply yields_ok]. ysteps. apply decodeEntityAddrAfterMarker_post. }
  intros l _. ysteps. by apply yields_ok.
Qed.

#[export] Hint Resolve DecodeEntityAddrVec_post : yields.
