(* ===== verification/CrushLn.v ===== *)
(** * Fixed-point logarithm (src/internal/crush/ln.go)

    The two tables are the base64 constants of the source, decoded by the
    standard base64 alphabet; [crushLn] is the mapper's logarithm. *)

From stdpp Require Import base gmap list numbers strings.
From coqutil Require Import Byte Word.LittleEndianList.
From S2P Require Import Prelude.

Open Scope Z_scope.

Definition crushLnLHBase64 : string := (
  "AAAAAAAAAAAAAALfyhbd4QAABbnloXC0AAAIjmjqiZoAAAtdabrHfgAADib9XIVV" ++
  "AAAQ6zifop8AABOqL90n8QAAFmP2+skTAAAZGKFuRjMAABvIQkCtqwAAHnLsEX+l" ++
  "AAAhGLEZtPMAACO5oy6qVgAAJlXTxPFcAAAo7VPzB+4AACuANHP3rQAALg6Fqd4E" ++
  "AAAwmFegXgcAADMdug784QAANZ68W2nZAAA4G22bspsAADqT3JhksgAAPQgXzpzU" ++
  "AAA/eC1yBNAAAEHkK27AwAAAREwfa0wtAABGsBbKR8EAAEkQHqw4HAAAS2xD8TZq" ++
  "AABNxJM6kzcAAFAZGOxsEQAAUmnhLzRuAABUtvfxMloAAFcAaOfvWgAAWUY/kZ3u" ++
  "AABbiIc2dDMAAF3HSun77AAAYAKVjFhxAABiOnHLgsgAAGRu6iR8XAAAZqAI5HiM" ++
  "AABozdgp/YEAAGr4YeX8fQAAbR+v3OIKAABvQ8unnkAAAHFkvrSlbQAAc4KSSOlh" ++
  "AAB1nU+Ay6gAAHe0/1EI2QAAecmqh51TAAB721nMo4gAAH3qFaMsGwAAf/Xmag/+" ++
  "AACB/tRcvMsAAIQE55P7gQAAhggoBrHVAACICJ2KnkcAAIoGT9UPKgAAjAFGe5S7" ++
  "AACN+Yj0roAAAI/vHph0CQAAkeIOoTk+AACT0mAsLl8AAJXAGjn71gAAl6tDr1n5" ++
  "AACZk+NVpOUAAJt5/9tsiwAAnV2f1QELAACfPsm8+4AAAKEdg/TDVQAAovnUxRA5" ++
  "AACk08JeaNwAAKarUtmedgAAqICMOEVHAACqU3RlKhwAAKwkETTE6QAArfJoZaih" ++
  "AACvvn+g8E0AALGIXHqpggAAs1AEcjxGAAC1FXzy0HgAALbYy1OwygAAuJn02Ktj" ++
  "AAC6WP6ycDoAALwV7f7tMgAAvdDHyagXAAC/iZEMFngAAMFATq3zgwAAwvUFhZPZ" ++
  "AADEp7pYN3wAAMZYcdpZ3QAAyAcwsAAWAADJs/ttBVkAAMte1pVlrwAAzQfGnYcC" ++
  "AADOrs/qgIUAANBT9tJgiQAA0fc/nHDAAADTmK6BeQYAANU4R6wApgAA1tYPOI5B" ++
  "AADYcgk15kMAANoMOaVIBAAA26SkeqmWAADdO02c8ksAAN7QOOYz8wAA4GNqI+Lu" ++
  "AADh9OUXDQIAAOOErXSPDgAA5RLG5UmYAADmnzUGVEgAAOgp+2kwRAAA6bMdk/mO" ++
  "AADrOp8Bl1AAAOzAgyHrMAAA7kTNWf+rAADvx4EENXkAAPFIoXBwCgAA8sgx5EEW" ++
  "AAD0RjWbE1MAAPXCr8ZURwAA9z2jjZ1KAAD4txQO27EAAPovBF54MgAA+6V3h319" ++
  "AAD9GnCLvhEAAP6N8mP5VwAA//8AAAAA")%string.

Definition crushLnLLBase64 : string := (
  "AAAAAAAAAAAAAAAC4qYKAAAAAAcMtk7FAAAACe9QzmcAAAAM0eWI/QAAAA+0dH6c" ++
  "AAAAEpb9r14AAAAVeYEbWAAAABhb/sKhAAAAGz52pVIAAAAeIOjDgAAAACEDVR1D" ++
  "AAAAI+W7srIAAAAmyByD5AAAACmqd5DwAAAALIzM2e0AAAAvbxxe8gAAADJRZiAX" ++
  "AAAANTOqHXEAAAA4FehXGgAAADr4IM0mAAAAPdpTf64AAABAvIBuyAAAAEOep5qM" ++
  "AAAARoDJAxAAAABJYuSobAAAAExE+oq2AAAATycKqgYAAABSCRUGcgAAAFTrGaAT" ++
  "AAAAV80Ydv0AAABarxGLSgAAAF2RBN0PAAAAYHLybGQAAABjVNo5YAAAAGY2vEQa" ++
  "AAAAaRiYjKgAAABr+m8TIgAAAG7cP9efAAAAcb4K2jUAAAB0n9Aa/QAAAHeBj5oM" ++
  "AAAAemNJV3oAAAB9RP1TXgAAAIAmq43OAAAAgwhUBuMAAACF6fa+sgAAAIjLk7VS" ++
  "AAAAi60q6twAAACOjrxfZQAAAJFwSBMFAAAAlFHOBdMAAACXM0435QAAAJoUyKlT" ++
  "AAAAnPY9WjMAAACf16xKnQAAAKKwfzRYAAAApZp46moAAACoe9aZ+wAAAKtdLolw" ++
  "AAAArj6AuOMAAACxH80oaQAAALQBE9gYAAAAtuJUyAoAAAC5w4/4UwAAALykxWkM" ++
  "AAAAv4X1GkoAAADCZx8MJgAAAMVIQz62AAAAyClhshEAAADLCnpmTQAAAM3rjVuC" ++
  "AAAA0MyakcgAAADTraIJMwAAANaOo8HdAAAA2W+fu9sAAADcUJX3RAAAAN8xhnQw" ++
  "AAAA4hJxMrUAAADk81Yy6gAAAOfUNXTmAAAA6rUO+MEAAADtleK+kAAAAPB2sMZs" ++
  "AAAA81d5EGoAAAD2ODucogAAAPkY+GsqAAAA+/mvfBoAAAD+2mDPiAAAAQG7DGWM" ++
  "AAABBJuyPjwAAAEHfFJZrwAAAQpc7Lf8AAABDT2BWToAAAEQHhA9fwAAARL+mWTk" ++
  "AAABFd8cz34AAAEYv5p9ZAAAARugEm6tAAABHoCEo3EAAAEhYPEbxgAAASRBV9fD" ++
  "AAABJyG4138AAAEqAhQbEAAAASziaaKOAAABL8K5bg8AAAEyowN9qgAAATWDR9F3" ++
  "AAABOGOGaYwAAAE7Q79F/wAAAT4j8mbpAAABQQQfzF4AAAFD5Ed2eAAAAUbEaWVL" ++
  "AAABSaSFmPAAAAFMhJwRfAAAAU9krM8IAAABUkS30akAAAFVJL0ZdgAAAVgEvKaH" ++
  "AAABWuS2ePIAAAFdxKqQzgAAAWCkmO4xAAABY4SBkTQAAAFmZGR57AAAAWlEQahw" ++
  "AAABbCQZHNcAAAFt9soZvQAAAXHjtteqAAABdMN9HkQAAAF3oz2rHAAAAXqC+H5J" ++
  "AAABfWKtl+IAAAGAQlz3/gAAAYKwfzRYAAABhgGqjBkAAAGI4UjARgAAAYvA4TtS" ++
  "AAABjqBz/VIAAAGRgAEGXQAAAZRfiFaLAAABlz8J7fIAAAGaHoXMqgAAAZz9+/LI" ++
  "AAABn91sYGMAAAGivNcVkwAAAaWcPBJuAAABqHubVwsAAAGrWvTjgAAAAa46SLfl" ++
  "AAABsRmW1FAAAAGz+N842QAAAbbYIeWVAAABubde2psAAAG8lpYYAwAAAb91x53j" ++
  "AAABwlTzbFEAAAHFNBmDZQAAAcgTOeM2AAAByvJUi9kAAAHN0Wl9ZwAAAdCweLf1" ++
  "AAAB04+CO5oAAAHWboYIbQAAAdlNhB6GAAAB3Cx8ffkAAAHfC28m3wAAAeHqXBlO" ++
  "AAAB5MlDVV0AAAHnqCTbIwAAAeqHAKq1AAAB7WXWxCsAAAHwRKcnnQAAAfMjcdUf" ++
  "AAAB9gI2zMoAAAH44PYOswAAAfu/r5rzAAAB/p5jcZ4AAAIBfRGSzAAAAgRbuf6U" ++
  "AAACBzpctQ0AAAIJwG5iEgAAAgz3kQJqAAACD9YimXwAAAISsH80WAAAAhWTNKjY" ++
  "AAACGHG1IVAAAAIbUC/lFwAAAh1qc6ePAAACIQ0UTu4AAAIj6331LAAAAibJ4ecT" ++
  "AAACKahAJLsAAAIsI2ebTgAAAi9k64OoAAACMkM4pRsAAAI1IYASqQAAAjf/wcxp" ++
  "AAACOiw7DqQAAAI9E+6AWwAAAkA16SIfAAACQ3iPryUAAAJGVrTnNQAAAkftZGv+" ++
  "AAACTBLuPZgAAAJO8QJcGgAAAlHPEMeZAAACVJJkTWUAAAJXixyF7gAAAlppGdjw" ++
  "AAACXRPugFsAAAJgJQNnFgAAAmKWRTiCAAACZeDWK1MAAAJovrcB8wAAAmuckiZe" ++
  "AAACbTL3mKkAAAJxWDdY6wAAAnQ2AWc7AAACdxPFw7AAAAJ58YRuXwAAAnzPPWdh" ++
  "AAACfmWArssAAAKCip5EswAAAoVoRikyAAACh72/UlUAAAKLI4TeSgAAAo0T7oBb" ++
  "AAACkDXpIh8AAAKSlkU4ggAAApaZvfthAAACmQKjeqsAAAKcVLhkyQAAAp3qvRCD" ++
  "AAACog+cC7UAAAKkx2BdYQAAAqe9v1JVAAACqWBW2vwAAAKsPa8U7wAAAq8bAZ7K" ++
  "AAACspZFOIIAAAK10CLYDwAAArj6RxyzAAACupAS5xMAAAK9bUkBzAAAAsBKeWz2" ++
  "AAACwyekKKYAAALGGl6PTAAAAsjh6JH2AAACy78CP8IAAALOnBY+bgAAAtF5JI4T" ++
  "AAAC1FYtLsYAAALXMzAgnQAAAtoQLWOwAAAC3O0k+BQ=")%string.

(** ** [base64.StdEncoding.DecodeString] *)

Definition base64_value (c : Ascii.ascii) : option Z :=
  let n := Z.of_nat (Ascii.nat_of_ascii c) in
  if (65 <=? n) && (n <=? 90) then Some (n - 65)
  else if (97 <=? n) && (n <=? 122) then Some (n - 97 + 26)
  else if (48 <=? n) && (n <=? 57) then Some (n - 48 + 52)
  else if n =? 43 then Some 62
  else if n =? 47 then Some 63
  else None.

(** Quanta of four digits; the last one may end in one or two pads. *)
Fixpoint base64_quanta (s : list Ascii.ascii) : option (list Z) :=
  match s with
  | [] => Some []
  | a :: b :: c :: d :: rest =>
      a ← base64_value a; b ← base64_value b;
      match base64_value c, base64_value d with
      | Some c, Some d =>
          tail ← base64_quanta rest;
          let v := Z.shiftl a 18 + Z.shiftl b 12 + Z.shiftl c 6 + d in
          Some (Z.shiftr v 16 :: Z.land (Z.shiftr v 8) 255 :: Z.land v 255 :: tail)
      | Some c, None =>
          if decide (d = Ascii.ascii_of_nat 61 /\ rest = []) then
            let v := Z.shiftl a 18 + Z.shiftl b 12 + Z.shiftl c 6 in
            Some [Z.shiftr v 16; Z.land (Z.shiftr v 8) 255]
          else None
      | None, _ =>
          if decide (c = Ascii.ascii_of_nat 61 /\ d = Ascii.ascii_of_nat 61 /\ rest = []) then
            Some [Z.shiftr (Z.shiftl a 18 + Z.shiftl b 12) 16]
          else None
      end
  | _ => None
  end.

(** A decoding error panics while the package is initialised. *)
Definition mustDecodeBase64 (value : string) : res (list Z) :=
  match base64_quanta (String.list_ascii_of_string value) with
  | Some decoded => Ok decoded
  | None => Panic
  end.

Definition crushLnLH : list Z :=
  Eval vm_compute in match mustDecodeBase64 crushLnLHBase64 with Ok l => l | _ => [] end.
Definition crushLnLL : list Z :=
  Eval vm_compute in match mustDecodeBase64 crushLnLLBase64 with Ok l => l | _ => [] end.

Definition tableUint64 (table : list Z) (idx : Z) : res Z :=
  let offset := u32 (idx * 8) in
  b0 ← index table offset;
  b1 ← index table (u32 (offset + 1));
  b2 ← index table (u32 (offset + 2));
  b3 ← index table (u32 (offset + 3));
  b4 ← index table (u32 (offset + 4));
  b5 ← index table (u32 (offset + 5));
  b6 ← index table (u32 (offset + 6));
  b7 ← index table (u32 (offset + 7));
  Ok (Z.lor (Z.shiftl b0 56) (Z.lor (Z.shiftl b1 48)
     (Z.lor (Z.shiftl b2 40) (Z.lor (Z.shiftl b3 32)
     (Z.lor (Z.shiftl b4 24) (Z.lor (Z.shiftl b5 16)
     (Z.lor (Z.shiftl b6 8) b7))))))).

(** [bits.LeadingZeros32] *)
Definition bits_LeadingZeros32 (x : Z) : Z :=
  if x =? 0 then 32 else 31 - Z.log2 x.

Definition crushLn (input : Z) : res Z :=
  let x := u32 (input + 1) in
  let '(x, exponent) :=
    if Z.land x 0x18000 =? 0 then
      let shift := bits_LeadingZeros32 (Z.land x 0x1ffff) - 16 in
      (u32 (Z.shiftl x shift), 15 - shift)
    else (x, 15) in
  let coarse := Z.shiftr x 8 in
  if coarse =? 0 then Panic (* integer division by zero *)
  else
    let reciprocal := u64 (2 ^ 55 + coarse - 1) / coarse in
    let fraction := Z.land (Z.shiftr (u64 (x * reciprocal)) 48) 0xff in
    high ← tableUint64 crushLnLH (u32 (coarse - 128));
    low ← tableUint64 crushLnLL fraction;
    let logarithm := u64 (high + low) in
    Ok (u64 (u64 (Z.shiftl exponent 44) + Z.shiftr logarithm 4)).

(** ** The tables as 64-bit entries *)

Definition entries (table : list Z) (n : nat) : list Z :=
  (fun i => match tableUint64 table (Z.of_nat i) with Ok v => v | _ => -1 end) <$> seq 0 n.

Definition LH : list Z := Eval vm_compute in entries crushLnLH 129.
Definition LL : list Z := Eval vm_compute in entries crushLnLL 256.

Definition table_matches (table vals : list Z) : bool :=
  forallb (fun i => match tableUint64 table (Z.of_nat i), vals !! i with
                    | Ok v, Some w => v =? w
                    | _, _ => false
                    end) (seq 0 (length vals)).

Lemma table_matches_spec table vals i : table_matches table vals = true ->
  0 <= i < len vals -> exists v, tableUint64 table i = Ok v /\ vals !! Z.to_nat i = Some v.
Proof.
  unfold table_matches. rewrite forallb_forall. intros H Hi. unfold len in Hi.
  specialize (H (Z.to_nat i)). rewrite in_seq, Z2Nat.id in H by lia.
  specialize (H ltac:(lia)). destruct (tableUint64 table i) as [v| |]; [|done..].
  destruct (vals !! Z.to_nat i) as [w|]; [|done]. apply Z.eqb_eq in H as ->. eauto.
Qed.

Lemma LH_matches : table_matches crushLnLH LH = true.
Proof. vm_compute. reflexivity. Qed.
Lemma LL_matches : table_matches crushLnLL LL = true.
Proof. vm_compute. reflexivity. Qed.

(** All pairs of entries that a normalised mantissa can select: row [c - 128]
    of the coarse table with the fine entries up to [128 * l / c], where [l]
    is the low byte of the mantissa (0 when [c = 256], at most 255 else). *)
Definition low_byte_max (c : Z) : Z := if c =? 256 then 0 else 255.

Definition pair_bound (row : nat * Z) : bool :=
  let '(i, high) := row in
  let c := Z.of_nat i + 128 in
  forallb (fun low => (0 <=? high + low) && (high + low <=? 2 ^ 48))
    (take (S (Z.to_nat (128 * low_byte_max c / c))) LL).

Lemma pairs_bounded : forallb pair_bound (imap pair LH) = true.
Proof. vm_compute. reflexivity. Qed.

Lemma pair_bounded c f high low :
  128 <= c <= 256 -> 0 <= f <= 128 * low_byte_max c / c ->
  LH !! Z.to_nat (c - 128) = Some high -> LL !! Z.to_nat f = Some low ->
  0 <= high + low <= 2 ^ 48.
Proof.
  intros Hc Hf Hh Hl. pose proof pairs_bounded as P. rewrite forallb_forall in P.
  specialize (P (Z.to_nat (c - 128), high)). rewrite <- list_elem_of_In in P.
  assert ((Z.to_nat (c - 128), high) ∈ imap pair LH) as Hin.
  { apply list_elem_of_lookup. exists (Z.to_nat (c - 128)). by rewrite list_lookup_imap, Hh. }
  specialize (P Hin). unfold pair_bound in P. rewrite forallb_forall in P.
  replace (Z.of_nat (Z.to_nat (c - 128)) + 128) with c in P by lia.
  specialize (P low). rewrite <- list_elem_of_In in P.
  assert (low ∈ take (S (Z.to_nat (128 * low_byte_max c / c))) LL) as Hin2.
  { apply list_elem_of_lookup. exists (Z.to_nat f). rewrite lookup_take_lt by lia. done. }
  specialize (P Hin2). apply andb_true_iff in P as [? ?]. lia.
Qed.

(** ** Normalisation and the fraction *)

(** The normalised mantissa and its exponent. *)
Definition normalise (x : Z) : Z * Z :=
  if Z.land x 0x18000 =? 0 then
    let shift := bits_LeadingZeros32 (Z.land x 0x1ffff) - 16 in
    (u32 (Z.shiftl x shift), 15 - shift)
  else (x, 15).

Lemma land_17 x : 0 <= x < 2 ^ 17 -> Z.land x 0x1ffff = x.
Proof. intros. change 0x1ffff with (Z.ones 17). rewrite Z.land_ones by lia. by apply Z.mod_small. Qed.

Lemma land_top x : 0 <= x < 2 ^ 17 -> Z.land x 0x18000 = 2 ^ 15 * (x / 2 ^ 15).
Proof.
  intros Hx. change 0x18000 with (Z.ldiff (Z.ones 17) (Z.ones 15)).
  transitivity (Z.ldiff x (Z.ones 15)).
  - apply Z.bits_inj'. intros i Hi. rewrite Z.land_spec, !Z.ldiff_spec.
    destruct (Z.lt_ge_cases i 17).
    + rewrite (Z.ones_spec_low 17) by lia. done.
    + by rewrite (inU_testbit 17 x i) by (unfold inU; lia).
  - rewrite Z.ldiff_ones_r by lia. rewrite Z.shiftr_div_pow2, Z.shiftl_mul_pow2 by lia. lia.
Qed.

Lemma normalise_range x : 1 <= x <= 0x10000 ->
  let '(y, e) := normalise x in 0x8000 <= y <= 0x10000 /\ 0 <= e <= 15.
Proof.
  intros Hx. unfold normalise. rewrite land_top by lia.
  destruct (Z.eqb_spec (2 ^ 15 * (x / 2 ^ 15)) 0) as [E|E].
  - assert (x < 2 ^ 15) as Hlt.
    { destruct (Z.lt_ge_cases x (2 ^ 15)); [done|]. exfalso. assert (1 <= x / 2 ^ 15) by (apply Z.div_le_lower_bound; lia). lia. }
    rewrite land_17 by lia. unfold bits_LeadingZeros32.
    destruct (Z.eqb_spec x 0); [lia|].
    pose proof (Z.log2_spec x ltac:(lia)) as [L1 L2]. pose proof (Z.log2_nonneg x).
    assert (Z.log2 x < 15) as Hl15. { apply Z.log2_lt_pow2; lia. }
    replace (31 - Z.log2 x - 16) with (15 - Z.log2 x) by lia.
    rewrite Z.shiftl_mul_pow2 by lia. set (s := 15 - Z.log2 x).
    assert (2 ^ Z.log2 x * 2 ^ s = 2 ^ 15) as P by (rewrite <- Z.pow_add_r by lia; f_equal; lia).
    rewrite Z.pow_succ_r in L2 by lia.
    assert (2 ^ 15 <= x * 2 ^ s < 2 * 2 ^ 15).
    { rewrite <- P. pose proof (Z.pow_pos_nonneg 2 s ltac:(lia) ltac:(lia)). nia. }
    rewrite wrapU_id by (unfold inU; lia). lia.
  - assert (2 ^ 15 <= x).
    { destruct (Z.lt_ge_cases x (2 ^ 15)); [|done]. rewrite Z.div_small in E by lia. lia. }
    lia.
Qed.

(** The fixed-point reciprocal is exact enough: the selected fraction is
    [128 * l / c] for the low byte [l] of the mantissa. *)
Lemma fraction_exact c l : 128 <= c <= 256 -> 0 <= l <= 255 -> 256 * c + l <= 0x10000 ->
  let y := 256 * c + l in
  let reciprocal := u64 (2 ^ 55 + c - 1) / c in
  Z.land (Z.shiftr (u64 (y * reciprocal)) 48) 0xff = 128 * l / c.
Proof.
  intros Hc Hl Hy y reciprocal.
  assert (u64 (2 ^ 55 + c - 1) = 2 ^ 55 + c - 1) as Hu by (apply wrapU_id; unfold inU; lia).
  unfold reciprocal. rewrite Hu. clear reciprocal Hu.
  set (r := (2 ^ 55 + c - 1) / c).
  assert (2 ^ 55 <= r * c < 2 ^ 55 + c) as Hr.
  { pose proof (Z.div_mod (2 ^ 55 + c - 1) c ltac:(lia)).
    pose proof (Z.mod_pos_bound (2 ^ 55 + c - 1) c ltac:(lia)). unfold r. lia. }
  set (q := 128 * l / c). pose proof (Z.div_mod (128 * l) c ltac:(lia)) as Hq.
  pose proof (Z.mod_pos_bound (128 * l) c ltac:(lia)) as Ht. fold q in Hq.
  assert (0 <= q <= 255) as Hq255.
  { split; [apply Z.div_pos; lia|]. unfold q. apply Z.div_le_upper_bound; lia. }
  assert (y * r / 2 ^ 48 = 32768 + q) as Hdiv.
  { symmetry. apply (Z.div_unique_pos _ _ _ (y * r - 2 ^ 48 * (32768 + q))); [|lia].
    unfold y in *. nia. }
  assert (0 <= y * r < 2 ^ 64) as Hrange.
  { pose proof (Z.div_mod (y * r) (2 ^ 48) ltac:(lia)).
    pose proof (Z.mod_pos_bound (y * r) (2 ^ 48) ltac:(lia)). lia. }
  rewrite wrapU_id by exact Hrange. rewrite Z.shiftr_div_pow2, Hdiv by lia.
  change 0xff with (Z.ones 8). rewrite Z.land_ones by lia.
  replace (32768 + q) with (q + 128 * 2 ^ 8) by lia. rewrite Z.mod_add by lia.
  apply Z.mod_small. lia.
Qed.

Lemma crushLn_mantissa y e : 0x8000 <= y <= 0x10000 -> 0 <= e <= 15 ->
  let coarse := Z.shiftr y 8 in
  let fraction := Z.land (Z.shiftr (u64 (y * (u64 (2 ^ 55 + coarse - 1) / coarse))) 48) 0xff in
  exists high low,
    tableUint64 crushLnLH (u32 (coarse - 128)) = Ok high /\
    tableUint64 crushLnLL fraction = Ok low /\ 0 <= high + low <= 2 ^ 48.
Proof.
  intros Hy He coarse fraction. subst coarse.
  set (c := Z.shiftr y 8). set (l := y mod 256).
  assert (y = 256 * c + l) as Ey.
  { unfold c, l. rewrite Z.shiftr_div_pow2 by lia. apply Z.div_mod. lia. }
  assert (0 <= l <= 255) as Hl by (unfold l; pose proof (Z.mod_pos_bound y 256); lia).
  assert (128 <= c <= 256) as Hc by lia.
  assert (fraction = 128 * l / c) as Ef.
  { unfold fraction. fold c. rewrite Ey at 1. apply fraction_exact; lia. }
  rewrite Ef, wrapU_id by (unfold inU; lia).
  assert (l <= low_byte_max c) as Hlmax.
  { unfold low_byte_max. destruct (Z.eqb_spec c 256); lia. }
  assert (0 <= 128 * l / c <= 128 * low_byte_max c / c) as Hf.
  { split; [apply Z.div_pos; lia|]. apply Z.div_le_mono; lia. }
  assert (128 * low_byte_max c / c <= 255) as Hf'.
  { apply Z.div_le_upper_bound; [lia|]. unfold low_byte_max. destruct (c =? 256); lia. }
  destruct (table_matches_spec _ _ (c - 128) LH_matches) as (high & H1 & H2);
    [change (len LH) with 129; lia|].
  destruct (table_matches_spec _ _ (128 * l / c) LL_matches) as (low & L1 & L2);
    [change (len LL) with 256; lia|].
  exists high, low. split_and!; try done; eapply pair_bounded; eauto.
Qed.

Lemma crushLn_ok u : 0 <= u <= 0xffff -> exists v, crushLn u = Ok v /\ 0 <= v <= 2 ^ 48.
Proof.
  intros Hu. unfold crushLn. rewrite wrapU_id by (unfold inU; lia).
  fold (normalise (u + 1)). pose proof (normalise_range (u + 1) ltac:(lia)) as N.
  destruct (normalise (u + 1)) as [y e]. destruct N as [Hy He].
  destruct (crushLn_mantissa y e Hy He) as (high & low & -> & -> & Hb).
  destruct (Z.eqb_spec (Z.shiftr y 8) 0) as [E|_].
  { exfalso. rewrite Z.shiftr_div_pow2 in E by lia.
    assert (128 <= y / 2 ^ 8) by (apply Z.div_le_lower_bound; lia). lia. }
  cbn [mbind res_bind]. rewrite Z.shiftl_mul_pow2 by lia.
  rewrite (wrapU_id 64 (high + low)) by (unfold inU; lia).
  rewrite (wrapU_id 64 (e * _)) by (unfold inU; lia).
  rewrite Z.shiftr_div_pow2 by lia.
  assert (0 <= (high + low) / 2 ^ 4 <= 2 ^ 44).
  { split; [apply Z.div_pos; lia|apply Z.div_le_upper_bound; lia]. }
  rewrite wrapU_id by (unfold inU; lia). eexists. split; [done|]. lia.
Qed.

(** ** Properties *)

(** The straw2 logarithm is total on the 16-bit hashes it is given: no
    table access or division panics, and the result lies between 0 and 2^48,
    so the straw length [crushLn - 2^48] is never positive. *)
Theorem crushLn_range u :
  0 <= u <= 0xffff -> exists v, crushLn u = Ok v /\ 0 <= v <= 2 ^ 48.
Proof. apply crushLn_ok. Qed.

Lemma crushLn_range_witness : exists v, crushLn 0xffff = Ok v /\ 0 <= v <= 2 ^ 48.
Proof. apply crushLn_range. lia. Defined.
