(* ===== verification/CrushHash.v ===== *)
(** * Object and placement hashes (src/internal/crush/hash.go) *)

From stdpp Require Import base gmap list numbers strings.
From coqutil Require Import Byte Word.LittleEndianList.
From S2P Require Import Prelude.

Open Scope Z_scope.

Definition namespaceSeparator : Byte.byte := Byte.x1f.

Definition mix (a b c : Z) : Z * Z * Z :=
  let a := u32 (a - b) in let a := u32 (a - c) in let a := Z.lxor a (Z.shiftr c 13) in
  let b := u32 (b - c) in let b := u32 (b - a) in let b := Z.lxor b (u32 (Z.shiftl a 8)) in
  let c := u32 (c - a) in let c := u32 (c - b) in let c := Z.lxor c (Z.shiftr b 13) in
  let a := u32 (a - b) in let a := u32 (a - c) in let a := Z.lxor a (Z.shiftr c 12) in
  let b := u32 (b - c) in let b := u32 (b - a) in let b := Z.lxor b (u32 (Z.shiftl a 16)) in
  let c := u32 (c - a) in let c := u32 (c - b) in let c := Z.lxor c (Z.shiftr b 5) in
  let a := u32 (a - b) in let a := u32 (a - c) in let a := Z.lxor a (Z.shiftr c 3) in
  let b := u32 (b - c) in let b := u32 (b - a) in let b := Z.lxor b (u32 (Z.shiftl a 10)) in
  let c := u32 (c - a) in let c := u32 (c - b) in let c := Z.lxor c (Z.shiftr b 15) in
  (a, b, c).

Definition Hash32Pair (a b : Z) : Z :=
  let hash := Z.lxor (Z.lxor 1315423911 a) b in
  let '(x, y) := (231232, 1232) in
  let '(a, b, hash) := mix a b hash in
  let '(_, _, hash) := mix x a hash in
  let '(_, _, hash) := mix b y hash in
  hash.

Definition Hash32Triple (a b c : Z) : Z :=
  let hash := Z.lxor (Z.lxor (Z.lxor 1315423911 a) b) c in
  let '(x, y) := (231232, 1232) in
  let '(a, b, hash) := mix a b hash in
  let '(c, x, hash) := mix c x hash in
  let '(y, _, hash) := mix y a hash in
  let '(_, _, hash) := mix b x hash in
  let '(_, _, hash) := mix y c hash in
  hash.

(** [for len(remaining) >= 12 { ... }]: each round consumes twelve bytes, so
    as many rounds as bytes are enough ([rjenkins_blocks_rest]). *)
Fixpoint rjenkins_blocks (fuel : nat) (a b c : Z) (remaining : bytes) : Z * Z * Z * bytes :=
  match fuel with
  | O => (a, b, c, remaining)
  | S fuel =>
      if 12 <=? len remaining then
        let a := u32 (a + le_combine (slice 0 4 remaining)) in
        let b := u32 (b + le_combine (slice 4 8 remaining)) in
        let c := u32 (c + le_combine (slice 8 12 remaining)) in
        let '(a, b, c) := mix a b c in
        rjenkins_blocks fuel a b c (drop 12 remaining)
      else (a, b, c, remaining)
  end.

(** [if len(remaining) > i { acc += uint32(remaining[i]) << shift }] *)
Definition add_tail (remaining : bytes) (i : nat) (shift acc : Z) : Z :=
  match remaining !! i with
  | Some x => u32 (acc + u32 (Z.shiftl (byte.unsigned x) shift))
  | None => acc
  end.

Definition RJenkins (value : bytes) : Z :=
  let '(a, b, c, remaining) := rjenkins_blocks (length value) 0x9e3779b9 0x9e3779b9 0 value in
  let c := u32 (c + u32 (len value)) in
  let c := add_tail remaining 10 24 c in
  let c := add_tail remaining 9 16 c in
  let c := add_tail remaining 8 8 c in
  let b := add_tail remaining 7 24 b in
  let b := add_tail remaining 6 16 b in
  let b := add_tail remaining 5 8 b in
  let b := add_tail remaining 4 0 b in
  let a := add_tail remaining 3 24 a in
  let a := add_tail remaining 2 16 a in
  let a := add_tail remaining 1 8 a in
  let a := add_tail remaining 0 0 a in
  let '(_, _, c) := mix a b c in
  c.

Definition hash_input (object locator namespace : bytes) : bytes :=
  let key := if bool_decide (locator = []) then object else locator in
  if bool_decide (namespace = []) then key
  else namespace ++ namespaceSeparator :: key.

Definition ObjectHash (object locator namespace : bytes) : Z :=
  RJenkins (hash_input object locator namespace).

(** [for value&0x80000000 == 0 { count++; value <<= 1 }] *)
Fixpoint leading_loop (fuel : nat) (count value : Z) : option Z :=
  match fuel with
  | O => None
  | S fuel =>
      if Z.land value 0x80000000 =? 0
      then leading_loop fuel (count + 1) (u32 (Z.shiftl value 1))
      else Some count
  end.

(** Thirty-two iterations are enough for a nonzero 32-bit value
    ([leading_loop_terminates]); the loop is not entered for zero. *)
Definition leadingZeros32 (value : Z) : Z :=
  if value =? 0 then 32 else default 0 (leading_loop 32 0 value).

Definition StableMod (value count : Z) : Z :=
  if count =? 0 then 0
  else
    let mask := u32 (u32 (Z.shiftl 1 (32 - leadingZeros32 (u32 (count - 1)))) - 1) in
    if Z.land value mask <? count then Z.land value mask
    else Z.land value (Z.shiftr mask 1).

(** Reference vectors of hash_test.go. *)
Example ObjectHash_vector :
  ObjectHash (String.list_byte_of_string "p00-smoke-object") [] [] = 0x96fc93a8 /\
  StableMod 0x96fc93a8 32 = 8 /\
  Hash32Triple 1 2 3 = 0x735ad42b /\
  Hash32Triple 0xdeadbeef 0xffffffff 17 = 0xe8247cea.
Proof. vm_compute. auto. Qed.

(** ** Ranges *)

Ltac u32_step :=
  first [ apply wrapU_range; lia
        | apply inU_lxor; [lia | assumption |
            first [ apply wrapU_range; lia
                  | apply inU_shiftr; [lia | apply (inU_le 32); [lia|lia|assumption] | lia] ] ] ].

Definition all_u32 (t : Z * Z * Z) : Prop :=
  let '(x, y, z) := t in inU 32 x /\ inU 32 y /\ inU 32 z.

(** Name each assignment of [mix], remembering its range.
    Whatever the operands, the outputs are 32-bit values. *)
Lemma mix_u32 a b c : all_u32 (mix a b c).
Proof.
  cbv delta [mix] beta.
  repeat lazymatch goal with
  | |- all_u32 (let x := ?e in @?f x) =>
      change (all_u32 (f e));
      let H := fresh "R" in
      first [ assert (inU 32 e) as H by u32_step; revert H; generalize e; intros ? H
            | generalize e; intros ? ]; cbn beta
  end.
  unfold all_u32. auto.
Qed.

Lemma Hash32Pair_u32 a b : inU 32 (Hash32Pair a b).
Proof.
  unfold Hash32Pair. destruct (mix a b _) as [[a1 b1] h1]. destruct (mix _ a1 h1) as [[? ?] h2].
  pose proof (mix_u32 b1 1232 h2) as M. destruct (mix b1 1232 h2) as [[? ?] h3]. apply M.
Qed.

Lemma Hash32Triple_u32 a b c : inU 32 (Hash32Triple a b c).
Proof.
  unfold Hash32Triple. destruct (mix a b _) as [[a1 b1] h1]. destruct (mix c _ h1) as [[c1 x1] h2].
  destruct (mix _ a1 h2) as [[y1 ?] h3]. destruct (mix b1 x1 h3) as [[? ?] h4].
  pose proof (mix_u32 y1 c1 h4) as M. destruct (mix y1 c1 h4) as [[? ?] h5]. apply M.
Qed.

Lemma RJenkins_u32 value : inU 32 (RJenkins value).
Proof.
  unfold RJenkins. destruct (rjenkins_blocks _ _ _ _ value) as [[[a b] c] r].
  match goal with |- context [mix ?x ?y ?z] =>
    pose proof (mix_u32 x y z) as M; destruct (mix x y z) as [[? ?] h] end. apply M.
Qed.

(** The block loop has enough fuel: it stops with fewer than twelve bytes. *)
Lemma rjenkins_blocks_rest fuel a b c r : (length r <= fuel)%nat ->
  len (snd (rjenkins_blocks fuel a b c r)) < 12.
Proof.
  revert a b c r. induction fuel as [|fuel IH]; intros a b c r Hf; cbn [rjenkins_blocks].
  - unfold len. cbn [snd]. lia.
  - destruct (Z.leb_spec 12 (len r)) as [Hr|Hr]; [|done].
    destruct (mix _ _ _) as [[a1 b1] c1]. apply IH. rewrite length_drop. unfold len in Hr. lia.
Qed.

(** ** [leadingZeros32] and [StableMod] *)

Lemma land_bit31 v : inU 32 v -> (Z.land v 0x80000000 =? 0) = (v <? 2 ^ 31).
Proof.
  intros Hv. change 0x80000000 with (2 ^ 31).
  destruct (Z.ltb_spec v (2 ^ 31)) as [Hlt|Hge].
  - apply Z.eqb_eq. apply Z.bits_inj'. intros i Hi. rewrite Z.land_spec, Z.bits_0.
    destruct (decide (i = 31)) as [->|Hne].
    + rewrite (inU_testbit 31 v 31); [done|unfold inU in *; lia|lia].
    + rewrite Z.pow2_bits_false by lia. apply andb_false_r.
  - apply Z.eqb_neq. intros E. apply (f_equal (fun z => Z.testbit z 31)) in E.
    rewrite Z.land_spec, Z.pow2_bits_true, Z.bits_0, andb_true_r in E by lia.
    apply Z.testbit_false in E; [|lia]. destruct Hv as [Hv0 Hv1].
    assert (v / 2 ^ 31 = 1) as D by (symmetry; apply (Z.div_unique _ _ _ (v - 2 ^ 31)); lia).
    rewrite D in E. done.
Qed.

Lemma leading_loop_spec fuel count v :
  0 < v < 2 ^ 32 -> 31 - Z.log2 v < Z.of_nat fuel ->
  leading_loop fuel count v = Some (count + (31 - Z.log2 v)).
Proof.
  revert count v. induction fuel as [|fuel IH]; intros count v Hv Hf.
  { pose proof (Z.log2_lt_pow2 v 32). lia. }
  cbn [leading_loop]. rewrite land_bit31 by (unfold inU; lia).
  destruct (Z.ltb_spec v (2 ^ 31)) as [Hlt|Hge].
  - rewrite Z.shiftl_mul_pow2, wrapU_id by (unfold inU; lia). rewrite IH; [|lia|].
    + rewrite (Z.log2_mul_pow2 v 1) by lia. f_equal. lia.
    + rewrite (Z.log2_mul_pow2 v 1) by lia. lia.
  - assert (Z.log2 v = 31) as -> by (apply Z.log2_unique; lia). f_equal. lia.
Qed.

Lemma leadingZeros32_spec v : 0 <= v < 2 ^ 32 ->
  32 - leadingZeros32 v = if v =? 0 then 0 else Z.log2 v + 1.
Proof.
  intros Hv. unfold leadingZeros32. destruct (Z.eqb_spec v 0); [lia|].
  pose proof (Z.log2_nonneg v). rewrite leading_loop_spec by lia. unfold id; cbn [from_option]. lia.
Qed.

(** Number of bits of the mask of [StableMod]. *)
Definition mask_bits (count : Z) : Z :=
  if count - 1 =? 0 then 0 else Z.log2 (count - 1) + 1.

Lemma mask_bits_spec count : 0 < count <= 2 ^ 32 - 1 ->
  0 <= mask_bits count <= 32 /\ count <= 2 ^ mask_bits count /\
  (1 < count -> 0 < mask_bits count /\ 2 ^ (mask_bits count - 1) < count).
Proof.
  intros Hc. unfold mask_bits. destruct (Z.eqb_spec (count - 1) 0).
  { change (2 ^ 0) with 1. split; [lia|]. split; [lia|]. intros. lia. }
  pose proof (Z.log2_spec (count - 1) ltac:(lia)) as [L1 L2]. pose proof (Z.log2_nonneg (count - 1)).
  assert (Z.log2 (count - 1) < 32) by (apply Z.log2_lt_pow2; lia).
  unfold Z.succ in L2. replace (Z.log2 (count - 1) + 1 - 1) with (Z.log2 (count - 1)) by lia. lia.
Qed.

(** [StableMod] in terms of remainders by powers of two. *)
Lemma StableMod_spec value count : inU 32 value -> 0 < count <= 2 ^ 32 - 1 ->
  StableMod value count =
  let k := mask_bits count in
  if value mod 2 ^ k <? count then value mod 2 ^ k else value mod 2 ^ (k - 1).
Proof.
  intros Hv Hc. unfold StableMod. destruct (Z.eqb_spec count 0); [lia|].
  rewrite (wrapU_id 32 (count - 1)) by (unfold inU; lia). rewrite leadingZeros32_spec by lia.
  fold (mask_bits count). pose proof (mask_bits_spec count Hc) as (Hk & Hle & Hgt).
  set (k := mask_bits count) in *.
  assert (u32 (u32 (Z.shiftl 1 k) - 1) = Z.ones k) as ->.
  { rewrite Z.shiftl_mul_pow2, Z.mul_1_l, Z.ones_equiv by lia. unfold Z.pred.
    destruct (decide (k = 32)) as [->|Hne]; [done|].
    pose proof (Z.pow_lt_mono_r 2 k 32 ltac:(lia) ltac:(lia) ltac:(lia)).
    pose proof (Z.pow_pos_nonneg 2 k ltac:(lia) ltac:(lia)).
    rewrite (wrapU_id 32 (2 ^ k)) by (unfold inU; lia). rewrite wrapU_id by (unfold inU; lia). lia. }
  rewrite Z.land_ones by lia. cbv zeta. destruct (Z.ltb_spec (value mod 2 ^ k) count) as [|Hnot]; [done|].
  assert (0 < k) as Hkpos.
  { destruct (decide (count = 1)) as [->|]; [|apply Hgt; lia]. exfalso.
    change k with 0 in Hnot. rewrite Z.pow_0_r, Z.mod_1_r in Hnot. lia. }
  replace (Z.shiftr (Z.ones k) 1) with (Z.ones (k - 1)); [by rewrite Z.land_ones by lia|].
  symmetry. rewrite !Z.ones_equiv. unfold Z.pred. rewrite Z.shiftr_div_pow2 by lia.
  replace (2 ^ k) with (2 * 2 ^ (k - 1)) by (rewrite <- Z.pow_succ_r by lia; f_equal; lia).
  symmetry. apply (Z.div_unique _ _ _ 1); lia.
Qed.

Lemma StableMod_range value count : inU 32 value -> 0 < count <= 2 ^ 32 - 1 ->
  0 <= StableMod value count < count.
Proof.
  intros Hv Hc. rewrite StableMod_spec by done. cbv zeta.
  pose proof (mask_bits_spec count Hc) as (Hk & Hle & Hgt).
  destruct (Z.ltb_spec (value mod 2 ^ mask_bits count) count) as [H|H].
  { pose proof (Z.mod_pos_bound value (2 ^ mask_bits count)). lia. }
  destruct (decide (count = 1)) as [->|].
  { exfalso. change (mask_bits 1) with 0 in H. rewrite Z.pow_0_r, Z.mod_1_r in H. lia. }
  destruct (Hgt ltac:(lia)) as [? ?].
  assert (0 < 2 ^ (mask_bits count - 1)) as Hpos by (apply Z.pow_pos_nonneg; lia).
  pose proof (Z.mod_pos_bound value _ Hpos). lia.
Qed.

(** ** Properties *)

(** C32. A hash always lands in a placement group that exists, for any
    positive group count including non-powers of two; the leading-zero loop
    inside terminates. *)
Theorem StableMod_in_range value count :
  inU 32 value -> 0 < count <= 2 ^ 32 - 1 ->
  0 <= StableMod value count < count /\
  exists n, leading_loop 32 0 (Z.max 1 (count - 1)) = Some n.
Proof.
  intros Hv Hc. split; [by apply StableMod_range|].
  eexists. apply leading_loop_spec; [lia|]. pose proof (Z.log2_nonneg (Z.max 1 (count - 1))). lia.
Qed.

Lemma StableMod_in_range_witness : 0 <= StableMod 0x96fc93a8 12 < 12.
Proof. apply (StableMod_in_range 0x96fc93a8 12); unfold inU; lia. Defined.

(** C31. Growing the number of placement groups moves objects only into new
    groups: a hash whose group under the larger count already existed under
    the smaller count was in that group before. *)
Theorem StableMod_stable value count count' :
  inU 32 value -> 0 < count <= count' -> count' <= 2 ^ 32 - 1 ->
  StableMod value count' < count -> StableMod value count = StableMod value count'.
Proof.
  intros Hv Hc Hc' Hlt. rewrite StableMod_spec in Hlt by (done || lia).
  rewrite !StableMod_spec by (done || lia). cbv zeta in *.
  pose proof (mask_bits_spec count ltac:(lia)) as (Hk & Hle & Hgt).
  pose proof (mask_bits_spec count' ltac:(lia)) as (Hk' & Hle' & Hgt').
  set (k := mask_bits count) in *. set (k' := mask_bits count') in *.
  assert (k <= k') as Hkk.
  { unfold k, k', mask_bits. destruct (Z.eqb_spec (count - 1) 0), (Z.eqb_spec (count' - 1) 0);
      try lia; [pose proof (Z.log2_nonneg (count' - 1)); lia|].
    pose proof (Z.log2_le_mono (count - 1) (count' - 1)). lia. }
  assert (forall j, k <= j -> value mod 2 ^ j < count -> value mod 2 ^ k = value mod 2 ^ j) as Small.
  { intros j Hj Hs. rewrite <- (Z.mod_small (value mod 2 ^ j) (2 ^ k)).
    - symmetry. apply Z.mod_mod_divide. exists (2 ^ (j - k)). rewrite <- Z.pow_add_r by lia.
      f_equal. lia.
    - assert (0 < 2 ^ j) as Hpos by (apply Z.pow_pos_nonneg; lia).
      pose proof (Z.mod_pos_bound value _ Hpos). lia. }
  destruct (Z.ltb_spec (value mod 2 ^ k') count') as [H'|H'].
  - rewrite (Small k') by (lia || done). destruct (Z.ltb_spec (value mod 2 ^ k') count); [done|lia].
  - destruct (decide (k = k')) as [E|Hne].
    + rewrite E. destruct (Z.ltb_spec (value mod 2 ^ k') count); [lia|done].
    + rewrite (Small (k' - 1)) by (lia || done).
      destruct (Z.ltb_spec (value mod 2 ^ (k' - 1)) count); [done|lia].
Qed.

Lemma StableMod_stable_witness : StableMod 200 12 = StableMod 200 13.
Proof. apply (StableMod_stable 200 12 13); [unfold inU; lia|lia|lia|vm_compute; reflexivity]. Defined.
