(* ===== verification/CrushMap.v ===== *)
(** * CRUSH maps: decoding and graph validation (src/internal/crush/map.go) *)

From stdpp Require Import base gmap list numbers strings.
From coqutil Require Import Byte Word.LittleEndianList.
From S2P Require Import Prelude Codec.

Open Scope Z_scope.
Open Scope go_scope.

Definition Magic : Z := 0x00010000.
Definition BucketStraw2 : Z := 5.
Definition HashRJenkins1 : Z := 0.
Definition RuleTake : Z := 1.
Definition RuleChooseFirstN : Z := 2.
Definition RuleChooseIndep : Z := 3.
Definition RuleEmit : Z := 4.
Definition RuleChooseleafFirstN : Z := 6.
Definition RuleSetChooseTries : Z := 8.
Definition RuleSetChooseleafTries : Z := 9.
Definition RuleTypeReplicated : Z := 1.
Definition RuleTypeErasure : Z := 3.

Record DecodeLimits := mkDecodeLimits {
  dl_MaxBytes : Z;
  dl_MaxBuckets : Z;
  dl_MaxRules : Z;
  dl_MaxItems : Z;
  dl_MaxNames : Z }.

Definition maxCertifiedRetries : Z := 1000.
Definition maxCertifiedDepth : Z := 64.

Record Bucket := mkBucket {
  b_ID : Z;
  b_Type : Z;
  b_Weight : Z;
  b_Items : list Z;
  b_ItemWeights : list Z }.

(** The zero [Bucket], which indexing a Go map yields for a missing key. *)
Definition Bucket_zero : Bucket := mkBucket 0 0 0 [] [].

Record RuleStep := mkRuleStep { Operation : Z; Argument1 : Z; Argument2 : Z }.

#[export] Instance RuleStep_eq_dec : EqDecision RuleStep.
Proof. solve_decision. Defined.

Record Rule := mkRule {
  r_Type : Z;
  r_MinSize : Z;
  r_MaxSize : Z;
  r_Steps : list RuleStep }.

Record Map := mkMap {
  MaxDevices : Z;
  Buckets : gmap Z Bucket;
  Rules : gmap Z Rule;
  ChooseLocalTries : Z;
  ChooseLocalFallbackTries : Z;
  ChooseTotalTries : Z;
  ChooseleafDescendOnce : Z;
  ChooseleafVaryR : Z;
  StrawCalcVersion : Z;
  AllowedBucketAlgorithms : Z;
  ChooseleafStable : Z;
  MSRDescents : Z;
  MSRCollisionTries : Z;
  classShadowBuckets : gset Z }.

(** ** Graph validation *)

(** The locals [states] and [heights] of [validateGraph]. *)
Record visit_state := mkVisit { states : gmap Z Z; heights : gmap Z Z }.

Definition state_of (st : visit_state) (id : Z) : Z := default 0 (states st !! id).
Definition height_of (st : visit_state) (id : Z) : Z := default 0 (heights st !! id).

(** [visit id depth] with [left = maxCertifiedDepth + 1 - depth]: the depth
    check at its head is the case [left = 0]. *)
Fixpoint visit (m : Map) (left : nat) (id : Z) (st : visit_state) : res (Z * visit_state) :=
  match left with
  | O => Err crush_ErrUnsupported
  | S left' =>
      let depth := maxCertifiedDepth - Z.of_nat left' in
      if state_of st id =? 1 then Err wire_ErrMalformed
      else if state_of st id =? 2 then
        if maxCertifiedDepth <? depth + height_of st id - 1 then Err crush_ErrUnsupported
        else Ok (height_of st id, st)
      else
        let st := mkVisit (<[id := 1]> (states st)) (heights st) in
        '(height, st) ← fold_res (fun item '(height, st) =>
            if 0 <=? item then
              if MaxDevices m <=? item then Err wire_ErrMalformed
              else Ok (height, st)
            else
              match Buckets m !! item with
              | None => Err wire_ErrMalformed
              | Some _ =>
                  '(childHeight, st) ← visit m left' item st;
                  Ok (if height <? childHeight + 1 then childHeight + 1 else height, st)
              end)
          (b_Items (default Bucket_zero (Buckets m !! id))) (1, st);
        Ok (height, mkVisit (<[id := 2]> (states st)) (<[id := height]> (heights st)))
  end.

(** [order] is the order in which Go iterates over the map of buckets. *)
Definition validateGraph_in (m : Map) (order : list Z) : res unit :=
  _ ← fold_res (fun id _ =>
      let bucket := default Bucket_zero (Buckets m !! id) in
      if (0 <=? id) || negb (b_ID bucket =? id) then Err wire_ErrMalformed
      else if negb (len (b_Items bucket) =? len (b_ItemWeights bucket)) then Err wire_ErrMalformed
      else Ok tt) order tt;
  _ ← fold_res (fun id st => '(_, st) ← visit m (Z.to_nat maxCertifiedDepth) id st; Ok st)
    order (mkVisit ∅ ∅);
  Ok tt.

Definition bucket_ids (m : Map) : list Z := (map_to_list (Buckets m)).*1.

Definition validateGraph (m : Map) : res unit := validateGraph_in m (bucket_ids m).

(** ** Decoding *)

Definition consumeNameMap (maximum : Z) : DecM (res unit) :=
  count ← Dec.Uint32;
  if maximum <? count then fail wire_ErrLimitExceeded
  else
    _ ← repeat_dec (Z.to_nat count) (_ ← Dec.Int32; Dec.String);
    Dec.Finish.

Definition consumeIntMap (maximum : Z) : DecM (res unit) :=
  count ← Dec.Uint32;
  if maximum <? count then fail wire_ErrLimitExceeded
  else
    remaining ← Dec.Remaining;
    if remaining <? count * 8 then fail wire_ErrMalformed
    else
      _ ← repeat_dec (Z.to_nat count) (_ ← Dec.Int32; Dec.Int32);
      Dec.Finish.

Definition consumeNestedIntMap (maximum : Z) : DecM (res (gset Z)) :=
  count ← Dec.Uint32;
  if maximum <? count then fail wire_ErrLimitExceeded
  else
    values ←? loop_dec (Z.to_nat count) (fun values =>
      _ ← Dec.Int32;
      inner ← Dec.Uint32;
      if maximum <? inner then fail wire_ErrLimitExceeded
      else
        remaining ← Dec.Remaining;
        if remaining <? inner * 8 then fail wire_ErrMalformed
        else
          shadows ← repeat_dec (Z.to_nat inner) (_ ← Dec.Int32; Dec.Int32);
          ok (list_to_set shadows ∪ values)) ∅;
    _ ←? Dec.Finish;
    ok values.

(** The bucket loop of [DecodeMap]. *)
Definition decode_bucket (limits : DecodeLimits) (index : Z) (buckets : gmap Z Bucket)
    : DecM (res (gmap Z Bucket)) :=
  algorithm ← Dec.Uint32;
  if algorithm =? 0 then ok buckets
  else if negb (algorithm =? BucketStraw2) then fail crush_ErrUnsupported
  else
    id ← Dec.Int32;
    type ← Dec.Uint16;
    encodedAlgorithm ← Dec.Uint8;
    hash ← Dec.Uint8;
    weight ← Dec.Uint32;
    count ← Dec.Uint32;
    _ ←? Dec.Finish;
    if negb (id =? -1 - index) || negb (encodedAlgorithm =? BucketStraw2)
       || negb (hash =? HashRJenkins1) then fail wire_ErrMalformed
    else if dl_MaxItems limits <? count then fail wire_ErrLimitExceeded
    else
      remaining ← Dec.Remaining;
      if remaining <? count * 8 then fail wire_ErrMalformed
      else
        items ← repeat_dec (Z.to_nat count) Dec.Int32;
        weights ← repeat_dec (Z.to_nat count) Dec.Uint32;
        ok (<[id := mkBucket id type weight items weights]> buckets).

(** The rule loop of [DecodeMap]. *)
Definition decode_rule (limits : DecodeLimits) (index : Z) (rules : gmap Z Rule)
    : DecM (res (gmap Z Rule)) :=
  present ← Dec.Uint32;
  if present =? 0 then ok rules
  else
    count ← Dec.Uint32;
    if dl_MaxItems limits <? count then fail wire_ErrLimitExceeded
    else
      remaining ← Dec.Remaining;
      if remaining <? count * 12 + 4 then fail wire_ErrMalformed
      else
        ruleID ← Dec.Uint8;
        type ← Dec.Uint8;
        minSize ← Dec.Uint8;
        maxSize ← Dec.Uint8;
        if negb (ruleID =? index) then fail wire_ErrMalformed
        else
          steps ← repeat_dec (Z.to_nat count)
            (op ← Dec.Uint32; a1 ← Dec.Int32; a2 ← Dec.Int32; mret (mkRuleStep op a1 a2));
          ok (<[index := mkRule type minSize maxSize steps]> rules).

(** [if decoder.Remaining() >= n { x = read() }] *)
Definition optional {A} (n : Z) (read : DecM A) (dflt : A) : DecM A :=
  remaining ← Dec.Remaining;
  if n <=? remaining then read else mret dflt.

Definition DecodeMap (data : bytes) (limits : DecodeLimits) : res Map :=
  if (dl_MaxBytes limits =? 0) || (dl_MaxBuckets limits =? 0) || (dl_MaxRules limits =? 0)
     || (dl_MaxItems limits =? 0) || (dl_MaxNames limits =? 0)
  then Err wire_ErrLimitExceeded
  else fst ((
    magic ← Dec.Uint32;
    if negb (magic =? Magic) then fail wire_ErrMalformed
    else
    maxBuckets ← Dec.Int32;
    maxRules ← Dec.Uint32;
    maxDevices ← Dec.Int32;
    _ ←? Dec.Finish;
    if (maxBuckets <? 0) || (dl_MaxBuckets limits <? maxBuckets) || (dl_MaxRules limits <? maxRules)
       || (maxDevices <? 0) || (dl_MaxItems limits <? maxDevices)
    then fail wire_ErrLimitExceeded
    else
    buckets ←? for_dec (seqZ 0 maxBuckets) (decode_bucket limits) ∅;
    rules ←? for_dec (seqZ 0 maxRules) (decode_rule limits) ∅;
    _ ←? loop_dec 3 (fun _ => consumeNameMap (dl_MaxNames limits)) tt;
    '(localTries, localFallbackTries, totalTries, retriesRead) ←
      optional 12 (a ← Dec.Uint32; b ← Dec.Uint32; c ← Dec.Uint32; mret (a, b, c, true))
        (2, 5, 19, false);
    if retriesRead && ((maxCertifiedRetries <? localTries) || (maxCertifiedRetries <? localFallbackTries)
       || (maxCertifiedRetries <=? totalTries)) then fail crush_ErrUnsupported
    else
    descendOnce ← optional 4 Dec.Uint32 0;
    varyR ← optional 1 Dec.Uint8 0;
    strawCalc ← optional 1 Dec.Uint8 0;
    allowed ← optional 4 Dec.Uint32 (2 ^ 1 + 2 ^ 2 + 2 ^ 4);
    stable ← optional 1 Dec.Uint8 0;
    remaining ← Dec.Remaining;
    shadow ←? (if negb (remaining =? 0) then
        _ ←? consumeIntMap (dl_MaxNames limits);
        _ ←? consumeNameMap (dl_MaxNames limits);
        shadowBuckets ←? consumeNestedIntMap (dl_MaxNames limits);
        chooseArgs ← Dec.Uint32;
        if negb (chooseArgs =? 0) then fail crush_ErrUnsupported
        else ok shadowBuckets
      else ok ∅);
    '(msrDescents, msrCollisionTries) ←
      optional 8 (a ← Dec.Uint32; b ← Dec.Uint32; mret (a, b)) (0, 0);
    remaining ← Dec.Remaining;
    if negb (remaining =? 0) then fail wire_ErrMalformed
    else
    _ ←? Dec.Finish;
    let result := mkMap maxDevices buckets rules localTries localFallbackTries totalTries
      descendOnce varyR strawCalc allowed stable msrDescents msrCollisionTries shadow in
    match validateGraph result with
    | Ok _ => ok result
    | Err e => fail e
    | Panic => mret Panic
    end) (NewDecoder data (mkLimits (dl_MaxBytes limits)))).

(** ** What a valid bucket graph is

    Every bucket has a negative identity and as many weights as items, every
    item is a device below [MaxDevices] or another bucket, and the buckets can
    be ranked, with ranks up to [maxCertifiedDepth], so that children rank
    below their parent: the graph is acyclic and of bounded depth. *)

Definition item_ok (m : Map) (rank : Z -> Z) (r : Z) (item : Z) : Prop :=
  (0 <= item < MaxDevices m) \/
  (item < 0 /\ is_Some (Buckets m !! item) /\ rank item < r).

Definition bucket_ok (m : Map) (rank : Z -> Z) (id : Z) (b : Bucket) : Prop :=
  id < 0 /\ b_ID b = id /\ len (b_Items b) = len (b_ItemWeights b) /\
  1 <= rank id <= maxCertifiedDepth /\
  Forall (item_ok m rank (rank id)) (b_Items b).

Definition graph_ranked (m : Map) (rank : Z -> Z) : Prop :=
  forall id b, Buckets m !! id = Some b -> bucket_ok m rank id b.

Definition graph_ok (m : Map) : Prop := exists rank, graph_ranked m rank.

(** *** Soundness of [visit]: invariant of the finished part *)

Definition done_ok (m : Map) (st : visit_state) (id : Z) : Prop :=
  exists b, Buckets m !! id = Some b /\ 1 <= height_of st id <= maxCertifiedDepth /\
  Forall (fun item => (0 <= item < MaxDevices m) \/
    (item < 0 /\ state_of st item = 2 /\ height_of st item < height_of st id)) (b_Items b).

Definition visit_inv (m : Map) (st : visit_state) : Prop :=
  forall id, state_of st id = 2 -> done_ok m st id.

(** Finished buckets stay finished with their height; buckets in progress
    stay in progress. *)
Definition visit_le (st st' : visit_state) : Prop :=
  (forall id, state_of st id = 2 -> state_of st' id = 2 /\ height_of st' id = height_of st id) /\
  (forall id, state_of st id = 1 <-> state_of st' id = 1).

Lemma visit_le_refl st : visit_le st st.
Proof. by split. Qed.

Lemma visit_le_trans st1 st2 st3 : visit_le st1 st2 -> visit_le st2 st3 -> visit_le st1 st3.
Proof.
  intros [A1 B1] [A2 B2]. split.
  - intros id H. destruct (A1 id H) as [H1 E1]. destruct (A2 id H1) as [H2 E2]. split; congruence.
  - intros id. by rewrite B1.
Qed.

Lemma state_of_insert st id v j h :
  state_of (mkVisit (<[id := v]> (states st)) h) j = if decide (id = j) then v else state_of st j.
Proof. unfold state_of. cbn. rewrite lookup_insert. by case_decide. Qed.

Lemma height_of_insert st id v j s :
  height_of (mkVisit s (<[id := v]> (heights st))) j = if decide (id = j) then v else height_of st j.
Proof. unfold height_of. cbn. rewrite lookup_insert. by case_decide. Qed.

Lemma state_of_empty j : state_of (mkVisit ∅ ∅) j = 0.
Proof. unfold state_of. cbn. by rewrite lookup_empty. Qed.

(** The body of the loop over the items of a bucket. *)
Definition visit_item (m : Map) (left : nat) (item : Z) (acc : Z * visit_state)
    : res (Z * visit_state) :=
  let '(height, st) := acc in
  if 0 <=? item then
    if MaxDevices m <=? item then Err wire_ErrMalformed else Ok (height, st)
  else
    match Buckets m !! item with
    | None => Err wire_ErrMalformed
    | Some _ =>
        '(childHeight, st) ← visit m left item st;
        Ok (if height <? childHeight + 1 then childHeight + 1 else height, st)
    end.

Lemma visit_unfold m left id st :
  visit m (S left) id st =
  if state_of st id =? 1 then Err wire_ErrMalformed
  else if state_of st id =? 2 then
    if maxCertifiedDepth <? maxCertifiedDepth - Z.of_nat left + height_of st id - 1
    then Err crush_ErrUnsupported else Ok (height_of st id, st)
  else
    '(height, st) ← fold_res (visit_item m left)
      (b_Items (default Bucket_zero (Buckets m !! id)))
      (1, mkVisit (<[id := 1]> (states st)) (heights st));
    Ok (height, mkVisit (<[id := 2]> (states st)) (<[id := height]> (heights st))).
Proof. done. Qed.

Definition visit_sound (m : Map) (left : nat) : Prop := forall id st h st',
  visit_inv m st -> is_Some (Buckets m !! id) -> visit m left id st = Ok (h, st') ->
  visit_inv m st' /\ visit_le st st' /\ state_of st' id = 2 /\ height_of st' id = h /\
  1 <= h <= Z.of_nat left.

Lemma visit_items_sound m left items height st h st' :
  visit_sound m left -> visit_inv m st -> 1 <= height <= Z.of_nat left + 1 ->
  fold_res (visit_item m left) items (height, st) = Ok (h, st') ->
  visit_inv m st' /\ visit_le st st' /\ height <= h <= Z.of_nat left + 1 /\
  Forall (fun item => (0 <= item < MaxDevices m) \/
    (item < 0 /\ state_of st' item = 2 /\ height_of st' item < h)) items.
Proof.
  intros IH. revert height st. induction items as [|item items IHi]; intros height st Hinv Hh H.
  - injection H as <- <-. split_and!; auto using visit_le_refl; lia.
  - cbn [fold_res] in H. apply res_bind_ok in H as ([h1 st1] & E & H). unfold visit_item in E.
    destruct (Z.leb_spec 0 item) as [Hpos|Hneg].
    + destruct (Z.leb_spec (MaxDevices m) item); [done|]. injection E as <- <-.
      destruct (IHi _ _ Hinv Hh H) as (A & B & C & D). split_and!; try done; try lia.
      constructor; [left; lia|done].
    + destruct (Buckets m !! item) as [b|] eqn:Hb; [|done].
      apply res_bind_ok in E as ([ch st2] & V & E). injection E as <- <-.
      destruct (IH _ _ _ _ Hinv (mk_is_Some _ _ Hb) V) as (A & B & C & D & F).
      assert (height <= (if height <? ch + 1 then ch + 1 else height) <= Z.of_nat left + 1 /\
              ch < (if height <? ch + 1 then ch + 1 else height)) as [G1 G2]
        by (destruct (Z.ltb_spec height (ch + 1)); lia).
      apply IHi in H as (A' & B' & C' & D'); [|done|lia].
      split_and!; [done|by eapply visit_le_trans|lia|lia|]. constructor; [|done]. right.
      destruct (proj1 B' _ C) as [S2 H2]. split_and!; [done|done|]. rewrite H2. lia.
Qed.

Lemma visit_is_sound m left : Z.of_nat left <= maxCertifiedDepth -> visit_sound m left.
Proof.
  induction left as [|left IH]; intros Hl id st h st' Hinv Hb H; [done|].
  rewrite visit_unfold in H. destruct (Z.eqb_spec (state_of st id) 1) as [|N1]; [done|].
  destruct (Z.eqb_spec (state_of st id) 2) as [E2|N2].
  - destruct (Z.ltb_spec maxCertifiedDepth (maxCertifiedDepth - Z.of_nat left + height_of st id - 1));
      [done|]. injection H as <- <-. destruct (Hinv id E2) as (b & _ & Hh & _).
    split_and!; auto using visit_le_refl; lia.
  - set (st0 := mkVisit (<[id := 1]> (states st)) (heights st)) in H.
    apply res_bind_ok in H as ([h1 st1] & E & H). injection H as <- <-.
    destruct Hb as [b Hb]. rewrite Hb in E. change (default Bucket_zero (Some b)) with b in E.
    assert (visit_inv m st0) as Hinv0.
    { intros j Hj. unfold st0 in Hj. rewrite state_of_insert in Hj. case_decide; [done|].
      destruct (Hinv j Hj) as (bj & B1 & B2 & B3). exists bj. split_and!; try done; [apply B2..|].
      eapply Forall_impl; [exact B3|]. cbn beta. intros item [?|(? & ? & ?)]; [by left|right].
      split_and!; try done. unfold st0. rewrite state_of_insert. case_decide; [|done]. congruence. }
    eapply visit_items_sound in E as (A & B & C & D);
      [|apply IH; lia|done|lia].
    assert (state_of st1 id = 1) as S1.
    { apply (proj2 B). unfold st0. rewrite state_of_insert. by case_decide. }
    set (st2 := mkVisit _ _).
    assert (forall j, state_of st2 j = if decide (id = j) then 2 else state_of st1 j) as ES
      by (intros; apply state_of_insert).
    assert (forall j, height_of st2 j = if decide (id = j) then h1 else height_of st1 j) as EH
      by (intros; apply height_of_insert).
    assert (forall j, state_of st1 j = 2 -> id <> j) as Hne by (intros j Hj ->; congruence).
    split_and!.
    + intros j Hj. rewrite ES in Hj. unfold done_ok. rewrite EH. case_decide as Hdj.
      * subst j. exists b. split_and!; [done|lia|lia|]. eapply Forall_impl; [exact D|].
        cbn beta. intros item [?|(? & Hs & Hlt)]; [by left|right].
        rewrite ES, EH. rewrite !decide_False by auto. done.
      * destruct (A j Hj) as (bj & B1 & B2 & B3). exists bj. split_and!; [done|apply B2..|].
        eapply Forall_impl; [exact B3|]. cbn beta. intros item [?|(? & Hs & Hlt)]; [by left|right].
        rewrite ES, EH. rewrite !decide_False by auto. done.
    + split.
      * intros j Hj. assert (id <> j) as Hij by congruence. rewrite ES, EH, !decide_False by done.
        destruct (proj1 B j) as [Q1 Q2]; [unfold st0; by rewrite state_of_insert, decide_False|].
        split; [done|]. by rewrite Q2.
      * intros j. rewrite ES. pose proof (proj2 B j) as Bj. unfold st0 in Bj.
        rewrite state_of_insert in Bj. case_decide; [subst; split; congruence|done].
    + by rewrite ES, decide_True.
    + by rewrite EH, decide_True.
    + lia.
    + lia.
Qed.

(** *** Completeness of [visit]: a ranked graph passes *)

Definition path_above (rank : Z -> Z) (st : visit_state) (r : Z) : Prop :=
  forall j, state_of st j = 1 -> r < rank j.

Definition heights_below (rank : Z -> Z) (st : visit_state) : Prop :=
  forall j, state_of st j = 2 -> height_of st j <= rank j.

Definition same_path (st st' : visit_state) : Prop :=
  forall j, state_of st' j = 1 -> state_of st j = 1.

Definition visit_complete (m : Map) (rank : Z -> Z) (left : nat) : Prop := forall id st,
  is_Some (Buckets m !! id) -> rank id <= Z.of_nat left ->
  path_above rank st (rank id) -> heights_below rank st ->
  exists h st', visit m left id st = Ok (h, st') /\ h <= rank id /\
    heights_below rank st' /\ same_path st st'.

Lemma visit_items_complete m rank left r items height st :
  visit_complete m rank left -> r <= Z.of_nat left + 1 -> 1 <= height <= r ->
  path_above rank st (r - 1) -> heights_below rank st -> Forall (item_ok m rank r) items ->
  exists h st', fold_res (visit_item m left) items (height, st) = Ok (h, st') /\
    h <= r /\ heights_below rank st' /\ same_path st st'.
Proof.
  intros IH Hr. revert height st. induction items as [|item items IHi]; intros height st Hh Hp Hb Hi.
  - exists height, st. split_and!; auto; [lia|]. by intros j.
  - apply Forall_cons in Hi as [Hitem Hi]. cbn [fold_res].
    destruct Hitem as [Hdev|(Hneg & [b Hbk] & Hrank)].
    + assert (visit_item m left item (height, st) = Ok (height, st)) as ->.
      { unfold visit_item. destruct (Z.leb_spec 0 item); [|lia].
        destruct (Z.leb_spec (MaxDevices m) item); [lia|done]. }
      cbn [mbind res_bind]. by apply IHi.
    + destruct (IH item st) as (ch & st1 & V & Hch & Hb1 & Hp1); [eauto|lia| |done|].
      { intros j Hj. specialize (Hp j Hj). lia. }
      assert (visit_item m left item (height, st) =
              Ok (if height <? ch + 1 then ch + 1 else height, st1)) as ->.
      { unfold visit_item. destruct (Z.leb_spec 0 item); [lia|]. by rewrite Hbk, V. }
      cbn [mbind res_bind].
      set (nh := if height <? ch + 1 then ch + 1 else height).
      assert (1 <= nh <= r) by (unfold nh; destruct (Z.ltb_spec height (ch + 1)); lia).
      destruct (IHi nh st1) as (h & st2 & -> & ? & ? & Hp2); [done| |done|done|].
      { intros j Hj. by apply Hp, Hp1. }
      exists h, st2. split_and!; try done. intros j Hj. by apply Hp1, Hp2.
Qed.

Lemma visit_is_complete m rank left : graph_ranked m rank ->
  Z.of_nat left <= maxCertifiedDepth -> visit_complete m rank left.
Proof.
  intros HG. induction left as [|left IH]; intros Hl id st [b Hb] Hr Hp Hh.
  { destruct (HG _ _ Hb) as (_ & _ & _ & ? & _). lia. }
  rewrite visit_unfold. destruct (Z.eqb_spec (state_of st id) 1) as [E1|N1].
  { specialize (Hp id E1). lia. }
  destruct (Z.eqb_spec (state_of st id) 2) as [E2|N2].
  - specialize (Hh id E2) as Hid.
    destruct (Z.ltb_spec maxCertifiedDepth (maxCertifiedDepth - Z.of_nat left + height_of st id - 1)); [lia|].
    exists (height_of st id), st. split_and!; try done. by intros j.
  - rewrite Hb. change (default Bucket_zero (Some b)) with b.
    destruct (HG _ _ Hb) as (_ & _ & _ & Hrank & Hitems).
    set (st0 := mkVisit (<[id := 1]> (states st)) (heights st)).
    assert (forall j, state_of st0 j = if decide (id = j) then 1 else state_of st j) as ES0
      by (intros; apply state_of_insert).
    destruct (visit_items_complete m rank left (rank id) (b_Items b) 1 st0)
      as (h & st1 & -> & Hle & Hb1 & Hp1); [apply IH; lia|lia|lia| | |done|].
    { intros j. rewrite ES0. case_decide as Hd; [subst; lia|]. intros Hj. specialize (Hp j Hj). lia. }
    { intros j. rewrite ES0. case_decide; [done|]. apply Hh. }
    cbn [mbind res_bind]. eexists _, _. split; [done|]. split_and!; [done| |].
    + intros j. rewrite state_of_insert, height_of_insert. case_decide; [by subst|]. apply Hb1.
    + intros j. rewrite state_of_insert. case_decide as Hd; [done|]. intros Hj.
      specialize (Hp1 j Hj). rewrite ES0 in Hp1. by case_decide.
Qed.

(** *** The validation decides [graph_ok], whatever the iteration order *)

Definition check_bucket (m : Map) (id : Z) : res unit :=
  let bucket := default Bucket_zero (Buckets m !! id) in
  if (0 <=? id) || negb (b_ID bucket =? id) then Err wire_ErrMalformed
  else if negb (len (b_Items bucket) =? len (b_ItemWeights bucket)) then Err wire_ErrMalformed
  else Ok tt.

Lemma check_bucket_ok m id b : Buckets m !! id = Some b ->
  check_bucket m id = Ok tt <->
  id < 0 /\ b_ID b = id /\ len (b_Items b) = len (b_ItemWeights b).
Proof.
  intros E. unfold check_bucket. rewrite E. change (default Bucket_zero (Some b)) with b.
  destruct (Z.leb_spec 0 id), (Z.eqb_spec (b_ID b) id),
    (Z.eqb_spec (len (b_Items b)) (len (b_ItemWeights b))); cbn; split; intros; try done; lia.
Qed.

Lemma check_buckets_ok m order :
  fold_res (fun id _ => check_bucket m id) order tt = Ok tt <->
  Forall (fun id => check_bucket m id = Ok tt) order.
Proof.
  induction order as [|id order IH]; [by split|]. cbn [fold_res]. rewrite Forall_cons, <- IH.
  destruct (check_bucket m id) as [[]| |]; cbn; naive_solver.
Qed.

Definition visit_all (m : Map) (left : nat) : list Z -> visit_state -> res visit_state :=
  fold_res (fun id st => '(_, st) ← visit m left id st; Ok st).

Lemma visit_all_sound m left order st st' :
  Z.of_nat left <= maxCertifiedDepth -> (forall id, id ∈ order -> is_Some (Buckets m !! id)) -> visit_inv m st ->
  visit_all m left order st = Ok st' ->
  visit_inv m st' /\ visit_le st st' /\ forall id, id ∈ order -> state_of st' id = 2.
Proof.
  intros Hl. revert st. induction order as [|id order IH]; intros st Hin Hinv H.
  - injection H as <-. split_and!; [done|apply visit_le_refl|]. intros id Hid. set_solver.
  - unfold visit_all in H. cbn [fold_res] in H. apply res_bind_ok in H as (st1 & E & H).
    apply res_bind_ok in E as ([h st2] & V & E). injection E as ->.
    apply visit_is_sound in V as (A & B & C & _); [|done|done|apply Hin; set_solver].
    destruct (IH _ (fun i Hi => Hin i (list_elem_of_further _ _ _ Hi)) A H) as (A' & B' & C').
    split_and!; [done|by eapply visit_le_trans|].
    intros i [->|Hi]%elem_of_cons; [|by apply C']. apply (proj1 B' _ C).
Qed.

Lemma visit_all_complete m rank left order st :
  Z.of_nat left = maxCertifiedDepth -> graph_ranked m rank -> (forall id, id ∈ order -> is_Some (Buckets m !! id)) ->
  (forall j, state_of st j <> 1) -> heights_below rank st ->
  exists st', visit_all m left order st = Ok st'.
Proof.
  intros Hl HG. revert st. induction order as [|id order IH]; intros st Hin Hp Hb; [by eexists|].
  destruct (Hin id) as [b Eb]; [set_solver|].
  destruct (HG _ _ Eb) as (_ & _ & _ & Hr & _).
  destruct (visit_is_complete m rank left HG ltac:(lia) id st)
    as (h & st1 & V & _ & Hb1 & Hp1); [eauto|lia|intros j Hj; by destruct (Hp j)|done|].
  unfold visit_all. cbn [fold_res]. rewrite V. cbn [mbind res_bind]. apply IH; [set_solver| |done].
  intros j Hj. by apply (Hp j), Hp1.
Qed.

Lemma validateGraph_in_eq m order :
  validateGraph_in m order =
  (_ ← fold_res (fun id _ => check_bucket m id) order tt;
   _ ← visit_all m (Z.to_nat maxCertifiedDepth) order (mkVisit ∅ ∅); Ok tt).
Proof. done. Qed.

Lemma bucket_ids_spec m id : id ∈ bucket_ids m <-> is_Some (Buckets m !! id).
Proof.
  unfold bucket_ids. rewrite list_elem_of_fmap. split.
  - intros ([i b] & -> & H). apply elem_of_map_to_list in H. by exists b.
  - intros [b H]. exists (id, b). split; [done|]. by apply elem_of_map_to_list.
Qed.

(** Whatever order Go's map iteration picks, the validation succeeds exactly
    on the graphs that are ranked. *)
Lemma validateGraph_in_iff m order :
  (forall id, id ∈ order <-> is_Some (Buckets m !! id)) ->
  validateGraph_in m order = Ok tt <-> graph_ok m.
Proof.
  intros Hord. rewrite validateGraph_in_eq.
  assert (Z.of_nat (Z.to_nat maxCertifiedDepth) = maxCertifiedDepth) as Hleft by done.
  generalize dependent (Z.to_nat maxCertifiedDepth). intros left Hleft. split.
  - intros H. apply res_bind_ok in H as ([] & HC & H). apply res_bind_ok in H as (st & HV & _).
    apply check_buckets_ok in HC. rewrite Forall_forall in HC.
    apply visit_all_sound in HV as (A & _ & C);
      [|lia|intros id; apply Hord|intros id; by rewrite state_of_empty].
    exists (height_of st). intros id b Eb.
    assert (id ∈ order) as Hid by (apply Hord; eauto).
    destruct (proj1 (check_bucket_ok m id b Eb) (HC id Hid)) as (? & ? & ?).
    destruct (A id (C id Hid)) as (b' & Eb' & Hh & Hi). simplify_eq.
    split_and!; try done; [lia..|]. eapply Forall_impl; [exact Hi|]. cbn beta.
    intros item [?|(? & Hs & ?)]; [by left|right]. split_and!; try done.
    destruct (A item Hs) as (bi & ? & _). eauto.
  - intros [rank HG].
    assert (fold_res (fun id _ => check_bucket m id) order tt = Ok tt) as ->.
    { apply check_buckets_ok, Forall_forall. intros id Hid. apply Hord in Hid as [b Eb].
      apply (check_bucket_ok m id b Eb). by destruct (HG _ _ Eb) as (? & ? & ? & _). }
    cbn [mbind res_bind].
    destruct (visit_all_complete m rank left order (mkVisit ∅ ∅)) as [st ->];
      [done|done|intros id; apply Hord|intros j; by rewrite state_of_empty|..|done].
    intros j. by rewrite state_of_empty.
Qed.

(** *** What decoding guarantees *)

(** The fields are in the ranges of their Go types. *)
Definition bucket_typed (b : Bucket) : Prop :=
  inU 16 (b_Type b) /\ Forall (inS 32) (b_Items b) /\ Forall (inU 32) (b_ItemWeights b).

Definition step_typed (s : RuleStep) : Prop :=
  inU 32 (Operation s) /\ inS 32 (Argument1 s) /\ inS 32 (Argument2 s).

Definition map_typed (m : Map) : Prop :=
  0 <= MaxDevices m < 2 ^ 31 /\
  map_Forall (fun _ => bucket_typed) (Buckets m) /\
  map_Forall (fun _ r => Forall step_typed (r_Steps r)) (Rules m).

(** The sizes are within the caller's limits. *)
Definition map_bounded (limits : DecodeLimits) (m : Map) : Prop :=
  MaxDevices m <= dl_MaxItems limits /\
  map_Forall (fun id b => - dl_MaxBuckets limits <= id < 0 /\ len (b_Items b) <= dl_MaxItems limits)
    (Buckets m) /\
  map_Forall (fun id r => 0 <= id < dl_MaxRules limits /\ len (r_Steps r) <= dl_MaxItems limits)
    (Rules m) /\
  ChooseLocalTries m <= maxCertifiedRetries /\ ChooseLocalFallbackTries m <= maxCertifiedRetries /\
  ChooseTotalTries m < maxCertifiedRetries.

Lemma decode_bucket_post limits n idx buckets :
  0 <= idx < n -> n <= dl_MaxBuckets limits ->
  let P (bs : gmap Z Bucket) :=
    map_Forall (fun _ => bucket_typed) bs /\
    map_Forall (fun id b => - dl_MaxBuckets limits <= id < 0 /\ len (b_Items b) <= dl_MaxItems limits) bs in
  P buckets -> yields (decode_bucket limits idx buckets) (okP P).
Proof.
  intros Hi Hn P [P1 P2]. unfold decode_bucket. ystep.
  apply yields_if; intros _; [by apply yields_ok|]. ysteps.
  eapply yields_bind; [apply yields_repeat, yields_i32|]. intros items [Li Hit].
  eapply yields_bind; [apply yields_repeat, yields_u32|]. intros weights [Lw Hwt].
  apply yields_ok. bsplit. split; apply map_Forall_insert_2; try done.
  split; [lia|]. cbn. unfold len. unfold inU in *. lia.
Qed.

Lemma decode_rule_post limits n idx rules :
  0 <= idx < n -> n <= dl_MaxRules limits ->
  let P (rs : gmap Z Rule) :=
    map_Forall (fun _ r => Forall step_typed (r_Steps r)) rs /\
    map_Forall (fun id r => 0 <= id < dl_MaxRules limits /\ len (r_Steps r) <= dl_MaxItems limits) rs in
  P rules -> yields (decode_rule limits idx rules) (okP P).
Proof.
  intros Hi Hn P [P1 P2]. unfold decode_rule. ystep.
  apply yields_if; intros _; [by apply yields_ok|]. ysteps.
  eapply yields_bind.
  { apply yields_repeat with (P := step_typed). ysteps. by apply yields_ret. }
  intros steps [Ls Hs]. apply yields_ok. bsplit. split; apply map_Forall_insert_2; try done.
  split; [lia|]. cbn. unfold len. unfold inU in *. lia.
Qed.

Lemma consumeNameMap_post n : yields (consumeNameMap n) (okP (fun _ => True)).
Proof. unfold consumeNameMap. ysteps. yany. apply yields_finish. Qed.

Lemma consumeIntMap_post n : yields (consumeIntMap n) (okP (fun _ => True)).
Proof. unfold consumeIntMap. ysteps. yany. apply yields_finish. Qed.

Lemma consumeNestedIntMap_post n : yields (consumeNestedIntMap n) (okP (fun _ => True)).
Proof.
  unfold consumeNestedIntMap. ysteps. eapply yields_try with (Q := fun _ => True).
  - apply yields_loop; [done|]. intros s _. ysteps. yany. by apply yields_ok.
  - intros s _. ysteps. by apply yields_ok.
Qed.

Lemma yields_optional {A} n (read : DecM A) dflt P :
  yields read P -> P dflt -> yields (optional n read dflt) P.
Proof. intros. unfold optional. ysteps. apply yields_if; [done|]. intros _. by apply yields_ret. Qed.

#[export] Hint Resolve consumeNameMap_post consumeIntMap_post consumeNestedIntMap_post : yields.

Lemma validateGraph_iff m : validateGraph m = Ok tt <-> graph_ok m.
Proof. apply validateGraph_in_iff, bucket_ids_spec. Qed.

Lemma fold_res_no_panic {A S} (body : A -> S -> res S) l s :
  (forall x s, body x s <> Panic) -> fold_res body l s <> Panic.
Proof.
  intros H. revert s. induction l as [|x l IH]; intros s; [done|]. cbn.
  specialize (H x s). destruct (body x s); [apply IH|done|done].
Qed.

Lemma visit_no_panic m left id st : visit m left id st <> Panic.
Proof.
  revert id st. induction left as [|left IH]; intros id st; [done|]. rewrite visit_unfold.
  destruct (_ =? 1); [done|]. destruct (_ =? 2); [by destruct (_ <? _)|].
  apply bind_no_panic; [|by intros []]. apply fold_res_no_panic.
  intros item [h s]. unfold visit_item. destruct (0 <=? item); [by destruct (_ <=? _)|].
  destruct (Buckets m !! item); [|done]. apply bind_no_panic; [apply IH|by intros []].
Qed.

Lemma validateGraph_no_panic m : validateGraph m <> Panic.
Proof.
  unfold validateGraph. rewrite validateGraph_in_eq. apply bind_no_panic; [|intros _; apply bind_no_panic].
  - apply fold_res_no_panic. intros id _. unfold check_bucket. cbv zeta.
    destruct (_ || _); [done|]. by destruct (negb _).
  - apply fold_res_no_panic. intros id st. apply bind_no_panic; [apply visit_no_panic|by intros []].
  - done.
Qed.

Lemma DecodeMap_post data limits :
  okP (fun m => graph_ok m /\ map_typed m /\ map_bounded limits m) (DecodeMap data limits).
Proof.
  unfold DecodeMap. destruct (_ || _); [done|].
  generalize (NewDecoder data (mkLimits (dl_MaxBytes limits))).
  match goal with |- forall d, ?P (fst (?m d)) => change (yields m P) end.
  ysteps. bsplit. eapply yields_try.
  { apply yields_for; [|intros x s Hx; eapply (decode_bucket_post limits a0)].
    - split; apply map_Forall_empty.
    - apply elem_of_seqZ in Hx. lia.
    - lia. }
  intros buckets [B1 B2]. eapply yields_try.
  { apply yields_for; [|intros x s Hx; eapply (decode_rule_post limits a1)].
    - split; apply map_Forall_empty.
    - apply elem_of_seqZ in Hx. lia.
    - lia. }
  intros rules [R1 R2]. eapply yields_try.
  { apply yields_loop with (I := fun _ => True); [done|]. intros [] _. apply consumeNameMap_post. }
  intros _ _. eapply yields_bind.
  { apply yields_optional with (P := fun '(x, y, z, r) => r = false -> x = 2 /\ y = 5 /\ z = 19).
    - ysteps. by apply yields_ret.
    - done. }
  intros [[[lt lf] tt'] r] Hr. ysteps. do 5 yany. ysteps.
  eapply yields_try with (Q := fun _ => True).
  { apply yields_if; intros _; [|by apply yields_ok]. ysteps. by apply yields_ok. }
  intros shadow _. eapply yields_bind; [apply yields_any|intros [d1 d2] _]. ysteps.
  match goal with |- context [validateGraph ?m] => set (result := m) end.
  destruct (validateGraph result) as [[]|e|] eqn:V; [|apply yields_fail|by apply validateGraph_no_panic in V].
  apply yields_ok. split; [by apply validateGraph_iff|]. split; [split_and!; try done; cbn|].
  - lia.
  - unfold inS in *. lia.
  - split_and!; try done; cbn; [lia|..]; unfold maxCertifiedRetries in *; destruct r; bsplit; try lia;
      destruct (Hr eq_refl) as (-> & -> & ->); lia.
Qed.

(** ** Properties *)

(** C5. The graph validation is sound and complete, and does not depend on the
    order in which Go iterates over the bucket map: for every order that lists
    the buckets, it succeeds exactly when the identities and weight lists are
    consistent, every item is a device below [MaxDevices] or an existing
    bucket, and the buckets form an acyclic graph whose chains have at most
    [maxCertifiedDepth] buckets. *)
Theorem validateGraph_decides m order :
  order ≡ₚ bucket_ids m -> validateGraph_in m order = Ok tt <-> graph_ok m.
Proof. intros Ho. apply validateGraph_in_iff. intros id. rewrite Ho. apply bucket_ids_spec. Qed.

(** A root with two hosts of two devices each, and a device the hosts share. *)
Definition sample_map : Map := mkMap 5
  {[ -1 := mkBucket (-1) 10 0x40000 [-2; -3] [0x20000; 0x20000];
     -2 := mkBucket (-2) 1 0x20000 [0; 1] [0x10000; 0x10000];
     -3 := mkBucket (-3) 1 0x20000 [2; 3; 4] [0x10000; 0x10000; 0] ]}
  {[ 0 := mkRule RuleTypeReplicated 1 10
       [mkRuleStep RuleTake (-1) 0; mkRuleStep RuleChooseleafFirstN 0 1; mkRuleStep RuleEmit 0 0];
     1 := mkRule RuleTypeErasure 1 10
       [mkRuleStep RuleSetChooseleafTries 5 0; mkRuleStep RuleSetChooseTries 100 0;
        mkRuleStep RuleTake (-1) 0; mkRuleStep RuleChooseIndep 0 0; mkRuleStep RuleEmit 0 0] ]}
  0 0 50 1 1 1 54 1 0 0 ∅.

Lemma sample_map_graph : graph_ok sample_map.
Proof. apply validateGraph_iff. vm_compute. reflexivity. Qed.

Lemma validateGraph_decides_witness :
  validateGraph_in sample_map [-3; -1; -2] = Ok tt <-> graph_ok sample_map.
Proof.
  apply (validateGraph_decides sample_map [-3; -1; -2]).
  change (bucket_ids sample_map) with (ltac:(let l := eval vm_compute in (bucket_ids sample_map) in exact l)).
  solve_Permutation.
Defined.

(** C6. Decoding a CRUSH map is safe on every input: it never panics, and a map
    it returns has a valid bucket graph, fields in the ranges of their types,
    and no more devices, buckets, rules, items, steps and retries than the
    caller's limits and the certified ceilings allow. *)
Theorem DecodeMap_sound data limits :
  DecodeMap data limits <> Panic /\
  forall m, DecodeMap data limits = Ok m -> graph_ok m /\ map_typed m /\ map_bounded limits m.
Proof.
  pose proof (DecodeMap_post data limits) as H.
  destruct (DecodeMap data limits); split; try done. by intros ? [= ->].
Qed.
