(* ===== verification/CrushPlace.v ===== *)
(** * CRUSH placement (src/internal/crush/place.go and placement.go)

    The loops of [chooseFirstN] and [chooseIndep] run with fuel; running out
    of it is [Panic], as is an index out of range, and the theorems at the end
    show that neither happens on a map that [Place] accepts. *)

From stdpp Require Import base gmap list numbers.
From coqutil Require Import Byte Word.LittleEndianList.
From S2P Require Import Prelude Codec CrushHash CrushLn CrushMap.
From stdpp Require Import list.

Open Scope Z_scope.
Open Scope go_scope.

Definition maxCertifiedReplicas : Z := 64.
Definition itemNone : Z := 0x7fffffff.
Definition MinInt64 : Z := - 2 ^ 63.

Record permutation := mkPermutation { p_x : Z; p_count : Z; p_items : list Z }.

(** The mutable field [permutations] of [placement]; the fields [crush] and
    [weights] never change and are arguments. *)
Abbreviation perms := (gmap Z permutation).

(** ** Choosing an item of a bucket *)

Definition straw2_draw (bucket : Bucket) (seed replica i weight : Z) : res Z :=
  if weight =? 0 then Ok MinInt64
  else
    item ← index (b_Items bucket) i;
    let random := Z.land (Hash32Triple seed (u32 item) (u32 replica)) 0xffff in
    ln ← crushLn random;
    let logarithm := i64 (i64 ln - 2 ^ 48) in
    Ok (Z.quot logarithm weight).

Definition straw2_loop (bucket : Bucket) (seed replica : Z) (iw : Z * Z) (acc : Z * Z) : res (Z * Z) :=
  let '(i, weight) := iw in
  let '(high, highDraw) := acc in
  draw ← straw2_draw bucket seed replica i weight;
  Ok (if (i =? 0) || (highDraw <? draw) then (i, draw) else (high, highDraw)).

Definition straw2Choose (bucket : Bucket) (seed replica : Z) : res Z :=
  '(high, _) ← fold_res (straw2_loop bucket seed replica)
    (zip (seqZ 0 (len (b_ItemWeights bucket))) (b_ItemWeights bucket)) (0, 0);
  index (b_Items bucket) high.

(** [for state.count <= position { ... }] *)
Fixpoint permute_loop (fuel : nat) (bucket : Bucket) (seed position : Z) (state : permutation)
    : res permutation :=
  if position <? p_count state then Ok state
  else
    match fuel with
    | O => Panic
    | S fuel =>
        let current := p_count state in
        items ← (if current <? u32 (len (b_Items bucket) - 1) then
            let offset := Hash32Triple seed (u32 (b_ID bucket)) current
                          mod u32 (u32 (len (b_Items bucket)) - current) in
            if negb (offset =? 0) then
              a ← index (p_items state) current;
              b ← index (p_items state) (u32 (current + offset));
              l ← store (p_items state) current b;
              store l (u32 (current + offset)) a
            else Ok (p_items state)
          else Ok (p_items state));
        permute_loop fuel bucket seed position (mkPermutation (p_x state) (u32 (current + 1)) items)
    end.

Definition permutationChoose (permutations : perms) (bucket : Bucket) (seed replica : Z)
    : res (Z * perms) :=
  let size := len (b_Items bucket) in
  let state := default (mkPermutation 0 0 (replicate (Z.to_nat size) 0)) (permutations !! b_ID bucket) in
  if u32 size =? 0 then Panic
  else
    let position := u32 replica mod u32 size in
    let finish state :=
      state ← permute_loop (Z.to_nat (position + 1)) bucket seed position state;
      i ← index (p_items state) position;
      item ← index (b_Items bucket) i;
      Ok (item, <[b_ID bucket := state]> permutations) in
    if negb (p_x state =? seed) || (p_count state =? 0) then
      if position =? 0 then
        let selected := Hash32Triple seed (u32 (b_ID bucket)) 0 mod u32 size in
        items ← store (p_items state) 0 selected;
        item ← index (b_Items bucket) selected;
        Ok (item, <[b_ID bucket := mkPermutation seed 0xffff items]> permutations)
      else finish (mkPermutation seed 0 (seqZ 0 (len (p_items state))))
    else if p_count state =? 0xffff then
      let items := take 1 (p_items state) ++ seqZ 1 (len (p_items state) - 1) in
      first ← index items 0;
      items ← store items first 0;
      finish (mkPermutation (p_x state) 1 items)
    else finish state.

Definition isOut (weights : list Z) (item seed : Z) : bool :=
  if (item <? 0) || (len weights <=? item) then true
  else
    let weight := default 0 (weights !! Z.to_nat item) in
    if 0x10000 <=? weight then false
    else if weight =? 0 then true
    else weight <=? Z.land (Hash32Pair seed (u32 item)) 0xffff.

Definition validTake (m : Map) (item : Z) : bool :=
  if 0 <=? item then item <? MaxDevices m
  else match Buckets m !! item with Some _ => true | None => false end.

(** ** chooseFirstN *)

(** How one descent from the bucket ends: an item for the replica,
    [skipReplica], or [retryDescent] with the failure count. *)
Inductive attempt :=
  | Placed (item : Z)
  | SkipReplica
  | RetryDescent (totalFailures : Z).

(** The arguments of [chooseFirstN] that its loops do not change. *)
Record firstn_args := mkFirstN {
  fa_seed : Z;
  fa_replicas : Z;
  fa_targetType : Z;
  fa_tries : Z;
  fa_recurseTries : Z;
  fa_localRetries : Z;
  fa_localFallbackRetries : Z;
  fa_recurseToLeaf : bool;
  fa_varyR : Z;
  fa_stable : bool;
  fa_parentR : Z }.

(** [chooseFirstN]: bucket, arguments, output, outputPosition, outputSize,
    leaves and the permutations; it returns the position reached and the two
    slices and the permutations as they then are. *)
Definition firstn_fun : Type :=
  Bucket -> firstn_args -> list Z -> Z -> Z -> list Z -> perms ->
  res (Z * list Z * list Z * perms).

Section first_n.
Context (m : Map) (weights : list Z) (chooseFirstN : firstn_fun).

(** The loop [for retryBucket := true; retryBucket;]. *)
Fixpoint try_bucket (fuel : nat) (a : firstn_args) (replica : Z) (output : list Z)
    (outputPosition count : Z) (current : Bucket) (localFailures totalFailures : Z)
    (leaves : list Z) (permutations : perms) : res (attempt * list Z * perms) :=
  match fuel with
  | O => Panic
  | S fuel =>
      let retry := try_bucket fuel a replica output outputPosition count in
      let r := replica + fa_parentR a + totalFailures in
      (* if reject || collide *)
      let failed collide leaves permutations :=
        let totalFailures := u32 (totalFailures + 1) in
        let localFailures := u32 (localFailures + 1) in
        if collide && (localFailures <=? fa_localRetries a) then
          retry current localFailures totalFailures leaves permutations
        else if (0 <? fa_localFallbackRetries a) &&
                (localFailures <=? u32 (u32 (len (b_Items current)) + fa_localFallbackRetries a)) then
          retry current localFailures totalFailures leaves permutations
        else if totalFailures <? fa_tries a then
          Ok (RetryDescent totalFailures, leaves, permutations)
        else Ok (SkipReplica, leaves, permutations) in
      if len (b_Items current) =? 0 then failed false leaves permutations
      else
        '(item, permutations) ←
          (if (0 <? fa_localFallbackRetries a) &&
              (u32 (Z.shiftr (len (b_Items current)) 1) <=? localFailures) &&
              (fa_localFallbackRetries a <? localFailures)
           then permutationChoose permutations current (fa_seed a) r
           else item ← straw2Choose current (fa_seed a) r; Ok (item, permutations));
        if MaxDevices m <=? item then Ok (SkipReplica, leaves, permutations)
        else
          let child := if item <? 0 then Buckets m !! item else None in
          if (item <? 0) && bool_decide (child = None) then Ok (SkipReplica, leaves, permutations)
          else
            let itemType := match child with Some child => b_Type child | None => 0 end in
            if negb (itemType =? fa_targetType a) then
              if 0 <=? item then Ok (SkipReplica, leaves, permutations)
              else retry (default Bucket_zero child) localFailures totalFailures leaves permutations
            else if existsb (Z.eqb item) (slice 0 outputPosition output) then
              failed true leaves permutations
            else
              '(reject, leaves, permutations) ←
                (if fa_recurseToLeaf a then
                   if item <? 0 then
                     let subR := if negb (fa_varyR a =? 0) then Z.shiftr r (fa_varyR a - 1) else 0 in
                     let recursiveReplicas := if fa_stable a then 1 else outputPosition + 1 in
                     '(chosen, leaves, _, permutations) ←
                       chooseFirstN (default Bucket_zero child)
                         (mkFirstN (fa_seed a) recursiveReplicas 0 (fa_recurseTries a) 0
                            (fa_localRetries a) (fa_localFallbackRetries a) false (fa_varyR a)
                            (fa_stable a) subR)
                         leaves outputPosition count [] permutations;
                     Ok (chosen <=? outputPosition, leaves, permutations)
                   else
                     leaves ← store leaves outputPosition item;
                     Ok (false, leaves, permutations)
                 else Ok (false, leaves, permutations));
              if reject || ((itemType =? 0) && isOut weights item (fa_seed a)) then
                failed false leaves permutations
              else Ok (Placed item, leaves, permutations)
  end.

(** Enough iterations of that loop: the depth of the graph and the retries
    in one bucket. *)
Definition bucket_fuel (a : firstn_args) : nat :=
  Z.to_nat (maxCertifiedDepth + 1 + fa_localRetries a +
    (if fa_localFallbackRetries a =? 0 then 0
     else fa_localFallbackRetries a + map_fold (fun _ b => Z.max (len (b_Items b))) 0 (Buckets m))).

(** The loop [for retryDescent := true; retryDescent;]. *)
Fixpoint descend (fuel : nat) (a : firstn_args) (replica : Z) (output : list Z)
    (outputPosition count : Z) (bucket : Bucket) (totalFailures : Z)
    (leaves : list Z) (permutations : perms) : res (attempt * list Z * perms) :=
  match fuel with
  | O => Panic
  | S fuel =>
      '(outcome, leaves, permutations) ←
        try_bucket (bucket_fuel a) a replica output outputPosition count bucket 0 totalFailures
          leaves permutations;
      match outcome with
      | RetryDescent totalFailures =>
          descend fuel a replica output outputPosition count bucket totalFailures leaves permutations
      | outcome => Ok (outcome, leaves, permutations)
      end
  end.

(** The loop over the replicas, [n] of which are left. *)
Fixpoint each_replica (n : nat) (a : firstn_args) (bucket : Bucket) (replica : Z)
    (output : list Z) (outputPosition count : Z) (leaves : list Z) (permutations : perms)
    : res (Z * list Z * list Z * perms) :=
  match n with
  | O => Ok (outputPosition, output, leaves, permutations)
  | S n =>
      if count <=? 0 then Ok (outputPosition, output, leaves, permutations)
      else
        '(outcome, leaves, permutations) ←
          descend (Z.to_nat (fa_tries a) + 1) a replica output outputPosition count bucket 0
            leaves permutations;
        match outcome with
        | Placed item =>
            output ← store output outputPosition item;
            each_replica n a bucket (replica + 1) output (outputPosition + 1) (count - 1)
              leaves permutations
        | _ =>
            each_replica n a bucket (replica + 1) output outputPosition count leaves permutations
        end
  end.
End first_n.

(** [nest] bounds the recursion; the recursive call is made with
    [recurseToLeaf = false] and makes none itself. *)
Fixpoint chooseFirstN (nest : nat) (m : Map) (weights : list Z) : firstn_fun :=
  fun bucket a output outputPosition outputSize leaves permutations =>
  match nest with
  | O => Panic
  | S nest =>
      let firstReplica := if fa_stable a then 0 else outputPosition in
      each_replica m weights (chooseFirstN nest m weights)
        (Z.to_nat (fa_replicas a - firstReplica)) a bucket firstReplica
        output outputPosition outputSize leaves permutations
  end.

(** ** chooseIndep *)

(** How the descent for one position ends: nothing, [left--] alone, or an
    item stored with [left--]. *)
Inductive indep_outcome :=
  | Unplaced
  | GiveUp
  | Chosen (item : Z).

Definition indep_fun : Type :=
  Bucket -> Z -> Z -> Z -> Z -> list Z -> Z -> Z -> Z -> bool -> option (list Z) -> Z ->
  res (list Z * option (list Z)).

Section indep.
Context (m : Map) (weights : list Z) (chooseIndep : indep_fun).

(** The endless [for] that descends for [position]; a nil [leaves] is [None]. *)
Fixpoint indep_descend (fuel : nat) (seed replicas targetType outputPosition end_ recurseTries : Z)
    (recurseToLeaf : bool) (r position : Z) (output : list Z) (leaves : option (list Z))
    (current : Bucket) : res (indep_outcome * option (list Z)) :=
  match fuel with
  | O => Panic
  | S fuel =>
      if len (b_Items current) =? 0 then Ok (Unplaced, leaves)
      else
        item ← straw2Choose current seed r;
        if MaxDevices m <=? item then Ok (GiveUp, leaves)
        else
          let child := if item <? 0 then Buckets m !! item else None in
          if (item <? 0) && bool_decide (child = None) then Ok (GiveUp, leaves)
          else
            let itemType := match child with Some child => b_Type child | None => 0 end in
            if negb (itemType =? i32 targetType) then
              if 0 <=? item then Ok (GiveUp, leaves)
              else indep_descend fuel seed replicas targetType outputPosition end_ recurseTries
                     recurseToLeaf r position output leaves (default Bucket_zero child)
            else if existsb (Z.eqb item) (slice outputPosition end_ output) then Ok (Unplaced, leaves)
            else
              '(found, leaves) ←
                (if recurseToLeaf then
                   if item <? 0 then
                     '(sub, _) ← chooseIndep (default Bucket_zero child) seed 1 replicas 0
                        (default [] leaves) position recurseTries 0 false None r;
                     leaf ← index sub position;
                     Ok (negb (leaf =? itemNone), Some sub)
                   else
                     sub ← store (default [] leaves) position item;
                     Ok (true, Some sub)
                 else Ok (true, leaves));
              if negb found then Ok (Unplaced, leaves)
              else if (itemType =? 0) && isOut weights item seed then Ok (Unplaced, leaves)
              else Ok (Chosen item, leaves)
  end.

Definition indep_position (bucket : Bucket) (seed replicas targetType outputPosition end_ recurseTries : Z)
    (recurseToLeaf : bool) (parentR failure position : Z)
    (acc : Z * list Z * option (list Z)) : res (Z * list Z * option (list Z)) :=
  let '(left_, output, leaves) := acc in
  held ← index output position;
  if negb (held =? itemNone) then Ok (left_, output, leaves)
  else
    let r := position + parentR + replicas * failure in
    '(outcome, leaves) ← indep_descend (Z.to_nat (maxCertifiedDepth + 1)) seed replicas targetType
       outputPosition end_ recurseTries recurseToLeaf r position output leaves bucket;
    match outcome with
    | Unplaced => Ok (left_, output, leaves)
    | GiveUp => Ok (left_ - 1, output, leaves)
    | Chosen item => output ← store output position item; Ok (left_ - 1, output, leaves)
    end.

(** The loop over the failures, [n] of which are left. *)
Fixpoint indep_rounds (n : nat) (bucket : Bucket)
    (seed replicas targetType outputPosition end_ recurseTries : Z) (recurseToLeaf : bool)
    (parentR failure : Z) (acc : Z * list Z * option (list Z))
    : res (Z * list Z * option (list Z)) :=
  match n with
  | O => Ok acc
  | S n =>
      let '(left_, _, _) := acc in
      if left_ <=? 0 then Ok acc
      else
        acc ← fold_res (indep_position bucket seed replicas targetType outputPosition end_
            recurseTries recurseToLeaf parentR failure)
          (seqZ outputPosition (end_ - outputPosition)) acc;
        indep_rounds n bucket seed replicas targetType outputPosition end_ recurseTries recurseToLeaf
          parentR (failure + 1) acc
  end.

Definition clear (position : Z) (acc : list Z * option (list Z)) : res (list Z * option (list Z)) :=
  let '(output, leaves) := acc in
  output ← store output position itemNone;
  match leaves with
  | None => Ok (output, None)
  | Some leaves => leaves ← store leaves position itemNone; Ok (output, Some leaves)
  end.
End indep.

Fixpoint chooseIndep (nest : nat) (m : Map) (weights : list Z) : indep_fun :=
  fun bucket seed left_ replicas targetType output outputPosition tries recurseTries recurseToLeaf
      leaves parentR =>
  match nest with
  | O => Panic
  | S nest =>
      let end_ := outputPosition + left_ in
      '(output, leaves) ← fold_res clear (seqZ outputPosition left_) (output, leaves);
      '(_, output, leaves) ← indep_rounds m weights (chooseIndep nest m weights) (Z.to_nat tries) bucket
        seed replicas targetType outputPosition end_ recurseTries recurseToLeaf parentR 0
        (left_, output, leaves);
      Ok (output, leaves)
  end.

(** ** Executing a rule *)

(** The local variables of [rule]. *)
Record rule_state := mkRuleState {
  rs_working : list Z;
  rs_output : list Z;
  rs_leaves : list Z;
  rs_workingSize : Z;
  rs_result : list Z;
  rs_chooseTries : Z;
  rs_chooseleafTries : Z;
  rs_permutations : perms }.

(** The body of the loop over the working items of a CHOOSE step. *)
Definition choose_each (m : Map) (weights : list Z) (step : RuleStep) (seed resultMaximum : Z)
    (recurseTries chooseTries chooseleafTries : Z) (working : list Z) (i : Z)
    (acc : Z * list Z * list Z * perms) : res (Z * list Z * list Z * perms) :=
  let '(outputSize, output, leaves, permutations) := acc in
  let number := if Argument1 step <=? 0 then Argument1 step + resultMaximum else Argument1 step in
  if number <=? 0 then Ok acc
  else
    id ← index working i;
    match Buckets m !! id with
    | None => Ok acc
    | Some bucket =>
        let recurseToLeaf := Operation step =? RuleChooseleafFirstN in
        if Operation step =? RuleChooseIndep then
          let count := Z.min number (resultMaximum - outputSize) in
          let recurse := if chooseleafTries =? 0 then 1 else chooseleafTries in
          '(output, leaves) ← chooseIndep 2 m weights bucket seed count number (Argument2 step)
             output outputSize chooseTries recurse recurseToLeaf (Some leaves) 0;
          Ok (outputSize + count, output, default [] leaves, permutations)
        else
          '(chosen, sub, subLeaves, permutations) ←
            chooseFirstN 2 m weights bucket
              (mkFirstN seed number (Argument2 step) chooseTries recurseTries (ChooseLocalTries m)
                 (ChooseLocalFallbackTries m) recurseToLeaf (ChooseleafVaryR m)
                 (negb (ChooseleafStable m =? 0)) 0)
              (drop (Z.to_nat outputSize) output) 0 (resultMaximum - outputSize)
              (drop (Z.to_nat outputSize) leaves) permutations;
          Ok (outputSize + chosen, take (Z.to_nat outputSize) output ++ sub,
              take (Z.to_nat outputSize) leaves ++ subLeaves, permutations)
    end.

Definition rule_step (m : Map) (weights : list Z) (seed resultMaximum recurseTries : Z)
    (step : RuleStep) (st : rule_state) : res rule_state :=
  let '(mkRuleState working output leaves workingSize result chooseTries chooseleafTries permutations) := st in
  let op := Operation step in
  if op =? RuleSetChooseTries then
    Ok (mkRuleState working output leaves workingSize result
      (if 0 <? Argument1 step then u32 (Argument1 step) else chooseTries) chooseleafTries permutations)
  else if op =? RuleSetChooseleafTries then
    Ok (mkRuleState working output leaves workingSize result chooseTries
      (if 0 <? Argument1 step then u32 (Argument1 step) else chooseleafTries) permutations)
  else if op =? RuleTake then
    if negb (validTake m (Argument1 step)) then Ok st
    else
      working ← store working 0 (Argument1 step);
      Ok (mkRuleState working output leaves 1 result chooseTries chooseleafTries permutations)
  else if (op =? RuleChooseFirstN) || (op =? RuleChooseleafFirstN) || (op =? RuleChooseIndep) then
    if workingSize =? 0 then Ok st
    else
      '(outputSize, output, leaves, permutations) ←
        fold_res (choose_each m weights step seed resultMaximum recurseTries chooseTries
            chooseleafTries working)
          (seqZ 0 workingSize) (0, output, leaves, permutations);
      let output := if op =? RuleChooseleafFirstN
        then take (Z.to_nat outputSize) leaves ++ drop (Z.to_nat outputSize) output
        else output in
      Ok (mkRuleState output working leaves outputSize result chooseTries chooseleafTries permutations)
  else if op =? RuleEmit then
    let remaining := Z.min (resultMaximum - len result) workingSize in
    Ok (mkRuleState working output leaves 0 (result ++ take (Z.to_nat remaining) working)
      chooseTries chooseleafTries permutations)
  else Err crush_ErrPlacement.

Definition rule (m : Map) (weights : list Z) (r : Rule) (seed resultMaximum : Z) : res (list Z) :=
  let blank := replicate (Z.to_nat resultMaximum) 0 in
  let chooseTries := u32 (ChooseTotalTries m + 1) in
  let recurseTries := if negb (ChooseleafDescendOnce m =? 0) then 1 else chooseTries in
  st ← fold_res (rule_step m weights seed resultMaximum recurseTries) (r_Steps r)
    (mkRuleState blank blank blank 0 [] chooseTries 0 ∅);
  Ok (rs_result st).

Definition placeRule (m : Map) (r : Rule) (seed replicas : Z) (osdWeights : list Z) : res (list Z) :=
  rule m osdWeights r seed replicas.

Definition hasBucketType (m : Map) (bucketType : Z) : bool :=
  existsb (fun kv => b_Type (snd kv) =? bucketType) (map_to_list (Buckets m)).

Definition validateCertifiedRule (m : Map) (r : Rule) : res unit :=
  takeIndex ←
    (if r_Type r =? RuleTypeReplicated then
       match r_Steps r with
       | [take_; choose; emit] =>
           if negb (Operation take_ =? RuleTake) || negb (bool_decide (emit = mkRuleStep RuleEmit 0 0))
           then Err crush_ErrPlacement
           else if bool_decide (choose = mkRuleStep RuleChooseFirstN 0 0) then Ok 0
           else if negb (Operation choose =? RuleChooseleafFirstN) || negb (Argument1 choose =? 0)
                   || (Argument2 choose <=? 0) || negb (hasBucketType m (u16 (Argument2 choose)))
           then Err crush_ErrPlacement
           else Ok 0
       | _ => Err crush_ErrPlacement
       end
     else
       match r_Steps r with
       | [leafTries; tries; take_; choose; emit] =>
           if negb (bool_decide (leafTries = mkRuleStep RuleSetChooseleafTries 5 0))
              || negb (bool_decide (tries = mkRuleStep RuleSetChooseTries 100 0))
              || negb (Operation take_ =? RuleTake)
              || negb (bool_decide (choose = mkRuleStep RuleChooseIndep 0 0))
              || negb (Operation emit =? RuleEmit)
           then Err crush_ErrPlacement
           else Ok 2
       | _ => Err crush_ErrPlacement
       end);
  root ← index (r_Steps r) takeIndex;
  if bool_decide (Buckets m !! Argument1 root = None) then Err crush_ErrPlacement
  else if bool_decide (Argument1 root ∈ classShadowBuckets m) then Err crush_ErrPlacement
  else if negb (ChooseLocalTries m =? 0) || negb (ChooseLocalFallbackTries m =? 0)
          || negb (ChooseTotalTries m =? 50) || negb (ChooseleafDescendOnce m =? 1)
          || negb (ChooseleafVaryR m =? 1) || negb (ChooseleafStable m =? 1)
  then Err crush_ErrPlacement
  else Ok tt.

(** [Map.Place]; a nil receiver is [None]. *)
Definition Map_Place (crushMap : option Map) (ruleID seed replicas : Z) (osdWeights : list Z)
    : res (list Z) :=
  match crushMap with
  | None => Err crush_ErrPlacement
  | Some m =>
      if (replicas <=? 0) || (maxCertifiedReplicas <? replicas) then Err crush_ErrPlacement
      else
        match Rules m !! ruleID with
        | None => Err crush_ErrPlacement
        | Some r =>
            if negb (r_Type r =? RuleTypeReplicated) && negb (r_Type r =? RuleTypeErasure)
            then Err crush_ErrPlacement
            else
              _ ← validateCertifiedRule m r;
              _ ← res_map_err (fun _ => crush_ErrPlacement) (validateGraph m);
              placeRule m r seed replicas osdWeights
        end
  end.

(** ** PlacementMap

    [ruleErrors] holds the outcome of each rule's certification, [Ok tt] for a
    nil error. *)

Record PlacementMap := mkPlacementMap {
  pm_crushMap : Map;
  pm_ruleErrors : gmap Z (res unit) }.

Definition DecodePlacementMap (data : bytes) (limits : DecodeLimits) : res PlacementMap :=
  decoded ← DecodeMap data limits;
  Ok (mkPlacementMap decoded
    ((fun r =>
        if negb (r_Type r =? RuleTypeReplicated) && negb (r_Type r =? RuleTypeErasure)
        then Err crush_ErrPlacement
        else validateCertifiedRule decoded r) <$> Rules decoded)).

Definition PlacementMap_Place (pm : option PlacementMap) (ruleID seed replicas : Z)
    (osdWeights : list Z) : res (list Z) :=
  match pm with
  | None => Err crush_ErrPlacement
  | Some pm =>
      if (replicas <=? 0) || (maxCertifiedReplicas <? replicas) then Err crush_ErrPlacement
      else
        match Rules (pm_crushMap pm) !! ruleID with
        | None => Err crush_ErrPlacement
        | Some r =>
            _ ← default (Ok tt) (pm_ruleErrors pm !! ruleID);
            placeRule (pm_crushMap pm) r seed replicas osdWeights
        end
  end.

Example place_sample :
  Map_Place (Some sample_map) 0 12345 2 (replicate 5 0x10000) = Ok [1; 2].
Proof. vm_compute. reflexivity. Qed.

(** ** What straw2 selects *)

(** The draw of item [i] with weight [w], as a number. *)
Definition ln_of (seed replica : Z) (item : Z) : Z :=
  match crushLn (Z.land (Hash32Triple seed (u32 item) (u32 replica)) 0xffff) with
  | Ok v => v - 2 ^ 48
  | _ => 0
  end.

Definition draw_of (seed replica item weight : Z) : Z :=
  if weight =? 0 then MinInt64 else Z.quot (ln_of seed replica item) weight.

Lemma land_ffff x : 0 <= Z.land x 0xffff <= 0xffff.
Proof.
  assert (Z.land x 0xffff = x mod 2 ^ 16) as -> by (apply (Z.land_ones x 16); lia).
  pose proof (Z.mod_pos_bound x (2 ^ 16)). lia.
Qed.

Lemma ln_of_spec seed replica item :
  crushLn (Z.land (Hash32Triple seed (u32 item) (u32 replica)) 0xffff) =
    Ok (ln_of seed replica item + 2 ^ 48) /\ - 2 ^ 48 <= ln_of seed replica item <= 0.
Proof.
  unfold ln_of. destruct (crushLn_ok _ (land_ffff (Hash32Triple seed (u32 item) (u32 replica))))
    as (v & -> & Hv). split; [f_equal|]; lia.
Qed.

Lemma log_wraps l : - 2 ^ 48 <= l <= 0 -> i64 (i64 (l + 2 ^ 48) - 2 ^ 48) = l.
Proof.
  intros Hr. rewrite (wrapS_id 64 (l + 2 ^ 48)), Z.add_simpl_r by (unfold inS; lia).
  by rewrite wrapS_id by (unfold inS; lia).
Qed.

Lemma straw2_draw_eq b seed replica i item weight :
  b_Items b !! Z.to_nat i = Some item -> 0 <= i -> inU 32 weight ->
  straw2_draw b seed replica i weight = Ok (draw_of seed replica item weight).
Proof.
  intros Hi H0 Hw. cbv delta [straw2_draw draw_of] beta. destruct (weight =? 0); [done|].
  rewrite (proj2 (index_ok (b_Items b) i item) (conj H0 Hi)), bind_Ok. cbv zeta.
  destruct (ln_of_spec seed replica item) as [E Hr]. rewrite E, bind_Ok. by rewrite log_wraps.
Qed.

Lemma straw2_loop_eq b seed replica i item weight high highDraw :
  b_Items b !! Z.to_nat i = Some item -> 0 <= i -> inU 32 weight ->
  straw2_loop b seed replica (i, weight) (high, highDraw) =
  Ok (if (i =? 0) || (highDraw <? draw_of seed replica item weight)
      then (i, draw_of seed replica item weight) else (high, highDraw)).
Proof.
  intros. unfold straw2_loop. by rewrite (straw2_draw_eq b seed replica i item weight), bind_Ok.
Qed.

(** [straw2_best draws high]: [high] is the first index of the largest draw. *)
Definition straw2_best (draws : list Z) (high : nat) : Prop :=
  exists d, draws !! high = Some d /\
  forall j e, draws !! j = Some e -> (e <= d) /\ ((j < high)%nat -> e < d).

Lemma straw2_best_unique draws h h' : straw2_best draws h -> straw2_best draws h' -> h = h'.
Proof.
  intros (d & Hd & B) (d' & Hd' & B'). destruct (B _ _ Hd'), (B' _ _ Hd).
  destruct (Nat.lt_trichotomy h h') as [|[|]]; lia.
Qed.

Lemma straw2_best_snoc draws d high dh : straw2_best draws high -> draws !! high = Some dh ->
  straw2_best (draws ++ [d]) (if dh <? d then length draws else high).
Proof.
  intros (d0 & Hd & B) E. rewrite Hd in E. injection E as ->.
  assert (high < length draws)%nat by by eapply lookup_lt_Some.
  destruct (Z.ltb_spec dh d).
  - exists d. split; [by rewrite lookup_app_r, Nat.sub_diag|]. intros j e He.
    apply lookup_app_Some in He as [He|[? He]].
    + destruct (B _ _ He). lia.
    + apply list_lookup_singleton_Some in He as [? <-]. lia.
  - exists dh. split; [by rewrite lookup_app_l|]. intros j e He.
    apply lookup_app_Some in He as [He|[? He]]; [by apply (B j)|].
    apply list_lookup_singleton_Some in He as [? <-]. lia.
Qed.

Definition bucket_wf (b : Bucket) : Prop := bucket_typed b /\ len (b_Items b) = len (b_ItemWeights b).

(** The draws of the items of a bucket. *)
Definition draws (b : Bucket) (seed replica : Z) : list Z :=
  zip_with (draw_of seed replica) (b_Items b) (b_ItemWeights b).

Lemma seqZ_len_cons {A} start (x : A) l : seqZ start (len (x :: l)) = start :: seqZ (start + 1) (len l).
Proof.
  rewrite seqZ_cons by (rewrite len_cons; pose proof (len_nonneg l); lia).
  f_equal. unfold Z.succ, Z.pred. f_equal. rewrite len_cons. lia.
Qed.

Lemma straw2_loop_spec b seed replica items weights ds high dh :
  (forall k it, items !! k = Some it -> b_Items b !! (length ds + k)%nat = Some it) ->
  length items = length weights -> Forall (inU 32) weights ->
  straw2_best ds high -> ds !! high = Some dh ->
  exists high' d', fold_res (straw2_loop b seed replica)
      (zip (seqZ (len ds) (len weights)) weights) (Z.of_nat high, dh) = Ok (Z.of_nat high', d') /\
    straw2_best (ds ++ zip_with (draw_of seed replica) items weights) high'.
Proof.
  revert weights ds high dh. induction items as [|it items IH]; intros [|w weights] ds high dh Hi Hl Hw HB Hd;
    [|done|done|].
  - exists high, dh. split; [done|]. cbn. by rewrite app_nil_r.
  - apply Forall_cons_iff in Hw as [Hw Hws]. rewrite seqZ_len_cons. cbn [zip zip_with fold_res].
    rewrite (straw2_loop_eq b seed replica (len ds) it w);
      [|specialize (Hi 0%nat it eq_refl); unfold len; by rewrite Nat2Z.id, <- Hi, Nat.add_0_r
       |apply len_nonneg|done].
    rewrite bind_Ok.
    assert (len ds <> 0) as Hne by (apply lookup_lt_Some in Hd; unfold len; lia).
    destruct (Z.eqb_spec (len ds) 0); [done|]. cbn [orb].
    pose proof (straw2_best_snoc ds (draw_of seed replica it w) high dh HB Hd) as HB'.
    replace (len ds + 1) with (len (ds ++ [draw_of seed replica it w])) by (rewrite len_app; unfold len; cbn; lia).
    destruct (IH weights (ds ++ [draw_of seed replica it w]) _
      (if dh <? draw_of seed replica it w then draw_of seed replica it w else dh)
      ltac:(intros k i0 Hk; rewrite length_app, <- Nat.add_assoc; by apply (Hi (S k)))
      ltac:(by injection Hl) Hws HB') as (h' & d' & E & HB2).
    { destruct (dh <? _); [by rewrite lookup_app_r, Nat.sub_diag|].
      rewrite lookup_app_l; [done|]. by eapply lookup_lt_Some. }
    exists h', d'. split; [|by rewrite <- app_assoc in HB2].
    rewrite <- E. by destruct (dh <? _).
Qed.

Lemma straw2Choose_spec b seed replica : bucket_wf b -> b_Items b <> [] ->
  exists high item, straw2Choose b seed replica = Ok item /\
    straw2_best (draws b seed replica) high /\ b_Items b !! high = Some item.
Proof.
  intros [(_ & _ & Hw) Hl] Hne. unfold straw2Choose, draws. unfold len in Hl.
  destruct (b_Items b) as [|it items] eqn:Ei; [done|].
  destruct (b_ItemWeights b) as [|w weights] eqn:Ew; [done|].
  apply Forall_cons_iff in Hw as [Hw Hws]. rewrite seqZ_len_cons. cbn [zip zip_with fold_res].
  rewrite (straw2_loop_eq b seed replica 0 it w) by (rewrite ?Ei; done).
  rewrite bind_Ok. change ((0 =? 0) || _) with true. cbv iota.
  set (d := draw_of seed replica it w).
  destruct (straw2_loop_spec b seed replica items weights [d] 0%nat d) as (h & d' & E & HB).
  - intros k i Hk. by rewrite Ei.
  - cbn in Hl. lia.
  - done.
  - exists d. split; [done|]. intros [|j] e; [|done]. intros [= ->]. lia.
  - done.
  - change (0 + 1) with (len [d]). change 0 with (Z.of_nat 0). rewrite E. cbn [mbind res_bind].
    destruct HB as (dm & Hdm & HB). pose proof (lookup_lt_Some _ _ _ Hdm) as Hh.
    rewrite length_app, length_zip_with in Hh. cbn in Hh.
    destruct (lookup_lt_is_Some_2 (it :: items) h) as [item Hitem]; [cbn; lia|].
    exists h, item. split_and!; [|by exists dm|done]. apply index_ok. rewrite Nat2Z.id. split; [lia|done].
Qed.

Lemma straw2Choose_ok b seed replica : bucket_wf b -> b_Items b <> [] ->
  exists item, straw2Choose b seed replica = Ok item /\ item ∈ b_Items b.
Proof.
  intros Hb Hne. destruct (straw2Choose_spec b seed replica Hb Hne) as (h & item & E & _ & H).
  exists item. split; [done|]. by eapply list_elem_of_lookup_2.
Qed.

Lemma quot_neg l w : l <= 0 -> 0 < w -> Z.quot l w = - (- l / w).
Proof.
  intros. rewrite <- (Z.opp_involutive l) at 1. rewrite Z.quot_opp_l by lia.
  rewrite Z.quot_div_nonneg by lia. done.
Qed.

Lemma draw_of_range seed replica item weight : inU 32 weight -> weight <> 0 ->
  - 2 ^ 48 <= draw_of seed replica item weight <= 0.
Proof.
  intros [Hw _] Hn. unfold draw_of. destruct (Z.eqb_spec weight 0); [done|].
  destruct (ln_of_spec seed replica item) as [_ Hr]. generalize dependent (ln_of seed replica item).
  intros l Hr. rewrite quot_neg by lia. pose proof (Z.div_pos (- l) weight).
  pose proof (Z.div_le_upper_bound (- l) weight (2 ^ 48)). nia.
Qed.

(** A heavier item draws at least as high. *)
Lemma draw_of_mono seed replica item w w' : inU 32 w -> inU 32 w' -> w <= w' ->
  draw_of seed replica item w <= draw_of seed replica item w'.
Proof.
  intros Hw Hw' Hle. destruct (Z.eq_dec w' 0) as [->|Hn'].
  { assert (w = 0) as -> by (unfold inU in Hw; lia). apply Z.le_refl. }
  pose proof (draw_of_range seed replica item w' Hw' Hn').
  destruct (Z.eq_dec w 0) as [->|Hn]; [change (draw_of seed replica item 0) with MinInt64; unfold MinInt64; lia|].
  unfold draw_of. rewrite (proj2 (Z.eqb_neq w 0) Hn), (proj2 (Z.eqb_neq w' 0) Hn').
  destruct (ln_of_spec seed replica item) as [_ Hr]. destruct Hw, Hw'.
  generalize dependent (ln_of seed replica item). intros l Hr. rewrite !quot_neg by lia.
  pose proof (Z.div_le_compat_l (- l) w w'). lia.
Qed.

Lemma draws_lookup b seed replica k d : draws b seed replica !! k = Some d <->
  exists item w, b_Items b !! k = Some item /\ b_ItemWeights b !! k = Some w /\
    d = draw_of seed replica item w.
Proof. unfold draws. rewrite lookup_zip_with_Some. naive_solver. Qed.

(** C30. A straw2 bucket selects one of its items with the highest draw, the
    first of them, and selects an item of weight zero only when every weight
    is zero. *)
Theorem straw2Choose_selects b seed replica :
  bucket_wf b -> b_Items b <> [] ->
  exists high item weight, straw2Choose b seed replica = Ok item /\
    b_Items b !! high = Some item /\ b_ItemWeights b !! high = Some weight /\
    straw2_best (draws b seed replica) high /\
    (weight = 0 -> Forall (fun w => w = 0) (b_ItemWeights b)).
Proof.
  intros Hb Hne. destruct (straw2Choose_spec b seed replica Hb Hne) as (h & item & E & HB & Hi).
  pose proof HB as (d & Hd & Hmax). apply draws_lookup in Hd as (item' & w & Hi' & Hw & ->).
  rewrite Hi in Hi'. injection Hi' as <-. exists h, item, w. split_and!; try done.
  intros ->. apply Forall_lookup. intros k wk Hk. destruct (Z.eq_dec wk 0) as [|Hn]; [done|].
  destruct Hb as [(_ & _ & Hws) Hl]. rewrite Forall_lookup in Hws.
  destruct (lookup_lt_is_Some_2 (b_Items b) k) as [ik Hik].
  { apply lookup_lt_Some in Hk. unfold len in Hl. lia. }
  destruct (Hmax k (draw_of seed replica ik wk)) as [Hle _]; [apply draws_lookup; eauto|].
  pose proof (draw_of_range seed replica ik wk (Hws _ _ Hk) Hn).
  change (draw_of seed replica item 0) with MinInt64 in Hle. unfold MinInt64 in Hle. lia.
Qed.

(** C29. Minimal movement of straw2: when the weight of one item of a bucket is
    raised and nothing else changes, the choice for a given seed and replica
    either stays what it was or becomes that item; no input moves between two
    items whose weights did not change. *)
Theorem straw2Choose_stable b b' seed replica j item w w' :
  bucket_wf b -> bucket_wf b' -> b_Items b' = b_Items b ->
  b_Items b !! j = Some item -> b_ItemWeights b !! j = Some w -> w <= w' ->
  b_ItemWeights b' = <[j := w']> (b_ItemWeights b) ->
  straw2Choose b' seed replica = straw2Choose b seed replica \/
  straw2Choose b' seed replica = Ok item.
Proof.
  intros Hb Hb' Ei Hj Hw Hle Ew.
  assert (b_Items b <> []) as Hne by (intros E; by rewrite E in Hj).
  destruct (straw2Choose_spec b seed replica Hb Hne) as (h & it & -> & HB & Hi).
  destruct (straw2Choose_spec b' seed replica Hb') as (h' & it' & -> & HB' & Hi'); [congruence|].
  rewrite Ei in Hi'. destruct (decide (h' = j)) as [->|Hn]; [right; congruence|]. left.
  enough (h = h') by congruence. apply (straw2_best_unique (draws b seed replica)); [done|].
  destruct HB' as (d & Hd & Hmax). exists d. split.
  - apply draws_lookup in Hd as (i1 & w1 & ? & Hw1 & ->). rewrite Ew in Hw1.
    rewrite list_lookup_insert_ne in Hw1 by done. apply draws_lookup. rewrite Ei in *. eauto.
  - intros k e He. apply draws_lookup in He as (ik & wk & Hik & Hwk & ->).
    destruct (decide (k = j)) as [->|Hkj].
    + assert (b_ItemWeights b' !! j = Some w') as Hw'.
      { rewrite Ew. apply list_lookup_insert_eq. by eapply lookup_lt_Some. }
      destruct (Hmax j (draw_of seed replica ik w')) as [M1 M2]; [apply draws_lookup; rewrite Ei; eauto|].
      assert (wk = w) as -> by congruence.
      assert (inU 32 w /\ inU 32 w') as [U U'].
      { destruct Hb as [(_ & _ & F) _], Hb' as [(_ & _ & F') _]. rewrite Forall_lookup in F, F'. eauto. }
      pose proof (draw_of_mono seed replica ik w w' U U' Hle) as M3.
      split; [by etransitivity|]. intros Hlt. specialize (M2 Hlt). by eapply Z.le_lt_trans.
    + apply (Hmax k). apply draws_lookup. rewrite Ei, Ew, list_lookup_insert_ne by done. eauto.
Qed.

Definition sample_host : Bucket := mkBucket (-3) 1 0x20000 [2; 3; 4] [0x10000; 0x10000; 0].
Definition heavier_host : Bucket := mkBucket (-3) 1 0x20000 [2; 3; 4] [0x10000; 0x10000; 0x10000].

Lemma sample_host_wf : bucket_wf sample_host.
Proof. split; [|done]. split_and!; [unfold inU; cbn; lia|repeat constructor..]; unfold inU, inS; cbn; lia. Qed.

Lemma heavier_host_wf : bucket_wf heavier_host.
Proof. split; [|done]. split_and!; [unfold inU; cbn; lia|repeat constructor..]; unfold inU, inS; cbn; lia. Qed.

Lemma straw2Choose_selects_witness :
  exists high item weight, straw2Choose sample_host 7 0 = Ok item /\
    b_Items sample_host !! high = Some item /\ b_ItemWeights sample_host !! high = Some weight /\
    straw2_best (draws sample_host 7 0) high /\
    (weight = 0 -> Forall (fun w => w = 0) (b_ItemWeights sample_host)).
Proof. apply (straw2Choose_selects sample_host 7 0); [apply sample_host_wf|done]. Defined.

Lemma straw2Choose_stable_witness :
  straw2Choose heavier_host 7 0 = straw2Choose sample_host 7 0 \/
  straw2Choose heavier_host 7 0 = Ok 4.
Proof.
  apply (straw2Choose_stable sample_host heavier_host 7 0 2%nat 4 0 0x10000);
    [apply sample_host_wf|apply heavier_host_wf|done|done|done|lia|done].
Defined.

(** ** chooseFirstN places distinct, usable devices of the subtree *)

(** [contains m b item]: [item] is below the bucket [b]. *)
Inductive contains (m : Map) : Bucket -> Z -> Prop :=
  | contains_item b item : item ∈ b_Items b -> contains m b item
  | contains_below b id child item :
      id ∈ b_Items b -> Buckets m !! id = Some child -> contains m child item -> contains m b item.

(** A device that exists and that the override weights do not reject. *)
Definition dev_ok (m : Map) (weights : list Z) (seed item : Z) : Prop :=
  0 <= item < MaxDevices m /\ isOut weights item seed = false.

Section placement_ok.
Context (m : Map) (rank : Z -> Z) (weights : list Z).
Context (HG : graph_ranked m rank) (HT : map_typed m).

Definition good (r : Z) (b : Bucket) : Prop := bucket_wf b /\ Forall (item_ok m rank r) (b_Items b).

Lemma good_lookup id b : Buckets m !! id = Some b -> good (rank id) b /\ 1 <= rank id <= maxCertifiedDepth.
Proof.
  intros E. destruct (HG _ _ E) as (_ & _ & Hl & Hr & Hi). destruct HT as (_ & Hb & _).
  split; [|done]. split; [split; [by apply (Hb id)|done]|done].
Qed.

Lemma isOut_neg item seed : item < 0 -> isOut weights item seed = true.
Proof. intros. unfold isOut. by destruct (Z.ltb_spec item 0); [|lia]. Qed.

(** The certified tunables. *)
Definition certified (a : firstn_args) : Prop :=
  fa_localRetries a = 0 /\ fa_localFallbackRetries a = 0 /\ 0 <= fa_tries a < 2 ^ 32 /\
  fa_stable a = true /\ (if fa_recurseToLeaf a then fa_targetType a <> 0 else fa_targetType a = 0).

(** What choosing [item] in a call with arguments [a] means for [leaves]. *)
Definition item_placed (a : firstn_args) (pos : Z) (item : Z) (leaves leaves' : list Z) : Prop :=
  if fa_recurseToLeaf a then
    exists child pre x leaf post, Buckets m !! item = Some child /\ b_Type child = fa_targetType a /\
      leaves = pre ++ x :: post /\ len pre = pos /\ leaves' = pre ++ leaf :: post /\
      contains m child leaf /\ dev_ok m weights (fa_seed a) leaf /\ leaf ∉ pre
  else leaves' = leaves /\ dev_ok m weights (fa_seed a) item.

(** What the recursive call promises: at most one device of the bucket, not
    among the leaves chosen before. *)
Definition leaf_call_ok (call : firstn_fun) : Prop := forall child r a pre x post count ps,
  good r child -> 0 <= r <= maxCertifiedDepth -> certified a -> fa_recurseToLeaf a = false ->
  fa_recurseTries a = 0 -> fa_replicas a = 1 -> 0 < count <= 1 + len post ->
  call child a (pre ++ x :: post) (len pre) count [] ps = Ok (len pre, pre ++ x :: post, [], ps) \/
  exists leaf, call child a (pre ++ x :: post) (len pre) count [] ps =
      Ok (len pre + 1, pre ++ leaf :: post, [], ps) /\
    contains m child leaf /\ dev_ok m weights (fa_seed a) leaf /\ leaf ∉ pre.

Definition attempt_ok (a : firstn_args) (bucket : Bucket) (pre : list Z) (tf : Z)
    (leaves leaves' : list Z) (out : attempt) : Prop :=
  match out with
  | Placed item =>
      contains m bucket item /\ item ∉ pre /\ item_placed a (len pre) item leaves leaves'
  | SkipReplica => leaves' = leaves
  | RetryDescent t => leaves' = leaves /\ t = tf + 1 /\ t < fa_tries a
  end.

Lemma attempt_ok_below a b id child pre tf leaves leaves' out :
  id ∈ b_Items b -> Buckets m !! id = Some child ->
  attempt_ok a child pre tf leaves leaves' out -> attempt_ok a b pre tf leaves leaves' out.
Proof. destruct out; cbn; [|done..]. intros ? ? (? & ? & ?). split_and!; try done. by eapply contains_below. Qed.

(** The end of an attempt that rejected its item or collided. *)
Lemma failed_ok a b pre tf leaves (ps : perms) :
  0 <= tf < 2 ^ 32 - 1 ->
  exists out, (if u32 (tf + 1) <? fa_tries a then Ok (RetryDescent (u32 (tf + 1)), leaves, ps)
    else Ok (SkipReplica, leaves, ps)) = Ok (out, leaves, ps) /\ attempt_ok a b pre tf leaves leaves out.
Proof.
  intros Ht. rewrite wrapU_id by (unfold inU; lia).
  destruct (Z.ltb_spec (tf + 1) (fa_tries a)); eexists; split; done.
Qed.

Lemma try_bucket_ok call fuel a replica pre mid count current tf leaves ps r :
  certified a -> (fa_recurseToLeaf a = true -> leaf_call_ok call) -> 0 < count ->
  (fa_recurseToLeaf a = true -> exists lpre x lpost, leaves = lpre ++ x :: lpost /\
     len lpre = len pre /\ count <= 1 + len lpost) ->
  0 <= fa_recurseTries a < 2 ^ 32 -> 0 <= tf < 2 ^ 32 - 1 ->
  good r current -> 0 <= r < Z.of_nat fuel ->
  exists out leaves', try_bucket m weights call fuel a replica (pre ++ mid) (len pre) count current 0 tf
      leaves ps = Ok (out, leaves', ps) /\ attempt_ok a current pre tf leaves leaves' out.
Proof.
  intros (C1 & C2 & C3 & C4 & C5) Hcall Hc Hlv Hrt Htf. revert current r.
  induction fuel as [|fuel IH]; intros current r [Hwf Hitems] Hr; [lia|].
  cbn [try_bucket]. rewrite C1, C2, C4. change (u32 (0 + 1) <=? 0) with false. cbn [Z.ltb Z.compare andb].
  destruct (Z.eqb_spec (len (b_Items current)) 0) as [_|Hne].
  { destruct (failed_ok a current pre tf leaves ps Htf) as (out & E & H). eauto. }
  assert (b_Items current <> []) as Hne' by (by intros E; rewrite E in Hne).
  destruct (straw2Choose_ok current (fa_seed a) (replica + fa_parentR a + tf) Hwf Hne') as (item & E & Hin).
  rewrite E, bind_Ok, bind_Ok. rewrite Forall_forall in Hitems. specialize (Hitems item Hin).
  destruct (Z.leb_spec (MaxDevices m) item) as [|Hmax].
  { eexists _, _. split; done. }
  destruct Hitems as [Hdev|(Hneg & [child Hchild] & Hrank)].
  - destruct (Z.ltb_spec item 0); [lia|]. cbn [andb].
    destruct (Z.eqb_spec 0 (fa_targetType a)) as [Ht|Ht]; cbn [negb].
    2: { destruct (Z.leb_spec 0 item); [|lia]. eexists _, _. split; done. }
    destruct (fa_recurseToLeaf a) eqn:Erec; [congruence|].
    destruct (existsb _ _) eqn:Eex.
    { destruct (failed_ok a current pre tf leaves ps Htf) as (out & E1 & H1). eauto. }
    rewrite slice_pre in Eex. apply existsb_eqb_false in Eex. rewrite bind_Ok. cbn [orb].
    change (0 =? 0) with true. cbn [andb].
    destruct (isOut weights item (fa_seed a)) eqn:Eout.
    { destruct (failed_ok a current pre tf leaves ps Htf) as (out & E1 & H1). eauto. }
    eexists _, _. split; [done|]. cbn. split_and!; [by apply contains_item|done|].
    unfold item_placed. rewrite Erec. split; [done|]. split; [lia|done].
  - destruct (Z.ltb_spec item 0); [|lia]. rewrite Hchild. cbn [andb].
    rewrite bool_decide_eq_false_2 by done. change (default Bucket_zero (Some child)) with child.
    destruct (good_lookup _ _ Hchild) as [Hgood Hrk].
    destruct (Z.eqb_spec (b_Type child) (fa_targetType a)) as [Ht|Ht]; cbn [negb].
    2: { destruct (Z.leb_spec 0 item); [lia|].
         destruct (IH child (rank item) Hgood) as (out & lv' & -> & H'); [lia|].
         eexists _, _. split; [done|]. by eapply attempt_ok_below. }
    destruct (existsb _ _) eqn:Eex.
    { destruct (failed_ok a current pre tf leaves ps Htf) as (out & E1 & H1). eauto. }
    rewrite slice_pre in Eex. apply existsb_eqb_false in Eex.
    destruct (fa_recurseToLeaf a) eqn:Erec.
    + destruct (Hlv eq_refl) as (lpre & x & lpost & -> & El & Hcl). rewrite <- El.
      match goal with |- context [call child ?a' _ _ _ _ _] => set (a1 := a') end.
      destruct (Hcall eq_refl child (rank item) a1 lpre x lpost count ps)
        as [->|(leaf & -> & Hl1 & Hl2 & Hl3)]; [done|lia|unfold certified; split_and!; cbn; done || lia|done|done|done|lia|..];
        rewrite !bind_Ok.
      * destruct (Z.leb_spec (len lpre) (len lpre)); [|lia]. cbn [orb].
        destruct (failed_ok a current pre tf (lpre ++ x :: lpost) ps Htf) as (out & E1 & H1). eauto.
      * destruct (Z.leb_spec (len lpre + 1) (len lpre)); [lia|]. cbn [orb].
        destruct (Z.eqb_spec (b_Type child) 0); [congruence|]. cbn [andb].
        eexists _, _. split; [done|]. cbn. split_and!; [by apply contains_item|done|].
        unfold item_placed. rewrite Erec. exists child, lpre, x, leaf, lpost. by rewrite <- El.
    + rewrite bind_Ok, isOut_neg by done. rewrite Ht, C5. cbn [orb andb Z.eqb].
      destruct (failed_ok a current pre tf leaves ps Htf) as (out & E1 & H1). eauto.
Qed.

Definition finished (out : attempt) : Prop := match out with RetryDescent _ => False | _ => True end.

Lemma bucket_fuel_certified a : certified a -> bucket_fuel m a = Z.to_nat (maxCertifiedDepth + 1).
Proof. intros (E1 & E2 & _). unfold bucket_fuel. by rewrite E1, E2. Qed.

Lemma descend_ok call fuel a replica pre mid count bucket tf leaves ps r :
  certified a -> (fa_recurseToLeaf a = true -> leaf_call_ok call) -> 0 < count ->
  (fa_recurseToLeaf a = true -> exists lpre x lpost, leaves = lpre ++ x :: lpost /\
     len lpre = len pre /\ count <= 1 + len lpost) ->
  0 <= fa_recurseTries a < 2 ^ 32 -> good r bucket -> 0 <= r <= maxCertifiedDepth ->
  0 <= tf -> tf = 0 \/ tf < fa_tries a -> Z.max 0 (fa_tries a - tf) < Z.of_nat fuel ->
  exists out leaves', descend m weights call fuel a replica (pre ++ mid) (len pre) count bucket tf
      leaves ps = Ok (out, leaves', ps) /\ attempt_ok a bucket pre tf leaves leaves' out /\ finished out.
Proof.
  intros Hcert Hcall Hc Hlv Hrt Hg Hr. revert tf.
  induction fuel as [|fuel IH]; intros tf H0 Htf Hf; [lia|].
  pose proof Hcert as (_ & _ & C3 & _ & _). cbn [descend]. rewrite bucket_fuel_certified by done.
  destruct (try_bucket_ok call (Z.to_nat (maxCertifiedDepth + 1)) a replica pre mid count bucket tf leaves ps r)
    as (out & lv & -> & Hok); try done; [lia|lia|]. rewrite bind_Ok.
  destruct out as [item| |t]; [by eexists _, _..|]. destruct Hok as (-> & -> & Hlt).
  destruct (IH (tf + 1)) as (out & lv & -> & Hok & Hfin); [lia|by right|lia|].
  eexists _, _. split; [done|]. by destruct out.
Qed.

(** A failure domain of the target type with the device chosen in it. *)
Definition domain_leaf (a : firstn_args) (domain leaf : Z) : Prop :=
  exists child, Buckets m !! domain = Some child /\ b_Type child = fa_targetType a /\
    contains m child leaf /\ dev_ok m weights (fa_seed a) leaf.

(** [added] has no repetition and nothing of [pre]. *)
Definition fresh (pre added : list Z) : Prop := NoDup added /\ forall x, x ∈ added -> x ∉ pre.

Lemma fresh_nil pre : fresh pre [].
Proof. split; [constructor|]. intros x Hx. by apply elem_of_nil in Hx. Qed.

Lemma fresh_cons pre item added : item ∉ pre -> fresh (pre ++ [item]) added -> fresh pre (item :: added).
Proof.
  intros Hi [Hn Hd]. split.
  - constructor; [|done]. intros H. apply (Hd _ H). set_solver.
  - intros x [->|Hx]%elem_of_cons; [done|]. specialize (Hd _ Hx). set_solver.
Qed.

(** What a call that added [added] to the output did to [leaves]. *)
Definition all_placed (a : firstn_args) (pos : Z) (added leaves leaves' : list Z) : Prop :=
  if fa_recurseToLeaf a then
    forall lpre lmid, leaves = lpre ++ lmid -> len lpre = pos -> len added <= len lmid ->
    exists ladded, leaves' = lpre ++ ladded ++ drop (length added) lmid /\
      Forall2 (domain_leaf a) added ladded /\ fresh lpre ladded
  else leaves' = leaves /\ Forall (dev_ok m weights (fa_seed a)) added.

Lemma all_placed_cons a pos item added leaves leaves1 leaves2 :
  item_placed a pos item leaves leaves1 -> all_placed a (pos + 1) added leaves1 leaves2 ->
  all_placed a pos (item :: added) leaves leaves2.
Proof.
  unfold item_placed, all_placed. destruct (fa_recurseToLeaf a).
  - intros (child & pre & x & leaf & post & Hc & Ht & -> & Hp & -> & H1 & H2 & H3) H lpre lmid E El Hlen.
    assert (lpre = pre /\ lmid = x :: post) as [-> ->].
    { apply app_inj_1; [unfold len in *; lia|done]. }
    destruct (H (pre ++ [leaf]) post) as (ladded & -> & HF & HN).
    { by rewrite <- app_assoc. } { rewrite len_app, Hp. done. }
    { rewrite !len_cons in Hlen. lia. }
    exists (leaf :: ladded). rewrite <- !app_assoc. cbn.
    split_and!; [done|constructor; [by exists child|done]|by apply fresh_cons].
  - intros [-> Hd] [-> Hds]. split; [done|]. by constructor.
Qed.

Lemma all_placed_nil a pos leaves : all_placed a pos [] leaves leaves.
Proof.
  unfold all_placed. destruct (fa_recurseToLeaf a); [|by split].
  intros lpre lmid -> _ _. exists []. split_and!; [done|constructor|apply fresh_nil].
Qed.

(** The result of a call that starts with [pre] placed and [mid] to fill. *)
Definition added_ok (n : nat) (a : firstn_args) (bucket : Bucket) (pre mid : list Z) (count : Z)
    (leaves : list Z) (ps : perms) (result : res (Z * list Z * list Z * perms)) : Prop :=
  exists added leaves', result =
      Ok (len pre + len added, pre ++ added ++ drop (length added) mid, leaves', ps) /\
    (length added <= n)%nat /\ len added <= Z.max 0 count /\ Forall (contains m bucket) added /\
    fresh pre added /\ all_placed a (len pre) added leaves leaves'.

Lemma added_none n a bucket pre mid count leaves ps :
  added_ok n a bucket pre mid count leaves ps (Ok (len pre, pre ++ mid, leaves, ps)).
Proof.
  exists [], leaves. change (len []) with 0. rewrite Z.add_0_r.
  split_and!; [done|cbn; lia|lia|constructor|apply fresh_nil|apply all_placed_nil].
Qed.

Lemma added_cons n a bucket pre x mid item count leaves leaves1 ps result :
  0 < count -> contains m bucket item -> item ∉ pre -> item_placed a (len pre) item leaves leaves1 ->
  added_ok n a bucket (pre ++ [item]) mid (count - 1) leaves1 ps result ->
  added_ok (S n) a bucket pre (x :: mid) count leaves ps result.
Proof.
  intros Hc Hcont Hni Hip (added & lv & -> & L1 & L2 & L3 & L4 & L5).
  rewrite len_app in *. change (len [item]) with 1 in *.
  exists (item :: added), lv. rewrite len_cons. cbn [length drop]. rewrite <- !app_assoc in *. cbn [app] in *.
  split_and!; [by rewrite Z.add_assoc|lia|lia|by constructor|by apply fresh_cons|by eapply all_placed_cons].
Qed.

(** [leaves] has room for what [mid] has room for. *)
Definition leaves_room (a : firstn_args) (pre mid leaves : list Z) : Prop :=
  fa_recurseToLeaf a = true ->
  exists lpre lmid, leaves = lpre ++ lmid /\ len lpre = len pre /\ len lmid = len mid.

Lemma leaves_room_next a pre x mid item leaves leaves1 :
  item_placed a (len pre) item leaves leaves1 -> leaves_room a pre (x :: mid) leaves ->
  leaves_room a (pre ++ [item]) mid leaves1.
Proof.
  intros Hip Hlv E. destruct (Hlv E) as (lpre & lmid & -> & Hl & Hm). unfold item_placed in Hip.
  rewrite E in Hip. destruct Hip as (child & pre1 & y & leaf & post & _ & _ & Eq & Hp & -> & _).
  exists (pre1 ++ [leaf]), post. rewrite <- app_assoc. split; [done|].
  apply (f_equal len) in Eq. rewrite !len_app, !len_cons in Eq. rewrite !len_app. rewrite len_cons in Hm.
  change (len [leaf]) with 1. change (len [item]) with 1. lia.
Qed.

Lemma each_replica_ok call n a bucket replica pre mid count leaves ps r :
  certified a -> (fa_recurseToLeaf a = true -> leaf_call_ok call) -> 0 <= fa_recurseTries a < 2 ^ 32 ->
  good r bucket -> 0 <= r <= maxCertifiedDepth -> count <= len mid -> leaves_room a pre mid leaves ->
  added_ok n a bucket pre mid count leaves ps
    (each_replica m weights call n a bucket replica (pre ++ mid) (len pre) count leaves ps).
Proof.
  intros Hcert Hcall Hrt Hg Hr. revert replica pre mid count leaves.
  induction n as [|n IH]; intros replica pre mid count leaves Hc Hlv; [apply added_none|].
  cbn [each_replica]. destruct (Z.leb_spec count 0); [apply added_none|].
  destruct mid as [|x mid]; [change (len []) with 0 in Hc; lia|]. rewrite len_cons in Hc.
  destruct (descend_ok call (Z.to_nat (fa_tries a) + 1) a replica pre (x :: mid) count bucket 0 leaves ps r)
    as (out & lv & -> & Hok & Hfin); try done; [|by left|pose proof Hcert as (_ & _ & ? & _); lia|].
  { intros E. destruct (Hlv E) as (lpre & lmid & -> & Hl & Hm). rewrite len_cons in Hm.
    destruct lmid as [|y lmid]; [pose proof (len_nonneg mid); change (len []) with 0 in Hm; lia|]. rewrite len_cons in Hm.
    exists lpre, y, lmid. split_and!; [done|done|lia]. }
  rewrite bind_Ok. destruct out as [item| |t]; [|cbn in Hok; subst lv|done].
  - destruct Hok as (Hcont & Hni & Hip). rewrite store_mid, bind_Ok. eapply added_cons; [done..|].
    replace (pre ++ item :: mid) with ((pre ++ [item]) ++ mid) by by rewrite <- app_assoc.
    replace (len pre + 1) with (len (pre ++ [item])) by (rewrite len_app; done).
    apply IH; [lia|by eapply leaves_room_next].
  - destruct (IH (replica + 1) pre (x :: mid) count leaves) as (added & lv' & -> & L1 & L);
      [rewrite len_cons; lia|done|]. exists added, lv'. split; [done|]. split; [lia|done].
Qed.

Lemma leaf_chooseFirstN nest : leaf_call_ok (chooseFirstN (S nest) m weights).
Proof.
  intros child r a pre x post count ps Hg Hr Hcert Hrec Hrt Hrep Hc. cbn [chooseFirstN].
  pose proof Hcert as (_ & _ & _ & Hst & _). rewrite Hst, Hrep. change (Z.to_nat (1 - 0)) with 1%nat.
  destruct (each_replica_ok (chooseFirstN nest m weights) 1 a child 0 pre (x :: post) count [] ps r)
    as (added & lv & -> & L1 & L2 & L3 & L4 & L5);
    [done|by rewrite Hrec|rewrite Hrt; lia|done|done|rewrite len_cons; lia|by unfold leaves_room; rewrite Hrec|].
  unfold all_placed in L5. rewrite Hrec in L5. destruct L5 as [-> L5].
  destruct added as [|leaf [|]]; [left|right|cbn in L1; lia].
  - cbn. by rewrite Z.add_0_r.
  - exists leaf. split; [done|]. rewrite Forall_singleton in L3, L5. split; [done|]. split; [done|].
    apply L4. set_solver.
Qed.

(** The outer call, at the start of an empty output. *)
Lemma chooseFirstN_ok nest a bucket output outputSize leaves ps r :
  certified a -> 0 <= fa_recurseTries a < 2 ^ 32 -> good r bucket -> 0 <= r <= maxCertifiedDepth ->
  outputSize <= len output -> len leaves = len output ->
  added_ok (Z.to_nat (fa_replicas a)) a bucket [] output outputSize leaves ps
    (chooseFirstN (S (S nest)) m weights bucket a output 0 outputSize leaves ps).
Proof.
  intros Hcert Hrt Hg Hr Ho Hl. pose proof Hcert as (_ & _ & _ & Hst & _).
  change (chooseFirstN (S (S nest)) m weights bucket a output 0 outputSize leaves ps) with
    (each_replica m weights (chooseFirstN (S nest) m weights)
      (Z.to_nat (fa_replicas a - (if fa_stable a then 0 else 0))) a bucket (if fa_stable a then 0 else 0)
      output 0 outputSize leaves ps).
  rewrite Hst, Z.sub_0_r. apply (each_replica_ok _ _ _ _ _ []) with r; try done.
  - intros _. apply leaf_chooseFirstN.
  - intros _. by exists [], leaves.
Qed.

(** *** chooseIndep, on a whole output and for devices *)

Lemma indep_descend_ok call fuel seed replicas rt r position output leaves current rk :
  good rk current -> 0 <= rk < Z.of_nat fuel ->
  exists out, indep_descend m weights call fuel seed replicas 0 0 (len output) rt false r position
      output leaves current = Ok (out, leaves) /\
    match out with
    | Chosen item => contains m current item /\ dev_ok m weights seed item /\ item ∉ output
    | GiveUp => False
    | Unplaced => True
    end.
Proof.
  revert current rk. induction fuel as [|fuel IH]; intros current rk [Hwf Hitems] Hr; [lia|].
  cbn [indep_descend]. destruct (Z.eqb_spec (len (b_Items current)) 0) as [_|Hne]; [by eexists|].
  assert (b_Items current <> []) as Hne' by (by intros E; rewrite E in Hne).
  destruct (straw2Choose_ok current seed r Hwf Hne') as (item & E & Hin).
  rewrite E, bind_Ok. rewrite Forall_forall in Hitems. specialize (Hitems item Hin).
  assert (item < MaxDevices m) as Hmax by (destruct HT; destruct Hitems as [|(? & _)]; lia).
  destruct (Z.leb_spec (MaxDevices m) item); [lia|].
  assert (slice 0 (len output) output = output) as Hsl.
  { rewrite <- (app_nil_r output) at 2. apply slice_pre. }
  change (i32 0) with 0. destruct Hitems as [Hdev|(Hneg & [child Hchild] & Hrank)].
  - destruct (Z.ltb_spec item 0); [lia|]. cbn [andb Z.eqb negb]. rewrite Hsl.
    destruct (existsb _ _) eqn:Eex; [by eexists|]. apply existsb_eqb_false in Eex. rewrite bind_Ok.
    cbn [negb]. destruct (isOut weights item seed) eqn:Eout; [by eexists|].
    exists (Chosen item). split; [done|]. split; [by apply contains_item|]. split; [|done]. split; [lia|done].
  - destruct (Z.ltb_spec item 0); [|lia]. rewrite Hchild. cbn [andb].
    rewrite bool_decide_eq_false_2 by done. change (default Bucket_zero (Some child)) with child.
    destruct (good_lookup _ _ Hchild) as [Hgood Hrk].
    destruct (Z.eqb_spec (b_Type child) 0) as [Ht|Ht]; cbn [negb].
    + destruct (existsb _ _); [by eexists|]. rewrite bind_Ok, isOut_neg by done. by eexists.
    + destruct (Z.leb_spec 0 item); [lia|].
      destruct (IH child (rank item) Hgood) as (out & -> & H'); [lia|].
      exists out. split; [done|]. destruct out; try done. destruct H' as [? ?]. split; [|done].
      by eapply contains_below.
Qed.

(** Every position holds a hole or a usable device, and no device is held
    twice. *)
Definition indep_inv (bucket : Bucket) (seed : Z) (output : list Z) : Prop :=
  Forall (fun x => x = itemNone \/ contains m bucket x /\ dev_ok m weights seed x) output /\
  forall i j x, output !! i = Some x -> output !! j = Some x -> x <> itemNone -> i = j.

Lemma indep_inv_insert bucket seed output i item :
  indep_inv bucket seed output -> contains m bucket item -> dev_ok m weights seed item ->
  item ∉ output -> indep_inv bucket seed (<[i := item]> output).
Proof.
  intros [HF HU] Hc Hd Hni. split; [apply Forall_insert; [done|by right]|].
  intros j k x Hj Hk Hx. apply list_lookup_insert_Some in Hj as [(-> & -> & _)|[Hij Hj]];
    apply list_lookup_insert_Some in Hk as [(-> & ? & _)|[Hik Hk]]; subst; try done.
  - by apply list_elem_of_lookup_2 in Hk.
  - by apply list_elem_of_lookup_2 in Hj.
  - by eapply HU.
Qed.

Definition holes (output : list Z) : Z := len (filter (fun x => x = itemNone) output).

Lemma holes_insert output i item : output !! i = Some itemNone -> item <> itemNone ->
  holes (<[i := item]> output) = holes output - 1.
Proof.
  intros Hi Hn. unfold holes.
  rewrite insert_take_drop by by eapply lookup_lt_Some.
  rewrite <- (take_drop_middle output i itemNone Hi) at 3.
  rewrite !filter_app, !filter_cons, decide_False, decide_True, !len_app, len_cons by done. lia.
Qed.

Lemma indep_position_ok call bucket seed replicas rt parentR failure position left_ output leaves rk :
  good rk bucket -> 0 <= rk <= maxCertifiedDepth -> 0 <= position < len output ->
  indep_inv bucket seed output -> left_ = holes output ->
  exists output', indep_position m weights call bucket seed replicas 0 0 (len output) rt false parentR
      failure position (left_, output, leaves) = Ok (holes output', output', leaves) /\
    length output' = length output /\ indep_inv bucket seed output'.
Proof.
  intros Hg Hr Hp Hinv ->. unfold indep_position.
  destruct (index_in_range output position Hp) as (held & E & _). rewrite E, bind_Ok.
  apply index_ok in E as [_ E].
  destruct (Z.eqb_spec held itemNone) as [->|]; cbn [negb]; [|by eexists].
  destruct (indep_descend_ok call (Z.to_nat (maxCertifiedDepth + 1)) seed replicas rt
    (position + parentR + replicas * failure) position output leaves bucket rk Hg) as (out & -> & Hout); [lia|].
  rewrite bind_Ok. destruct out as [| |item]; [by eexists|done|].
  destruct Hout as (H1 & H2 & H3). rewrite store_ok, bind_Ok by done.
  exists (<[Z.to_nat position:=item]> output). rewrite length_insert.
  split; [|split; [done|by apply indep_inv_insert]]. do 3 f_equal. symmetry. apply holes_insert; [done|].
  destruct HT as (? & _), H2 as (? & _). unfold itemNone. lia.
Qed.

Lemma indep_pass_ok call bucket seed replicas rt parentR failure positions n output leaves rk :
  good rk bucket -> 0 <= rk <= maxCertifiedDepth -> n = len output ->
  Forall (fun p => 0 <= p < n) positions -> indep_inv bucket seed output ->
  exists output', fold_res (indep_position m weights call bucket seed replicas 0 0 n rt false
      parentR failure) positions (holes output, output, leaves) = Ok (holes output', output', leaves) /\
    length output' = length output /\ indep_inv bucket seed output'.
Proof.
  intros Hg Hr -> Hps. revert output Hps. induction positions as [|p ps IH]; intros output Hps Hinv; [by eexists|].
  apply Forall_cons in Hps as [Hp Hps]. cbn [fold_res].
  destruct (indep_position_ok call bucket seed replicas rt parentR failure p (holes output) output leaves rk)
    as (o1 & -> & L1 & I1); try done. rewrite bind_Ok.
  assert (len o1 = len output) as El by (unfold len; by rewrite L1).
  destruct (IH o1) as (o2 & E & L2 & I2); [by rewrite El|done|]. rewrite <- El in *.
  exists o2. rewrite E. split_and!; [done|congruence|done..].
Qed.

Lemma indep_rounds_ok call n bucket seed replicas rt parentR failure output leaves rk :
  good rk bucket -> 0 <= rk <= maxCertifiedDepth -> indep_inv bucket seed output ->
  exists output', indep_rounds m weights call n bucket seed replicas 0 0 (len output) rt false parentR failure
      (holes output, output, leaves) = Ok (holes output', output', leaves) /\
    length output' = length output /\ indep_inv bucket seed output'.
Proof.
  intros Hg Hr. revert failure output. induction n as [|n IH]; intros failure output Hinv; [by eexists|].
  cbn [indep_rounds]. destruct (Z.leb_spec (holes output) 0); [by eexists|].
  destruct (indep_pass_ok call bucket seed replicas rt parentR failure (seqZ 0 (len output - 0)) (len output)
    output leaves rk) as (o1 & -> & L1 & I1); try done.
  { apply Forall_forall. intros p Hp%elem_of_seqZ. lia. }
  rewrite bind_Ok. assert (len o1 = len output) as <- by (unfold len; by rewrite L1).
  destruct (IH (failure + 1) o1 I1) as (o2 & -> & L2 & I2). exists o2. split_and!; [done|congruence|done..].
Qed.

Lemma clear_step pre x rest lpre y lrest : length lpre = length pre ->
  clear (len pre) (pre ++ x :: rest, Some (lpre ++ y :: lrest)) =
  Ok (pre ++ itemNone :: rest, Some (lpre ++ itemNone :: lrest)).
Proof.
  intros Hp. unfold clear. rewrite store_mid, bind_Ok.
  replace (len pre) with (len lpre) by (unfold len; by rewrite Hp). by rewrite store_mid, bind_Ok.
Qed.

Lemma clear_ok pre rest lpre lrest :
  length lpre = length pre -> length lrest = length rest ->
  fold_res clear (seqZ (len pre) (len rest)) (pre ++ rest, Some (lpre ++ lrest)) =
  Ok (pre ++ replicate (length rest) itemNone, Some (lpre ++ replicate (length rest) itemNone)).
Proof.
  revert pre lpre lrest. induction rest as [|x rest IH]; intros pre lpre [|y lrest] Hp Hl; try done.
  rewrite seqZ_len_cons. cbn [fold_res]. rewrite clear_step, bind_Ok by done.
  specialize (IH (pre ++ [itemNone]) (lpre ++ [itemNone]) lrest).
  rewrite <- !app_assoc, len_app in IH. cbn [length replicate]. apply IH; [rewrite !length_app; cbn; lia|].
  by injection Hl.
Qed.

Lemma indep_inv_blank bucket seed n : indep_inv bucket seed (replicate n itemNone).
Proof.
  split; [apply Forall_replicate; by left|]. intros i j x [-> _]%lookup_replicate. done.
Qed.

Lemma holes_blank n : holes (replicate n itemNone) = Z.of_nat n.
Proof.
  unfold holes, len. induction n as [|n IH]; [done|]. cbn [replicate]. rewrite filter_cons_True by done.
  cbn [length]. lia.
Qed.

Lemma chooseIndep_ok nest bucket seed replicas tries rt output leaves rk :
  good rk bucket -> 0 <= rk <= maxCertifiedDepth -> length leaves = length output ->
  exists output' leaves', chooseIndep (S nest) m weights bucket seed (len output) replicas 0 output 0 tries rt
      false (Some leaves) 0 = Ok (output', Some leaves') /\
    length output' = length output /\ length leaves' = length output /\ indep_inv bucket seed output'.
Proof.
  intros Hg Hr Hl. cbn [chooseIndep]. pose proof (clear_ok [] output [] leaves eq_refl Hl) as E.
  cbn [app] in E. change (len []) with 0 in E. rewrite E, bind_Ok. clear E.
  set (blank := replicate (length output) itemNone).
  assert (len output = len blank) as Eo by (unfold len, blank; by rewrite length_replicate).
  assert (len output = holes blank) as Eh by (unfold len, blank; by rewrite holes_blank).
  replace (len output, blank, Some blank) with (holes blank, blank, Some blank) by (by rewrite Eh).
  rewrite Z.add_0_l, Eo.
  destruct (indep_rounds_ok (chooseIndep nest m weights) (Z.to_nat tries) bucket seed replicas rt 0 0
    blank (Some blank) rk Hg Hr (indep_inv_blank _ _ _)) as (o & -> & L & I).
  rewrite bind_Ok. exists o, blank. unfold blank in *. rewrite length_replicate in *. done.
Qed.

(** *** Rules *)

Hypothesis (Hcert : ChooseLocalTries m = 0 /\ ChooseLocalFallbackTries m = 0 /\
  ChooseTotalTries m = 50 /\ ChooseleafDescendOnce m = 1 /\ ChooseleafVaryR m = 1 /\ ChooseleafStable m = 1).

(** What a placement by a FIRSTN rule is. *)
Definition flat_placement (root : Bucket) (seed replicas : Z) (result : list Z) : Prop :=
  len result <= replicas /\ NoDup result /\
  Forall (fun x => contains m root x /\ dev_ok m weights seed x) result.

(** With CHOOSELEAF the devices are in distinct failure domains. *)
Definition leaf_placement (root : Bucket) (seed replicas type : Z) (result : list Z) : Prop :=
  len result <= replicas /\ NoDup result /\ exists domains, NoDup domains /\
  Forall (contains m root) domains /\
  Forall2 (fun domain x => exists child, Buckets m !! domain = Some child /\ b_Type child = type /\
    contains m child x /\ dev_ok m weights seed x) domains result.

Lemma blank_cons n : 0 < n -> replicate (Z.to_nat n) 0 = 0 :: replicate (Z.to_nat (n - 1)) 0.
Proof. intros. by replace (Z.to_nat n) with (S (Z.to_nat (n - 1))) by lia. Qed.

Lemma validTake_bucket id b : Buckets m !! id = Some b -> validTake m id = true.
Proof.
  intros E. destruct (HG _ _ E) as (? & _). unfold validTake.
  destruct (Z.leb_spec 0 id); [lia|]. by rewrite E.
Qed.

(** TAKE of a bucket in a fresh state. *)
Lemma take_step seed n rt root x b blank tries leafTries :
  Buckets m !! root = Some b -> blank = replicate (Z.to_nat n) 0 -> 0 < n ->
  rule_step m weights seed n rt (mkRuleStep RuleTake root x)
    (mkRuleState blank blank blank 0 [] tries leafTries ∅) =
  Ok (mkRuleState (root :: replicate (Z.to_nat (n - 1)) 0) blank blank 1 [] tries leafTries ∅).
Proof.
  intros Eb -> Hn. unfold rule_step. cbn [Operation Argument1].
  change (RuleTake =? RuleSetChooseTries) with false. change (RuleTake =? RuleSetChooseleafTries) with false.
  change (RuleTake =? RuleTake) with true. rewrite (validTake_bucket _ _ Eb). cbn [negb].
  pose proof (store_mid [] 0 root (replicate (Z.to_nat (n - 1)) 0)) as E. cbn [app] in E.
  change (len []) with 0 in E. by rewrite (blank_cons n) at 1 by done; rewrite E, bind_Ok.
Qed.

(** The arguments of the certified calls. *)
Definition certified_args (seed n type tries : Z) (leaf : bool) : firstn_args :=
  mkFirstN seed n type tries 1 0 0 leaf 1 true 0.

(** A FIRSTN step on one bucket. *)
Lemma firstn_step seed n root b op type working tries leafTries :
  Buckets m !! root = Some b -> 0 < n -> op = RuleChooseFirstN \/ op = RuleChooseleafFirstN ->
  let a := certified_args seed n type tries (op =? RuleChooseleafFirstN) in
  certified a -> let blank := replicate (Z.to_nat n) 0 in
  exists added leaves',
    rule_step m weights seed n 1 (mkRuleStep op 0 type)
      (mkRuleState (root :: working) blank blank 1 [] tries leafTries ∅) =
    Ok (mkRuleState
      (if op =? RuleChooseleafFirstN
       then take (length added) leaves' ++ drop (length added) (added ++ drop (length added) blank)
       else added ++ drop (length added) blank)
      (root :: working) leaves' (len added) [] tries leafTries ∅) /\
    len added <= n /\ Forall (contains m b) added /\ NoDup added /\
    all_placed a 0 added blank leaves'.
Proof.
  intros Eb Hn Hop a Ha blank. destruct Hcert as (T1 & T2 & T3 & T4 & T5 & T6).
  destruct (good_lookup _ _ Eb) as [Hgood Hrk].
  assert (len blank = n) as Hlen by (unfold blank, len; rewrite length_replicate; lia).
  destruct (chooseFirstN_ok 0 a b blank n blank ∅ (rank root)) as (added & lv & E & L1 & L2 & L3 & [L4 _] & L5);
    [done|cbn; lia|done|lia|lia|done|].
  exists added, lv. split; [|split_and!; try done; lia].
  assert (choose_each m weights (mkRuleStep op 0 type) seed n 1 tries leafTries (root :: working) 0
      (0, blank, blank, ∅) = Ok (len added, added ++ drop (length added) blank, lv, ∅)) as EC.
  { unfold choose_each. cbn [Argument1 Operation Argument2]. change (0 <=? 0) with true. cbv iota.
    rewrite Z.add_0_l. destruct (Z.leb_spec n 0); [lia|].
    change (index (root :: working) 0) with (Ok root). rewrite bind_Ok, Eb.
    assert (op =? RuleChooseIndep = false) as -> by (by destruct Hop as [-> | ->]).
    rewrite T1, T2, T5, T6. change (negb (1 =? 0)) with true. rewrite Z.sub_0_r. change (Z.to_nat 0) with 0%nat.
    rewrite drop_0, take_0. fold a. unfold a, certified_args in E. rewrite E, bind_Ok. cbn [app]. done. }
  unfold rule_step. cbn [Operation].
  assert ((op =? RuleSetChooseTries) = false /\ (op =? RuleSetChooseleafTries) = false /\ (op =? RuleTake) = false
    /\ (op =? RuleChooseFirstN) || (op =? RuleChooseleafFirstN) || (op =? RuleChooseIndep) = true)
    as (-> & -> & -> & ->) by (by destruct Hop as [-> | ->]).
  change (1 =? 0) with false. cbv iota. change (seqZ 0 1) with [0]. cbn [fold_res].
  rewrite EC, !bind_Ok. unfold len. rewrite Nat2Z.id. by destruct (op =? RuleChooseleafFirstN).
Qed.

Lemma emit_step seed n rt x y working output leaves (placed rest : list Z) tries leafTries ps :
  working = placed ++ rest -> len placed <= n ->
  (st ← rule_step m weights seed n rt (mkRuleStep RuleEmit x y)
     (mkRuleState working output leaves (len placed) [] tries leafTries ps); Ok (rs_result st)) = Ok placed.
Proof.
  intros -> Hn. unfold rule_step. cbn [Operation].
  change (RuleEmit =? RuleSetChooseTries) with false. change (RuleEmit =? RuleSetChooseleafTries) with false.
  change (RuleEmit =? RuleTake) with false.
  change ((RuleEmit =? RuleChooseFirstN) || (RuleEmit =? RuleChooseleafFirstN) || (RuleEmit =? RuleChooseIndep))
    with false. change (RuleEmit =? RuleEmit) with true. cbv iota.
  rewrite bind_Ok. cbn [rs_result app]. change (len []) with 0. rewrite Z.sub_0_r, Z.min_r by done.
  unfold len. rewrite Nat2Z.id. by rewrite take_app_length.
Qed.

Lemma rule_unfold r seed n : rule m weights r seed n =
  (st ← fold_res (rule_step m weights seed n 1) (r_Steps r)
    (mkRuleState (replicate (Z.to_nat n) 0) (replicate (Z.to_nat n) 0) (replicate (Z.to_nat n) 0) 0 [] 51 0 ∅);
   Ok (rs_result st)).
Proof. destruct Hcert as (_ & _ & T3 & T4 & _). unfold rule. by rewrite T3, T4. Qed.

Lemma bind_assoc_res {A B C} (x : res A) (f : A -> res B) (g : B -> res C) :
  ((x ≫= f) ≫= g) = (x ≫= (fun a => f a ≫= g)).
Proof. by destruct x. Qed.

Lemma rule_flat r seed n root b x :
  Buckets m !! root = Some b -> 0 < n ->
  r_Steps r = [mkRuleStep RuleTake root x; mkRuleStep RuleChooseFirstN 0 0; mkRuleStep RuleEmit 0 0] ->
  exists result, rule m weights r seed n = Ok result /\ flat_placement b seed n result.
Proof.
  intros Eb Hn Es. rewrite rule_unfold, Es. cbn [fold_res].
  erewrite take_step, bind_Ok by done.
  destruct (firstn_step seed n root b RuleChooseFirstN 0 (replicate (Z.to_nat (n - 1)) 0) 51 0)
    as (added & lv & -> & L1 & L2 & L3 & L4); [done|done|by left|by unfold certified; cbn; lia|].
  change (RuleChooseFirstN =? RuleChooseleafFirstN) with false in *. rewrite bind_Ok.
  rewrite bind_assoc_res. exists added. split.
  - change (fold_res _ [] ?s) with (Ok s) in *. by erewrite emit_step.
  - destruct L4 as [_ L4]. split_and!; try done. by apply Forall_and.
Qed.

Lemma rule_leaf r seed n root b x type :
  Buckets m !! root = Some b -> 0 < n -> 0 < type ->
  r_Steps r = [mkRuleStep RuleTake root x; mkRuleStep RuleChooseleafFirstN 0 type; mkRuleStep RuleEmit 0 0] ->
  exists result, rule m weights r seed n = Ok result /\ leaf_placement b seed n type result.
Proof.
  intros Eb Hn Ht Es. rewrite rule_unfold, Es. cbn [fold_res].
  erewrite take_step, bind_Ok by done.
  destruct (firstn_step seed n root b RuleChooseleafFirstN type (replicate (Z.to_nat (n - 1)) 0) 51 0)
    as (added & lv & -> & L1 & L2 & L3 & L4); [done|done|by right|by unfold certified; cbn; lia|].
  change (RuleChooseleafFirstN =? RuleChooseleafFirstN) with true in *. rewrite bind_Ok.
  destruct (L4 [] (replicate (Z.to_nat n) 0)) as (ladded & -> & HF & [HN _]);
    [done|done|unfold len in *; rewrite length_replicate; lia|].
  pose proof (Forall2_length _ _ _ HF) as El.
  assert (len added = len ladded) as El' by (unfold len; by rewrite El).
  exists ladded. split.
  - cbn [app]. rewrite El', El, take_app_length, bind_assoc_res. by erewrite emit_step by (done || lia).
  - split; [lia|]. split; [done|]. by exists added.
Qed.

(** What a placement by an INDEP rule is: one entry per shard, each a hole or
    a usable device, no device twice. *)
Definition indep_placement (root : Bucket) (seed replicas : Z) (result : list Z) : Prop :=
  len result = replicas /\ indep_inv root seed result.

Lemma indep_step seed n root b working tries leafTries :
  Buckets m !! root = Some b -> 0 < n -> let blank := replicate (Z.to_nat n) 0 in
  exists output leaves',
    rule_step m weights seed n 1 (mkRuleStep RuleChooseIndep 0 0)
      (mkRuleState (root :: working) blank blank 1 [] tries leafTries ∅) =
    Ok (mkRuleState output (root :: working) leaves' (len output) [] tries leafTries ∅) /\
    indep_placement b seed n output.
Proof.
  intros Eb Hn blank. destruct (good_lookup _ _ Eb) as [Hgood Hrk].
  assert (len blank = n) as Hlen by (unfold blank, len; rewrite length_replicate; lia).
  destruct (chooseIndep_ok 1 b seed n tries (if leafTries =? 0 then 1 else leafTries) blank blank (rank root))
    as (output & lv & E & L1 & L2 & I); [done|lia|done|]. rewrite Hlen in E.
  assert (len output = n) as Ho by (unfold len in *; congruence).
  exists output, lv. split; [|done].
  assert (choose_each m weights (mkRuleStep RuleChooseIndep 0 0) seed n 1 tries leafTries (root :: working) 0
      (0, blank, blank, ∅) = Ok (len output, output, lv, ∅)) as EC.
  { unfold choose_each. cbn [Argument1 Operation Argument2]. change (0 <=? 0) with true. cbv iota.
    rewrite Z.add_0_l. destruct (Z.leb_spec n 0); [lia|].
    change (index (root :: working) 0) with (Ok root). rewrite bind_Ok, Eb.
    change (RuleChooseIndep =? RuleChooseIndep) with true.
    change (RuleChooseIndep =? RuleChooseleafFirstN) with false. cbv iota.
    rewrite Z.sub_0_r, Z.min_id. rewrite E, bind_Ok. by rewrite Z.add_0_l, Ho. }
  unfold rule_step. cbn [Operation].
  change ((RuleChooseIndep =? RuleChooseFirstN) || (RuleChooseIndep =? RuleChooseleafFirstN)
    || (RuleChooseIndep =? RuleChooseIndep)) with true.
  change (RuleChooseIndep =? RuleSetChooseTries) with false.
  change (RuleChooseIndep =? RuleSetChooseleafTries) with false. change (RuleChooseIndep =? RuleTake) with false.
  change (1 =? 0) with false. cbv iota. change (seqZ 0 1) with [0]. cbn [fold_res].
  by rewrite EC, !bind_Ok.
Qed.

Lemma rule_indep r seed n root b x y z :
  Buckets m !! root = Some b -> 0 < n ->
  r_Steps r = [mkRuleStep RuleSetChooseleafTries 5 0; mkRuleStep RuleSetChooseTries 100 0;
    mkRuleStep RuleTake root x; mkRuleStep RuleChooseIndep 0 0; mkRuleStep RuleEmit y z] ->
  exists result, rule m weights r seed n = Ok result /\ indep_placement b seed n result.
Proof.
  intros Eb Hn Es. rewrite rule_unfold, Es. cbn [fold_res].
  set (blank := replicate (Z.to_nat n) 0).
  change (rule_step m weights seed n 1 (mkRuleStep RuleSetChooseleafTries 5 0)
    (mkRuleState blank blank blank 0 [] 51 0 ∅)) with (Ok (mkRuleState blank blank blank 0 [] 51 5 ∅)).
  rewrite bind_Ok.
  change (rule_step m weights seed n 1 (mkRuleStep RuleSetChooseTries 100 0)
    (mkRuleState blank blank blank 0 [] 51 5 ∅)) with (Ok (mkRuleState blank blank blank 0 [] 100 5 ∅)).
  rewrite bind_Ok. unfold blank. erewrite take_step, bind_Ok by done.
  destruct (indep_step seed n root b (replicate (Z.to_nat (n - 1)) 0) 100 5 Eb Hn) as (output & lv & -> & Hlen & I).
  rewrite bind_Ok, bind_assoc_res. exists output. split; [|done].
  erewrite emit_step; [done|by rewrite app_nil_r|lia].
Qed.

End placement_ok.

(** ** Properties *)

(** What a rule of the certified profile returns for [replicas] devices. *)
Definition placement_ok (m : Map) (r : Rule) (seed replicas : Z) (weights result : list Z) : Prop :=
  exists root b, Buckets m !! root = Some b /\
  match r_Steps r with
  | [take_; choose; _] =>
      Argument1 take_ = root /\
      if Operation choose =? RuleChooseFirstN then flat_placement m weights b seed replicas result
      else leaf_placement m weights b seed replicas (Argument2 choose) result
  | [_; _; take_; _; _] => Argument1 take_ = root /\ indep_placement m weights b seed replicas result
  | _ => False
  end.

Lemma validateCertifiedRule_ok m r : r_Type r = RuleTypeReplicated \/ r_Type r = RuleTypeErasure ->
  validateCertifiedRule m r = Ok tt ->
  (ChooseLocalTries m = 0 /\ ChooseLocalFallbackTries m = 0 /\ ChooseTotalTries m = 50 /\
    ChooseleafDescendOnce m = 1 /\ ChooseleafVaryR m = 1 /\ ChooseleafStable m = 1) /\
  exists root b x, Buckets m !! root = Some b /\
  (r_Steps r = [mkRuleStep RuleTake root x; mkRuleStep RuleChooseFirstN 0 0; mkRuleStep RuleEmit 0 0] \/
   (exists type, 0 < type /\
    r_Steps r = [mkRuleStep RuleTake root x; mkRuleStep RuleChooseleafFirstN 0 type; mkRuleStep RuleEmit 0 0]) \/
   exists y z, r_Steps r = [mkRuleStep RuleSetChooseleafTries 5 0; mkRuleStep RuleSetChooseTries 100 0;
    mkRuleStep RuleTake root x; mkRuleStep RuleChooseIndep 0 0; mkRuleStep RuleEmit y z]).
Proof.
  intros Htype H. unfold validateCertifiedRule in H. apply res_bind_ok in H as (k & Hsteps & H).
  apply res_bind_ok in H as (root & Hroot & H). apply index_ok in Hroot as [_ Hroot].
  case_bool_decide as HB; [done|]. case_bool_decide; [done|].
  destruct (negb (ChooseLocalTries m =? 0) || _ || _ || _ || _ || _) eqn:Htun; [done|]. bsplit.
  split; [split_and!; by apply Z.eqb_eq|]. clear H. destruct (Buckets m !! Argument1 root) as [b|] eqn:Eb; [|done].
  exists (Argument1 root), b, (Argument2 root). split; [done|]. clear Eb HB.
  destruct (Z.eqb_spec (r_Type r) RuleTypeReplicated) as [_|Ht].
  - destruct (r_Steps r) as [|take_ [|choose [|emit [|]]]]; try done.
    destruct (negb (Operation take_ =? RuleTake) || _) eqn:E1; [done|]. bsplit.
    repeat match goal with H : bool_decide _ = true |- _ => apply bool_decide_eq_true in H as -> end.
    case_bool_decide as Hc; [left|right; left].
    + injection Hsteps as <-. injection Hroot as ->. destruct root as [op ? ?]; cbn in *.
      rewrite Hc. by assert (op = RuleTake) as -> by lia.
    + destruct (negb (Operation choose =? RuleChooseleafFirstN) || _ || _ || _) eqn:E2; [done|]. bsplit.
      injection Hsteps as <-. injection Hroot as ->. destruct root as [op a1 a2], choose as [op2 b1 type]; cbn in *.
      exists type. split; [lia|]. assert (op = RuleTake) as -> by lia.
      assert (op2 = RuleChooseleafFirstN) as -> by lia. by assert (b1 = 0) as -> by lia.
  - destruct (r_Steps r) as [|leafTries [|tries [|take_ [|choose [|emit [|]]]]]]; try done.
    destruct (negb (bool_decide (leafTries = _)) || _ || _ || _ || _) eqn:E1; [done|]. bsplit.
    repeat match goal with H : bool_decide _ = true |- _ => apply bool_decide_eq_true in H as -> end.
    injection Hsteps as <-. injection Hroot as ->. right. right. exists (Argument1 emit), (Argument2 emit).
    destruct root as [op a1 a2], emit as [op2 b1 b2]; cbn in *. assert (op = RuleTake) as -> by lia.
    by assert (op2 = RuleEmit) as -> by lia.
Qed.

Lemma certified_rule_places m r seed replicas weights :
  map_typed m -> graph_ok m -> r_Type r = RuleTypeReplicated \/ r_Type r = RuleTypeErasure ->
  validateCertifiedRule m r = Ok tt -> 0 < replicas ->
  exists result, placeRule m r seed replicas weights = Ok result /\
    placement_ok m r seed replicas weights result.
Proof.
  intros HT [rank HG] Htype Hc Hn. apply validateCertifiedRule_ok in Hc; [|done].
  destruct Hc as (Htun & root & b & x & Eb & [Es|[(type & Ht & Es)|(y & z & Es)]]); unfold placeRule.
  - destruct (rule_flat m rank weights HG HT Htun r seed replicas root b x Eb Hn Es) as (result & -> & H).
    exists result. split; [done|]. exists root, b. split; [done|]. by rewrite Es.
  - destruct (rule_leaf m rank weights HG HT Htun r seed replicas root b x type Eb Hn Ht Es) as (result & -> & H).
    exists result. split; [done|]. exists root, b. split; [done|]. by rewrite Es.
  - destruct (rule_indep m rank weights HG HT Htun r seed replicas root b x y z Eb Hn Es) as (result & -> & H).
    exists result. split; [done|]. exists root, b. split; [done|]. by rewrite Es.
Qed.

(** C1. Placement terminates without a panic and is correct: on a map with a
    valid bucket graph, every certified rule and every replica count up to the
    ceiling give a result.  A replicated rule returns at most [replicas]
    distinct devices below its TAKE root, each existing and not rejected by
    the override weights, and with CHOOSELEAF one from each of as many
    distinct failure domains of the rule's type; an erasure rule returns
    exactly [replicas] entries, each a hole or such a device, none twice. *)
Theorem Place_correct m ruleID r seed replicas weights :
  map_typed m -> graph_ok m -> Rules m !! ruleID = Some r ->
  r_Type r = RuleTypeReplicated \/ r_Type r = RuleTypeErasure -> validateCertifiedRule m r = Ok tt ->
  0 < replicas <= maxCertifiedReplicas ->
  exists result, Map_Place (Some m) ruleID seed replicas weights = Ok result /\
    placement_ok m r seed replicas weights result.
Proof.
  intros HT HG Er Ht Hc Hn. unfold Map_Place.
  destruct (Z.leb_spec replicas 0), (Z.ltb_spec maxCertifiedReplicas replicas); try lia. cbn [orb].
  rewrite Er. assert (negb (r_Type r =? RuleTypeReplicated) && negb (r_Type r =? RuleTypeErasure) = false) as ->
    by (by destruct Ht as [-> | ->]). rewrite Hc, bind_Ok.
  apply validateGraph_iff in HG as Hv. rewrite Hv. cbn [res_map_err]. rewrite bind_Ok.
  apply certified_rule_places; [done..|lia].
Qed.

Lemma sample_map_typed : map_typed sample_map.
Proof.
  split; [cbn; lia|].
  split; cbn [Buckets Rules sample_map]; repeat apply map_Forall_insert_2; try apply map_Forall_singleton;
    repeat first [apply Forall_nil_2|apply Forall_cons_2|split]; done.
Qed.

Lemma Place_correct_witness : exists result,
  Map_Place (Some sample_map) 0 12345 2 (replicate 5 0x10000) = Ok result /\
  placement_ok sample_map (mkRule RuleTypeReplicated 1 10
       [mkRuleStep RuleTake (-1) 0; mkRuleStep RuleChooseleafFirstN 0 1; mkRuleStep RuleEmit 0 0])
    12345 2 (replicate 5 0x10000) result.
Proof.
  apply (Place_correct sample_map 0);
    [apply sample_map_typed|apply sample_map_graph|reflexivity|by left|by vm_compute|].
  unfold maxCertifiedReplicas. lia.
Defined.

Lemma validateCertifiedRule_no_panic m r : validateCertifiedRule m r <> Panic.
Proof.
  assert (forall k root, index (r_Steps r) k = Ok root ->
    (if bool_decide (Buckets m !! Argument1 root = None) then Err crush_ErrPlacement
     else if bool_decide (Argument1 root ∈ classShadowBuckets m) then Err crush_ErrPlacement
     else if negb (ChooseLocalTries m =? 0) || negb (ChooseLocalFallbackTries m =? 0)
          || negb (ChooseTotalTries m =? 50) || negb (ChooseleafDescendOnce m =? 1)
          || negb (ChooseleafVaryR m =? 1) || negb (ChooseleafStable m =? 1)
     then Err crush_ErrPlacement else Ok tt) <> Panic) as Hrest.
  { intros k root _. do 2 (case_bool_decide; [done|]). by destruct (_ || _). }
  unfold validateCertifiedRule. destruct (r_Type r =? RuleTypeReplicated).
  - destruct (r_Steps r) as [|take_ [|choose [|emit [|]]]]; try done.
    destruct (negb (Operation take_ =? RuleTake) || _); [done|].
    destruct (bool_decide (choose = _)); [by apply (Hrest 0)|].
    destruct (negb (Operation choose =? RuleChooseleafFirstN) || _ || _ || _); [done|]. by apply (Hrest 0).
  - destruct (r_Steps r) as [|leafTries [|tries [|take_ [|choose [|emit [|]]]]]]; try done.
    destruct (negb (bool_decide (leafTries = _)) || _ || _ || _ || _); [done|]. by apply (Hrest 2).
Qed.

(** A [PlacementMap], which validates the graph and certifies the rules once
    when it is decoded, places exactly as the unoptimised [Map.Place] on the
    decoded map, errors included, and never panics. *)
Theorem PlacementMap_agrees data limits pm ruleID seed replicas weights :
  DecodePlacementMap data limits = Ok pm ->
  PlacementMap_Place (Some pm) ruleID seed replicas weights =
    Map_Place (Some (pm_crushMap pm)) ruleID seed replicas weights /\
  PlacementMap_Place (Some pm) ruleID seed replicas weights <> Panic.
Proof.
  intros H. unfold DecodePlacementMap in H. apply res_bind_ok in H as (m & Hm & H). injection H as <-.
  pose proof (DecodeMap_post data limits) as Hpost. rewrite Hm in Hpost. destruct Hpost as (HG & HT & _).
  unfold PlacementMap_Place, Map_Place. cbn [pm_crushMap pm_ruleErrors].
  destruct (Z.leb_spec replicas 0); [done|]. destruct (_ || _); [done|]. rewrite lookup_fmap.
  destruct (Rules m !! ruleID) as [r|] eqn:Er; [|done]. cbn [fmap option_fmap option_map].
  destruct (negb (r_Type r =? RuleTypeReplicated) && negb (r_Type r =? RuleTypeErasure)) eqn:Et; [done|].
  assert (r_Type r = RuleTypeReplicated \/ r_Type r = RuleTypeErasure) as Ht.
  { apply andb_false_iff in Et as [Et|Et]; apply negb_false_iff, Z.eqb_eq in Et; auto. }
  change (default (Ok tt) (Some (validateCertifiedRule m r))) with (validateCertifiedRule m r).
  apply validateGraph_iff in HG as Hv. rewrite Hv. cbn [res_map_err].
  pose proof (validateCertifiedRule_no_panic m r) as Hnp.
  destruct (validateCertifiedRule m r) as [[]|e|] eqn:Ec; [|done|done]. rewrite !bind_Ok. split; [done|].
  destruct (certified_rule_places m r seed replicas weights HT HG Ht Ec) as (result & -> & _); [lia|done].
Qed.

(** One root over two devices, with a flat replicated rule. *)
Definition sample_bytes : bytes :=
  concat (le_split 4 <$> [Magic; 1; 1; 2; 5; 2 ^ 32 - 1]) ++ le_split 2 10 ++ [Byte.x05; Byte.x00] ++
  concat (le_split 4 <$> [0x20000; 2; 0; 1; 0x10000; 0x10000; 1; 3]) ++
  [Byte.x00; Byte.x01; Byte.x01; Byte.x0a] ++
  concat (le_split 4 <$> [1; 2 ^ 32 - 1; 0; 2; 0; 0; 4; 0; 0; 0; 0; 0; 0; 0; 50; 1]) ++
  [Byte.x01; Byte.x01] ++ le_split 4 54 ++ [Byte.x01].

Definition sample_limits : DecodeLimits := mkDecodeLimits 4096 16 16 16 16.

Definition sample_pm : PlacementMap := mkPlacementMap
  (mkMap 2 {[ -1 := mkBucket (-1) 10 0x20000 [0; 1] [0x10000; 0x10000] ]}
    {[ 0 := mkRule 1 1 10 [mkRuleStep 1 (-1) 0; mkRuleStep 2 0 0; mkRuleStep 4 0 0] ]}
    0 0 50 1 1 1 54 1 0 0 ∅)
  {[ 0 := Ok tt ]}.

Lemma PlacementMap_agrees_witness :
  PlacementMap_Place (Some sample_pm) 0 7 2 [0x10000; 0x10000] =
    Map_Place (Some (pm_crushMap sample_pm)) 0 7 2 [0x10000; 0x10000] /\
  PlacementMap_Place (Some sample_pm) 0 7 2 [0x10000; 0x10000] <> Panic.
Proof.
  apply (PlacementMap_agrees sample_bytes sample_limits). vm_compute. reflexivity.
Defined.

(** *** Placement, for the clients of a [PlacementMap] *)

Lemma DecodePlacementMap_post data limits :
  okP (fun pm => graph_ok (pm_crushMap pm) /\ map_typed (pm_crushMap pm) /\
         pm_ruleErrors pm = (fun r => if negb (r_Type r =? RuleTypeReplicated) && negb (r_Type r =? RuleTypeErasure)
            then Err crush_ErrPlacement else validateCertifiedRule (pm_crushMap pm) r) <$> Rules (pm_crushMap pm))
    (DecodePlacementMap data limits).
Proof.
  unfold DecodePlacementMap. pose proof (DecodeMap_post data limits) as H.
  destruct (DecodeMap data limits); [|done|done]. destruct H as (? & ? & _). by cbn.
Qed.

(** Entries are distinct, holes apart. *)
Definition distinct (l : list Z) : Prop := NoDup (filter (fun x => x <> itemNone) l).

Lemma indep_distinct (l : list Z) :
  (forall i j x, l !! i = Some x -> l !! j = Some x -> x <> itemNone -> i = j) -> distinct l.
Proof.
  intros H. unfold distinct. induction l as [|y l IH]; [constructor|].
  assert (NoDup (filter (fun x => x <> itemNone) l)) as HN.
  { apply IH. intros i j x Hi Hj Hx. specialize (H (S i) (S j) x Hi Hj Hx). lia. }
  rewrite filter_cons. case_decide as Hy; [|done]. constructor; [|done].
  intros [_ Hin]%list_elem_of_filter. apply list_elem_of_lookup in Hin as [i Hi].
  specialize (H 0%nat (S i) y eq_refl Hi Hy). lia.
Qed.

Lemma NoDup_distinct l : NoDup l -> distinct l.
Proof. apply NoDup_filter. Qed.

Lemma placement_distinct m r seed replicas weights result :
  placement_ok m r seed replicas weights result -> distinct result.
Proof.
  intros (root & b & _ & H). destruct (r_Steps r) as [|? [|? [|? [|? [|? [|]]]]]]; try done.
  - destruct H as [_ H]. destruct (_ =? RuleChooseFirstN).
    + destruct H as (_ & H & _). by apply NoDup_distinct.
    + destruct H as (_ & H & _). by apply NoDup_distinct.
  - destruct H as (_ & _ & _ & H). by apply indep_distinct.
Qed.

Lemma PlacementMap_Place_post data limits pm ruleID seed replicas weights :
  DecodePlacementMap data limits = Ok pm ->
  okP distinct (PlacementMap_Place (Some pm) ruleID seed replicas weights).
Proof.
  intros Hd. pose proof (DecodePlacementMap_post data limits) as H. rewrite Hd in H. destruct H as (HG & HT & HE).
  unfold PlacementMap_Place. destruct (Z.leb_spec replicas 0); [done|]. destruct (_ || _); [done|].
  rewrite HE, lookup_fmap. destruct (Rules (pm_crushMap pm) !! ruleID) as [r|] eqn:Er; [|done].
  cbn [fmap option_fmap option_map].
  destruct (negb (r_Type r =? RuleTypeReplicated) && negb (r_Type r =? RuleTypeErasure)) eqn:Et; [done|].
  assert (r_Type r = RuleTypeReplicated \/ r_Type r = RuleTypeErasure) as Ht.
  { apply andb_false_iff in Et as [Et|Et]; apply negb_false_iff, Z.eqb_eq in Et; auto. }
  change (default (Ok tt) (Some (validateCertifiedRule (pm_crushMap pm) r)))
    with (validateCertifiedRule (pm_crushMap pm) r).
  pose proof (validateCertifiedRule_no_panic (pm_crushMap pm) r) as Hnp.
  destruct (validateCertifiedRule (pm_crushMap pm) r) as [[]|e|] eqn:Ec; [|done|done]. rewrite bind_Ok.
  destruct (certified_rule_places (pm_crushMap pm) r seed replicas weights HT HG Ht Ec) as (result & -> & Hok); [lia|].
  cbn. by eapply placement_distinct.
Qed.
