(* ===== verification/MonMap.v ===== *)
(** * Monitor maps (src/internal/maps/monmap.go)

    The limits and the collection decoders the map decoders share, and the
    monitor map itself. *)

From stdpp Require Import base gmap list numbers.
From coqutil Require Import Byte Word.LittleEndianList.
From S2P Require Import Prelude Codec Protocol.
From stdpp Require Import list.

Open Scope Z_scope.
Open Scope go_scope.

(** The [Limits] of package maps. *)
Record MapLimits := mkMapLimits {
  ml_MaxBytes : Z;
  ml_MaxMonitors : Z;
  ml_MaxAddresses : Z;
  ml_MaxLocations : Z;
  ml_MaxPools : Z;
  ml_MaxOSDs : Z;
  ml_MaxPGMappings : Z;
  ml_MaxCollectionEntries : Z }.

Record UTime := mkUTime { ut_Seconds : Z; ut_Nanoseconds : Z }.

#[export] Instance UTime_eq_dec : EqDecision UTime.
Proof. solve_decision. Defined.

Record Monitor := mkMonitor {
  mo_Name : bytes;
  mo_Addresses : list EntityAddr;
  mo_Priority : Z;
  mo_Weight : Z;
  mo_Location : gmap bytes bytes }.

Record MonMap := mkMonMap {
  mm_fsid : bytes;
  mm_epoch : Z;
  mm_lastChanged : UTime;
  mm_created : UTime;
  mm_persistentFeatures : Z;
  mm_optionalFeatures : Z;
  mm_monitors : gmap bytes Monitor;
  mm_ranks : list bytes;
  mm_minMonitorRelease : Z;
  mm_removedRanks : list Z;
  mm_electionStrategy : Z;
  mm_disallowedLeaders : list bytes;
  mm_stretchMode : bool;
  mm_tiebreakerMonitor : bytes;
  mm_stretchMarkedDown : list bytes }.

(** ** Shared collection decoders *)

Definition decodeUTime : DecM UTime :=
  seconds ← Dec.Uint32; nanoseconds ← Dec.Uint32; mret (mkUTime seconds nanoseconds).

Definition boundedCount (maximum minimumBytes : Z) : DecM (res Z) :=
  count ← Dec.Uint32;
  _ ←? Dec.Finish;
  if maximum <? count then fail wire_ErrLimitExceeded
  else
    remaining ← Dec.Remaining;
    if negb (minimumBytes =? 0) && (remaining / minimumBytes <? count) then fail wire_ErrMalformed
    else ok count.

Definition decodeStrings (maximum : Z) : DecM (res (list bytes)) :=
  count ←? boundedCount maximum 4;
  values ← repeat_dec (Z.to_nat count) Dec.String;
  _ ←? Dec.Finish;
  ok values.

Definition decodeUint32s (maximum : Z) : DecM (res (list Z)) :=
  count ←? boundedCount maximum 4;
  values ← repeat_dec (Z.to_nat count) Dec.Uint32;
  _ ←? Dec.Finish;
  ok values.

(** [if _, exists := m[k]; exists { return e }; m[k] = v] *)
Definition insert_new `{Countable K} {V} (k : K) (v : V) (m : gmap K V) (e : error) : DecM (res (gmap K V)) :=
  match m !! k with Some _ => fail e | None => ok (<[k := v]> m) end.

(** ** Monitors *)

Definition decodeMonitorFeatures : DecM (res Z) :=
  '(_, payload) ← Dec.Versioned 1;
  child payload (features ← Dec.Uint64; _ ←? Dec.Finish; ok features).

Definition decodeMonitor (limits : MapLimits) : DecM (res Monitor) :=
  '(version, payload) ← Dec.Versioned 5;
  _ ←? Dec.Finish;
  if version <? 1 then fail wire_ErrUnsupportedVersion
  else child payload (
    name ← Dec.String;
    addresses ←? DecodeEntityAddrVec (ml_MaxAddresses limits);
    priority ← (if 2 <=? version then Dec.Uint16 else mret 0);
    weight ← (if 4 <=? version then Dec.Uint16 else mret 0);
    location ←? (if 5 <=? version then
        count ←? boundedCount (ml_MaxLocations limits) 8;
        loop_dec (Z.to_nat count) (fun location =>
          key ← Dec.String; value ← Dec.String;
          insert_new key value location maps_ErrMalformedMap) ∅
      else ok ∅);
    _ ←? Dec.Finish;
    ok (mkMonitor name addresses priority weight location)).

(** The body of the loop over the monitors. *)
Definition decode_monitor_entry (limits : MapLimits) (monitors : gmap bytes Monitor)
    : DecM (res (gmap bytes Monitor)) :=
  key ← Dec.String;
  monitor ←? decodeMonitor limits;
  if negb (bool_decide (key = mo_Name monitor)) then fail maps_ErrMalformedMap
  else insert_new key monitor monitors maps_ErrMalformedMap.

(** The loop over the ranks, with the set [seenRanks]. *)
Fixpoint check_ranks (monitors : gmap bytes Monitor) (seenRanks : gset bytes) (ranks : list bytes) : res unit :=
  match ranks with
  | [] => Ok tt
  | name :: ranks =>
      if bool_decide (monitors !! name = None) then Err maps_ErrMalformedMap
      else if bool_decide (name ∈ seenRanks) then Err maps_ErrMalformedMap
      else check_ranks monitors ({[name]} ∪ seenRanks) ranks
  end.

Definition DecodeMonMap (data : bytes) (limits : MapLimits) : res MonMap :=
  if (ml_MaxBytes limits =? 0) || (ml_MaxMonitors limits =? 0) || (ml_MaxAddresses limits =? 0)
     || (ml_MaxLocations limits =? 0) then Err wire_ErrLimitExceeded
  else fst ((
    '(version, payload) ← Dec.Versioned 9;
    _ ←? Dec.Finish;
    if version <? 6 then fail wire_ErrUnsupportedVersion
    else
    result ←? child payload (
      fsid ← Dec.Raw 16;
      epoch ← Dec.Uint32;
      lastChanged ← decodeUTime;
      created ← decodeUTime;
      persistentFeatures ←? decodeMonitorFeatures;
      optionalFeatures ←? decodeMonitorFeatures;
      count ←? boundedCount (ml_MaxMonitors limits) 5;
      monitors ←? loop_dec (Z.to_nat count) (decode_monitor_entry limits) ∅;
      ranks ←? decodeStrings (ml_MaxMonitors limits);
      if negb (len ranks =? Z.of_nat (size monitors)) then fail maps_ErrMalformedMap
      else
      _ ←? mret (check_ranks monitors ∅ ranks);
      minMonitorRelease ← (if 7 <=? version then Dec.Uint8 else mret 0);
      '(removedRanks, electionStrategy, disallowedLeaders) ←? (if 8 <=? version then
          removedRanks ←? decodeUint32s (ml_MaxMonitors limits);
          electionStrategy ← Dec.Uint8;
          disallowedLeaders ←? decodeStrings (ml_MaxMonitors limits);
          ok (removedRanks, electionStrategy, disallowedLeaders)
        else ok ([], 0, []));
      '(stretchMode, tiebreaker, markedDown) ←? (if 9 <=? version then
          stretchMode ← Dec.Bool;
          tiebreaker ← Dec.String;
          markedDown ←? decodeStrings (ml_MaxMonitors limits);
          ok (stretchMode, tiebreaker, markedDown)
        else ok (false, [], []));
      _ ←? Dec.Finish;
      ok (mkMonMap (copy_into_zeros 16 fsid) epoch lastChanged created persistentFeatures
        optionalFeatures monitors ranks minMonitorRelease removedRanks electionStrategy
        disallowedLeaders stretchMode tiebreaker markedDown));
    _ ←? Dec.Finish;
    remaining ← Dec.Remaining;
    if negb (remaining =? 0) then fail maps_ErrMalformedMap
    else if (1000000000 <=? ut_Nanoseconds (mm_lastChanged result))
            || (1000000000 <=? ut_Nanoseconds (mm_created result)) then fail maps_ErrMalformedMap
    else ok result) (NewDecoder data (mkLimits (ml_MaxBytes limits)))).

(** ** What the collection decoders return *)

Lemma boundedCount_post maximum minimumBytes :
  yields (boundedCount maximum minimumBytes) (okP (fun count => 0 <= count <= maximum)).
Proof. unfold boundedCount. ysteps. apply yields_ok. unfold inU in *. lia. Qed.

#[export] Hint Resolve boundedCount_post : yields.

Lemma insert_new_post `{Countable K} {V} (k : K) (v : V) m e (I : gmap K V -> Prop) :
  (m !! k = None -> I (<[k := v]> m)) -> yields (insert_new k v m e) (okP I).
Proof. intros HI. unfold insert_new. destruct (m !! k) eqn:E; [apply yields_fail|]. by apply yields_ok, HI. Qed.

Lemma decodeStrings_post maximum : yields (decodeStrings maximum) (okP (fun l => len l <= maximum)).
Proof.
  unfold decodeStrings. ysteps. eapply yields_bind; [apply yields_repeat, yields_any|]. intros l [Hl _].
  ysteps. apply yields_ok. unfold len. rewrite Hl. lia.
Qed.

Lemma decodeUint32s_post maximum :
  yields (decodeUint32s maximum) (okP (fun l => len l <= maximum /\ Forall (inU 32) l)).
Proof.
  unfold decodeUint32s. ysteps. eapply yields_bind; [apply yields_repeat, yields_u32|]. intros l [Hl HF].
  ysteps. apply yields_ok. split; [|done]. unfold len. rewrite Hl. lia.
Qed.

Lemma decodeUTime_post : yields decodeUTime (fun _ => True).
Proof. apply yields_any. Qed.

Lemma decodeMonitorFeatures_post : yields decodeMonitorFeatures (okP (fun _ => True)).
Proof.
  unfold decodeMonitorFeatures. eapply yields_bind; [apply yields_any|intros [v p] _].
  apply yields_child. ysteps. by apply yields_ok.
Qed.

#[export] Hint Resolve decodeStrings_post decodeUint32s_post decodeUTime_post decodeMonitorFeatures_post : yields.

Lemma decodeMonitor_post limits : yields (decodeMonitor limits) (okP (fun _ => True)).
Proof.
  unfold decodeMonitor. eapply yields_bind; [apply yields_any|intros [v p] _]. ysteps. apply yields_child.
  yany. ysteps. yany. yany. eapply yields_try with (Q := fun _ => True).
  - apply yields_if; intros _; [|by apply yields_ok]. ysteps. apply yields_loop; [done|].
    intros s _. yany. yany. by apply insert_new_post.
  - intros l _. ysteps. by apply yields_ok.
Qed.

#[export] Hint Resolve decodeMonitor_post : yields.

(** ** Properties *)

(** The ranks list every monitor exactly once, each monitor is filed under its
    own name, and the timestamps are times. *)
Definition monmap_ok (m : MonMap) : Prop :=
  map_Forall (fun name monitor => mo_Name monitor = name) (mm_monitors m) /\
  mm_ranks m ≡ₚ (map_to_list (mm_monitors m)).*1 /\
  0 <= ut_Nanoseconds (mm_lastChanged m) < 1000000000 /\ 0 <= ut_Nanoseconds (mm_created m) < 1000000000.

Lemma check_ranks_sound monitors seen ranks : check_ranks monitors seen ranks = Ok tt ->
  NoDup ranks /\ (forall x, x ∈ ranks -> x ∉ seen /\ is_Some (monitors !! x)).
Proof.
  revert seen. induction ranks as [|r ranks IH]; intros seen H; cbn in H.
  { split; [constructor|]. intros x Hx. by apply elem_of_nil in Hx. }
  case_bool_decide as H1; [done|]. case_bool_decide as H2; [done|].
  destruct (IH _ H) as [IH1 IH2]. split.
  - constructor; [|done]. intros Hr. destruct (IH2 _ Hr) as [Hn _]. set_solver.
  - intros x [->|Hx]%elem_of_cons; [split; [done|by apply not_eq_None_Some]|].
    destruct (IH2 x Hx). split; [set_solver|done].
Qed.

(** Distinct keys of a map, as many as it has, are all of them. *)
Lemma all_keys {V} (m : gmap bytes V) (l : list bytes) :
  NoDup l -> (forall x, x ∈ l -> is_Some (m !! x)) -> length l = size m -> l ≡ₚ (map_to_list m).*1.
Proof.
  intros Hn Hi Hl. apply submseteq_length_Permutation.
  - apply NoDup_submseteq; [done|]. intros x Hx. destruct (Hi x Hx) as [v Hv].
    apply list_elem_of_fmap. exists (x, v). split; [done|]. by apply elem_of_map_to_list.
  - by rewrite length_fmap, length_map_to_list, Hl.
Qed.

Lemma DecodeMonMap_post data limits :
  okP (fun m => monmap_ok m /\ Z.of_nat (size (mm_monitors m)) <= ml_MaxMonitors limits)
    (DecodeMonMap data limits).
Proof.
  unfold DecodeMonMap. destruct (_ || _); [done|].
  generalize (NewDecoder data (mkLimits (ml_MaxBytes limits))).
  match goal with |- forall d, ?P (fst (?m d)) => change (yields m P) end.
  eapply yields_bind; [apply yields_any|intros [version payload] _]. ysteps.
  eapply yields_try with (Q := fun m => map_Forall (fun name monitor => mo_Name monitor = name) (mm_monitors m) /\
    mm_ranks m ≡ₚ (map_to_list (mm_monitors m)).*1 /\ len (mm_ranks m) <= ml_MaxMonitors limits /\
    0 <= ut_Nanoseconds (mm_lastChanged m) /\ 0 <= ut_Nanoseconds (mm_created m)).
  - apply yields_child. yany. ystep.
    assert (yields decodeUTime (fun t => 0 <= ut_Nanoseconds t)) as HU.
    { unfold decodeUTime. ysteps. apply yields_ret. cbn. unfold inU in *. lia. }
    eapply yields_bind; [exact HU|intros lastChanged Hlast].
    eapply yields_bind; [exact HU|intros created Hcreated]. ysteps.
    eapply yields_try with (Q := map_Forall (fun name monitor => mo_Name monitor = name)).
    { apply yields_loop; [apply map_Forall_empty|]. intros s Hs. unfold decode_monitor_entry.
      yany. ysteps. apply insert_new_post. intros _. bsplit. apply map_Forall_insert_2; [|done].
      symmetry. by eapply bool_decide_eq_true. }
    intros monitors Hmon. ysteps. eapply yields_try with (Q := fun _ => check_ranks monitors ∅ a5 = Ok tt).
    { apply yields_ret. destruct (check_ranks monitors ∅ a5) as [[]| |] eqn:E; try done.
      exfalso. clear -E. revert E. generalize (∅ : gset bytes). induction a5 as [|r l IH]; intros seen; [done|].
      cbn. case_bool_decide; [done|]. case_bool_decide; [done|]. apply IH. }
    intros _ Hranks. apply check_ranks_sound in Hranks as [Hnd Hin]. bsplit. yany.
    eapply yields_try with (Q := fun _ => True).
    { apply yields_if; intros _; [|by apply yields_ok]. ysteps. by apply yields_ok. }
    intros [[removed strategy] leaders] _. eapply yields_try with (Q := fun _ => True).
    { apply yields_if; intros _; [|by apply yields_ok]. yany. yany. ysteps. by apply yields_ok. }
    intros [[mode tie] down] _. ysteps. apply yields_ok. cbn. split_and!; try done.
    apply all_keys; [done|intros x Hx; apply Hin, Hx|unfold len in *; lia].
  - intros m (H1 & H2 & H3 & H4 & H5). ysteps. bsplit. apply yields_ok. split; [split_and!; try done; lia|].
    unfold len in H3. rewrite H2, length_fmap, length_map_to_list in H3. done.
Qed.

(** C39. A monitor map that decodes is consistent: the decoder never panics, every
    monitor is filed under its own name, the rank list is a permutation of the
    monitor names within the caller's limit, and the timestamps are valid. *)
Theorem DecodeMonMap_consistent data limits :
  DecodeMonMap data limits <> Panic /\
  forall m, DecodeMonMap data limits = Ok m ->
    monmap_ok m /\ len (mm_ranks m) <= ml_MaxMonitors limits.
Proof.
  pose proof (DecodeMonMap_post data limits) as H.
  destruct (DecodeMonMap data limits) as [m'| |]; split; try done. intros m [= <-]. destruct H as [Hok Hsz].
  split; [done|]. destruct Hok as (_ & Hp & _). unfold len. rewrite Hp, length_fmap, length_map_to_list. done.
Qed.
