(* ===== verification/Pool.v ===== *)
(** * Pools (src/internal/maps/pool.go) *)

From stdpp Require Import base gmap list numbers sorting.
From coqutil Require Import Byte Word.LittleEndianList.
From S2P Require Import Prelude Codec Protocol MonMap.
From stdpp Require Import list.

Open Scope Z_scope.
Open Scope go_scope.

Definition PoolOptionString : Z := 0.
Definition PoolOptionInteger : Z := 1.
Definition PoolOptionDouble : Z := 2.

(** [po_Double] is the bit pattern of the float64. *)
Record PoolOption := mkPoolOption {
  po_Type : Z; po_String : bytes; po_Integer : Z; po_Double : Z }.

Record PoolSnapshot := mkPoolSnapshot { ps_ID : Z; ps_Name : bytes; ps_Timestamp : UTime }.

Definition poolTypeReplicated : Z := 1.
Definition poolTypeErasure : Z := 3.
Definition poolFlagECOverwrites : Z := 2 ^ 2.
Definition poolFlagSelfManagedSnapshots : Z := 2 ^ 13.
Definition poolFlagPoolSnapshots : Z := 2 ^ 14.
Definition poolFlagECOptimizations : Z := 2 ^ 19.

(** The array [nonprimaryShards] is the pair of its words. *)
Record Pool := mkPool {
  p_id : Z;
  p_name : bytes;
  p_poolType : Z;
  p_size : Z;
  p_minimumSize : Z;
  p_crushRule : Z;
  p_objectHash : Z;
  p_pgCount : Z;
  p_placementPGCount : Z;
  p_stripeWidth : Z;
  p_flags : Z;
  p_snapshotSequence : Z;
  p_snapshots : gmap Z PoolSnapshot;
  p_erasureCodeProfile : bytes;
  p_nonprimaryShards : Z * Z;
  p_applicationMetadata : gmap bytes (gmap bytes bytes);
  p_options : gmap Z PoolOption }.

(** The zero [Pool]. *)
Definition Pool_zero : Pool := mkPool 0 [] 0 0 0 0 0 0 0 0 0 0 ∅ [] (0, 0) ∅ ∅.

Definition with_name (name : bytes) (p : Pool) : Pool :=
  mkPool (p_id p) name (p_poolType p) (p_size p) (p_minimumSize p) (p_crushRule p) (p_objectHash p)
    (p_pgCount p) (p_placementPGCount p) (p_stripeWidth p) (p_flags p) (p_snapshotSequence p)
    (p_snapshots p) (p_erasureCodeProfile p) (p_nonprimaryShards p) (p_applicationMetadata p) (p_options p).

Definition with_id (id : Z) (p : Pool) : Pool :=
  mkPool id (p_name p) (p_poolType p) (p_size p) (p_minimumSize p) (p_crushRule p) (p_objectHash p)
    (p_pgCount p) (p_placementPGCount p) (p_stripeWidth p) (p_flags p) (p_snapshotSequence p)
    (p_snapshots p) (p_erasureCodeProfile p) (p_nonprimaryShards p) (p_applicationMetadata p) (p_options p).

(** ** Collections *)

Record Interval := mkInterval { iv_Start : Z; iv_Length : Z }.

Definition decodeIntervals (maximum : Z) : DecM (res (list Interval)) :=
  count ←? boundedCount maximum 16;
  result ← repeat_dec (Z.to_nat count)
    (start ← Dec.Uint64; length ← Dec.Uint64; mret (mkInterval start length));
  _ ←? Dec.Finish;
  ok result.

Definition consumeIntervals (maximum : Z) : DecM (res unit) :=
  _ ←? decodeIntervals maximum; ok tt.

Definition consumeUint64Set (maximum : Z) : DecM (res unit) :=
  count ←? boundedCount maximum 8;
  _ ← repeat_dec (Z.to_nat count) Dec.Uint64;
  Dec.Finish.

Definition decodeStringMap (maximum : Z) : DecM (res (gmap bytes bytes)) :=
  count ←? boundedCount maximum 8;
  result ←? loop_dec (Z.to_nat count) (fun result =>
    key ← Dec.String; value ← Dec.String;
    insert_new key value result maps_ErrMalformedMap) ∅;
  _ ←? Dec.Finish;
  ok result.

Definition decodeNestedStringMap (maximum : Z) : DecM (res (gmap bytes (gmap bytes bytes))) :=
  count ←? boundedCount maximum 8;
  result ←? loop_dec (Z.to_nat count) (fun result =>
    key ← Dec.String;
    value ←? decodeStringMap maximum;
    insert_new key value result maps_ErrMalformedMap) ∅;
  _ ←? Dec.Finish;
  ok result.

Definition skipVersioned (localVersion : Z) : DecM (res unit) :=
  '(_, payload) ← Dec.Versioned localVersion;
  _ ←? Dec.Finish;
  child payload Dec.Finish.

(** The loop of [decodeUnsignedVarint], at [index], with [n] rounds left. *)
Fixpoint varint_loop (n : nat) (index result : Z) : DecM (res Z) :=
  match n with
  | O => fail wire_ErrMalformed
  | S n =>
      value ← Dec.Uint8;
      _ ←? Dec.Finish;
      if Z.land value 0x80 =? 0 then
        if (index =? 9) && (1 <? value) then fail wire_ErrMalformed
        else ok (Z.lor result (u64 (Z.shiftl value (7 * index))))
      else varint_loop n (index + 1) (Z.lor result (u64 (Z.shiftl (Z.land value 0x7f) (7 * index))))
  end.

Definition decodeUnsignedVarint : DecM (res Z) := varint_loop 10 0 0.

Definition decode_option (version : Z) (result : gmap Z PoolOption) : DecM (res (gmap Z PoolOption)) :=
  key ← Dec.Int32;
  optionType ← Dec.Int32;
  option ←? (
    if optionType =? PoolOptionString then
      s ← Dec.String; ok (mkPoolOption optionType s 0 0)
    else if optionType =? PoolOptionInteger then
      i ← (if 2 <=? version then Dec.Int64 else Dec.Int32); ok (mkPoolOption optionType [] i 0)
    else if optionType =? PoolOptionDouble then
      d ← Dec.Uint64; ok (mkPoolOption optionType [] 0 d)
    else fail wire_ErrUnsupportedVersion);
  insert_new key option result maps_ErrMalformedMap.

Definition decodePoolOptions (limits : MapLimits) : DecM (res (gmap Z PoolOption)) :=
  '(version, payload) ← Dec.Versioned 2;
  _ ←? Dec.Finish;
  if version <? 1 then fail wire_ErrUnsupportedVersion
  else child payload (
    count ←? boundedCount (ml_MaxCollectionEntries limits) 8;
    result ←? loop_dec (Z.to_nat count) (decode_option version) ∅;
    _ ←? Dec.Finish;
    ok result).

(** The body of the loop of [decodePoolSnapshots], with the set [names]. *)
Definition decode_snapshot (acc : gmap Z PoolSnapshot * gset bytes)
    : DecM (res (gmap Z PoolSnapshot * gset bytes)) :=
  let '(result, names) := acc in
  key ← Dec.Uint64;
  '(version, payload) ← Dec.Versioned 2;
  _ ←? Dec.Finish;
  if version <? 2 then fail wire_ErrUnsupportedVersion
  else
    snapshot ←? child payload (
      id ← Dec.Uint64; timestamp ← decodeUTime; name ← Dec.String;
      _ ←? Dec.Finish;
      ok (mkPoolSnapshot id name timestamp));
    if negb (key =? ps_ID snapshot) then fail maps_ErrMalformedMap
    else if bool_decide (is_Some (result !! key)) then fail maps_ErrMalformedMap
    else if bool_decide (ps_Name snapshot ∈ names) then fail maps_ErrMalformedMap
    else ok (<[key := snapshot]> result, {[ps_Name snapshot]} ∪ names).

Definition decodePoolSnapshots (limits : MapLimits) : DecM (res (gmap Z PoolSnapshot)) :=
  count ←? boundedCount (ml_MaxCollectionEntries limits) 14;
  '(result, _) ←? loop_dec (Z.to_nat count) decode_snapshot (∅, ∅);
  _ ←? Dec.Finish;
  ok result.

(** ** decodePool *)

(** [if cond { read() }], the value dropped. *)
Definition skip_if {A} (cond : bool) (read : DecM A) : DecM unit :=
  if cond then _ ← read; mret tt else mret tt.

Definition try_if (cond : bool) (read : DecM (res unit)) : DecM (res unit) :=
  if cond then read else ok tt.

Definition decodePool (limits : MapLimits) : DecM (res Pool) :=
  '(version, payload) ← Dec.Versioned 32;
  _ ←? Dec.Finish;
  if version <? 5 then fail wire_ErrUnsupportedVersion
  else child payload (
    poolType ← Dec.Uint8;
    size ← Dec.Uint8;
    crushRule ← Dec.Uint8;
    objectHash ← Dec.Uint8;
    pgCount ← Dec.Uint32;
    placementPGCount ← Dec.Uint32;
    _ ← repeat_dec 3 Dec.Uint32;
    snapshotSequence ← Dec.Uint64;
    _ ← Dec.Uint32;
    snapshots ←? decodePoolSnapshots limits;
    _ ←? consumeIntervals (ml_MaxCollectionEntries limits);
    _ ← Dec.Uint64;
    flags ← (if 4 <=? version then flags ← Dec.Uint64; _ ← Dec.Uint32; mret flags else mret 0);
    minimumSize ← (if 7 <=? version then Dec.Uint8 else mret (u8 (size - size / 2)));
    _ ← skip_if (8 <=? version) (repeat_dec 2 Dec.Uint64);
    _ ←? try_if (9 <=? version) (
      _ ←? consumeUint64Set (ml_MaxCollectionEntries limits);
      _ ← Dec.Int64; _ ← Dec.Uint8; _ ← Dec.Int64; _ ← Dec.Int64; ok tt);
    _ ←? try_if (10 <=? version) (_ ←? decodeStringMap (ml_MaxCollectionEntries limits); ok tt);
    _ ←? try_if (11 <=? version) (
      _ ←? skipVersioned 1; _ ← Dec.Uint32; _ ← Dec.Uint32; ok tt);
    stripeWidth ← (if 12 <=? version then Dec.Uint32 else mret 0);
    _ ← skip_if (13 <=? version) (_ ← repeat_dec 2 Dec.Uint64; repeat_dec 4 Dec.Uint32);
    profile ← (if 14 <=? version then Dec.String else mret []);
    _ ← skip_if (15 <=? version) Dec.Uint32;
    _ ← skip_if (16 <=? version) Dec.Uint32;
    _ ← skip_if (17 <=? version) Dec.Uint64;
    _ ← skip_if (19 <=? version) Dec.Uint32;
    _ ← skip_if (20 <=? version) Dec.Uint32;
    _ ← skip_if (21 <=? version) Dec.Bool;
    _ ← skip_if (22 <=? version) Dec.Bool;
    _ ← skip_if (23 <=? version) (repeat_dec 2 Dec.Uint32);
    options ←? (if 24 <=? version then decodePoolOptions limits else ok ∅);
    _ ← skip_if (25 <=? version) Dec.Uint32;
    metadata ←? (if 26 <=? version
      then decodeNestedStringMap (ml_MaxCollectionEntries limits) else ok ∅);
    _ ← skip_if (27 <=? version) decodeUTime;
    _ ← skip_if (28 <=? version) (_ ← repeat_dec 6 Dec.Uint32; Dec.Uint8);
    _ ←? try_if (29 <=? version) (skipVersioned 1);
    _ ← skip_if (version =? 30) (_ ← repeat_dec 3 Dec.Uint32; Dec.Int32);
    _ ← skip_if (31 <=? version) (
      present ← Dec.Bool; skip_if present (repeat_dec 4 Dec.Uint32));
    shards ←? (if 32 <=? version then
        first ←? decodeUnsignedVarint; second ←? decodeUnsignedVarint; ok (first, second)
      else ok (0, 0));
    _ ←? Dec.Finish;
    ok (mkPool 0 [] poolType size minimumSize crushRule objectHash pgCount placementPGCount
      stripeWidth flags snapshotSequence snapshots profile shards metadata options)).

(** ** Accessors *)

Definition UsesPoolSnapshots (p : Pool) : bool := negb (Z.land (p_flags p) poolFlagPoolSnapshots =? 0).
Definition UsesSelfManagedSnapshots (p : Pool) : bool :=
  negb (Z.land (p_flags p) poolFlagSelfManagedSnapshots =? 0).
Definition IsErasureCoded (p : Pool) : bool := p_poolType p =? poolTypeErasure.
Definition AllowsECOverwrites (p : Pool) : bool := negb (Z.land (p_flags p) poolFlagECOverwrites =? 0).
Definition RequiresAlignment (p : Pool) : bool := IsErasureCoded p && negb (AllowsECOverwrites p).

(** [Snapshots], for the iteration order [order] of the map of snapshots;
    [sort.Slice] sorts by the ID. *)
Definition snapshot_le (a b : PoolSnapshot) : Prop := ps_ID a <= ps_ID b.

#[export] Instance snapshot_le_dec : RelDecision snapshot_le.
Proof. intros a b. unfold snapshot_le. apply _. Defined.

Definition Snapshots_in (order : list (Z * PoolSnapshot)) : list PoolSnapshot :=
  merge_sort snapshot_le order.*2.

(** ** Varints *)

(** The base-128 encoding of a number, least significant group first. *)
Fixpoint varint_bytes (fuel : nat) (v : Z) : bytes :=
  match fuel with
  | O => []
  | S fuel =>
      if v <? 128 then [byte.of_Z v]
      else byte.of_Z (128 + v mod 128) :: varint_bytes fuel (v / 128)
  end.

Lemma lor_disjoint a b n : inU n a -> 0 <= n -> 0 <= b -> Z.lor a (Z.shiftl b n) = a + b * 2 ^ n.
Proof.
  intros Ha Hn Hb. rewrite <- Z.shiftl_mul_pow2 by done. symmetry. apply Z.add_nocarry_lor.
  apply Z.bits_inj'. intros i Hi. rewrite Z.land_spec, Z.bits_0, Z.shiftl_spec by done.
  destruct (Z.lt_ge_cases i n); [by rewrite (Z.testbit_neg_r b) by lia; rewrite andb_false_r|].
  by rewrite (inU_testbit n a).
Qed.

Lemma land_128 v : inU 8 v -> (Z.land v 0x80 =? 0) = (v <? 128).
Proof.
  intros Hv. assert (Z.land v 0x80 = 128 * (v / 128)) as ->.
  { apply Z.bits_inj'. intros i Hi. rewrite Z.land_spec. change 0x80 with (2 ^ 7).
    rewrite Z.pow2_bits_eqb, (Z.mul_comm (2 ^ 7)), <- Z.shiftl_mul_pow2, Z.shiftl_spec by lia.
    rewrite <- Z.shiftr_div_pow2 by lia. destruct (Z.lt_ge_cases i 7).
    - rewrite (Z.testbit_neg_r _ (i - 7)) by lia. destruct (Z.eqb_spec 7 i); [lia|]. apply andb_false_r.
    - rewrite Z.shiftr_spec by lia. replace (i - 7 + 7) with i by lia.
      destruct (Z.eqb_spec 7 i); [apply andb_true_r|]. rewrite (inU_testbit 8 v i) by (done || lia). done. }
  unfold inU in Hv. destruct (Z.ltb_spec v 128).
  - rewrite Z.div_small by lia. done.
  - apply Z.eqb_neq. pose proof (Z.div_le_lower_bound v 128 1). lia.
Qed.

Lemma land_7f v : Z.land v 0x7f = v mod 128.
Proof. apply (Z.land_ones v 7). lia. Qed.

Lemma varint_parses max n index result v :
  Z.of_nat n = 10 - index -> 0 <= index -> inU (7 * index) result ->
  0 <= v -> v * 2 ^ (7 * index) < 2 ^ 64 -> (0 < n)%nat ->
  parses max (varint_loop n index result) (varint_bytes n v) (Ok (result + v * 2 ^ (7 * index))).
Proof.
  revert index result v. induction n as [|n IH]; intros index result v Hn Hi Hr H0 Hv Hpos; [lia|].
  cbn [varint_loop varint_bytes].
  assert (0 < 2 ^ (7 * index)) as Hpow by lia.
  destruct (Z.ltb_spec v 128).
  - apply (parses_bind _ _ _ [_] [] v); [apply parses_u8; unfold inU; lia|].
    apply parses_finish_then. rewrite land_128 by (unfold inU; lia).
    destruct (Z.ltb_spec v 128); [|lia].
    assert ((index =? 9) && (1 <? v) = false) as ->.
    { destruct (Z.eqb_spec index 9) as [->|]; [|done]. cbn [andb]. apply Z.ltb_ge.
      change (2 ^ (7 * 9)) with (2 ^ 63) in Hv. lia. }
    unfold ok. rewrite wrapU_id by (unfold inU; rewrite Z.shiftl_mul_pow2; lia).
    rewrite lor_disjoint by (done || lia). apply parses_ret.
  - assert (index < 9) as Hi9.
    { destruct (Z.lt_ge_cases index 9); [done|]. assert (index = 9) as -> by lia.
      change (2 ^ (7 * 9)) with (2 ^ 63) in Hv. lia. }
    pose proof (Z.mod_pos_bound v 128). pose proof (Z.div_mod v 128).
    assert (v mod 128 * 2 ^ (7 * index) <= v * 2 ^ (7 * index)).
    { apply Z.mul_le_mono_nonneg_r; [lia|]. apply Z.mod_le; lia. }
    apply (parses_bind _ _ _ [_] _ (128 + v mod 128)); [apply parses_u8; unfold inU; lia|].
    apply parses_finish_then. rewrite land_128 by (unfold inU; lia).
    destruct (Z.ltb_spec (128 + v mod 128) 128); [lia|].
    rewrite land_7f. replace ((128 + v mod 128) mod 128) with (v mod 128).
    2: { rewrite <- Z.add_mod_idemp_l, Z.mod_same, Z.add_0_l, Z.mod_mod by lia. done. }
    rewrite wrapU_id by (unfold inU; rewrite Z.shiftl_mul_pow2; lia).
    rewrite lor_disjoint by (done || lia).
    assert (2 ^ (7 * (index + 1)) = 128 * 2 ^ (7 * index)) as E.
    { replace (7 * (index + 1)) with (7 + 7 * index) by lia. rewrite Z.pow_add_r by lia. done. }
    specialize (IH (index + 1) (result + v mod 128 * 2 ^ (7 * index)) (v / 128)).
    rewrite E in IH. eapply parses_eq; [apply IH|done|f_equal; nia]; try lia.
    unfold inU in *. rewrite E. nia.
Qed.

Lemma varint_post n index result :
  inU 64 result -> yields (varint_loop n index result) (okP (inU 64)).
Proof.
  revert index result. induction n as [|n IH]; intros index result Hr; [apply yields_fail|].
  cbn [varint_loop]. ysteps.
  assert (forall x, inU 64 (Z.lor result (u64 x))) as Hl by (intros x; apply inU_lor; [lia|done|by apply wrapU_range]).
  apply yields_if; intros _; [ysteps; by apply yields_ok|]. by apply IH.
Qed.

(** ** What decoding a pool guarantees *)

Lemma decodeIntervals_post maximum : yields (decodeIntervals maximum) (okP (fun l => len l <= maximum)).
Proof.
  unfold decodeIntervals. ysteps. eapply yields_bind; [apply yields_repeat, yields_any|]. intros l [Hl _].
  ysteps. apply yields_ok. unfold len. rewrite Hl. lia.
Qed.

Lemma consumeIntervals_post maximum : yields (consumeIntervals maximum) (okP (fun _ => True)).
Proof. unfold consumeIntervals. eapply yields_try; [apply decodeIntervals_post|]. intros l _. by apply yields_ok. Qed.

Lemma consumeUint64Set_post maximum : yields (consumeUint64Set maximum) (okP (fun _ => True)).
Proof. unfold consumeUint64Set. ysteps. yany. apply yields_finish. Qed.

Lemma decodeStringMap_post maximum : yields (decodeStringMap maximum) (okP (fun _ => True)).
Proof.
  unfold decodeStringMap. ysteps. eapply yields_try with (Q := fun _ => True).
  - apply yields_loop; [done|]. intros s _. yany. yany. by apply insert_new_post.
  - intros l _. ysteps. by apply yields_ok.
Qed.

#[export] Hint Resolve decodeIntervals_post consumeIntervals_post consumeUint64Set_post
  decodeStringMap_post : yields.

Lemma decodeNestedStringMap_post maximum : yields (decodeNestedStringMap maximum) (okP (fun _ => True)).
Proof.
  unfold decodeNestedStringMap. ysteps. eapply yields_try with (Q := fun _ => True).
  - apply yields_loop; [done|]. intros s _. yany. ysteps. by apply insert_new_post.
  - intros l _. ysteps. by apply yields_ok.
Qed.

Lemma skipVersioned_post v : yields (skipVersioned v) (okP (fun _ => True)).
Proof.
  unfold skipVersioned. eapply yields_bind; [apply yields_any|intros [? ?] _]. ysteps.
  apply yields_child, yields_finish.
Qed.

Lemma decodeUnsignedVarint_post : yields decodeUnsignedVarint (okP (inU 64)).
Proof. by apply varint_post. Qed.

Lemma decodePoolOptions_post limits : yields (decodePoolOptions limits) (okP (fun _ => True)).
Proof.
  unfold decodePoolOptions. eapply yields_bind; [apply yields_any|intros [v p] _]. ysteps. apply yields_child.
  ysteps. eapply yields_try with (Q := fun _ => True).
  - apply yields_loop; [done|]. intros s _. unfold decode_option. ysteps.
    eapply yields_try with (Q := fun _ => True); [|intros o _; by apply insert_new_post].
    apply yields_if; intros _; [yany; by apply yields_ok|].
    apply yields_if; intros _; [yany; by apply yields_ok|].
    apply yields_if; intros _; [yany; by apply yields_ok|apply yields_fail].
  - intros m _. ysteps. by apply yields_ok.
Qed.

(** Snapshots are filed under their IDs, and their names are distinct. *)
Definition snapshots_ok (m : gmap Z PoolSnapshot) : Prop :=
  map_Forall (fun id s => ps_ID s = id) m /\
  forall i j s t, m !! i = Some s -> m !! j = Some t -> ps_Name s = ps_Name t -> i = j.

Lemma snapshots_ok_insert m key s :
  snapshots_ok m -> ps_ID s = key -> (forall i t, m !! i = Some t -> ps_Name t <> ps_Name s) ->
  snapshots_ok (<[key := s]> m).
Proof.
  intros [H1 H2] Hk Hn. split; [by apply map_Forall_insert_2|].
  intros i j a b Hi Hj He. apply lookup_insert_Some in Hi as [[<- <-]|[? Hi]];
    apply lookup_insert_Some in Hj as [[<- <-]|[? Hj]]; try done.
  - by destruct (Hn j b).
  - by destruct (Hn i a).
  - by eapply H2.
Qed.

Lemma decodePoolSnapshots_post limits : yields (decodePoolSnapshots limits) (okP snapshots_ok).
Proof.
  unfold decodePoolSnapshots. ysteps.
  eapply yields_try with (Q := fun '(m, names) => snapshots_ok m /\
    forall i s, m !! i = Some s -> ps_Name s ∈ (names : gset bytes)).
  - apply yields_loop.
    { split; [split; [apply map_Forall_empty|]|]; intros *; by rewrite lookup_empty. }
    intros [m names] [Hm Hns]. unfold decode_snapshot. ysteps.
    eapply yields_bind; [apply yields_any|intros [v p] _]. ysteps.
    eapply yields_try; [apply yields_child, (yields_impl _ (okP (fun _ => True))); [|done]|].
    { ysteps. yany. ysteps. by apply yields_ok. }
    intros s _. ysteps. bsplit.
    match goal with H : bool_decide (_ ∈ _) = false |- _ => apply bool_decide_eq_false in H; rename H into Hfresh end.
    match goal with H : (_ =? _) = true |- _ => apply Z.eqb_eq in H; rename H into Hkey end.
    apply yields_ok. split.
    + apply snapshots_ok_insert; [done|done|]. intros i t Hi E. apply Hfresh. rewrite <- E. by eapply Hns.
    + intros i t [[<- <-]|[_ Hi]]%lookup_insert_Some; [set_solver|]. specialize (Hns _ _ Hi). set_solver.
  - intros [m names] [Hm _]. ysteps. by apply yields_ok.
Qed.

#[export] Hint Resolve decodeNestedStringMap_post skipVersioned_post decodeUnsignedVarint_post
  decodePoolOptions_post decodePoolSnapshots_post : yields.

(** The fields the placement code uses are in range. *)
Definition pool_ok (p : Pool) : Prop :=
  inU 8 (p_poolType p) /\ inU 8 (p_size p) /\ inU 8 (p_crushRule p) /\ inU 32 (p_pgCount p) /\
  inU 32 (p_placementPGCount p) /\ inU 64 (fst (p_nonprimaryShards p)) /\
  inU 64 (snd (p_nonprimaryShards p)) /\ snapshots_ok (p_snapshots p).

Lemma try_if_post cond read : yields read (okP (fun _ => True)) -> yields (try_if cond read) (okP (fun _ => True)).
Proof. destruct cond; [done|]. intros _. by apply yields_ok. Qed.

Lemma decodePool_post limits : yields (decodePool limits) (okP (fun p => pool_ok p /\ p_name p = [])).
Proof.
  unfold decodePool. eapply yields_bind; [apply yields_any|intros [version payload] _]. ysteps.
  apply yields_child. ysteps. yany. ysteps. do 3 yany.
  eapply yields_try; [apply try_if_post; ysteps; by apply yields_ok|intros _ _].
  eapply yields_try; [apply try_if_post; ysteps; by apply yields_ok|intros _ _].
  eapply yields_try; [apply try_if_post; ysteps; by apply yields_ok|intros _ _].
  do 11 yany.
  eapply yields_try with (Q := fun _ => True).
  { apply yields_if; intros _; [apply decodePoolOptions_post|by apply yields_ok]. }
  intros options _. yany. eapply yields_try with (Q := fun _ => True).
  { apply yields_if; intros _; [apply decodeNestedStringMap_post|by apply yields_ok]. }
  intros metadata _. do 2 yany.
  eapply yields_try; [apply try_if_post, skipVersioned_post|intros _ _]. do 2 yany.
  eapply yields_try with (Q := fun s => inU 64 (fst s) /\ inU 64 (snd s)).
  { apply yields_if; intros _; [ysteps; by apply yields_ok|by apply yields_ok]. }
  intros shards [Hs1 Hs2]. ysteps. by apply yields_ok.
Qed.

(** ** Properties *)

(** Variable-length integers: every 64-bit value is read back from its
    base-128 encoding, consuming exactly its bytes, and whatever the input the
    decoder returns an error or a value of 64 bits. *)
Theorem decodeUnsignedVarint_roundtrip max v r :
  inU 64 v ->
  let data := varint_bytes 10 v ++ r in
  (exists d, decodeUnsignedVarint (NewDecoder data (mkLimits max)) = (Ok v, d) /\ rest d = r) /\
  forall input, okP (inU 64) (fst (decodeUnsignedVarint input)).
Proof.
  intros Hv data. split; [|apply decodeUnsignedVarint_post].
  destruct (varint_parses max 10 0 0 v) with (d := NewDecoder data (mkLimits max)) (r := r)
    as [E (_ & _ & _ & Hr)]; try done; [unfold inU in Hv; lia..|apply ready_new|].
  rewrite Z.mul_0_r, Z.pow_0_r, Z.mul_1_r in E. by eexists.
Qed.

Lemma decodeUnsignedVarint_roundtrip_witness :
  let data := varint_bytes 10 (2 ^ 64 - 1) ++ [Byte.x2a] in
  (exists d, decodeUnsignedVarint (NewDecoder data (mkLimits 64)) = (Ok (2 ^ 64 - 1), d) /\ rest d = [Byte.x2a]) /\
  forall input, okP (inU 64) (fst (decodeUnsignedVarint input)).
Proof. apply (decodeUnsignedVarint_roundtrip 64 (2 ^ 64 - 1) [Byte.x2a]). unfold inU. lia. Defined.

(** [Snapshots] returns every snapshot of the pool once, in increasing ID
    order, and the same list whatever the iteration order of the Go map. *)
Theorem Snapshots_sorted (m : gmap Z PoolSnapshot) order :
  snapshots_ok m -> order ≡ₚ map_to_list m ->
  Snapshots_in order = Snapshots_in (map_to_list m) /\
  Snapshots_in order ≡ₚ (map_to_list m).*2 /\
  StronglySorted (fun a b => ps_ID a <= ps_ID b) (Snapshots_in order).
Proof.
  intros [Hid _] Ho.
  assert (Transitive snapshot_le) as HT by (intros a b c; unfold snapshot_le; lia).
  assert (Total snapshot_le) as Htot by (intros a b; unfold snapshot_le; lia).
  assert (Snapshots_in order ≡ₚ (map_to_list m).*2) as HP.
  { unfold Snapshots_in. by rewrite merge_sort_Permutation, Ho. }
  split; [|split; [done|by apply (StronglySorted_merge_sort snapshot_le)]].
  apply (StronglySorted_unique_strong snapshot_le).
  - intros x y Hx Hy H1 H2. rewrite HP in Hx. unfold Snapshots_in in Hy. rewrite merge_sort_Permutation in Hy.
    apply list_elem_of_fmap in Hx as ([i x'] & -> & Hx), Hy as ([j y'] & -> & Hy). cbn in *.
    apply elem_of_map_to_list in Hx, Hy. pose proof (Hid _ _ Hx). pose proof (Hid _ _ Hy).
    unfold snapshot_le in *. assert (i = j) as -> by lia. congruence.
  - by apply (StronglySorted_merge_sort snapshot_le).
  - by apply (StronglySorted_merge_sort snapshot_le).
  - rewrite HP. unfold Snapshots_in. by rewrite merge_sort_Permutation.
Qed.

Definition sample_snapshots : gmap Z PoolSnapshot :=
  {[ 7 := mkPoolSnapshot 7 [Byte.x61] (mkUTime 1 2); 3 := mkPoolSnapshot 3 [Byte.x62] (mkUTime 1 2) ]}.

Lemma sample_snapshots_ok : snapshots_ok sample_snapshots.
Proof.
  apply snapshots_ok_insert; [|done|].
  - split; [by apply map_Forall_singleton|]. intros i j a b [<- <-]%lookup_singleton_Some [<- <-]%lookup_singleton_Some. done.
  - intros i t [<- <-]%lookup_singleton_Some. done.
Qed.

Lemma Snapshots_sorted_witness :
  let order := [(7, mkPoolSnapshot 7 [Byte.x61] (mkUTime 1 2)); (3, mkPoolSnapshot 3 [Byte.x62] (mkUTime 1 2))] in
  Snapshots_in order = Snapshots_in (map_to_list sample_snapshots) /\
  Snapshots_in order ≡ₚ (map_to_list sample_snapshots).*2 /\
  StronglySorted (fun a b => ps_ID a <= ps_ID b) (Snapshots_in order).
Proof.
  intros order. apply (Snapshots_sorted sample_snapshots order); [apply sample_snapshots_ok|].
  unfold sample_snapshots, order.
  rewrite map_to_list_insert, map_to_list_singleton by (by rewrite lookup_singleton_ne). done.
Defined.
