(* ===== verification/OSDMap.v ===== *)
(** * OSD maps and their increments on the wire
    (src/internal/maps/osdmap.go and the decoders of incremental.go) *)

From stdpp Require Import base gmap list numbers.
From coqutil Require Import Byte Word.LittleEndianList.
From S2P Require Import Prelude Codec Crc Protocol MonMap Pool.
From stdpp Require Import list.

Open Scope Z_scope.
Open Scope go_scope.

Record PG := mkPG { pg_Pool : Z; pg_Seed : Z; pg_Preferred : Z }.

#[export] Instance PG_eq_dec : EqDecision PG.
Proof. solve_decision. Defined.

#[export] Instance PG_countable : Countable PG.
Proof.
  apply (inj_countable' (fun p => (pg_Pool p, pg_Seed p, pg_Preferred p))
    (fun '(a, b, c) => mkPG a b c)). by intros [].
Defined.

Record OSDRemap := mkOSDRemap { rm_From : Z; rm_To : Z }.

(** [placementState] is the CRUSH payload its state was made for; [None] is
    the nil pointer. *)
Record OSDMap := mkOSDMap {
  om_fsid : bytes;
  om_epoch : Z;
  om_created : UTime;
  om_modified : UTime;
  om_pools : gmap Z Pool;
  om_nameToID : gmap bytes Z;
  om_poolMax : Z;
  om_flags : Z;
  om_maxOSD : Z;
  om_osdState : list Z;
  om_osdWeight : list Z;
  om_clientAddresses : list (list EntityAddr);
  om_pgTemp : gmap PG (list Z);
  om_primaryTemp : gmap PG Z;
  om_primaryAffinity : list Z;
  om_crushData : bytes;
  om_placementState : option bytes;
  om_erasureCodeProfiles : gmap bytes (gmap bytes bytes);
  om_pgUpmap : gmap PG (list Z);
  om_pgUpmapItems : gmap PG (list OSDRemap);
  om_crushVersion : Z;
  om_newRemovedSnapshots : gmap Z (list Interval);
  om_newPurgedSnapshots : gmap Z (list Interval);
  om_lastUpChange : UTime;
  om_lastInChange : UTime;
  om_pgUpmapPrimaries : gmap PG Z;
  om_crc : Z;
  om_crcVerified : bool;
  om_appliedIncremental : bool }.

Definition defaultPrimaryAffinity : Z := 0x10000.
Definition osdStateExists : Z := 2 ^ 0.
Definition osdStateUp : Z := 2 ^ 1.
Definition osdStateDestroyed : Z := 2 ^ 7.
Definition osdStateStop : Z := 2 ^ 12.
Definition osdMapFlagSortBitwise : Z := 2 ^ 15.

(** ** Field decoders *)

Definition validateOSDMapLimits (limits : MapLimits) : res unit :=
  if (ml_MaxBytes limits =? 0) || (ml_MaxPools limits =? 0) || (ml_MaxOSDs limits =? 0)
     || (ml_MaxAddresses limits =? 0) || (ml_MaxPGMappings limits =? 0)
     || (ml_MaxCollectionEntries limits =? 0)
  then Err wire_ErrLimitExceeded else Ok tt.

Definition decodeUint32Vector (maximum : Z) : DecM (res (list Z)) :=
  count ←? boundedCount maximum 4;
  result ← repeat_dec (Z.to_nat count) Dec.Uint32;
  _ ←? Dec.Finish;
  ok result.

Definition decodeAddressVector (limits : MapLimits) : DecM (res (list (list EntityAddr))) :=
  count ←? boundedCount (ml_MaxOSDs limits) 5;
  result ←? loop_dec (Z.to_nat count) (fun result =>
    addresses ←? DecodeEntityAddrVec (ml_MaxAddresses limits);
    ok (result ++ [addresses])) [];
  _ ←? Dec.Finish;
  ok result.

Definition decodePG : DecM (res PG) :=
  version ← Dec.Uint8;
  if negb (version =? 1) then fail wire_ErrUnsupportedVersion
  else
    pool ← Dec.Uint64; seed ← Dec.Uint32; preferred ← Dec.Int32;
    _ ←? Dec.Finish;
    ok (mkPG pool seed preferred).

Definition decodePGVectorMap (limits : MapLimits) : DecM (res (gmap PG (list Z))) :=
  count ←? boundedCount (ml_MaxPGMappings limits) 21;
  result ←? loop_dec (Z.to_nat count) (fun result =>
    pg ←? decodePG;
    inner ←? boundedCount (ml_MaxOSDs limits) 4;
    values ← repeat_dec (Z.to_nat inner) Dec.Int32;
    insert_new pg values result maps_ErrMalformedMap) ∅;
  _ ←? Dec.Finish;
  ok result.

Definition decodePGIntMap (limits : MapLimits) : DecM (res (gmap PG Z)) :=
  count ←? boundedCount (ml_MaxPGMappings limits) 21;
  result ←? loop_dec (Z.to_nat count) (fun result =>
    pg ←? decodePG;
    value ← Dec.Int32;
    insert_new pg value result maps_ErrMalformedMap) ∅;
  _ ←? Dec.Finish;
  ok result.

Definition decodePGRemapItems (limits : MapLimits) : DecM (res (gmap PG (list OSDRemap))) :=
  count ←? boundedCount (ml_MaxPGMappings limits) 21;
  result ←? loop_dec (Z.to_nat count) (fun result =>
    pg ←? decodePG;
    inner ←? boundedCount (ml_MaxOSDs limits) 8;
    values ← repeat_dec (Z.to_nat inner) (from ← Dec.Int32; to ← Dec.Int32; mret (mkOSDRemap from to));
    insert_new pg values result maps_ErrMalformedMap) ∅;
  _ ←? Dec.Finish;
  ok result.

Definition decodePoolIntervalMap (limits : MapLimits) : DecM (res (gmap Z (list Interval))) :=
  count ←? boundedCount (ml_MaxPools limits) 12;
  result ←? loop_dec (Z.to_nat count) (fun result =>
    poolID ← Dec.Int64;
    intervals ←? decodeIntervals (ml_MaxCollectionEntries limits);
    insert_new poolID intervals result maps_ErrMalformedMap) ∅;
  _ ←? Dec.Finish;
  ok result.

Definition decodePGSet (limits : MapLimits) : DecM (res (list PG)) :=
  count ←? boundedCount (ml_MaxPGMappings limits) 17;
  result ←? loop_dec (Z.to_nat count) (fun result =>
    pg ←? decodePG;
    if bool_decide (pg ∈ result) then fail maps_ErrMalformedMap else ok (result ++ [pg])) [];
  _ ←? Dec.Finish;
  ok result.

Definition decodeIntAddressMap (limits : MapLimits) : DecM (res (gmap Z (list EntityAddr))) :=
  count ←? boundedCount (ml_MaxOSDs limits) 9;
  result ←? loop_dec (Z.to_nat count) (fun result =>
    osd ← Dec.Int32;
    addresses ←? DecodeEntityAddrVec (ml_MaxAddresses limits);
    insert_new osd addresses result maps_ErrMalformedMap) ∅;
  _ ←? Dec.Finish;
  ok result.

Definition decodeIntUintMap (maximum : Z) : DecM (res (gmap Z Z)) :=
  count ←? boundedCount maximum 8;
  result ←? loop_dec (Z.to_nat count) (fun result =>
    key ← Dec.Int32; value ← Dec.Uint32;
    insert_new key value result maps_ErrMalformedMap) ∅;
  _ ←? Dec.Finish;
  ok result.

(** The loop over the pools, also that of an increment. *)
Definition decode_pool_entry (limits : MapLimits) (pools : gmap Z Pool) : DecM (res (gmap Z Pool)) :=
  id ← Dec.Int64;
  pool ←? decodePool limits;
  insert_new id (with_id id pool) pools maps_ErrMalformedMap.

(** The loop over the pool names of a full map. *)
Definition decode_name_entry (acc : gmap Z Pool * gmap bytes Z) : DecM (res (gmap Z Pool * gmap bytes Z)) :=
  let '(pools, nameToID) := acc in
  id ← Dec.Int64; name ← Dec.String;
  match pools !! id with
  | None => fail maps_ErrMalformedMap
  | Some pool =>
      match nameToID !! name with
      | Some _ => fail maps_ErrMalformedMap
      | None => ok (<[id := with_name name pool]> pools, <[name := id]> nameToID)
      end
  end.

Definition decodeOSDMapClient (limits : MapLimits) : DecM (res OSDMap) :=
  fsid ← Dec.Raw 16;
  epoch ← Dec.Uint32;
  created ← decodeUTime;
  modified ← decodeUTime;
  poolCount ←? boundedCount (ml_MaxPools limits) 14;
  pools ←? loop_dec (Z.to_nat poolCount) (decode_pool_entry limits) ∅;
  nameCount ←? boundedCount (ml_MaxPools limits) 12;
  '(pools, nameToID) ←? loop_dec (Z.to_nat nameCount) decode_name_entry (pools, ∅);
  if negb (bool_decide (size nameToID = size pools)) then fail maps_ErrMalformedMap
  else
  poolMax ← Dec.Int32;
  flags ← Dec.Uint32;
  maxOSD ← Dec.Int32;
  osdState ←? decodeUint32Vector (ml_MaxOSDs limits);
  osdWeight ←? decodeUint32Vector (ml_MaxOSDs limits);
  clientAddresses ←? decodeAddressVector limits;
  pgTemp ←? decodePGVectorMap limits;
  primaryTemp ←? decodePGIntMap limits;
  primaryAffinity ←? decodeUint32Vector (ml_MaxOSDs limits);
  if (maxOSD <? 0) || (ml_MaxOSDs limits <? maxOSD) || negb (len osdState =? maxOSD)
     || negb (len osdWeight =? maxOSD) || negb (len clientAddresses =? maxOSD)
     || (negb (len primaryAffinity =? 0) && negb (len primaryAffinity =? maxOSD))
  then fail maps_ErrMalformedMap
  else
  crushData ← Dec.Bytes;
  erasureCodeProfiles ←? decodeNestedStringMap (ml_MaxCollectionEntries limits);
  pgUpmap ←? decodePGVectorMap limits;
  pgUpmapItems ←? decodePGRemapItems limits;
  crushVersion ← Dec.Uint32;
  newRemovedSnapshots ←? decodePoolIntervalMap limits;
  newPurgedSnapshots ←? decodePoolIntervalMap limits;
  lastUpChange ← decodeUTime;
  lastInChange ← decodeUTime;
  pgUpmapPrimaries ←? decodePGIntMap limits;
  _ ←? Dec.Finish;
  ok (mkOSDMap (copy_into_zeros 16 fsid) epoch created modified pools nameToID poolMax flags maxOSD
    osdState osdWeight clientAddresses pgTemp primaryTemp primaryAffinity crushData (Some crushData)
    erasureCodeProfiles pgUpmap pgUpmapItems crushVersion newRemovedSnapshots newPurgedSnapshots
    lastUpChange lastInChange pgUpmapPrimaries 0 false false).

Definition with_crc (crc : Z) (verified : bool) (m : OSDMap) : OSDMap :=
  mkOSDMap (om_fsid m) (om_epoch m) (om_created m) (om_modified m) (om_pools m) (om_nameToID m)
    (om_poolMax m) (om_flags m) (om_maxOSD m) (om_osdState m) (om_osdWeight m) (om_clientAddresses m)
    (om_pgTemp m) (om_primaryTemp m) (om_primaryAffinity m) (om_crushData m) (om_placementState m)
    (om_erasureCodeProfiles m) (om_pgUpmap m) (om_pgUpmapItems m) (om_crushVersion m)
    (om_newRemovedSnapshots m) (om_newPurgedSnapshots m) (om_lastUpChange m) (om_lastInChange m)
    (om_pgUpmapPrimaries m) crc verified (om_appliedIncremental m).

(** The CRC of a map payload, over all its bytes but the four of the CRC. *)
Definition crc_around (data : bytes) (crcOffset : Z) : Z :=
  CRC32C (CRC32C (2 ^ 32 - 1) (slice 0 crcOffset data))
    (drop (Z.to_nat (crcOffset + 4)) data).

Definition DecodeOSDMap (data : bytes) (limits : MapLimits) : res OSDMap :=
  _ ← validateOSDMapLimits limits;
  fst ((
    '(wrapperVersion, wrapper) ← Dec.Versioned 8;
    _ ←? Dec.Finish;
    if wrapperVersion <? 8 then fail wire_ErrUnsupportedVersion
    else
    result ←? child wrapper (
      '(clientVersion, client) ← Dec.Versioned 10;
      _ ←? Dec.Finish;
      if clientVersion <? 10 then fail wire_ErrUnsupportedVersion
      else
      result ←? child client (
        result ←? decodeOSDMapClient limits;
        _ ←? Dec.Finish;
        ok result);
      '(_, extended) ← Dec.Versioned 12;
      _ ←? Dec.Finish;
      _ ←? child extended Dec.Finish;
      position ← Dec.Position;
      let crcOffset := 6 + position in
      crc ← Dec.Uint32;
      _ ←? Dec.Finish;
      if len data <? crcOffset + 4 then fail wire_ErrMalformed
      else if negb (crc_around data crcOffset =? crc) then fail maps_ErrMalformedMap
      else ok (with_crc crc true result));
    _ ←? Dec.Finish;
    remaining ← Dec.Remaining;
    if negb (remaining =? 0) then fail maps_ErrMalformedMap
    else ok result) (NewDecoder data (mkLimits (ml_MaxBytes limits)))).

(** ** Increments *)

Record OSDMapIncremental := mkIncremental {
  in_fsid : bytes;
  in_epoch : Z;
  in_modified : UTime;
  in_newPoolMax : Z;
  in_newFlags : Z;
  in_fullMap : bytes;
  in_crushData : bytes;
  in_newMaxOSD : Z;
  in_newPools : gmap Z Pool;
  in_newPoolNames : gmap Z bytes;
  in_oldPools : list Z;
  in_newUpClient : gmap Z (list EntityAddr);
  in_newState : gmap Z Z;
  in_newWeight : gmap Z Z;
  in_newPGTemp : gmap PG (list Z);
  in_newPrimaryTemp : gmap PG Z;
  in_newPrimaryAffinity : gmap Z Z;
  in_newErasureProfiles : gmap bytes (gmap bytes bytes);
  in_oldErasureProfiles : list bytes;
  in_newPGUpmap : gmap PG (list Z);
  in_oldPGUpmap : list PG;
  in_newPGUpmapItems : gmap PG (list OSDRemap);
  in_oldPGUpmapItems : list PG;
  in_newRemovedSnapshots : gmap Z (list Interval);
  in_newPurgedSnapshots : gmap Z (list Interval);
  in_newLastUpChange : UTime;
  in_newLastInChange : UTime;
  in_newPGUpmapPrimaries : gmap PG Z;
  in_oldPGUpmapPrimaries : list PG;
  in_incrementalCRC : Z;
  in_fullCRC : Z }.

(** [crcs] are the two checksums [DecodeOSDMapIncremental] reads afterwards. *)
Definition decodeIncrementalClient (limits : MapLimits) : DecM (res (Z -> Z -> OSDMapIncremental)) :=
  fsid ← Dec.Raw 16;
  epoch ← Dec.Uint32;
  modified ← decodeUTime;
  newPoolMax ← Dec.Int64;
  newFlags ← Dec.Int32;
  fullMap ← Dec.Bytes;
  crushData ← Dec.Bytes;
  newMaxOSD ← Dec.Int32;
  if i32 (ml_MaxOSDs limits) <? newMaxOSD then fail wire_ErrLimitExceeded
  else
  count ←? boundedCount (ml_MaxPools limits) 14;
  newPools ←? loop_dec (Z.to_nat count) (decode_pool_entry limits) ∅;
  count ←? boundedCount (ml_MaxPools limits) 12;
  newPoolNames ←? loop_dec (Z.to_nat count) (fun names =>
    id ← Dec.Int64; name ← Dec.String;
    insert_new id name names maps_ErrMalformedMap) ∅;
  count ←? boundedCount (ml_MaxPools limits) 8;
  oldPools ←? loop_dec (Z.to_nat count) (fun old =>
    id ← Dec.Int64;
    if bool_decide (id ∈ old) then fail maps_ErrMalformedMap else ok (old ++ [id])) [];
  newUpClient ←? decodeIntAddressMap limits;
  newState ←? decodeIntUintMap (ml_MaxOSDs limits);
  newWeight ←? decodeIntUintMap (ml_MaxOSDs limits);
  newPGTemp ←? decodePGVectorMap limits;
  newPrimaryTemp ←? decodePGIntMap limits;
  newPrimaryAffinity ←? decodeIntUintMap (ml_MaxOSDs limits);
  newErasureProfiles ←? decodeNestedStringMap (ml_MaxCollectionEntries limits);
  oldErasureProfiles ←? decodeStrings (ml_MaxCollectionEntries limits);
  newPGUpmap ←? decodePGVectorMap limits;
  oldPGUpmap ←? decodePGSet limits;
  newPGUpmapItems ←? decodePGRemapItems limits;
  oldPGUpmapItems ←? decodePGSet limits;
  newRemovedSnapshots ←? decodePoolIntervalMap limits;
  newPurgedSnapshots ←? decodePoolIntervalMap limits;
  newLastUpChange ← decodeUTime;
  newLastInChange ← decodeUTime;
  newPGUpmapPrimaries ←? decodePGIntMap limits;
  oldPGUpmapPrimaries ←? decodePGSet limits;
  _ ←? Dec.Finish;
  ok (mkIncremental (copy_into_zeros 16 fsid) epoch modified newPoolMax newFlags fullMap crushData
    newMaxOSD newPools newPoolNames oldPools newUpClient newState newWeight newPGTemp newPrimaryTemp
    newPrimaryAffinity newErasureProfiles oldErasureProfiles newPGUpmap oldPGUpmap newPGUpmapItems
    oldPGUpmapItems newRemovedSnapshots newPurgedSnapshots newLastUpChange newLastInChange
    newPGUpmapPrimaries oldPGUpmapPrimaries).

Definition DecodeOSDMapIncremental (data : bytes) (limits : MapLimits) : res OSDMapIncremental :=
  _ ← validateOSDMapLimits limits;
  fst ((
    '(wrapperVersion, wrapper) ← Dec.Versioned 8;
    _ ←? Dec.Finish;
    if wrapperVersion <? 8 then fail wire_ErrUnsupportedVersion
    else
    result ←? child wrapper (
      '(clientVersion, client) ← Dec.Versioned 9;
      _ ←? Dec.Finish;
      if clientVersion <? 9 then fail wire_ErrUnsupportedVersion
      else
      result ←? child client (
        result ←? decodeIncrementalClient limits;
        _ ←? Dec.Finish;
        ok result);
      '(_, extended) ← Dec.Versioned 12;
      _ ←? Dec.Finish;
      _ ←? child extended Dec.Finish;
      position ← Dec.Position;
      let crcOffset := 6 + position in
      incrementalCRC ← Dec.Uint32;
      fullCRC ← Dec.Uint32;
      _ ←? Dec.Finish;
      if len data <? crcOffset + 4 then fail wire_ErrMalformed
      else if negb (crc_around data crcOffset =? incrementalCRC) then fail maps_ErrMalformedMap
      else ok (result incrementalCRC fullCRC));
    _ ←? Dec.Finish;
    remaining ← Dec.Remaining;
    if negb (remaining =? 0) then fail maps_ErrMalformedMap
    else ok result) (NewDecoder data (mkLimits (ml_MaxBytes limits)))).

(** ** Accessors *)

Definition SortBitwise (m : OSDMap) : bool := negb (Z.land (om_flags m) osdMapFlagSortBitwise =? 0).

(** [PoolByID]; the copy [clonePool] makes has the same value. *)
Definition PoolByID (m : OSDMap) (id : Z) : option Pool := om_pools m !! id.

Definition PoolByName (m : OSDMap) (name : bytes) : option Pool :=
  match om_nameToID m !! name with
  | None => None
  | Some id => PoolByID m id
  end.

Definition OSDClientAddresses (m : OSDMap) (id : Z) : option (list EntityAddr) :=
  if (id <? 0) || (len (om_clientAddresses m) <=? id) then None
  else match om_clientAddresses m !! Z.to_nat id with
       | Some (a :: addresses) => Some (a :: addresses)
       | _ => None
       end.

(** [Some None] is the zero endpoint with [ok = true]. *)
Definition OSDClientEndpoint (m : OSDMap) (id : Z) : option (option netip.AddrPort) :=
  match OSDClientAddresses m id with
  | None => None
  | Some addresses =>
      Some (head (omap (fun address =>
        if negb (Type_ address =? AddressV2) then None
        else match EntityAddr_AddrPort address with
             | Some endpoint => if negb (netip.port endpoint =? 0) then Some endpoint else None
             | None => None
             end) addresses))
  end.

Record OSDState := mkOSDState { os_Exists : bool; os_Up : bool; os_In : bool; os_Destroyed : bool }.

Definition OSDMap_OSDState (m : OSDMap) (id : Z) : option OSDState :=
  if (id <? 0) || (len (om_osdState m) <=? id) then None
  else
    let state := default 0 (om_osdState m !! Z.to_nat id) in
    let in_ := (id <? len (om_osdWeight m)) && negb (default 0 (om_osdWeight m !! Z.to_nat id) =? 0) in
    Some (mkOSDState (negb (Z.land state osdStateExists =? 0)) (negb (Z.land state osdStateUp =? 0))
      in_ (negb (Z.land state osdStateDestroyed =? 0))).

(** ** What the decoders guarantee *)

(** The per-OSD vectors agree with [maxOSD]. *)
Definition vectors_ok (m : OSDMap) : Prop :=
  0 <= om_maxOSD m /\ len (om_osdState m) = om_maxOSD m /\ len (om_osdWeight m) = om_maxOSD m /\
  len (om_clientAddresses m) = om_maxOSD m /\
  (len (om_primaryAffinity m) = 0 \/ len (om_primaryAffinity m) = om_maxOSD m).

(** Pools are filed under their IDs; a name leads to an existing pool, and a
    pool that has a name is found under it. *)
Definition pools_ok (pools : gmap Z Pool) (names : gmap bytes Z) : Prop :=
  map_Forall (fun id p => p_id p = id /\ pool_ok p) pools /\
  (forall n id, names !! n = Some id -> is_Some (pools !! id)) /\
  (forall id p, pools !! id = Some p -> p_name p <> [] -> names !! p_name p = Some id).

(** The cached CRUSH state belongs to the map's CRUSH payload. *)
Definition state_ok (m : OSDMap) : Prop :=
  forall data, om_placementState m = Some data -> data = om_crushData m.

Definition osdmap_ok (m : OSDMap) : Prop :=
  vectors_ok m /\ pools_ok (om_pools m) (om_nameToID m) /\ state_ok m /\
  Forall (inU 32) (om_osdWeight m) /\ Forall (inU 32) (om_osdState m).

Lemma pool_ok_with_id id p : pool_ok p -> pool_ok (with_id id p).
Proof. done. Qed.
Lemma pool_ok_with_name n p : pool_ok p -> pool_ok (with_name n p).
Proof. done. Qed.

Lemma decodeUint32Vector_post maximum : yields (decodeUint32Vector maximum) (okP (Forall (inU 32))).
Proof.
  unfold decodeUint32Vector. ysteps. eapply yields_bind; [apply yields_repeat, yields_u32|]. intros l [_ HF].
  ysteps. by apply yields_ok.
Qed.

(** A counted loop of fallible steps, then [Finish]. *)
Lemma counted_post {A} maximum minimum (body : A -> DecM (res A)) a :
  (forall a, yields (body a) (okP (fun _ => True))) ->
  yields (count ←? boundedCount maximum minimum; result ←? loop_dec (Z.to_nat count) body a;
          _ ←? Dec.Finish; ok result) (okP (fun _ => True)).
Proof.
  intros Hb. ysteps. eapply yields_try with (Q := fun _ => True); [by apply yields_loop|].
  intros l _. ysteps. by apply yields_ok.
Qed.

Lemma decodePG_post : yields decodePG (okP (fun _ => True)).
Proof. unfold decodePG. ysteps. by apply yields_ok. Qed.

#[export] Hint Resolve decodePG_post decodeUint32Vector_post : yields.

Lemma decodeAddressVector_post limits : yields (decodeAddressVector limits) (okP (fun _ => True)).
Proof. apply counted_post. intros. ysteps. by apply yields_ok. Qed.

Lemma decodePGVectorMap_post limits : yields (decodePGVectorMap limits) (okP (fun _ => True)).
Proof. apply counted_post. intros. ysteps. yany. by apply insert_new_post. Qed.

Lemma decodePGIntMap_post limits : yields (decodePGIntMap limits) (okP (fun _ => True)).
Proof. apply counted_post. intros. ysteps. by apply insert_new_post. Qed.

Lemma decodePGRemapItems_post limits : yields (decodePGRemapItems limits) (okP (fun _ => True)).
Proof. apply counted_post. intros. ysteps. yany. by apply insert_new_post. Qed.

Lemma decodePoolIntervalMap_post limits : yields (decodePoolIntervalMap limits) (okP (fun _ => True)).
Proof. apply counted_post. intros. ysteps. by apply insert_new_post. Qed.

Lemma decodePGSet_post limits : yields (decodePGSet limits) (okP (fun _ => True)).
Proof. apply counted_post. intros. ysteps. by apply yields_ok. Qed.

Lemma decodeIntAddressMap_post limits : yields (decodeIntAddressMap limits) (okP (fun _ => True)).
Proof. apply counted_post. intros. ysteps. by apply insert_new_post. Qed.

#[export] Hint Resolve decodeAddressVector_post decodePGVectorMap_post decodePGIntMap_post
  decodePGRemapItems_post decodePoolIntervalMap_post decodePGSet_post decodeIntAddressMap_post
  decodePool_post : yields.

Lemma decodeIntUintMap_post maximum :
  yields (decodeIntUintMap maximum) (okP (map_Forall (fun _ v => inU 32 v))).
Proof.
  unfold decodeIntUintMap. ysteps. eapply yields_try with (Q := map_Forall (fun _ v => inU 32 v)).
  - apply yields_loop; [apply map_Forall_empty|]. intros s Hs. ysteps. apply insert_new_post. intros _.
    by apply map_Forall_insert_2.
  - intros m Hm. ysteps. by apply yields_ok.
Qed.

#[export] Hint Resolve decodeIntUintMap_post : yields.

Lemma decode_pool_entry_post limits pools :
  map_Forall (fun id p => p_id p = id /\ p_name p = [] /\ pool_ok p) pools ->
  yields (decode_pool_entry limits pools)
    (okP (map_Forall (fun id p => p_id p = id /\ p_name p = [] /\ pool_ok p))).
Proof.
  intros Hp. unfold decode_pool_entry. ysteps. apply insert_new_post. intros _.
  apply map_Forall_insert_2; [|done]. naive_solver.
Qed.

Lemma pools_loop_post limits n :
  yields (loop_dec n (decode_pool_entry limits) ∅)
    (okP (map_Forall (fun id p => p_id p = id /\ p_name p = [] /\ pool_ok p))).
Proof. apply yields_loop; [apply map_Forall_empty|]. intros s. apply decode_pool_entry_post. Qed.

#[export] Hint Resolve pools_loop_post : yields.

Lemma pools_ok_name pools names id name p :
  pools_ok pools names -> pools !! id = Some p -> names !! name = None ->
  pools_ok (<[id := with_name name p]> pools) (<[name := id]> names).
Proof.
  intros (H1 & H2 & H3) Hp Hn. split; [|split].
  - apply map_Forall_insert_2; [apply (H1 _ _ Hp)|done].
  - intros n i [[<- <-]|[_ Hi]]%lookup_insert_Some; [rewrite lookup_insert_eq; eauto|].
    destruct (decide (id = i)) as [->|]; [rewrite lookup_insert_eq; eauto|].
    rewrite lookup_insert_ne by done. by eapply H2.
  - intros i q [[<- <-]|[Hi Hq]]%lookup_insert_Some Hne; [apply lookup_insert_eq|].
    specialize (H3 _ _ Hq Hne). rewrite lookup_insert_ne; [done|]. congruence.
Qed.

Lemma names_loop_post n pools :
  map_Forall (fun id p => p_id p = id /\ p_name p = [] /\ pool_ok p) pools ->
  yields (loop_dec n decode_name_entry (pools, ∅)) (okP (fun '(pools, names) => pools_ok pools names)).
Proof.
  intros Hp. apply yields_loop.
  - split; [|split].
    + eapply map_Forall_impl; [exact Hp|]. naive_solver.
    + intros * H. by rewrite lookup_empty in H.
    + intros id p E Hne. by destruct (Hp _ _ E) as (_ & ? & _).
  - intros [ps names] Hok. unfold decode_name_entry. ysteps. yany.
    destruct (ps !! a) as [p|] eqn:Ep; [|apply yields_fail].
    destruct (names !! a0) eqn:En; [apply yields_fail|]. by apply yields_ok, pools_ok_name.
Qed.

Lemma decodeOSDMapClient_post limits : yields (decodeOSDMapClient limits) (okP osdmap_ok).
Proof.
  unfold decodeOSDMapClient. yany. ysteps. eapply yields_try; [by apply names_loop_post|].
  intros [pools names] Hpools. ysteps. bsplit. yany. ysteps. apply yields_ok.
  split; [|split; [done|split; [|done]]].
  - split_and!; cbn; lia.
  - by intros data [= <-].
Qed.

Lemma osdmap_ok_crc crc v m : osdmap_ok m -> osdmap_ok (with_crc crc v m).
Proof. done. Qed.

(** The stored CRC was recomputed from the other bytes of the payload. *)
Definition crc_checked (data : bytes) (m : OSDMap) : Prop :=
  om_crcVerified m = true /\
  exists crcOffset, crcOffset + 4 <= len data /\ om_crc m = crc_around data crcOffset.

Lemma DecodeOSDMap_full data limits :
  okP (fun m => osdmap_ok m /\ crc_checked data m) (DecodeOSDMap data limits).
Proof.
  unfold DecodeOSDMap, validateOSDMapLimits. destruct (_ || _); [done|]. rewrite bind_Ok.
  generalize (NewDecoder data (mkLimits (ml_MaxBytes limits))).
  match goal with |- forall d, ?P (fst (?m d)) => change (yields m P) end.
  eapply yields_bind; [apply yields_any|intros [v w] _]. ysteps.
  eapply yields_try with (Q := fun m => osdmap_ok m /\ crc_checked data m).
  - apply yields_child. eapply yields_bind; [apply yields_any|intros [cv client] _]. ysteps.
    eapply yields_try with (Q := osdmap_ok).
    { apply yields_child. eapply yields_try; [apply decodeOSDMapClient_post|]. intros m Hm. ysteps. by apply yields_ok. }
    intros m Hm. eapply yields_bind; [apply yields_any|intros [ev extended] _]. ysteps.
    eapply yields_try; [apply yields_child, yields_finish|intros _ _]. yany. cbv zeta. ysteps.
    apply yields_ok. split; [by apply osdmap_ok_crc|]. split; [done|]. bsplit.
    exists (6 + a2). cbn. lia.
  - intros m Hm. ysteps. by apply yields_ok.
Qed.

Lemma DecodeOSDMap_post data limits : okP osdmap_ok (DecodeOSDMap data limits).
Proof. pose proof (DecodeOSDMap_full data limits) as H. destruct (DecodeOSDMap _ _); [apply H|done..]. Qed.

(** The parts of an increment that its application relies on. *)
Definition incremental_ok (i : OSDMapIncremental) : Prop :=
  map_Forall (fun id p => p_id p = id /\ p_name p = [] /\ pool_ok p) (in_newPools i) /\
  map_Forall (fun _ v => inU 32 v) (in_newState i) /\ map_Forall (fun _ v => inU 32 v) (in_newWeight i).

Lemma decodeIncrementalClient_post limits :
  yields (decodeIncrementalClient limits) (okP (fun f => forall a b, incremental_ok (f a b))).
Proof.
  unfold decodeIncrementalClient. yany. ysteps. do 2 yany. ysteps.
  eapply yields_try with (Q := fun _ => True).
  { apply yields_loop; [done|]. intros s _. ysteps. yany. by apply insert_new_post. }
  intros names _. ysteps. eapply yields_try with (Q := fun _ => True).
  { apply yields_loop; [done|]. intros s _. ysteps. by apply yields_ok. }
  intros old _. ysteps. by apply yields_ok.
Qed.

Lemma DecodeOSDMapIncremental_post data limits : okP incremental_ok (DecodeOSDMapIncremental data limits).
Proof.
  unfold DecodeOSDMapIncremental, validateOSDMapLimits. destruct (_ || _); [done|]. rewrite bind_Ok.
  generalize (NewDecoder data (mkLimits (ml_MaxBytes limits))).
  match goal with |- forall d, ?P (fst (?m d)) => change (yields m P) end.
  eapply yields_bind; [apply yields_any|intros [v w] _]. ysteps.
  eapply yields_try with (Q := incremental_ok).
  - apply yields_child. eapply yields_bind; [apply yields_any|intros [cv client] _]. ysteps.
    eapply yields_try with (Q := fun f => forall a b, incremental_ok (f a b)).
    { apply yields_child. eapply yields_try; [apply decodeIncrementalClient_post|]. intros m Hm. ysteps. by apply yields_ok. }
    intros m Hm. eapply yields_bind; [apply yields_any|intros [ev extended] _]. ysteps.
    eapply yields_try; [apply yields_child, yields_finish|intros _ _]. yany. cbv zeta. ysteps.
    apply yields_ok. apply Hm.
  - intros m Hm. ysteps. by apply yields_ok.
Qed.

(** ** Properties *)


(** The check on the pool names counts names, not named pools: two names for
    pool 1 and none for pool 2 pass it. *)
Example names_counted_not_matched :
  let pools : gmap Z Pool := {[ 1 := with_id 1 Pool_zero; 2 := with_id 2 Pool_zero ]} in
  let data := le_split 8 1 ++ prefixed [Byte.x61] ++ le_split 8 1 ++ prefixed [Byte.x62] in
  match fst (loop_dec 2 decode_name_entry (pools, ∅) (NewDecoder data (mkLimits 100))) with
  | Ok (pools, names) => bool_decide (size names = size pools) && bool_decide (p_name <$> (pools !! 2) = Some [])
  | _ => false
  end = true.
Proof. vm_compute. reflexivity. Qed.
