(* ===== verification/Incremental.v ===== *)
(** * Applying an increment to an OSD map (src/internal/maps/incremental.go)

    [cloneOSDMapForIncremental] copies a map or slice of the current snapshot
    only when the increment changes it and shares it otherwise.  A field of
    the snapshot under construction is therefore a [cell]: [Shared] with the
    current snapshot or [Owned]; a write to a shared cell, which would change
    the published snapshot, is [Panic], like an index out of range.  That
    neither happens is theorem [Apply_never_aliases]. *)

From stdpp Require Import base gmap list numbers.
From coqutil Require Import Byte Word.LittleEndianList.
From S2P Require Import Prelude Codec Crc Protocol MonMap Pool OSDMap.
From stdpp Require Import list.

Open Scope Z_scope.
Open Scope go_scope.

Inductive cell (A : Type) :=
  | Shared (a : A)
  | Owned (a : A).
Arguments Shared {A} a.
Arguments Owned {A} a.

Definition get {A} (c : cell A) : A := match c with Shared a | Owned a => a end.

Definition is_owned {A} (c : cell A) : Prop := match c with Owned _ => True | _ => False end.

Definition update {A} (c : cell A) (f : A -> res A) : res (cell A) :=
  match c with Shared _ => Panic | Owned a => a ← f a; Ok (Owned a) end.

Definition write {A} (c : cell A) (f : A -> A) : res (cell A) := update c (fun a => Ok (f a)).

(** [if changed { field = clone(field) }] *)
Definition clone_if {A} (changed : bool) (a : A) : cell A := if changed then Owned a else Shared a.

Definition some {A} `{Size A} (a : A) : bool := negb (bool_decide (size a = 0%nat)).
Definition nonempty {A} (l : list A) : bool := match l with [] => false | _ => true end.

(** ** Vectors *)

Definition resizeUint32s (values : list Z) (size : Z) : list Z :=
  if size <? len values then take (Z.to_nat size) values
  else values ++ replicate (Z.to_nat (size - len values)) 0.

(** The vectors [resizeOSDs] and the loops below update together. *)
Record osds := mkOSDs {
  v_state : cell (list Z);
  v_weight : cell (list Z);
  v_affinity : cell (list Z);
  v_addresses : cell (list (list EntityAddr)) }.

Definition resizeOSDs (o : osds) (size : Z) : res osds :=
  state ← write (v_state o) (fun l => resizeUint32s l size);
  weight ← write (v_weight o) (fun l => resizeUint32s l size);
  affinity ← (if negb (len (get (v_affinity o)) =? 0) then
      write (v_affinity o) (fun l =>
        take (Z.to_nat size) (l ++ replicate (Z.to_nat (size - len l)) defaultPrimaryAffinity))
    else Ok (v_affinity o));
  addresses ← write (v_addresses o) (fun l =>
      if size <? len l then take (Z.to_nat size) l
      else l ++ replicate (Z.to_nat (size - len l)) []);
  Ok (mkOSDs state weight affinity addresses).

Definition validateOSD (o : osds) (osd : Z) : res unit :=
  if (osd <? 0) || (len (get (v_state o)) <=? osd) then Err maps_ErrMalformedMap else Ok tt.

(** [slice[osd] = f(slice[osd])] *)
Definition modify {A} (osd : Z) (f : A -> A) (l : list A) : res (list A) :=
  x ← index l osd; store l osd (f x).

Definition apply_weight (ow : Z * Z) (o : osds) : res osds :=
  let '(osd, weight) := ow in
  _ ← validateOSD o osd;
  weights ← update (v_weight o) (fun l => store l osd weight);
  state ← (if negb (weight =? 0)
    then update (v_state o) (modify osd (fun s => Z.ldiff s (Z.lor (2 ^ 2) (2 ^ 3))))
    else Ok (v_state o));
  Ok (mkOSDs state weights (v_affinity o) (v_addresses o)).

Definition apply_affinity (oa : Z * Z) (o : osds) : res osds :=
  let '(osd, affinity) := oa in
  _ ← validateOSD o osd;
  affinities ← update (v_affinity o) (fun l => store l osd affinity);
  Ok (mkOSDs (v_state o) (v_weight o) affinities (v_addresses o)).

Definition apply_state (os : Z * Z) (o : osds) : res osds :=
  let '(osd, state) := os in
  _ ← validateOSD o osd;
  let state := if state =? 0 then 2 ^ 1 else state in
  current ← index (get (v_state o)) osd;
  if negb (Z.land current osdStateExists =? 0) && negb (Z.land state osdStateExists =? 0) then
    states ← update (v_state o) (fun l => store l osd 0);
    affinity ← (if osd <? len (get (v_affinity o))
      then update (v_affinity o) (fun l => store l osd defaultPrimaryAffinity)
      else Ok (v_affinity o));
    addresses ← update (v_addresses o) (fun l => store l osd []);
    Ok (mkOSDs states (v_weight o) affinity addresses)
  else
    states ← update (v_state o) (modify osd (fun s => Z.lxor s state));
    Ok (mkOSDs states (v_weight o) (v_affinity o) (v_addresses o)).

Definition apply_up (oa : Z * list EntityAddr) (o : osds) : res osds :=
  let '(osd, addrs) := oa in
  _ ← validateOSD o osd;
  states ← update (v_state o) (modify osd (fun s =>
    Z.ldiff (Z.lor s (Z.lor osdStateExists osdStateUp)) osdStateStop));
  addresses ← update (v_addresses o) (fun l => store l osd addrs);
  Ok (mkOSDs states (v_weight o) (v_affinity o) addresses).

(** ** Pools *)

Definition pool_cells : Type := cell (gmap Z Pool) * cell (gmap bytes Z).

Definition apply_new_pool (ip : Z * Pool) (c : pool_cells) : res pool_cells :=
  let '(id, pool) := ip in
  let '(pools, names) := c in
  let pool := match get pools !! id with Some old => with_name (p_name old) pool | None => pool end in
  pools ← write pools (fun m => <[id := pool]> m);
  Ok (pools, names).

Definition apply_rename (rename : Z * bytes) (c : pool_cells) : res pool_cells :=
  let '(id, name) := rename in
  let '(pools, names) := c in
  match get pools !! id with
  | None => Err maps_ErrMalformedMap
  | Some pool =>
      if match get names !! name with Some oldID => negb (oldID =? id) | None => false end
      then Err maps_ErrMalformedMap
      else
        names ← write names (fun m => delete (p_name pool) m);
        pools ← write pools (fun m => <[id := with_name name pool]> m);
        names ← write names (fun m => <[name := id]> m);
        Ok (pools, names)
  end.

Definition apply_old_pool (id : Z) (c : pool_cells) : res pool_cells :=
  let '(pools, names) := c in
  match get pools !! id with
  | None => Ok c
  | Some pool =>
      names ← write names (fun m => delete (p_name pool) m);
      pools ← write pools (fun m => delete id m);
      Ok (pools, names)
  end.

(** ** Placement group maps *)

(** The loops over [changes]; its iteration order does not matter, as its
    keys are distinct. *)
Definition applyPGVectors (target : cell (gmap PG (list Z))) (changes : gmap PG (list Z))
    (emptyDeletes : bool) : res (cell (gmap PG (list Z))) :=
  fold_res (fun '(pg, values) target =>
    write target (fun m => if emptyDeletes && negb (nonempty values) then delete pg m else <[pg := values]> m))
    (map_to_list changes) target.

Definition applyPGInts (target : cell (gmap PG Z)) (changes : gmap PG Z) (deleted : Z)
    : res (cell (gmap PG Z)) :=
  fold_res (fun '(pg, value) target =>
    write target (fun m => if value =? deleted then delete pg m else <[pg := value]> m))
    (map_to_list changes) target.

(** [for k, v := range changes { target[k] = v }] *)
Definition apply_inserts `{Countable K} {V} (target : cell (gmap K V)) (changes : gmap K V)
    : res (cell (gmap K V)) :=
  fold_res (fun '(k, v) target => write target (fun m => <[k := v]> m)) (map_to_list changes) target.

(** [for _, k := range keys { delete(target, k) }] *)
Definition apply_deletes `{Countable K} {V} (target : cell (gmap K V)) (keys : list K)
    : res (cell (gmap K V)) :=
  fold_res (fun k target => write target (fun m => delete k m)) keys target.

(** ** The shared copy *)

(** [cloneOSDMapForIncremental]: which fields are copied. *)
Definition clone_osds (source : OSDMap) (changes : OSDMapIncremental) : osds :=
  let resize := 0 <=? in_newMaxOSD changes in
  mkOSDs
    (clone_if (resize || (some (in_newWeight changes) || some (in_newState changes)
      || some (in_newUpClient changes))) (om_osdState source))
    (clone_if (resize || some (in_newWeight changes)) (om_osdWeight source))
    (clone_if (resize || (some (in_newPrimaryAffinity changes) || some (in_newState changes)))
      (om_primaryAffinity source))
    (clone_if (resize || (some (in_newUpClient changes) || some (in_newState changes)))
      (om_clientAddresses source)).

Definition clone_pools (source : OSDMap) (changes : OSDMapIncremental) : pool_cells :=
  let changed := some (in_newPools changes) || some (in_newPoolNames changes)
                 || nonempty (in_oldPools changes) in
  (clone_if changed (om_pools source), clone_if changed (om_nameToID source)).

Definition crushPlacementState (m : OSDMap) : bytes := default (om_crushData m) (om_placementState m).

(** ** ApplyOSDMapIncremental

    [renames] is the order in which Go iterates over the map of new pool
    names. *)

Definition apply_pools (current : OSDMap) (incremental : OSDMapIncremental) (renames : list (Z * bytes))
    : res pool_cells :=
  c ← fold_res apply_new_pool (map_to_list (in_newPools incremental)) (clone_pools current incremental);
  c ← fold_res apply_rename renames c;
  fold_res apply_old_pool (in_oldPools incremental) c.

Definition apply_osds (current : OSDMap) (incremental : OSDMapIncremental) : res (Z * osds) :=
  let o := clone_osds current incremental in
  '(maxOSD, o) ← (if 0 <=? in_newMaxOSD incremental
    then o ← resizeOSDs o (in_newMaxOSD incremental); Ok (in_newMaxOSD incremental, o)
    else Ok (om_maxOSD current, o));
  o ← fold_res apply_weight (map_to_list (in_newWeight incremental)) o;
  let o := if some (in_newPrimaryAffinity incremental) && (len (get (v_affinity o)) =? 0)
    then mkOSDs (v_state o) (v_weight o)
           (Owned (replicate (Z.to_nat maxOSD) defaultPrimaryAffinity)) (v_addresses o)
    else o in
  o ← fold_res apply_affinity (map_to_list (in_newPrimaryAffinity incremental)) o;
  o ← fold_res apply_state (map_to_list (in_newState incremental)) o;
  o ← fold_res apply_up (map_to_list (in_newUpClient incremental)) o;
  Ok (maxOSD, o).

Definition ApplyOSDMapIncremental (current : option OSDMap) (incremental : option OSDMapIncremental)
    (limits : MapLimits) (renames : list (Z * bytes)) : res OSDMap :=
  match current, incremental with
  | Some current, Some incremental =>
    if negb (bool_decide (in_fsid incremental = om_fsid current)) then Err maps_ErrMalformedMap
    else if negb (in_epoch incremental =? u32 (om_epoch current + 1)) then Err maps_ErrMalformedMap
    else if nonempty (in_fullMap incremental) then
      replacement ← DecodeOSDMap (in_fullMap incremental) limits;
      if negb (bool_decide (om_fsid replacement = om_fsid current))
         || negb (om_epoch replacement =? in_epoch incremental)
         || negb (om_crc replacement =? in_fullCRC incremental)
      then Err maps_ErrMalformedMap else Ok replacement
    else
      let newCrush := nonempty (in_crushData incremental) in
      let changed := newCrush && negb (bool_decide (om_crushData current = in_crushData incremental)) in
      let crushData := if newCrush then in_crushData incremental else om_crushData current in
      let placementState := if changed then crushData else crushPlacementState current in
      '(pools, names) ← apply_pools current incremental renames;
      '(maxOSD, o) ← apply_osds current incremental;
      pgTemp ← applyPGVectors (clone_if (some (in_newPGTemp incremental)) (om_pgTemp current))
        (in_newPGTemp incremental) true;
      primaryTemp ← applyPGInts (clone_if (some (in_newPrimaryTemp incremental)) (om_primaryTemp current))
        (in_newPrimaryTemp incremental) (-1);
      let profiles := clone_if (some (in_newErasureProfiles incremental) || nonempty (in_oldErasureProfiles incremental))
        (om_erasureCodeProfiles current) in
      profiles ← apply_deletes profiles (in_oldErasureProfiles incremental);
      profiles ← apply_inserts profiles (in_newErasureProfiles incremental);
      let pgUpmap := clone_if (some (in_newPGUpmap incremental) || nonempty (in_oldPGUpmap incremental))
        (om_pgUpmap current) in
      pgUpmap ← applyPGVectors pgUpmap (in_newPGUpmap incremental) false;
      pgUpmap ← apply_deletes pgUpmap (in_oldPGUpmap incremental);
      let items := clone_if (some (in_newPGUpmapItems incremental) || nonempty (in_oldPGUpmapItems incremental))
        (om_pgUpmapItems current) in
      items ← apply_inserts items (in_newPGUpmapItems incremental);
      items ← apply_deletes items (in_oldPGUpmapItems incremental);
      let primaries := clone_if (some (in_newPGUpmapPrimaries incremental) || nonempty (in_oldPGUpmapPrimaries incremental))
        (om_pgUpmapPrimaries current) in
      primaries ← apply_inserts primaries (in_newPGUpmapPrimaries incremental);
      primaries ← apply_deletes primaries (in_oldPGUpmapPrimaries incremental);
      if existsb (fun ip => negb (nonempty (p_name (snd ip)))) (map_to_list (get pools))
      then Err maps_ErrMalformedMap
      else Ok (mkOSDMap (om_fsid current) (in_epoch incremental) (om_created current) (in_modified incremental)
        (get pools) (get names)
        (if negb (in_newPoolMax incremental =? -1) then in_newPoolMax incremental else om_poolMax current)
        (if 0 <=? in_newFlags incremental then in_newFlags incremental else om_flags current)
        maxOSD (get (v_state o)) (get (v_weight o)) (get (v_addresses o)) (get pgTemp) (get primaryTemp)
        (get (v_affinity o)) crushData (Some placementState) (get profiles) (get pgUpmap) (get items)
        (if newCrush then u32 (om_crushVersion current + 1) else om_crushVersion current)
        (in_newRemovedSnapshots incremental) (in_newPurgedSnapshots incremental)
        (if bool_decide (in_newLastUpChange incremental = mkUTime 0 0) then om_lastUpChange current
         else in_newLastUpChange incremental)
        (if bool_decide (in_newLastInChange incremental = mkUTime 0 0) then om_lastInChange current
         else in_newLastInChange incremental)
        (get primaries) (in_fullCRC incremental) false true)
  | _, _ => Err maps_ErrMalformedMap
  end.

(** ** Ownership *)

Lemma okP_bind {A B} (m : res A) (k : A -> res B) Q P :
  okP Q m -> (forall a, Q a -> okP P (k a)) -> okP P (m ≫= k).
Proof. destruct m; cbn; auto. Qed.

Lemma fold_okP {A S} (body : A -> S -> res S) l s (I : S -> Prop) :
  I s -> (forall x s, x ∈ l -> I s -> okP I (body x s)) -> okP I (fold_res body l s).
Proof.
  revert s. induction l as [|x l IH]; intros s Hs Hb; [done|]. cbn [fold_res].
  eapply okP_bind; [apply Hb; [set_solver|done]|]. intros s' Hs'. apply IH; [done|]. set_solver.
Qed.

Lemma update_okP {A} (c : cell A) f Q : is_owned c -> okP Q (f (get c)) ->
  okP (fun c' => is_owned c' /\ Q (get c')) (update c f).
Proof. destruct c; [done|]. intros _ H. cbn in *. by destruct (f a). Qed.

Lemma some_spec `{Countable K} {V} (m : gmap K V) x : x ∈ map_to_list m -> some m = true.
Proof.
  intros Hx. unfold some. case_bool_decide as E; [|done]. apply map_size_empty_inv in E. subst.
  rewrite map_to_list_empty in Hx. by apply elem_of_nil in Hx.
Qed.

Lemma nonempty_spec {A} (l : list A) x : x ∈ l -> nonempty l = true.
Proof. destruct l; [by intros ?%elem_of_nil|done]. Qed.

(** The loops over a whole map or key list write only if there is something
    to change, and then the cell is a copy. *)
Lemma cell_loop_okP {A B} (body : A -> cell B -> res (cell B)) (l : list A) (b : bool) (v : B) :
  (forall x, x ∈ l -> b = true) -> (forall x a, exists a', body x (Owned a) = Ok (Owned a')) ->
  okP (fun c => exists v, c = clone_if b v) (fold_res body l (clone_if b v)).
Proof.
  intros Hb Hbody. apply fold_okP; [eauto|]. intros x c Hx (a & ->). rewrite (Hb x Hx). cbn [clone_if].
  destruct (Hbody x a) as (a' & ->). cbn. eauto.
Qed.

Lemma get_clone_if {A} b (a : A) : get (clone_if b a) = a.
Proof. by destruct b. Qed.

(** ** Vectors stay consistent *)

Definition osds_ok (n : Z) (o : osds) : Prop :=
  len (get (v_state o)) = n /\ len (get (v_weight o)) = n /\ len (get (v_addresses o)) = n /\
  (len (get (v_affinity o)) = 0 \/ len (get (v_affinity o)) = n) /\
  Forall (inU 32) (get (v_weight o)) /\ Forall (inU 32) (get (v_state o)).

(** [own p q r s o]: which vectors are copies. *)
Definition own (p q r s : Prop) (o : osds) : Prop :=
  (p -> is_owned (v_state o)) /\ (q -> is_owned (v_weight o)) /\ (r -> is_owned (v_affinity o)) /\
  (s -> is_owned (v_addresses o)).

Definition osds_inv (n : Z) (p q r s : Prop) (o : osds) : Prop := osds_ok n o /\ own p q r s o.

Lemma store_okP {A} (l : list A) i x (P : A -> Prop) : 0 <= i < len l -> P x -> Forall P l ->
  okP (fun l' => len l' = len l /\ Forall P l') (store l i x).
Proof.
  intros Hi Hx Hl. rewrite store_ok by done. cbn. unfold len. rewrite length_insert. split; [done|].
  by apply Forall_insert.
Qed.

Lemma store_len_okP {A} (l : list A) i x : 0 <= i < len l -> okP (fun l' => len l' = len l) (store l i x).
Proof. intros Hi. rewrite store_ok by done. cbn. unfold len. by rewrite length_insert. Qed.

Lemma modify_okP {A} (l : list A) i f (P : A -> Prop) : 0 <= i < len l -> (forall x, P x -> P (f x)) ->
  Forall P l -> okP (fun l' => len l' = len l /\ Forall P l') (modify i f l).
Proof.
  intros Hi Hf Hl. unfold modify. destruct (index_in_range l i Hi) as (x & -> & Hx). rewrite bind_Ok.
  apply store_okP; [done| |done]. apply Hf. rewrite Forall_forall in Hl. by apply Hl.
Qed.

Lemma validateOSD_okP n o osd : osds_ok n o -> okP (fun _ => 0 <= osd < n) (validateOSD o osd).
Proof.
  intros (Hs & _). unfold validateOSD. destruct (_ || _) eqn:E; [done|]. bsplit. cbn. lia.
Qed.

Lemma inU_ldiff w x y : 0 <= w -> inU w x -> inU w (Z.ldiff x y).
Proof.
  intros Hw Hx. apply inU_of_bits; [done|]. intros i Hi.
  rewrite Z.ldiff_spec. by rewrite (inU_testbit w x).
Qed.

Section steps.
Context (n : Z) (p q r s : Prop).

Lemma apply_weight_okP osd w o : p -> q -> inU 32 w -> osds_inv n p q r s o ->
  okP (osds_inv n p q r s) (apply_weight (osd, w) o).
Proof.
  intros Hp Hq Hw [Hok (O1 & O2 & O3 & O4)]. cbn [apply_weight].
  eapply okP_bind; [by apply validateOSD_okP|]. intros ? Hosd. cbn beta in Hosd. destruct Hok as (L1 & L2 & L3 & L4 & F1 & F2).
  eapply okP_bind; [apply update_okP; [by apply O2|apply (store_okP _ _ _ (inU 32)); [lia|done|done]]|].
  intros weights [Ow [Lw Fw]]. eapply okP_bind with (Q := fun c => is_owned c /\ len (get c) = n /\ Forall (inU 32) (get c)).
  - destruct (negb (w =? 0)); [|cbn; auto]. eapply okP_impl.
    { apply update_okP; [by apply O1|]. apply (modify_okP _ _ _ (inU 32)); [lia| |done].
      intros x Hx. apply inU_ldiff; [lia|done]. }
    intros c (? & ? & ?). split_and!; [done|lia|done].
  - intros states (Os & Ls & Fs). split; [|split_and!; auto]. split_and!; cbn; auto; lia.
Qed.

Lemma apply_affinity_okP osd a o : r -> len (get (v_affinity o)) = n -> osds_inv n p q r s o ->
  okP (fun o' => osds_inv n p q r s o' /\ len (get (v_affinity o')) = n) (apply_affinity (osd, a) o).
Proof.
  intros Hr La [Hok (O1 & O2 & O3 & O4)]. cbn [apply_affinity].
  eapply okP_bind; [by apply validateOSD_okP|]. intros ? Hosd. cbn beta in Hosd. destruct Hok as (L1 & L2 & L3 & L4 & F1 & F2).
  eapply okP_bind; [apply update_okP; [by apply O3|apply store_len_okP; lia]|].
  intros aff [Oa La']. cbn. split; [|lia]. split; [|split_and!; auto]. split_and!; cbn; auto; lia.
Qed.

Lemma apply_state_okP osd st o : p -> r -> s -> inU 32 st -> osds_inv n p q r s o ->
  okP (osds_inv n p q r s) (apply_state (osd, st) o).
Proof.
  intros Hp Hr Hs Hst [Hok (O1 & O2 & O3 & O4)]. cbn [apply_state].
  eapply okP_bind; [by apply validateOSD_okP|]. intros ? Hosd. cbn beta in Hosd. destruct Hok as (L1 & L2 & L3 & L4 & F1 & F2).
  destruct (index_in_range (get (v_state o)) osd ltac:(lia)) as (cur & -> & _). rewrite bind_Ok.
  set (st' := if st =? 0 then 2 ^ 1 else st).
  assert (inU 32 st') as Hst' by (unfold st'; destruct (st =? 0); [unfold inU; lia|done]).
  destruct (_ && _).
  - eapply okP_bind; [apply update_okP; [by apply O1|apply (store_okP _ _ _ (inU 32)); [lia|unfold inU; lia|done]]|].
    intros states [Os [Ls Fs]].
    eapply okP_bind with (Q := fun c => is_owned c /\ len (get c) = len (get (v_affinity o))).
    { destruct (Z.ltb_spec osd (len (get (v_affinity o)))); [|cbn; auto].
      apply (update_okP _ _ (fun l => len l = len (get (v_affinity o)))); [by apply O3|apply store_len_okP; lia]. }
    intros aff [Oa La]. eapply okP_bind; [apply update_okP; [by apply O4|apply store_len_okP; lia]|].
    intros addr [Oad Lad]. split; [|split_and!; auto]. split_and!; cbn; auto; lia.
  - eapply okP_bind; [apply update_okP; [by apply O1|apply (modify_okP _ _ _ (inU 32)); [lia| |done]]|].
    { intros x Hx. by apply inU_lxor. }
    intros states [Os [Ls Fs]]. split; [|split_and!; auto]. split_and!; cbn; auto; lia.
Qed.

Lemma apply_up_okP osd a o : p -> s -> osds_inv n p q r s o -> okP (osds_inv n p q r s) (apply_up (osd, a) o).
Proof.
  intros Hp Hs [Hok (O1 & O2 & O3 & O4)]. cbn [apply_up].
  eapply okP_bind; [by apply validateOSD_okP|]. intros ? Hosd. cbn beta in Hosd. destruct Hok as (L1 & L2 & L3 & L4 & F1 & F2).
  eapply okP_bind; [apply update_okP; [by apply O1|apply (modify_okP _ _ _ (inU 32)); [lia| |done]]|].
  { intros x Hx. apply inU_ldiff; [lia|]. by apply inU_lor. }
  intros states [Os [Ls Fs]]. eapply okP_bind; [apply update_okP; [by apply O4|apply store_len_okP; lia]|].
  intros addr [Oad Lad]. split; [|split_and!; auto]. split_and!; cbn; auto; lia.
Qed.
End steps.

Lemma len_resize {A} (l : list A) x n : 0 <= n ->
  len (if n <? len l then take (Z.to_nat n) l else l ++ replicate (Z.to_nat (n - len l)) x) = n.
Proof.
  intros Hn. unfold len in *. destruct (Z.ltb_spec n (Z.of_nat (length l))).
  - rewrite length_take. lia.
  - rewrite length_app, length_replicate. lia.
Qed.

Lemma Forall_resize l n : Forall (inU 32) l -> Forall (inU 32) (resizeUint32s l n).
Proof.
  intros Hl. unfold resizeUint32s. destruct (_ <? _); [by apply Forall_take|].
  apply Forall_app. split; [done|]. apply Forall_replicate. unfold inU. lia.
Qed.

Lemma resizeOSDs_okP n n' o : 0 <= n' -> osds_inv n True True True True o ->
  okP (osds_inv n' True True True True) (resizeOSDs o n').
Proof.
  intros Hn [(L1 & L2 & L3 & L4 & F1 & F2) (O1 & O2 & O3 & O4)].
  destruct o as [[st|st] [w|w] [aff|aff] [ad|ad]]; cbn in *; try (exfalso; tauto).
  unfold resizeOSDs. cbn [v_state v_weight v_affinity v_addresses write update get].
  eapply okP_bind with (Q := fun c => is_owned c /\ (len (get c) = 0 \/ len (get c) = n')).
  { destruct (Z.eqb_spec (len aff) 0); [cbn; auto|]. cbn. split; [done|]. right.
    unfold len. rewrite length_take, length_app, length_replicate. lia. }
  intros c [Hc Hl]. split; [|done]. split_and!; cbn; [by apply len_resize..|done|by apply Forall_resize|by apply Forall_resize].
Qed.

Lemma clone_if_owned {A} (b : bool) (a : A) (P : Prop) : (P -> b = true) -> P -> is_owned (clone_if b a).
Proof. intros H HP. by rewrite (H HP). Qed.

Lemma osds_inv_impl n (p q r s p' q' r' s' : Prop) o : osds_inv n p q r s o ->
  (p' -> p) -> (q' -> q) -> (r' -> r) -> (s' -> s) -> osds_inv n p' q' r' s' o.
Proof. intros [H (O1 & O2 & O3 & O4)] ? ? ? ?. split; [done|]. split_and!; auto. Qed.

Definition affinities_ok (n : Z) (p q r s : Prop) (i : OSDMapIncremental) (o : osds) : Prop :=
  osds_inv n p q r s o /\ (some (in_newPrimaryAffinity i) = true -> len (get (v_affinity o)) = n).

Lemma apply_osds_okP current inc :
  osdmap_ok current -> incremental_ok inc ->
  okP (fun '(maxOSD, o) => 0 <= maxOSD /\ osds_ok maxOSD o) (apply_osds current inc).
Proof.
  intros ((V0 & V1 & V2 & V3 & V4) & _ & _ & F1 & F2) (_ & Hst & Hwt). unfold apply_osds.
  set (rs := 0 <=? in_newMaxOSD inc).
  set (p := rs || (some (in_newWeight inc) || some (in_newState inc) || some (in_newUpClient inc)) = true).
  set (q := rs || some (in_newWeight inc) = true).
  set (r := rs || (some (in_newPrimaryAffinity inc) || some (in_newState inc)) = true).
  set (s := rs || (some (in_newUpClient inc) || some (in_newState inc)) = true).
  assert (osds_inv (om_maxOSD current) p q r s (clone_osds current inc)) as H0.
  { split; [split_and!; cbn; by rewrite ?get_clone_if|].
    split_and!; intros H; by eapply clone_if_owned. }
  eapply okP_bind with (Q := fun '(n, o) => 0 <= n /\ osds_inv n p q r s o).
  { fold rs. destruct rs eqn:Ers; [|done]. assert (0 <= in_newMaxOSD inc) as Hge by by apply Z.leb_le.
    eapply okP_bind; [apply (resizeOSDs_okP (om_maxOSD current)); [lia|]|].
    - by apply (osds_inv_impl _ _ _ _ _ _ _ _ _ _ H0).
    - intros o Ho. split; [lia|]. by apply (osds_inv_impl _ _ _ _ _ _ _ _ _ _ Ho). }
  intros [n o] [Hn Ho]. eapply okP_bind with (Q := osds_inv n p q r s).
  { apply fold_okP; [done|]. intros [osd w] o' Hx Ho'. pose proof (some_spec _ _ Hx) as Hs.
    apply apply_weight_okP; try done.
    - unfold p. rewrite Hs. apply orb_true_r.
    - unfold q. rewrite Hs. apply orb_true_r.
    - apply elem_of_map_to_list in Hx. by apply (Hwt osd). }
  clear o Ho. intros o Ho.
  set (o1 := if some (in_newPrimaryAffinity inc) && _ then _ else o).
  assert (affinities_ok n p q r s inc o1) as [Ho1 Haff].
  { unfold o1. destruct Ho as [(L1 & L2 & L3 & L4 & G1 & G2) (O1 & O2 & O3 & O4)].
    destruct (some (in_newPrimaryAffinity inc)) eqn:Es; cbn [andb].
    - destruct (Z.eqb_spec (len (get (v_affinity o))) 0) as [E0|E0].
      + assert (len (replicate (Z.to_nat n) defaultPrimaryAffinity) = n) as Er
          by (unfold len; rewrite length_replicate; lia).
        split; [|done]. split; split_and!; cbn; auto.
      + split; [by split; split_and!|]. intros _. by destruct L4.
    - split; [by split; split_and!|]. by rewrite Es. }
  eapply okP_bind with (Q := osds_inv n p q r s).
  { eapply okP_impl; [apply (fold_okP _ _ _ (affinities_ok n p q r s inc)); [by split|]|by intros ? [? _]].
    intros [osd a] o' Hx [Ho' Ha']. pose proof (some_spec _ _ Hx) as Hs.
    eapply okP_impl; [apply (apply_affinity_okP n p q r s); [|by apply Ha'|done]|].
    - unfold r. rewrite Hs. apply orb_true_r.
    - by intros o2 [? ?]. }
  clear o Ho o1 Ho1 Haff. intros o Ho. eapply okP_bind with (Q := osds_inv n p q r s).
  { apply fold_okP; [done|]. intros [osd st] o' Hx Ho'. pose proof (some_spec _ _ Hx) as Hs.
    apply apply_state_okP; try done.
    - unfold p. rewrite Hs, !orb_true_r. done.
    - unfold r. rewrite Hs, !orb_true_r. done.
    - unfold s. rewrite Hs, !orb_true_r. done.
    - apply elem_of_map_to_list in Hx. by apply (Hst osd). }
  clear o Ho. intros o Ho. eapply okP_bind with (Q := osds_inv n p q r s).
  { apply fold_okP; [done|]. intros [osd a] o' Hx Ho'. pose proof (some_spec _ _ Hx) as Hs.
    apply apply_up_okP; try done.
    - unfold p. rewrite Hs, !orb_true_r. done.
    - unfold s. rewrite Hs, !orb_true_r. done. }
  intros o' [Ho' _]. done.
Qed.

(** ** Pools and their names stay in step *)

(** Each name leads to the pool of that name, and each named pool is found. *)
Definition names_exact (pools : gmap Z Pool) (names : gmap bytes Z) : Prop :=
  (forall n id, names !! n = Some id -> exists p, pools !! id = Some p /\ p_name p = n) /\
  (forall id p, pools !! id = Some p -> p_name p <> [] -> names !! p_name p = Some id).

Definition pool_ids (pools : gmap Z Pool) : Prop := map_Forall (fun id p => p_id p = id /\ pool_ok p) pools.

Lemma names_exact_add pools names id p q :
  names_exact pools names -> p_name q = [] ->
  p = (match pools !! id with Some old => with_name (p_name old) q | None => q end) ->
  names_exact (<[id := p]> pools) names.
Proof.
  intros [H1 H2] Hq ->. split.
  - intros n i Hi. destruct (H1 _ _ Hi) as (p & Hp & Hn). destruct (decide (id = i)) as [->|].
    + rewrite lookup_insert_eq, Hp. by eexists.
    + rewrite lookup_insert_ne by done. eauto.
  - intros i p [[<- <-]|[? Hp]]%lookup_insert_Some Hne; [|by apply H2].
    destruct (pools !! id) as [old|] eqn:E; [|done]. by apply (H2 _ _ E).
Qed.

Lemma names_exact_rename pools names id p name :
  names_exact pools names -> pools !! id = Some p ->
  (forall i, names !! name = Some i -> i = id) ->
  names_exact (<[id := with_name name p]> pools) (<[name := id]> (delete (p_name p) names)).
Proof.
  intros [H1 H2] Hp Hn. split.
  - intros n i [[<- <-]|[Hne [Hd Hi]%lookup_delete_Some]]%lookup_insert_Some; [rewrite lookup_insert_eq; eauto|].
    destruct (H1 _ _ Hi) as (p' & Hp' & Hn'). rewrite lookup_insert_ne; [eauto|]. congruence.
  - intros i q [[<- <-]|[Hi Hq]]%lookup_insert_Some Hne; [apply lookup_insert_eq|].
    specialize (H2 _ _ Hq Hne) as Hq2. rewrite lookup_insert_ne.
    2: { intros E. rewrite <- E in Hq2. by apply Hi, eq_sym, Hn. }
    rewrite lookup_delete_ne; [done|]. intros E. rewrite <- E in *. specialize (H2 _ _ Hp Hne). congruence.
Qed.

Lemma names_exact_remove pools names id p :
  names_exact pools names -> pools !! id = Some p ->
  names_exact (delete id pools) (delete (p_name p) names).
Proof.
  intros [H1 H2] Hp. split.
  - intros n i [Hd Hi]%lookup_delete_Some. destruct (H1 _ _ Hi) as (p' & Hp' & Hn').
    exists p'. split; [|done]. apply lookup_delete_Some. split; [congruence|done].
  - intros i q [Hi Hq]%lookup_delete_Some Hne. apply lookup_delete_Some. specialize (H2 _ _ Hq Hne) as Hq2.
    split; [|done]. intros E. rewrite <- E in *. specialize (H2 _ _ Hp Hne). congruence.
Qed.

(** What the pool loops keep: the ownership they rely on, the identities and,
    when [exact], the names. *)
Definition pools_inv (owned exact : Prop) (c : pool_cells) : Prop :=
  (owned -> is_owned (fst c) /\ is_owned (snd c)) /\ pool_ids (get (fst c)) /\
  (exact -> names_exact (get (fst c)) (get (snd c))).

Section pool_steps.
Context (owned exact : Prop).

Lemma apply_new_pool_okP id p c : owned -> p_id p = id -> p_name p = [] -> pool_ok p ->
  pools_inv owned exact c -> okP (pools_inv owned exact) (apply_new_pool (id, p) c).
Proof.
  intros Ho Hid Hn Hok (O & I & E). destruct c as [[ps|ps] [ns|ns]]; cbn in O; try (exfalso; tauto).
  cbn. split; [done|]. split.
  - apply map_Forall_insert_2; [|done]. by destruct (ps !! id).
  - intros He. by eapply names_exact_add; [apply E| |].
Qed.

Lemma apply_rename_okP id name c : owned -> pools_inv owned exact c ->
  okP (pools_inv owned exact) (apply_rename (id, name) c).
Proof.
  intros Ho (O & I & E). destruct c as [[ps|ps] [ns|ns]]; cbn in O; try (exfalso; tauto). cbn in I, E.
  cbn [apply_rename get]. destruct (ps !! id) as [p|] eqn:Ep; [|done].
  destruct (match ns !! name with Some oldID => negb (oldID =? id) | None => false end) eqn:Ed; [done|].
  cbn. split; [done|]. split.
  - apply map_Forall_insert_2; [|done]. by destruct (I _ _ Ep).
  - intros He. apply names_exact_rename; [by apply E|done|]. intros i Hi. rewrite Hi in Ed. bsplit. lia.
Qed.

Lemma apply_old_pool_okP id c : owned -> pools_inv owned exact c ->
  okP (pools_inv owned exact) (apply_old_pool id c).
Proof.
  intros Ho (O & I & E). destruct c as [[ps|ps] [ns|ns]]; cbn in O; try (exfalso; tauto). cbn in I, E.
  cbn [apply_old_pool get]. destruct (ps !! id) as [p|] eqn:Ep; [|done].
  cbn. split; [done|]. split; [by apply map_Forall_delete|]. intros He. apply names_exact_remove; [by apply E|done].
Qed.
End pool_steps.

Lemma apply_pools_okP current inc renames (exact : Prop) :
  osdmap_ok current -> incremental_ok inc -> renames ≡ₚ map_to_list (in_newPoolNames inc) ->
  (exact -> names_exact (om_pools current) (om_nameToID current)) ->
  okP (fun c => pool_ids (get (fst c)) /\ (exact -> names_exact (get (fst c)) (get (snd c))))
    (apply_pools current inc renames).
Proof.
  intros (_ & (HP & _) & _) (HN & _) Hren Hex. unfold apply_pools.
  set (owned := some (in_newPools inc) || some (in_newPoolNames inc) || nonempty (in_oldPools inc) = true).
  eapply okP_bind with (Q := pools_inv owned exact).
  { apply fold_okP.
    - split; [|cbn; by rewrite !get_clone_if]. intros Ho. split; by apply (clone_if_owned _ _ owned).
    - intros [id p] c Hx Hc. apply elem_of_map_to_list in Hx as Hl. destruct (HN _ _ Hl) as (? & ? & ?).
      apply apply_new_pool_okP; try done. unfold owned. by rewrite (some_spec _ _ Hx). }
  intros c Hc. eapply okP_bind with (Q := pools_inv owned exact).
  { apply fold_okP; [done|]. intros [id name] c' Hx Hc'. apply apply_rename_okP; [|done].
    rewrite Hren in Hx. unfold owned. rewrite (some_spec _ _ Hx), orb_true_r. done. }
  clear c Hc. intros c Hc. eapply okP_impl.
  { apply (fold_okP _ _ _ (pools_inv owned exact)); [done|]. intros id c' Hx Hc'.
    apply apply_old_pool_okP; [|done]. unfold owned. by rewrite (nonempty_spec _ _ Hx), orb_true_r. }
  by intros c' (_ & ? & ?).
Qed.

(** *** The loops over placement groups and profiles *)

Lemma applyPGVectors_okP b v changes e : (some changes = true -> b = true) ->
  okP (fun c => exists v, c = clone_if b v) (applyPGVectors (clone_if b v) changes e).
Proof.
  intros Hb. apply cell_loop_okP; [|intros [pg values] a; cbn; eauto]. intros x Hx. by apply Hb, (some_spec _ x).
Qed.

Lemma applyPGInts_okP b v changes d : (some changes = true -> b = true) ->
  okP (fun c => exists v, c = clone_if b v) (applyPGInts (clone_if b v) changes d).
Proof.
  intros Hb. apply cell_loop_okP; [|intros [pg values] a; cbn; eauto]. intros x Hx. by apply Hb, (some_spec _ x).
Qed.

Lemma apply_inserts_okP `{Countable K} {V} b (v changes : gmap K V) : (some changes = true -> b = true) ->
  okP (fun c => exists v, c = clone_if b v) (apply_inserts (clone_if b v) changes).
Proof.
  intros Hb. apply cell_loop_okP; [|intros [k x] a; cbn; eauto]. intros x Hx. by apply Hb, (some_spec _ x).
Qed.

Lemma apply_deletes_okP `{Countable K} {V} b (v : gmap K V) keys : (nonempty keys = true -> b = true) ->
  okP (fun c => exists v, c = clone_if b v) (apply_deletes (clone_if b v) keys).
Proof.
  intros Hb. apply cell_loop_okP; [|intros k a; cbn; eauto]. intros x Hx. by apply Hb, (nonempty_spec _ x).
Qed.

Lemma orb_left (a b : bool) : a = true -> a || b = true.
Proof. by intros ->. Qed.
Lemma orb_right (a b : bool) : b = true -> a || b = true.
Proof. intros ->. apply orb_true_r. Qed.

#[local] Hint Resolve applyPGVectors_okP applyPGInts_okP apply_inserts_okP apply_deletes_okP
  orb_left orb_right : go.

(** What an increment makes of a snapshot. *)
Definition next_ok (current : OSDMap) (inc : OSDMapIncremental) (next : OSDMap) : Prop :=
  vectors_ok next /\ pool_ids (om_pools next) /\ state_ok next /\
  Forall (inU 32) (om_osdWeight next) /\ Forall (inU 32) (om_osdState next) /\
  om_fsid next = om_fsid current /\ om_epoch next = u32 (om_epoch current + 1) /\
  om_crc next = in_fullCRC inc.

Lemma crush_state_ok current (new changed : bool) data :
  state_ok current -> changed = new && negb (bool_decide (om_crushData current = data)) ->
  let crushData := if new then data else om_crushData current in
  (if changed then crushData else crushPlacementState current) = crushData.
Proof.
  intros Hs -> crushData. unfold crushPlacementState.
  assert (default (om_crushData current) (om_placementState current) = om_crushData current) as ->.
  { destruct (om_placementState current) eqn:E; [by apply Hs|done]. }
  unfold crushData. destruct new; cbn [andb]; [|done]. case_bool_decide; by subst.
Qed.

Lemma Apply_okP current inc limits renames (exact : Prop) :
  osdmap_ok current -> incremental_ok inc -> renames ≡ₚ map_to_list (in_newPoolNames inc) ->
  (exact -> names_exact (om_pools current) (om_nameToID current)) ->
  okP (fun next => next_ok current inc next /\
         (exact -> in_fullMap inc = [] -> names_exact (om_pools next) (om_nameToID next) /\
           map_Forall (fun _ p => p_name p <> []) (om_pools next)))
    (ApplyOSDMapIncremental (Some current) (Some inc) limits renames).
Proof.
  intros Hcur Hinc Hren Hex. cbn [ApplyOSDMapIncremental].
  case_bool_decide as Hfsid; cbn [negb]; [|done].
  destruct (Z.eqb_spec (in_epoch inc) (u32 (om_epoch current + 1))) as [Hep|]; cbn [negb]; [|done].
  destruct (in_fullMap inc) as [|b0 full] eqn:Efull; cbn [nonempty].
  2: { eapply okP_bind; [apply DecodeOSDMap_post|]. intros next (V & (P & _) & S & W).
       destruct (negb (bool_decide (om_fsid next = om_fsid current)) || _ || _) eqn:E; [done|]. bsplit. cbn.
       split; [|by intros _ [=]]. split_and!; try done; try lia; try apply V; try apply W.
       by eapply bool_decide_eq_true. }
  eapply okP_bind; [by apply (apply_pools_okP _ _ _ exact)|]. intros [pools names] [HP HE].
  eapply okP_bind; [by apply apply_osds_okP|]. intros [maxOSD o] [Hmax Ho].
  eapply okP_bind; [eauto with go|]. intros ? [pgTemp ->].
  eapply okP_bind; [eauto with go|]. intros ? [primaryTemp ->].
  cbv zeta.
  eapply okP_bind; [eauto with go|]. intros ? [profiles1 ->].
  eapply okP_bind; [eauto with go|]. intros ? [profiles ->].
  eapply okP_bind; [eauto with go|]. intros ? [upmap1 ->].
  eapply okP_bind; [eauto with go|]. intros ? [upmap ->].
  eapply okP_bind; [eauto with go|]. intros ? [items1 ->].
  eapply okP_bind; [eauto with go|]. intros ? [items ->].
  eapply okP_bind; [eauto with go|]. intros ? [prim1 ->].
  eapply okP_bind; [eauto with go|]. intros ? [prim ->].
  destruct (existsb _ _) eqn:Ex; [done|]. cbn. destruct Ho as (L1 & L2 & L3 & L4 & F1 & F2).
  split; [split_and!; cbn; try done|].
  - intros data [= <-]. destruct Hcur as (_ & _ & Hs & _). by eapply crush_state_ok.
  - intros He _. split; [by apply HE|]. intros id p Hp Hn. cbn in Hp.
    assert (existsb (fun ip => negb (nonempty (p_name ip.2))) (map_to_list (get pools)) = true) as E2; [|congruence].
    apply existsb_exists. exists (id, p). split; [by apply list_elem_of_In, elem_of_map_to_list|].
    cbn. by rewrite Hn.
Qed.

(** ** Properties *)

(** C3. Copy on write is safe: applying an increment to a snapshot never writes
    to a map or slice that it shares with the published snapshot, and never
    indexes an OSD vector out of range, whatever the increment holds and in
    whatever order Go iterates over the renames. *)
Theorem Apply_never_aliases current inc limits renames :
  osdmap_ok current -> incremental_ok inc -> renames ≡ₚ map_to_list (in_newPoolNames inc) ->
  ApplyOSDMapIncremental (Some current) (Some inc) limits renames <> Panic.
Proof.
  intros Hc Hi Hr H. pose proof (Apply_okP current inc limits renames False Hc Hi Hr) as P.
  rewrite H in P. by apply P.
Qed.

(** C4. An increment keeps the invariant of the client map: the result is for the
    same cluster and the next epoch, its OSD vectors have the length
    [max_osd], its CRUSH state belongs to its CRUSH payload, and when the
    names and the pools of the snapshot correspond they still do, with every
    pool named. *)
Theorem Apply_preserves current inc limits renames next :
  osdmap_ok current -> incremental_ok inc -> renames ≡ₚ map_to_list (in_newPoolNames inc) ->
  names_exact (om_pools current) (om_nameToID current) ->
  ApplyOSDMapIncremental (Some current) (Some inc) limits renames = Ok next ->
  next_ok current inc next /\
  (in_fullMap inc = [] -> names_exact (om_pools next) (om_nameToID next) /\
    map_Forall (fun _ p => p_name p <> []) (om_pools next)).
Proof.
  intros Hc Hi Hr He H. pose proof (Apply_okP current inc limits renames True Hc Hi Hr (fun _ => He)) as P.
  rewrite H in P. destruct P as [? ?]. auto.
Qed.

(** Two pools and one OSD; the increment renames both pools, marks the OSD up
    and gives it an address, and sets and clears temporary mappings. *)
Definition sample_current : OSDMap := mkOSDMap (zeros 16) 7 (mkUTime 1 0) (mkUTime 2 0)
  {[ 1 := with_id 1 (with_name [Byte.x41] Pool_zero); 2 := with_id 2 (with_name [Byte.x42] Pool_zero) ]}
  {[ [Byte.x41] := 1; [Byte.x42] := 2 ]}
  2 0 1 [1] [0x10000] [[]] {[ mkPG 1 0 (-1) := [0] ]} ∅ [] [Byte.x01] (Some [Byte.x01]) ∅ ∅ ∅ 3 ∅ ∅
  (mkUTime 0 0) (mkUTime 0 0) ∅ 99 true false.

Definition sample_increment (names : gmap Z bytes) : OSDMapIncremental := mkIncremental (zeros 16) 8
  (mkUTime 3 0) (-1) (-1) [] [] (-1) ∅ names [] {[ 0 := [] ]} {[ 0 := 0 ]} ∅
  {[ mkPG 1 0 (-1) := []; mkPG 2 0 (-1) := [0] ]} ∅ ∅ ∅ [] ∅ [] ∅ [] ∅ ∅ (mkUTime 0 0) (mkUTime 0 0)
  ∅ [] 5 6.

Definition sample_renames : gmap Z bytes := {[ 1 := [Byte.x42]; 2 := [Byte.x43] ]}.

Definition sample_map_limits : MapLimits := mkMapLimits 4096 16 16 16 16 16 16 16.

(** The outcome can depend on the iteration order of the map of renames: with
    pool 1 renamed to the name pool 2 gives up, the increment is applied in
    one order and refused as a duplicate name in the other. *)
Example rename_order_matters :
  let apply := ApplyOSDMapIncremental (Some sample_current) (Some (sample_increment sample_renames)) sample_map_limits in
  (match apply [(2, [Byte.x43]); (1, [Byte.x42])] with Ok _ => true | _ => false end) = true /\
  apply [(1, [Byte.x42]); (2, [Byte.x43])] = Err maps_ErrMalformedMap.
Proof. split; vm_compute; reflexivity. Qed.

Lemma pool_zero_ok : pool_ok Pool_zero.
Proof.
  split_and!; try (unfold inU; cbn; lia). split; [apply map_Forall_empty|].
  intros i j a b H. change (p_snapshots Pool_zero) with (∅ : gmap Z PoolSnapshot) in H.
  by rewrite lookup_empty in H.
Qed.

Lemma sample_current_exact : names_exact (om_pools sample_current) (om_nameToID sample_current).
Proof.
  cbv delta [sample_current] beta iota. cbn [om_pools om_nameToID]. split.
  - intros n id [[<- <-]|[_ [<- <-]%lookup_singleton_Some]]%lookup_insert_Some; eexists; split; reflexivity.
  - intros id p [[<- <-]|[_ [<- <-]%lookup_singleton_Some]]%lookup_insert_Some _; reflexivity.
Qed.

Lemma sample_current_ok : osdmap_ok sample_current.
Proof.
  pose proof pool_zero_ok as HZ. destruct sample_current_exact as [E1 E2].
  split; [|split; [split; [|split]|split; [|split]]].
  - split_and!; try done. by left.
  - apply map_Forall_insert_2; [done|]. by apply map_Forall_singleton.
  - intros n id H. destruct (E1 n id H) as (p & -> & _). eauto.
  - exact E2.
  - by intros data [= <-].
  - repeat constructor; unfold inU; cbn; lia.
  - repeat constructor; unfold inU; cbn; lia.
Qed.

Lemma sample_increment_ok names : incremental_ok (sample_increment names).
Proof.
  split; [apply map_Forall_empty|]. split; [|apply map_Forall_empty].
  apply map_Forall_singleton. unfold inU. lia.
Qed.

Lemma sample_renames_order : [(2, [Byte.x43]); (1, [Byte.x42])] ≡ₚ map_to_list sample_renames.
Proof.
  unfold sample_renames. rewrite map_to_list_insert, map_to_list_singleton by by rewrite lookup_singleton_ne.
  constructor.
Qed.

Lemma Apply_never_aliases_witness :
  ApplyOSDMapIncremental (Some sample_current) (Some (sample_increment sample_renames)) sample_map_limits
    [(2, [Byte.x43]); (1, [Byte.x42])] <> Panic.
Proof.
  apply (Apply_never_aliases sample_current (sample_increment sample_renames));
    [apply sample_current_ok|apply sample_increment_ok|apply sample_renames_order].
Defined.

Definition sample_next : OSDMap := Eval vm_compute in
  match ApplyOSDMapIncremental (Some sample_current) (Some (sample_increment sample_renames)) sample_map_limits
    [(2, [Byte.x43]); (1, [Byte.x42])] with Ok m => m | _ => sample_current end.

Lemma Apply_preserves_witness :
  next_ok sample_current (sample_increment sample_renames) sample_next /\
  (in_fullMap (sample_increment sample_renames) = [] ->
    names_exact (om_pools sample_next) (om_nameToID sample_next) /\
    map_Forall (fun _ p => p_name p <> []) (om_pools sample_next)).
Proof.
  apply (Apply_preserves sample_current (sample_increment sample_renames) sample_map_limits
    [(2, [Byte.x43]); (1, [Byte.x42])]);
    [apply sample_current_ok|apply sample_increment_ok|apply sample_renames_order|apply sample_current_exact|].
  vm_compute. reflexivity.
Defined.

(** *** What the loops over placement groups leave *)

Lemma cell_loop_value {A B} (f : A -> B -> B) (body : A -> cell B -> res (cell B)) l v :
  (forall x c, body x c = write c (f x)) ->
  fold_res body l (Owned v) = Ok (Owned (foldl (fun v x => f x v) v l)).
Proof.
  intros Hb. revert v. induction l as [|x l IH]; intros v; [done|]. cbn [fold_res foldl].
  rewrite Hb. cbn [write update mbind res_bind]. apply IH.
Qed.

(** A loop over the entries of a map that sets or deletes the entry's key. *)
Lemma entry_loop {V} (g : V -> option V) (changes m : gmap PG V) (pg : PG) :
  foldl (fun m (kv : PG * V) => match g kv.2 with Some w => <[kv.1 := w]> m | None => delete kv.1 m end)
    m (map_to_list changes) !! pg =
  match changes !! pg with Some v => g v | None => m !! pg end.
Proof.
  pose proof (NoDup_fst_map_to_list changes) as Hnd.
  assert (changes !! pg = (list_to_map (map_to_list changes) : gmap PG V) !! pg) as -> by by rewrite list_to_map_to_list.
  revert m Hnd. induction (map_to_list changes) as [|[k v] l IH]; intros m Hnd; [reflexivity|].
  cbn [fmap list_fmap] in Hnd. apply NoDup_cons in Hnd as [Hk Hnd]. cbn [foldl]. rewrite (IH _ Hnd).
  cbn [list_to_map foldr uncurry]. destruct (decide (k = pg)) as [->|Hne].
  - change (list_to_map ((pg, v) :: l)) with (<[pg := v]> (list_to_map l : gmap PG V)).
    rewrite lookup_insert_eq.
    rewrite (not_elem_of_list_to_map_1 (M := gmap PG)) by done. cbn. destruct (g v).
    + apply lookup_insert_eq.
    + apply lookup_delete_eq.
  - change (list_to_map ((k, v) :: l)) with (<[k := v]> (list_to_map l : gmap PG V)).
    rewrite lookup_insert_ne by done. destruct (list_to_map l !! pg); [done|]. cbn. destruct (g v).
    + by rewrite lookup_insert_ne.
    + by rewrite lookup_delete_ne.
Qed.

(** The temporary mappings after an increment: a placement group the
    increment names has the vector or primary it gives, an empty [pg_temp]
    vector and the primary -1 remove the mapping, and every other group keeps
    what it had. *)
Theorem pg_changes_applied (vectors newVectors : gmap PG (list Z)) (ints newInts : gmap PG Z) (pg : PG) :
  (exists m, applyPGVectors (Owned vectors) newVectors true = Ok (Owned m) /\
    m !! pg = match newVectors !! pg with
              | Some [] => None
              | Some v => Some v
              | None => vectors !! pg
              end) /\
  (exists m, applyPGInts (Owned ints) newInts (-1) = Ok (Owned m) /\
    m !! pg = match newInts !! pg with
              | Some v => if v =? -1 then None else Some v
              | None => ints !! pg
              end).
Proof.
  split.
  - eexists. split.
    { unfold applyPGVectors. apply (cell_loop_value (fun (kv : PG * list Z) m =>
        match (if nonempty kv.2 then Some kv.2 else None) with Some w => <[kv.1 := w]> m | None => delete kv.1 m end)).
      intros [k v] c. unfold write. f_equal. cbn. by destruct v. }
    rewrite (entry_loop (fun v => if nonempty v then Some v else None)). by destruct (newVectors !! pg) as [[]|].
  - eexists. split.
    { unfold applyPGInts. apply (cell_loop_value (fun (kv : PG * Z) m =>
        match (if kv.2 =? -1 then None else Some kv.2) with Some w => <[kv.1 := w]> m | None => delete kv.1 m end)).
      intros [k v] c. unfold write. f_equal. cbn [fst snd]. by destruct (v =? -1). }
    by rewrite (entry_loop (fun v => if v =? -1 then None else Some v)).
Qed.
