(* ===== verification/Placement.v ===== *)
(** * From an object name to its OSDs (src/internal/maps/placement.go) *)

From stdpp Require Import base gmap list numbers.
From coqutil Require Import Byte Word.LittleEndianList.
From S2P Require Import Prelude Codec Protocol CrushHash CrushMap CrushPlace MonMap Pool OSDMap Incremental.
From stdpp Require Import list.

Open Scope Z_scope.
Open Scope go_scope.

Definition objectHashRJenkins : Z := 2.
Definition poolFlagHashPSPool : Z := 2 ^ 0.
Definition crushItemNone : Z := 0x7fffffff.

(** [crushState.decode]; the [sync.Once] only caches the outcome. *)
Definition crushState_decode (data : bytes) : res PlacementMap :=
  if MaxUint32 <? len data then Err maps_ErrUnsupportedPlacement
  else
    let byteLimit := u32 (len data) in
    let structuralLimit := Z.max (byteLimit / 4) 1 in
    res_map_err (fun _ => maps_ErrUnsupportedPlacement)
      (DecodePlacementMap data (mkDecodeLimits byteLimit structuralLimit structuralLimit
         structuralLimit structuralLimit)).

Record ObjectPlacement := mkObjectPlacement {
  op_RawHash : Z;
  op_RawPG : PG;
  op_PG : PG;
  op_PlacementSeed : Z;
  op_Raw : list Z;
  op_Up : list Z;
  op_UpPrimary : Z;
  op_Acting : list Z;
  op_ActingPrimary : Z;
  op_PrimaryShard : Z;
  op_Sharded : bool }.

Definition MapRawHash (m : OSDMap) (poolID hash : Z) : res ObjectPlacement :=
  if poolID <? 0 then Err maps_ErrUnsupportedPlacement
  else
    match om_pools m !! poolID with
    | None => Err maps_ErrUnsupportedPlacement
    | Some pool =>
        if negb (p_objectHash pool =? objectHashRJenkins) then Err maps_ErrUnsupportedPlacement
        else if Z.land (p_flags pool) poolFlagHashPSPool =? 0 then Err maps_ErrUnsupportedPlacement
        else if (p_pgCount pool =? 0) || (p_placementPGCount pool =? 0)
                || (p_pgCount pool <? p_placementPGCount pool) then Err maps_ErrUnsupportedPlacement
        else
          let raw := mkPG (u64 poolID) hash (-1) in
          let actual := mkPG (u64 poolID) (StableMod hash (p_pgCount pool)) (-1) in
          let placementPG := StableMod hash (p_placementPGCount pool) in
          let placementSeed := Hash32Pair placementPG (u32 poolID) in
          Ok (mkObjectPlacement hash raw actual placementSeed [] [] 0 [] 0 0 false)
    end.

Definition MapObject (m : OSDMap) (poolID : Z) (object locator namespace : bytes) : res ObjectPlacement :=
  MapRawHash m poolID (ObjectHash object locator namespace).

(** ** OSD state *)

Definition exists_ (m : OSDMap) (osd : Z) : bool :=
  (0 <=? osd) && (osd <? len (om_osdState m)) &&
  negb (Z.land (default 0 (om_osdState m !! Z.to_nat osd)) osdStateExists =? 0).

Definition isUp (m : OSDMap) (osd : Z) : bool :=
  exists_ m osd && negb (Z.land (default 0 (om_osdState m !! Z.to_nat osd)) osdStateUp =? 0).

(** [osd != crushItemNone && osd >= 0 && int(osd) < len(osdWeight)] *)
Definition has_weight (m : OSDMap) (osd : Z) : bool :=
  negb (osd =? crushItemNone) && (0 <=? osd) && (osd <? len (om_osdWeight m)).

Definition weight_of (m : OSDMap) (osd : Z) : Z := default 0 (om_osdWeight m !! Z.to_nat osd).

Definition out_ (m : OSDMap) (osd : Z) : bool := has_weight m osd && (weight_of m osd =? 0).

Fixpoint firstOSD (osds : list Z) : Z :=
  match osds with
  | [] => -1
  | osd :: osds => if negb (osd =? crushItemNone) then osd else firstOSD osds
  end.

Definition containsOSD (osds : list Z) (target : Z) : bool := existsb (Z.eqb target) osds.

Fixpoint check_set (m : OSDMap) (allowDuplicates : bool) (seen : gset Z) (osds : list Z) : res unit :=
  match osds with
  | [] => Ok tt
  | osd :: osds =>
      if osd =? crushItemNone then check_set m allowDuplicates seen osds
      else if negb (exists_ m osd) then Err maps_ErrUnsupportedPlacement
      else if bool_decide (osd ∈ seen) && negb allowDuplicates then Err maps_ErrUnsupportedPlacement
      else check_set m allowDuplicates ({[osd]} ∪ seen) osds
  end.

Definition validatePlacementSet (m : OSDMap) (osds : list Z) (allowDuplicates : bool) : res unit :=
  check_set m allowDuplicates ∅ osds.

(** ** Exception tables *)

Fixpoint check_remaps (m : OSDMap) (items : list OSDRemap) : res unit :=
  match items with
  | [] => Ok tt
  | remap :: items =>
      if negb (rm_To remap =? crushItemNone) && negb (exists_ m (rm_To remap))
      then Err maps_ErrUnsupportedPlacement else check_remaps m items
  end.

Definition validateUpmap (m : OSDMap) (pg : PG) : res unit :=
  _ ← match om_pgUpmap m !! pg with
      | Some replacement => validatePlacementSet m replacement false
      | None => Ok tt
      end;
  check_remaps m (default [] (om_pgUpmapItems m !! pg)).

(** The inner loop over [result]: [Some position] when the remap applies. *)
Fixpoint find_remap (m : OSDMap) (remap : OSDRemap) (index position : Z) (result : list Z) : option Z :=
  match result with
  | [] => if 0 <=? position then Some position else None
  | osd :: result =>
      if osd =? rm_To remap then None
      else
        let position := if (osd =? rm_From remap) && (position <? 0) && negb (out_ m (rm_To remap))
                        then index else position in
        find_remap m remap (index + 1) position result
  end.

Definition apply_remap (m : OSDMap) (result : list Z) (remap : OSDRemap) : list Z :=
  match find_remap m remap 0 (-1) result with
  | Some position => <[Z.to_nat position := rm_To remap]> result
  | None => result
  end.

(** The loop from index 1 that brings the upmap primary to the front. *)
Fixpoint find_from (index : nat) (primary : Z) (result : list Z) : option nat :=
  match result with
  | [] => None
  | osd :: result => if osd =? primary then Some index else find_from (S index) primary result
  end.

Definition promote (primary : Z) (result : list Z) : list Z :=
  match result with
  | [] => []
  | first :: rest =>
      match find_from 1 primary rest with
      | Some index => <[index := first]> (primary :: rest)
      | None => result
      end
  end.

(** The part of [applyUpmap] after the replacement. *)
Definition apply_items (m : OSDMap) (pg : PG) (result : list Z) : list Z :=
  let result := foldl (apply_remap m) result (default [] (om_pgUpmapItems m !! pg)) in
  match om_pgUpmapPrimaries m !! pg with
  | Some primary =>
      if has_weight m primary && negb (weight_of m primary =? 0) then promote primary result else result
  | None => result
  end.

Definition applyUpmap (m : OSDMap) (pg : PG) (source : list Z) : list Z :=
  match om_pgUpmap m !! pg with
  | Some replacement => if existsb (out_ m) replacement then source else apply_items m pg replacement
  | None => apply_items m pg source
  end.

(** ** Up and acting sets *)

Definition onlyUp (m : OSDMap) (source : list Z) : list Z := filter (fun osd => isUp m osd = true) source.

Definition upOSDs (m : OSDMap) (pool : Pool) (source : list Z) : list Z :=
  if p_poolType pool =? poolTypeReplicated then onlyUp m source
  else (fun osd => if negb (isUp m osd) then crushItemNone else osd) <$> source.

Definition isNonprimaryShard (pool : Pool) (shard : Z) : bool :=
  (0 <=? shard) && (shard <? 128) &&
  negb (Z.land (if shard / 64 =? 0 then fst (p_nonprimaryShards pool) else snd (p_nonprimaryShards pool))
          (u64 (Z.shiftl 1 (shard mod 64))) =? 0).

Definition validNonprimaryShards (pool : Pool) : bool :=
  forallb (fun shard => negb (isNonprimaryShard pool shard)) (seqZ (p_size pool) (128 - p_size pool)).

Definition pgTempPrimaryFirst (pool : Pool) (source : list Z) : list Z :=
  let shards := zip (seqZ 0 (len source)) source in
  (filter (fun so => isNonprimaryShard pool so.1 = false) shards).*2 ++
  (filter (fun so => isNonprimaryShard pool so.1 = true) shards).*2.

(** The second loop, over the shards, with the two cursors. *)
Definition undo_step (pool : Pool) (source : list Z) (shard : Z) (acc : list Z * Z * Z)
    : res (list Z * Z * Z) :=
  let '(result, primaryIndex, nonprimaryIndex) := acc in
  if isNonprimaryShard pool shard then
    osd ← index source nonprimaryIndex;
    result ← store result shard osd;
    Ok (result, primaryIndex, nonprimaryIndex + 1)
  else
    osd ← index source primaryIndex;
    result ← store result shard osd;
    Ok (result, primaryIndex + 1, nonprimaryIndex).

Definition pgTempUndoPrimaryFirst (pool : Pool) (source : list Z) : res (list Z) :=
  let shards := seqZ 0 (len source) in
  let nonprimaryIndex := len source - len (filter (fun s => isNonprimaryShard pool s = true) shards) in
  '(result, _, _) ← fold_res (undo_step pool source) shards
    (replicate (length source) 0, 0, nonprimaryIndex);
  Ok result.

Definition pgTempUndoPrimaryFirstIndex (pool : Pool) (position : Z) : res Z :=
  let canonical := seqZ 0 (p_size pool) in
  index (pgTempPrimaryFirst pool canonical) position.

Definition tempMapping (m : OSDMap) (pool : Pool) (pg : PG) : res (list Z * Z) :=
  let primary := default (-1) (om_primaryTemp m !! pg) in
  match om_pgTemp m !! pg with
  | None => Ok ([], primary)
  | Some source =>
      _ ← validatePlacementSet m source (p_poolType pool =? poolTypeErasure);
      let result := upOSDs m pool source in
      let primary := if primary =? -1 then firstOSD result else primary in
      if (p_poolType pool =? poolTypeErasure) && negb (Z.land (p_flags pool) poolFlagECOptimizations =? 0) then
        if negb (len result =? p_size pool) || negb (validNonprimaryShards pool)
        then Err maps_ErrUnsupportedPlacement
        else result ← pgTempUndoPrimaryFirst pool result; Ok (result, primary)
      else Ok (result, primary)
  end.

(** The loop that picks the position of the primary. *)
Fixpoint affinity_position (m : OSDMap) (seed : Z) (index position : Z) (osds : list Z) : Z :=
  match osds with
  | [] => position
  | osd :: osds =>
      if (osd =? crushItemNone) || (osd <? 0) || (len (om_primaryAffinity m) <=? osd) then
        affinity_position m seed (index + 1) position osds
      else
        let affinity := default 0 (om_primaryAffinity m !! Z.to_nat osd) in
        if (affinity <? defaultPrimaryAffinity) && (affinity <=? Z.shiftr (Hash32Pair seed (u32 osd)) 16) then
          affinity_position m seed (index + 1) (if position <? 0 then index else position) osds
        else index
  end.

(** The slice as it then is, and the primary. *)
Definition applyPrimaryAffinity (m : OSDMap) (pool : Pool) (seed : Z) (osds : list Z) (primary : Z)
    : res (list Z * Z) :=
  if len (om_primaryAffinity m) =? 0 then Ok (osds, primary)
  else
    let position := affinity_position m seed 0 (-1) osds in
    if position <? 0 then Ok (osds, primary)
    else
      primary ← index osds position;
      if (p_poolType pool =? poolTypeReplicated) && (0 <? position)
      then Ok (primary :: take (Z.to_nat position) osds ++ drop (Z.to_nat (position + 1)) osds, primary)
      else Ok (osds, primary).

(** The loop that finds the shard of the acting primary. *)
Fixpoint find_shard (pool : Pool) (optimized : bool) (primary : Z) (index : Z) (order : list Z)
    : res (option Z) :=
  match order with
  | [] => Ok None
  | osd :: order =>
      if osd =? primary then
        shard ← (if optimized then pgTempUndoPrimaryFirstIndex pool index else Ok index);
        if 127 <? shard then Err maps_ErrUnsupportedPlacement else Ok (Some (i8 shard))
      else find_shard pool optimized primary (index + 1) order
  end.

Definition placeMapped (m : OSDMap) (poolID : Z) (placement : ObjectPlacement) : res ObjectPlacement :=
  let pool := default Pool_zero (om_pools m !! poolID) in
  if negb (p_poolType pool =? poolTypeReplicated) && negb (p_poolType pool =? poolTypeErasure)
  then Err maps_ErrUnsupportedPlacement
  else if p_size pool =? 0 then Err maps_ErrUnsupportedPlacement
  else
    crushMap ← crushState_decode (crushPlacementState m);
    raw ← res_map_err (fun _ => maps_ErrUnsupportedPlacement)
      (PlacementMap_Place (Some crushMap) (p_crushRule pool) (op_PlacementSeed placement) (p_size pool)
         (om_osdWeight m));
    _ ← validateUpmap m (op_PG placement);
    let mapped := applyUpmap m (op_PG placement) raw in
    let up := upOSDs m pool mapped in
    '(up, upPrimary) ← applyPrimaryAffinity m pool (op_PlacementSeed placement) up (firstOSD up);
    '(temp, tempPrimary) ← tempMapping m pool (op_PG placement);
    let '(acting, actingPrimary) :=
      if len temp =? 0 then (up, if tempPrimary =? -1 then upPrimary else tempPrimary)
      else (temp, tempPrimary) in
    if negb (actingPrimary =? -1) && negb (containsOSD acting actingPrimary)
    then Err maps_ErrUnsupportedPlacement
    else
      shard ← (if p_poolType pool =? poolTypeErasure then
          let optimized := match om_pgTemp m !! op_PG placement with Some _ => true | None => false end
            && negb (Z.land (p_flags pool) poolFlagECOptimizations =? 0) in
          find_shard pool optimized actingPrimary 0
            (if optimized then pgTempPrimaryFirst pool acting else acting)
        else Ok None);
      Ok (mkObjectPlacement (op_RawHash placement) (op_RawPG placement) (op_PG placement)
        (op_PlacementSeed placement) raw up upPrimary acting actingPrimary (default 0 shard)
        (match shard with Some _ => true | None => false end)).

Definition PlaceRawHash (m : OSDMap) (poolID hash : Z) : res ObjectPlacement :=
  placement ← MapRawHash m poolID hash;
  placeMapped m poolID placement.

Definition PlaceObject (m : OSDMap) (poolID : Z) (object locator namespace : bytes) : res ObjectPlacement :=
  placement ← MapObject m poolID object locator namespace;
  placeMapped m poolID placement.

(** ** Duplicates *)

Lemma distinct_perm l l' : l ≡ₚ l' -> distinct l -> distinct l'.
Proof. intros H. unfold distinct. by rewrite H. Qed.

Lemma distinct_insert l i x : distinct l -> x ∉ l -> distinct (<[i := x]> l).
Proof.
  intros Hl Hx. destruct (decide (i < length l)%nat) as [Hi|Hi].
  2: { rewrite list_insert_ge by lia. done. }
  destruct (lookup_lt_is_Some_2 l i Hi) as [y Hy].
  rewrite insert_take_drop by done. rewrite <- (take_drop_middle l i y Hy) in Hl, Hx.
  unfold distinct in *. rewrite filter_app, filter_cons in *.
  assert (NoDup (filter (fun x => x <> itemNone) (take i l) ++ filter (fun x => x <> itemNone) (drop (S i) l))) as HN.
  { case_decide; [|done]. apply NoDup_app in Hl as (A1 & A2 & A3). apply NoDup_cons in A3 as [A3 A4].
    apply NoDup_app. split_and!; [done|set_solver|done]. }
  clear Hl. case_decide; [|done]. apply NoDup_app in HN as (H1 & H2 & H3). apply NoDup_app. split_and!; [done| |].
  - intros z Hz [->|Hz']%elem_of_cons; [|by apply (H2 z)]. apply list_elem_of_filter in Hz as [_ Hz]. set_solver.
  - constructor; [|done]. intros [_ Hz]%list_elem_of_filter. set_solver.
Qed.

Lemma find_remap_none m remap i position result : rm_To remap ∈ result ->
  find_remap m remap i position result = None.
Proof.
  revert i position. induction result as [|osd result IH]; intros i position Hin; [by apply elem_of_nil in Hin|].
  cbn. destruct (Z.eqb_spec osd (rm_To remap)); [done|]. apply IH.
  apply elem_of_cons in Hin as [Heq|]; [congruence|done].
Qed.

Lemma apply_remap_distinct m l remap : distinct l -> distinct (apply_remap m l remap).
Proof.
  intros Hl. unfold apply_remap. destruct (decide (rm_To remap ∈ l)) as [Hin|Hni].
  - by rewrite find_remap_none.
  - destruct (find_remap _ _ _ _ _); [by apply distinct_insert|done].
Qed.

Lemma find_from_spec i primary l k : find_from i primary l = Some k ->
  (i <= k)%nat /\ l !! (k - i)%nat = Some primary.
Proof.
  revert i. induction l as [|x l IH]; intros i H; [done|]. cbn in H.
  destruct (Z.eqb_spec x primary) as [->|].
  - injection H as <-. split; [lia|]. by rewrite Nat.sub_diag.
  - destruct (IH _ H) as [? E]. split; [lia|]. by replace (k - i)%nat with (S (k - S i)) by lia.
Qed.

Lemma promote_perm primary l : promote primary l ≡ₚ l.
Proof.
  destruct l as [|x l]; [done|]. unfold promote. destruct (find_from 1 primary l) as [k|] eqn:E; [|done].
  apply find_from_spec in E as [Hk E]. destruct k as [|k]; [lia|]. replace (S k - 1)%nat with k in E by lia.
  change (<[S k := x]> (primary :: l)) with (primary :: <[k := x]> l).
  rewrite insert_take_drop by by eapply lookup_lt_Some.
  rewrite <- (take_drop_middle l k primary E) at 3.
  rewrite <- !Permutation_middle. apply Permutation_swap.
Qed.

Lemma check_set_distinct m seen l : check_set m false seen l = Ok tt ->
  distinct l /\ forall x, x ∈ l -> x <> itemNone -> x ∉ seen.
Proof.
  revert seen. induction l as [|x l IH]; intros seen H; cbn in H.
  { split; [constructor|]. intros x Hx. by apply elem_of_nil in Hx. }
  unfold distinct. rewrite filter_cons. destruct (Z.eqb_spec x crushItemNone) as [->|Hx].
  - destruct (IH _ H) as [H1 H2]. rewrite decide_False by (by intros []). split; [done|].
    intros y [->|Hy]%elem_of_cons Hn; [done|by apply H2].
  - destruct (negb (exists_ m x)); [done|]. rewrite andb_true_r in H. case_bool_decide as Hs; [done|].
    destruct (IH _ H) as [H1 H2]. rewrite decide_True by done. split.
    + constructor; [|done]. intros [_ Hin]%list_elem_of_filter. specialize (H2 x Hin Hx). set_solver.
    + intros y [->|Hy]%elem_of_cons Hn; [done|]. specialize (H2 y Hy Hn). set_solver.
Qed.

Lemma check_set_no_panic m b seen l : check_set m b seen l <> Panic.
Proof.
  revert seen. induction l as [|x l IH]; intros seen; cbn; [done|].
  destruct (_ =? _); [done|]. destruct (negb _); [done|]. by destruct (_ && _).
Qed.

Lemma validateUpmap_okP m pg : okP (fun _ => forall l, om_pgUpmap m !! pg = Some l -> distinct l) (validateUpmap m pg).
Proof.
  unfold validateUpmap.
  assert (forall l, check_remaps m l <> Panic) as Hr.
  { induction l as [|x l IH]; cbn; [done|]. by destruct (_ && _). }
  destruct (om_pgUpmap m !! pg) as [l|].
  - unfold validatePlacementSet. destruct (check_set m false ∅ l) as [[]| |] eqn:E; [|done|by apply check_set_no_panic in E].
    rewrite bind_Ok. apply check_set_distinct in E as [Hd _]. specialize (Hr (default [] (om_pgUpmapItems m !! pg))).
    destruct (check_remaps _ _); [|done|done]. by intros l' [= <-].
  - rewrite bind_Ok. specialize (Hr (default [] (om_pgUpmapItems m !! pg))). by destruct (check_remaps _ _).
Qed.

Lemma applyUpmap_distinct m pg source :
  distinct source -> (forall l, om_pgUpmap m !! pg = Some l -> distinct l) -> distinct (applyUpmap m pg source).
Proof.
  intros Hs Hr. unfold applyUpmap.
  assert (forall l, distinct l -> distinct (apply_items m pg l)) as Hf.
  { intros l Hl. unfold apply_items.
    assert (distinct (foldl (apply_remap m) l (default [] (om_pgUpmapItems m !! pg)))) as H1.
    { revert l Hl. induction (default [] (om_pgUpmapItems m !! pg)) as [|r rs IH]; intros l Hl; [done|].
      cbn. by apply IH, apply_remap_distinct. }
    destruct (om_pgUpmapPrimaries m !! pg); [|done]. destruct (_ && _); [|done].
    eapply distinct_perm; [symmetry; apply promote_perm|done]. }
  destruct (om_pgUpmap m !! pg) as [l|]; [|by apply Hf]. destruct (existsb _ _); [done|]. by apply Hf, Hr.
Qed.

(** ** The up set *)

Definition up_entry (m : OSDMap) (pool : Pool) (x : Z) : Prop :=
  isUp m x = true \/ x = itemNone /\ p_poolType pool <> poolTypeReplicated.

Lemma upOSDs_entries m pool l : Forall (up_entry m pool) (upOSDs m pool l).
Proof.
  unfold upOSDs. destruct (Z.eqb_spec (p_poolType pool) poolTypeReplicated).
  - apply Forall_forall. intros x [Hx _]%list_elem_of_filter. by left.
  - apply Forall_fmap, Forall_forall. intros x _. cbn. destruct (isUp m x) eqn:E; cbn; [by left|by right].
Qed.

Lemma upOSDs_distinct m pool l : distinct l -> distinct (upOSDs m pool l).
Proof.
  intros Hl. unfold upOSDs. destruct (_ =? _).
  - unfold distinct, onlyUp in *. rewrite list_filter_filter.
    rewrite (list_filter_iff _ (fun x => isUp m x = true /\ x <> itemNone)) by (intros; tauto).
    rewrite <- list_filter_filter. by apply NoDup_filter.
  - unfold distinct in *. induction l as [|x l IH]; [constructor|]. rewrite fmap_cons, filter_cons.
    rewrite filter_cons in Hl. destruct (isUp m x); cbn [negb].
    + case_decide; [|by apply IH]. apply NoDup_cons in Hl as [Hx Hl]. constructor; [|by apply IH].
      intros [Hn Hin]%list_elem_of_filter. apply Hx, list_elem_of_filter. split; [done|].
      apply list_elem_of_fmap in Hin as (y & Hy & Hin). destruct (isUp m y); cbn in Hy; [by subst|done].
    + rewrite decide_False by (by intros []). apply IH. case_decide; [by apply NoDup_cons in Hl as [_ ?]|done].
Qed.

Lemma firstOSD_spec l : firstOSD l = -1 \/ firstOSD l ∈ l.
Proof.
  induction l as [|x l IH]; cbn; [by left|]. destruct (x =? crushItemNone); cbn [negb].
  - destruct IH as [->|IH]; [by left|right]. set_solver.
  - right. set_solver.
Qed.

Lemma affinity_position_spec m seed i position l :
  let r := affinity_position m seed i position l in r = position \/ i <= r < i + len l.
Proof.
  revert i position. induction l as [|x l IH]; intros i position; cbn [affinity_position]; [by left|].
  rewrite len_cons. pose proof (len_nonneg l). destruct (_ || _).
  - destruct (IH (i + 1) position) as [->|?]; [by left|right; lia].
  - destruct (_ && _); [|right; lia].
    destruct (IH (i + 1) (if position <? 0 then i else position)) as [->|?]; [|right; lia].
    destruct (position <? 0); [right; lia|by left].
Qed.

Lemma applyPrimaryAffinity_okP m pool seed l primary :
  primary = -1 \/ primary ∈ l ->
  okP (fun '(l', primary') => l' ≡ₚ l /\ (primary' = -1 \/ primary' ∈ l') /\
         (p_poolType pool <> poolTypeReplicated -> l' = l))
    (applyPrimaryAffinity m pool seed l primary).
Proof.
  intros Hp. unfold applyPrimaryAffinity. destruct (_ =? 0); [done|].
  pose proof (affinity_position_spec m seed 0 (-1) l) as Hpos. cbv zeta in Hpos.
  destruct (Z.ltb_spec (affinity_position m seed 0 (-1) l) 0) as [|Hge]; [done|].
  set (k := affinity_position m seed 0 (-1) l) in *.
  destruct (index_in_range l k) as (x & E & Hx); [lia|]. rewrite E, bind_Ok. apply index_ok in E as [_ E].
  destruct (Z.eqb_spec (p_poolType pool) poolTypeReplicated) as [Et|Et]; cbn [andb].
  2: { cbn. split_and!; auto. }
  destruct (Z.ltb_spec 0 k); [|cbn; split_and!; auto].
  replace (Z.to_nat (k + 1)) with (S (Z.to_nat k)) by lia. cbn.
  split; [|split; [right; set_solver|done]].
  rewrite <- (take_drop_middle l (Z.to_nat k) x E) at 3. by rewrite Permutation_middle.
Qed.

(** ** Primary-first order and back *)

Section shards.
Context (pool : Pool).

(** The OSDs of the shards that may and may not be primary, in shard order. *)
Definition prim (l : list Z) : list Z :=
  (filter (fun so : Z * Z => isNonprimaryShard pool so.1 = false) (zip (seqZ 0 (len l)) l)).*2.
Definition nonprim (l : list Z) : list Z :=
  (filter (fun so : Z * Z => isNonprimaryShard pool so.1 = true) (zip (seqZ 0 (len l)) l)).*2.

Lemma zip_snoc (l : list Z) x : zip (seqZ 0 (len (l ++ [x]))) (l ++ [x]) = zip (seqZ 0 (len l)) l ++ [(len l, x)].
Proof.
  rewrite len_app. change (len [x]) with 1. pose proof (len_nonneg l). rewrite seqZ_app by lia.
  rewrite zip_with_app; [|rewrite length_seqZ; unfold len; lia]. f_equal.
Qed.

Lemma prim_snoc l x : prim (l ++ [x]) = prim l ++ (if isNonprimaryShard pool (len l) then [] else [x]).
Proof.
  unfold prim. rewrite zip_snoc, filter_app, fmap_app. f_equal. rewrite filter_cons. cbn [fst].
  by destruct (isNonprimaryShard pool (len l)).
Qed.

Lemma nonprim_snoc l x : nonprim (l ++ [x]) = nonprim l ++ (if isNonprimaryShard pool (len l) then [x] else []).
Proof.
  unfold nonprim. rewrite zip_snoc, filter_app, fmap_app. f_equal. rewrite filter_cons. cbn [fst].
  by destruct (isNonprimaryShard pool (len l)).
Qed.

Lemma primary_first_split l : pgTempPrimaryFirst pool l = prim l ++ nonprim l.
Proof. done. Qed.

(** How many shards from [start] on are nonprimary. *)
Definition np_count (start n : Z) : Z := len (filter (fun s => isNonprimaryShard pool s = true) (seqZ start n)).

Lemma np_count_cons start n : 0 < n ->
  np_count start n = (if isNonprimaryShard pool start then 1 else 0) + np_count (start + 1) (n - 1).
Proof.
  intros Hn. unfold np_count. rewrite seqZ_cons by done. rewrite filter_cons.
  unfold Z.succ, Z.pred. destruct (isNonprimaryShard pool start).
  - rewrite decide_True by done. rewrite len_cons. done.
  - rewrite decide_False by done. done.
Qed.

Lemma np_count_range start n : 0 <= n -> 0 <= np_count start n <= n.
Proof.
  intros Hn. unfold np_count, len. pose proof (length_filter (fun s => isNonprimaryShard pool s = true) (seqZ start n)).
  rewrite length_seqZ in *. lia.
Qed.

Lemma take_snoc_lookup (l : list Z) p x : 0 <= p -> l !! Z.to_nat p = Some x ->
  take (Z.to_nat (p + 1)) l = take (Z.to_nat p) l ++ [x].
Proof. intros Hp Hx. replace (Z.to_nat (p + 1)) with (S (Z.to_nat p)) by lia. by apply take_S_r. Qed.

(** The loop: [done] is written, [k] shards are left, and the cursors are where
    the first two parts of [source] have been used up. *)
Lemma undo_loop source P k done p q :
  0 <= P -> 0 <= p -> P <= q ->
  prim done = take (Z.to_nat p) source -> nonprim done = take (Z.to_nat (q - P)) (drop (Z.to_nat P) source) ->
  len done + Z.of_nat k = len source -> q + np_count (len done) (Z.of_nat k) = len source ->
  p + (Z.of_nat k - np_count (len done) (Z.of_nat k)) = P ->
  exists r, fold_res (undo_step pool source) (seqZ (len done) (Z.of_nat k)) (done ++ replicate k 0, p, q) =
      Ok (r, P, len source) /\ length r = length source /\
    prim r = take (Z.to_nat P) source /\ nonprim r = drop (Z.to_nat P) source.
Proof.
  intros HP. revert done p q. induction k as [|k IH]; intros done p q Hp Hq E1 E2 Hk Hnp Hpr.
  { change (np_count (len done) (Z.of_nat 0)) with 0 in *. exists done. cbn [replicate seqZ]. rewrite app_nil_r.
    assert (p = P) as -> by lia. assert (q = len source) as -> by lia. split; [done|].
    split; [unfold len in *; lia|]. split; [done|]. rewrite E2, take_ge; [done|].
    rewrite length_drop. unfold len in *. lia. }
  rewrite np_count_cons in * by lia. replace (Z.of_nat (S k) - 1) with (Z.of_nat k) in * by lia.
  pose proof (np_count_range (len done + 1) (Z.of_nat k)).
  rewrite seqZ_cons by lia. cbn [fold_res replicate]. unfold Z.succ, Z.pred.
  replace (Z.of_nat (S k) + -1) with (Z.of_nat k) by lia.
  destruct (isNonprimaryShard pool (len done)) eqn:Enp.
  - destruct (index_in_range source q) as (x & Ex & _); [lia|].
    assert (undo_step pool source (len done) (done ++ 0 :: replicate k 0, p, q) =
      Ok (done ++ x :: replicate k 0, p, q + 1)) as ->.
    { unfold undo_step. by rewrite Enp, Ex, bind_Ok, store_mid, bind_Ok. }
    rewrite bind_Ok. apply index_ok in Ex as [_ Ex].
    specialize (IH (done ++ [x]) p (q + 1)). rewrite len_app, <- app_assoc in IH. apply IH; try lia.
    + by rewrite prim_snoc, Enp, app_nil_r.
    + rewrite nonprim_snoc, Enp, E2. replace (q + 1 - P) with (q - P + 1) by lia.
      symmetry. apply take_snoc_lookup; [lia|]. rewrite lookup_drop.
      by replace (Z.to_nat P + Z.to_nat (q - P))%nat with (Z.to_nat q) by lia.
    + change (len [x]) with 1. lia.
    + change (len [x]) with 1. lia.
    + change (len [x]) with 1. lia.
  - destruct (index_in_range source p) as (x & Ex & _); [lia|].
    assert (undo_step pool source (len done) (done ++ 0 :: replicate k 0, p, q) =
      Ok (done ++ x :: replicate k 0, p + 1, q)) as ->.
    { unfold undo_step. by rewrite Enp, Ex, bind_Ok, store_mid, bind_Ok. }
    rewrite bind_Ok. apply index_ok in Ex as [_ Ex].
    specialize (IH (done ++ [x]) (p + 1) q). rewrite len_app, <- app_assoc in IH. apply IH; try lia.
    + rewrite prim_snoc, Enp, E1. symmetry. by apply take_snoc_lookup.
    + by rewrite nonprim_snoc, Enp, app_nil_r.
    + change (len [x]) with 1. lia.
    + change (len [x]) with 1. lia.
    + change (len [x]) with 1. lia.
Qed.

Lemma undo_ok source : exists r, pgTempUndoPrimaryFirst pool source = Ok r /\ length r = length source /\
  pgTempPrimaryFirst pool r = source.
Proof.
  unfold pgTempUndoPrimaryFirst. fold (np_count 0 (len source)).
  pose proof (np_count_range 0 (len source) (len_nonneg source)).
  destruct (undo_loop source (len source - np_count 0 (len source)) (length source) [] 0
    (len source - np_count 0 (len source))) as (r & E & Hl & H1 & H2);
    [lia|lia|lia|done|by rewrite Z.sub_diag|done|fold (len source); change (len []) with 0; lia..|].
  change (len []) with 0 in E. cbn [app] in E. fold (len source) in E. rewrite E, bind_Ok.
  exists r. split; [done|]. split; [done|]. rewrite primary_first_split, H1, H2. apply take_drop.
Qed.
(** Position [i] of the primary-first order holds the OSD of the shard that
    [pgTempUndoPrimaryFirstIndex] computes. *)
Lemma filter_zip_fst (f : Z -> bool) v (a b : list Z) : length a = length b ->
  (filter (fun so : Z * Z => f so.1 = v) (zip a b)).*1 = filter (fun s => f s = v) a.
Proof.
  revert b. induction a as [|x a IH]; intros [|y b] Hl; try done. cbn [zip zip_with]. rewrite !filter_cons. cbn [fst].
  case_decide; [rewrite fmap_cons; f_equal|]; apply IH; by injection Hl.
Qed.

Lemma filter_zip_self (f : Z -> bool) v (a : list Z) :
  (filter (fun so : Z * Z => f so.1 = v) (zip a a)).*2 = filter (fun s => f s = v) a.
Proof.
  induction a as [|x a IH]; [done|]. cbn [zip zip_with]. rewrite !filter_cons. cbn [fst].
  case_decide; [rewrite fmap_cons; f_equal|]; apply IH.
Qed.

Lemma canonical_order n : 0 <= n -> pgTempPrimaryFirst pool (seqZ 0 n) =
  filter (fun s => isNonprimaryShard pool s = false) (seqZ 0 n) ++
  filter (fun s => isNonprimaryShard pool s = true) (seqZ 0 n).
Proof.
  intros Hn. unfold pgTempPrimaryFirst.
  assert (len (seqZ 0 n) = n) as -> by (unfold len; rewrite length_seqZ; lia). by rewrite !filter_zip_self.
Qed.

Lemma primary_first_lookup l i x : pgTempPrimaryFirst pool l !! i = Some x ->
  exists s, pgTempPrimaryFirst pool (seqZ 0 (len l)) !! i = Some s /\ 0 <= s /\ l !! Z.to_nat s = Some x.
Proof.
  pose proof (len_nonneg l). rewrite canonical_order by done. unfold pgTempPrimaryFirst.
  set (z := zip (seqZ 0 (len l)) l). assert (length (seqZ 0 (len l)) = length l) as Hl by (rewrite length_seqZ; unfold len; lia).
  rewrite <- !(filter_zip_fst _ _ _ l Hl). fold z. rewrite <- !fmap_app.
  rewrite !list_lookup_fmap. 
  match goal with |- context [(?a ++ ?b) !! i] => destruct ((a ++ b) !! i) as [[s y]|] eqn:E end; [|done].
  intros [= <-].
  exists s. split; [done|]. apply list_elem_of_lookup_2 in E.
  assert ((s, y) ∈ z) as Hz by (apply elem_of_app in E as [[_ ?]%list_elem_of_filter|[_ ?]%list_elem_of_filter]; done).
  apply list_elem_of_lookup in Hz as [j Hj]. apply lookup_zip_Some in Hj as [Hs Hy].
  apply lookup_seqZ in Hs as [-> ?]. split; [lia|]. by replace (Z.to_nat (0 + Z.of_nat j)) with j by lia.
Qed.

Lemma primary_first_elem l x : x ∈ l -> x ∈ pgTempPrimaryFirst pool l.
Proof.
  intros Hx. apply list_elem_of_lookup in Hx as [k Hk].
  assert ((Z.of_nat k, x) ∈ zip (seqZ 0 (len l)) l) as Hz.
  { apply list_elem_of_lookup. exists k. apply lookup_zip_Some. split; [|done].
    apply lookup_seqZ. split; [lia|]. apply lookup_lt_Some in Hk. unfold len. lia. }
  apply elem_of_app. destruct (isNonprimaryShard pool (Z.of_nat k)) eqn:En; [right|left];
    apply list_elem_of_fmap; exists (Z.of_nat k, x); (split; [done|]); by apply list_elem_of_filter.
Qed.

Lemma primary_first_perm l : prim l ++ nonprim l ≡ₚ l.
Proof.
  unfold prim, nonprim. rewrite <- fmap_app.
  assert (filter (fun so : Z * Z => isNonprimaryShard pool so.1 = false) (zip (seqZ 0 (len l)) l) ++
    filter (fun so : Z * Z => isNonprimaryShard pool so.1 = true) (zip (seqZ 0 (len l)) l) ≡ₚ zip (seqZ 0 (len l)) l) as ->.
  { induction (zip (seqZ 0 (len l)) l) as [|[s x] z IH]; [done|]. rewrite !filter_cons. cbn [fst].
    destruct (isNonprimaryShard pool s).
    - rewrite decide_False, decide_True by done. rewrite <- Permutation_middle. by rewrite IH.
    - rewrite decide_True, decide_False by done. cbn. by rewrite IH. }
  by rewrite snd_zip by (rewrite length_seqZ; unfold len; lia).
Qed.

Lemma primary_first_length l : length (pgTempPrimaryFirst pool l) = length l.
Proof. rewrite primary_first_split. by rewrite primary_first_perm. Qed.

Lemma primary_first_inj l l' : pgTempPrimaryFirst pool l = pgTempPrimaryFirst pool l' -> length l = length l' -> l = l'.
Proof.
  intros E Hl. apply list_eq. intros k.
  assert (len l = len l') as El by (unfold len; by rewrite Hl).
  destruct (decide (k < length l)%nat) as [Hk|Hk].
  2: { rewrite !lookup_ge_None_2 by lia. done. }
  (* the position of shard [k] in the order *)
  assert (Z.of_nat k ∈ pgTempPrimaryFirst pool (seqZ 0 (len l))) as Hin.
  { apply primary_first_elem, elem_of_seqZ. unfold len. lia. }
  apply list_elem_of_lookup in Hin as [i Hi].
  assert (forall l2, len l2 = len l -> pgTempPrimaryFirst pool l2 !! i = l2 !! k) as Hlook.
  { intros l2 E2. destruct (lookup_lt_is_Some_2 (pgTempPrimaryFirst pool l2) i) as [x Hx].
    { rewrite primary_first_length. apply lookup_lt_Some in Hi. rewrite primary_first_length, length_seqZ in Hi.
      unfold len in *. lia. }
    rewrite Hx. apply primary_first_lookup in Hx as (s & Hs & H0 & Hx). rewrite E2, Hi in Hs. injection Hs as <-.
    by rewrite Nat2Z.id in Hx. }
  rewrite <- (Hlook l), <- (Hlook l') by done. by rewrite E.
Qed.
End shards.

(** ** The acting primary and its shard *)

Lemma find_shard_okP pool (optimized : bool) (primary : Z) (order : list Z) (i : Z) :
  let acting_shard (j : Z) : res Z := if optimized then pgTempUndoPrimaryFirstIndex pool j else Ok j in
  (forall j x, order !! j = Some x -> exists s, acting_shard (i + Z.of_nat j) = Ok s /\ 0 <= s) ->
  okP (fun r => match r with
                | Some s => exists j, order !! j = Some primary /\ acting_shard (i + Z.of_nat j) = Ok s /\ 0 <= s <= 127
                | None => primary ∉ order
                end)
    (find_shard pool optimized primary i order).
Proof.
  intros f. revert i. induction order as [|x order IH]; intros i Hs; cbn [find_shard].
  { cbn. set_solver. }
  destruct (Z.eqb_spec x primary) as [->|Hne].
  - destruct (Hs 0%nat primary eq_refl) as (s & E & H0). rewrite Z.add_0_r in E. fold (f i). rewrite E, bind_Ok.
    destruct (Z.ltb_spec 127 s); [done|]. cbn. exists 0%nat. rewrite Z.add_0_r.
    rewrite wrapS_id by (unfold inS; lia). done.
  - specialize (IH (i + 1)). eapply okP_impl; [apply IH|].
    + intros j y Hj. destruct (Hs (S j) y Hj) as (s & E & H0).
      exists s. by replace (i + 1 + Z.of_nat j) with (i + Z.of_nat (S j)) by lia.
    + intros [s|]; [|set_solver]. intros (j & Hj & E & H0). exists (S j). split; [done|].
      by replace (i + Z.of_nat (S j)) with (i + 1 + Z.of_nat j) by lia.
Qed.

(** A temporary mapping: entries that are up or holes; with the erasure-code
    optimisations it has one entry per shard. *)
Lemma tempMapping_okP m pool pg :
  okP (fun '(l, primary) => Forall (up_entry m pool) l /\ (om_pgTemp m !! pg = None -> l = []) /\
        (p_poolType pool = poolTypeErasure -> Z.land (p_flags pool) poolFlagECOptimizations <> 0 ->
         om_pgTemp m !! pg <> None -> len l = p_size pool))
    (tempMapping m pool pg).
Proof.
  unfold tempMapping. destruct (om_pgTemp m !! pg) as [source|]; [|done].
  eapply okP_bind with (Q := fun _ => True).
  { unfold validatePlacementSet. pose proof (check_set_no_panic m (p_poolType pool =? poolTypeErasure) ∅ source).
    by destruct (check_set _ _ _ _). }
  intros [] _. cbv zeta. pose proof (upOSDs_entries m pool source) as Hup.
  destruct (Z.eqb_spec (p_poolType pool) poolTypeErasure) as [Et|Et]; cbn [andb].
  - destruct (Z.eqb_spec (Z.land (p_flags pool) poolFlagECOptimizations) 0); cbn [negb].
    + cbn. split_and!; [done|done|]. intros _ Hn. done.
    + destruct (Z.eqb_spec (len (upOSDs m pool source)) (p_size pool)) as [El|]; cbn [negb orb]; [|done].
      destruct (negb (validNonprimaryShards pool)); [done|].
      destruct (undo_ok pool (upOSDs m pool source)) as (r & -> & Hl & Hr). rewrite bind_Ok. cbn.
      split_and!; [|done|].
      * apply Forall_forall. intros x Hx. rewrite <- Hr in Hup. rewrite Forall_forall in Hup.
        by apply Hup, primary_first_elem.
      * intros _ _ _. unfold len in *. by rewrite Hl.
  - cbn. split_and!; [done|done|]. by intros.
Qed.

(** ** Placement of a mapped object *)

Definition placement_sound (m : OSDMap) (pool : Pool) (pl : ObjectPlacement) : Prop :=
  Forall (up_entry m pool) (op_Up pl) /\ distinct (op_Up pl) /\
  (op_UpPrimary pl = -1 \/ op_UpPrimary pl ∈ op_Up pl) /\
  Forall (up_entry m pool) (op_Acting pl) /\
  (op_ActingPrimary pl = -1 \/ op_ActingPrimary pl ∈ op_Acting pl) /\
  (op_Sharded pl = true -> p_poolType pool = poolTypeErasure /\ 0 <= op_PrimaryShard pl <= 127 /\
     op_Acting pl !! Z.to_nat (op_PrimaryShard pl) = Some (op_ActingPrimary pl)) /\
  (p_poolType pool = poolTypeErasure -> op_ActingPrimary pl <> -1 -> op_Sharded pl = true).

Lemma containsOSD_spec l x : containsOSD l x = true <-> x ∈ l.
Proof.
  unfold containsOSD. rewrite <- not_false_iff_true, existsb_eqb_false.
  destruct (decide (x ∈ l)); tauto.
Qed.

(** The shard that the last loop finds. *)
Lemma shard_okP pool optimized acting primary :
  (optimized = true -> len acting = p_size pool) -> primary = -1 \/ primary ∈ acting ->
  okP (fun r => match r with
                | Some s => 0 <= s <= 127 /\ acting !! Z.to_nat s = Some primary
                | None => primary = -1
                end)
    (find_shard pool optimized primary 0 (if optimized then pgTempPrimaryFirst pool acting else acting)).
Proof.
  intros Hopt Hp.
  assert (forall j x, (if optimized then pgTempPrimaryFirst pool acting else acting) !! j = Some x ->
    exists s, (if optimized then pgTempUndoPrimaryFirstIndex pool (0 + Z.of_nat j) else Ok (0 + Z.of_nat j)) = Ok s /\
      0 <= s /\ acting !! Z.to_nat s = Some x) as Hs.
  { intros j x Hj. destruct optimized.
    - apply primary_first_lookup in Hj as (s & E & H0 & Hx). rewrite Hopt in E by done.
      exists s. split; [|done]. apply index_ok. rewrite Z.add_0_l, Nat2Z.id. split; [lia|done].
    - exists (Z.of_nat j). rewrite Z.add_0_l, Nat2Z.id. split_and!; [done|lia|done]. }
  eapply okP_impl; [apply find_shard_okP|].
  - intros j x Hj. destruct (Hs j x Hj) as (s & ? & ? & _). eauto.
  - intros [s|] H; cbn beta iota in H |- *.
    + destruct H as (j & Hj & E & Hr). destruct (Hs j _ Hj) as (s' & E' & _ & Hx). split; [done|]. congruence.
    + destruct Hp as [|Hp]; [done|]. exfalso. apply H. destruct optimized; [by apply primary_first_elem|done].
Qed.

Lemma okP_map_err {A} (f : error -> error) (r : res A) P : okP P r -> okP P (res_map_err f r).
Proof. by destruct r. Qed.

Lemma crushState_decode_okP data :
  okP (fun pm => exists limits, DecodePlacementMap data limits = Ok pm) (crushState_decode data).
Proof.
  unfold crushState_decode. destruct (_ <? _); [done|]. cbv zeta. apply okP_map_err.
  match goal with |- okP _ (DecodePlacementMap _ ?l) => pose proof (DecodePlacementMap_post data l) as H end.
  destruct (DecodePlacementMap _ _) eqn:E; [|done|done]. cbn. eauto.
Qed.

Lemma placeMapped_okP m poolID pl pool : om_pools m !! poolID = Some pool -> pool_ok pool ->
  okP (fun pl' => placement_sound m pool pl' /\ op_PG pl' = op_PG pl) (placeMapped m poolID pl).
Proof.
  intros Ep Hpool. unfold placeMapped. rewrite Ep. change (default Pool_zero (Some pool)) with pool. cbv zeta.
  destruct (negb (p_poolType pool =? poolTypeReplicated) && _) eqn:Etype; [done|].
  destruct (Z.eqb_spec (p_size pool) 0) as [|Hsize]; [done|].
  eapply okP_bind; [apply crushState_decode_okP|]. intros pm [limits Hpm].
  eapply okP_bind; [apply okP_map_err; by eapply PlacementMap_Place_post|]. intros raw Hraw.
  eapply okP_bind; [apply validateUpmap_okP|]. intros [] Hup.
  set (up0 := upOSDs m pool (applyUpmap m (op_PG pl) raw)).
  assert (distinct up0) as Hd0 by (apply upOSDs_distinct, applyUpmap_distinct; [exact Hraw|exact Hup]).
  pose proof (upOSDs_entries m pool (applyUpmap m (op_PG pl) raw)) as He0. fold up0 in He0.
  eapply okP_bind; [apply applyPrimaryAffinity_okP, firstOSD_spec|]. intros [up upPrimary] (Hperm & Hprim & _).
  assert (distinct up) as Hd by (eapply distinct_perm; [symmetry; exact Hperm|done]).
  assert (Forall (up_entry m pool) up) as He by (by rewrite Hperm).
  eapply okP_bind; [apply tempMapping_okP|]. intros [temp tempPrimary] (Ht & Htn & Hts).
  set (ap := if len temp =? 0 then _ else _). destruct ap as [acting actingPrimary] eqn:Eap.
  destruct (negb (actingPrimary =? -1) && _) eqn:Ea; [done|].
  assert (actingPrimary = -1 \/ actingPrimary ∈ acting) as Hap.
  { apply andb_false_iff in Ea as [Ea|Ea]; bsplit; [left; lia|right; by apply containsOSD_spec]. }
  assert (Forall (up_entry m pool) acting) as Hact.
  { unfold ap in Eap. destruct (len temp =? 0); injection Eap as <- <-; done. }
  eapply okP_bind with (Q := fun r => match r with
    | Some s => p_poolType pool = poolTypeErasure /\ 0 <= s <= 127 /\ acting !! Z.to_nat s = Some actingPrimary
    | None => p_poolType pool = poolTypeErasure -> actingPrimary = -1 end).
  - destruct (Z.eqb_spec (p_poolType pool) poolTypeErasure) as [Et|Et]; [|by cbn; intros].
    eapply okP_impl; [apply shard_okP; [|done]|].
    + intros Hopt. bsplit. destruct (om_pgTemp m !! op_PG pl) eqn:Etemp; [|done].
      assert (len temp = p_size pool) as Hl by (apply Hts; [done|lia|done]).
      unfold ap in Eap. rewrite Hl in Eap. destruct (Z.eqb_spec (p_size pool) 0); [done|].
      by injection Eap as <- <-.
    + intros [s|] H; [by split|done].
  - intros shard Hsh. cbn. split; [|done]. split_and!; cbn; try done.
    + destruct shard; [done|]. by intros [=].
    + intros Et Hn. destruct shard; [done|]. by destruct Hn, Hsh.
Qed.


(** ** Properties *)

(** C2. Placing a hash of a valid OSD map never panics, and a placement it returns
    is sound: the group exists in the pool, the up and acting sets hold only
    OSDs that are up (and holes, for an erasure pool), no OSD is in the up set
    twice whatever the upmap exceptions say, each primary is in its set, and
    for an erasure pool the primary shard is the position of the acting
    primary in the acting set, also when [pg_temp] is in primary-first order. *)
Theorem PlaceRawHash_sound m poolID hash :
  osdmap_ok m -> inU 32 hash ->
  okP (fun pl => exists pool, om_pools m !! poolID = Some pool /\
         0 <= pg_Seed (op_PG pl) < p_pgCount pool /\ placement_sound m pool pl)
    (PlaceRawHash m poolID hash).
Proof.
  intros (_ & (HP & _) & _) Hh. unfold PlaceRawHash, MapRawHash.
  destruct (poolID <? 0); [done|]. destruct (om_pools m !! poolID) as [pool|] eqn:Ep; [|done].
  destruct (HP _ _ Ep) as [_ Hpool]. pose proof Hpool as (_ & _ & _ & Hpg & _).
  destruct (negb (p_objectHash pool =? objectHashRJenkins)); [done|].
  destruct (_ =? 0); [done|]. destruct (_ || _ || _) eqn:Eg; [done|]. bsplit. cbv zeta. rewrite bind_Ok.
  eapply okP_impl; [by apply (placeMapped_okP _ _ _ pool)|]. intros pl [Hpl Epg]. exists pool.
  split; [done|]. split; [|done]. rewrite Epg. cbn [op_PG pg_Seed]. apply StableMod_range; [done|].
  unfold inU in Hpg. lia.
Qed.

(** One OSD that is up, a CRUSH map with it alone, and a pool of size 1. *)
Definition placed_pool : Pool :=
  mkPool 1 [Byte.x41] 1 1 1 0 2 8 8 0 1 0 ∅ [] (0, 0) ∅ ∅.

Definition placed_map : OSDMap := mkOSDMap (zeros 16) 7 (mkUTime 1 0) (mkUTime 2 0)
  {[ 1 := placed_pool ]} {[ [Byte.x41] := 1 ]}
  2 0 2 [3; 3] [0x10000; 0x10000] [[]; []] {[ mkPG 1 3 (-1) := [1] ]} ∅ [] sample_bytes (Some sample_bytes) ∅ ∅ ∅ 3 ∅ ∅
  (mkUTime 0 0) (mkUTime 0 0) ∅ 99 true false.

Lemma placed_map_ok : osdmap_ok placed_map.
Proof.
  split; [|split; [split; [|split]|split; [|split]]].
  - split_and!; try done. by left.
  - apply map_Forall_singleton. split; [done|]. by split_and!.
  - intros n id H. cbv delta [placed_map] beta iota in H. cbn [om_nameToID] in H.
    apply lookup_singleton_Some in H as [_ <-]. eexists. reflexivity.
  - intros id p H. cbv delta [placed_map] beta iota in H. cbn [om_pools] in H.
    apply lookup_singleton_Some in H as [<- <-]. reflexivity.
  - by intros data [= <-].
  - repeat constructor; unfold inU; cbn; lia.
  - repeat constructor; unfold inU; cbn; lia.
Qed.

Lemma PlaceRawHash_sound_witness :
  okP (fun pl => exists pool, om_pools placed_map !! 1 = Some pool /\
         0 <= pg_Seed (op_PG pl) < p_pgCount pool /\ placement_sound placed_map pool pl)
    (PlaceRawHash placed_map 1 11).
Proof. apply (PlaceRawHash_sound placed_map 1 11); [apply placed_map_ok|unfold inU; lia]. Defined.

(** The witness places: hash 11 is group 3, whose acting set is the temporary one. *)
Example placed_acting :
  match PlaceRawHash placed_map 1 11 with
  | Ok pl => (pg_Seed (op_PG pl), op_Acting pl, op_ActingPrimary pl)
  | _ => (0, [], 0)
  end = (3, [1], 1).
Proof. vm_compute. reflexivity. Qed.


(** Primary affinity only reorders: the up set after it is a permutation of
    the up set before, for an erasure pool the same list, and the primary it
    chooses is a member of it. *)
Theorem affinity_permutes m pool seed up :
  okP (fun '(up', primary) => up' ≡ₚ up /\ (primary = -1 \/ primary ∈ up') /\
         (p_poolType pool <> poolTypeReplicated -> up' = up))
    (applyPrimaryAffinity m pool seed up (firstOSD up)).
Proof. apply applyPrimaryAffinity_okP, firstOSD_spec. Qed.
