(* ===== verification/MsgrFrame.v ===== *)
(** * Messenger frames (src/internal/msgr/banner.go, frame.go)

    The connection banner and the msgr2.1 frames in CRC mode.  The codecs read
    from an [io.Reader] that may also account for the memory a frame needs;
    the class [Reader] is that interface, and every theorem of this file is
    proved against its laws [StreamReader].  The plain byte stream implements
    it here, the budgeted reader in the file Budget. *)

From stdpp Require Import base gmap list numbers strings.
From coqutil Require Import Byte Word.LittleEndianList.
From S2P Require Import Prelude Codec Crc.
From stdpp Require Import list.

Open Scope Z_scope.
Open Scope go_scope.

Definition MaxUint64 : Z := 2 ^ 64 - 1.
Definition maxInt : Z := 2 ^ 63 - 1.

(** ** Readers

    A read operation changes the reader, also when it fails. *)

Definition RM (R A : Type) := R -> res A * R.

#[export] Instance rm_ret {R} : MRet (RM R) := fun _ a r => (Ok a, r).
#[export] Instance rm_bind {R} : MBind (RM R) := fun _ _ k m r =>
  match m r with
  | (Ok a, r) => k a r
  | (Err e, r) => (Err e, r)
  | (Panic, r) => (Panic, r)
  end.

Definition lift {R A} (m : res A) : RM R A := fun r => (m, r).
Definition throw {R A} (e : error) : RM R A := fun r => (Err e, r).

(** [fmt.Errorf("%w: ...: %v", e, err)] *)
Definition wrap {R A} (e : error) (m : RM R A) : RM R A := fun r =>
  let '(x, r) := m r in (res_map_err (fun _ => e) x, r).

(** [io.ReadFull] and the methods that the codecs look for by type assertion:
    a reader without them gets the defaults of [plain_reader] below.
    [receivePreludeBuffer] tells whether the reader lends its own buffer for
    the first record. *)
Class Reader (R : Type) := {
  ReadFull : Z -> RM R bytes;
  reserveReceivePrelude : RM R unit;
  releaseReceivePrelude : RM R unit;
  reserveReceiveBytes : Z -> RM R unit;
  receiveBacking : Z -> RM R unit;
  receivePreludeBuffer : R -> bool }.

(** What the codecs rely on.  [streams r s]: the reader is usable and will
    deliver exactly [s].  [ReadFull] takes the next bytes or fails when there
    are not enough; the accounting operations do not touch the stream and
    fail only with a [refusal]. *)
Class StreamReader (R : Type) {RD : Reader R} := {
  streams : R -> bytes -> Prop;
  refusal : error -> Prop;
  ReadFull_enough r bs rest : streams r (bs ++ rest) -> exists r',
    ReadFull (len bs) r = (Ok bs, r') /\ streams r' rest;
  ReadFull_short n r s : streams r s -> len s < n -> exists e r', ReadFull n r = (Err e, r');
  account_streams (m : RM R unit) r s : m = reserveReceivePrelude \/ m = releaseReceivePrelude \/
      (exists n, m = reserveReceiveBytes n) \/ (exists n, m = receiveBacking n) -> streams r s ->
    match m r with
    | (Ok _, r') => streams r' s
    | (Err e, _) => refusal e
    | (Panic, _) => False
    end }.

(** A buffered connection: the bytes that will still arrive. *)
#[export] Instance plain_reader : Reader bytes := {|
  ReadFull n s :=
    if n <=? len s then (Ok (take (Z.to_nat n) s), drop (Z.to_nat n) s)
    else (Err io_ErrUnexpectedEOF, []);
  reserveReceivePrelude := mret tt;
  releaseReceivePrelude := mret tt;
  reserveReceiveBytes _ := mret tt;
  receiveBacking _ := mret tt;
  receivePreludeBuffer _ := false |}.

(** ** Banner *)

Definition bannerPrefix : bytes := String.list_byte_of_string "ceph v2"%string ++ [Byte.x0a].
Definition bannerPayloadSize : Z := 16.
Definition Revision1Features : Z := 1.

Record Banner := mkBanner { Supported : Z; Required : Z }.

Definition ClientBanner : Banner := mkBanner Revision1Features Revision1Features.

Definition Banner_Encode (banner : Banner) : bytes :=
  bannerPrefix ++ le_split 2 bannerPayloadSize ++ le_split 8 (Supported banner)
  ++ le_split 8 (Required banner).

Definition ReadBanner {R} `{Reader R} (maxPayload : Z) : RM R Banner :=
  header ← wrap msgr_ErrMalformed (ReadFull (len bannerPrefix + 2));
  if negb (bool_decide (slice 0 (len bannerPrefix) header = bannerPrefix)) then throw msgr_ErrMalformed
  else
    let size := le_combine (slice (len bannerPrefix) (len bannerPrefix + 2) header) in
    if size <? bannerPayloadSize then throw msgr_ErrMalformed
    else if maxPayload <? size then throw msgr_ErrLimitExceeded
    else
      payload ← wrap msgr_ErrMalformed (ReadFull size);
      mret (mkBanner (le_combine (slice 0 8 payload)) (le_combine (slice 8 16 payload))).

Definition NegotiateBanner (local peer : Banner) : res Z :=
  if negb (Z.ldiff (Required peer) (Supported local) =? 0)
     || negb (Z.ldiff (Required local) (Supported peer) =? 0)
  then Err msgr_ErrUnsupportedFeature
  else
    let negotiated := Z.land (Supported local) (Supported peer) in
    if Z.land negotiated Revision1Features =? 0 then Err msgr_ErrUnsupportedFeature
    else Ok negotiated.

(** ** Frames *)

Definition PreambleSize : Z := 32.
Definition MaxSegments : Z := 4.
Definition DefaultAlignment : Z := 8.
Definition PageAlignment : Z := 4096.
Definition LateStatusAborted : Z := 0x01.
Definition LateStatusComplete : Z := 0x0e.

Definition TagHello : Z := 1.
Definition TagMessage : Z := 17.
Definition TagAck : Z := 20.

(** [msgr.Limits] *)
Record FrameLimits := mkFrameLimits {
  MaxSegmentBytes : Z;
  MaxFrameBytes : Z;
  MaxAddresses : Z;
  MaxAuthBytes : Z }.

Record Segment := mkSegment { Alignment : Z; Data : bytes }.

Record Frame := mkFrame { Tag : Z; Segments : list Segment }.

Record CRCCodec := mkCRCCodec { WithDataCRC : bool }.

Record segmentDescriptor := mkDescriptor { sd_length : Z; sd_alignment : Z }.

#[export] Instance segment_eq_dec : EqDecision Segment.
Proof. solve_decision. Defined.
#[export] Instance frame_eq_dec : EqDecision Frame.
Proof. solve_decision. Defined.
#[export] Instance descriptor_eq_dec : EqDecision segmentDescriptor.
Proof. solve_decision. Defined.

Definition validTag (tag : Z) : bool := (TagHello <=? tag) && (tag <=? TagAck).

Definition validAlignment (alignment : Z) : bool :=
  negb (alignment =? 0) && (Z.land alignment (u16 (alignment - 1)) =? 0).

(** [for end > 1 && len(segments[end-1].Data) == 0 { end-- }]; the copy that
    follows gives the frame its own buffers. *)
Fixpoint trimmed (fuel : nat) (segments : list Segment) (end_ : nat) : nat :=
  match fuel with
  | O => end_
  | S fuel =>
      if (1 <? end_)%nat && bool_decide (Data <$> segments !! pred end_ = Some [])
      then trimmed fuel segments (pred end_)
      else end_
  end.

Definition normalizeSegments (segments : list Segment) : res (list Segment) :=
  if (len segments <? 1) || (MaxSegments <? len segments) then Err msgr_ErrMalformed
  else Ok (take (trimmed (length segments) segments (length segments)) segments).

Definition descriptor_bytes (d : segmentDescriptor) : bytes :=
  le_split 4 (sd_length d) ++ le_split 2 (sd_alignment d).

(** The first 28 bytes: tag, segment count, descriptors, zeros. *)
Definition preamble_fields (tag : Z) (descriptors : list segmentDescriptor) : bytes :=
  let fields := byte.of_Z tag :: byte.of_Z (len descriptors) :: flat_map descriptor_bytes descriptors in
  fields ++ zeros (28 - length fields).

(** Both callers pass at most [MaxSegments] descriptors. *)
Definition encodePreamble (tag : Z) (descriptors : list segmentDescriptor) : bytes :=
  let fields := preamble_fields tag descriptors in
  fields ++ le_split 4 (CRC32C 0 fields).

(** The descriptor in slot [index] of a preamble. *)
Definition descriptor_at (preamble : bytes) (index : Z) : segmentDescriptor :=
  let offset := 2 + index * 6 in
  mkDescriptor (le_combine (slice offset (offset + 4) preamble))
    (le_combine (slice (offset + 4) (offset + 6) preamble)).

Definition byte_at (data : bytes) (i : nat) : Z := byte.unsigned (nth i data Byte.x00).

Definition decodePreamble (preamble : bytes) : res (Z * list segmentDescriptor) :=
  if negb (CRC32C 0 (slice 0 28 preamble) =? le_combine (slice 28 32 preamble))
  then Err msgr_ErrIntegrity
  else
    let tag := byte_at preamble 0 in
    if negb (validTag tag) then Err msgr_ErrMalformed
    else
      let count := byte_at preamble 1 in
      if (count <? 1) || (MaxSegments <? count) then Err msgr_ErrMalformed
      else if negb (byte_at preamble 26 =? 0) || negb (byte_at preamble 27 =? 0)
      then Err msgr_ErrMalformed
      else
        let slots := descriptor_at preamble <$> seqZ 0 MaxSegments in
        let descriptors := take (Z.to_nat count) slots in
        if negb (bool_decide (Forall (fun d => d = mkDescriptor 0 0) (drop (Z.to_nat count) slots)))
        then Err msgr_ErrMalformed
        else if (1 <? count) && bool_decide (sd_length <$> last descriptors = Some 0)
        then Err msgr_ErrMalformed
        else Ok (tag, descriptors).

(** *** CRC mode *)

Definition addition (index length : Z) : Z :=
  if (index =? 0) && (0 <? length) then length + 4 else length.

(** The first loop of [Encode]: descriptors and total. *)
Fixpoint describe (limits : FrameLimits) (index total : Z) (segments : list Segment)
    : res (list segmentDescriptor * Z) :=
  match segments with
  | [] => Ok ([], total)
  | segment :: segments =>
      let length := len (Data segment) in
      if (MaxUint32 <? length) || (MaxSegmentBytes limits <? length) then Err msgr_ErrLimitExceeded
      else if negb (validAlignment (Alignment segment)) then Err msgr_ErrMalformed
      else if MaxUint64 - addition index length <? total then Err msgr_ErrLimitExceeded
      else
        '(descriptors, total) ← describe limits (index + 1) (total + addition index length) segments;
        Ok (mkDescriptor (u32 length) (Alignment segment) :: descriptors, total)
  end.

Definition data_crc (codec : CRCCodec) (data : bytes) : Z :=
  if WithDataCRC codec then CRC32C MaxUint32 data else 0.

(** The second loop: the segments, the first one followed by its checksum. *)
Fixpoint write_segments (codec : CRCCodec) (index : Z) (segments : list Segment) : bytes :=
  match segments with
  | [] => []
  | segment :: segments =>
      Data segment
      ++ (if (index =? 0) && (0 <? len (Data segment)) then le_split 4 (data_crc codec (Data segment)) else [])
      ++ write_segments codec (index + 1) segments
  end.

Definition epilogue_crc (codec : CRCCodec) (segments : list Segment) (index : nat) : bytes :=
  le_split 4 (match segments !! index with Some segment => data_crc codec (Data segment) | None => 0 end).

Definition write_epilogue (codec : CRCCodec) (segments : list Segment) : bytes :=
  byte.of_Z LateStatusComplete :: flat_map (epilogue_crc codec segments) [1; 2; 3]%nat.

Definition frame_total (total segments : Z) : Z := if 1 <? segments then u64 (total + 13) else total.

Definition CRCCodec_Encode (codec : CRCCodec) (frame : Frame) (limits : FrameLimits) : res bytes :=
  segments ← normalizeSegments (Segments frame);
  if negb (validTag (Tag frame)) then Err msgr_ErrMalformed
  else
    '(descriptors, total) ← describe limits 0 PreambleSize segments;
    let total := frame_total total (len segments) in
    if (MaxFrameBytes limits <? total) || (maxInt <? total) then Err msgr_ErrLimitExceeded
    else Ok (encodePreamble (Tag frame) descriptors ++ write_segments codec 0 segments
             ++ (if 1 <? len segments then write_epilogue codec segments else [])).

Definition EncodeCRC := CRCCodec_Encode (mkCRCCodec true).

Fixpoint read_total (limits : FrameLimits) (index total : Z) (descriptors : list segmentDescriptor) : res Z :=
  match descriptors with
  | [] => Ok total
  | descriptor :: descriptors =>
      let length := sd_length descriptor in
      if (MaxSegmentBytes limits <? length) || negb (validAlignment (sd_alignment descriptor))
      then Err msgr_ErrLimitExceeded
      else if MaxUint64 - addition index length <? total then Err msgr_ErrLimitExceeded
      else read_total limits (index + 1) (total + addition index length) descriptors
  end.

Definition secureInlineSize : Z := 48.
Definition secureTagSize : Z := 16.
Definition securePreamble : Z := PreambleSize + secureInlineSize + secureTagSize.

Definition sum_lengths (descriptors : list segmentDescriptor) : Z :=
  foldl (fun sum d => u64 (sum + sd_length d)) 0 descriptors.

Fixpoint read_segments {R} `{Reader R} (codec : CRCCodec) (index : Z)
    (descriptors : list segmentDescriptor) : RM R (list Segment) :=
  match descriptors with
  | [] => mret []
  | descriptor :: descriptors =>
      data ← wrap msgr_ErrMalformed (ReadFull (sd_length descriptor));
      _ ← (if (index =? 0) && (0 <? sd_length descriptor) then
             encoded ← wrap msgr_ErrMalformed (ReadFull 4);
             if WithDataCRC codec && negb (CRC32C MaxUint32 data =? le_combine encoded)
             then throw msgr_ErrIntegrity else mret tt
           else mret tt);
      segments ← read_segments codec (index + 1) descriptors;
      mret (mkSegment (sd_alignment descriptor) data :: segments)
  end.

(** [for index := 1; index < len(descriptors); index++] over the epilogue. *)
Definition check_crc (codec : CRCCodec) (epilogue : bytes) (segments : list Segment) (index : Z)
    (_ : unit) : res unit :=
  let want := le_combine (slice (1 + (index - 1) * 4) (1 + index * 4) epilogue) in
  segment ← Prelude.index segments index;
  if WithDataCRC codec && negb (CRC32C MaxUint32 (Data segment) =? want)
  then Err msgr_ErrIntegrity else Ok tt.

Definition check_epilogue (codec : CRCCodec) (epilogue : bytes) (segments : list Segment) : res unit :=
  let status := Z.land (byte_at epilogue 0) 0x0f in
  if status =? LateStatusComplete then
    fold_res (check_crc codec epilogue segments) (seqZ 1 (len segments - 1)) tt
  else if status =? LateStatusAborted then Err msgr_ErrAborted
  else Err msgr_ErrMalformed.

Definition CRCCodec_Read {R} `{Reader R} (codec : CRCCodec) (limits : FrameLimits) : RM R Frame :=
  preamble ← wrap msgr_ErrMalformed (ReadFull PreambleSize);
  '(tag, descriptors) ← lift (decodePreamble preamble);
  total ← lift (read_total limits 0 PreambleSize descriptors);
  let total := frame_total total (len descriptors) in
  if (MaxFrameBytes limits <? total) || (maxInt <? total) then throw msgr_ErrLimitExceeded
  else
    let payloadBytes := sum_lengths descriptors in
    let small := negb (tag =? TagMessage) && (0 <? payloadBytes) && (payloadBytes <=? securePreamble) in
    _ ← (if small then reserveReceivePrelude else mret tt);
    _ ← reserveReceiveBytes (if small then 0 else payloadBytes);
    segments ← read_segments codec 0 descriptors;
    _ ← (if 1 <? len descriptors then
           epilogue ← wrap msgr_ErrMalformed (ReadFull 13);
           lift (check_epilogue codec epilogue segments)
         else mret tt);
    mret (mkFrame tag segments).

Definition ReadCRC {R} `{Reader R} : FrameLimits -> RM R Frame := CRCCodec_Read (mkCRCCodec true).

(** A keepalive frame, with two segments and an epilogue, there and back. *)
Example crc_frame_example :
  let limits := mkFrameLimits 4096 8192 16 1024 in
  let frame := mkFrame 18 [mkSegment 8 [Byte.x01; Byte.x02]; mkSegment 8 []; mkSegment 4096 [Byte.x03]; mkSegment 8 []] in
  match EncodeCRC frame limits with
  | Ok bs => ReadCRC limits (bs ++ [Byte.xff])
             = (Ok (mkFrame 18 (take 3 (Segments frame))), [Byte.xff])
  | _ => False
  end.
Proof. vm_compute. reflexivity. Qed.

Lemma plain_enough (bs rest : bytes) : ReadFull (len bs) (bs ++ rest) = (Ok bs, rest).
Proof.
  cbn. rewrite len_app. pose proof (len_nonneg rest).
  destruct (Z.leb_spec (len bs) (len bs + len rest)); [|lia]. unfold len. rewrite Nat2Z.id.
  by rewrite take_app_length, drop_app_length.
Qed.

Lemma plain_short n (s : bytes) : len s < n -> ReadFull n s = (Err io_ErrUnexpectedEOF, []).
Proof. intros H. cbn. by destruct (Z.leb_spec n (len s)); [lia|]. Qed.

#[export] Program Instance plain_stream : StreamReader bytes := {|
  streams r s := r = s;
  refusal _ := False |}.
Next Obligation. intros r bs rest ->. exists rest. by rewrite plain_enough. Qed.
Next Obligation. intros n r s -> H. rewrite plain_short by done. by eexists _, _. Qed.
Next Obligation. by intros m r s [-> | [-> | [[n ->] | [n ->]]]] ->. Qed.

(** ** Reasoning about readers

    [wp E m r Q]: running [m] on [r] ends in a value and a reader that satisfy
    [Q] or in an error allowed by [E], and never panics. *)

Definition wp {R A} (E : error -> Prop) (m : RM R A) (r : R) (Q : A -> R -> Prop) : Prop :=
  match m r with
  | (Ok a, r') => Q a r'
  | (Err e, _) => E e
  | (Panic, _) => False
  end.

Section wp.
Context {R : Type} `{SR : StreamReader R} (E : error -> Prop).

Lemma wp_ret {A} (a : A) r (Q : A -> R -> Prop) : Q a r -> wp E (mret a) r Q.
Proof. done. Qed.

Lemma wp_throw {A} e r (Q : A -> R -> Prop) : E e -> wp E (throw e) r Q.
Proof. done. Qed.

Lemma wp_lift {A} (x : res A) r (Q : A -> R -> Prop) :
  match x with Ok a => Q a r | Err e => E e | Panic => False end -> wp E (lift x) r Q.
Proof. by destruct x. Qed.

Lemma wp_bind {A B} (m : RM R A) (k : A -> RM R B) r Q :
  wp E m r (fun a r' => wp E (k a) r' Q) -> wp E (m ≫= k) r Q.
Proof. unfold wp, mbind, rm_bind. destruct (m r) as [[a|e|] r']; done. Qed.

Lemma wp_mono {A} (m : RM R A) r (Q Q' : A -> R -> Prop) :
  wp E m r Q -> (forall a r', Q a r' -> Q' a r') -> wp E m r Q'.
Proof. unfold wp. destruct (m r) as [[a|e|] r']; auto. Qed.

(** A read that can be short. *)
Lemma wp_read n e r s (Q : bytes -> R -> Prop) : 0 <= n -> streams r s ->
  (forall bs rest r', s = bs ++ rest -> len bs = n -> streams r' rest -> Q bs r') ->
  (len s < n -> E e) -> wp E (wrap e (ReadFull n)) r Q.
Proof.
  intros Hn Hr HQ HE. unfold wp, wrap. destruct (Z.le_gt_cases n (len s)) as [Hl|Hl].
  - assert (len (take (Z.to_nat n) s) = n) as Ht by (unfold len in *; rewrite length_take; lia).
    rewrite <- (take_drop (Z.to_nat n) s) in Hr. destruct (ReadFull_enough _ _ _ Hr) as (r' & Er & Hr').
    rewrite Ht in Er. rewrite Er. cbn. by apply (HQ _ _ _ (eq_sym (take_drop (Z.to_nat n) s))).
  - destruct (ReadFull_short n r s Hr Hl) as (x & r' & ->). cbn. auto.
Qed.

(** A read of bytes that are known to be there. *)
Lemma wp_read_known bs rest n e r (Q : bytes -> R -> Prop) :
  streams r (bs ++ rest) -> n = len bs ->
  (forall r', streams r' rest -> Q bs r') -> wp E (wrap e (ReadFull n)) r Q.
Proof.
  intros Hr -> HQ. eapply wp_read; [apply len_nonneg|exact Hr| |].
  - intros bs' rest' r' Hr' Hl Hrest.
    apply app_inj_1 in Hr' as [-> ->]; [auto|]. unfold len in Hl. lia.
  - rewrite len_app. pose proof (len_nonneg rest). lia.
Qed.

Lemma wp_account (m : RM R unit) r s Q :
  m = reserveReceivePrelude \/ m = releaseReceivePrelude \/
  (exists n, m = reserveReceiveBytes n) \/ (exists n, m = receiveBacking n) ->
  streams r s -> (forall e, refusal e -> E e) -> (forall r', streams r' s -> Q tt r') -> wp E m r Q.
Proof.
  intros Hm Hr HE HQ. unfold wp. pose proof (account_streams m r s Hm Hr) as H.
  destruct (m r) as [[[]|e|] r']; auto.
Qed.

End wp.

(** ** Alignment of segments *)

Lemma trimmed_spec fuel segments end_ : (1 <= end_ <= length segments)%nat -> (end_ <= fuel)%nat ->
  let n := trimmed fuel segments end_ in
  (1 <= n <= length segments)%nat /\
  ((1 < n)%nat -> exists s, segments !! pred n = Some s /\ Data s <> []).
Proof.
  revert end_. induction fuel as [|fuel IH]; intros end_ Hend Hf; cbn [trimmed]; [cbn; lia|].
  destruct (Nat.ltb_spec 1 end_) as [H1|H1]; cbn [andb]; [|split; [|intros]; lia].
  destruct (lookup_lt_is_Some_2 segments (pred end_)) as [s Hs]; [lia|]. rewrite Hs. cbn.
  case_bool_decide as Hd; [apply IH; lia|]. split; [lia|]. intros _. exists s. split; [done|]. congruence.
Qed.

Definition normal (segments : list Segment) : Prop :=
  (1 <= length segments <= 4)%nat /\
  ((1 < length segments)%nat -> exists s, last segments = Some s /\ Data s <> []).

Lemma normalizeSegments_ok segments segments' :
  normalizeSegments segments = Ok segments' ->
  normal segments' /\ segments' `prefix_of` segments.
Proof.
  unfold normalizeSegments, MaxSegments, len. destruct (_ || _) eqn:Hc; [done|]. bsplit. intros [= <-].
  destruct (trimmed_spec (length segments) segments (length segments)) as [Hn Hlast]; [lia..|].
  set (n := trimmed _ _ _) in *. split; [|exists (drop n segments); by rewrite take_drop].
  split; rewrite length_take; [lia|]. intros Hn'.
  destruct Hlast as (s & Hs & Hd); [lia|]. exists s. split; [|done].
  rewrite last_lookup, length_take. replace (pred (n `min` length segments)) with (pred n) by lia.
  rewrite lookup_take_lt by lia. done.
Qed.

(** ** Preambles *)

Definition desc_typed (d : segmentDescriptor) : Prop := inU 32 (sd_length d) /\ inU 16 (sd_alignment d).

(** What [decodePreamble] accepts. *)
Definition preamble_ok (tag : Z) (ds : list segmentDescriptor) : Prop :=
  validTag tag = true /\ (1 <= length ds <= 4)%nat /\ Forall desc_typed ds /\
  ((1 < length ds)%nat -> exists d, last ds = Some d /\ sd_length d <> 0).

Lemma of_Z_unsigned b : byte.of_Z (byte.unsigned b) = b.
Proof. apply byte.unsigned_inj. rewrite byte.unsigned_of_Z. apply byte.wrap_unsigned. Qed.

Lemma unsigned_of_Z_id z : inU 8 z -> byte.unsigned (byte.of_Z z) = z.
Proof. intros H. rewrite byte.unsigned_of_Z. by apply Z.mod_small. Qed.

Lemma length_descriptor d : length (descriptor_bytes d) = 6%nat.
Proof. unfold descriptor_bytes. by rewrite length_app, !length_le_split. Qed.

Lemma length_flat_descriptors ds : length (flat_map descriptor_bytes ds) = (6 * length ds)%nat.
Proof. induction ds as [|d ds IH]; [done|]. cbn [flat_map length]. rewrite length_app, length_descriptor. lia. Qed.

Lemma length_fields tag ds : (length ds <= 4)%nat -> length (preamble_fields tag ds) = 28%nat.
Proof.
  intros H. unfold preamble_fields, zeros. rewrite length_app, length_replicate. cbn [length].
  rewrite length_flat_descriptors. lia.
Qed.

Lemma length_preamble tag ds : (length ds <= 4)%nat -> length (encodePreamble tag ds) = 32%nat.
Proof. intros H. unfold encodePreamble. by rewrite length_app, length_fields, length_le_split. Qed.

(** The 28 bytes as tag, count, four slots and two zero bytes. *)
Lemma fields_slots tag ds : (length ds <= 4)%nat ->
  preamble_fields tag ds = byte.of_Z tag :: byte.of_Z (len ds) ::
    flat_map descriptor_bytes (ds ++ replicate (4 - length ds) (mkDescriptor 0 0)) ++ zeros 2.
Proof.
  intros H. unfold preamble_fields. cbn zeta. rewrite <- !app_comm_cons. f_equal. f_equal.
  rewrite flat_map_app, <- app_assoc. f_equal. cbn [length]. rewrite length_flat_descriptors.
  destruct ds as [|? [|? [|? [|? [|? ?]]]]]; try reflexivity. cbn in H. lia.
Qed.

Lemma slot_read d (rest : bytes) : desc_typed d ->
  le_combine (take 4 (descriptor_bytes d ++ rest)) = sd_length d /\
  le_combine (take 2 (drop 4 (descriptor_bytes d ++ rest))) = sd_alignment d.
Proof.
  intros [Hl Ha]. unfold descriptor_bytes. rewrite <- app_assoc.
  rewrite take_app_length', drop_app_length', take_app_length' by (by rewrite length_le_split).
  split; by apply le_combine_le_split_id.
Qed.

Lemma descriptor_at_slots ds a b rest k d : Forall desc_typed ds -> ds !! k = Some d ->
  descriptor_at (a :: b :: flat_map descriptor_bytes ds ++ rest) (Z.of_nat k) = d.
Proof.
  intros Ht Hk. unfold descriptor_at, slice.
  assert (desc_typed d) as Hd by (by eapply Forall_lookup_1).
  replace (Z.to_nat (2 + Z.of_nat k * 6)) with (2 + 6 * k)%nat by lia.
  replace (Z.to_nat (2 + Z.of_nat k * 6 + 4)) with ((2 + 6 * k) + 4)%nat by lia.
  rewrite <- (drop_drop _ 4 (2 + 6 * k)). replace (Z.to_nat _) with 4%nat by lia.
  replace (Z.to_nat _) with 2%nat by lia.
  assert (drop (2 + 6 * k) (a :: b :: flat_map descriptor_bytes ds ++ rest) =
          descriptor_bytes d ++ flat_map descriptor_bytes (drop (S k) ds) ++ rest) as ->.
  { cbn. rewrite <- (take_drop_middle _ _ _ Hk) at 1. rewrite flat_map_app, <- app_assoc.
    rewrite drop_app_length'; [cbn; by rewrite <- app_assoc|].
    rewrite length_flat_descriptors, length_take. apply lookup_lt_Some in Hk. lia. }
  destruct (slot_read d (flat_map descriptor_bytes (drop (S k) ds) ++ rest) Hd) as [-> ->].
  by destruct d.
Qed.

Definition slots (ds : list segmentDescriptor) : list segmentDescriptor :=
  ds ++ replicate (4 - length ds) (mkDescriptor 0 0).

Lemma slots_typed ds : Forall desc_typed ds -> Forall desc_typed (slots ds).
Proof.
  intros H. apply Forall_app. split; [done|]. apply Forall_replicate. split; unfold inU; cbn; lia.
Qed.

Lemma length_slots ds : (length ds <= 4)%nat -> length (slots ds) = 4%nat.
Proof. intros. unfold slots. rewrite length_app, length_replicate. lia. Qed.

(** The fields [decodePreamble] looks at, for a preamble that is laid out. *)
Lemma preamble_layout tag ds (P : bytes) : (length ds <= 4)%nat -> inU 8 tag -> Forall desc_typed ds ->
  P = encodePreamble tag ds ->
  slice 0 28 P = preamble_fields tag ds /\ slice 28 32 P = le_split 4 (CRC32C 0 (preamble_fields tag ds)) /\
  byte_at P 0 = tag /\ byte_at P 1 = len ds /\ byte_at P 26 = 0 /\ byte_at P 27 = 0 /\
  descriptor_at P <$> seqZ 0 MaxSegments = slots ds.
Proof.
  intros Hlen HT Htyped ->. pose proof (length_fields tag ds Hlen) as HF.
  assert (len ds = Z.of_nat (length ds)) as HD by done.
  split_and!.
  - unfold slice. cbn [Z.to_nat Z.sub]. rewrite drop_0. unfold encodePreamble. by rewrite take_app_length'.
  - unfold slice, encodePreamble. rewrite drop_app_length' by (by rewrite HF).
    by rewrite firstn_all2 by (by rewrite length_le_split).
  - by apply unsigned_of_Z_id.
  - unfold encodePreamble. rewrite fields_slots by done. apply unsigned_of_Z_id. unfold inU. lia.
  - unfold encodePreamble. rewrite fields_slots by done. fold (slots ds).
    pose proof (length_slots ds Hlen) as HS. unfold byte_at. cbn [app nth].
    rewrite app_nth1, app_nth2; rewrite ?length_app, ?length_flat_descriptors, ?HS; first [reflexivity | lia | change (length (zeros 2)) with 2%nat; lia].
  - unfold encodePreamble. rewrite fields_slots by done. fold (slots ds).
    pose proof (length_slots ds Hlen) as HS. unfold byte_at. cbn [app nth].
    rewrite app_nth1, app_nth2; rewrite ?length_app, ?length_flat_descriptors, ?HS; first [reflexivity | lia | change (length (zeros 2)) with 2%nat; lia].
  - unfold encodePreamble. rewrite fields_slots by done. fold (slots ds).
    apply list_eq. intros i. rewrite list_lookup_fmap.
    pose proof (length_slots ds Hlen) as HS. pose proof (slots_typed ds Htyped) as Hs.
    destruct (decide (i < 4)%nat) as [Hi|Hi].
    + destruct (lookup_lt_is_Some_2 (slots ds) i) as [d Hd]; [lia|]. rewrite Hd.
      rewrite lookup_seqZ_lt by (unfold MaxSegments; lia). cbn. f_equal.
      rewrite Z.add_0_l, <- app_assoc. by apply descriptor_at_slots.
    + rewrite lookup_seqZ_ge by (unfold MaxSegments; lia). cbn. symmetry. apply lookup_ge_None_2. lia.
Qed.

Lemma decode_encodePreamble tag ds : preamble_ok tag ds ->
  decodePreamble (encodePreamble tag ds) = Ok (tag, ds).
Proof.
  intros (Htag & Hlen & Htyped & Hlast).
  assert (inU 8 tag) as HT by (unfold validTag, TagHello, TagAck in Htag; bsplit; unfold inU; lia).
  destruct (preamble_layout tag ds _ ltac:(lia) HT Htyped eq_refl) as (E0 & E1 & E2 & E3 & E4 & E5 & E6).
  unfold decodePreamble. rewrite E0, E1, E2, E3, E4, E5, E6, Htag.
  rewrite le_combine_le_split_id by (apply CRC32C_u32; unfold inU; lia). rewrite Z.eqb_refl.
  cbn [negb orb Z.eqb]. unfold MaxSegments, len.
  destruct (Z.ltb_spec (Z.of_nat (length ds)) 1); [lia|].
  destruct (Z.ltb_spec 4 (Z.of_nat (length ds))); [lia|]. cbn [orb]. rewrite Nat2Z.id.
  unfold slots. rewrite take_app_length, drop_app_length.
  rewrite bool_decide_true by (by apply Forall_replicate). cbn [negb].
  destruct (Z.ltb_spec 1 (Z.of_nat (length ds))); [|done].
  destruct Hlast as (d & -> & Hd); [lia|]. rewrite bool_decide_false; [done|]. cbn. congruence.
Qed.

Lemma decode_slot (b : bytes) : length b = 6%nat ->
  let d := mkDescriptor (le_combine (take 4 b)) (le_combine (take 2 (drop 4 b))) in
  descriptor_bytes d = b /\ desc_typed d.
Proof.
  intros Hb. unfold descriptor_bytes, desc_typed. cbn [sd_length sd_alignment].
  rewrite !le_split_combine_n by (rewrite length_take, ?length_drop; lia).
  split; [|split].
  - rewrite (firstn_all2 (drop 4 b)) by (rewrite length_drop; lia). apply take_drop.
  - apply (le_combine_inU 4). rewrite length_take. lia.
  - apply (le_combine_inU 2). rewrite length_take, length_drop. lia.
Qed.

(** The four slots of a preamble are its bytes from 2 to 26. *)
Lemma slots_of_preamble (P : bytes) : length P = 32%nat ->
  let ds := descriptor_at P <$> seqZ 0 MaxSegments in
  flat_map descriptor_bytes ds = slice 2 26 P /\ Forall desc_typed ds.
Proof.
  intros HP. set (s k := take 6 (drop (2 + 6 * k) P)).
  assert (forall k, (k < 4)%nat -> descriptor_bytes (descriptor_at P (Z.of_nat k)) = s k /\
                                   desc_typed (descriptor_at P (Z.of_nat k))) as Hk.
  { intros k Hk. assert (length (s k) = 6%nat) as Hl by (unfold s; rewrite length_take, length_drop; lia).
    pose proof (decode_slot (s k) Hl) as H. cbv zeta in H.
    replace (descriptor_at P (Z.of_nat k)) with
      (mkDescriptor (le_combine (take 4 (s k))) (le_combine (take 2 (drop 4 (s k))))); [done|].
    unfold descriptor_at, slice, s. f_equal; f_equal.
    - rewrite take_take. f_equal; [lia|f_equal; lia].
    - rewrite skipn_firstn_comm, take_take, drop_drop. f_equal; [lia|]. f_equal. lia. }
  change (seqZ 0 MaxSegments) with (Z.of_nat <$> [0; 1; 2; 3]%nat). cbn [fmap list_fmap].
  destruct (Hk 0%nat ltac:(lia)) as [E0 T0]. destruct (Hk 1%nat ltac:(lia)) as [E1 T1].
  destruct (Hk 2%nat ltac:(lia)) as [E2 T2]. destruct (Hk 3%nat ltac:(lia)) as [E3 T3].
  split; [|by repeat (apply Forall_cons_2; [done|]); apply Forall_nil_2]. cbn [flat_map]. rewrite E0, E1, E2, E3, app_nil_r. unfold slice, s.
  do 32 (destruct P as [|? P]; [done|]). by destruct P.
Qed.

Lemma decodePreamble_ok (P : bytes) tag ds : length P = 32%nat -> decodePreamble P = Ok (tag, ds) ->
  P = encodePreamble tag ds /\ preamble_ok tag ds.
Proof.
  intros HP H. destruct (slots_of_preamble P HP) as [HS HT].
  unfold decodePreamble in H. destruct (negb (_ =? _)) eqn:Hcrc in H; [done|].
  destruct (negb (validTag _)) eqn:Htag in H; [done|]. destruct (_ || _) eqn:Hcount in H; [done|].
  destruct (_ || _) eqn:Hz in H; [done|]. cbv zeta in HS, HT. unfold MaxSegments in Hcount.
  set (all := descriptor_at P <$> seqZ 0 MaxSegments) in *. set (count := byte_at P 1) in *.
  destruct (negb (bool_decide _)) eqn:Hrest in H; [done|].
  destruct (_ && _) eqn:Hlast in H; [done|]. injection H as <- <-. bsplit.
  apply bool_decide_eq_true in Hrest. apply Z.eqb_eq in Hcrc.
  assert (length all = 4%nat) as HL by (unfold all; by rewrite length_fmap, length_seqZ).
  set (ds := take (Z.to_nat count) all) in *.
  assert (Z.of_nat (length ds) = count) as Hds by (unfold ds; rewrite length_take; lia).
  assert (slots ds = all) as Hslots.
  { unfold slots. rewrite <- (take_drop (Z.to_nat count) all). fold ds. f_equal.
    assert (length (drop (Z.to_nat count) all) = (4 - length ds)%nat) as <- by (rewrite length_drop; lia).
    apply replicate_as_Forall. split; [done|].
    eapply Forall_impl; [exact Hrest|]. by intros ? ->. }
  split.
  - assert (preamble_fields (byte_at P 0) ds = slice 0 28 P) as HF.
    { rewrite fields_slots by lia. fold (slots ds). rewrite Hslots, HS. unfold len. rewrite Hds.
      subst count. unfold byte_at in *. rewrite !of_Z_unsigned. unfold zeros.
      do 32 (destruct P as [|? P]; [done|]). destruct P; [|done]. cbn in *.
      apply Z.eqb_eq in H, H0. change 0 with (byte.unsigned Byte.x00) in H, H0.
      apply byte.unsigned_inj in H, H0. by subst. }
    unfold encodePreamble. rewrite HF, Hcrc, le_split_combine_n.
    + unfold slice. do 32 (destruct P as [|? P]; [done|]). by destruct P.
    + unfold slice. rewrite length_take, length_drop. lia.
  - split_and!; [done|lia|lia|by apply Forall_take|]. intros Hn.
    destruct (last ds) as [d|] eqn:Hl; [|by apply last_None in Hl; rewrite Hl in Hn; cbn in Hn; lia].
    exists d. split; [done|]. apply andb_false_iff in Hlast as [Hlast|Hlast]; [lia|].
    apply bool_decide_eq_false in Hlast. cbn in Hlast. congruence.
Qed.

(** ** What is on the wire *)

Definition desc_of (s : Segment) : segmentDescriptor := mkDescriptor (len (Data s)) (Alignment s).

(** The bytes of a frame with checksum [c0] after its first segment and
    epilogue [ep]. *)
Definition segments_wire (c0 : bytes) (segments : list Segment) : bytes :=
  match segments with
  | [] => []
  | s :: segments => Data s ++ (if 0 <? len (Data s) then c0 else []) ++ flat_map Data segments
  end.

Definition frame_wire (f : Frame) (c0 ep : bytes) : bytes :=
  encodePreamble (Tag f) (desc_of <$> Segments f) ++ segments_wire c0 (Segments f)
  ++ (if 1 <? len (Segments f) then ep else []).

(** The checksums a reader with data checksums accepts. *)
Definition crcs_ok (segments : list Segment) (c0 ep : bytes) : Prop :=
  (forall s, segments !! 0%nat = Some s -> Data s <> [] -> le_combine c0 = CRC32C MaxUint32 (Data s)) /\
  (forall i s, (1 <= i)%nat -> segments !! i = Some s ->
     le_combine (slice (1 + (Z.of_nat i - 1) * 4) (1 + Z.of_nat i * 4) ep) = CRC32C MaxUint32 (Data s)).

Definition frame_ok (f : Frame) : Prop :=
  preamble_ok (Tag f) (desc_of <$> Segments f).

Lemma fold_res_unit {A} (body : A -> unit -> res unit) l :
  fold_res body l tt = Ok tt <-> Forall (fun x => body x tt = Ok tt) l.
Proof.
  induction l as [|x l IH]; cbn [fold_res]; [split; [intros; apply Forall_nil_2|done]|].
  rewrite Forall_cons, <- IH. destruct (body x tt) as [[]| |]; cbn; naive_solver.
Qed.

Lemma write_segments_later codec index segments : 0 < index ->
  write_segments codec index segments = flat_map Data segments.
Proof.
  revert index. induction segments as [|s l IH]; intros index Hi; [done|]. cbn [write_segments flat_map].
  destruct (Z.eqb_spec index 0); [lia|]. cbn. by rewrite IH by lia.
Qed.

Lemma write_segments_first codec segments :
  write_segments codec 0 segments =
  segments_wire (match segments with s :: _ => le_split 4 (data_crc codec (Data s)) | [] => [] end) segments.
Proof.
  destruct segments as [|s l]; [done|]. cbn [write_segments segments_wire].
  by rewrite write_segments_later by lia.
Qed.

Lemma data_crc_u32 codec data : inU 32 (data_crc codec data).
Proof. unfold data_crc. destruct (WithDataCRC codec); [apply CRC32C_u32|]; unfold inU, MaxUint32; lia. Qed.

Lemma length_epilogue codec segments : length (write_epilogue codec segments) = 13%nat.
Proof. unfold write_epilogue, epilogue_crc. cbn [flat_map length]. by rewrite !length_app, !length_le_split. Qed.

Lemma epilogue_slice codec segments i : (1 <= i <= 3)%nat ->
  slice (1 + (Z.of_nat i - 1) * 4) (1 + Z.of_nat i * 4) (write_epilogue codec segments) =
  epilogue_crc codec segments i.
Proof.
  intros Hi. unfold write_epilogue. cbn [flat_map]. unfold epilogue_crc.
  destruct i as [|[|[|[|i]]]]; [lia|reflexivity..|lia].
Qed.

Lemma check_epilogue_ok codec ep segments : (length segments <= 4)%nat ->
  check_epilogue codec ep segments = Ok tt <->
  Z.land (byte_at ep 0) 0x0f = LateStatusComplete /\
  (WithDataCRC codec = true -> forall i s, (1 <= i)%nat -> segments !! i = Some s ->
     le_combine (slice (1 + (Z.of_nat i - 1) * 4) (1 + Z.of_nat i * 4) ep) = CRC32C MaxUint32 (Data s)).
Proof.
  intros Hlen. unfold check_epilogue.
  destruct (Z.eqb_spec (Z.land (byte_at ep 0) 0x0f) LateStatusComplete) as [Hs|Hs].
  2: { split; [destruct (_ =? _); done|naive_solver]. }
  rewrite fold_res_unit, Forall_forall. unfold check_crc. split.
  - intros H. split; [done|]. intros Hc i s Hi Hseg. pose proof (lookup_lt_Some _ _ _ Hseg) as Hl.
    specialize (H (Z.of_nat i)). rewrite elem_of_seqZ in H. unfold len in H. specialize (H ltac:(lia)).
    cbv zeta in H. unfold Prelude.index in H. destruct (Z.ltb_spec (Z.of_nat i) 0); [lia|].
    rewrite Nat2Z.id, Hseg, bind_Ok, Hc in H. cbn [andb] in H.
    destruct (negb _) eqn:E; [done|]. bsplit. apply Z.eqb_eq in E. done.
  - intros [_ H] z Hz. apply elem_of_seqZ in Hz. unfold len in Hz.
    destruct (index_in_range segments z) as (s & Hs' & _); [unfold len; lia|].
    rewrite Hs', bind_Ok. apply index_ok in Hs' as [_ Hs'].
    destruct (WithDataCRC codec); [|done]. specialize (H eq_refl (Z.to_nat z) s ltac:(lia) Hs').
    rewrite Z2Nat.id in H by lia. by rewrite H, Z.eqb_refl.
Qed.

(** ** Single-byte corruption *)

(** Equal, or different in exactly one byte. *)
Definition near (a b : bytes) : Prop :=
  a = b \/ exists pre x y post, a = pre ++ x :: post /\ b = pre ++ y :: post.

Lemma near_length a b : near a b -> length a = length b.
Proof. intros [-> |(? & ? & ? & ? & -> & ->)]; [done|]. by rewrite !length_app. Qed.

Lemma near_crc seed a b : inU 32 seed -> near a b -> CRC32C seed a = CRC32C seed b -> a = b.
Proof.
  intros Hs [-> |(pre & x & y & post & -> & ->)] E; [done|]. by apply CRC32C_byte_inj in E as ->.
Qed.

Lemma near_app a1 a2 b1 b2 : length a1 = length b1 -> near (a1 ++ a2) (b1 ++ b2) ->
  (near a1 b1 /\ a2 = b2) \/ (a1 = b1 /\ near a2 b2).
Proof.
  intros Hl [E|(pre & x & y & post & Ea & Eb)].
  { apply app_inj_1 in E as [-> ->]; [|done]. left. split; [by left|done]. }
  destruct (decide (length a1 <= length pre)%nat) as [Hp|Hp].
  - right. rewrite <- (take_drop (length a1) pre), <- app_assoc in Ea, Eb.
    apply app_inj_1 in Ea as [Ea1 Ea2]; [|rewrite length_take; lia].
    apply app_inj_1 in Eb as [Eb1 Eb2]; [|rewrite length_take; lia].
    split; [congruence|]. right. by exists (drop (length a1) pre), x, y, post.
  - left. set (k := (length a1 - S (length pre))%nat).
    assert (length (take k post) = k) as Hk.
    { apply (f_equal length) in Ea. rewrite !length_app in Ea. cbn in Ea. rewrite length_take. lia. }
    rewrite <- (take_drop k post), app_comm_cons, app_assoc in Ea, Eb.
    apply app_inj_1 in Ea as [Ea1 Ea2]; [|rewrite length_app; cbn; rewrite Hk; lia].
    apply app_inj_1 in Eb as [Eb1 Eb2]; [|rewrite length_app; cbn; rewrite Hk; lia].
    split; [|congruence]. right. by exists pre, x, y, (take k post).
Qed.

(** ** Reading and writing frames in CRC mode *)

Lemma describe_ok limits index total segments ds total' :
  describe limits index total segments = Ok (ds, total') ->
  ds = desc_of <$> segments /\ Forall (fun s => len (Data s) <= MaxUint32) segments /\
  read_total limits index total ds = Ok total'.
Proof.
  revert index total ds total'. induction segments as [|s l IH]; intros index total ds total' H; cbn [describe] in H.
  { injection H as <- <-. split_and!; [done|apply Forall_nil_2|done]. }
  destruct (_ || _) eqn:Hlim in H; [done|]. destruct (negb _) eqn:Hal in H; [done|].
  destruct (_ <? total) eqn:Hov in H; [done|]. apply res_bind_ok in H as ([ds' t'] & Hd & H).
  injection H as <- <-. apply IH in Hd as (-> & Hl & Ht). bsplit.
  assert (len (Data s) <= MaxUint32) as Hs by lia. pose proof (len_nonneg (Data s)).
  rewrite wrapU_id by (unfold inU, MaxUint32 in *; lia). split_and!; [done|by apply Forall_cons_2|].
  cbn [read_total sd_length sd_alignment]. rewrite Hal, Hov, H0. done.
Qed.

Section read.
Context {R : Type} `{SR : StreamReader R}.

Lemma read_segments_later (E : error -> Prop) codec index segs rest r : 0 < index ->
  streams r (flat_map Data segs ++ rest) ->
  wp E (read_segments codec index (desc_of <$> segs)) r (fun segs' r' => segs' = segs /\ streams r' rest).
Proof.
  revert index r. induction segs as [|s l IH]; intros index r Hi Hr; [by apply wp_ret|].
  cbn [flat_map] in Hr. rewrite <- app_assoc in Hr. cbn [fmap list_fmap read_segments].
  apply wp_bind. eapply wp_read_known; [exact Hr|done|]. intros r1 Hr1.
  destruct (Z.eqb_spec index 0); [lia|]. cbn [andb]. apply wp_bind, wp_ret, wp_bind.
  eapply wp_mono; [by apply IH; [lia|]|]. intros l' r2 [-> Hr2]. apply wp_ret. by destruct s.
Qed.

Lemma read_segments_known (E : error -> Prop) codec segs c0 rest r :
  streams r (segments_wire c0 segs ++ rest) -> length c0 = 4%nat ->
  (WithDataCRC codec = true -> forall s, segs !! 0%nat = Some s -> Data s <> [] ->
    le_combine c0 = CRC32C MaxUint32 (Data s)) ->
  wp E (read_segments codec 0 (desc_of <$> segs)) r (fun segs' r' => segs' = segs /\ streams r' rest).
Proof.
  intros Hr Hc0 Hcrc. destruct segs as [|s l]; [by apply wp_ret|].
  cbn [segments_wire] in Hr. rewrite <- !app_assoc in Hr. cbn [fmap list_fmap read_segments].
  apply wp_bind. eapply wp_read_known; [exact Hr|done|]. intros r1 Hr1. cbn [desc_of sd_length Z.eqb andb].
  apply wp_bind.
  eapply wp_mono with (Q := fun _ r2 => streams r2 (flat_map Data l ++ rest)).
  - destruct (Z.ltb_spec 0 (len (Data s))) as [Hs|Hs]; [|by apply wp_ret].
    apply wp_bind. eapply wp_read_known; [exact Hr1|unfold len; by rewrite Hc0|]. intros r2 Hr2.
    destruct (WithDataCRC codec) eqn:Hw; cbn [andb]; [|by apply wp_ret].
    rewrite (Hcrc eq_refl s eq_refl) by (intros Hd; by rewrite Hd in Hs).
    rewrite Z.eqb_refl. by apply wp_ret.
  - intros _ r2 Hr2. apply wp_bind. eapply wp_mono; [by apply read_segments_later|].
    intros l' r3 [-> Hr3]. apply wp_ret. by destruct s.
Qed.

Lemma read_segments_later_inv codec index ds r s : 0 < index -> Forall desc_typed ds -> streams r s ->
  wp (fun _ => True) (read_segments codec index ds) r (fun segs r' =>
    exists rest, streams r' rest /\ s = flat_map Data segs ++ rest /\ desc_of <$> segs = ds).
Proof.
  revert index r s. induction ds as [|d ds IH]; intros index r s Hi Hds Hr; [apply wp_ret; by exists s|].
  apply Forall_cons in Hds as [[[Hl _] _] Hds]. cbn [read_segments].
  apply wp_bind; eapply wp_read; [done|exact Hr| |done].
  intros data rest r1 -> Hlen Hr1. destruct (Z.eqb_spec index 0); [lia|]. cbn [andb].
  apply wp_bind, wp_ret, wp_bind. eapply wp_mono; [by apply IH; [lia| |]|].
  intros l r2 (rest' & Hr2 & -> & <-).
  apply wp_ret. exists rest'. cbn [flat_map Data fmap list_fmap]. rewrite <- app_assoc. split_and!; [done..|].
  f_equal. destruct d. unfold desc_of. cbn in *. by rewrite Hlen.
Qed.

Lemma read_segments_inv codec ds r s : Forall desc_typed ds -> streams r s ->
  wp (fun _ => True) (read_segments codec 0 ds) r (fun segs r' => exists c0 rest, streams r' rest /\
    length c0 = 4%nat /\ s = segments_wire c0 segs ++ rest /\ desc_of <$> segs = ds /\
    (WithDataCRC codec = true -> forall s, segs !! 0%nat = Some s -> Data s <> [] ->
       le_combine c0 = CRC32C MaxUint32 (Data s))).
Proof.
  intros Hds Hr. destruct ds as [|d ds]; [apply wp_ret; by exists (zeros 4), s|].
  apply Forall_cons in Hds as [[[Hl _] _] Hds]. cbn [read_segments].
  apply wp_bind; eapply wp_read; [done|exact Hr| |done].
  intros data rest r1 -> Hlen Hr1. cbn [Z.eqb andb]. apply wp_bind.
  eapply wp_mono with (Q := fun _ r2 => exists c0 rest2, streams r2 rest2 /\ length c0 = 4%nat /\
    rest = (if 0 <? sd_length d then c0 else []) ++ rest2 /\
    (WithDataCRC codec = true -> 0 < sd_length d -> le_combine c0 = CRC32C MaxUint32 data)).
  { destruct (Z.ltb_spec 0 (sd_length d)) as [Hs|Hs]; [|apply wp_ret; exists (zeros 4), rest; split_and!; [done..|lia]].
    apply wp_bind; eapply wp_read; [done|exact Hr1| |done]. intros c0 rest2 r2 -> Hc0 Hr2.
    destruct (WithDataCRC codec && negb _) eqn:Hw; [by apply wp_throw|]. apply wp_ret. exists c0, rest2.
    unfold len in Hc0. split_and!; [done|lia|done|]. intros Hcrc _. rewrite Hcrc in Hw. cbn in Hw. bsplit.
    by apply Z.eqb_eq in Hw. }
  intros _ r2 (c0 & rest2 & Hr2 & Hc0 & -> & Hcrc). apply wp_bind.
  eapply wp_mono; [by apply read_segments_later_inv|]. intros l r3 (rest3 & Hr3 & -> & Hd).
  apply wp_ret. exists c0, rest3. cbn [segments_wire Data]. rewrite Hlen, <- !app_assoc. split_and!; [done..| |].
  - cbn. f_equal; [|done]. destruct d. unfold desc_of. cbn in *. by rewrite Hlen.
  - intros Hw s [= <-] Hne. apply Hcrc; [done|]. cbn in Hne. destruct data; [done|]. rewrite len_cons in Hlen.
    pose proof (len_nonneg data). lia.
Qed.

Lemma CRCCodec_Read_known codec limits f c0 ep rest total r : frame_ok f ->
  read_total limits 0 PreambleSize (desc_of <$> Segments f) = Ok total ->
  (MaxFrameBytes limits <? frame_total total (len (Segments f))) = false ->
  (maxInt <? frame_total total (len (Segments f))) = false ->
  length c0 = 4%nat -> length ep = 13%nat -> Z.land (byte_at ep 0) 0x0f = LateStatusComplete ->
  (WithDataCRC codec = true -> crcs_ok (Segments f) c0 ep) ->
  streams r (frame_wire f c0 ep ++ rest) ->
  wp refusal (CRCCodec_Read codec limits) r (fun f' r' => f' = f /\ streams r' rest).
Proof.
  intros Hok Htot Hmax Hint Hc0 Hep Hst Hcrc Hr. unfold frame_wire in Hr. rewrite <- !app_assoc in Hr.
  pose proof Hok as (_ & Hlen & _). rewrite length_fmap in Hlen. unfold CRCCodec_Read.
  apply wp_bind. eapply wp_read_known; [exact Hr|unfold len; rewrite length_preamble; [done|rewrite length_fmap; lia]|].
  intros r1 Hr1. apply wp_bind, wp_lift. rewrite decode_encodePreamble by exact Hok.
  apply wp_bind, wp_lift. rewrite Htot. replace (len (desc_of <$> Segments f)) with (len (Segments f))
    by (unfold len; by rewrite length_fmap). cbv zeta. rewrite Hmax, Hint. cbn [orb].
  set (tail := segments_wire _ _ ++ _) in Hr1. apply wp_bind.
  eapply wp_mono with (Q := fun _ r' => streams r' tail).
  { destruct (_ && _); [|by apply wp_ret]. eapply wp_account; eauto. }
  intros _ r2 Hr2. apply wp_bind; eapply wp_account; [naive_solver|exact Hr2|done|]. intros r3 Hr3.
  apply wp_bind. eapply wp_mono.
  { eapply (read_segments_known _ codec (Segments f) c0); [exact Hr3|done|]. intros H. by apply Hcrc. }
  intros segs r4 [-> Hr4]. apply wp_bind. destruct (Z.ltb_spec 1 (len (Segments f))) as [H1|H1].
  - apply wp_bind. eapply wp_read_known; [exact Hr4|unfold len; by rewrite Hep|]. intros r5 Hr5.
    apply wp_lift. replace (check_epilogue codec ep (Segments f)) with (Ok tt).
    + apply wp_ret. by destruct f.
    + symmetry. apply check_epilogue_ok; [lia|]. split; [done|]. intros H. by apply Hcrc.
  - apply wp_ret, wp_ret. by destruct f.
Qed.

Lemma read_total_no_panic limits index total ds : read_total limits index total ds <> Panic.
Proof.
  revert index total. induction ds as [|d ds IH]; intros i t; cbn; [done|]. repeat (case_match; try done).
Qed.

Lemma decodePreamble_no_panic P : decodePreamble P <> Panic.
Proof. unfold decodePreamble. repeat (case_match; try done). Qed.

Lemma check_epilogue_no_panic codec ep segs : check_epilogue codec ep segs <> Panic.
Proof.
  unfold check_epilogue. destruct (_ =? LateStatusComplete); [|by destruct (_ =? LateStatusAborted)].
  assert (Forall (fun i => 0 <= i < len segs) (seqZ 1 (len segs - 1))) as HF.
  { apply Forall_forall. intros i Hi. apply elem_of_seqZ in Hi. lia. }
  induction HF as [|i l Hi HF IH]; [done|]. cbn [fold_res].
  destruct (check_crc codec ep segs i tt) as [[]|e|] eqn:Hc; [exact IH|done|]. intros _.
  unfold check_crc in Hc. destruct (index_in_range segs i Hi) as (s & Es & _).
  rewrite Es, bind_Ok in Hc. by destruct (_ && _) in Hc.
Qed.

Lemma CRCCodec_Read_inv codec limits r s : streams r s ->
  wp (fun _ => True) (CRCCodec_Read codec limits) r (fun f r' => exists c0 ep rest,
    streams r' rest /\ length c0 = 4%nat /\ length ep = 13%nat /\ s = frame_wire f c0 ep ++ rest /\
    frame_ok f /\ (WithDataCRC codec = true -> crcs_ok (Segments f) c0 ep)).
Proof.
  intros Hr. unfold CRCCodec_Read. apply wp_bind; eapply wp_read; [done|exact Hr| |done]. intros P rest r1 -> HP Hr1.
  unfold len, PreambleSize in HP. apply wp_bind, wp_lift. pose proof (decodePreamble_no_panic P) as HN.
  destruct (decodePreamble P) as [[tag ds]|e|] eqn:HD; [|done|by destruct HN].
  apply decodePreamble_ok in HD as [-> Hpre]; [|lia]. pose proof Hpre as (_ & Hlen & Htyped & _).
  apply wp_bind, wp_lift. pose proof (read_total_no_panic limits 0 PreambleSize ds) as HT.
  destruct (read_total _ _ _ _) as [total|e|]; [|done|by destruct HT].
  cbv zeta. destruct (_ || _); [by apply wp_throw|].
  apply wp_bind. eapply wp_mono with (Q := fun _ r' => streams r' rest).
  { destruct (_ && _); [|by apply wp_ret]. eapply wp_account; eauto. }
  intros _ r2 Hr2. apply wp_bind; eapply wp_account; [naive_solver|exact Hr2|done|]. intros r3 Hr3.
  apply wp_bind. eapply wp_mono; [by apply read_segments_inv|].
  intros segs r4 (c0 & rest4 & Hr4 & Hc0 & -> & <- & Hcrc). apply wp_bind.
  replace (len (desc_of <$> segs)) with (len segs) by (unfold len; by rewrite length_fmap).
  rewrite length_fmap in Hlen. unfold frame_wire, frame_ok. destruct (1 <? len segs) eqn:H1.
  - apply wp_bind; eapply wp_read; [done|exact Hr4| |done]. intros ep rest5 r5 -> Hep Hr5. unfold len in Hep.
    apply wp_lift. pose proof (check_epilogue_no_panic codec ep segs) as HE'.
    destruct (check_epilogue codec ep segs) as [[]|e|] eqn:HE; [|done|by destruct HE'].
    apply wp_ret. cbn [Tag Segments]. exists c0, ep, rest5. rewrite H1. apply check_epilogue_ok in HE as [_ HE]; [|lia].
    split_and!; [done|lia|lia|by rewrite <- !app_assoc|done|].
    intros Hw. split; [by apply Hcrc|by apply HE].
  - apply wp_ret, wp_ret. cbn [Tag Segments]. exists c0, (zeros 13), rest4. rewrite H1.
    split_and!; [done|done|done|by rewrite app_nil_r, <- app_assoc|done|].
    intros Hw. split; [by apply Hcrc|]. intros i s Hi Hs. apply lookup_lt_Some in Hs. unfold len in H1. lia.
Qed.

End read.

Lemma CRCCodec_Encode_wire codec frame limits bs :
  Forall (fun s => inU 16 (Alignment s)) (Segments frame) ->
  CRCCodec_Encode codec frame limits = Ok bs ->
  exists segs c0 ep total, let f := mkFrame (Tag frame) segs in
    normalizeSegments (Segments frame) = Ok segs /\ bs = frame_wire f c0 ep /\ frame_ok f /\
    length c0 = 4%nat /\ length ep = 13%nat /\ Z.land (byte_at ep 0) 0x0f = LateStatusComplete /\
    (WithDataCRC codec = true -> crcs_ok segs c0 ep) /\
    read_total limits 0 PreambleSize (desc_of <$> segs) = Ok total /\
    (MaxFrameBytes limits <? frame_total total (len segs)) = false /\
    (maxInt <? frame_total total (len segs)) = false.
Proof.
  intros Hal H. unfold CRCCodec_Encode in H. apply res_bind_ok in H as (segs & Hn & H).
  destruct (negb _) eqn:Htag in H; [done|]. apply res_bind_ok in H as ([ds total] & Hd & H).
  apply describe_ok in Hd as (-> & Hl & Ht). cbv zeta in H. destruct (_ || _) eqn:Hlim in H; [done|].
  injection H as <-. bsplit. pose proof (normalizeSegments_ok _ _ Hn) as [[Hlen Hlast] [tl Htl]].
  exists segs, (match segs with s :: _ => le_split 4 (data_crc codec (Data s)) | [] => zeros 4 end),
    (write_epilogue codec segs), total. cbv zeta.
  split_and!; [done| | | |apply length_epilogue|reflexivity| |done|done|done].
  - unfold frame_wire. cbn [Tag Segments]. rewrite write_segments_first. by destruct segs.
  - split_and!; cbn [Tag Segments]; [done|rewrite length_fmap; lia|rewrite length_fmap; lia| |].
    + apply Forall_fmap. rewrite Htl in Hal. apply Forall_app in Hal as [Hal _].
      apply Forall_forall. intros s Hs. rewrite Forall_forall in Hal, Hl. split; cbn.
      * pose proof (len_nonneg (Data s)). specialize (Hl s Hs). cbn in Hl. unfold inU, MaxUint32 in *. lia.
      * by apply Hal.
    + rewrite length_fmap. intros H1. destruct (Hlast H1) as (s & Hs & Hd). exists (desc_of s).
      rewrite fmap_last, Hs. split; [done|]. cbn. destruct (Data s) as [|x data]; [done|]. rewrite len_cons.
      pose proof (len_nonneg data). lia.
  - destruct segs; [done|]. apply length_le_split.
  - intros Hw. split.
    + intros s Hs _. destruct segs; [done|]. injection Hs as ->. unfold data_crc. rewrite Hw.
      apply le_combine_le_split_id, CRC32C_u32. unfold inU, MaxUint32. lia.
    + intros i s Hi Hs. pose proof (lookup_lt_Some _ _ _ Hs). rewrite epilogue_slice by lia.
      unfold epilogue_crc. rewrite Hs. unfold data_crc. rewrite Hw.
      apply le_combine_le_split_id, CRC32C_u32. unfold inU, MaxUint32. lia.
Qed.

(** A corrupted preamble does not pass its checksum. *)
Lemma near_preamble tag ds tag' ds' : preamble_ok tag ds -> preamble_ok tag' ds' ->
  near (encodePreamble tag ds) (encodePreamble tag' ds') -> tag = tag' /\ ds = ds'.
Proof.
  intros H H' Hn. pose proof (decode_encodePreamble _ _ H) as D. pose proof (decode_encodePreamble _ _ H') as D'.
  assert (encodePreamble tag ds = encodePreamble tag' ds') as E; [|rewrite E, D' in D; by injection D as -> ->].
  destruct H as (_ & Hl & _), H' as (_ & Hl' & _). unfold encodePreamble in *.
  assert (inU 32 (CRC32C 0 (preamble_fields tag ds)) /\ inU 32 (CRC32C 0 (preamble_fields tag' ds'))) as [U U'].
  { split; apply CRC32C_u32; unfold inU; lia. }
  apply near_app in Hn as [[Hn E]|[-> _]]; [|done|by rewrite !length_fields by lia].
  apply (f_equal le_combine) in E. rewrite !le_combine_le_split_id in E by done.
  apply (near_crc 0) in Hn; [by rewrite Hn|unfold inU; lia|done].
Qed.

(** Corruption of later segments: each pair is near, and the checksums decide. *)
Lemma near_segments segs segs' : desc_of <$> segs = desc_of <$> segs' ->
  near (flat_map Data segs) (flat_map Data segs') ->
  (forall i s s', segs !! i = Some s -> segs' !! i = Some s' ->
     CRC32C MaxUint32 (Data s) = CRC32C MaxUint32 (Data s')) -> segs = segs'.
Proof.
  revert segs'. induction segs as [|s l IH]; intros [|s' l'] Hd Hn Hcrc; [done..|].
  cbn in Hd. injection Hd as Hlen Hal Hd. cbn [flat_map] in Hn.
  assert (length (Data s) = length (Data s')) as HL by (unfold len in Hlen; lia).
  assert (near (Data s) (Data s') /\ near (flat_map Data l) (flat_map Data l')) as [N1 N2].
  { apply near_app in Hn as [[? E]|[E ?]]; [by split; [|left]|by split; [left|]|done]. }
  apply (near_crc MaxUint32) in N1; [|unfold inU, MaxUint32; lia|by apply (Hcrc 0%nat)].
  rewrite (IH l' Hd N2); [destruct s, s'; cbn in *; congruence|]. intros i. apply (Hcrc (S i)).
Qed.

Lemma flat_data_inj segs segs' : desc_of <$> segs = desc_of <$> segs' ->
  flat_map Data segs = flat_map Data segs' -> segs = segs'.
Proof.
  revert segs'. induction segs as [|s l IH]; intros [|s' l'] Hd Hn; [done..|].
  cbn in Hd. injection Hd as Hlen Hal Hd. cbn [flat_map] in Hn.
  apply app_inj_1 in Hn as [E1 E2]; [|unfold len in Hlen; lia].
  rewrite (IH l' Hd E2). destruct s, s'. cbn in *. congruence.
Qed.

Lemma crcs_agree segs segs' c0 c0' ep ep' i s s' : crcs_ok segs c0 ep -> crcs_ok segs' c0' ep' ->
  ep = ep' -> segs !! S i = Some s -> segs' !! S i = Some s' ->
  CRC32C MaxUint32 (Data s) = CRC32C MaxUint32 (Data s').
Proof. intros [_ H] [_ H'] <- Hs Hs'. by rewrite <- (H (S i) s), <- (H' (S i) s') by (done || lia). Qed.

Lemma near_frame f f' c0 c0' ep ep' : frame_ok f -> frame_ok f' ->
  length c0 = 4%nat -> length c0' = 4%nat ->
  crcs_ok (Segments f) c0 ep -> crcs_ok (Segments f') c0' ep' -> length ep = length ep' ->
  near (frame_wire f c0 ep) (frame_wire f' c0' ep') -> f = f'.
Proof.
  intros Hok Hok' Hc Hc' Hcrc Hcrc' Hep Hn. unfold frame_wire in Hn.
  pose proof Hok as (_ & Hl & _). pose proof Hok' as (_ & Hl' & _).
  assert (Tag f = Tag f' /\ desc_of <$> Segments f = desc_of <$> Segments f' /\
    near (segments_wire c0 (Segments f) ++ (if 1 <? len (Segments f) then ep else []))
         (segments_wire c0' (Segments f') ++ (if 1 <? len (Segments f') then ep' else []))) as (HT & HD & Hn').
  { apply near_app in Hn as [[Hn E]|[E Hn]]; [| |by rewrite !length_preamble by lia].
    - destruct (near_preamble _ _ _ _ Hok Hok' Hn) as [-> ->]. split_and!; [done..|]. by left.
    - destruct (near_preamble _ _ _ _ Hok Hok' (or_introl E)) as [-> ->]. done. }
  enough (Segments f = Segments f') by (destruct f, f'; cbn in *; congruence). clear Hn.
  destruct (Segments f) as [|s l], (Segments f') as [|s' l']; [done..|].
  cbn in HD. injection HD as Hlen Hal HD. cbn [segments_wire] in Hn'. rewrite Hlen in Hn'.
  assert (len l = len l') as HL by (apply (f_equal length) in HD; rewrite !length_fmap in HD; unfold len; lia).
  rewrite !len_cons, HL in Hn'. set (b := if 1 <? _ then ep else []) in Hn'. set (b' := if 1 <? _ then ep' else []) in Hn'.
  set (k := if 0 <? _ then c0 else []) in Hn'. set (k' := if 0 <? _ then c0' else []) in Hn'.
  assert (length k = length k') as Hk by (subst k k'; destruct (0 <? _); congruence).
  assert (length (flat_map Data l) = length (flat_map Data l')) as Hfl.
  { clear -HD. revert l' HD. induction l as [|x l IH]; intros [|y l'] HD; [done..|]. cbn in HD.
    injection HD as Hxy _ HD. cbn. rewrite !length_app, (IH l' HD). unfold len in Hxy. lia. }
  rewrite <- !app_assoc in Hn'. assert (length (Data s) = length (Data s')) as Hs by (unfold len in Hlen; lia).
  assert (Data s = Data s' /\ near (flat_map Data l ++ b) (flat_map Data l' ++ b')) as [Es Hn2].
  { apply near_app in Hn' as [[Hn' E]|[-> Hn']]; [| |done].
    - apply app_inj_1 in E as [Ek E]; [|done]. split; [|by left].
      destruct (Data s) as [|x d] eqn:Ed; [by destruct (Data s')|].
      apply near_crc with (seed := MaxUint32); [unfold inU, MaxUint32; lia|done|].
      rewrite <- Ed. destruct Hcrc as [H _], Hcrc' as [H' _].
      rewrite <- (H s), <- (H' s'); [|done|by destruct (Data s')|done|by rewrite Ed].
      subst k k'. pose proof (len_nonneg d). rewrite <- Hlen, len_cons in Ek.
      destruct (Z.ltb_spec 0 (1 + len d)); [by rewrite Ek|lia].
    - apply near_app in Hn' as [[Hn' E]|[_ Hn']]; [| |done]; split; [done|by left|done..]. }
  assert (l = l') as ->; [|destruct s, s'; cbn in *; congruence].
  apply near_app in Hn2 as [[Hn2 E]|[E _]]; [|by apply flat_data_inj|done]. apply near_segments; [done..|].
  intros i x x' Hx Hx'. apply (crcs_agree (s :: l) (s' :: l') c0 c0' ep ep' i); try done.
  subst b b'. assert (0 < len l) as H0 by (apply lookup_lt_Some in Hx; unfold len; lia).
  rewrite <- HL in E. destruct (Z.ltb_spec 1 (1 + len l)); [done|lia].
Qed.

Lemma length_segments_wire c0 c0' segs segs' : desc_of <$> segs = desc_of <$> segs' ->
  length c0 = length c0' -> length (segments_wire c0 segs) = length (segments_wire c0' segs').
Proof.
  intros Hd Hc. destruct segs as [|s l], segs' as [|s' l']; [done..|]. cbn in Hd. injection Hd as Hlen _ Hd.
  cbn [segments_wire]. rewrite !length_app, Hlen. assert (length (Data s) = length (Data s')) as -> by (unfold len in Hlen; lia).
  assert (length (flat_map Data l) = length (flat_map Data l')) as ->.
  { clear -Hd. revert l' Hd. induction l as [|x l IH]; intros [|y l'] Hd; [done..|]. cbn in Hd.
    injection Hd as Hxy _ Hd. cbn. rewrite !length_app, (IH l' Hd). unfold len in Hxy. lia. }
  destruct (0 <? _); congruence.
Qed.

(** What a reader takes from a stream that starts with a corrupted frame ends
    where the frame ends. *)
Lemma near_stream f f' c0 c0' ep ep' bs' rest rest' : frame_ok f -> frame_ok f' ->
  length c0 = 4%nat -> length c0' = 4%nat -> length ep = 13%nat -> length ep' = 13%nat ->
  near (frame_wire f c0 ep) bs' -> bs' ++ rest = frame_wire f' c0' ep' ++ rest' ->
  bs' = frame_wire f' c0' ep' /\ rest = rest'.
Proof.
  intros Hok Hok' Hc Hc' He He' Hn E. apply app_inj_1; [|done]. rewrite <- (near_length _ _ Hn).
  pose proof Hok as (_ & Hl & _). pose proof Hok' as (_ & Hl' & _).
  unfold frame_wire in *. set (P := encodePreamble (Tag f) _) in *. set (P' := encodePreamble (Tag f') _) in *.
  assert (length P = 32%nat /\ length P' = 32%nat) as [HP HP'] by (split; apply length_preamble; lia).
  assert (near P P') as Hpre.
  { rewrite <- (take_drop 32 bs') in Hn, E. rewrite <- !app_assoc in E.
    pose proof (near_length _ _ Hn) as HL. rewrite !length_app, length_drop, length_take in HL.
    apply app_inj_1 in E as [E _]; [|rewrite length_take; lia]. rewrite <- E.
    apply near_app in Hn as [[Hn _]|[Hn _]]; [done|by left|rewrite length_take; lia]. }
  destruct (near_preamble _ _ _ _ Hok Hok' Hpre) as [_ HD].
  rewrite !length_app, HP, HP', (length_segments_wire c0 c0' _ _ HD) by congruence.
  assert (len (Segments f) = len (Segments f')) as ->.
  { apply (f_equal length) in HD. rewrite !length_fmap in HD. unfold len. lia. }
  destruct (1 <? len (Segments f')); cbn [length]; lia.
Qed.

Lemma ReadBanner_encode (a : Banner) x maxPayload :
  inU 64 (Supported a) -> inU 64 (Required a) -> bannerPayloadSize <= maxPayload ->
  wp refusal (ReadBanner maxPayload) (Banner_Encode a ++ x) (fun a' r => a' = a /\ r = x).
Proof.
  intros Hs Hr Hmax. unfold ReadBanner. apply wp_bind.
  eapply (wp_read_known _ (bannerPrefix ++ le_split 2 bannerPayloadSize)
    (le_split 8 (Supported a) ++ le_split 8 (Required a) ++ x)); [|done|].
  { unfold Banner_Encode. cbn [streams plain_stream]. by rewrite <- !app_assoc. }
  intros r1 Hr1. cbn [streams plain_stream] in Hr1. subst r1.
  change (slice 0 (len bannerPrefix) (bannerPrefix ++ le_split 2 bannerPayloadSize)) with bannerPrefix.
  rewrite bool_decide_true by done. cbn [negb].
  change (le_combine (slice (len bannerPrefix) (len bannerPrefix + 2) (bannerPrefix ++ le_split 2 bannerPayloadSize))) with 16.
  unfold bannerPayloadSize in *. cbn [Z.ltb]. destruct (Z.ltb_spec maxPayload 16); [lia|].
  change (16 <? 16) with false. cbv iota.
  apply wp_bind. eapply (wp_read_known _ (le_split 8 (Supported a) ++ le_split 8 (Required a)) x); [|done|].
  { cbn [streams plain_stream]. by rewrite <- app_assoc. }
  intros r2 Hr2. cbn [streams plain_stream] in Hr2. subst r2. apply wp_ret. split; [|done].
  unfold slice. change (Z.to_nat (8 - 0)) with 8%nat. change (Z.to_nat (16 - 8)) with 8%nat.
  change (Z.to_nat 0) with 0%nat. change (Z.to_nat 8) with 8%nat. rewrite drop_0.
  rewrite take_app_length', drop_app_length' by (by rewrite length_le_split).
  rewrite firstn_all2 by (by rewrite length_le_split). rewrite !le_combine_le_split_id by done. by destruct a.
Qed.

(** ** Properties *)

(** C20. Frames in CRC mode round trip: whatever reader delivers the bytes of an
    encoded frame, reading gives back the frame with its trailing empty
    segments dropped and leaves the stream right after it; the only other
    outcome is that the reader's budget refuses the memory. *)
Theorem CRC_frame_roundtrip codec frame limits bs rest R (RD : Reader R) (SR : StreamReader R) r :
  Forall (fun s => inU 16 (Alignment s)) (Segments frame) ->
  CRCCodec_Encode codec frame limits = Ok bs -> streams r (bs ++ rest) ->
  wp refusal (CRCCodec_Read codec limits) r (fun f r' =>
    Tag f = Tag frame /\ normalizeSegments (Segments frame) = Ok (Segments f) /\ streams r' rest).
Proof.
  intros Hal HE Hr. apply CRCCodec_Encode_wire in HE as
    (segs & c0 & ep & total & Hn & -> & Hok & Hc0 & Hep & Hst & Hcrc & Ht & Hm & Hi); [|done].
  eapply wp_mono; [by eapply (CRCCodec_Read_known _ _ (mkFrame (Tag frame) segs))|].
  intros f r' [-> Hr']. done.
Qed.

Definition sample_frame : Frame :=
  mkFrame 18 [mkSegment 8 [Byte.x01; Byte.x02]; mkSegment 8 []; mkSegment 4096 [Byte.x03]; mkSegment 8 []].
Definition sample_frame_limits : FrameLimits := mkFrameLimits 4096 8192 16 1024.
Definition sample_frame_bytes : bytes := Eval vm_compute in
  match EncodeCRC sample_frame sample_frame_limits with Ok bs => bs | _ => [] end.

Lemma CRC_frame_roundtrip_witness :
  wp (R := bytes) refusal (CRCCodec_Read (mkCRCCodec true) sample_frame_limits) (sample_frame_bytes ++ [Byte.xff])
    (fun f r' => Tag f = 18 /\ normalizeSegments (Segments sample_frame) = Ok (Segments f) /\ streams r' [Byte.xff]).
Proof.
  apply (CRC_frame_roundtrip (mkCRCCodec true) sample_frame sample_frame_limits sample_frame_bytes [Byte.xff]).
  - repeat (apply Forall_cons_2; [unfold inU; cbn; lia|]). apply Forall_nil_2.
  - vm_compute. reflexivity.
  - reflexivity.
Defined.

(** C21. Integrity in CRC mode: when any single byte of an encoded frame is
    corrupted on the way, the reader never delivers another frame.  It fails,
    or, when the byte carries no information (the unused checksum slots and
    the upper half of the status byte), delivers the frame that was sent and
    stays in step with the stream. *)
Theorem CRC_frame_detects_corruption frame limits limits' bs bs' rest R (RD : Reader R) (SR : StreamReader R) r :
  Forall (fun s => inU 16 (Alignment s)) (Segments frame) ->
  EncodeCRC frame limits = Ok bs -> near bs bs' -> streams r (bs' ++ rest) ->
  wp (fun _ => True) (ReadCRC limits') r (fun f r' =>
    Tag f = Tag frame /\ normalizeSegments (Segments frame) = Ok (Segments f) /\ streams r' rest).
Proof.
  intros Hal HE Hnear Hr. apply CRCCodec_Encode_wire in HE as
    (segs & c0 & ep & total & Hn & -> & Hok & Hc0 & Hep & _ & Hcrc & _); [|done].
  eapply wp_mono; [by eapply CRCCodec_Read_inv|].
  intros f' r' (c0' & ep' & rest' & Hrest & Hc0' & Hep' & Hr' & Hok' & Hcrc'). destruct (near_stream _ _ _ _ _ _ _ _ _ Hok Hok' Hc0 Hc0' Hep Hep' Hnear Hr') as [-> <-].
  apply near_frame in Hnear as <-; auto. congruence.
Qed.

Lemma CRC_frame_detects_corruption_witness :
  wp (R := bytes) (fun _ => True) (ReadCRC sample_frame_limits) (<[34%nat := Byte.x77]> sample_frame_bytes ++ [])
    (fun f r' => Tag f = 18 /\ normalizeSegments (Segments sample_frame) = Ok (Segments f) /\ streams r' []).
Proof.
  apply (CRC_frame_detects_corruption sample_frame sample_frame_limits sample_frame_limits sample_frame_bytes
    (<[34%nat := Byte.x77]> sample_frame_bytes) []).
  - repeat (apply Forall_cons_2; [unfold inU; cbn; lia|]). apply Forall_nil_2.
  - vm_compute. reflexivity.
  - right. exists (take 34 sample_frame_bytes), (nth 34 sample_frame_bytes Byte.x00), Byte.x77, (drop 35 sample_frame_bytes).
    split; vm_compute; reflexivity.
  - reflexivity.
Defined.

(** C22. Banner exchange: each side reads exactly the banner the other wrote;
    the two sides then reach the same verdict, and agreed features are
    supported by both, contain what each requires and the revision. *)
Theorem banner_agreement (a b : Banner) rest maxPayload :
  inU 64 (Supported a) -> inU 64 (Required a) -> bannerPayloadSize <= maxPayload ->
  ReadBanner maxPayload (Banner_Encode a ++ rest) = (Ok a, rest) /\
  NegotiateBanner a b = NegotiateBanner b a /\
  (forall n, NegotiateBanner a b = Ok n ->
     Z.ldiff n (Supported a) = 0 /\ Z.ldiff n (Supported b) = 0 /\ Z.odd n = true /\
     (Z.ldiff (Required a) (Supported a) = 0 -> Z.ldiff (Required a) n = 0)).
Proof.
  intros Hs Hr Hmax. split_and!.
  - pose proof (ReadBanner_encode a rest maxPayload Hs Hr Hmax) as H. unfold wp in H.
    destruct (ReadBanner maxPayload _) as [[a'|e|] r]; [|done..]. by destruct H as [-> ->].
  - unfold NegotiateBanner. rewrite orb_comm, (Z.land_comm (Supported a)). done.
  - intros n H. unfold NegotiateBanner in H. destruct (_ || _) eqn:Hreq in H; [done|].
    destruct (_ =? 0) eqn:Hrev in H; [done|]. injection H as <-. bsplit.
    repeat match goal with H : (_ =? _) = true |- _ => apply Z.eqb_eq in H end.
    assert (forall i, Z.testbit (Required a) i = true -> Z.testbit (Supported b) i = true) as Hsub.
    { intros i Hi. apply (f_equal (fun z => Z.testbit z i)) in H0. rewrite Z.ldiff_spec, Hi, Z.bits_0 in H0.
      by destruct (Z.testbit (Supported b) i). }
    split_and!.
    + apply Z.bits_inj'. intros i _. rewrite Z.ldiff_spec, Z.land_spec, Z.bits_0. by destruct (Z.testbit _ i), (Z.testbit _ i).
    + apply Z.bits_inj'. intros i _. rewrite Z.ldiff_spec, Z.land_spec, Z.bits_0. by destruct (Z.testbit (Supported a) i), (Z.testbit _ i).
    + apply Z.eqb_neq in Hrev. unfold Revision1Features in Hrev. change 1 with (Z.ones 1) in Hrev.
      rewrite Z.land_ones, Zmod_odd in Hrev by lia. by destruct (Z.odd _).
    + intros Ha. apply Z.bits_inj'. intros i _. apply (f_equal (fun z => Z.testbit z i)) in Ha.
      rewrite !Z.ldiff_spec, ?Z.land_spec, Z.bits_0 in *. specialize (Hsub i).
      destruct (Z.testbit (Required a) i); [|done]. rewrite Hsub by done. by destruct (Z.testbit (Supported a) i).
Qed.

Lemma banner_agreement_witness :
  ReadBanner 16 (Banner_Encode ClientBanner ++ [Byte.x01]) = (Ok ClientBanner, [Byte.x01]) /\
  NegotiateBanner ClientBanner (mkBanner 3 1) = NegotiateBanner (mkBanner 3 1) ClientBanner /\
  (forall n, NegotiateBanner ClientBanner (mkBanner 3 1) = Ok n ->
     Z.ldiff n 1 = 0 /\ Z.ldiff n 3 = 0 /\ Z.odd n = true /\ (Z.ldiff 1 1 = 0 -> Z.ldiff 1 n = 0)).
Proof. apply (banner_agreement ClientBanner (mkBanner 3 1)); vm_compute; try split; congruence. Defined.
