(* ===== verification/MsgrMessage.v ===== *)
(** * Messages (src/internal/msgr/message.go)

    The packed message header, messages as frames of up to four segments, and
    the reference count of leased payloads. *)

From stdpp Require Import base gmap list numbers.
From coqutil Require Import Byte Word.LittleEndianList.
From S2P Require Import Prelude Codec Crc MsgrFrame.
From stdpp Require Import list.

Open Scope Z_scope.
Open Scope go_scope.

Definition MessageHeaderSize : Z := 41.

Definition messageAlignments : list Z :=
  [DefaultAlignment; DefaultAlignment; DefaultAlignment; PageAlignment].

Record MessageHeader := mkHeader {
  Sequence : Z;
  TransactionID : Z;
  Type_ : Z;
  Priority : Z;
  Version : Z;
  DataPrePaddingLength : Z;
  DataOffset : Z;
  AckSequence : Z;
  Flags : Z;
  CompatVersion : Z;
  Reserved : Z }.

Record MessageLengths := mkLengths { l_Front : Z; l_Middle : Z; l_Data : Z }.

#[export] Instance lengths_eq_dec : EqDecision MessageLengths.
Proof. solve_decision. Defined.

(** The fields that cross the wire; [TransportGeneration], [transferred] and
    the leases are set by the session. *)
Record Message := mkMessage {
  Header : MessageHeader;
  Lengths : MessageLengths;
  Front : bytes;
  Middle : bytes;
  m_Data : bytes }.

Definition header_writes (h : MessageHeader) : Enc.M :=
  Enc.Uint64 (Sequence h) ⨾ Enc.Uint64 (TransactionID h) ⨾ Enc.Uint16 (Type_ h)
  ⨾ Enc.Uint16 (Priority h) ⨾ Enc.Uint16 (Version h) ⨾ Enc.Uint32 (DataPrePaddingLength h)
  ⨾ Enc.Uint16 (DataOffset h) ⨾ Enc.Uint64 (AckSequence h) ⨾ Enc.Uint8 (Flags h)
  ⨾ Enc.Uint16 (CompatVersion h) ⨾ Enc.Uint16 (Reserved h).

Definition EncodeMessageHeader (header : MessageHeader) : res bytes :=
  match Enc.BytesResult (header_writes header (NewEncoder MessageHeaderSize)) with
  | Ok data => if len data =? MessageHeaderSize then Ok data else Panic
  | _ => Panic
  end.

Definition header_reads : DecM MessageHeader :=
  sequence ← Dec.Uint64;
  transactionID ← Dec.Uint64;
  type ← Dec.Uint16;
  priority ← Dec.Uint16;
  version ← Dec.Uint16;
  dataPrePaddingLength ← Dec.Uint32;
  dataOffset ← Dec.Uint16;
  ackSequence ← Dec.Uint64;
  flags ← Dec.Uint8;
  compatVersion ← Dec.Uint16;
  reserved ← Dec.Uint16;
  mret (mkHeader sequence transactionID type priority version dataPrePaddingLength dataOffset
          ackSequence flags compatVersion reserved).

Definition DecodeMessageHeader (data : bytes) : res MessageHeader :=
  if negb (len data =? MessageHeaderSize) then Err wire_ErrMalformed
  else
    fst ((header ← header_reads;
          _ ←? Dec.Finish;
          remaining ← Dec.Remaining;
          if negb (remaining =? 0) then fail wire_ErrMalformed else ok header)
         (NewDecoder data (mkLimits 0))).

Definition checkedUint32Length (length : Z) : res Z :=
  if (length <? 0) || (MaxUint32 <? length) then Err wire_ErrLimitExceeded else Ok (u32 length).

Fixpoint validate_segments (limits : FrameLimits) (index total : Z) (segments : list Segment) : res Z :=
  match segments with
  | [] => Ok total
  | segment :: segments =>
      want ← Prelude.index messageAlignments index;
      if negb (Alignment segment =? want) then Err wire_ErrMalformed
      else
        let length := len (Data segment) in
        if (MaxSegmentBytes limits <? length) || (MaxUint64 - length <? total)
        then Err wire_ErrLimitExceeded
        else validate_segments limits (index + 1) (total + length) segments
  end.

Definition validateMessageSegments (segments : list Segment) (limits : FrameLimits) : res unit :=
  total ← validate_segments limits 0 0 segments;
  if MaxFrameBytes limits <? total then Err wire_ErrLimitExceeded else Ok tt.

(** [EncodeMessage] and [encodeOwnedMessage] differ in whether the segments
    get their own copies of the payloads. *)
Definition encodeMessage (message : Message) (limits : FrameLimits) : res Frame :=
  frontLength ← checkedUint32Length (len (Front message));
  middleLength ← checkedUint32Length (len (Middle message));
  dataLength ← checkedUint32Length (len (m_Data message));
  let actual := mkLengths frontLength middleLength dataLength in
  if negb (bool_decide (Lengths message = actual)) then Err wire_ErrMalformed
  else if dataLength <? DataPrePaddingLength (Header message) then Err wire_ErrMalformed
  else
    header ← EncodeMessageHeader (Header message);
    let segments := [mkSegment DefaultAlignment header; mkSegment DefaultAlignment (Front message);
                     mkSegment DefaultAlignment (Middle message); mkSegment PageAlignment (m_Data message)] in
    _ ← validateMessageSegments segments limits;
    Ok (mkFrame TagMessage segments).

(** Likewise [DecodeMessage] and [decodeOwnedMessage]: the payload of a segment
    that the frame does not have is [nil]. *)
Definition payload (segments : list Segment) (index : nat) : bytes :=
  match segments !! index with Some segment => Data segment | None => [] end.

Definition decodeMessage (frame : Frame) (limits : FrameLimits) : res Message :=
  if negb (Tag frame =? TagMessage) then Err wire_ErrMalformed
  else if (len (Segments frame) <? 1) || (len messageAlignments <? len (Segments frame))
  then Err wire_ErrMalformed
  else
    _ ← validateMessageSegments (Segments frame) limits;
    header ← DecodeMessageHeader (payload (Segments frame) 0);
    let dataLength := if 3 <? len (Segments frame) then u32 (len (payload (Segments frame) 3)) else 0 in
    if dataLength <? DataPrePaddingLength header then Err wire_ErrMalformed
    else
      let front := payload (Segments frame) 1 in
      let middle := payload (Segments frame) 2 in
      let data := payload (Segments frame) 3 in
      Ok (mkMessage header (mkLengths (u32 (len front)) (u32 (len middle)) (u32 (len data))) front middle data).

(** ** Leased payloads

    [references] is atomic and each method is one atomic update ([Retain]
    repeats its compare-and-swap until it succeeds), so that concurrent calls
    are a sequence of calls. [reclaimed] counts the calls of [reclaim]. *)

Record MessageLease := mkMessageLease { references : Z; reclaimed : Z }.

Definition NewMessageLease : MessageLease := mkMessageLease 1 0.

Definition Retain (lease : MessageLease) : res MessageLease :=
  if (references lease <=? 0) || (references lease =? 2 ^ 63 - 1) then Panic
  else Ok (mkMessageLease (references lease + 1) (reclaimed lease)).

Definition Release (lease : MessageLease) : res MessageLease :=
  let references := i64 (references lease - 1) in
  if references <? 0 then Panic
  else Ok (mkMessageLease references (if references =? 0 then reclaimed lease + 1 else reclaimed lease)).

Inductive lease_op := OpRetain | OpRelease.

#[export] Instance lease_op_eq_dec : EqDecision lease_op.
Proof. solve_decision. Defined.

Definition run_lease_op (op : lease_op) (lease : MessageLease) : res MessageLease :=
  match op with OpRetain => Retain lease | OpRelease => Release lease end.

(** ** Headers *)

Definition header_bytes (h : MessageHeader) : bytes :=
  le_split 8 (Sequence h) ++ le_split 8 (TransactionID h) ++ le_split 2 (Type_ h) ++ le_split 2 (Priority h)
  ++ le_split 2 (Version h) ++ le_split 4 (DataPrePaddingLength h) ++ le_split 2 (DataOffset h)
  ++ le_split 8 (AckSequence h) ++ [byte.of_Z (Flags h)] ++ le_split 2 (CompatVersion h) ++ le_split 2 (Reserved h).

Definition header_typed (h : MessageHeader) : Prop :=
  inU 64 (Sequence h) /\ inU 64 (TransactionID h) /\ inU 16 (Type_ h) /\ inU 16 (Priority h) /\
  inU 16 (Version h) /\ inU 32 (DataPrePaddingLength h) /\ inU 16 (DataOffset h) /\
  inU 64 (AckSequence h) /\ inU 8 (Flags h) /\ inU 16 (CompatVersion h) /\ inU 16 (Reserved h).

Lemma length_header h : length (header_bytes h) = 41%nat.
Proof. unfold header_bytes. by rewrite !length_app, !length_le_split. Qed.

Lemma header_emits h : emits (header_writes h) (header_bytes h).
Proof.
  unfold header_writes, header_bytes. repeat (apply emits_seq; [auto with wire|]). auto with wire.
Qed.

Lemma EncodeMessageHeader_eq h : EncodeMessageHeader h = Ok (header_bytes h).
Proof.
  unfold EncodeMessageHeader, MessageHeaderSize.
  rewrite (emits_result _ _ 41 ltac:(unfold MaxUint32; lia) (header_emits h)). unfold len. by rewrite length_header.
Qed.

Lemma header_parses max h : header_typed h -> parses max header_reads (header_bytes h) h.
Proof.
  intros (?&?&?&?&?&?&?&?&?&?&?). unfold header_reads, header_bytes.
  do 2 (eapply parses_bind; [by apply parses_u64|]). do 3 (eapply parses_bind; [by apply parses_u16|]).
  eapply parses_bind; [by apply parses_u32|]. eapply parses_bind; [by apply parses_u16|].
  eapply parses_bind; [by apply parses_u64|]. eapply parses_bind; [by apply parses_u8|].
  eapply parses_bind; [by apply parses_u16|].
  eapply parses_eq; [eapply parses_bind; [by apply parses_u16|apply parses_ret]|apply app_nil_r|]. by destruct h.
Qed.

Lemma DecodeMessageHeader_eq h : header_typed h -> DecodeMessageHeader (header_bytes h) = Ok h.
Proof.
  intros Ht. unfold DecodeMessageHeader. unfold len at 1. rewrite length_header.
  change (Z.of_nat 41 =? MessageHeaderSize) with true. cbn [negb].
  pose proof (ready_new 0 (header_bytes h)) as Hr. rewrite <- (app_nil_r (header_bytes h)) in Hr.
  destruct (header_parses 0 h Ht _ _ Hr) as [E (He & _ & Hw & Hrest)]. rewrite app_nil_r in *.
  unfold mbind, dec_bind. rewrite E. unfold try_bind, Dec.Finish, mbind, dec_bind. rewrite He. cbn [of_err].
  pose proof (len_rest _ Hw) as Hl. rewrite Hrest in Hl. unfold Dec.Remaining, mret, dec_ret. cbn [fst].
  rewrite <- Hl. done.
Qed.

Lemma DecodeMessageHeader_no_panic data : DecodeMessageHeader data <> Panic.
Proof.
  unfold DecodeMessageHeader. destruct (negb _); [done|].
  match goal with |- fst (?m ?d) <> _ => assert (yields m (okP (fun _ => True))) as H end.
  { eapply yields_bind; [apply yields_any|intros h _]. ysteps. by apply yields_ok. }
  specialize (H (NewDecoder data (mkLimits 0))). destruct (fst _); [done..|exact (fun _ => H)].
Qed.

(** ** Messages *)

Lemma validate_prefix limits index total segs extra total' :
  0 <= total -> validate_segments limits index total (segs ++ extra) = Ok total' ->
  exists t, validate_segments limits index total segs = Ok t /\ t <= total'.
Proof.
  revert index total. induction segs as [|s l IH]; intros index total H0 H; cbn [validate_segments app] in *.
  - exists total. split; [done|]. revert index total H0 H.
    induction extra as [|s l IH]; intros index total H0 H; cbn [validate_segments] in H.
    { injection H as ->. lia. }
    apply res_bind_ok in H as (w & _ & H). destruct (negb _) in H; [done|]. destruct (_ || _) in H; [done|].
    apply IH in H; pose proof (len_nonneg (Data s)); lia.
  - apply res_bind_ok in H as (w & Hw & H). rewrite Hw, bind_Ok. destruct (negb _); [done|].
    destruct (_ || _); [done|]. apply IH; [pose proof (len_nonneg (Data s)); lia|done].
Qed.

Lemma payload_prefix segs segs' k : segs' `prefix_of` segs ->
  (forall i s, segs !! i = Some s -> (length segs' <= i)%nat -> Data s = []) ->
  payload segs' k = payload segs k.
Proof.
  intros [tl ->] H. unfold payload. destruct (decide (k < length segs')%nat) as [Hk|Hk].
  - by rewrite lookup_app_l.
  - rewrite (lookup_ge_None_2 segs') by lia. destruct ((segs' ++ tl) !! k) as [s|] eqn:E; [|done].
    symmetry. apply (H k s E). lia.
Qed.

(** What [normalizeSegments] cuts off is empty. *)
Lemma trimmed_cut fuel segments end_ : (end_ <= length segments)%nat ->
  (forall i s, segments !! i = Some s -> (end_ <= i)%nat -> Data s = []) ->
  forall i s, segments !! i = Some s -> (trimmed fuel segments end_ <= i)%nat -> Data s = [].
Proof.
  revert end_. induction fuel as [|fuel IH]; intros end_ Hl H i s Hi Hn; cbn [trimmed] in Hn; [by eapply H|].
  destruct (_ && _) eqn:Hc in Hn; [|by eapply H]. apply andb_true_iff in Hc as [Hc Hd].
  apply Nat.ltb_lt in Hc. apply bool_decide_eq_true in Hd. eapply IH; [| |exact Hi|exact Hn]; [lia|].
  intros j t Hj Hle. destruct (decide (j = pred end_)) as [->|]; [|eapply H; [exact Hj|lia]].
  rewrite Hj in Hd. cbn in Hd. congruence.
Qed.

Lemma normalize_payload segs segs' k : normalizeSegments segs = Ok segs' -> payload segs' k = payload segs k.
Proof.
  intros H. destruct (normalizeSegments_ok _ _ H) as [[Hn _] Hp]. apply payload_prefix; [done|].
  unfold normalizeSegments in H. destruct (_ || _) in H; [done|]. injection H as <-.
  destruct (trimmed_spec (length segs) segs (length segs)) as [Ht _].
  { destruct Hp as [tl Hp]. apply (f_equal length) in Hp. rewrite length_app in Hp. lia. }
  { done. }
  intros i s Hi Hl. rewrite length_take in Hl.
  eapply (trimmed_cut (length segs) segs (length segs)); [| |exact Hi|].
  - done.
  - intros j t Hj Hle. apply lookup_lt_Some in Hj. lia.
  - lia.
Qed.

Lemma checkedUint32Length_ok n l : checkedUint32Length n = Ok l -> l = n /\ 0 <= n <= MaxUint32.
Proof.
  unfold checkedUint32Length. destruct (_ || _) eqn:H; [done|]. bsplit. intros [= <-].
  split; [apply wrapU_id; unfold inU, MaxUint32 in *; lia|lia].
Qed.

(** A frame made from a message decodes to the message, also after the
    transport dropped its trailing empty segments. *)
Lemma decode_normalized message limits frame segs : header_typed (Header message) ->
  encodeMessage message limits = Ok frame -> normalizeSegments (Segments frame) = Ok segs ->
  Tag frame = TagMessage /\ decodeMessage (mkFrame TagMessage segs) limits = Ok message.
Proof.
  intros Ht HE HN. unfold encodeMessage in HE. res_inv HE.
  apply checkedUint32Length_ok in E as [-> Hf], E0 as [-> Hm], E1 as [-> Hd].
  destruct (negb _) eqn:HL in HE; [done|]. destruct (_ <? DataPrePaddingLength _) eqn:HP in HE; [done|].
  rewrite EncodeMessageHeader_eq, bind_Ok in HE. res_inv HE. subst frame. cbn [Tag Segments] in *.
  split; [done|]. bsplit. apply bool_decide_eq_true in HL. destruct (normalizeSegments_ok _ _ HN) as [[Hlen _] Hpre].
  unfold validateMessageSegments in E. res_inv E. destruct (_ <? _) eqn:Hmax in E; [done|].
  destruct Hpre as [tl Htl]. rewrite Htl in E0. apply validate_prefix in E0 as (t & Ev & Hle); [|done].
  unfold decodeMessage. cbn [Tag Segments]. change (TagMessage =? TagMessage) with true. cbn [negb].
  change (len messageAlignments) with 4. unfold len at 1 2.
  destruct (Z.ltb_spec (Z.of_nat (length segs)) 1); [lia|]. destruct (Z.ltb_spec 4 (Z.of_nat (length segs))); [lia|].
  cbn [orb]. unfold validateMessageSegments. rewrite Ev, bind_Ok. destruct (Z.ltb_spec (MaxFrameBytes limits) t); [lia|].
  rewrite bind_Ok, !(normalize_payload _ _ _ HN). cbn [payload lookup list_lookup Data].
  rewrite DecodeMessageHeader_eq by done. rewrite bind_Ok. destruct message as [h [lf lm ld] f m d].
  cbn [Front Middle m_Data Header Lengths] in *. injection HL as -> -> ->. unfold MaxUint32 in *.
  rewrite !wrapU_id by (unfold inU; lia).
  assert ((if 3 <? len segs then len d else 0) <? DataPrePaddingLength h = false) as ->; [|done].
  destruct (Z.ltb_spec 3 (len segs)) as [H3|H3]; [done|].
  assert (d = []) as ->; [|done]. pose proof (normalize_payload _ _ 3 HN) as H4.
  unfold payload in H4. rewrite (lookup_ge_None_2 segs) in H4 by (unfold len in H3; lia). by symmetry.
Qed.

Lemma validate_segments_no_panic limits index total segs :
  0 <= index -> index + len segs <= 4 -> validate_segments limits index total segs <> Panic.
Proof.
  revert index total. induction segs as [|s l IH]; intros index total H0 H; [done|]. cbn [validate_segments].
  rewrite len_cons in H. pose proof (len_nonneg l).
  destruct (index_in_range messageAlignments index) as (a & -> & _); [change (len messageAlignments) with 4; lia|].
  rewrite bind_Ok. destruct (negb _); [done|]. destruct (_ || _); [done|]. apply IH; lia.
Qed.

Lemma validateMessageSegments_no_panic segments limits : len segments <= 4 ->
  validateMessageSegments segments limits <> Panic.
Proof.
  intros H. unfold validateMessageSegments.
  pose proof (validate_segments_no_panic limits 0 0 segments ltac:(lia) ltac:(lia)) as Hv.
  destruct (validate_segments _ _ _ _); [rewrite bind_Ok; cbv beta; by destruct (MaxFrameBytes limits <? _)|done|by destruct Hv].
Qed.

Lemma decodeMessage_no_panic frame limits : decodeMessage frame limits <> Panic.
Proof.
  unfold decodeMessage. destruct (negb _); [done|]. destruct (_ || _) eqn:Hc; [done|]. bsplit.
  change (len messageAlignments) with 4 in *.
  pose proof (validateMessageSegments_no_panic (Segments frame) limits ltac:(lia)) as Hv.
  destruct (validateMessageSegments _ _) as [[]| |]; [rewrite bind_Ok|done|by destruct Hv].
  pose proof (DecodeMessageHeader_no_panic (payload (Segments frame) 0)) as Hh.
  destruct (DecodeMessageHeader _); [rewrite bind_Ok; cbv beta zeta|done|by destruct Hh]. by destruct (_ <? DataPrePaddingLength _).
Qed.

Lemma checkedUint32Length_no_panic n : checkedUint32Length n <> Panic.
Proof. unfold checkedUint32Length. by destruct (_ || _). Qed.

Lemma encodeMessage_no_panic message limits : encodeMessage message limits <> Panic.
Proof.
  unfold encodeMessage.
  do 3 match goal with |- context [checkedUint32Length ?n] =>
    pose proof (checkedUint32Length_no_panic n); destruct (checkedUint32Length n); [rewrite bind_Ok|done|done] end.
  cbv zeta. destruct (negb _); [done|]. destruct (_ <? _); [done|]. rewrite EncodeMessageHeader_eq, bind_Ok.
  match goal with |- context [validateMessageSegments ?l limits] =>
    pose proof (validateMessageSegments_no_panic l limits ltac:(done)) as Hv; destruct (validateMessageSegments l limits) as [[]| |] end;
    [done|done|by destruct Hv].
Qed.

(** ** Properties *)

(** C23. Messages survive the wire: a message that encodes, sent as a frame in
    CRC mode, arrives with the same header, lengths and payloads, although the
    frame loses its trailing empty segments; decoding a frame never panics. *)
Theorem message_roundtrip message limits frame codec frameLimits bs rest
    R (RD : Reader R) (SR : StreamReader R) r :
  header_typed (Header message) -> encodeMessage message limits = Ok frame ->
  CRCCodec_Encode codec frame frameLimits = Ok bs -> streams r (bs ++ rest) ->
  wp refusal (f ← CRCCodec_Read codec frameLimits; lift (decodeMessage f limits)) r
    (fun message' r' => message' = message /\ streams r' rest).
Proof.
  intros Ht HE HC Hr. assert (Forall (fun s => inU 16 (Alignment s)) (Segments frame)) as Hal.
  { unfold encodeMessage in HE. res_inv HE. destruct (negb _) in HE; [done|]. destruct (_ <? _) in HE; [done|].
    res_inv HE. subst frame. cbn [Segments]. repeat (apply Forall_cons_2; [unfold inU, DefaultAlignment, PageAlignment; cbn; lia|]). apply Forall_nil_2. }
  apply CRCCodec_Encode_wire in HC as
    (segs & c0 & ep & total & Hn & -> & Hok & Hc0 & Hep & Hst & Hcrc & Htot & Hm & Hi); [|done].
  destruct (decode_normalized message limits frame segs Ht HE Hn) as [Htag HD]. rewrite Htag in *.
  apply wp_bind. eapply wp_mono; [by eapply (CRCCodec_Read_known _ _ (mkFrame TagMessage segs))|].
  intros f r' [-> Hr']. apply wp_lift. by rewrite HD.
Qed.

Definition sample_message : Message :=
  mkMessage (mkHeader 1 7 42 127 8 0 0 0 3 2 0) (mkLengths 2 0 0) [Byte.x0a; Byte.x0b] [] [].
Definition sample_message_bytes : bytes := Eval vm_compute in
  match (f ← encodeMessage sample_message sample_frame_limits; EncodeCRC f sample_frame_limits) with
  | Ok bs => bs | _ => [] end.

Lemma message_roundtrip_witness :
  wp (R := bytes) refusal
    (f ← CRCCodec_Read (mkCRCCodec true) sample_frame_limits; lift (decodeMessage f sample_frame_limits))
    (sample_message_bytes ++ []) (fun m r' => m = sample_message /\ streams r' []).
Proof.
  eapply (message_roundtrip sample_message sample_frame_limits _ _ _ sample_message_bytes).
  - repeat split; cbn; lia.
  - vm_compute. reflexivity.
  - vm_compute. reflexivity.
  - reflexivity.
Defined.

Lemma lease_op_inv op lease lease' : 0 <= references lease <= 2 ^ 63 - 1 ->
  reclaimed lease = (if references lease =? 0 then 1 else 0) -> run_lease_op op lease = Ok lease' ->
  0 <= references lease' <= 2 ^ 63 - 1 /\ reclaimed lease' = (if references lease' =? 0 then 1 else 0) /\
  references lease <> 0 /\ references lease' = references lease + match op with OpRetain => 1 | OpRelease => -1 end.
Proof.
  intros Hr Hc H. destruct op; cbn in H; unfold Retain, Release in H.
  - destruct (_ || _) eqn:E in H; [done|]. bsplit. injection H as <-. cbn [references reclaimed].
    destruct (Z.eqb_spec (references lease) 0), (Z.eqb_spec (references lease + 1) 0); lia.
  - destruct (Z.eq_dec (references lease) 0) as [E|E]; [rewrite E in H; vm_compute in H; done|].
    rewrite wrapS_id in H by (unfold inS; cbn; lia). cbv zeta in H.
    destruct (Z.ltb_spec (references lease - 1) 0) in H; [done|]. injection H as <-. cbn [references reclaimed].
    rewrite Hc. destruct (Z.eqb_spec (references lease) 0), (Z.eqb_spec (references lease - 1) 0); lia.
Qed.

(** Retains minus releases. *)
Definition net (ops : list lease_op) : Z :=
  foldr (fun op n => match op with OpRetain => 1 | OpRelease => -1 end + n) 0 ops.

Lemma net_counts ops :
  net ops = len (filter (fun op => op = OpRetain) ops) - len (filter (fun op => op = OpRelease) ops).
Proof.
  induction ops as [|[] ops IH]; [done|..]; cbn [net foldr];
    fold (net ops); rewrite !filter_cons; repeat case_decide; try done; rewrite len_cons; lia.
Qed.

Lemma lease_run_inv ops lease lease' : 0 <= references lease <= 2 ^ 63 - 1 ->
  reclaimed lease = (if references lease =? 0 then 1 else 0) ->
  fold_res run_lease_op ops lease = Ok lease' ->
  0 <= references lease' <= 2 ^ 63 - 1 /\ reclaimed lease' = (if references lease' =? 0 then 1 else 0) /\
  references lease' = references lease + net ops.
Proof.
  revert lease. induction ops as [|op ops IH]; intros lease Hr Hc H; cbn [fold_res] in H.
  { injection H as <-. cbn. lia. }
  apply res_bind_ok in H as (l1 & H1 & H). apply lease_op_inv in H1 as (Hr1 & Hc1 & _ & Hn); [|done..].
  destruct (IH l1 Hr1 Hc1 H) as (? & ? & ?). cbn [net foldr]. fold (net ops). split_and!; [lia..|done|lia].
Qed.

(** C24. The reference count of a leased payload: in every sequence of retains
    and releases that does not panic, the storage is reclaimed exactly once,
    by the release that drops the last reference, and not before; every later
    operation panics. *)
Theorem lease_reclaimed_once ops lease :
  fold_res run_lease_op ops NewMessageLease = Ok lease ->
  references lease = 1 + len (filter (fun op => op = OpRetain) ops) - len (filter (fun op => op = OpRelease) ops) /\
  reclaimed lease = (if references lease =? 0 then 1 else 0) /\
  (reclaimed lease = 1 -> forall op, run_lease_op op lease = Panic).
Proof.
  intros H. assert (0 <= references lease <= 2 ^ 63 - 1 /\
    reclaimed lease = (if references lease =? 0 then 1 else 0) /\
    references lease = references NewMessageLease + net ops) as (Hr & Hc & Hn).
  { apply (lease_run_inv ops _ _) in H; [done|cbn; lia|done]. }
  rewrite net_counts in Hn. split_and!; [cbn in Hn; lia|done|]. intros H1 op.
  destruct (Z.eqb_spec (references lease) 0) as [E|E]; [|lia].
  destruct lease as [n c]. cbn in E. subst n. by destruct op.
Qed.

Lemma lease_reclaimed_once_witness :
  fold_res run_lease_op [OpRetain; OpRelease; OpRelease] NewMessageLease = Ok (mkMessageLease 0 1) /\
  (reclaimed (mkMessageLease 0 1) = 1 -> forall op, run_lease_op op (mkMessageLease 0 1) = Panic).
Proof.
  split; [vm_compute; reflexivity|].
  apply (lease_reclaimed_once [OpRetain; OpRelease; OpRelease]). vm_compute. reflexivity.
Defined.
