(* ===== verification/Budget.v ===== *)
(** * Receive budget (src/internal/msgr/receive_budget.go, receive_scratch.go)

    Budgets, leases and scratch pools are Go objects that point to each other
    and are shared between sessions: the model keeps them in a [heap] and a
    pointer is an index.  A method is a heap transformer.  The bytes of a
    buffer do not matter here; a buffer is an identity and a capacity.

    Each method is built from the critical sections of the code, and the
    relation [atomic] has one rule for each of them, so that a run of [atomic]
    steps is an interleaving of concurrent sessions. *)

From stdpp Require Import base gmap list numbers relations.
From coqutil Require Import Byte.
From S2P Require Import Prelude Codec Crc MsgrFrame.
From stdpp Require Import list.

Open Scope Z_scope.
Open Scope go_scope.

Definition receiveControlBytesPerSession : Z := 3 * securePreamble.
Definition maxReceiveScratch : Z := Z.shiftl 128 10.

Record ReceiveBudget := mkBudget {
  maxSessions : Z;
  maxBytes : Z;
  sessions : Z;
  b_bytes : Z;
  b_controlBytes : Z;
  scratchSlots : Z;
  scratchMetrics : bool;
  scratchHits : Z;
  scratchMisses : Z;
  scratchBypasses : Z }.

Record backing := mkBacking { buf_id : Z; buf_cap : Z }.

Record receiveLease := mkLease {
  l_budget : nat;
  l_bytes : Z;
  l_controlBytes : Z;
  l_extra : Z;
  l_backing : option backing;
  l_scratch : option nat }.

Record receiveScratch := mkScratch { idle : list nat; closed : bool }.

Record heap := mkHeap {
  budgets : list ReceiveBudget;
  leases : list receiveLease;
  scratches : list receiveScratch;
  nextBuffer : Z }.

Abbreviation HM := (RM heap).

(** ** Objects of the heap; a dangling pointer would be a nil dereference *)

Definition deref {A} (objects : heap -> list A) (p : nat) : HM A := fun h =>
  match objects h !! p with Some x => (Ok x, h) | None => (Panic, h) end.

Definition budget_at := deref budgets.
Definition lease_at := deref leases.
Definition scratch_at := deref scratches.

Definition set_budget (p : nat) (b : ReceiveBudget) : HM unit := fun h =>
  (Ok tt, mkHeap (<[p := b]> (budgets h)) (leases h) (scratches h) (nextBuffer h)).
Definition set_lease (p : nat) (l : receiveLease) : HM unit := fun h =>
  (Ok tt, mkHeap (budgets h) (<[p := l]> (leases h)) (scratches h) (nextBuffer h)).
Definition set_scratch (p : nat) (s : receiveScratch) : HM unit := fun h =>
  (Ok tt, mkHeap (budgets h) (leases h) (<[p := s]> (scratches h)) (nextBuffer h)).

(** [&receiveLease{...}] *)
Definition new_lease (l : receiveLease) : HM nat := fun h =>
  (Ok (length (leases h)), mkHeap (budgets h) (leases h ++ [l]) (scratches h) (nextBuffer h)).

(** [make([]byte, capacity)] *)
Definition new_buffer (capacity : Z) : HM backing := fun h =>
  (Ok (mkBacking (nextBuffer h) capacity), mkHeap (budgets h) (leases h) (scratches h) (nextBuffer h + 1)).

(** [err := m] *)
Definition attempt {A} (m : HM A) : HM (option error) := fun h =>
  match m h with
  | (Ok _, h) => (Ok None, h)
  | (Err e, h) => (Ok (Some e), h)
  | (Panic, h) => (Panic, h)
  end.

Definition cap (b : option backing) : Z := match b with Some b => buf_cap b | None => 0 end.

Definition with_bytes (bytes control : Z) (b : ReceiveBudget) : ReceiveBudget :=
  mkBudget (maxSessions b) (maxBytes b) (sessions b) bytes control (scratchSlots b)
    (scratchMetrics b) (scratchHits b) (scratchMisses b) (scratchBypasses b).
Definition with_sessions (n : Z) (b : ReceiveBudget) : ReceiveBudget :=
  mkBudget (maxSessions b) (maxBytes b) n (b_bytes b) (b_controlBytes b) (scratchSlots b)
    (scratchMetrics b) (scratchHits b) (scratchMisses b) (scratchBypasses b).
Definition with_counters (hits misses bypasses : Z) (b : ReceiveBudget) : ReceiveBudget :=
  mkBudget (maxSessions b) (maxBytes b) (sessions b) (b_bytes b) (b_controlBytes b) (scratchSlots b)
    (scratchMetrics b) hits misses bypasses.

(** ** Budgets *)

Definition NewReceiveBudget (maxSessions maxBytes : Z) : res ReceiveBudget :=
  if (maxSessions <=? 0) || (MaxUint64 / receiveControlBytesPerSession <? maxSessions) || (maxBytes =? 0)
  then Err msgr_ErrReceiveBudgetExceeded
  else Ok (mkBudget maxSessions maxBytes 0 0 0 4 false 0 0 0).

Definition ConfigureScratchDiagnostic (budget : nat) (slots : Z) : HM unit :=
  if (slots <? 1) || (8 <? slots) then throw msgr_ErrReceiveBudgetExceeded
  else
    b ← budget_at budget;
    if negb (sessions b =? 0) || negb (b_bytes b =? 0) then throw msgr_ErrReceiveBudgetExceeded
    else set_budget budget (mkBudget (maxSessions b) (maxBytes b) (sessions b) (b_bytes b) (b_controlBytes b)
           slots true (scratchHits b) (scratchMisses b) (scratchBypasses b)).

Definition recordScratch (budget : nat) (hit bypass : bool) : HM unit :=
  b ← budget_at budget;
  if negb (scratchMetrics b) then mret tt
  else if bypass then
    set_budget budget (with_counters (scratchHits b) (scratchMisses b) (u64 (scratchBypasses b + 1)) b)
  else if hit then
    set_budget budget (with_counters (u64 (scratchHits b + 1)) (scratchMisses b) (scratchBypasses b) b)
  else set_budget budget (with_counters (scratchHits b) (u64 (scratchMisses b + 1)) (scratchBypasses b) b).

Definition admit_session (budget : option nat) : HM unit :=
  match budget with
  | None => mret tt
  | Some budget =>
      b ← budget_at budget;
      if maxSessions b <=? sessions b then throw msgr_ErrReceiveBudgetExceeded
      else set_budget budget (with_sessions (sessions b + 1) b)
  end.

Definition retire (budget : option nat) : HM unit :=
  match budget with
  | None => mret tt
  | Some budget => b ← budget_at budget; set_budget budget (with_sessions (sessions b - 1) b)
  end.

(** ** Leases *)

Definition resize (lease : option nat) (bytes : Z) : HM unit :=
  match lease with
  | None => mret tt
  | Some p =>
      l ← lease_at p;
      if MaxUint64 - l_extra l <? bytes then throw msgr_ErrReceiveBudgetExceeded
      else
        let bytes := bytes + l_extra l in
        b ← budget_at (l_budget l);
        if (l_bytes l <? bytes) && (u64 (maxBytes b - b_bytes b) <? bytes - l_bytes l)
        then throw msgr_ErrReceiveBudgetExceeded
        else
          _ ← set_budget (l_budget l) (with_bytes (u64 (b_bytes b - l_bytes l + bytes)) (b_controlBytes b) b);
          set_lease p (mkLease (l_budget l) bytes (l_controlBytes l) (l_extra l) (l_backing l) (l_scratch l))
  end.

Definition releaseControl (lease : option nat) : HM unit :=
  match lease with
  | None => mret tt
  | Some p =>
      l ← lease_at p;
      b ← budget_at (l_budget l);
      _ ← set_budget (l_budget l) (with_bytes (b_bytes b) (u64 (b_controlBytes b - l_controlBytes l)) b);
      set_lease p (mkLease (l_budget l) (l_bytes l) 0 (l_extra l) (l_backing l) (l_scratch l))
  end.

Definition release (lease : option nat) : HM unit :=
  match lease with
  | None => mret tt
  | Some p =>
      l ← lease_at p;
      b ← budget_at (l_budget l);
      _ ← set_budget (l_budget l)
            (with_bytes (u64 (b_bytes b - l_bytes l)) (u64 (b_controlBytes b - l_controlBytes l)) b);
      set_lease p (mkLease (l_budget l) 0 0 0 None None)
  end.

(** [budgetReader.reserveReceivePrelude] on the reader's lease. *)
Definition reserve_prelude (p : nat) : HM unit :=
  l ← lease_at p;
  b ← budget_at (l_budget l);
  if u64 (u64 (maxSessions b * receiveControlBytesPerSession) - b_controlBytes b) <? securePreamble
  then throw msgr_ErrReceiveBudgetExceeded
  else
    _ ← set_budget (l_budget l) (with_bytes (b_bytes b) (u64 (b_controlBytes b + securePreamble)) b);
    set_lease p (mkLease (l_budget l) (l_bytes l) securePreamble (l_extra l) (l_backing l) (l_scratch l)).

(** ** Scratch pools *)

(** [lease.extra = extra] and [lease.backing, lease.scratch = backing, scratch] *)
Definition set_extra (p : nat) (extra : Z) : HM unit :=
  l ← lease_at p;
  set_lease p (mkLease (l_budget l) (l_bytes l) (l_controlBytes l) extra (l_backing l) (l_scratch l)).

Definition attach (p : nat) (b : backing) (scratch : nat) : HM unit :=
  l ← lease_at p;
  set_lease p (mkLease (l_budget l) (l_bytes l) (l_controlBytes l) (l_extra l) (Some b) (Some scratch)).

(** The most recently returned idle lease is taken off the pool; its buffer is
    used when it is charged to the same budget and large enough. *)
Definition take_idle (scratch lease : nat) (size : Z) : HM (option backing) :=
  s ← scratch_at scratch;
  match last (idle s) with
  | None => mret None
  | Some p =>
      _ ← set_scratch scratch (mkScratch (removelast (idle s)) (closed s));
      i ← lease_at p;
      l ← lease_at lease;
      _ ← release (Some p);
      mret (if bool_decide (l_budget i = l_budget l) && (size <=? cap (l_backing i)) then l_backing i else None)
  end.

Definition get (scratch lease : nat) (size : Z) : HM unit :=
  l ← lease_at lease;
  if (size <? Z.shiftl 4 10) || (maxReceiveScratch <? size) then recordScratch (l_budget l) false true
  else
    found ← take_idle scratch lease size;
    let capacity := match found with Some b => buf_cap b | None => Z.ldiff (size + 8191) 8191 end in
    _ ← set_extra lease (u64 (capacity - size));
    err ← attempt (resize (Some lease) (l_bytes l));
    match err with
    | Some _ => _ ← set_extra lease 0; recordScratch (l_budget l) false true
    | None =>
        _ ← recordScratch (l_budget l) (match found with Some _ => true | None => false end) false;
        b ← match found with Some b => mret b | None => new_buffer capacity end;
        attach lease b scratch
    end.

(** The critical section of [put]: the charge for the frame becomes the charge
    for the idle buffer. *)
Definition shelve (scratch p : nat) : HM unit :=
  s ← scratch_at scratch;
  l ← lease_at p;
  b ← budget_at (l_budget l);
  let capacity := cap (l_backing l) in
  _ ← set_budget (l_budget l) (with_bytes (u64 (b_bytes b - l_bytes l + capacity)) (b_controlBytes b) b);
  _ ← set_lease p (mkLease (l_budget l) 0 (l_controlBytes l) 0 None None);
  i ← new_lease (mkLease (l_budget l) capacity 0 0 (l_backing l) None);
  set_scratch scratch (mkScratch (idle s ++ [i]) (closed s)).

Definition put (scratch p : nat) : HM unit :=
  s ← scratch_at scratch;
  l ← lease_at p;
  b ← budget_at (l_budget l);
  if closed s || (scratchSlots b <=? len (idle s)) then release (Some p)
  else
    _ ← releaseControl (Some p);
    shelve scratch p.

Definition reclaim (lease : option nat) : HM unit :=
  match lease with
  | None => mret tt
  | Some p =>
      l ← lease_at p;
      match l_scratch l with
      | Some scratch => put scratch p
      | None => release (Some p)
      end
  end.

Fixpoint release_all (ps : list nat) : HM unit :=
  match ps with
  | [] => mret tt
  | p :: ps => _ ← release (Some p); release_all ps
  end.

Definition dropIdle (scratch : nat) : HM unit :=
  s ← scratch_at scratch;
  _ ← release_all (idle s);
  set_scratch scratch (mkScratch [] (closed s)).

Definition close (scratch : nat) : HM unit :=
  s ← scratch_at scratch;
  _ ← set_scratch scratch (mkScratch (idle s) true);
  _ ← release_all (idle s);
  set_scratch scratch (mkScratch [] true).

(** ** The invariant *)

(** What the leases of budget [b] hold of a resource. *)
Definition share (f : receiveLease -> Z) (b : nat) (l : receiveLease) : Z :=
  if bool_decide (l_budget l = b) then f l else 0.
Definition total (f : receiveLease -> Z) (b : nat) (ls : list receiveLease) : Z :=
  foldr (fun l n => share f b l + n) 0 ls.

Definition held (ls : list receiveLease) : list Z := omap (fun l => buf_id <$> l_backing l) ls.

Definition limits_ok (B : ReceiveBudget) : Prop :=
  0 < maxSessions B <= MaxUint64 / receiveControlBytesPerSession /\ 0 < maxBytes B <= MaxUint64 /\
  0 <= sessions B <= maxSessions B /\ 1 <= scratchSlots B <= 8.

(** The counters are the sums over the leases, and stay within the limits. *)
Definition budget_ok (ls : list receiveLease) (b : nat) (B : ReceiveBudget) : Prop :=
  limits_ok B /\
  b_bytes B = total l_bytes b ls /\ b_bytes B <= maxBytes B /\
  b_controlBytes B = total l_controlBytes b ls /\
  b_controlBytes B <= maxSessions B * receiveControlBytesPerSession.

Definition lease_ok (nb ns : nat) (l : receiveLease) : Prop :=
  (l_budget l < nb)%nat /\ 0 <= l_bytes l /\ 0 <= l_controlBytes l /\ 0 <= l_extra l <= MaxUint64 /\
  0 <= cap (l_backing l) <= maxInt /\
  (forall s, l_scratch l = Some s -> (s < ns)%nat /\ cap (l_backing l) <= l_bytes l).

Definition scratch_ok (nl : nat) (s : receiveScratch) : Prop :=
  Forall (fun p => (p < nl)%nat) (idle s) /\ len (idle s) <= 8.

Definition buffers_ok (h : heap) : Prop :=
  NoDup (held (leases h)) /\ Forall (fun id => id < nextBuffer h) (held (leases h)).

Definition heap_ok (h : heap) : Prop :=
  (forall b B, budgets h !! b = Some B -> budget_ok (leases h) b B) /\
  Forall (lease_ok (length (budgets h)) (length (scratches h))) (leases h) /\
  Forall (scratch_ok (length (leases h))) (scratches h) /\
  buffers_ok h.

(** *** Sums and buffers under updates *)

Lemma total_cons f b l ls : total f b (l :: ls) = share f b l + total f b ls.
Proof. done. Qed.

Lemma total_insert f b ls p l l' : ls !! p = Some l ->
  total f b (<[p := l']> ls) = total f b ls - share f b l + share f b l'.
Proof.
  revert p. induction ls as [|x ls IH]; intros [|p] H; [done..| |]; cbn in H.
  - injection H as ->. change (<[0%nat := l']> (l :: ls)) with (l' :: ls). rewrite !total_cons. lia.
  - change (<[S p := l']> (x :: ls)) with (x :: <[p := l']> ls). rewrite !total_cons, (IH p H). lia.
Qed.

Lemma total_app f b ls ls' : total f b (ls ++ ls') = total f b ls + total f b ls'.
Proof.
  induction ls as [|x ls IH]; [done|]. rewrite <- app_comm_cons, !total_cons, IH. lia.
Qed.

Lemma total_nonneg f b ls : Forall (fun l => 0 <= f l) ls -> 0 <= total f b ls.
Proof.
  induction 1 as [|x ls Hx _ IH]; [done|]. rewrite total_cons. unfold share.
  destruct (bool_decide _); lia.
Qed.

Lemma share_le_total f b ls p l : Forall (fun l => 0 <= f l) ls -> ls !! p = Some l ->
  l_budget l = b -> f l <= total f b ls.
Proof.
  intros Hf Hp <-. revert p Hp. induction Hf as [|x ls Hx Hf IH]; intros [|p] Hp; [done..| |]; cbn in Hp;
    rewrite total_cons.
  - injection Hp as ->. unfold share. rewrite bool_decide_true by done. pose proof (total_nonneg f (l_budget l) ls Hf). lia.
  - specialize (IH p Hp). unfold share. destruct (bool_decide _); lia.
Qed.

Lemma held_app ls ls' : held (ls ++ ls') = held ls ++ held ls'.
Proof. apply omap_app. Qed.

Lemma held_insert ls p l l' : ls !! p = Some l ->
  held (<[p := l']> ls) = held (take p ls) ++ held [l'] ++ held (drop (S p) ls) /\
  held ls = held (take p ls) ++ held [l] ++ held (drop (S p) ls).
Proof.
  intros H. split.
  - rewrite (insert_take_drop _ _ _ (lookup_lt_Some _ _ _ H)). by rewrite held_app, <- (held_app [l']).
  - rewrite <- (take_drop_middle _ _ _ H) at 1. by rewrite held_app, <- (held_app [l]).
Qed.

(** A lease gets another buffer: its own, none, or one that nobody holds. *)
Definition buffer_for (h : heap) (l : receiveLease) (b : option backing) : Prop :=
  b = l_backing l \/ b = None \/ exists bk, b = Some bk /\ buf_id bk ∉ held (leases h) /\ buf_id bk < nextBuffer h.

Lemma buffers_ok_insert h p l l' : buffers_ok h -> leases h !! p = Some l -> buffer_for h l (l_backing l') ->
  NoDup (held (<[p := l']> (leases h))) /\ Forall (fun id => id < nextBuffer h) (held (<[p := l']> (leases h))).
Proof.
  intros [Hn Hf] Hp Hb. destruct (held_insert _ _ _ l' Hp) as [-> E]. rewrite E in Hn, Hf.
  set (pre := held (take p _)) in *. set (post := held (drop _ _)) in *.
  assert (NoDup (pre ++ post) /\ Forall (fun id => id < nextBuffer h) (pre ++ post)) as [Hn' Hf'].
  { split; [|rewrite !Forall_app in *; naive_solver].
    rewrite !NoDup_app in *. naive_solver set_solver. }
  destruct Hb as [Hb | [Hb | (bk & Hb & Hid & Hlt)]].
  - replace (held [l']) with (held [l]); [done|]. unfold held. cbn. by rewrite Hb.
  - replace (held [l']) with (@nil Z); [done|]. unfold held. cbn. by rewrite Hb.
  - replace (held [l']) with [buf_id bk] by (unfold held; cbn; by rewrite Hb).
    rewrite E in Hid. split.
    + rewrite NoDup_app in *. destruct Hn' as (H1 & H2 & H3). split_and!; [done|set_solver|].
      rewrite NoDup_app. split_and!; [apply NoDup_singleton|set_solver|done].
    + rewrite !Forall_app in *. split_and!; [naive_solver| |naive_solver].
      apply Forall_cons_2; [done|apply Forall_nil_2].
Qed.

(** *** Updating a lease and its budget *)

Lemma lease_ok_at h p l : heap_ok h -> leases h !! p = Some l ->
  lease_ok (length (budgets h)) (length (scratches h)) l.
Proof. intros (_ & Hl & _) Hp. by eapply Forall_lookup_1 in Hl. Qed.

Lemma lease_budget h p l : heap_ok h -> leases h !! p = Some l ->
  exists B, budgets h !! l_budget l = Some B /\ budget_ok (leases h) (l_budget l) B /\
    0 <= l_bytes l <= b_bytes B /\ 0 <= l_controlBytes l <= b_controlBytes B.
Proof.
  intros Hh Hp. destruct (lease_ok_at _ _ _ Hh Hp) as (Hb & H0 & H1 & _).
  destruct (lookup_lt_is_Some_2 _ _ Hb) as [B HB]. exists B. pose proof (proj1 Hh _ _ HB) as HBok.
  destruct Hh as (_ & Hl & _). split; [done|]. split; [done|]. destruct HBok as (_ & -> & _ & -> & _).
  split; split; [done| |done|].
  - eapply share_le_total; [|exact Hp|done]. eapply Forall_impl; [exact Hl|]. by intros x (_ & ? & _).
  - eapply share_le_total; [|exact Hp|done]. eapply Forall_impl; [exact Hl|]. by intros x (_ & _ & ? & _).
Qed.

Lemma heap_ok_update h p l l' B B' : heap_ok h ->
  leases h !! p = Some l -> budgets h !! l_budget l = Some B ->
  l_budget l' = l_budget l -> lease_ok (length (budgets h)) (length (scratches h)) l' -> limits_ok B' ->
  b_bytes B' = b_bytes B - l_bytes l + l_bytes l' -> b_bytes B' <= maxBytes B' ->
  b_controlBytes B' = b_controlBytes B - l_controlBytes l + l_controlBytes l' ->
  b_controlBytes B' <= maxSessions B' * receiveControlBytesPerSession ->
  buffer_for h l (l_backing l') ->
  heap_ok (mkHeap (<[l_budget l := B']> (budgets h)) (<[p := l']> (leases h)) (scratches h) (nextBuffer h)).
Proof.
  intros (Hb & Hl & Hs & Hbuf) Hp HB Heq Hl' HB' Eb Lb Ec Lc Hfor. split_and!; cbn.
  - intros b X HX. destruct (decide (b = l_budget l)) as [->|Hne].
    + rewrite list_lookup_insert_eq in HX by (by eapply lookup_lt_Some). injection HX as <-.
      destruct (Hb _ _ HB) as (_ & Hbytes & _ & Hctl & _).
      unfold budget_ok. rewrite !(total_insert _ _ _ _ _ _ Hp), <- Hbytes, <- Hctl. unfold share.
      rewrite !bool_decide_true by done. split_and!; [done|lia|lia|lia|lia].
    + rewrite list_lookup_insert_ne in HX by done. destruct (Hb _ _ HX) as (HLim & Hbytes & ? & Hctl & ?).
      unfold budget_ok. rewrite !(total_insert _ _ _ _ _ _ Hp), <- Hbytes, <- Hctl. unfold share.
      rewrite !bool_decide_false by congruence. split_and!; [done|lia|lia|lia|lia].
  - rewrite length_insert. by apply Forall_insert.
  - by rewrite length_insert.
  - by eapply buffers_ok_insert.
Qed.

(** The same when the budget does not change. *)
Lemma heap_ok_set_lease h p l l' : heap_ok h -> leases h !! p = Some l ->
  l_budget l' = l_budget l -> lease_ok (length (budgets h)) (length (scratches h)) l' ->
  l_bytes l' = l_bytes l -> l_controlBytes l' = l_controlBytes l -> buffer_for h l (l_backing l') ->
  heap_ok (mkHeap (budgets h) (<[p := l']> (leases h)) (scratches h) (nextBuffer h)).
Proof.
  intros Hh Hp Hbud Hl' Eb Ec Hfor. destruct (lease_budget _ _ _ Hh Hp) as (B & HB & (? & _ & ? & _ & ?) & _).
  pose proof (heap_ok_update h p l l' B B Hh Hp HB Hbud Hl') as H'. rewrite list_insert_id in H' by done.
  apply H'; [done|lia|done|lia|done|done].
Qed.

(** A change of a budget's counters and sessions only. *)
Lemma heap_ok_set_budget h b B B' : heap_ok h -> budgets h !! b = Some B -> limits_ok B' ->
  maxSessions B' = maxSessions B -> maxBytes B' = maxBytes B ->
  b_bytes B' = b_bytes B -> b_controlBytes B' = b_controlBytes B ->
  heap_ok (mkHeap (<[b := B']> (budgets h)) (leases h) (scratches h) (nextBuffer h)).
Proof.
  intros (Hb & Hl & Hs & Hbuf) HB HB' E1 E2 E3 E4. split_and!; cbn; [|by rewrite length_insert|done|apply Hbuf..].
  intros b' X HX. destruct (decide (b' = b)) as [->|Hne].
  - rewrite list_lookup_insert_eq in HX by (by eapply lookup_lt_Some). injection HX as <-.
    destruct (Hb _ _ HB) as (? & ? & ? & ? & ?). unfold budget_ok. rewrite E1, E2, E3, E4. done.
  - rewrite list_lookup_insert_ne in HX by done. by apply Hb.
Qed.

Lemma heap_ok_set_scratch h s S S' : heap_ok h -> scratches h !! s = Some S -> scratch_ok (length (leases h)) S' ->
  heap_ok (mkHeap (budgets h) (leases h) (<[s := S']> (scratches h)) (nextBuffer h)).
Proof.
  intros (Hb & Hl & Hs & Hbuf) _ HS. split_and!; cbn; [done|by rewrite length_insert| |apply Hbuf..].
  by apply Forall_insert.
Qed.

Lemma heap_ok_new_lease h l B : heap_ok h -> budgets h !! l_budget l = Some B ->
  b_bytes B + l_bytes l <= maxBytes B -> l_controlBytes l = 0 ->
  (forall b, l_backing l = Some b -> buf_id b ∉ held (leases h) /\ buf_id b < nextBuffer h) ->
  lease_ok (length (budgets h)) (length (scratches h)) l ->
  heap_ok (mkHeap (<[l_budget l := with_bytes (b_bytes B + l_bytes l) (b_controlBytes B) B]> (budgets h))
    (leases h ++ [l]) (scratches h) (nextBuffer h)).
Proof.
  intros (Hb & Hl & Hs & Hn & Hf) HB Hmax E2 Hnew Hl'. unfold heap_ok, buffers_ok. cbn. rewrite held_app. split_and!.
  - intros b X HX. unfold budget_ok. rewrite !total_app, !total_cons. unfold share. rewrite E2. cbn.
    destruct (decide (b = l_budget l)) as [->|Hne].
    + rewrite list_lookup_insert_eq in HX by (by eapply lookup_lt_Some). injection HX as <-.
      destruct (Hb _ _ HB) as (? & ? & ? & ? & ?). rewrite bool_decide_true by done. cbn. split_and!; [done|lia..].
    + rewrite list_lookup_insert_ne in HX by done. destruct (Hb _ _ HX) as (? & ? & ? & ? & ?).
      rewrite bool_decide_false by congruence. split_and!; [done|lia..].
  - rewrite length_insert. apply Forall_app. split; [done|]. by apply Forall_cons_2, Forall_nil_2.
  - eapply Forall_impl; [exact Hs|]. intros x [Hx ?]. split; [|done]. rewrite length_app.
    eapply Forall_impl; [exact Hx|]. cbn. lia.
  - unfold held at 2. cbn. destruct (l_backing l) as [b|]; cbn; [|by rewrite app_nil_r].
    apply NoDup_app. split_and!; [done| |apply NoDup_singleton]. intros x Hx Hx'.
    apply list_elem_of_singleton in Hx' as ->. by apply (Hnew b eq_refl).
  - apply Forall_app. split; [done|]. unfold held. cbn. destruct (l_backing l) as [b|]; cbn; [|apply Forall_nil_2].
    apply Forall_cons_2; [by apply Hnew|apply Forall_nil_2].
Qed.

(** ** Atomic steps

    One rule for each critical section, with what its caller guarantees: a
    lease is resized by the one goroutine that owns it and never below the
    scratch buffer it holds, the prelude is reserved at most once, a buffer is
    attached when nobody else holds it, and sessions retire after admission. *)

Inductive atomic (h : heap) : heap -> Prop :=
  | A_budget maxS maxB B : NewReceiveBudget maxS maxB = Ok B -> maxB <= MaxUint64 -> 0 <= maxB ->
      atomic h (mkHeap (budgets h ++ [B]) (leases h) (scratches h) (nextBuffer h))
  | A_configure b slots h' : ConfigureScratchDiagnostic b slots h = (Ok tt, h') -> atomic h h'
  | A_record b hit bypass h' : recordScratch b hit bypass h = (Ok tt, h') -> atomic h h'
  | A_admit b h' : admit_session (Some b) h = (Ok tt, h') -> atomic h h'
  | A_retire b B h' : budgets h !! b = Some B -> 0 < sessions B -> retire (Some b) h = (Ok tt, h') -> atomic h h'
  | A_lease b : (b < length (budgets h))%nat ->
      atomic h (mkHeap (budgets h) (leases h ++ [mkLease b 0 0 0 None None]) (scratches h) (nextBuffer h))
  | A_resize p l bytes h' : leases h !! p = Some l -> 0 <= bytes ->
      (forall s, l_scratch l = Some s -> cap (l_backing l) <= bytes + l_extra l) ->
      resize (Some p) bytes h = (Ok tt, h') -> atomic h h'
  | A_prelude p l h' : leases h !! p = Some l -> l_controlBytes l = 0 ->
      reserve_prelude p h = (Ok tt, h') -> atomic h h'
  | A_releaseControl p h' : releaseControl (Some p) h = (Ok tt, h') -> atomic h h'
  | A_release p h' : release (Some p) h = (Ok tt, h') -> atomic h h'
  | A_scratch : atomic h (mkHeap (budgets h) (leases h) (scratches h ++ [mkScratch [] false]) (nextBuffer h))
  | A_idle s S ps c : scratches h !! s = Some S -> ps `prefix_of` idle S ->
      atomic h (mkHeap (budgets h) (leases h) (<[s := mkScratch ps c]> (scratches h)) (nextBuffer h))
  | A_extra p l extra h' : leases h !! p = Some l -> 0 <= extra <= MaxUint64 ->
      set_extra p extra h = (Ok tt, h') -> atomic h h'
  | A_buffer capacity h' b : new_buffer capacity h = (Ok b, h') -> atomic h h'
  | A_attach p l b s h' : leases h !! p = Some l -> (s < length (scratches h))%nat ->
      0 <= buf_cap b <= l_bytes l -> buf_cap b <= maxInt -> buf_id b ∉ held (leases h) -> buf_id b < nextBuffer h ->
      attach p b s h = (Ok tt, h') -> atomic h h'
  | A_shelve s S p l h' : scratches h !! s = Some S -> len (idle S) < 8 -> leases h !! p = Some l ->
      l_scratch l = Some s -> shelve s p h = (Ok tt, h') -> atomic h h'.

Lemma deref_bind {A B} (objects : heap -> list A) p x (k : A -> HM B) h :
  objects h !! p = Some x -> (deref objects p ≫= k) h = k x h.
Proof. intros H. unfold mbind, rm_bind, deref. by rewrite H. Qed.

Lemma deref_inv {A B} (objects : heap -> list A) p (k : A -> HM B) h b h' :
  (deref objects p ≫= k) h = (Ok b, h') -> exists x, objects h !! p = Some x /\ k x h = (Ok b, h').
Proof. unfold mbind, rm_bind, deref. destruct (objects h !! p); [eauto|done]. Qed.

Lemma u64_id z : 0 <= z <= MaxUint64 -> u64 z = z.
Proof. intros H. apply wrapU_id. unfold inU, MaxUint64 in *. lia. Qed.

Lemma control_limit B : limits_ok B -> 0 <= maxSessions B * receiveControlBytesPerSession <= MaxUint64.
Proof.
  intros ((H1 & H2) & _). unfold receiveControlBytesPerSession in *. change (3 * securePreamble) with 288 in *.
  pose proof (Z.mul_div_le MaxUint64 288 ltac:(lia)). lia.
Qed.

(** *** What the operations on leases do *)

Lemma resize_eq h p l bytes : heap_ok h -> leases h !! p = Some l -> 0 <= bytes ->
  match resize (Some p) bytes h with
  | (Ok _, h') =>
      let bytes := bytes + l_extra l in
      exists B, budgets h !! l_budget l = Some B /\ bytes <= MaxUint64 /\
        b_bytes B - l_bytes l + bytes <= maxBytes B /\
        h' = mkHeap (<[l_budget l := with_bytes (b_bytes B - l_bytes l + bytes) (b_controlBytes B) B]> (budgets h))
               (<[p := mkLease (l_budget l) bytes (l_controlBytes l) (l_extra l) (l_backing l) (l_scratch l)]> (leases h))
               (scratches h) (nextBuffer h)
  | (Err e, h') => e = msgr_ErrReceiveBudgetExceeded /\ h' = h
  | (Panic, _) => False
  end.
Proof.
  intros Hh Hp H0. destruct (lease_budget _ _ _ Hh Hp) as (B & HB & (HL & _ & HM & _) & Hbytes & _).
  pose proof (lease_ok_at _ _ _ Hh Hp) as (_ & _ & _ & He & _). destruct HL as (_ & HMax & _).
  cbn [resize]. unfold lease_at. rewrite (deref_bind leases _ _ _ _ Hp).
  destruct (Z.ltb_spec (MaxUint64 - l_extra l) bytes); [cbn; done|]. cbv zeta.
  unfold budget_at. rewrite (deref_bind budgets _ _ _ _ HB). rewrite u64_id by lia.
  destruct (_ && _) eqn:Hc; [cbn; done|]. apply andb_false_iff in Hc.
  assert (b_bytes B - l_bytes l + (bytes + l_extra l) <= maxBytes B) as HN by (destruct Hc; lia).
  cbn. exists B. rewrite u64_id by lia. split_and!; [done|lia|lia|done].
Qed.

Lemma release_eq h p l : heap_ok h -> leases h !! p = Some l -> exists B, budgets h !! l_budget l = Some B /\
  release (Some p) h = (Ok tt, mkHeap
    (<[l_budget l := with_bytes (b_bytes B - l_bytes l) (b_controlBytes B - l_controlBytes l) B]> (budgets h))
    (<[p := mkLease (l_budget l) 0 0 0 None None]> (leases h)) (scratches h) (nextBuffer h)).
Proof.
  intros Hh Hp. destruct (lease_budget _ _ _ Hh Hp) as (B & HB & (HL & _ & HM & _ & HC) & Hbytes & Hctl).
  pose proof (control_limit _ HL). destruct HL as (_ & HMax & _). exists B. split; [done|]. cbn [release].
  unfold lease_at, budget_at. rewrite (deref_bind leases _ _ _ _ Hp), (deref_bind budgets _ _ _ _ HB).
  cbn. by rewrite !u64_id by lia.
Qed.

Lemma releaseControl_eq h p l : heap_ok h -> leases h !! p = Some l -> exists B, budgets h !! l_budget l = Some B /\
  releaseControl (Some p) h = (Ok tt, mkHeap
    (<[l_budget l := with_bytes (b_bytes B) (b_controlBytes B - l_controlBytes l) B]> (budgets h))
    (<[p := mkLease (l_budget l) (l_bytes l) 0 (l_extra l) (l_backing l) (l_scratch l)]> (leases h))
    (scratches h) (nextBuffer h)).
Proof.
  intros Hh Hp. destruct (lease_budget _ _ _ Hh Hp) as (B & HB & (HL & _ & HM & _ & HC) & Hbytes & Hctl).
  pose proof (control_limit _ HL). exists B. split; [done|]. cbn [releaseControl].
  unfold lease_at, budget_at. rewrite (deref_bind leases _ _ _ _ Hp), (deref_bind budgets _ _ _ _ HB).
  cbn. by rewrite !u64_id by lia.
Qed.

Lemma reserve_prelude_eq h p l : heap_ok h -> leases h !! p = Some l ->
  match reserve_prelude p h with
  | (Ok _, h') => exists B, budgets h !! l_budget l = Some B /\
      b_controlBytes B + securePreamble <= maxSessions B * receiveControlBytesPerSession /\
      h' = mkHeap (<[l_budget l := with_bytes (b_bytes B) (b_controlBytes B + securePreamble) B]> (budgets h))
             (<[p := mkLease (l_budget l) (l_bytes l) securePreamble (l_extra l) (l_backing l) (l_scratch l)]> (leases h))
             (scratches h) (nextBuffer h)
  | (Err e, h') => e = msgr_ErrReceiveBudgetExceeded /\ h' = h
  | (Panic, _) => False
  end.
Proof.
  intros Hh Hp. destruct (lease_budget _ _ _ Hh Hp) as (B & HB & (HL & _ & HM & _ & HC) & Hbytes & Hctl).
  pose proof (control_limit _ HL). unfold reserve_prelude, lease_at, budget_at.
  rewrite (deref_bind leases _ _ _ _ Hp), (deref_bind budgets _ _ _ _ HB).
  rewrite (u64_id (maxSessions B * _)), (u64_id (_ - _)) by lia.
  destruct (_ <? securePreamble) eqn:Hc; [cbn; done|]. cbn. exists B. change securePreamble with 96 in *.
  rewrite u64_id by lia. split_and!; [done|lia|done].
Qed.

(** *** The invariant is preserved *)

Lemma limits_with_bytes x y B : limits_ok B -> limits_ok (with_bytes x y B).
Proof. done. Qed.

Lemma resize_preserves h p l bytes h' : heap_ok h -> leases h !! p = Some l -> 0 <= bytes ->
  (forall s, l_scratch l = Some s -> cap (l_backing l) <= bytes + l_extra l) ->
  resize (Some p) bytes h = (Ok tt, h') -> heap_ok h'.
Proof.
  intros Hh Hp H0 Hs E. pose proof (resize_eq h p l bytes Hh Hp H0) as H. rewrite E in H.
  destruct H as (B & HB & HM & Hmax & ->). pose proof (proj1 Hh _ _ HB) as (HL & _ & _ & _ & HC).
  destruct (lease_ok_at _ _ _ Hh Hp) as (? & ? & ? & ? & ? & Hscr).
  eapply heap_ok_update; [done|done|exact HB|done| |by apply limits_with_bytes|cbn; lia..| |cbn; by left].
  - split_and!; cbn; [done|lia|done|lia..|]. intros s Hl. split; [by apply (Hscr s)|by apply (Hs s)].
  - cbn. lia.
Qed.

Lemma release_preserves h p h' : heap_ok h -> release (Some p) h = (Ok tt, h') -> heap_ok h'.
Proof.
  intros Hh E. destruct (leases h !! p) as [l|] eqn:Hp.
  2: { cbn [release] in E. unfold lease_at, mbind, rm_bind, deref in E. by rewrite Hp in E. }
  destruct (release_eq _ _ _ Hh Hp) as (B & HB & E'). rewrite E' in E. injection E as <-.
  pose proof (proj1 Hh _ _ HB) as (HL & _ & Hm & _ & HC).
  destruct (lease_budget _ _ _ Hh Hp) as (B' & HB' & _ & Hb & Hc). rewrite HB in HB'. injection HB' as <-.
  destruct (lease_ok_at _ _ _ Hh Hp) as (? & _).
  eapply heap_ok_update; [done|done|exact HB|done| |by apply limits_with_bytes|cbn; lia..|cbn; by right; left].
  split_and!; cbn; (done || (unfold MaxUint64, maxInt; lia) || auto).
Qed.

Lemma releaseControl_preserves h p h' : heap_ok h -> releaseControl (Some p) h = (Ok tt, h') -> heap_ok h'.
Proof.
  intros Hh E. destruct (leases h !! p) as [l|] eqn:Hp.
  2: { cbn [releaseControl] in E. unfold lease_at, mbind, rm_bind, deref in E. by rewrite Hp in E. }
  destruct (releaseControl_eq _ _ _ Hh Hp) as (B & HB & E'). rewrite E' in E. injection E as <-.
  pose proof (proj1 Hh _ _ HB) as (HL & _ & Hm & _ & HC).
  destruct (lease_budget _ _ _ Hh Hp) as (B' & HB' & _ & Hb & Hc). rewrite HB in HB'. injection HB' as <-.
  pose proof (lease_ok_at _ _ _ Hh Hp) as (? & ? & ? & ? & ? & ?).
  eapply heap_ok_update; [done|done|exact HB|done| |by apply limits_with_bytes|cbn; lia..|cbn; by left].
  split_and!; cbn; done || lia.
Qed.

Lemma reserve_prelude_preserves h p l h' : heap_ok h -> leases h !! p = Some l -> l_controlBytes l = 0 ->
  reserve_prelude p h = (Ok tt, h') -> heap_ok h'.
Proof.
  intros Hh Hp H0 E. pose proof (reserve_prelude_eq h p l Hh Hp) as H. rewrite E in H.
  destruct H as (B & HB & Hlim & ->). pose proof (proj1 Hh _ _ HB) as (HL & _ & Hm & _ & HC).
  pose proof (lease_ok_at _ _ _ Hh Hp) as (? & ? & ? & ? & ? & ?).
  eapply heap_ok_update; [done|done|exact HB|done| |by apply limits_with_bytes|cbn; lia..|cbn; by left].
  split_and!; cbn; done || lia.
Qed.

(** The lease gives up its buffer, and a new idle lease takes it with its
    charge. *)
Lemma shelve_preserves h s S p l h' : heap_ok h -> scratches h !! s = Some S -> len (idle S) < 8 ->
  leases h !! p = Some l -> l_scratch l = Some s -> shelve s p h = (Ok tt, h') -> heap_ok h'.
Proof.
  intros Hh HS Hidle Hp Hscr E. destruct (lease_budget _ _ _ Hh Hp) as (B & HB & (HL & Hb & Hm & Hc & HC) & Hbytes & Hctl).
  pose proof (lease_ok_at _ _ _ Hh Hp) as (Hbud & H0 & H1 & H2 & Hcap & Hs). destruct (Hs s Hscr) as [Hlt Hle].
  unfold shelve, scratch_at, lease_at, budget_at in E. rewrite (deref_bind scratches _ _ _ _ HS),
    (deref_bind leases _ _ _ _ Hp), (deref_bind budgets _ _ _ _ HB) in E. cbn in E.
  pose proof HL as (_ & HMax & _). rewrite u64_id in E by lia. injection E as <-.
  set (c := cap (l_backing l)) in *. set (l0 := mkLease (l_budget l) 0 (l_controlBytes l) 0 None None).
  set (l1 := mkLease (l_budget l) c 0 0 (l_backing l) None).
  set (B1 := with_bytes (b_bytes B - l_bytes l) (b_controlBytes B) B).
  assert (heap_ok (mkHeap (<[l_budget l := B1]> (budgets h)) (<[p := l0]> (leases h)) (scratches h) (nextBuffer h))) as Hh1.
  { eapply heap_ok_update; [done|done|exact HB|done| |by apply limits_with_bytes|cbn; lia..|cbn; by right; left].
    split_and!; cbn; (done || (unfold MaxUint64, maxInt; lia) || auto). }
  assert (budgets (mkHeap (<[l_budget l := B1]> (budgets h)) (<[p := l0]> (leases h)) (scratches h) (nextBuffer h))
    !! l_budget l1 = Some B1) as HB1.
  { cbn. apply list_lookup_insert_eq. by eapply lookup_lt_Some. }
  eapply heap_ok_new_lease in HB1 as Hh2; [|exact Hh1|cbn; lia|done| |].
  - cbn in Hh2. rewrite list_insert_insert_eq in Hh2.
    eapply heap_ok_set_scratch in Hh2; [|exact HS|].
    + cbn in Hh2. replace (b_bytes B - l_bytes l + c) with (b_bytes B1 + c) by (cbn; lia). exact Hh2.
    + destruct Hh as (_ & _ & HSs & _). pose proof (Forall_lookup_1 _ _ _ _ HSs HS) as [HF _].
      split; cbn; [|rewrite len_app; change (len [_]) with 1; lia]. rewrite !length_app, !length_insert. cbn.
      apply Forall_app. split; [eapply Forall_impl; [exact HF|]; cbn; lia|].
      apply Forall_cons_2; [lia|apply Forall_nil_2].
  - cbn [leases nextBuffer l_backing l1]. intros b Hbk. destruct Hh as (_ & _ & _ & HN & HF). destruct (held_insert _ _ _ l0 Hp) as [-> E0].
    rewrite E0 in HN, HF. assert (held [l] = [buf_id b]) as E1 by (unfold held; cbn; by rewrite Hbk).
    rewrite E1 in HN, HF. change (held [l0]) with (@nil Z). cbn [app] in *.
    apply NoDup_app in HN as (_ & HN1 & HN2). apply NoDup_cons in HN2 as [HN2 _].
    rewrite !Forall_app, Forall_cons in HF. split; [set_solver|naive_solver].
  - cbn. rewrite length_insert. split_and!; cbn; (done || (unfold MaxUint64, maxInt in *; lia)).
Qed.

Lemma recordScratch_preserves h b hit bypass h' : heap_ok h -> recordScratch b hit bypass h = (Ok tt, h') ->
  heap_ok h' /\ leases h' = leases h /\ scratches h' = scratches h /\ nextBuffer h' = nextBuffer h.
Proof.
  intros Hh E. unfold recordScratch, budget_at in E. apply deref_inv in E as (B & HB & E).
  pose proof (proj1 Hh _ _ HB) as (HL & _). destruct (scratchMetrics B); cbn in E; [|by injection E as <-].
  destruct bypass, hit; injection E as <-; (split; [|done]); by eapply heap_ok_set_budget.
Qed.

Lemma heap_ok_new_budget h maxS maxB B : heap_ok h -> NewReceiveBudget maxS maxB = Ok B -> 0 <= maxB <= MaxUint64 ->
  heap_ok (mkHeap (budgets h ++ [B]) (leases h) (scratches h) (nextBuffer h)).
Proof.
  intros (Hb & Hl & Hs & Hbuf) HB Hm. unfold NewReceiveBudget in HB. destruct (_ || _) eqn:Hc in HB; [done|].
  injection HB as <-. bsplit. split_and!; cbn; [| |done|apply Hbuf..].
  - intros b X HX. apply lookup_app_Some in HX as [HX|[Hlen HX]]; [by apply Hb|].
    destruct (b - length (budgets h))%nat eqn:Eb; [|done]. injection HX as <-.
    assert (b = length (budgets h)) as -> by lia.
    assert (forall f, total f (length (budgets h)) (leases h) = 0) as Ht.
    { intros f. clear -Hl. induction Hl as [|l ls Hx _ IH]; [done|]. rewrite total_cons, IH. unfold share.
      destruct Hx as (Hx & _). rewrite bool_decide_false by lia. done. }
    unfold budget_ok, limits_ok. cbn. rewrite !Ht.
    change receiveControlBytesPerSession with 288 in *. change (3 * securePreamble) with 288 in *. lia.
  - eapply Forall_impl; [exact Hl|]. intros l (Hx & ?). split; [|done]. rewrite length_app. cbn. lia.
Qed.

(** Every atomic step keeps the invariant. *)
Lemma atomic_preserves h h' : heap_ok h -> atomic h h' -> heap_ok h'.
Proof.
  intros Hh Hs. destruct Hs.
  - by eapply heap_ok_new_budget.
  - unfold ConfigureScratchDiagnostic in H. destruct (_ || _) eqn:Hsl in H; [done|]. bsplit.
    apply deref_inv in H as (B & HB & E). destruct (_ || _) in E; [done|]. injection E as <-.
    pose proof (proj1 Hh _ _ HB) as ((? & ? & ? & _) & _). eapply heap_ok_set_budget; [done|exact HB| |done..].
    unfold limits_ok. cbn. lia.
  - by eapply recordScratch_preserves.
  - cbn [admit_session] in H. apply deref_inv in H as (B & HB & E). destruct (Z.leb_spec (maxSessions B) (sessions B)); [done|].
    injection E as <-. pose proof (proj1 Hh _ _ HB) as ((? & ? & ? & ?) & _).
    eapply heap_ok_set_budget; [done|exact HB| |done..]. unfold limits_ok. cbn. lia.
  - cbn [retire] in H1. unfold budget_at in H1. rewrite (deref_bind budgets _ _ _ _ H) in H1. injection H1 as <-.
    pose proof (proj1 Hh _ _ H) as ((? & ? & ? & ?) & _).
    eapply heap_ok_set_budget; [done|exact H| |done..]. unfold limits_ok. cbn. lia.
  - destruct (lookup_lt_is_Some_2 _ _ H) as [B HB]. set (l := mkLease b 0 0 0 None None).
    pose proof (proj1 Hh _ _ HB) as (_ & _ & Hm & _). pose proof (heap_ok_new_lease h l B Hh HB) as H'. cbn in H'.
    rewrite Z.add_0_r in H'. replace (with_bytes (b_bytes B) (b_controlBytes B) B) with B in H' by (by destruct B).
    rewrite list_insert_id in H' by done. apply H'; [lia|done..|]. split_and!; cbn; (done || (unfold MaxUint64, maxInt; lia)).
  - by eapply resize_preserves.
  - by eapply reserve_prelude_preserves.
  - by eapply releaseControl_preserves.
  - by eapply release_preserves.
  - destruct Hh as (Hb & Hl & Hs & Hbuf). split_and!; cbn; [done| | |apply Hbuf..].
    + eapply Forall_impl; [exact Hl|]. intros l (? & ? & ? & ? & ? & Hsc). split_and!; [done|lia..|].
      intros s Es. destruct (Hsc s Es). rewrite length_app. cbn. split; [lia|done].
    + apply Forall_app. split; [done|]. apply Forall_cons_2; [|apply Forall_nil_2]. split; [apply Forall_nil_2|done].
  - eapply heap_ok_set_scratch; [done|exact H|]. destruct H0 as [tl Htl].
    destruct Hh as (_ & _ & Hs & _). pose proof (Forall_lookup_1 _ _ _ _ Hs H) as [HF Hlen].
    rewrite Htl in HF, Hlen. apply Forall_app in HF as [HF _]. rewrite len_app in Hlen. pose proof (len_nonneg tl).
    split; cbn; [done|lia].
  - unfold set_extra, lease_at in H1. rewrite (deref_bind leases _ _ _ _ H) in H1. injection H1 as <-.
    pose proof (lease_ok_at _ _ _ Hh H) as (? & ? & ? & ? & ? & ?).
    eapply heap_ok_set_lease; [done|exact H|done| |done|done|cbn; by left]. split_and!; cbn; done || lia.
  - injection H as <- <-. destruct Hh as (Hb & Hl & Hs & Hn & Hf). split_and!; cbn; [done..|]. split; [done|].
    eapply Forall_impl; [exact Hf|]. cbn. lia.
  - unfold attach, lease_at in H5. rewrite (deref_bind leases _ _ _ _ H) in H5. injection H5 as <-.
    pose proof (lease_ok_at _ _ _ Hh H) as (? & ? & ? & ? & ? & ?).
    eapply heap_ok_set_lease; [done|exact H|done| |done|done|cbn; right; right; by exists b].
    split_and!; cbn; [done|lia|done|lia..|]. intros s' [= <-]. split; [done|lia].
  - by eapply shelve_preserves.
Qed.

Definition empty_heap : heap := mkHeap [] [] [] 0.

Lemma empty_heap_ok : heap_ok empty_heap.
Proof.
  split_and!; cbn; [by intros b B HB; rewrite lookup_nil in HB|apply Forall_nil_2..|].
  split; cbn; [apply NoDup_nil_2|apply Forall_nil_2].
Qed.

Lemma atomics_preserve h h' : heap_ok h -> rtc atomic h h' -> heap_ok h'.
Proof. intros Hh H. revert Hh. induction H; eauto using atomic_preserves. Qed.

(** ** Methods as runs of atomic steps *)

Lemma capacity_bounds size : 0 <= size -> size <= Z.ldiff (size + 8191) 8191 <= size + 8191.
Proof.
  intros Hs. assert (Z.ldiff (size + 8191) 8191 = (size + 8191) / 8192 * 8192) as ->.
  { change (Z.ldiff (size + 8191) 8191) with (Z.ldiff (size + 8191) (Z.ones 13)).
    by rewrite Z.ldiff_ones_r, Z.shiftl_mul_pow2, Z.shiftr_div_pow2 by lia. }
  pose proof (Z.div_mod (size + 8191) 8192 ltac:(lia)). pose proof (Z.mod_pos_bound (size + 8191) 8192 ltac:(lia)). lia.
Qed.

Lemma recordScratch_ok h b hit bypass : heap_ok h -> (b < length (budgets h))%nat ->
  exists h', recordScratch b hit bypass h = (Ok tt, h') /\ atomic h h' /\ leases h' = leases h /\
    scratches h' = scratches h /\ nextBuffer h' = nextBuffer h /\ length (budgets h') = length (budgets h).
Proof.
  intros Hh Hb. destruct (lookup_lt_is_Some_2 _ _ Hb) as [B HB].
  assert (exists h', recordScratch b hit bypass h = (Ok tt, h') /\ length (budgets h') = length (budgets h)) as (h' & E & El).
  { unfold recordScratch, budget_at. rewrite (deref_bind budgets _ _ _ _ HB).
    destruct (scratchMetrics B), bypass, hit; cbn; eexists; (split; [reflexivity|]); cbn; by rewrite ?length_insert. }
  exists h'. destruct (recordScratch_preserves _ _ _ _ _ Hh E) as (_ & E1 & E2 & E3).
  split_and!; try done. by eapply A_record.
Qed.

(** Releasing a lease frees its buffer for others. *)
Lemma release_run h p l : heap_ok h -> leases h !! p = Some l -> exists h',
  release (Some p) h = (Ok tt, h') /\ atomic h h' /\ heap_ok h' /\
  leases h' = <[p := mkLease (l_budget l) 0 0 0 None None]> (leases h) /\ scratches h' = scratches h /\
  nextBuffer h' = nextBuffer h /\ length (budgets h') = length (budgets h) /\
  (forall b, l_backing l = Some b -> buf_id b ∉ held (leases h') /\ buf_id b < nextBuffer h').
Proof.
  intros Hh Hp. destruct (release_eq _ _ _ Hh Hp) as (B & HB & E). eexists. split; [exact E|].
  assert (atomic h (mkHeap
    (<[l_budget l := with_bytes (b_bytes B - l_bytes l) (b_controlBytes B - l_controlBytes l) B]> (budgets h))
    (<[p := mkLease (l_budget l) 0 0 0 None None]> (leases h)) (scratches h) (nextBuffer h))) as HA by (by eapply A_release).
  split; [done|]. split; [by eapply atomic_preserves|]. cbn [leases scratches nextBuffer budgets].
  split_and!; [done..|by rewrite length_insert|]. intros b Hb.
  destruct Hh as (_ & _ & _ & HN & HF). set (l0 := mkLease _ _ _ _ _ _).
  destruct (held_insert _ _ _ l0 Hp) as [-> E0]. rewrite E0 in HN, HF.
  assert (held [l] = [buf_id b]) as E1 by (unfold held; cbn; by rewrite Hb). rewrite E1 in HN, HF.
  change (held [l0]) with (@nil Z). cbn [app] in *.
  apply NoDup_app in HN as (_ & HN1 & HN2). apply NoDup_cons in HN2 as [HN2 _].
  rewrite !Forall_app, Forall_cons in HF. split; [set_solver|naive_solver].
Qed.

Lemma release_all_run h ps : heap_ok h -> Forall (fun p => (p < length (leases h))%nat) ps ->
  exists h', release_all ps h = (Ok tt, h') /\ rtc atomic h h' /\ heap_ok h' /\
    scratches h' = scratches h /\ length (leases h') = length (leases h) /\
    (forall q, q ∉ ps -> leases h' !! q = leases h !! q).
Proof.
  revert h. induction ps as [|p ps IH]; intros h Hh HF; [by exists h|]. apply Forall_cons in HF as [Hp HF].
  destruct (lookup_lt_is_Some_2 _ _ Hp) as [l Hl].
  destruct (release_run h p l Hh Hl) as (h1 & E1 & HA & Hh1 & El & Es & _).
  assert (length (leases h1) = length (leases h)) as HL by (rewrite El; by rewrite length_insert).
  destruct (IH h1 Hh1) as (h2 & E2 & HR & Hh2 & Es2 & HL2 & Hq); [by rewrite HL|].
  exists h2. cbn [release_all]. unfold mbind, rm_bind. rewrite E1. split_and!; [done|by eapply rtc_l|done|congruence..|].
  intros q Hqp. rewrite Hq by set_solver. rewrite El. apply list_lookup_insert_ne. set_solver.
Qed.

Lemma scratch_at_ok h s S : heap_ok h -> scratches h !! s = Some S -> scratch_ok (length (leases h)) S.
Proof. intros (_ & _ & Hs & _) HS. by eapply Forall_lookup_1 in Hs. Qed.

(** [dropIdle] and [close] empty the pool and return what it was charged. *)
Lemma dropIdle_run h s S : heap_ok h -> scratches h !! s = Some S -> exists h',
  dropIdle s h = (Ok tt, h') /\ rtc atomic h h' /\ heap_ok h' /\ scratches h' !! s = Some (mkScratch [] (closed S)) /\
  (forall q, q ∉ idle S -> leases h' !! q = leases h !! q).
Proof.
  intros Hh HS. destruct (scratch_at_ok _ _ _ Hh HS) as [HF _].
  destruct (release_all_run h (idle S) Hh HF) as (h1 & E1 & HR & Hh1 & Es & _ & Hq).
  exists (mkHeap (budgets h1) (leases h1) (<[s := mkScratch [] (closed S)]> (scratches h1)) (nextBuffer h1)).
  unfold dropIdle, scratch_at. rewrite (deref_bind scratches _ _ _ _ HS). unfold mbind, rm_bind. rewrite E1.
  assert (atomic h1 (mkHeap (budgets h1) (leases h1) (<[s := mkScratch [] (closed S)]> (scratches h1)) (nextBuffer h1))) as HA.
  { eapply A_idle; [by rewrite Es|]. by exists (idle S). }
  split_and!; [done|by eapply rtc_r|by eapply atomic_preserves| |done]. cbn. rewrite Es.
  apply list_lookup_insert_eq. by eapply lookup_lt_Some.
Qed.

Lemma close_run h s S : heap_ok h -> scratches h !! s = Some S -> exists h',
  close s h = (Ok tt, h') /\ rtc atomic h h' /\ heap_ok h' /\ scratches h' !! s = Some (mkScratch [] true).
Proof.
  intros Hh HS. destruct (scratch_at_ok _ _ _ Hh HS) as [HF _].
  set (h0 := mkHeap (budgets h) (leases h) (<[s := mkScratch (idle S) true]> (scratches h)) (nextBuffer h)).
  assert (atomic h h0) as HA0 by (eapply A_idle; [exact HS|done]).
  assert (heap_ok h0) as Hh0 by (by eapply atomic_preserves).
  destruct (release_all_run h0 (idle S) Hh0 HF) as (h1 & E1 & HR & Hh1 & Es & _).
  exists (mkHeap (budgets h1) (leases h1) (<[s := mkScratch [] true]> (scratches h1)) (nextBuffer h1)).
  unfold close, scratch_at. rewrite (deref_bind scratches _ _ _ _ HS). unfold mbind, rm_bind.
  unfold set_scratch at 1. fold h0. rewrite E1.
  assert (s < length (scratches h))%nat as Hlt by (by eapply lookup_lt_Some).
  assert (atomic h1 (mkHeap (budgets h1) (leases h1) (<[s := mkScratch [] true]> (scratches h1)) (nextBuffer h1))) as HA.
  { eapply (A_idle h1 s (mkScratch (idle S) true)).
    - rewrite Es. cbn. by apply list_lookup_insert_eq.
    - by exists (idle S). }
  split_and!; [done|eapply rtc_l; [exact HA0|by eapply rtc_r]|by eapply atomic_preserves|]. cbn. rewrite Es. cbn.
  apply list_lookup_insert_eq. by rewrite length_insert.
Qed.

(** [take_idle]: whatever buffer it returns is large enough and nobody's. *)
Lemma take_idle_run h s S p l size : heap_ok h -> scratches h !! s = Some S -> leases h !! p = Some l ->
  p ∉ idle S -> 0 < size -> exists h' found,
  take_idle s p size h = (Ok found, h') /\ rtc atomic h h' /\ heap_ok h' /\ leases h' !! p = Some l /\
  length (scratches h') = length (scratches h) /\
  (forall b, found = Some b -> size <= buf_cap b <= maxInt /\ buf_id b ∉ held (leases h') /\ buf_id b < nextBuffer h').
Proof.
  intros Hh HS Hp Hnp Hsz. unfold take_idle, scratch_at. rewrite (deref_bind scratches _ _ _ _ HS).
  destruct (last (idle S)) as [q|] eqn:Hq.
  2: { exists h, None. split_and!; [done|apply rtc_refl|done..]. }
  apply last_Some in Hq as [ps Hps]. destruct (scratch_at_ok _ _ _ Hh HS) as [HF _].
  rewrite Hps in HF, Hnp. apply Forall_app in HF as [_ HF]. apply Forall_cons in HF as [Hlt _].
  destruct (lookup_lt_is_Some_2 _ _ Hlt) as [i Hi].
  assert (q <> p) as Hqp by (intros ->; apply Hnp; set_solver).
  set (h0 := mkHeap (budgets h) (leases h) (<[s := mkScratch (removelast (idle S)) (closed S)]> (scratches h)) (nextBuffer h)).
  assert (atomic h h0) as HA0.
  { eapply A_idle; [exact HS|]. rewrite Hps, removelast_last. by exists [q]. }
  assert (heap_ok h0) as Hh0 by (by eapply atomic_preserves).
  destruct (release_run h0 q i Hh0 Hi) as (h1 & E1 & HA1 & Hh1 & El & Es & En & _ & Hbuf).
  exists h1. eexists. unfold mbind at 1, rm_bind at 1, set_scratch at 1. fold h0.
  unfold lease_at. rewrite (deref_bind leases q i _ h0 Hi), (deref_bind leases p l _ h0 Hp).
  unfold mbind, rm_bind. rewrite E1. split; [reflexivity|]. split; [by eapply rtc_l, rtc_once|]. split; [done|].
  split; [rewrite El; by rewrite list_lookup_insert_ne|]. split; [rewrite Es; cbn; by rewrite length_insert|].
  intros b Hb. destruct (_ && _) eqn:Hc; [|done]. bsplit. rewrite Hb in H0. cbn in H0.
  destruct (lease_ok_at h q i Hh Hi) as (_ & _ & _ & _ & Hcap & _). rewrite Hb in Hcap. cbn in Hcap.
  split; [lia|]. by apply Hbuf.
Qed.

Lemma resize_run h p l bytes : heap_ok h -> leases h !! p = Some l -> 0 <= bytes ->
  (forall s, l_scratch l = Some s -> cap (l_backing l) <= bytes + l_extra l) ->
  (exists h', resize (Some p) bytes h = (Ok tt, h') /\ atomic h h' /\ heap_ok h' /\
     leases h' = <[p := mkLease (l_budget l) (bytes + l_extra l) (l_controlBytes l) (l_extra l) (l_backing l) (l_scratch l)]> (leases h) /\
     scratches h' = scratches h /\ nextBuffer h' = nextBuffer h /\ length (budgets h') = length (budgets h)) \/
  resize (Some p) bytes h = (Err msgr_ErrReceiveBudgetExceeded, h).
Proof.
  intros Hh Hp H0 Hs. pose proof (resize_eq h p l bytes Hh Hp H0) as H.
  destruct (resize (Some p) bytes h) as [[[]|e|] h'] eqn:E; [|right; by destruct H as [-> ->]|done].
  left. exists h'. assert (atomic h h') as HA by (by eapply A_resize).
  split_and!; [done|done|by eapply atomic_preserves|..]; destruct H as (B & HB & _ & _ & ->); cbn; [done..|by rewrite length_insert].
Qed.

Lemma set_extra_run h p l extra : heap_ok h -> leases h !! p = Some l -> 0 <= extra <= MaxUint64 ->
  let h' := mkHeap (budgets h) (<[p := mkLease (l_budget l) (l_bytes l) (l_controlBytes l) extra (l_backing l) (l_scratch l)]> (leases h))
              (scratches h) (nextBuffer h) in
  set_extra p extra h = (Ok tt, h') /\ atomic h h' /\ heap_ok h'.
Proof.
  intros Hh Hp He h'. assert (set_extra p extra h = (Ok tt, h')) as E.
  { unfold set_extra, lease_at. by rewrite (deref_bind leases _ _ _ _ Hp). }
  assert (atomic h h') as HA by (by eapply A_extra). split_and!; [done..|]. by eapply atomic_preserves.
Qed.

(** The end of [get]: count, allocate when no idle buffer was found, attach. *)
Lemma attach_run h p l s found capacity : heap_ok h -> leases h !! p = Some l -> (s < length (scratches h))%nat ->
  0 <= capacity <= l_bytes l -> capacity <= maxInt ->
  (forall b, found = Some b -> buf_cap b = capacity /\ buf_id b ∉ held (leases h) /\ buf_id b < nextBuffer h) ->
  exists h' b, (_ ← recordScratch (l_budget l) (match found with Some _ => true | None => false end) false;
    b ← match found with Some b => mret b | None => new_buffer capacity end;
    attach p b s) h = (Ok tt, h') /\ rtc atomic h h' /\ heap_ok h' /\ buf_cap b = capacity /\
  leases h' !! p = Some (mkLease (l_budget l) (l_bytes l) (l_controlBytes l) (l_extra l) (Some b) (Some s)).
Proof.
  intros Hh Hp Hs Hcap Hmax Hf. destruct (recordScratch_ok h (l_budget l) (match found with Some _ => true | None => false end) false Hh)
    as (h1 & E1 & HA1 & El1 & Es1 & En1 & _); [by destruct (lease_ok_at _ _ _ Hh Hp)|].
  assert (heap_ok h1) as Hh1 by (by eapply atomic_preserves). unfold mbind at 1, rm_bind at 1. rewrite E1.
  assert (exists b h2, match found with Some b => mret b | None => new_buffer capacity end h1 = (Ok b, h2) /\
    rtc atomic h1 h2 /\ leases h2 = leases h1 /\ scratches h2 = scratches h1 /\ buf_cap b = capacity /\
    buf_id b ∉ held (leases h2) /\ buf_id b < nextBuffer h2) as (b & h2 & E2 & HR2 & El2 & Es2 & Ecap & Hid & Hlt).
  { destruct found as [b|].
    - exists b, h1. destruct (Hf b eq_refl) as (? & ? & ?). rewrite El1, En1. split_and!; [done|apply rtc_refl|done..].
    - exists (mkBacking (nextBuffer h1) capacity). eexists. split; [reflexivity|].
      split; [apply rtc_once, (A_buffer _ capacity _ (mkBacking (nextBuffer h1) capacity)); reflexivity|].
      split_and!; [done..| |cbn; lia]. cbn. intros Hin. destruct Hh1 as (_ & _ & _ & _ & HF).
      rewrite Forall_forall in HF. specialize (HF _ Hin). cbn in HF. lia. }
  unfold mbind at 1, rm_bind at 1. rewrite E2. rewrite <- El1, <- El2 in Hp.
  set (l3 := mkLease (l_budget l) (l_bytes l) (l_controlBytes l) (l_extra l) (Some b) (Some s)).
  set (h3 := mkHeap (budgets h2) (<[p := l3]> (leases h2)) (scratches h2) (nextBuffer h2)).
  assert (attach p b s h2 = (Ok tt, h3)) as E3 by (unfold attach, lease_at; by rewrite (deref_bind leases _ _ _ _ Hp)).
  assert (atomic h2 h3) as HA3.
  { eapply A_attach; [exact Hp|by rewrite Es2, Es1|by rewrite Ecap|by rewrite Ecap|done|done|exact E3]. }
  exists h3, b. split_and!; [done|eapply rtc_l; [exact HA1|by eapply rtc_r]| |done|].
  - eapply atomic_preserves; [|exact HA3]. by eapply atomics_preserve.
  - cbn. apply list_lookup_insert_eq. by eapply lookup_lt_Some.
Qed.

(** What [get] does to the lease: nothing, or it attaches a buffer that nobody
    else holds and charges its whole capacity. *)
Lemma get_run h s S p l size : heap_ok h -> scratches h !! s = Some S -> leases h !! p = Some l ->
  p ∉ idle S -> l_scratch l = None -> l_extra l = 0 -> 0 <= size <= l_bytes l -> exists h' l',
  get s p size h = (Ok tt, h') /\ rtc atomic h h' /\ heap_ok h' /\ leases h' !! p = Some l' /\
  l_budget l' = l_budget l /\ l_controlBytes l' = l_controlBytes l /\ l_bytes l' = l_bytes l + l_extra l' /\
  (l' = l \/ l_scratch l' = Some s /\ cap (l_backing l') = size + l_extra l').
Proof.
  intros Hh HS Hp Hnp Hsc Hex Hsize. assert (s < length (scratches h))%nat as Hs by (by eapply lookup_lt_Some).
  pose proof (lease_ok_at _ _ _ Hh Hp) as (Hb & Hlb & _). unfold get, lease_at. rewrite (deref_bind leases _ _ _ _ Hp).
  destruct (_ || _) eqn:Hsz.
  { destruct (recordScratch_ok h (l_budget l) false true Hh Hb) as (h' & E & HA & El & _).
    exists h', l. rewrite E, El. split_and!; [done|by apply rtc_once|by eapply atomic_preserves|done..|lia|by left]. }
  bsplit. unfold maxReceiveScratch in *. change (Z.shiftl 4 10) with 4096 in *. change (Z.shiftl 128 10) with 131072 in *.
  destruct (take_idle_run h s S p l size Hh HS Hp Hnp ltac:(lia)) as (h1 & found & E1 & HR1 & Hh1 & Hp1 & Hs1 & Hf).
  set (capacity := match found with Some b => buf_cap b | None => Z.ldiff (size + 8191) 8191 end).
  assert (size <= capacity <= maxInt) as Hcap.
  { subst capacity. destruct found as [b|]; [by destruct (Hf b eq_refl)|]. pose proof (capacity_bounds size). unfold maxInt. lia. }
  assert (u64 (capacity - size) = capacity - size) as Eu by (apply u64_id; unfold maxInt, MaxUint64 in *; lia).
  destruct (set_extra_run h1 p l (capacity - size) Hh1 Hp1) as (E2 & HA2 & Hh2); [unfold maxInt, MaxUint64 in *; lia|].
  set (l2 := mkLease (l_budget l) (l_bytes l) (l_controlBytes l) (capacity - size) (l_backing l) (l_scratch l)) in *.
  set (h2 := mkHeap (budgets h1) (<[p := l2]> (leases h1)) (scratches h1) (nextBuffer h1)) in *.
  assert (leases h2 !! p = Some l2) as Hp2 by (cbn; apply list_lookup_insert_eq; by eapply lookup_lt_Some).
  assert (rtc atomic h h2) as HR2 by (by eapply rtc_r).
  unfold mbind at 1, rm_bind at 1. rewrite E1. fold capacity. rewrite Eu.
  unfold mbind at 1, rm_bind at 1. rewrite E2. unfold mbind at 1, rm_bind at 1, attempt.
  destruct (resize_run h2 p l2 (l_bytes l) Hh2 Hp2 Hlb) as [(h3 & E3 & HA3 & Hh3 & El3 & Es3 & En3 & Eb3)|E3];
    [cbn; by rewrite Hsc| |]; rewrite E3.
  - set (l3 := mkLease _ _ _ _ _ _) in El3.
    assert (leases h3 !! p = Some l3) as Hp3 by (rewrite El3; apply list_lookup_insert_eq; by eapply lookup_lt_Some).
    assert (held (leases h3) = held (leases h1)) as Eh.
    { rewrite El3. unfold h2. cbn [leases]. rewrite list_insert_insert_eq.
      destruct (held_insert _ _ _ l3 Hp1) as [-> ->]. done. }
    destruct (attach_run h3 p l3 s found capacity Hh3 Hp3) as (h4 & b & E4 & HR4 & Hh4 & Ec & Hp4).
    { rewrite Es3. cbn. lia. } { cbn. lia. } { lia. }
    { intros b ->. destruct (Hf b eq_refl) as (_ & ? & ?). by rewrite Eh, En3. }
    cbn [l3 l2 l_budget] in E4. rewrite E4. eexists _, _.
    split_and!; [done|etransitivity; [eapply rtc_r; [exact HR2|exact HA3]|exact HR4]|done|exact Hp4|done..|].
    right. cbn. split; [done|lia].
  - destruct (set_extra_run h2 p l2 0 Hh2 Hp2) as (E4 & HA4 & Hh4); [unfold MaxUint64; lia|].
    unfold mbind at 1, rm_bind at 1. rewrite E4. cbn [l2 l_budget l_bytes l_controlBytes l_backing l_scratch].
    match goal with |- context [recordScratch _ _ _ ?x] => set (h4 := x) in * end.
    destruct (recordScratch_ok h4 (l_budget l) false true Hh4) as (h5 & E5 & HA5 & El5 & _).
    { cbn. destruct (lease_ok_at _ _ _ Hh2 Hp2) as (? & _). done. }
    exists h5, l. rewrite E5, El5. split_and!; [done|eapply rtc_r; [by eapply rtc_r|done]|by eapply atomic_preserves| |done..|lia|by left].
    unfold h4. cbn [leases h2]. rewrite list_insert_insert_eq, list_lookup_insert_eq by (by eapply lookup_lt_Some).
    destruct l; cbn in *; congruence.
Qed.

(** Returning a buffer: the lease is empty afterwards, and its buffer is idle
    in the pool or given up. *)
Lemma reclaim_run h p l : heap_ok h -> leases h !! p = Some l -> exists h' l',
  reclaim (Some p) h = (Ok tt, h') /\ rtc atomic h h' /\ heap_ok h' /\ leases h' !! p = Some l' /\
  l_bytes l' = 0 /\ l_controlBytes l' = 0 /\ l_backing l' = None.
Proof.
  intros Hh Hp. cbn [reclaim]. unfold lease_at. rewrite (deref_bind leases _ _ _ _ Hp).
  destruct (release_run h p l Hh Hp) as (h1 & E1 & HA1 & Hh1 & El1 & _).
  assert (leases h1 !! p = Some (mkLease (l_budget l) 0 0 0 None None)) as Hp1.
  { rewrite El1. apply list_lookup_insert_eq. by eapply lookup_lt_Some. }
  destruct (l_scratch l) as [s|] eqn:Hs.
  2: { exists h1. eexists. split_and!; [exact E1|by apply rtc_once|done|exact Hp1|done..]. }
  pose proof (lease_ok_at _ _ _ Hh Hp) as (_ & _ & _ & _ & _ & Hsc). destruct (Hsc s Hs) as [Hlt Hle].
  destruct (lookup_lt_is_Some_2 _ _ Hlt) as [S HS]. destruct (lease_budget _ _ _ Hh Hp) as (B & HB & ((_ & _ & _ & Hslots) & _) & _).
  unfold put, scratch_at, lease_at, budget_at.
  rewrite (deref_bind scratches _ _ _ _ HS), (deref_bind leases _ _ _ _ Hp), (deref_bind budgets _ _ _ _ HB).
  destruct (_ || _) eqn:Hfull.
  { exists h1. eexists. split_and!; [exact E1|by apply rtc_once|done|exact Hp1|done..]. }
  bsplit. destruct (releaseControl_eq _ _ _ Hh Hp) as (B' & HB' & E2). rewrite HB in HB'. injection HB' as <-.
  unfold mbind at 1, rm_bind at 1. rewrite E2. match goal with |- context [shelve _ _ ?x] => set (h2 := x) in * end.
  assert (atomic h h2) as HA2 by (by eapply A_releaseControl).
  pose proof (atomic_preserves _ _ Hh HA2) as Hh2.
  set (l2 := mkLease (l_budget l) (l_bytes l) 0 (l_extra l) (l_backing l) (Some s)).
  assert (leases h2 !! p = Some l2) as Hp2.
  { unfold h2. cbn. rewrite list_lookup_insert_eq by (by eapply lookup_lt_Some). by rewrite Hs. }
  destruct (lease_budget _ _ _ Hh2 Hp2) as (B2 & HB2 & _).
  eassert (shelve s p h2 = (Ok tt, _)) as E3.
  { unfold shelve, scratch_at, lease_at, budget_at.
    rewrite (deref_bind scratches s S _ h2 HS), (deref_bind leases _ _ _ _ Hp2), (deref_bind budgets _ _ _ _ HB2). reflexivity. }
  assert (atomic h2 (snd (shelve s p h2))) as HA3.
  { eapply (A_shelve h2 s S p l2); [exact HS|lia|done|done|]. by rewrite E3. }
  rewrite E3 in *. cbn [snd] in HA3. eexists. exists (mkLease (l_budget l) 0 0 0 None None). split; [reflexivity|].
  split; [eapply rtc_l; [exact HA2|by apply rtc_once]|]. split; [exact (atomic_preserves _ _ Hh2 HA3)|]. cbn [leases].
  split; [|done]. rewrite lookup_app_l by (rewrite length_insert; by eapply lookup_lt_Some).
  apply list_lookup_insert_eq. by eapply lookup_lt_Some.
Qed.

(** ** The budgeted reader

    It reads from the connection and charges a lease; [rd_prelude] tells
    whether it lends a buffer for the first secure record. *)

Record budgetReader := mkReader {
  rd_in : bytes;
  rd_heap : heap;
  rd_lease : nat;
  rd_prelude : bool;
  rd_scratch : option nat }.

Definition on_heap {A} (m : HM A) : RM budgetReader A := fun r =>
  let '(x, h) := m (rd_heap r) in (x, mkReader (rd_in r) h (rd_lease r) (rd_prelude r) (rd_scratch r)).

Definition with_in (s : bytes) (r : budgetReader) : budgetReader :=
  mkReader s (rd_heap r) (rd_lease r) (rd_prelude r) (rd_scratch r).

(** [reserveReceiveBytes]: when the budget refuses, the idle buffers of the
    transport are given up first. *)
Definition reserve_bytes (lease : nat) (scratch : option nat) (bytes : Z) : HM unit :=
  err ← attempt (resize (Some lease) bytes);
  match err, scratch with
  | Some _, Some scratch => _ ← dropIdle scratch; resize (Some lease) bytes
  | Some e, None => throw e
  | None, _ => mret tt
  end.

#[export] Instance budget_reader : Reader budgetReader := {|
  ReadFull n r := let '(x, s) := ReadFull n (rd_in r) in (x, with_in s r);
  reserveReceivePrelude r := on_heap (reserve_prelude (rd_lease r)) r;
  releaseReceivePrelude r := on_heap (releaseControl (Some (rd_lease r))) r;
  reserveReceiveBytes n r := on_heap (reserve_bytes (rd_lease r) (rd_scratch r) n) r;
  receiveBacking n r :=
    match rd_scratch r with
    | None => (Ok tt, r)
    | Some scratch => on_heap (get scratch (rd_lease r) n) r
    end;
  receivePreludeBuffer r := rd_prelude r |}.

(** *** Its pointers stay valid, whatever the order of operations *)

Definition wired (h : heap) : Prop :=
  Forall (fun l => (l_budget l < length (budgets h))%nat) (leases h) /\
  Forall (fun s => Forall (fun p => (p < length (leases h))%nat) (idle s)) (scratches h).

Definition grows (h h' : heap) : Prop :=
  length (budgets h') = length (budgets h) /\ (length (leases h) <= length (leases h'))%nat /\
  length (scratches h') = length (scratches h).

(** [safe m h Q]: no panic; pointers stay valid and errors are refusals. *)
Definition safe {A} (m : HM A) (h : heap) (Q : A -> heap -> Prop) : Prop :=
  match m h with
  | (Ok a, h') => wired h' /\ grows h h' /\ Q a h'
  | (Err e, h') => wired h' /\ grows h h' /\ e = msgr_ErrReceiveBudgetExceeded
  | (Panic, _) => False
  end.

Lemma grows_refl h : grows h h.
Proof. done. Qed.
Lemma grows_trans h1 h2 h3 : grows h1 h2 -> grows h2 h3 -> grows h1 h3.
Proof. unfold grows. lia. Qed.

Lemma safe_ret {A} (a : A) h Q : wired h -> Q a h -> safe (mret a) h Q.
Proof. done. Qed.

Lemma safe_bind {A B} (m : HM A) (k : A -> HM B) h Q :
  safe m h (fun a h' => grows h h' -> wired h' -> safe (k a) h' Q) -> safe (m ≫= k) h Q.
Proof.
  unfold safe, mbind, rm_bind. destruct (m h) as [[a|e|] h1]; [|done..]. intros (W & G & H). specialize (H G W).
  destruct (k a h1) as [[b|e|] h2]; naive_solver eauto using grows_trans.
Qed.

Lemma safe_deref {A} (objects : heap -> list A) p h Q : wired h -> (p < length (objects h))%nat ->
  (forall x, objects h !! p = Some x -> Q x h) -> safe (deref objects p) h Q.
Proof.
  intros W Hp HQ. unfold safe, deref. destruct (lookup_lt_is_Some_2 _ _ Hp) as [x Hx]. rewrite Hx.
  split_and!; [done|apply grows_refl|by apply HQ].
Qed.

Lemma safe_set_budget p b h Q : wired h -> (forall h', Q tt h') -> safe (set_budget p b) h Q.
Proof.
  intros [W1 W2] HQ. split_and!; [|unfold grows; cbn; by rewrite length_insert|done].
  split; cbn; by rewrite ?length_insert.
Qed.

Lemma safe_set_lease p l h (Q : unit -> heap -> Prop) : wired h -> (l_budget l < length (budgets h))%nat ->
  (forall h', Q tt h') -> safe (set_lease p l) h Q.
Proof.
  intros [W1 W2] Hl HQ. split_and!; [|unfold grows; cbn; by rewrite length_insert|done].
  split; cbn; [by apply Forall_insert|by rewrite length_insert].
Qed.

Lemma safe_set_scratch p s h (Q : unit -> heap -> Prop) : wired h ->
  Forall (fun q => (q < length (leases h))%nat) (idle s) -> (forall h', Q tt h') -> safe (set_scratch p s) h Q.
Proof.
  intros [W1 W2] Hs HQ. split_and!; [|unfold grows; cbn; by rewrite length_insert|done].
  split; cbn; [done|by apply Forall_insert].
Qed.

Lemma wired_lease h p l : wired h -> leases h !! p = Some l -> (l_budget l < length (budgets h))%nat.
Proof. intros [W _] Hp. by eapply Forall_lookup_1 in W. Qed.

Lemma wired_idle h s S : wired h -> scratches h !! s = Some S -> Forall (fun p => (p < length (leases h))%nat) (idle S).
Proof. intros [_ W] HS. by eapply Forall_lookup_1 in W. Qed.

Lemma safe_throw {A} h (Q : A -> heap -> Prop) : wired h -> safe (throw msgr_ErrReceiveBudgetExceeded) h Q.
Proof. done. Qed.

Lemma safe_attempt {A} (m : HM A) h (Q : option error -> heap -> Prop) :
  safe m h (fun _ _ => True) -> (forall e h', Q e h') -> safe (attempt m) h Q.
Proof. unfold safe, attempt. destruct (m h) as [[a|e|] h']; naive_solver. Qed.

(** One step of such a proof: operations in order, pointer bounds by [lia]. *)
Ltac hside := unfold grows in *; cbn; lia.
Ltac hstep :=
  match goal with
  | |- safe (lease_at ?p ≫= _) ?h _ =>
      apply safe_bind, safe_deref; [done|hside|];
      let l := fresh "l" in let Hl := fresh "Hl" in intros l Hl _ _; pose proof (wired_lease _ _ _ ltac:(eassumption) Hl)
  | |- safe (budget_at _ ≫= _) _ _ => apply safe_bind, safe_deref; [done|hside|]; intros ? _ _ _
  | |- safe (scratch_at _ ≫= _) _ _ =>
      apply safe_bind, safe_deref; [done|hside|];
      let S := fresh "S" in let HS := fresh "HS" in intros S HS _ _; pose proof (wired_idle _ _ _ ltac:(eassumption) HS)
  | |- safe (set_budget _ _ ≫= _) _ _ => apply safe_bind, safe_set_budget; [done|]; intros ? ? ?
  | |- safe (set_lease _ _ ≫= _) _ _ => apply safe_bind, safe_set_lease; [done|hside|]; intros ? ? ?
  | |- safe (set_budget _ _) _ _ => apply safe_set_budget; [done|auto]
  | |- safe (set_lease _ _) _ _ => apply safe_set_lease; [done|hside|auto]
  | |- safe (if ?c then _ else _) _ _ => destruct c
  | |- safe (throw _) _ _ => by apply safe_throw
  | |- safe (mret _) _ _ => apply safe_ret; [done|auto]
  end.

Section safe_ops.
Context (h : heap) (W : wired h).

Lemma safe_resize p n (Q : unit -> heap -> Prop) : (p < length (leases h))%nat -> (forall h', Q tt h') ->
  safe (resize (Some p) n) h Q.
Proof using W. intros Hp HQ. cbn [resize]. cbv zeta. repeat hstep. Qed.

Lemma safe_releaseControl p (Q : unit -> heap -> Prop) : (p < length (leases h))%nat -> (forall h', Q tt h') ->
  safe (releaseControl (Some p)) h Q.
Proof using W. intros Hp HQ. cbn [releaseControl]. repeat hstep. Qed.

Lemma safe_release p (Q : unit -> heap -> Prop) : (p < length (leases h))%nat -> (forall h', Q tt h') ->
  safe (release (Some p)) h Q.
Proof using W. intros Hp HQ. cbn [release]. repeat hstep. Qed.

Lemma safe_reserve_prelude p (Q : unit -> heap -> Prop) : (p < length (leases h))%nat -> (forall h', Q tt h') ->
  safe (reserve_prelude p) h Q.
Proof using W. intros Hp HQ. unfold reserve_prelude. repeat hstep. Qed.

Lemma safe_recordScratch b hit bypass (Q : unit -> heap -> Prop) : (b < length (budgets h))%nat -> (forall h', Q tt h') ->
  safe (recordScratch b hit bypass) h Q.
Proof using W. intros Hp HQ. unfold recordScratch. repeat hstep. Qed.

Lemma safe_set_extra p n (Q : unit -> heap -> Prop) : (p < length (leases h))%nat -> (forall h', Q tt h') ->
  safe (set_extra p n) h Q.
Proof using W. intros Hp HQ. unfold set_extra. repeat hstep. Qed.

Lemma safe_attach p b s (Q : unit -> heap -> Prop) : (p < length (leases h))%nat -> (forall h', Q tt h') ->
  safe (attach p b s) h Q.
Proof using W. intros Hp HQ. unfold attach. repeat hstep. Qed.

Lemma safe_new_buffer n (Q : backing -> heap -> Prop) : (forall b h', Q b h') -> safe (new_buffer n) h Q.
Proof using W. intros HQ. unfold safe, new_buffer. split_and!; [by destruct W|done|apply HQ]. Qed.

End safe_ops.

Lemma safe_release_all h ps (Q : unit -> heap -> Prop) : wired h ->
  Forall (fun p => (p < length (leases h))%nat) ps -> (forall h', wired h' -> grows h h' -> Q tt h') ->
  safe (release_all ps) h Q.
Proof.
  revert h. induction ps as [|p ps IH]; intros h W HF HQ; cbn [release_all]; [apply safe_ret; [done|by apply HQ]|].
  apply Forall_cons in HF as [Hp HF]. apply safe_bind, safe_release; [done..|]. intros h1 G1 W1.
  apply IH; [done| |].
  - eapply Forall_impl; [exact HF|]. cbn. hside.
  - intros h2 W2 G2. apply HQ; [done|by eapply grows_trans].
Qed.

Lemma safe_dropIdle h s (Q : unit -> heap -> Prop) : wired h -> (s < length (scratches h))%nat ->
  (forall h', Q tt h') -> safe (dropIdle s) h Q.
Proof.
  intros W Hs HQ. unfold dropIdle. hstep. apply safe_bind, safe_release_all; [done..|]. intros h1 W1 G1 _ _.
  apply safe_set_scratch; [done|apply Forall_nil_2|done].
Qed.

Lemma safe_reserve_bytes h p s n (Q : unit -> heap -> Prop) : wired h -> (p < length (leases h))%nat ->
  (forall q, s = Some q -> (q < length (scratches h))%nat) -> (forall h', Q tt h') -> safe (reserve_bytes p s n) h Q.
Proof.
  intros W Hp Hs HQ. unfold reserve_bytes. apply safe_bind. unfold safe, attempt.
  pose proof (safe_resize h W p n (fun _ _ => True) Hp (fun _ => I)) as HR. unfold safe in HR.
  destruct (resize (Some p) n h) as [[[]|e|] h1]; [|destruct HR as (W1 & G1 & ->)|done].
  - destruct HR as (? & ? & _). split_and!; [done..|]. intros _ _. by apply safe_ret.
  - split_and!; [done..|]. intros _ _. destruct s as [q|]; [|by apply safe_throw].
    apply safe_bind, safe_dropIdle; [done|specialize (Hs q eq_refl); hside|]. intros h2 G2 W2.
    apply safe_resize; [done|hside|done].
Qed.

Lemma safe_take_idle h s p size (Q : option backing -> heap -> Prop) : wired h -> (p < length (leases h))%nat ->
  (s < length (scratches h))%nat -> (forall b h', Q b h') -> safe (take_idle s p size) h Q.
Proof.
  intros W Hp Hs HQ. unfold take_idle. hstep. destruct (last (idle S)) as [q|] eqn:Hq; [|by apply safe_ret].
  apply last_Some in Hq as [ps Hps]. rewrite Hps in H. apply Forall_app in H as [HF Hq]. apply Forall_cons in Hq as [Hq _].
  apply safe_bind, safe_set_scratch; [done|cbn; by rewrite Hps, removelast_last|]. intros h1 G1 W1.
  repeat hstep. apply safe_bind, safe_release; [done|hside|]. intros h2 G2 W2. by apply safe_ret.
Qed.

Lemma safe_get h s p size (Q : unit -> heap -> Prop) : wired h -> (p < length (leases h))%nat ->
  (s < length (scratches h))%nat -> (forall h', Q tt h') -> safe (get s p size) h Q.
Proof.
  intros W Hp Hs HQ. unfold get. hstep. destruct (_ || _); [by apply safe_recordScratch|].
  apply safe_bind, safe_take_idle; [done..|]. intros found h1 G1 W1. cbv zeta.
  apply safe_bind, safe_set_extra; [done|hside|]. intros h2 G2 W2.
  apply safe_bind, safe_attempt; [apply safe_resize; [done|hside|done]|]. intros [e|] h3 G3 W3.
  - apply safe_bind, safe_set_extra; [done|hside|]. intros h4 G4 W4. apply safe_recordScratch; [done|hside|done].
  - apply safe_bind, safe_recordScratch; [done|hside|]. intros h4 G4 W4. apply safe_bind.
    assert (forall b h5, grows h4 h5 -> wired h5 -> safe (attach p b s) h5 Q) as HA.
    { intros b h5 G5 W5. apply safe_attach; [done|hside|done]. }
    destruct found as [b|]; [by apply safe_ret; [|apply HA]|]. apply safe_new_buffer; [done|]. intros b h5 G5 W5. by apply HA.
Qed.

(** A usable budgeted reader. *)
Definition usable (r : budgetReader) : Prop :=
  wired (rd_heap r) /\ (rd_lease r < length (leases (rd_heap r)))%nat /\
  (forall s, rd_scratch r = Some s -> (s < length (scratches (rd_heap r)))%nat).

Lemma on_heap_safe {A} (m : HM A) r : usable r -> safe m (rd_heap r) (fun _ _ => True) ->
  match on_heap m r with
  | (Ok _, r') => usable r' /\ rd_in r' = rd_in r
  | (Err e, _) => e = msgr_ErrReceiveBudgetExceeded
  | (Panic, _) => False
  end.
Proof.
  intros (W & Hp & Hs) H. unfold safe in H. unfold on_heap. destruct (m (rd_heap r)) as [[a|e|] h']; [|naive_solver..].
  destruct H as (W' & G & _). split; [|done]. split_and!; cbn; [done|hside|]. intros s E. specialize (Hs s E). hside.
Qed.

#[export] Program Instance budget_stream : StreamReader budgetReader := {|
  streams r s := usable r /\ rd_in r = s;
  refusal e := e = msgr_ErrReceiveBudgetExceeded |}.
Next Obligation.
  intros r bs rest [Hu Hr]. cbn [ReadFull budget_reader]. rewrite Hr, plain_enough. by eexists.
Qed.
Next Obligation.
  intros n r s [Hu Hr] Hn. cbn [ReadFull budget_reader]. rewrite Hr, plain_short by done. by eexists _, _.
Qed.
Next Obligation.
  intros m r s Hm [Hu Hr]. pose proof Hu as (W & Hp & Hs).
  assert (forall m' : HM unit, safe m' (rd_heap r) (fun _ _ => True) -> m r = on_heap m' r ->
    match m r with (Ok _, r') => usable r' /\ rd_in r' = s | (Err e, _) => e = msgr_ErrReceiveBudgetExceeded | (Panic, _) => False end) as H.
  { intros m' Hm' ->. pose proof (on_heap_safe m' r Hu Hm') as H. destruct (on_heap m' r) as [[]]; naive_solver. }
  destruct Hm as [-> | [-> | [[n ->] | [n ->]]]].
  - by eapply H; [apply safe_reserve_prelude|].
  - by eapply H; [apply safe_releaseControl|].
  - by eapply H; [apply safe_reserve_bytes|].
  - destruct (rd_scratch r) as [q|] eqn:Eq.
    + eapply (H (get q (rd_lease r) n)); [apply safe_get; [done|done|by apply Hs|done]|]. cbn. by rewrite Eq.
    + cbn. by rewrite Eq.
Qed.

(** ** Codecs that account for what they read *)

Definition payload_bytes (f : Frame) : Z := foldr (fun s n => len (Data s) + n) 0 (Segments f).

(** The lease of a reader and the pool of its transport. *)
Definition pool_ok (h : heap) (lease : nat) (scratch : option nat) : Prop :=
  forall s, scratch = Some s -> exists S, scratches h !! s = Some S /\ lease ∉ idle S.

Definition charged (r : budgetReader) (l : receiveLease) : Prop :=
  heap_ok (rd_heap r) /\ leases (rd_heap r) !! rd_lease r = Some l /\ pool_ok (rd_heap r) (rd_lease r) (rd_scratch r).

Definition tracks (r r' : budgetReader) : Prop :=
  rtc atomic (rd_heap r) (rd_heap r') /\ rd_lease r' = rd_lease r /\ rd_scratch r' = rd_scratch r /\
  rd_prelude r' = rd_prelude r.

(** What the transport relies on: starting with an empty lease, a codec only
    makes the atomic steps above; when it delivers a frame, the lease pays for
    the bytes of the frame. *)
Class BudgetedCodec (read : FrameLimits -> RM budgetReader Frame) : Prop :=
  codec_accounts limits r b : charged r (mkLease b 0 0 0 None None) ->
    match read limits r with
    | (Ok f, r') => tracks r r' /\ exists l, charged r' l /\ l_budget l = b /\
                    payload_bytes f <= l_bytes l + l_controlBytes l
    | (Err _, r') => tracks r r' /\ exists l, charged r' l /\ l_budget l = b
    | (Panic, _) => False
    end.

(** Reasoning with the reader after an error. *)
Definition wpe {A} (m : RM budgetReader A) (r : budgetReader) (Q : A -> budgetReader -> Prop)
    (E : budgetReader -> Prop) : Prop :=
  match m r with (Ok a, r') => Q a r' | (Err _, r') => E r' | (Panic, _) => False end.

Lemma wpe_bind {A B} (m : RM budgetReader A) (k : A -> RM budgetReader B) r Q E :
  wpe m r (fun a r' => wpe (k a) r' Q E) E -> wpe (m ≫= k) r Q E.
Proof. unfold wpe, mbind, rm_bind. by destruct (m r) as [[] ?]. Qed.

Lemma wpe_ret {A} (a : A) r Q E : Q a r -> wpe (mret a) r Q E.
Proof. done. Qed.

Lemma wpe_throw {A} e r (Q : A -> budgetReader -> Prop) (E : budgetReader -> Prop) : E r -> wpe (throw e) r Q E.
Proof. done. Qed.

Lemma wpe_lift {A} (x : res A) r (Q : A -> budgetReader -> Prop) (E : budgetReader -> Prop) :
  x <> Panic -> (forall a, x = Ok a -> Q a r) -> E r -> wpe (lift x) r Q E.
Proof. intros Hp HQ HE. unfold wpe, lift. destruct x; [by apply HQ|done|by destruct Hp]. Qed.

Lemma wpe_mono {A} (m : RM budgetReader A) r (Q Q' : A -> budgetReader -> Prop) (E E' : budgetReader -> Prop) :
  wpe m r Q E -> (forall a r', Q a r' -> Q' a r') -> (forall r', E r' -> E' r') -> wpe m r Q' E'.
Proof. unfold wpe. destruct (m r) as [[] ?]; auto. Qed.

(** Reading touches only the stream. *)
Lemma wpe_read n e r (Q : bytes -> budgetReader -> Prop) (E : budgetReader -> Prop) : 0 <= n ->
  (forall bs s, len bs = n -> Q bs (with_in s r)) -> (forall s, E (with_in s r)) -> wpe (wrap e (ReadFull n)) r Q E.
Proof.
  intros Hn HQ HE. unfold wpe, wrap. cbn. destruct (Z.leb_spec n (len (rd_in r))); cbn; [|apply HE].
  apply HQ. unfold len in *. rewrite length_take. lia.
Qed.

Lemma tracks_refl r : tracks r r.
Proof. split_and!; done || apply rtc_refl. Qed.

Lemma tracks_trans r1 r2 r3 : tracks r1 r2 -> tracks r2 r3 -> tracks r1 r3.
Proof. intros (? & ? & ? & ?) (? & ? & ? & ?). split_and!; [by etransitivity|congruence..]. Qed.

Lemma tracks_in r s : tracks r (with_in s r).
Proof. split_and!; done || apply rtc_refl. Qed.

Lemma charged_in r l s : charged r l -> charged (with_in s r) l.
Proof. done. Qed.

(** *** The accounting operations on a charged reader *)

Lemma reserve_bytes_run h p l s n : heap_ok h -> leases h !! p = Some l -> pool_ok h p s -> 0 <= n ->
  (forall q, l_scratch l = Some q -> cap (l_backing l) <= n + l_extra l) ->
  exists h', rtc atomic h h' /\ heap_ok h' /\ pool_ok h' p s /\
  ((reserve_bytes p s n h = (Ok tt, h') /\ leases h' !! p =
      Some (mkLease (l_budget l) (n + l_extra l) (l_controlBytes l) (l_extra l) (l_backing l) (l_scratch l))) \/
   (reserve_bytes p s n h = (Err msgr_ErrReceiveBudgetExceeded, h') /\ leases h' !! p = Some l)).
Proof.
  intros Hh Hp Hpool Hn Hres. unfold reserve_bytes, mbind, rm_bind, attempt.
  assert (forall h0, heap_ok h0 -> leases h0 !! p = Some l -> pool_ok h0 p s ->
    exists h', rtc atomic h0 h' /\ heap_ok h' /\ pool_ok h' p s /\
    ((resize (Some p) n h0 = (Ok tt, h') /\ leases h' !! p =
        Some (mkLease (l_budget l) (n + l_extra l) (l_controlBytes l) (l_extra l) (l_backing l) (l_scratch l))) \/
     (resize (Some p) n h0 = (Err msgr_ErrReceiveBudgetExceeded, h') /\ h' = h0 /\ leases h' !! p = Some l))) as HR.
  { intros h0 Hh0 Hp0 Hpool0. destruct (resize_run h0 p l n Hh0 Hp0 Hn Hres) as [(h' & E & HA & Hh' & El & Es & _)|E].
    - exists h'. split_and!; [by apply rtc_once|done|unfold pool_ok; by rewrite Es|]. left. split; [done|]. rewrite El.
      apply list_lookup_insert_eq. by eapply lookup_lt_Some.
    - exists h0. split_and!; [apply rtc_refl|done|done|]. by right. }
  destruct (HR h Hh Hp Hpool) as (h1 & R1 & Hh1 & P1 & [[E1 L1]|(E1 & -> & L1)]); rewrite E1.
  { exists h1. split_and!; [done..|]. by left. }
  destruct s as [s|]; [|exists h; split_and!; [done..|]; by right].
  destruct (Hpool s eq_refl) as (S & HS & Hni). destruct (dropIdle_run h s S Hh HS) as (h2 & E2 & R2 & Hh2 & S2 & Hq).
  rewrite E2. assert (pool_ok h2 p (Some s)) as P2.
  { intros q [= <-]. eexists. split; [exact S2|]. apply not_elem_of_nil. }
  destruct (HR h2 Hh2) as (h3 & R3 & Hh3 & P3 & [[E3 L3]|(E3 & -> & L3)]); [by rewrite Hq|done|..]; rewrite E3.
  - exists h3. split_and!; [by etransitivity|done..|]. by left.
  - exists h2. split_and!; [done..|]. by right.
Qed.

Lemma wpe_reserve_bytes n r l (Q : unit -> budgetReader -> Prop) (E : budgetReader -> Prop) : charged r l -> 0 <= n ->
  (forall q, l_scratch l = Some q -> cap (l_backing l) <= n + l_extra l) ->
  (forall r', tracks r r' ->
     charged r' (mkLease (l_budget l) (n + l_extra l) (l_controlBytes l) (l_extra l) (l_backing l) (l_scratch l)) -> Q tt r') ->
  (forall r', tracks r r' -> charged r' l -> E r') -> wpe (reserveReceiveBytes n) r Q E.
Proof.
  intros (Hh & Hp & Hpool) Hn Hres HQ HE. unfold wpe. cbn. unfold on_heap.
  destruct (reserve_bytes_run _ _ _ _ n Hh Hp Hpool Hn Hres) as (h' & R & Hh' & P & [[-> L]|[-> L]]).
  - apply HQ; [by split_and!|done].
  - apply HE; [by split_and!|done].
Qed.

Lemma wpe_reserve_prelude r l (Q : unit -> budgetReader -> Prop) (E : budgetReader -> Prop) : charged r l ->
  l_controlBytes l = 0 ->
  (forall r', tracks r r' -> charged r' (mkLease (l_budget l) (l_bytes l) securePreamble (l_extra l) (l_backing l) (l_scratch l)) -> Q tt r') ->
  E r -> wpe reserveReceivePrelude r Q E.
Proof.
  intros (Hh & Hp & Hpool) H0 HQ HE. unfold wpe. cbn. unfold on_heap.
  pose proof (reserve_prelude_eq _ _ _ Hh Hp) as H. destruct (reserve_prelude _ _) as [[[]|e|] h'] eqn:E1; [|by destruct H as [_ ->]; destruct r|done].
  assert (atomic (rd_heap r) h') as HA by (by eapply A_prelude).
  apply HQ; [split_and!; [by apply rtc_once|done..]|]. destruct H as (B & HB & _ & ->).
  split_and!; [by eapply atomic_preserves| |exact Hpool]. cbn. apply list_lookup_insert_eq. by eapply lookup_lt_Some.
Qed.

Lemma wpe_release_prelude r l (Q : unit -> budgetReader -> Prop) E : charged r l ->
  (forall r', tracks r r' -> charged r' (mkLease (l_budget l) (l_bytes l) 0 (l_extra l) (l_backing l) (l_scratch l)) -> Q tt r') ->
  wpe releaseReceivePrelude r Q E.
Proof.
  intros (Hh & Hp & Hpool) HQ. unfold wpe. cbn [releaseReceivePrelude budget_reader]. unfold on_heap.
  destruct (releaseControl_eq _ _ _ Hh Hp) as (B & HB & E1). rewrite E1.
  assert (atomic (rd_heap r) (snd (releaseControl (Some (rd_lease r)) (rd_heap r)))) as HA.
  { eapply A_releaseControl. by rewrite E1. }
  rewrite E1 in HA. cbn [snd] in HA. apply HQ; [split_and!; [by apply rtc_once|done..]|].
  split_and!; [by eapply atomic_preserves| |exact Hpool]. cbn. apply list_lookup_insert_eq. by eapply lookup_lt_Some.
Qed.

(** *** CRC mode *)

Definition desc_sum (ds : list segmentDescriptor) : Z := foldr (fun d n => sd_length d + n) 0 ds.

Lemma sum_lengths_eq ds : Forall desc_typed ds -> (length ds <= 4)%nat ->
  sum_lengths ds = desc_sum ds /\ 0 <= desc_sum ds.
Proof.
  intros Ht Hl. unfold sum_lengths.
  assert (forall l, Forall desc_typed l -> 0 <= desc_sum l <= Z.of_nat (length l) * 2 ^ 32) as Hb.
  { clear. induction 1 as [|d l [[? ?] _] _ IH]; cbn [desc_sum foldr length]; [lia|]. fold (desc_sum l). lia. }
  assert (forall l acc, Forall desc_typed l -> 0 <= acc -> acc + desc_sum l < 2 ^ 64 ->
    foldl (fun sum d => u64 (sum + sd_length d)) acc l = acc + desc_sum l) as Hf.
  { clear -Hb. intros l acc Hl. revert acc. induction Hl as [|d l Hd Hl IH]; intros acc Ha Hs; cbn [foldl].
    - cbn. lia.
    - pose proof (Hb l Hl). destruct Hd as [[? ?] _]. cbn [desc_sum foldr] in *. fold (desc_sum l) in *.
      rewrite wrapU_id by (unfold inU; lia). rewrite IH by lia. lia. }
  pose proof (Hb ds Ht). split; [rewrite Hf; lia || done|lia].
Qed.

Lemma read_segments_quiet codec index ds r : Forall desc_typed ds ->
  wpe (read_segments codec index ds) r
    (fun segs r' => (exists s, r' = with_in s r) /\ payload_bytes (mkFrame 0 segs) = desc_sum ds)
    (fun r' => exists s, r' = with_in s r).
Proof.
  revert index r. induction ds as [|d ds IH]; intros index r Ht; cbn [read_segments].
  { apply wpe_ret. split; [|done]. exists (rd_in r). by destruct r. }
  apply Forall_cons in Ht as [[[Hd _] _] Ht]. apply wpe_bind, wpe_read; [done| |eauto]. intros data s Hlen.
  apply wpe_bind. eapply wpe_mono with (Q := fun _ r' => exists s, r' = with_in s r) (E := fun r' => exists s, r' = with_in s r);
    [|intros _ r1 [s1 ->]|done].
  - destruct (_ && _); [|apply wpe_ret; eauto]. apply wpe_bind, wpe_read; [done| |eauto]. intros c0 s' _.
    destruct (_ && _); [apply wpe_throw|apply wpe_ret]; eauto.
  - apply wpe_bind. eapply wpe_mono; [by apply IH| |by intros r' [s' ->]; exists s'].
    intros segs r' [[s' ->] Hsum]. apply wpe_ret. split; [by exists s'|].
    unfold payload_bytes in *. cbn [Segments foldr desc_sum Data] in *. rewrite Hsum, Hlen. done.
Qed.

#[export] Instance crc_codec_accounts codec : BudgetedCodec (CRCCodec_Read codec).
Proof.
  intros limits r b Hr. change (wpe (CRCCodec_Read codec limits) r
    (fun f r' => tracks r r' /\ exists l, charged r' l /\ l_budget l = b /\ payload_bytes f <= l_bytes l + l_controlBytes l)
    (fun r' => tracks r r' /\ exists l, charged r' l /\ l_budget l = b)).
  assert (forall s, tracks r (with_in s r) /\ exists l, charged (with_in s r) l /\ l_budget l = b) as Hq.
  { intros s. split; [apply tracks_in|]. by eexists. }
  unfold CRCCodec_Read. apply wpe_bind, wpe_read; [done| |done]. intros P s1 HP.
  apply wpe_bind, wpe_lift; [apply decodePreamble_no_panic| |done]. intros [tag ds] HD.
  apply decodePreamble_ok in HD as [_ (_ & Hl & Ht & _)]; [|unfold len, PreambleSize in HP; lia].
  apply wpe_bind, wpe_lift; [apply read_total_no_panic| |done]. intros total _. cbv zeta.
  destruct (_ || _); [by apply wpe_throw|]. destruct (sum_lengths_eq ds Ht ltac:(lia)) as [-> H0].
  set (small := _ && _ && _).
  assert (forall r2 l2, tracks r r2 -> charged r2 l2 -> l_budget l2 = b -> desc_sum ds <= l_bytes l2 + l_controlBytes l2 ->
    wpe (segments ← read_segments codec 0 ds;
         _ ← (if 1 <? len ds then epilogue ← wrap msgr_ErrMalformed (ReadFull 13);
              lift (check_epilogue codec epilogue segments) else mret tt);
         mret (mkFrame tag segments)) r2
      (fun f r' => tracks r r' /\ exists l, charged r' l /\ l_budget l = b /\ payload_bytes f <= l_bytes l + l_controlBytes l)
      (fun r' => tracks r r' /\ exists l, charged r' l /\ l_budget l = b)) as Hbody.
  { intros r2 l2 T2 C2 B2 S2.
    assert (forall s, tracks r (with_in s r2) /\ exists l, charged (with_in s r2) l /\ l_budget l = b) as Hq2.
    { intros s. split; [eapply tracks_trans; [exact T2|apply tracks_in]|]. by exists l2. }
    apply wpe_bind. eapply wpe_mono; [by apply read_segments_quiet| |by intros r' [s ->]].
    intros segs r3 [[s3 ->] Hsum]. apply wpe_bind.
    eapply wpe_mono with (Q := fun _ r' => exists s, r' = with_in s r2) (E := fun r' => exists s, r' = with_in s r2);
      [|intros _ r4 [s4 ->]|by intros r' [s ->]].
    - destruct (1 <? len ds); [|apply wpe_ret; by exists s3]. apply wpe_bind, wpe_read; [done| |by intros s; exists s].
      intros ep s _. apply wpe_lift; [apply check_epilogue_no_panic| |by exists s]. intros _ _. by exists s.
    - apply wpe_ret. destruct (Hq2 s4) as [T4 _]. split; [done|]. exists l2. split_and!; [done..|].
      unfold payload_bytes in *. cbn [Segments] in *. lia. }
  apply wpe_bind. destruct small eqn:Hsmall; subst small.
  - apply wpe_reserve_prelude with (l := mkLease b 0 0 0 None None); [done|done| |apply Hq].
    intros r1 T1 C1. apply wpe_bind. eapply wpe_reserve_bytes; [exact C1|done|done| |].
    + intros r2 T2 C2. eapply Hbody; [eapply tracks_trans; [|eassumption]; eapply tracks_trans; [apply tracks_in|eassumption]|exact C2|done|].
      bsplit. cbn. lia.
    + intros r2 T2 C2. split; [eapply tracks_trans; [|eassumption]; eapply tracks_trans; [apply tracks_in|eassumption]|]. by eexists.
  - apply wpe_ret, wpe_bind. eapply wpe_reserve_bytes with (l := mkLease b 0 0 0 None None); [done|done|done| |].
    + intros r2 T2 C2. eapply Hbody; [eapply tracks_trans; [apply tracks_in|eassumption]|exact C2|done|]. cbn. lia.
    + intros r2 T2 C2. split; [eapply tracks_trans; [apply tracks_in|eassumption]|]. by eexists.
Qed.

(** ** The transport (transport.go) *)

Definition min_limits (limits own : FrameLimits) : FrameLimits :=
  mkFrameLimits (Z.min (MaxSegmentBytes limits) (MaxSegmentBytes own))
    (Z.min (MaxFrameBytes limits) (MaxFrameBytes own)) (MaxAddresses limits) (MaxAuthBytes limits).

(** [connTransport.ReadFrameWithBudget] with one of the two codecs of the
    package, on a transport that is open: [secure] tells which one, and the
    stream is what is left of the connection. *)
Definition ReadFrameWithBudget (read : FrameLimits -> RM budgetReader Frame) (secure : bool)
    (budget scratch : nat) (limits own : FrameLimits) (stream : bytes) (h : heap)
    : res (Frame * nat) * bytes * heap :=
  let '(_, h) := new_lease (mkLease budget 0 0 0 None None) h in
  let lease := pred (length (leases h)) in
  let reader := mkReader stream h lease secure (if secure then Some scratch else None) in
  match read (min_limits limits own) reader with
  | (Ok frame, reader) => (Ok (frame, lease), rd_in reader, rd_heap reader)
  | (Err e, reader) => (Err e, rd_in reader, snd (reclaim (Some lease) (rd_heap reader)))
  | (Panic, reader) => (Panic, rd_in reader, rd_heap reader)
  end.

Definition validate_sizes (limits : FrameLimits) (segment : Segment) (bytes : Z) : res Z :=
  let length := len (Data segment) in
  if negb (validAlignment (Alignment segment)) then Err msgr_ErrMalformed
  else if (MaxSegmentBytes limits <? length) || (MaxFrameBytes limits <? bytes)
          || (MaxFrameBytes limits - bytes <? length) then Err msgr_ErrLimitExceeded
  else Ok (bytes + length).

Definition validateReceiveFrame (frame : Frame) (limits : FrameLimits) : res unit :=
  if negb (validTag (Tag frame)) || (len (Segments frame) <? 1) || (MaxSegments <? len (Segments frame))
  then Err msgr_ErrMalformed
  else
    let bytes := PreambleSize in
    first ← Prelude.index (Segments frame) 0;
    let bytes := if 0 <? len (Data first) then bytes + 4 else bytes in
    let bytes := if 1 <? len (Segments frame) then bytes + 13 else bytes in
    _ ← fold_res (validate_sizes limits) (Segments frame) bytes;
    Ok tt.

(** [detachReceiveFrame]: the frame gets buffers of its own and, with a budget,
    a lease for them. *)
Definition detachReceiveFrame (frame : Frame) (budget : option nat) (limits : FrameLimits)
    : HM (Frame * option nat) :=
  _ ← lift (validateReceiveFrame frame limits);
  match budget with
  | None => mret (frame, None)
  | Some budget =>
      lease ← new_lease (mkLease budget 0 0 0 None None);
      _ ← resize (Some lease) (u64 (payload_bytes frame));
      mret (frame, Some lease)
  end.

Lemma fresh_lease h b : heap_ok h -> (b < length (budgets h))%nat ->
  atomic h (snd (new_lease (mkLease b 0 0 0 None None) h)) /\
  heap_ok (snd (new_lease (mkLease b 0 0 0 None None) h)).
Proof.
  intros Hh Hb. assert (atomic h (snd (new_lease (mkLease b 0 0 0 None None) h))) as HA by (by apply A_lease).
  split; [done|]. by eapply atomic_preserves.
Qed.

Lemma ReadFrameWithBudget_run (read : FrameLimits -> RM budgetReader Frame) `{BudgetedCodec read}
    secure budget scratch limits own stream h x stream' h' :
  heap_ok h -> (budget < length (budgets h))%nat -> (scratch < length (scratches h))%nat ->
  ReadFrameWithBudget read secure budget scratch limits own stream h = (x, stream', h') ->
  rtc atomic h h' /\ heap_ok h' /\
  match x with
  | Ok (f, lease) => exists l, leases h' !! lease = Some l /\ l_budget l = budget /\
      payload_bytes f <= l_bytes l + l_controlBytes l
  | Err _ => exists l, leases h' !! length (leases h) = Some l /\ l_bytes l = 0 /\ l_controlBytes l = 0 /\ l_backing l = None
  | Panic => False
  end.
Proof.
  intros Hh Hb Hs E. unfold ReadFrameWithBudget in E. destruct (fresh_lease h budget Hh Hb) as [HA Hh1].
  destruct (new_lease _ h) as [p h1] eqn:En. cbn [snd] in HA, Hh1. unfold new_lease in En. injection En as <- <-.
  cbn [leases] in E. rewrite length_app in E. cbn [length] in E. replace (pred (length (leases h) + 1)) with (length (leases h)) in E by lia.
  set (h1 := mkHeap _ _ _ _) in *. set (r := mkReader _ _ _ _ _) in E.
  assert (charged r (mkLease budget 0 0 0 None None)) as Hc.
  { split_and!; [done|cbn; by rewrite list_lookup_middle|]. intros s Es. cbn in Es. destruct secure; [|done].
    injection Es as <-. destruct (lookup_lt_is_Some_2 _ _ Hs) as [S HS]. exists S. split; [done|].
    destruct (scratch_at_ok _ _ _ Hh HS) as [HF _]. rewrite Forall_forall in HF. intros Hin. specialize (HF _ Hin). cbn in HF. lia. }
  pose proof (codec_accounts (min_limits limits own) r budget Hc) as H0.
  destruct (read _ r) as [[f|e|] r']; [| |done].
  - destruct H0 as ((HR & El & _) & l & (Hh' & Hl & _) & Hlb & Hpay). injection E as <- <- <-.
    split_and!; [by eapply rtc_l|done|]. exists l. rewrite El in Hl. done.
  - destruct H0 as ((HR & El & _) & l & (Hh' & Hl & _) & _). rewrite El in Hl. cbn [rd_lease r] in Hl.
    destruct (reclaim_run _ _ _ Hh' Hl) as (h2 & l2 & E2 & HR2 & Hh2 & Hl2 & ? & ? & ?).
    rewrite E2 in E. cbn [snd] in E. injection E as <- <- <-.
    split_and!; [eapply rtc_l; [exact HA|by etransitivity]|done|]. by exists l2.
Qed.

(** ** Properties *)




Definition sample_heap : heap := mkHeap [mkBudget 1 4096 0 0 0 4 false 0 0 0] [] [mkScratch [] false] 0.

Lemma sample_heap_ok : heap_ok sample_heap.
Proof.
  apply (atomics_preserve empty_heap); [apply empty_heap_ok|].
  pose (B := mkBudget 1 4096 0 0 0 4 false 0 0 0). apply rtc_l with (mkHeap [B] [] [] 0).
  - apply (A_budget empty_heap 1 4096 B); [vm_compute; reflexivity|unfold MaxUint64; lia|lia].
  - exact (rtc_once _ _ (A_scratch (mkHeap [B] [] [] 0))).
Qed.



