(* ===== verification/Aead.v ===== *)
(** * Authenticated encryption (what secure.go uses of crypto/aes and crypto/cipher)

    [AEAD] is the interface [cipher.AEAD] as the secure codec uses it: a
    12-byte nonce, no additional data, a 16-byte tag.  [aes_gcm] is the
    implementation behind it, AES in Galois/counter mode, with its laws proved;
    the theorems about the secure codec need only the interface. *)

From stdpp Require Import base gmap list numbers.
From coqutil Require Import Byte Word.LittleEndianList.
From S2P Require Import Prelude.
From stdpp Require Import list.

Open Scope Z_scope.
Open Scope go_scope.

Definition gcmTagSize : Z := 16.

(** [crypto/cipher]'s limit on one message: 2^32 - 2 blocks. *)
Definition gcmMaxPlaintext : Z := (2 ^ 32 - 2) * 16.

(** [aead_key] is the state behind a [cipher.AEAD]; [NewGCM] is
    [aes.NewCipher] followed by [cipher.NewGCM].  [Seal] panics on a message
    that is too large; [Open] gives the plaintext or fails. *)
Class AEAD := {
  aead_key : Type;
  NewGCM : bytes -> res aead_key;
  Seal : aead_key -> bytes -> bytes -> res bytes;
  Open : aead_key -> bytes -> bytes -> option bytes;
  NewGCM_ok key : length key = 16%nat -> exists k, NewGCM key = Ok k;
  NewGCM_no_panic key : NewGCM key <> Panic;
  Seal_total k n p : len p <= gcmMaxPlaintext -> exists c, Seal k n p = Ok c;
  Seal_len k n p c : Seal k n p = Ok c -> len c = len p + gcmTagSize;
  Open_iff k n c p : Open k n c = Some p <-> Seal k n p = Ok c }.

(** ** AES (FIPS 197) *)

(** Multiplication in GF(2^8) modulo x^8 + x^4 + x^3 + x + 1. *)
Definition xtime (a : Z) : Z :=
  let b := Z.shiftl a 1 in if Z.testbit b 8 then Z.lxor b 0x11b else b.

Fixpoint gf8_mul (fuel : nat) (a b : Z) : Z :=
  match fuel with
  | O => 0
  | S fuel => Z.lxor (if Z.odd b then a else 0) (gf8_mul fuel (xtime a) (Z.shiftr b 1))
  end.

Definition gmul : Z -> Z -> Z := gf8_mul 8.

(** a^254, the inverse of a or 0. *)
Definition gf8_inv (a : Z) : Z := let r := Nat.iter 6 (fun r => gmul (gmul r r) a) a in gmul r r.

Definition rotl8 (a k : Z) : Z := Z.lor (Z.land (Z.shiftl a k) 0xff) (Z.shiftr a (8 - k)).

Definition sub_byte (a : Z) : Z :=
  let b := gf8_inv a in
  Z.lxor (Z.lxor (Z.lxor (Z.lxor (Z.lxor b (rotl8 b 1)) (rotl8 b 2)) (rotl8 b 3)) (rotl8 b 4)) 0x63.

Definition sbox_table : list Z := Eval vm_compute in sub_byte <$> seqZ 0 256.
Definition sbox (a : Z) : Z := nth (Z.to_nat a) sbox_table 0.

(** Words are lists of four bytes; [rcon] is the round constant. *)
Definition xor_list (a b : list Z) : list Z := zip_with Z.lxor a b.

Definition rcon (i : nat) : Z := Nat.iter i xtime 1.

Definition next_word (nk : nat) (words : list (list Z)) : list Z :=
  let i := length words in
  let temp := List.last words [] in
  let temp :=
    if (i mod nk =? 0)%nat then
      let rotated := sbox <$> (drop 1 temp ++ take 1 temp) in
      xor_list rotated [rcon (i / nk - 1); 0; 0; 0]
    else if (6 <? nk)%nat && (i mod nk =? 4)%nat then sbox <$> temp
    else temp in
  xor_list (nth (i - nk) words []) temp.

Fixpoint chunks {A} (fuel n : nat) (l : list A) : list (list A) :=
  match fuel, l with
  | O, _ | _, [] => []
  | S fuel, _ => take n l :: chunks fuel n (drop n l)
  end.

(** The round keys of 16 bytes each. *)
Definition key_expansion (key : list Z) : list (list Z) :=
  let nk := (length key / 4)%nat in
  let words := Nat.iter (4 * (nk + 7) - nk) (fun ws => ws ++ [next_word nk ws]) (chunks nk 4 key) in
  (fun ws => concat ws) <$> chunks (nk + 7) 4 words.

Definition shift_rows (s : list Z) : list Z :=
  (fun i => nth (i mod 4 + 4 * ((i / 4 + i mod 4) mod 4))%nat s 0) <$> seq 0 16.

Definition mix_column (c : list Z) : list Z :=
  (fun i => Z.lxor (Z.lxor (gmul (nth i c 0) 2) (gmul (nth ((i + 1) mod 4)%nat c 0) 3))
              (Z.lxor (nth ((i + 2) mod 4)%nat c 0) (nth ((i + 3) mod 4)%nat c 0))) <$> seq 0 4.

Definition mix_columns (s : list Z) : list Z := concat (mix_column <$> chunks 4 4 s).

Fixpoint rounds (s : list Z) (keys : list (list Z)) : list Z :=
  match keys with
  | [] => s
  | [k] => xor_list (shift_rows (sbox <$> s)) k
  | k :: keys => rounds (xor_list (mix_columns (shift_rows (sbox <$> s))) k) keys
  end.

Definition aes_encrypt (keys : list (list Z)) (block : list Z) : list Z :=
  match keys with
  | [] => block
  | k :: keys => rounds (xor_list block k) keys
  end.

(** ** Galois/counter mode (NIST SP 800-38D), 12-byte nonces, no additional data *)

Definition be_combine (l : list Z) : Z := foldl (fun acc b => acc * 256 + b) 0 l.
Definition be_split (n : nat) (z : Z) : list Z := rev (byte.unsigned <$> le_split n z).

Fixpoint gf128_mul (fuel : nat) (x v : Z) : Z :=
  match fuel with
  | O => 0
  | S fuel =>
      Z.lxor (if Z.testbit x (Z.of_nat fuel) then v else 0)
        (gf128_mul fuel x (if Z.odd v then Z.lxor (Z.shiftr v 1) (Z.shiftl 0xe1 120) else Z.shiftr v 1))
  end.

Definition ghash (h : Z) (blocks : list Z) : Z :=
  foldl (fun y b => gf128_mul 128 (Z.lxor y b) h) 0 blocks.

(** A block, the last one filled with zeros. *)
Definition block_value (b : list Z) : Z := be_combine (b ++ replicate (16 - length b) 0).

Definition counter_block (nonce : list Z) (i : Z) : list Z := nonce ++ be_split 4 i.

(** Exclusive or with the key stream; used in both directions. *)
Definition xor_byte (b : Byte.byte) (k : Z) : Byte.byte := byte.of_Z (Z.lxor (byte.unsigned b) k).

Definition key_stream (keys : list (list Z)) (nonce : list Z) (i : Z) : list Z :=
  resize 16 0 (aes_encrypt keys (counter_block nonce i)).

Fixpoint gctr (keys : list (list Z)) (nonce : list Z) (i : Z) (fuel : nat) (data : bytes) : bytes :=
  match fuel with
  | O => data
  | S fuel =>
      match data with
      | [] => []
      | _ => zip_with xor_byte (take 16 data) (key_stream keys nonce i)
             ++ gctr keys nonce (u32 (i + 1)) fuel (drop 16 data)
      end
  end.

Definition gcm_tag (keys : list (list Z)) (nonce cipher : list Z) : list Z :=
  let h := be_combine (aes_encrypt keys (replicate 16 0)) in
  let blocks := (block_value <$> chunks (length cipher) 16 cipher) ++ [8 * len cipher] in
  be_split 16 (Z.lxor (ghash h blocks) (be_combine (aes_encrypt keys (counter_block nonce 1)))).

Definition to_Zs (b : bytes) : list Z := byte.unsigned <$> b.
Definition of_Zs (l : list Z) : bytes := byte.of_Z <$> l.

Definition gcm_crypt (keys : list (list Z)) (nonce data : bytes) : bytes :=
  gctr keys (to_Zs nonce) 2 (length data) data.

Definition gcm_authenticate (keys : list (list Z)) (nonce cipher : bytes) : bytes :=
  of_Zs (gcm_tag keys (to_Zs nonce) (to_Zs cipher)).

Definition gcm_new (key : bytes) : res (list (list Z)) :=
  if existsb (Z.eqb (len key)) [16; 24; 32] then Ok (key_expansion (to_Zs key)) else Err aes_KeySizeError.

Definition gcm_seal (keys : list (list Z)) (nonce plaintext : bytes) : res bytes :=
  if gcmMaxPlaintext <? len plaintext then Panic
  else
    let cipher := gcm_crypt keys nonce plaintext in
    Ok (cipher ++ gcm_authenticate keys nonce cipher).

Definition gcm_open (keys : list (list Z)) (nonce ciphertext : bytes) : option bytes :=
  if (len ciphertext <? gcmTagSize) || (gcmMaxPlaintext + gcmTagSize <? len ciphertext) then None
  else
    let n := (length ciphertext - Z.to_nat gcmTagSize)%nat in
    let cipher := take n ciphertext in
    if bool_decide (drop n ciphertext = gcm_authenticate keys nonce cipher)
    then Some (gcm_crypt keys nonce cipher) else None.

(** Test case 2 of the GCM specification: zero key, nonce and block. *)
Example gcm_test_vector :
  (keys ← gcm_new (zeros 16); gcm_seal keys (zeros 12) (zeros 16))
  = Ok (of_Zs (be_split 32 0x0388dace60b6a392f328c2b971b2fe78ab6e47d42cec13bdf53a67b21257bddf)).
Proof. vm_compute. reflexivity. Qed.

(** A block and a half under a 32-byte key (test case 16 without its additional
    data has the same cipher text). *)
Example gcm_test_aes256 :
  let key := of_Zs (be_split 32 0xfeffe9928665731c6d6a8f9467308308feffe9928665731c6d6a8f9467308308) in
  let nonce := of_Zs (be_split 12 0xcafebabefacedbaddecaf888) in
  (keys ← gcm_new key; c ← gcm_seal keys nonce (of_Zs (be_split 24 0xd9313225f88406e5a55909c5aff5269a86a7a9531534f7da));
   Ok (take 24 c, gcm_open keys nonce c))
  = Ok (of_Zs (be_split 24 0x522dc1f099567d07f47f37a32a84427d643a8cdcbfe5c0c9),
        Some (of_Zs (be_split 24 0xd9313225f88406e5a55909c5aff5269a86a7a9531534f7da))).
Proof. vm_compute. reflexivity. Qed.

(** ** The laws *)

Lemma xor_byte_twice b k : xor_byte (xor_byte b k) k = b.
Proof.
  unfold xor_byte. rewrite byte.unsigned_of_Z. unfold byte.wrap.
  rewrite <- (byte.of_Z_unsigned b) at 2. rewrite <- (byte.of_Z_unsigned (byte.of_Z _)). f_equal.
  rewrite byte.unsigned_of_Z. unfold byte.wrap. apply Z.bits_inj'. intros i Hi.
  change (2 ^ 8) with (2 ^ 8). destruct (Z.lt_ge_cases i 8).
  - rewrite Z.mod_pow2_bits_low, Z.lxor_spec, Z.mod_pow2_bits_low, Z.lxor_spec by lia.
    by destruct (Z.testbit (byte.unsigned b) i), (Z.testbit k i).
  - rewrite Z.mod_pow2_bits_high by lia. symmetry. apply (inU_testbit 8); [apply byte_inU|lia].
Qed.

Lemma length_key_stream keys nonce i : length (key_stream keys nonce i) = 16%nat.
Proof. apply length_resize. Qed.

Lemma zip_xor_twice d ks : (length d <= length ks)%nat -> zip_with xor_byte (zip_with xor_byte d ks) ks = d.
Proof.
  revert ks. induction d as [|b d IH]; intros [|k ks] H; cbn in *; [done..|lia|].
  by rewrite xor_byte_twice, IH by lia.
Qed.

Lemma length_gctr keys nonce i fuel data : length (gctr keys nonce i fuel data) = length data.
Proof.
  revert i data. induction fuel as [|fuel IH]; intros i data; [done|]. cbn [gctr].
  destruct data as [|b data]; [done|]. rewrite length_app, length_zip_with, IH, length_key_stream.
  autorewrite with golen. lia.
Qed.

Lemma gctr_twice keys nonce i fuel data :
  gctr keys nonce i fuel (gctr keys nonce i fuel data) = data.
Proof.
  revert i data. induction fuel as [|fuel IH]; intros i data; [done|]. cbn [gctr].
  destruct data as [|b data]; [done|]. set (d := b :: data).
  set (x := zip_with xor_byte (take 16 d) (key_stream keys nonce i)).
  assert (length x = Nat.min 16 (length d)) as Hx.
  { unfold x. rewrite length_zip_with, length_key_stream, length_take. lia. }
  destruct (x ++ _) as [|b' y] eqn:E.
  { apply (f_equal length) in E. rewrite length_app, Hx in E. cbn in E. lia. }
  rewrite <- E. clear E b' y. destruct (decide (length d <= 16)%nat) as [Hd|Hd].
  - rewrite (drop_ge d) by lia. assert (forall g, gctr keys nonce g fuel [] = []) as Hnil by (intros; by destruct fuel).
    rewrite Hnil, app_nil_r, (take_ge x), (drop_ge x), Hnil, app_nil_r by lia. unfold x.
    rewrite zip_xor_twice, take_ge; [done|lia|]. rewrite length_take, length_key_stream. lia.
  - rewrite take_app_length', drop_app_length', IH by lia. unfold x.
    rewrite zip_xor_twice; [apply take_drop|]. rewrite length_take, length_key_stream. lia.
Qed.

Lemma length_gcm_crypt keys nonce data : length (gcm_crypt keys nonce data) = length data.
Proof. apply length_gctr. Qed.

Lemma gcm_crypt_twice keys nonce data : gcm_crypt keys nonce (gcm_crypt keys nonce data) = data.
Proof. unfold gcm_crypt. rewrite length_gctr. apply gctr_twice. Qed.

Lemma length_gcm_authenticate keys nonce c : length (gcm_authenticate keys nonce c) = 16%nat.
Proof.
  unfold gcm_authenticate, of_Zs, gcm_tag, be_split.
  by rewrite length_fmap, length_rev, length_fmap, length_le_split.
Qed.

Lemma gcm_open_iff keys nonce c p : gcm_open keys nonce c = Some p <-> gcm_seal keys nonce p = Ok c.
Proof.
  unfold gcm_open, gcm_seal. change (Z.to_nat gcmTagSize) with 16%nat. unfold gcmTagSize, len. split.
  - destruct (_ || _) eqn:E; [done|]. bsplit. case_bool_decide as Ht; [|done]. intros [= <-].
    apply Z.ltb_ge in H, H0. rewrite length_gcm_crypt, length_take, gcm_crypt_twice, <- Ht.
    destruct (Z.ltb_spec gcmMaxPlaintext (Z.of_nat (Nat.min (length c - 16) (length c)))); [lia|].
    f_equal. apply take_drop.
  - destruct (Z.ltb_spec gcmMaxPlaintext (Z.of_nat (length p))) as [|H]; [done|]. intros [= <-].
    rewrite length_app, length_gcm_crypt, length_gcm_authenticate, Nat.add_sub.
    destruct (Z.ltb_spec (Z.of_nat (length p + 16)) 16); [lia|].
    destruct (Z.ltb_spec (gcmMaxPlaintext + 16) (Z.of_nat (length p + 16))); [lia|]. cbn [orb].
    rewrite take_app_length', drop_app_length' by (by rewrite length_gcm_crypt).
    by rewrite bool_decide_eq_true_2, gcm_crypt_twice.
Qed.

#[export] Program Instance aes_gcm : AEAD := {|
  aead_key := list (list Z);
  NewGCM := gcm_new;
  Seal := gcm_seal;
  Open := gcm_open;
  Open_iff := gcm_open_iff |}.
Next Obligation. intros key H. unfold gcm_new, len. rewrite H. by eexists. Qed.
Next Obligation. intros key. unfold gcm_new. by destruct (existsb _ _). Qed.
Next Obligation.
  intros k n p H. unfold gcm_seal. destruct (Z.ltb_spec gcmMaxPlaintext (len p)); [lia|]. by eexists.
Qed.
Next Obligation.
  intros k n p c. unfold gcm_seal. destruct (gcmMaxPlaintext <? len p); [done|]. intros [= <-].
  unfold len, gcmTagSize. rewrite length_app, length_gcm_crypt, length_gcm_authenticate. lia.
Qed.
