(* ===== verification/Secure.v ===== *)
(** * Secure frames (src/internal/msgr/secure.go)

    The msgr2.1 frames in secure mode: up to three records, each sealed under
    the next nonce of its direction.  A [secureDirection] changes with every
    record, also with one that fails to open, so that the operations are state
    transformers on it; reading acts on the reader and on the direction.  The
    cipher is any [AEAD].

    The theorems: nonces never repeat; what [Encode] writes depends neither on
    the buffer it reuses nor on a payload that is already laid out for sealing;
    a frame is read back; and against an attacker who owns the network, the
    frames delivered are a prefix of the frames sent, unless a record was
    forged. *)

From stdpp Require Import base gmap list numbers relations.
From coqutil Require Import Byte Word.LittleEndianList.
From S2P Require Import Prelude Codec Crc MsgrFrame MsgrMessage Aead.
From stdpp Require Import list.

Open Scope Z_scope.
Open Scope go_scope.

Definition secureSecretSize : Z := 64.
Definition secureKeySize : Z := 16.
Definition secureBlockSize : Z := 16.

Definition paddedSecureLength (length : Z) : Z :=
  Z.ldiff (u64 (length + secureBlockSize - 1)) (secureBlockSize - 1).

Definition allZero (data : bytes) : bool := forallb (fun value => bool_decide (value = Byte.x00)) data.

Section secure.
Context {AE : AEAD}.

Record secureDirection := mkDirection {
  aead : aead_key;
  fixed : Z;
  counter : Z;
  exhausted : bool }.

Record SecureCodec := mkSecureCodec { tx : secureDirection; rx : secureDirection }.

Definition newSecureDirection (key seed : bytes) : res secureDirection :=
  aead ← NewGCM key;
  Ok (mkDirection aead (le_combine (slice 0 4 seed)) (le_combine (slice 4 12 seed)) false).

Definition NewSecureCodec (secret : bytes) (server : bool) : res SecureCodec :=
  if negb (len secret =? secureSecretSize) then Err msgr_ErrInvalidSecret
  else
    let clientRX := slice 16 28 secret in
    let clientTX := slice 28 40 secret in
    let '(rxSeed, txSeed) := if server then (clientTX, clientRX) else (clientRX, clientTX) in
    tx ← newSecureDirection (slice 0 secureKeySize secret) txSeed;
    rx ← newSecureDirection (slice 0 secureKeySize secret) rxSeed;
    Ok (mkSecureCodec tx rx).

(** ** One direction *)

Definition availableLocked (d : secureDirection) (count : Z) : bool :=
  if count =? 0 then true else negb (exhausted d) && (count - 1 <=? MaxUint64 - counter d).

Definition nonce_of (fixed counter : Z) : bytes := le_split 4 fixed ++ le_split 8 counter.

Definition nonceLocked : RM secureDirection bytes := fun d =>
  if negb (availableLocked d 1) then (Err msgr_ErrCounterExhausted, d)
  else
    (Ok (nonce_of (fixed d) (counter d)),
     if counter d =? MaxUint64 then mkDirection (aead d) (fixed d) (counter d) true
     else mkDirection (aead d) (fixed d) (counter d + 1) (exhausted d)).

Definition sealLocked (plaintext : bytes) : RM secureDirection bytes := fun d =>
  (nonce ← nonceLocked; lift (Seal (aead d) nonce plaintext)) d.

Definition openLocked (ciphertext : bytes) : RM secureDirection bytes := fun d =>
  (nonce ← nonceLocked;
   match Open (aead d) nonce ciphertext with
   | Some plaintext => mret plaintext
   | None => throw msgr_ErrIntegrity
   end) d.

(** ** Sizes *)

(** The loop over the segments after the first one. *)
Fixpoint add_padded (wireSize : Z) (lengths : list Z) : res Z :=
  match lengths with
  | [] => Ok wireSize
  | length :: lengths =>
      let addition := paddedSecureLength length in
      if MaxUint64 - addition <? wireSize then Err msgr_ErrLimitExceeded
      else add_padded (wireSize + addition) lengths
  end.

(** Wire size and number of records of a frame with segments of these lengths. *)
Definition secure_sizes (lengths : list Z) (limits : FrameLimits) : res (Z * Z) :=
  first ← index lengths 0;
  let firstPadded := paddedSecureLength first in
  let '(wireSize, records) :=
    if secureInlineSize <? firstPadded
    then (u64 (securePreamble + firstPadded - secureInlineSize + secureTagSize), 2)
    else (securePreamble, 1) in
  '(wireSize, records) ←
    (if 1 <? len lengths then
       wireSize ← add_padded (u64 (wireSize + secureBlockSize + secureTagSize)) (drop 1 lengths);
       Ok (wireSize, records + 1)
     else Ok (wireSize, records));
  if (MaxFrameBytes limits <? wireSize) || (maxInt <? wireSize) then Err msgr_ErrLimitExceeded
  else Ok (wireSize, records).

Fixpoint secure_describe (limits : FrameLimits) (segments : list Segment) : res (list segmentDescriptor) :=
  match segments with
  | [] => Ok []
  | segment :: segments =>
      let length := len (Data segment) in
      if (MaxUint32 <? length) || (MaxSegmentBytes limits <? length) then Err msgr_ErrLimitExceeded
      else if negb (validAlignment (Alignment segment)) then Err msgr_ErrMalformed
      else
        descriptors ← secure_describe limits segments;
        Ok (mkDescriptor (u32 length) (Alignment segment) :: descriptors)
  end.

Definition prepareSecureFrame (frame : Frame) (limits : FrameLimits)
    : res (list segmentDescriptor * list Segment * Z * Z) :=
  segments ← normalizeSegments (Segments frame);
  if negb (validTag (Tag frame)) then Err msgr_ErrMalformed
  else
    descriptors ← secure_describe limits segments;
    '(wireSize, records) ← secure_sizes ((fun s => len (Data s)) <$> segments) limits;
    Ok (descriptors, segments, wireSize, records).

Fixpoint check_descriptors (limits : FrameLimits) (descriptors : list segmentDescriptor) : res unit :=
  match descriptors with
  | [] => Ok tt
  | descriptor :: descriptors =>
      if negb (validAlignment (sd_alignment descriptor)) then Err msgr_ErrMalformed
      else if MaxSegmentBytes limits <? sd_length descriptor then Err msgr_ErrLimitExceeded
      else check_descriptors limits descriptors
  end.

Definition validateSecureDescriptors (descriptors : list segmentDescriptor) (limits : FrameLimits) : res (Z * Z) :=
  _ ← check_descriptors limits descriptors;
  secure_sizes (sd_length <$> descriptors) limits.

(** ** Padded payloads (message.go)

    A leased payload sits in a larger storage with room for the segments that
    precede it and for the epilogue, so that the storage itself can be sealed.
    Go compares the address of the payload with the address inside the
    storage; [payload_here] is the outcome of that comparison for the last
    segment of the frame. *)

Definition LeasedPayloadPadding : Z := secureBlockSize.
Definition LeasedPayloadPrefix : Z := 1024.

Record PaddedLease := mkPadded { paddedPayload : bytes; payload_here : bool }.

(** [copy(buf[off:], data)] and [clear(buf[from:to])], within the buffer *)
Definition blit (off : Z) (data buf : bytes) : bytes :=
  take (Z.to_nat off) buf ++ data ++ drop (Z.to_nat off + length data) buf.

Definition clear (from to : Z) (buf : bytes) : bytes := blit from (zeros (Z.to_nat (to - from))) buf.

Definition NewPaddedMessageLease (storage payload : bytes) (here : bool) : res PaddedLease :=
  if (len payload =? 0) || negb (len payload mod LeasedPayloadPadding =? 0)
     || negb (len storage =? LeasedPayloadPrefix + len payload + LeasedPayloadPadding) || negb here
  then Panic
  else
    let storage := clear (len storage - LeasedPayloadPadding) (len storage) storage in
    Ok (mkPadded (blit (len storage - LeasedPayloadPadding) [byte.of_Z LateStatusComplete] storage) true).

Fixpoint prefix_size (prefixSize : Z) (segments : list Segment) : option Z :=
  match segments with
  | [] => Some prefixSize
  | segment :: segments =>
      let padded := paddedSecureLength (len (Data segment)) in
      if LeasedPayloadPrefix - prefixSize <? padded then None
      else prefix_size (prefixSize + padded) segments
  end.

Fixpoint copy_segments (offset : Z) (segments : list Segment) (plaintext : bytes) : bytes :=
  match segments with
  | [] => plaintext
  | segment :: segments =>
      copy_segments (offset + paddedSecureLength (len (Data segment))) segments
        (blit offset (Data segment) plaintext)
  end.

(** The plaintext and the storage after the segments were copied into it. *)
Definition securePlaintext (lease : PaddedLease) (segments : list Segment) : option (bytes * PaddedLease) :=
  if (len (paddedPayload lease) =? 0) || (len segments <? 2) then None
  else
    let payload := match last segments with Some segment => Data segment | None => [] end in
    if (len payload =? 0)
       || negb (LeasedPayloadPrefix + len payload + LeasedPayloadPadding =? len (paddedPayload lease))
       || negb (payload_here lease)
    then None
    else
      let middle := removelast (drop 1 segments) in
      prefixSize ← prefix_size 0 middle;
      let before := slice 0 (LeasedPayloadPrefix - prefixSize) (paddedPayload lease) in
      let plaintext := drop (Z.to_nat (LeasedPayloadPrefix - prefixSize)) (paddedPayload lease) in
      let plaintext := copy_segments 0 middle (clear 0 prefixSize plaintext) in
      Some (plaintext, mkPadded (before ++ plaintext) (payload_here lease)).

(** ** Encoding *)

(** The loop that lays out the segments after the first one. *)
Fixpoint fill_segments (offset : Z) (segments : list Segment) (remaining : bytes) : Z * bytes :=
  match segments with
  | [] => (offset, remaining)
  | segment :: segments =>
      let end_ := offset + paddedSecureLength (len (Data segment)) in
      let remaining := blit offset (Data segment) remaining in
      fill_segments end_ segments (clear (offset + len (Data segment)) end_ remaining)
  end.

Definition get_state {S} : RM S S := fun s => (Ok s, s).

(** What the lease of the frame offers to seal, and the lease afterwards. *)
Definition lease_plaintext (lease : option PaddedLease) (segments : list Segment)
    : option bytes * option PaddedLease :=
  match lease with
  | None => (None, None)
  | Some l =>
      match securePlaintext l segments with
      | Some (plaintext, l) => (Some plaintext, Some l)
      | None => (None, Some l)
      end
  end.

(** The segments after the first one and the epilogue, laid out in the wire
    buffer and sealed in place. *)
Definition encode_remaining (wire result remaining : bytes) (segments : list Segment) (lease : option PaddedLease)
    : RM secureDirection (bytes * option PaddedLease) :=
  let '(offset, remaining) := fill_segments 0 (drop 1 segments) remaining in
  let remaining := clear offset (len remaining) remaining in
  let remaining := blit offset [byte.of_Z LateStatusComplete] remaining in
  sealed ← sealLocked remaining;
  let wire := blit (len result) sealed wire in
  mret (slice 0 (len result + len sealed) wire, lease).

(** [wire] is the buffer of an earlier frame, as long as its capacity. *)
Definition encodeInto (frame : Frame) (limits : FrameLimits) (lease : option PaddedLease) (wire : bytes)
    : RM secureDirection (bytes * option PaddedLease) :=
  '(descriptors, segments, wireSize, records) ← lift (prepareSecureFrame frame limits);
  d ← get_state;
  if negb (availableLocked d records) then throw msgr_ErrCounterExhausted
  else
    let preamble := encodePreamble (Tag frame) descriptors in
    let wire := if len wire <? wireSize then zeros (Z.to_nat wireSize) else take (Z.to_nat wireSize) wire in
    segment ← lift (index segments 0);
    let data := Data segment in
    let wire := clear 0 (PreambleSize + secureInlineSize) wire in
    let wire := blit 0 preamble wire in
    let wire := blit PreambleSize (take (Z.to_nat secureInlineSize) data) wire in
    result ← sealLocked (slice 0 (PreambleSize + secureInlineSize) wire);
    let wire := blit 0 result wire in
    let firstPadded := paddedSecureLength (len data) in
    '(wire, result) ←
      (if secureInlineSize <? firstPadded then
         let plaintext := slice (len result) (len result + (firstPadded - secureInlineSize)) wire in
         let plaintext := blit 0 (drop (Z.to_nat secureInlineSize) data) plaintext in
         let plaintext := clear (len data - secureInlineSize) (len plaintext) plaintext in
         sealed ← sealLocked plaintext;
         let wire := blit (len result) sealed wire in
         mret (wire, slice 0 (len result + len sealed) wire)
       else mret (wire, result));
    if len segments =? 1 then mret (result, lease)
    else
      let remainingSize :=
        foldl (fun size segment => u64 (size + paddedSecureLength (len (Data segment)))) secureBlockSize (drop 1 segments) in
      let remaining := slice (len result) (len result + remainingSize) wire in
      let '(plaintext, lease) := lease_plaintext lease segments in
      match plaintext with
      | Some plaintext =>
          if len plaintext =? len remaining then
            sealed ← sealLocked plaintext;
            let wire := blit (len result) sealed wire in
            mret (slice 0 (len result + len sealed) wire, lease)
          else encode_remaining wire result remaining segments lease
      | None => encode_remaining wire result remaining segments lease
      end.

Definition Encode (frame : Frame) (limits : FrameLimits) : RM secureDirection bytes :=
  '(wire, _) ← encodeInto frame limits None [];
  mret wire.

(** ** Decoding

    The state of a read is the reader and the receiving direction. *)

Section read.
Context {R : Type} {RD : Reader R}.

Definition on_reader {A} (m : RM R A) : RM (R * secureDirection) A := fun s =>
  let '(x, r) := m (fst s) in (x, (r, snd s)).

Definition on_direction {A} (m : RM secureDirection A) : RM (R * secureDirection) A := fun s =>
  let '(x, d) := m (snd s) in (x, (fst s, d)).

(** The segments after the first one; [remaining] is long enough. *)
Fixpoint take_segments (offset : Z) (descriptors : list segmentDescriptor) (remaining : bytes)
    : res (Z * list Segment) :=
  match descriptors with
  | [] => Ok (offset, [])
  | descriptor :: descriptors =>
      let padded := paddedSecureLength (sd_length descriptor) in
      let logical := sd_length descriptor in
      if negb (allZero (slice (offset + logical) (offset + padded) remaining)) then Err msgr_ErrMalformed
      else
        '(offset', segments) ← take_segments (offset + padded) descriptors remaining;
        Ok (offset', mkSegment (sd_alignment descriptor) (slice offset (offset + logical) remaining) :: segments)
  end.

(** Peak and retained memory of a frame, and the size of its last record. *)
Definition secure_memory (firstPadded wireSize : Z) (preludeBackedByLease inlineControl : bool) : Z * Z * Z :=
  let '(peak, retained) :=
    if secureInlineSize <? firstPadded
    then (u64 (securePreamble + firstPadded + firstPadded - secureInlineSize + secureTagSize),
          if preludeBackedByLease then u64 (firstPadded + securePreamble) else firstPadded)
    else (securePreamble, securePreamble) in
  let remainingSize := u64 (wireSize - securePreamble) in
  let remainingSize :=
    if secureInlineSize <? firstPadded then u64 (remainingSize - (firstPadded - secureInlineSize + secureTagSize))
    else remainingSize in
  if inlineControl then (0, 0, remainingSize)
  else (u64 (peak + remainingSize), u64 (retained + remainingSize), remainingSize).

Definition finish_frame (tag : Z) (segment : Segment) (descriptors : list segmentDescriptor)
    (retained : Z) (remaining : bytes) : RM (R * secureDirection) Frame :=
  '(offset, segments) ← lift (take_segments 0 (drop 1 descriptors) remaining);
  let epilogue := drop (Z.to_nat offset) remaining in
  if negb (len epilogue =? secureBlockSize) || negb (allZero (drop 1 epilogue)) then throw msgr_ErrMalformed
  else
    let status := Z.land (byte_at epilogue 0) 0x0f in
    if status =? LateStatusComplete then
      _ ← on_reader (reserveReceiveBytes retained);
      mret (mkFrame tag (segment :: segments))
    else if status =? LateStatusAborted then throw msgr_ErrAborted
    else throw msgr_ErrMalformed.

(** The part after the descriptors are accepted. *)
Definition read_records (tag : Z) (descriptors : list segmentDescriptor) (first : bytes) (wireSize : Z)
    (preludeBackedByLease : bool) : RM (R * secureDirection) Frame :=
  descriptor ← lift (index descriptors 0);
  let firstPadded := paddedSecureLength (sd_length descriptor) in
  let inlineControl := negb (tag =? TagMessage) && (firstPadded <=? secureInlineSize) && (len descriptors =? 1) in
  let '(peak, retained, remainingSize) := secure_memory firstPadded wireSize preludeBackedByLease inlineControl in
  _ ← on_reader (reserveReceiveBytes peak);
  _ ← (if negb inlineControl then on_reader releaseReceivePrelude else mret tt);
  firstPaddedData ←
    (if secureInlineSize <? firstPadded then
       ciphertext ← on_reader (wrap msgr_ErrMalformed (ReadFull (firstPadded - secureInlineSize + secureTagSize)));
       remainder ← on_direction (openLocked ciphertext);
       mret (drop (Z.to_nat PreambleSize) first ++ remainder)
     else mret (slice PreambleSize (PreambleSize + secureInlineSize) first));
  if negb (allZero (drop (Z.to_nat (sd_length descriptor)) firstPaddedData)) then throw msgr_ErrMalformed
  else
    let segment := mkSegment (sd_alignment descriptor) (take (Z.to_nat (sd_length descriptor)) firstPaddedData) in
    if len descriptors =? 1 then
      _ ← on_reader (reserveReceiveBytes retained);
      mret (mkFrame tag [segment])
    else
      _ ← on_reader (receiveBacking remainingSize);
      ciphertext ← on_reader (wrap msgr_ErrMalformed (ReadFull remainingSize));
      remaining ← on_direction (openLocked ciphertext);
      finish_frame tag segment descriptors retained remaining.

Definition Read (limits : FrameLimits) : RM (R * secureDirection) Frame :=
  '(_, d) ← get_state;
  if negb (availableLocked d 1) then throw msgr_ErrCounterExhausted
  else if MaxFrameBytes limits <? securePreamble then throw msgr_ErrLimitExceeded
  else
    _ ← on_reader reserveReceivePrelude;
    '(r, _) ← get_state;
    let preludeBackedByLease := receivePreludeBuffer r in
    ciphertext ← on_reader (wrap msgr_ErrMalformed (ReadFull securePreamble));
    first ← on_direction (openLocked ciphertext);
    '(tag, descriptors) ← lift (decodePreamble (slice 0 PreambleSize first));
    '(wireSize, records) ← lift (validateSecureDescriptors descriptors limits);
    '(_, d) ← get_state;
    if negb (availableLocked d (records - 1)) then throw msgr_ErrCounterExhausted
    else read_records tag descriptors first wireSize preludeBackedByLease.

End read.

End secure.

(** A frame with a header and two payloads, sealed by the client
    and read by the server. *)
Example secure_frame_example :
  let limits := mkFrameLimits 4096 8192 16 1024 in
  let frame := mkFrame 17 [mkSegment 8 (zeros 41); mkSegment 8 (replicate 50 Byte.x61); mkSegment 8 [];
                           mkSegment 4096 (replicate 17 Byte.x62)] in
  match NewSecureCodec (zeros 64) false, NewSecureCodec (zeros 64) true with
  | Ok client, Ok server =>
      match Encode frame limits (tx client) with
      | (Ok bs, d) =>
          let '(x, (rest, d')) := Read limits (bs ++ [Byte.xff], rx server) in
          x = Ok frame /\ rest = [Byte.xff] /\ counter d' = counter d /\ len bs = 224
      | _ => False
      end
  | _, _ => False
  end.
Proof. vm_compute. done. Qed.

(** ** Positions

    A direction is determined by its key, its fixed part and the number of
    the next nonce; [2 ^ 64] means that all of them are used. *)

Section positions.
Context {AE : AEAD}.

Definition at_pos (k : aead_key) (f p : Z) : secureDirection :=
  mkDirection k f (Z.min p MaxUint64) (p =? 2 ^ 64).

Definition direction_ok (d : secureDirection) : Prop :=
  exists k f p, d = at_pos k f p /\ inU 32 f /\ 0 <= p <= 2 ^ 64.

Lemma newSecureDirection_ok key seed d : length seed = 12%nat ->
  newSecureDirection key seed = Ok d -> exists k f p, d = at_pos k f p /\ inU 32 f /\ inU 64 p.
Proof.
  intros Hl H. unfold newSecureDirection in H. res_inv H. subst d.
  assert (inU 32 (le_combine (slice 0 4 seed))) as Hf.
  { apply (le_combine_inU 4). unfold slice. autorewrite with golen. rewrite Hl. done. }
  assert (inU 64 (le_combine (slice 4 12 seed))) as Hp.
  { apply (le_combine_inU 8). unfold slice. autorewrite with golen. rewrite Hl. done. }
  exists a, (le_combine (slice 0 4 seed)), (le_combine (slice 4 12 seed)). split_and!; [|done..].
  unfold at_pos, inU in *. f_equal; [unfold MaxUint64; lia|]. symmetry. apply Z.eqb_neq. lia.
Qed.

Lemma available_at k f p n : 0 <= p <= 2 ^ 64 -> 0 <= n ->
  availableLocked (at_pos k f p) n = (p + n <=? 2 ^ 64).
Proof.
  intros Hp Hn. unfold availableLocked, at_pos. cbn. unfold MaxUint64.
  destruct (Z.eqb_spec n 0), (Z.eqb_spec p (2 ^ 64)), (Z.leb_spec (p + n) (2 ^ 64)); cbn; try lia;
    apply Z.leb_le || apply Z.leb_gt; lia.
Qed.

Lemma nonce_at k f p : 0 <= p < 2 ^ 64 ->
  nonceLocked (at_pos k f p) = (Ok (nonce_of f p), at_pos k f (p + 1)).
Proof.
  intros Hp. unfold nonceLocked. rewrite available_at by lia.
  destruct (Z.leb_spec (p + 1) (2 ^ 64)); [|lia]. cbn [negb]. unfold at_pos. cbn. unfold MaxUint64 in *.
  destruct (Z.eqb_spec (Z.min p (2 ^ 64 - 1)) (2 ^ 64 - 1)) as [E|E].
  - assert (p = 2 ^ 64 - 1) as -> by lia. done.
  - f_equal; [do 2 f_equal; lia|]. f_equal; [lia|].
    transitivity false; [apply Z.eqb_neq; lia|]. symmetry. apply Z.eqb_neq. lia.
Qed.

Lemma nonce_exhausted k f : nonceLocked (at_pos k f (2 ^ 64)) = (Err msgr_ErrCounterExhausted, at_pos k f (2 ^ 64)).
Proof. reflexivity. Qed.

Lemma nonce_inj f p q : inU 64 p -> inU 64 q -> nonce_of f p = nonce_of f q -> p = q.
Proof.
  intros Hp Hq H. unfold nonce_of in H. apply app_inj_1 in H as [_ H]; [|by rewrite !length_le_split].
  rewrite <- (le_combine_le_split_id 8 p), <- (le_combine_le_split_id 8 q) by done. by rewrite H.
Qed.

Lemma seal_at k f p pt : 0 <= p < 2 ^ 64 ->
  sealLocked pt (at_pos k f p) = (Seal k (nonce_of f p) pt, at_pos k f (p + 1)).
Proof. intros Hp. unfold sealLocked, mbind, rm_bind. by rewrite nonce_at. Qed.

Lemma open_at k f p c : 0 <= p < 2 ^ 64 ->
  openLocked c (at_pos k f p)
  = (match Open k (nonce_of f p) c with Some pt => Ok pt | None => Err msgr_ErrIntegrity end, at_pos k f (p + 1)).
Proof.
  intros Hp. unfold openLocked, mbind, rm_bind. rewrite nonce_at by done. cbn [aead at_pos].
  by destruct (Open _ _ _).
Qed.

(** *** Nonces over a run of records *)

(** A record that is sealed or opened: the nonce it used, if it got one. *)
Inductive record_op := OpSeal (plaintext : bytes) | OpOpen (ciphertext : bytes).

Definition run_record (op : record_op) (d : secureDirection) : option bytes * secureDirection :=
  let nonce := match nonceLocked d with
  | (Ok nonce, _) => Some nonce
  | _ => None
  end in (nonce, snd (match op with OpSeal p => sealLocked p d | OpOpen c => openLocked c d end)).

Fixpoint run_records (ops : list record_op) (d : secureDirection) : list bytes * secureDirection :=
  match ops with
  | [] => ([], d)
  | op :: ops =>
      let '(nonce, d) := run_record op d in
      let '(nonces, d) := run_records ops d in
      (option_list nonce ++ nonces, d)
  end.

Lemma run_record_at op k f p : 0 <= p <= 2 ^ 64 ->
  run_record op (at_pos k f p)
  = if p <? 2 ^ 64 then (Some (nonce_of f p), at_pos k f (p + 1)) else (None, at_pos k f p).
Proof.
  intros Hp. unfold run_record. destruct (Z.ltb_spec p (2 ^ 64)).
  - rewrite nonce_at by lia. destruct op; [rewrite seal_at by lia|rewrite open_at by lia]; done.
  - assert (p = 2 ^ 64) as -> by lia. rewrite nonce_exhausted. destruct op; reflexivity.
Qed.

(** The nonces of a run are those of consecutive positions. *)
Lemma run_records_at ops k f p : 0 <= p <= 2 ^ 64 -> exists q,
  p <= q <= 2 ^ 64 /\ run_records ops (at_pos k f p) = (nonce_of f <$> seqZ p (q - p), at_pos k f q).
Proof.
  revert p. induction ops as [|op ops IH]; intros p Hp; cbn [run_records].
  - exists p. split; [lia|]. by rewrite Z.sub_diag.
  - rewrite run_record_at by done. destruct (Z.ltb_spec p (2 ^ 64)).
    + destruct (IH (p + 1)) as (q & Hq & E); [lia|]. exists q. split; [lia|]. rewrite E.
      rewrite (seqZ_cons p) by lia. unfold Z.succ. cbn [option_list fmap list_fmap app].
      do 4 f_equal. lia.
    + destruct (IH p Hp) as (q & Hq & E). exists q. split; [lia|]. by rewrite E.
Qed.

Lemma nonces_distinct f p n : 0 <= p -> p + n <= 2 ^ 64 -> NoDup (nonce_of f <$> seqZ p n).
Proof.
  intros Hp Hn. apply NoDup_fmap_2_strong; [|apply NoDup_seqZ].
  intros x y Hx Hy. apply elem_of_seqZ in Hx, Hy. apply nonce_inj; unfold inU; lia.
Qed.

Lemma nonce_fixed_inj f f' p q : inU 32 f -> inU 32 f' -> nonce_of f p = nonce_of f' q -> f = f'.
Proof.
  intros Hf Hf' H. unfold nonce_of in H. apply app_inj_1 in H as [H _]; [|by rewrite !length_le_split].
  rewrite <- (le_combine_le_split_id 4 f), <- (le_combine_le_split_id 4 f') by done. by rewrite H.
Qed.

Lemma NewSecureCodec_ok secret server : len secret = secureSecretSize -> exists k fr pr ft pt,
  NewSecureCodec secret server = Ok (mkSecureCodec (at_pos k ft pt) (at_pos k fr pr)) /\
  inU 32 fr /\ inU 64 pr /\ inU 32 ft /\ inU 64 pt /\
  NewSecureCodec secret (negb server) = Ok (mkSecureCodec (at_pos k fr pr) (at_pos k ft pt)).
Proof.
  intros Hl. unfold NewSecureCodec. rewrite Hl. cbn [Z.eqb secureSecretSize Pos.eqb negb].
  unfold secureSecretSize, len in Hl.
  assert (forall a b, 0 <= a -> a <= b -> b <= 64 -> length (slice a b secret) = Z.to_nat (b - a)) as Hs.
  { intros a b H1 H2 H3. unfold slice. autorewrite with golen. lia. }
  destruct (NewGCM_ok (slice 0 secureKeySize secret)) as [k Hk]; [by apply Hs|].
  assert (forall seed, length seed = 12%nat -> exists f p, newSecureDirection (slice 0 secureKeySize secret) seed = Ok (at_pos k f p)
    /\ inU 32 f /\ inU 64 p) as Hd.
  { intros seed Hse. destruct (newSecureDirection _ seed) as [d|e|] eqn:E.
    - pose proof E as E'. unfold newSecureDirection in E'. rewrite Hk in E'. cbn in E'.
      apply newSecureDirection_ok in E as (k' & f & p & -> & ? & ?); [|done]. injection E' as <- _ _ _. by exists f, p.
    - unfold newSecureDirection in E. by rewrite Hk in E.
    - unfold newSecureDirection in E. by rewrite Hk in E. }
  destruct (Hd (slice 16 28 secret)) as (f1 & p1 & E1 & ? & ?); [by apply Hs|].
  destruct (Hd (slice 28 40 secret)) as (f2 & p2 & E2 & ? & ?); [by apply Hs|].
  destruct server; cbn [negb]; rewrite E1, E2; rewrite ?bind_Ok.
  - exists k, f2, p2, f1, p1. done.
  - exists k, f1, p1, f2, p2. done.
Qed.

End positions.

(** ** The layout of a secure frame *)

Lemma padded_spec n : 0 <= n <= 2 ^ 63 ->
  n <= paddedSecureLength n < n + 16 /\ paddedSecureLength n mod 16 = 0 /\
  (n mod 16 = 0 -> paddedSecureLength n = n).
Proof.
  intros Hn. unfold paddedSecureLength, secureBlockSize. rewrite wrapU_id by (unfold inU; lia).
  change (16 - 1) with (Z.ones 4). rewrite Z.ldiff_ones_r, Z.shiftl_mul_pow2, Z.shiftr_div_pow2 by lia.
  change (2 ^ 4) with 16. change (Z.ones 4) with 15. pose proof (Z.div_mod (n + 16 - 1) 16). pose proof (Z.mod_pos_bound (n + 16 - 1) 16).
  split_and!; [lia..|rewrite Z.mod_mul; lia|]. intros H1. pose proof (Z.div_mod n 16).
  replace (n + 16 - 1) with (15 + (n / 16) * 16) by lia. rewrite Z.div_add by lia. change (15 / 16) with 0. lia.
Qed.

Definition pad (data : bytes) : bytes :=
  data ++ zeros (Z.to_nat (paddedSecureLength (len data) - len data)).

Definition epilogue_block : bytes := byte.of_Z LateStatusComplete :: zeros 15.

Definition first_record (tag : Z) (ds : list segmentDescriptor) (data : bytes) : bytes :=
  encodePreamble tag ds ++ take 48 data ++ zeros (48 - length data).

Definition rest_record (segments : list Segment) : bytes :=
  concat (pad ∘ Data <$> segments) ++ epilogue_block.

Definition long_first (segments : list Segment) : bool :=
  match segments with [] => false | s :: _ => secureInlineSize <? paddedSecureLength (len (Data s)) end.

(** The plaintexts of the records of a frame with these segments. *)
Definition plain_records (tag : Z) (segments : list Segment) : list bytes :=
  match segments with
  | [] => []
  | s :: rest =>
      first_record tag (desc_of <$> segments) (Data s)
      :: (if long_first segments then [drop 48 (pad (Data s))] else [])
      ++ (if 1 <? len segments then [rest_record rest] else [])
  end.

Lemma len_zeros n : len (zeros n) = Z.of_nat n.
Proof. unfold len, zeros. by rewrite length_replicate. Qed.

Lemma len_pad data : len data <= 2 ^ 63 -> len (pad data) = paddedSecureLength (len data).
Proof.
  intros H. unfold pad. rewrite len_app, len_zeros. pose proof (len_nonneg data).
  destruct (padded_spec (len data)); lia.
Qed.

Lemma pad_aligned data : len data <= 2 ^ 63 -> len data mod 16 = 0 -> pad data = data.
Proof.
  intros H1 H2. pose proof (len_nonneg data). unfold pad.
  destruct (padded_spec (len data)) as (_ & _ & H3); [lia|]. rewrite H3, Z.sub_diag by done. apply app_nil_r.
Qed.

Lemma blit_mid off data (pre mid post : bytes) : off = len pre -> length mid = length data ->
  blit off data (pre ++ mid ++ post) = pre ++ data ++ post.
Proof.
  intros -> H. unfold blit, len. rewrite Nat2Z.id, take_app_length, <- H, (app_assoc pre mid).
  rewrite drop_app_length' by (rewrite length_app; lia). done.
Qed.

Lemma clear_mid from to (pre mid post : bytes) : from = len pre -> to = len pre + len mid ->
  clear from to (pre ++ mid ++ post) = pre ++ zeros (length mid) ++ post.
Proof.
  intros -> ->. unfold clear. replace (len pre + len mid - len pre) with (len mid) by lia.
  unfold len at 2. rewrite Nat2Z.id. apply blit_mid; [done|]. unfold zeros. by rewrite length_replicate.
Qed.

Lemma clear_end from to (pre mid : bytes) : from = len pre -> to = len pre + len mid ->
  clear from to (pre ++ mid) = pre ++ zeros (length mid).
Proof.
  intros H1 H2. rewrite <- (app_nil_r mid) at 1. rewrite clear_mid by done. by rewrite app_nil_r.
Qed.

Lemma split_at {A} (n : Z) (l : list A) : 0 <= n <= len l -> exists a b, l = a ++ b /\ len a = n.
Proof.
  intros H. exists (take (Z.to_nat n) l), (drop (Z.to_nat n) l). split; [by rewrite take_drop|].
  unfold len in *. rewrite length_take. lia.
Qed.

Definition padded_sum (segments : list Segment) : Z :=
  foldr (fun s n => paddedSecureLength (len (Data s)) + n) 0 segments.

Definition short (segments : list Segment) : Prop := Forall (fun s => len (Data s) <= MaxUint32) segments.

Lemma padded_short s : len (Data s) <= MaxUint32 ->
  len (Data s) <= paddedSecureLength (len (Data s)) <= 2 ^ 32 /\ len (pad (Data s)) = paddedSecureLength (len (Data s)).
Proof.
  intros H. unfold MaxUint32 in H. pose proof (len_nonneg (Data s)).
  destruct (padded_spec (len (Data s))) as (H1 & H2 & H3); [lia|]. split; [|apply len_pad; lia].
  split; [lia|]. apply Z.mod_divide in H2 as [z Hz]; [|lia]. lia.
Qed.

Lemma padded_sum_nonneg segments : short segments -> 0 <= padded_sum segments <= 2 ^ 32 * len segments.
Proof.
  induction 1 as [|s l Hs _ IH]; [done|]. cbn [padded_sum foldr]. fold (padded_sum l). rewrite len_cons.
  destruct (padded_short s Hs). pose proof (len_nonneg (Data s)). lia.
Qed.

Lemma len_concat_pad segments : short segments -> len (concat (pad ∘ Data <$> segments)) = padded_sum segments.
Proof.
  induction 1 as [|s l Hs _ IH]; [done|]. cbn [fmap list_fmap concat padded_sum foldr]. fold (padded_sum l).
  rewrite len_app. cbn. rewrite (proj2 (padded_short s Hs)). unfold len in *. lia.
Qed.

Lemma fill_segments_eq segments (pre mid post : bytes) : short segments -> len mid = padded_sum segments ->
  fill_segments (len pre) segments (pre ++ mid ++ post)
  = (len pre + padded_sum segments, pre ++ concat (pad ∘ Data <$> segments) ++ post).
Proof.
  intros H. revert pre mid. induction H as [|s l Hs Hl IH]; intros pre mid Hm.
  { destruct mid; [|rewrite len_cons in Hm; pose proof (len_nonneg mid); cbn in Hm; lia]. cbn. by rewrite Z.add_0_r. }
  cbn [fill_segments]. destruct (padded_short s Hs) as [Hp Hlp]. pose proof (len_nonneg (Data s)). pose proof (padded_sum_nonneg l Hl).
  cbn [padded_sum foldr] in Hm. fold (padded_sum l) in Hm.
  destruct (split_at (len (Data s)) mid) as (m1 & m & -> & H1); [lia|]. rewrite len_app in Hm.
  destruct (split_at (paddedSecureLength (len (Data s)) - len (Data s)) m) as (m2 & m3 & -> & H2); [lia|]. rewrite len_app in Hm.
  rewrite <- !app_assoc, (app_assoc pre m1). rewrite <- app_assoc, blit_mid by (done || (unfold len in *; lia)).
  rewrite (app_assoc pre (Data s)), clear_mid by (rewrite ?len_app; lia).
  assert ((pre ++ Data s) ++ zeros (length m2) ++ m3 ++ post = (pre ++ pad (Data s)) ++ m3 ++ post) as ->.
  { unfold pad. rewrite <- !app_assoc. do 3 f_equal. f_equal. unfold len in *. lia. }
  replace (len pre + paddedSecureLength (len (Data s))) with (len (pre ++ pad (Data s))) by (rewrite len_app; lia).
  rewrite IH by lia. rewrite len_app, Hlp. cbn [padded_sum foldr fmap list_fmap concat]. fold (padded_sum l).
  f_equal; [lia|]. cbn. by rewrite <- !app_assoc.
Qed.

Lemma copy_segments_eq segments (pre post : bytes) : short segments ->
  copy_segments (len pre) segments (pre ++ zeros (Z.to_nat (padded_sum segments)) ++ post)
  = pre ++ concat (pad ∘ Data <$> segments) ++ post.
Proof.
  intros H. revert pre. induction H as [|s l Hs Hl IH]; intros pre; [done|].
  cbn [copy_segments]. destruct (padded_short s Hs) as [Hp Hlp]. pose proof (len_nonneg (Data s)). pose proof (padded_sum_nonneg l Hl).
  cbn [padded_sum foldr]. fold (padded_sum l).
  assert (zeros (Z.to_nat (paddedSecureLength (len (Data s)) + padded_sum l))
    = zeros (length (Data s)) ++ zeros (Z.to_nat (paddedSecureLength (len (Data s)) - len (Data s))) ++ zeros (Z.to_nat (padded_sum l))) as ->.
  { unfold zeros. rewrite <- !replicate_add. f_equal. unfold len in *. lia. }
  rewrite <- !app_assoc, blit_mid by (done || (unfold zeros; by rewrite length_replicate)).
  replace (len pre + paddedSecureLength (len (Data s))) with (len (pre ++ pad (Data s))) by (rewrite len_app; lia).
  specialize (IH (pre ++ pad (Data s))). unfold pad in IH at 2. rewrite <- !app_assoc in IH. rewrite IH.
  cbn [fmap list_fmap concat]. unfold pad at 3. cbn. unfold pad at 1. by rewrite <- !app_assoc.
Qed.

Definition wire_size (segments : list Segment) : Z :=
  match segments with
  | [] => 0
  | s :: rest =>
      securePreamble + (if long_first segments then paddedSecureLength (len (Data s)) - secureInlineSize + secureTagSize else 0)
      + (if 1 <? len segments then padded_sum rest + secureBlockSize + secureTagSize else 0)
  end.

Lemma add_padded_eq w segments : short segments -> 0 <= w -> w + padded_sum segments <= 2 ^ 63 ->
  add_padded w ((fun s => len (Data s)) <$> segments) = Ok (w + padded_sum segments).
Proof.
  intros H. revert w. induction H as [|s l Hs Hl IH]; intros w Hw Hb; [by rewrite Z.add_0_r|].
  cbn [add_padded fmap list_fmap padded_sum foldr] in *. fold (padded_sum l) in *.
  destruct (padded_short s Hs) as [Hp _]. pose proof (len_nonneg (Data s)). pose proof (padded_sum_nonneg l Hl).
  destruct (Z.ltb_spec (MaxUint64 - paddedSecureLength (len (Data s))) w); [unfold MaxUint64 in *; lia|].
  rewrite IH by lia. f_equal. lia.
Qed.

Lemma secure_sizes_eq tag segments limits : short segments -> (1 <= length segments <= 4)%nat ->
  securePreamble <= wire_size segments <= 2 ^ 40 /\
  secure_sizes ((fun s => len (Data s)) <$> segments) limits =
    if (MaxFrameBytes limits <? wire_size segments) || (maxInt <? wire_size segments) then Err msgr_ErrLimitExceeded
    else Ok (wire_size segments, len (plain_records tag segments)).
Proof.
  intros Hs Hl. destruct segments as [|s rest]; [cbn in Hl; lia|]. inversion Hs as [|? ? Hs1 Hs2]; subst.
  destruct (padded_short s Hs1) as [Hp _]. pose proof (len_nonneg (Data s)). pose proof (padded_sum_nonneg rest Hs2) as Hps.
  assert (0 <= len rest <= 3) by (unfold len; cbn [length] in Hl; lia).
  unfold secure_sizes. cbn [fmap list_fmap].
  match goal with |- context [index (?x :: ?l) 0] => change (index (x :: l) 0) with (Ok x) end. rewrite bind_Ok. cbv zeta.
  unfold wire_size, plain_records. set (lf := long_first (s :: rest)). unfold long_first in lf.
  assert (len (len (Data s) :: ((fun s => len (Data s)) <$> rest)) = len (s :: rest)) as ->
    by (unfold len; cbn [length]; by rewrite length_fmap).
  rewrite (len_cons s rest). cbn [drop]. fold lf. unfold securePreamble, PreambleSize, secureInlineSize, secureTagSize, secureBlockSize in *.
  assert (forall w r, 0 <= w <= 2 ^ 34 ->
    (if 1 <? 1 + len rest then wireSize ← add_padded (u64 (w + 16 + 16)) ((fun s => len (Data s)) <$> rest); Ok (wireSize, r + 1) else Ok (w, r))
    = Ok (w + (if 1 <? 1 + len rest then padded_sum rest + 16 + 16 else 0), r + (if 1 <? 1 + len rest then 1 else 0))) as Hrest.
  { intros w r Hw. destruct (Z.ltb_spec 1 (1 + len rest)); [|by rewrite !Z.add_0_r].
    rewrite wrapU_id by (unfold inU; lia). rewrite add_padded_eq by (done || lia). cbn. do 2 f_equal. lia. }
  assert (lf = true -> 48 < paddedSecureLength (len (Data s))) as Hlf by apply Z.ltb_lt. clearbody lf.
  split.
  { destruct lf, (1 <? 1 + len rest); [specialize (Hlf eq_refl)..| |]; lia. }
  destruct lf eqn:Elf.
  - rewrite (wrapU_id 64 (32 + 48 + 16 + paddedSecureLength (len (Data s)) - 48 + 16)) by (unfold inU; lia).
    rewrite Hrest by lia. rewrite bind_Ok. set (rs := 1 <? 1 + len rest).
    replace (32 + 48 + 16 + paddedSecureLength (len (Data s)) - 48 + 16 + (if rs then padded_sum rest + 16 + 16 else 0))
      with (32 + 48 + 16 + (paddedSecureLength (len (Data s)) - 48 + 16) + (if rs then padded_sum rest + 16 + 16 else 0)) by lia.
    destruct (_ || _); [done|]. do 2 f_equal. by destruct rs.
  - rewrite Hrest by lia. rewrite bind_Ok, Z.add_0_r. destruct (_ || _); [done|]. do 2 f_equal. by destruct (_ <? _).
Qed.

Lemma secure_describe_ok limits segments ds : secure_describe limits segments = Ok ds ->
  ds = desc_of <$> segments /\ short segments /\
  Forall (fun s => validAlignment (Alignment s) = true /\ len (Data s) <= MaxSegmentBytes limits) segments.
Proof.
  revert ds. induction segments as [|s l IH]; intros ds H; cbn [secure_describe] in H.
  { injection H as <-. split_and!; [done|apply Forall_nil_2..]. }
  destruct (_ || _) eqn:E in H; [done|]. destruct (negb _) eqn:E2 in H; [done|]. bsplit. apply res_bind_ok in H as (ds' & Hd & H). injection H as <-.
  apply IH in Hd as (-> & Hs & Hf). apply Z.ltb_ge in H0, H1. split_and!.
  - cbn. unfold desc_of at 2. f_equal. f_equal. apply wrapU_id. unfold inU, MaxUint32 in *. pose proof (len_nonneg (Data s)). lia.
  - by apply Forall_cons_2.
  - by apply Forall_cons_2.
Qed.

(** What [prepareSecureFrame] accepts. *)
Lemma prepareSecureFrame_ok frame limits ds segs size n :
  Forall (fun s => inU 16 (Alignment s)) (Segments frame) ->
  prepareSecureFrame frame limits = Ok (ds, segs, size, n) ->
  normalizeSegments (Segments frame) = Ok segs /\ ds = desc_of <$> segs /\ short segs /\ normal segs /\
  frame_ok (mkFrame (Tag frame) segs) /\ size = wire_size segs /\ n = len (plain_records (Tag frame) segs) /\
  securePreamble <= size <= MaxFrameBytes limits /\ size <= 2 ^ 40 /\
  Forall (fun s => validAlignment (Alignment s) = true /\ len (Data s) <= MaxSegmentBytes limits) segs.
Proof.
  intros Hal H. unfold prepareSecureFrame in H. apply res_bind_ok in H as (segs' & Hn & H).
  destruct (negb _) eqn:Ht in H; [done|]. apply res_bind_ok in H as (ds' & E & H). apply res_bind_ok in H as ([w r] & E0 & H).
  injection H as -> -> -> ->. bsplit. apply secure_describe_ok in E as (-> & Hs & Hv). destruct (normalizeSegments_ok _ _ Hn) as [HN Hpre].
  destruct (secure_sizes_eq (Tag frame) segs limits Hs (proj1 HN)) as [Hw Hsz]. rewrite Hsz in E0.
  destruct (_ || _) eqn:Hlim in E0; [done|]. injection E0 as <- <-. bsplit. apply Z.ltb_ge in H, H0.
  split_and!; [done..| | | | | | |done]; try done; try lia.
  unfold frame_ok, preamble_ok. cbn [Tag Segments]. rewrite length_fmap. split_and!; [done|apply HN..| |].
  - apply Forall_fmap, Forall_forall. intros s Hsin. unfold compose, desc_typed, desc_of. cbn.
    unfold short in Hs. rewrite Forall_forall in Hs, Hal. specialize (Hs s Hsin). pose proof (len_nonneg (Data s)).
    split; [unfold inU, MaxUint32 in *; lia|]. apply Hal. destruct Hpre as [k ->]. set_solver.
  - intros H1. destruct HN as [_ HN]. destruct (HN H1) as (s & Hs1 & Hs2). exists (desc_of s).
    rewrite fmap_last, Hs1. split; [done|]. cbn. destruct (Data s) as [|b bs]; [done|]. rewrite len_cons. pose proof (len_nonneg bs). lia.
Qed.

(** ** What [Encode] writes *)

Section encode.
Context {AE : AEAD}.

(** The records [rs] are the plaintexts [ps] sealed from position [p] on. *)
Fixpoint sealed (k : aead_key) (f p : Z) (ps rs : list bytes) : Prop :=
  match ps, rs with
  | [], [] => True
  | pt :: ps, c :: rs => Seal k (nonce_of f p) pt = Ok c /\ sealed k f (p + 1) ps rs
  | _, _ => False
  end.

(** A lease whose storage holds the last segment holds it with the epilogue
    behind it. *)
Definition padded_ok (l : PaddedLease) (payload : bytes) : Prop :=
  len payload mod 16 = 0 /\
  exists pre, len pre = LeasedPayloadPrefix /\ paddedPayload l = pre ++ payload ++ epilogue_block.

Definition lease_ok (lease : option PaddedLease) (segments : list Segment) : Prop :=
  forall l s, lease = Some l -> payload_here l = true -> last segments = Some s -> Data s <> [] -> padded_ok l (Data s).

Lemma prefix_size_eq n segments size : short segments -> 0 <= n <= LeasedPayloadPrefix ->
  prefix_size n segments = Some size ->
  size = n + padded_sum segments /\ size <= LeasedPayloadPrefix.
Proof.
  intros Hs. revert n. induction Hs as [|s l Hs _ IH]; intros n Hn H; cbn [prefix_size] in H.
  { injection H as <-. cbn. lia. }
  destruct (Z.ltb_spec (LeasedPayloadPrefix - n) (paddedSecureLength (len (Data s)))); [done|].
  destruct (padded_short s Hs) as [Hp _]. pose proof (len_nonneg (Data s)).
  apply IH in H as [-> ?]; [|lia]. cbn [padded_sum foldr]. fold (padded_sum l). lia.
Qed.

Lemma lease_plaintext_ok lease segments s0 rest pt lease' : segments = s0 :: rest -> short segments ->
  lease_ok lease segments -> lease_plaintext lease segments = (pt, lease') ->
  lease_ok lease' segments /\ (forall p, pt = Some p -> p = rest_record rest).
Proof.
  intros -> Hs Hl H. destruct lease as [l|]; cbn in H; [|by injection H as <- <-].
  destruct (securePlaintext l (s0 :: rest)) as [[p l']|] eqn:E; injection H as <- <-; [|done].
  unfold securePlaintext in E. destruct (_ || _) eqn:E1 in E; [done|]. bsplit.
  destruct (last (s0 :: rest)) as [s|] eqn:Elast; [|by apply last_None in Elast].
  destruct (_ || _ || _) eqn:E2 in E; [done|]. bsplit. cbn [drop] in E.
  assert (exists mid, rest = mid ++ [s]) as [mid ->].
  { destruct rest as [|s1 rest]; [cbn in H0; done|]. apply last_Some in Elast as [m Em].
    destruct m as [|? m]; injection Em as -> Em; [done|]. by exists m. }
  rewrite drop_0, removelast_last in E. inversion Hs as [|? ? _ Hs2]; subst. apply Forall_app in Hs2 as [Hmid Hlast].
  inversion Hlast as [|? ? Hls _]; subst. destruct (prefix_size 0 mid) as [size|] eqn:Es; [|done].
  cbn in E. apply prefix_size_eq in Es as [-> Hsz]; [|done|unfold LeasedPayloadPrefix; lia]. rewrite Z.add_0_l in *.
  assert (Data s <> []) as Hne by (intros Hn; by rewrite Hn in H1).
  destruct (Hl l s eq_refl H2 Elast Hne) as (Hm & pre & Hpre & Hst). injection E as <- <-.
  pose proof (padded_sum_nonneg mid Hmid) as Hp.
  destruct (split_at (LeasedPayloadPrefix - padded_sum mid) pre) as (p1 & p2 & -> & Hp1); [lia|]. rewrite len_app in Hpre.
  rewrite Hst. rewrite <- (app_assoc p1). unfold len in Hp1.
  assert (Z.to_nat (LeasedPayloadPrefix - padded_sum mid) = length p1) as Ep1 by (unfold len in Hp1; lia).
  rewrite Ep1, drop_app_length.
  change (p2 ++ Data s ++ epilogue_block) with ([] ++ p2 ++ Data s ++ epilogue_block).
  rewrite clear_mid by (unfold len in *; cbn; lia). 
  replace (length p2) with (Z.to_nat (padded_sum mid)) by (unfold len in *; lia).
  change 0 with (len ([] : bytes)). rewrite (copy_segments_eq mid []) by done. cbn [app].
  assert (pad (Data s) = Data s) as Hpad by (apply pad_aligned; [unfold MaxUint32 in Hls; lia|done]).
  split.
  - intros l2 s' [= <-] Hh Hl' Hne'. cbn in Hh. rewrite Elast in Hl'. injection Hl' as <-. split; [done|].
    exists (p1 ++ concat (pad ∘ Data <$> mid)). cbn [paddedPayload]. split.
    + rewrite len_app, len_concat_pad by done. unfold len in *. lia.
    + unfold slice. rewrite Z.sub_0_r, Ep1. rewrite drop_0, take_app_length. by rewrite <- app_assoc.
  - intros p [= <-]. unfold rest_record. rewrite fmap_app, concat_app. cbn. rewrite Hpad, app_nil_r. by rewrite <- app_assoc.
Qed.

Lemma seal_bind {A} k f p pt c (K : bytes -> RM secureDirection A) : 0 <= p < 2 ^ 64 ->
  Seal k (nonce_of f p) pt = Ok c -> (sealLocked pt ≫= K) (at_pos k f p) = K c (at_pos k f (p + 1)).
Proof. intros Hp H. unfold mbind, rm_bind. by rewrite seal_at, H. Qed.

Lemma slice_full (a b : bytes) n : n = len a -> slice 0 n (a ++ b) = a.
Proof. intros ->. apply slice_pre. Qed.

Lemma slice_app (a b c : bytes) m n : m = len a -> n = len a + len b -> slice m n (a ++ b ++ c) = b.
Proof.
  intros -> ->. unfold slice, len. rewrite Nat2Z.id, drop_app_length.
  replace (Z.to_nat _) with (length b) by lia. apply take_app_length.
Qed.

(** The first record, laid out in a buffer with any old contents. *)
Lemma first_layout tag ds (data wire : bytes) : (length ds <= 4)%nat -> securePreamble <= len wire ->
  exists old, len old = len wire - 80 /\
  blit PreambleSize (take (Z.to_nat secureInlineSize) data)
    (blit 0 (encodePreamble tag ds) (clear 0 (PreambleSize + secureInlineSize) wire))
  = first_record tag ds data ++ old.
Proof.
  intros Hd Hw. unfold securePreamble, PreambleSize, secureInlineSize, secureTagSize in *.
  destruct (split_at 80 wire) as (w1 & old & -> & H1); [lia|]. rewrite len_app in Hw. exists old.
  split; [rewrite len_app; lia|]. change (32 + 48) with 80.
  change (w1 ++ old) with ([] ++ w1 ++ old). rewrite clear_mid by (unfold len in *; cbn [length]; lia). cbn [app].
  assert (length (encodePreamble tag ds) = 32%nat) as HP by by apply length_preamble.
  assert (zeros (length w1) ++ old = [] ++ zeros 32 ++ zeros (Nat.min 48 (length data)) ++ zeros (48 - length data) ++ old) as ->.
  { cbn [app]. rewrite !app_assoc. f_equal. unfold zeros. rewrite <- !replicate_add. f_equal. unfold len in H1. lia. }
  rewrite (blit_mid 0) by (done || (unfold zeros; rewrite length_replicate; lia)). cbn [app].
  rewrite blit_mid by (unfold len; rewrite ?HP; unfold zeros; rewrite ?length_replicate, ?length_take; lia).
  unfold first_record. rewrite <- !app_assoc. do 3 f_equal.
Qed.

Lemma len_first_record tag ds data : (length ds <= 4)%nat -> len (first_record tag ds data) = 80.
Proof.
  intros H. unfold first_record. rewrite !len_app, len_zeros. unfold len. rewrite length_preamble, length_take by done. lia.
Qed.

(** The rest of the first segment. *)
Lemma second_layout (data old : bytes) : let size := paddedSecureLength (len data) - secureInlineSize in
  len data <= MaxUint32 -> 0 < size -> len old = size ->
  let plaintext := blit 0 (drop (Z.to_nat secureInlineSize) data) old in
  clear (len data - secureInlineSize) (len plaintext) plaintext = drop 48 (pad data).
Proof.
  cbv zeta. unfold secureInlineSize. change (Z.to_nat 48) with 48%nat. intros Hd Hsz Ho.
  unfold MaxUint32 in Hd. pose proof (len_nonneg data). destruct (padded_spec (len data)) as (Hp & Hm & _); [lia|].
  assert (48 <= len data) as Hl.
  { apply Z.mod_divide in Hm as [z Hz]; [|lia]. lia. }
  assert (len (drop 48 data) = len data - 48) as Hdr by (unfold len in *; rewrite length_drop; lia).
  destruct (split_at (len data - 48) old) as (o1 & o2 & -> & H1); [lia|]. rewrite len_app in Ho.
  change (o1 ++ o2) with ([] ++ o1 ++ o2). rewrite blit_mid by (done || (unfold len in *; lia)). cbn [app].
  rewrite clear_end by (rewrite ?len_app; lia). unfold pad. rewrite drop_app_le by (unfold len in *; lia).
  do 2 f_equal. unfold len in *. lia.
Qed.

Lemma rest_layout (rest : list Segment) (old : bytes) : short rest -> len old = padded_sum rest + secureBlockSize ->
  (let '(offset, remaining) := fill_segments 0 rest old in
   blit offset [byte.of_Z LateStatusComplete] (clear offset (len remaining) remaining)) = rest_record rest.
Proof.
  intros Hs Ho. unfold secureBlockSize in Ho. pose proof (padded_sum_nonneg rest Hs).
  destruct (split_at (padded_sum rest) old) as (o1 & o2 & -> & H1); [lia|]. rewrite len_app in Ho.
  change 0 with (len ([] : bytes)). change (o1 ++ o2) with ([] ++ o1 ++ o2).
  rewrite fill_segments_eq by done. cbn [app]. change (len ([] : bytes)) with 0. rewrite Z.add_0_l.
  rewrite clear_end by (rewrite ?len_app, ?len_concat_pad by done; lia).
  replace (length o2) with 16%nat by (unfold len in *; lia). unfold rest_record, epilogue_block.
  change (zeros 16) with ([Byte.x00] ++ zeros 15). rewrite blit_mid by (by rewrite ?len_concat_pad). done.
Qed.

Lemma remaining_size (rest : list Segment) : short rest -> (length rest <= 3)%nat ->
  foldl (fun size segment => u64 (size + paddedSecureLength (len (Data segment)))) secureBlockSize rest
  = padded_sum rest + secureBlockSize.
Proof.
  intros Hs Hl. assert (forall n, 0 <= n -> n + padded_sum rest <= 2 ^ 63 ->
    foldl (fun size segment => u64 (size + paddedSecureLength (len (Data segment)))) n rest = n + padded_sum rest) as H.
  { clear Hl. induction Hs as [|s l Hs Hsl IH]; intros n Hn Hb; [cbn; lia|]. cbn [foldl padded_sum foldr] in *.
    fold (padded_sum l) in *. destruct (padded_short s Hs) as [Hp _]. pose proof (len_nonneg (Data s)). pose proof (padded_sum_nonneg l Hsl).
    rewrite wrapU_id by (unfold inU; lia). rewrite IH by lia. lia. }
  pose proof (padded_sum_nonneg rest Hs). rewrite H; unfold secureBlockSize, len in *; lia.
Qed.

Lemma lift_bind {S A B} (a : A) (K : A -> RM S B) s : (lift (Ok a) ≫= K) s = K a s.
Proof. done. Qed.

Lemma bind_run {S A B} (m : RM S A) (K : A -> RM S B) s a s' : m s = (Ok a, s') -> (m ≫= K) s = K a s'.
Proof. intros H. unfold mbind, rm_bind. by rewrite H. Qed.

Lemma get_bind {S B} (K : S -> RM S B) s : (get_state ≫= K) s = K s s.
Proof. done. Qed.

Lemma len_rest_record rest : short rest -> len (rest_record rest) = padded_sum rest + secureBlockSize.
Proof. intros H. unfold rest_record. by rewrite len_app, len_concat_pad. Qed.

(** The last record, from the wire buffer or from the lease. *)
Lemma encode_last wire result segments s0 rest lease k f p old : segments = s0 :: rest ->
  short segments -> (1 <= length rest <= 3)%nat ->
  lease_ok lease segments -> wire = result ++ old -> padded_sum rest + 32 = len old -> 0 <= p < 2 ^ 64 ->
  exists c lease', Seal k (nonce_of f p) (rest_record rest) = Ok c /\ lease_ok lease' segments /\
  (let remaining := slice (len result) (len result + foldl (fun size segment => u64 (size + paddedSecureLength (len (Data segment))))
                      secureBlockSize (drop 1 segments)) wire in
   let '(plaintext, lease) := lease_plaintext lease segments in
   match plaintext with
   | Some plaintext =>
       if len plaintext =? len remaining then
         sealed ← sealLocked plaintext;
         let wire := blit (len result) sealed wire in
         mret (slice 0 (len result + len sealed) wire, lease)
       else encode_remaining wire result remaining segments lease
   | None => encode_remaining wire result remaining segments lease
   end) (at_pos k f p) = (Ok (result ++ c, lease'), at_pos k f (p + 1)).
Proof.
  intros -> Hs Hl Hlo -> Ho Hp. inversion Hs as [|? ? Hs0 Hsr]; subst. change (drop 1 (s0 :: rest)) with (drop 0 rest).
  rewrite drop_0. rewrite remaining_size by (done || lia).
  pose proof (padded_sum_nonneg rest Hsr) as Hps. pose proof (len_rest_record rest Hsr) as Hrr. unfold secureBlockSize in *.
  destruct (Seal_total k (nonce_of f p) (rest_record rest)) as [c Hc].
  { rewrite Hrr. unfold gcmMaxPlaintext. unfold len in *. lia. }
  pose proof (Seal_len _ _ _ _ Hc) as Hlc. rewrite Hrr in Hlc. unfold gcmTagSize in Hlc.
  destruct (lease_plaintext lease (s0 :: rest)) as [pt lease'] eqn:Elp.
  destruct (lease_plaintext_ok _ _ _ _ _ _ eq_refl Hs Hlo Elp) as [Hlo' Hpt].
  exists c, lease'. split_and!; [done..|]. cbv zeta.
  destruct (split_at (padded_sum rest + 16) old) as (o1 & o2 & -> & H1); [lia|]. rewrite len_app in Ho.
  rewrite slice_app by lia.
  assert (slice 0 (len result + len c) (blit (len result) c (result ++ o1 ++ o2)) = result ++ c) as Hout.
  { rewrite <- (app_nil_r (o1 ++ o2)), blit_mid by (done || (rewrite ?length_app; unfold len in *; lia)).
    rewrite app_nil_r. rewrite <- (app_nil_r (result ++ c)) at 1. by rewrite slice_full by (by rewrite len_app). }
  assert (encode_remaining (result ++ o1 ++ o2) result o1 (s0 :: rest) lease' (at_pos k f p)
    = (Ok (result ++ c, lease'), at_pos k f (p + 1))) as Hrem.
  { unfold encode_remaining. change (drop 1 (s0 :: rest)) with (drop 0 rest). rewrite drop_0.
    pose proof (rest_layout rest o1 Hsr H1) as HL. destruct (fill_segments 0 rest o1) as [off rem].
    rewrite HL. erewrite seal_bind by done. cbv zeta. by rewrite Hout. }
  destruct pt as [pt|]; [|done]. destruct (len pt =? len o1); [|done].
  rewrite (Hpt pt eq_refl). erewrite seal_bind by done. cbv zeta. by rewrite Hout.
Qed.

Lemma encode_second (data result wire old : bytes) k f p (long : bool) :
  long = (secureInlineSize <? paddedSecureLength (len data)) ->
  wire = result ++ old -> len data <= MaxUint32 ->
  (if long then paddedSecureLength (len data) - 48 + 16 else 0) <= len old ->
  p + (if long then 1 else 0) <= 2 ^ 64 -> 0 <= p ->
  exists rs old', sealed k f p (if long then [drop 48 (pad data)] else []) rs /\
  len old' = len old - (if long then paddedSecureLength (len data) - 48 + 16 else 0) /\
  (if secureInlineSize <? paddedSecureLength (len data) then
     let plaintext := slice (len result) (len result + (paddedSecureLength (len data) - secureInlineSize)) wire in
     let plaintext := blit 0 (drop (Z.to_nat secureInlineSize) data) plaintext in
     let plaintext := clear (len data - secureInlineSize) (len plaintext) plaintext in
     sealed ← sealLocked plaintext;
     let wire := blit (len result) sealed wire in
     mret (wire, slice 0 (len result + len sealed) wire)
   else mret (wire, result)) (at_pos k f p)
  = (Ok ((result ++ concat rs) ++ old', result ++ concat rs), at_pos k f (p + (if long then 1 else 0))).
Proof.
  intros -> -> Hd Ho Hav Hp. destruct (Z.ltb_spec secureInlineSize (paddedSecureLength (len data))) as [Hlt|].
  2: { exists [], old. split_and!; [done|lia|]. cbn [concat]. by rewrite app_nil_r, Z.add_0_r. }
  unfold secureInlineSize in *.
  destruct (split_at (paddedSecureLength (len data) - 48) old) as (o1 & o & -> & H1); [lia|]. rewrite len_app in Ho.
  destruct (split_at 16 o) as (o2 & o3 & -> & H2); [lia|]. rewrite !len_app in *.
  assert (len (drop 48 (pad data)) = paddedSecureLength (len data) - 48) as Hl.
  { pose proof (len_pad data) as Hlp. unfold MaxUint32 in Hd. specialize (Hlp ltac:(lia)). unfold len in *. rewrite length_drop. lia. }
  destruct (Seal_total k (nonce_of f p) (drop 48 (pad data))) as [c Hc].
  { destruct (padded_spec (len data)); [pose proof (len_nonneg data); unfold MaxUint32 in *; lia|].
    rewrite Hl. unfold gcmMaxPlaintext, MaxUint32 in *. lia. }
  pose proof (Seal_len _ _ _ _ Hc) as Hlc. rewrite Hl in Hlc. unfold gcmTagSize in Hlc.
  exists [c], o3. split_and!; [done|lia|]. cbv zeta. rewrite slice_app by lia.
  rewrite second_layout by (unfold secureInlineSize; done || lia).
  erewrite seal_bind by (done || lia). cbn [concat]. rewrite app_nil_r.
  rewrite (app_assoc o1 o2), (blit_mid (len result)) by (done || (rewrite ?length_app; unfold len in *; lia)).
  rewrite app_assoc, slice_full by (by rewrite len_app). done.
Qed.

Lemma encodeInto_eq frame limits lease wire k f p ds segs size n :
  Forall (fun s => inU 16 (Alignment s)) (Segments frame) ->
  prepareSecureFrame frame limits = Ok (ds, segs, size, n) -> lease_ok lease segs -> 0 <= p <= 2 ^ 64 ->
  let ps := plain_records (Tag frame) segs in
  if p + len ps <=? 2 ^ 64 then
    exists rs lease', sealed k f p ps rs /\ lease_ok lease' segs /\
    encodeInto frame limits lease wire (at_pos k f p) = (Ok (concat rs, lease'), at_pos k f (p + len ps))
  else encodeInto frame limits lease wire (at_pos k f p) = (Err msgr_ErrCounterExhausted, at_pos k f p).
Proof.
  intros Hal HP Hlo Hp ps. destruct (prepareSecureFrame_ok _ _ _ _ _ _ Hal HP) as
    (_ & -> & Hs & HN & _ & Hsize & -> & Hsz & Hsz2 & _). fold ps in HP.
  unfold encodeInto. rewrite HP, lift_bind. cbv beta iota.
  rewrite get_bind, available_at by (done || apply len_nonneg). fold ps.
  destruct (Z.leb_spec (p + len ps) (2 ^ 64)) as [Hav|Hav]; cbn [negb]; [|done].
  destruct segs as [|s0 rest]; [by destruct HN as [[? _] _]; cbn in *; lia|]. set (segs := s0 :: rest) in *.
  inversion Hs as [|? ? Hs0 Hsr]; subst. destruct HN as [HN _].
  assert (index segs 0 = Ok s0) as -> by done. rewrite lift_bind. cbv zeta.
  set (w0 := if len wire <? _ then _ else _).
  assert (len w0 = wire_size segs) as Hw0.
  { unfold w0. unfold securePreamble, PreambleSize, secureInlineSize, secureTagSize in Hsz. destruct (Z.ltb_spec (len wire) (wire_size segs)); [rewrite len_zeros; lia|].
    unfold len in *. rewrite length_take. lia. }
  clearbody w0. destruct (first_layout (Tag frame) (desc_of <$> segs) (Data s0) w0) as (old & Hold & ->).
  { rewrite length_fmap. lia. } { lia. }
  assert (len (first_record (Tag frame) (desc_of <$> segs) (Data s0)) = 80) as Hfr by (apply len_first_record; rewrite length_fmap; lia).
  change (PreambleSize + secureInlineSize) with 80. rewrite slice_full by done.
  destruct (Seal_total k (nonce_of f p) (first_record (Tag frame) (desc_of <$> segs) (Data s0))) as [c1 Hc1].
  { rewrite Hfr. unfold gcmMaxPlaintext. lia. }
  pose proof (Seal_len _ _ _ _ Hc1) as Hl1. rewrite Hfr in Hl1. unfold gcmTagSize in Hl1.
  assert (1 <= len ps) as Hps1 by (unfold ps, segs, plain_records; rewrite len_cons; match goal with |- context [1 + len ?l] => pose proof (len_nonneg l) end; lia).
  erewrite seal_bind by (done || lia).
  assert (exists old1, blit 0 c1 (first_record (Tag frame) (desc_of <$> segs) (Data s0) ++ old) = c1 ++ old1 /\ len old1 = wire_size segs - 96) as (old1 & -> & Hold1).
  { destruct (split_at 16 old) as (o1 & o2 & -> & H1); [unfold securePreamble, PreambleSize, secureInlineSize, secureTagSize in Hsz; lia|].
    exists o2. rewrite len_app in Hold. split; [|lia]. rewrite app_assoc.
    apply (blit_mid 0 c1 []); [done|]. rewrite length_app. unfold len in *. lia. }
  unfold wire_size, segs, securePreamble, PreambleSize, secureInlineSize, secureTagSize, secureBlockSize in Hold1. fold segs in Hold1.
  unfold ps, plain_records, segs in Hav |- *. fold segs in Hav |- *. rewrite len_cons, len_app in Hav |- *.
  assert (len (if long_first segs then [drop 48 (pad (Data s0))] else []) = if long_first segs then 1 else 0) as Hlf by (by destruct (long_first segs)).
  rewrite Hlf in Hav |- *. pose proof (len_nonneg (if 1 <? len segs then [rest_record rest] else [])) as Hlr.
  pose proof (padded_sum_nonneg rest Hsr) as Hps.
  destruct (encode_second (Data s0) c1 (c1 ++ old1) old1 k f (p + 1) (long_first segs)) as (rs & old2 & Hrs & Hold2 & E2);
    [done|done|done| | |lia|].
  { destruct (long_first segs), (1 <? len segs); lia. }
  { lia. }
  erewrite bind_run by exact E2. clear E2. cbv beta iota.
  destruct (Z.eqb_spec (len segs) 1) as [E1|E1].
  - exists (c1 :: rs), lease. assert (1 <? len segs = false) as -> by (apply Z.ltb_ge; lia). rewrite app_nil_r.
    split_and!; [done..|]. cbn [concat]. unfold mret, rm_ret. f_equal. f_equal. change (len (@nil bytes)) with 0. lia.
  - assert (1 <? len segs = true) as E3 by (apply Z.ltb_lt; unfold len, segs in *; cbn [length] in *; lia). rewrite E3 in *.
    destruct (encode_last ((c1 ++ concat rs) ++ old2) (c1 ++ concat rs) segs s0 rest lease k f (p + 1 + (if long_first segs then 1 else 0)) old2)
      as (c & lease' & Hc & Hlo' & E); [done|done| |done|done| | |].
    { unfold segs in HN. cbn [length] in HN. unfold len, segs in E1. cbn [length] in E1. lia. }
    { destruct (long_first segs); lia. } { change (len [rest_record rest]) with 1 in Hav. destruct (long_first segs); lia. }
    exists (c1 :: rs ++ [c]), lease'. split_and!; [|done|].
    + cbn [sealed app]. split; [done|]. destruct (long_first segs).
      * destruct rs as [|c2 [|]]; [done| |by destruct Hrs as [_ []]]. cbn. split; [apply Hrs|]. done.
      * destruct rs; [|done]. cbn. rewrite Z.add_0_r in Hc. done.
    + etransitivity; [exact E|]. cbn [concat]. rewrite concat_app. cbn [concat]. rewrite app_nil_r, <- !app_assoc.
      f_equal. f_equal. change (len [rest_record rest]) with 1. lia.
Qed.

Lemma padded_lease_ok storage payload l : NewPaddedMessageLease storage payload true = Ok l ->
  slice LeasedPayloadPrefix (LeasedPayloadPrefix + len payload) storage = payload -> padded_ok l payload.
Proof.
  unfold NewPaddedMessageLease. destruct (_ || _) eqn:E; [done|]. bsplit. intros [= <-] Hs.
  repeat match goal with H : (_ =? _) = true |- _ => apply Z.eqb_eq in H end.
  match goal with H : len storage = _ |- _ => rename H into Hst end. pose proof (len_nonneg payload).
  unfold LeasedPayloadPadding, secureBlockSize, LeasedPayloadPrefix in *. split; [done|].
  destruct (split_at 1024 storage) as (pre & st & -> & Hpre); [lia|]. rewrite len_app in Hst.
  destruct (split_at (len payload) st) as (pl & tail & -> & Hpl); [lia|]. rewrite !len_app in *.
  rewrite slice_app in Hs by lia. subst pl. exists pre. split; [done|]. cbn [paddedPayload].
  rewrite (app_assoc pre), clear_end by (rewrite ?len_app; lia). rewrite (len_app (pre ++ payload)), len_zeros, !len_app.
  replace (length tail) with 16%nat by (unfold len in *; lia). change (zeros 16) with ([Byte.x00] ++ zeros 15).
  rewrite blit_mid by (rewrite ?len_app; done || lia). by rewrite <- app_assoc.
Qed.

Lemma add_padded_no_panic w l : add_padded w l <> Panic.
Proof. revert w. induction l as [|x l IH]; intros w; [done|]. cbn [add_padded]. by destruct (_ <? _). Qed.

Lemma secure_sizes_no_panic l limits : l <> [] -> secure_sizes l limits <> Panic.
Proof.
  intros Hl. unfold secure_sizes. destruct l as [|x l]; [done|].
  match goal with |- context [index (?x :: ?l) 0] => change (index (x :: l) 0) with (Ok x) end. rewrite bind_Ok. cbv zeta.
  assert (forall w r, (if 1 <? len (x :: l) then wireSize ← add_padded (u64 (w + secureBlockSize + secureTagSize)) (drop 1 (x :: l)); Ok (wireSize, r + 1) else Ok (w, r)) <> Panic) as H.
  { intros w r. destruct (1 <? _); [|done]. pose proof (add_padded_no_panic (u64 (w + secureBlockSize + secureTagSize)) (drop 1 (x :: l))).
    by destruct (add_padded _ _). }
  destruct (secureInlineSize <? _).
  - match goal with |- (?m ≫= _) <> _ => pose proof (H (u64 (securePreamble + paddedSecureLength x - secureInlineSize + secureTagSize)) 2); destruct m as [[w r]| |]; [|done..] end.
    cbn. by destruct (_ || _).
  - match goal with |- (?m ≫= _) <> _ => pose proof (H securePreamble 1); destruct m as [[w r]| |]; [|done..] end.
    cbn. by destruct (_ || _).
Qed.

Lemma prepareSecureFrame_no_panic frame limits : prepareSecureFrame frame limits <> Panic.
Proof.
  unfold prepareSecureFrame. destruct (normalizeSegments (Segments frame)) as [segs| |] eqn:Hn; [|done|].
  2: { unfold normalizeSegments in Hn. by destruct (_ || _). }
  rewrite bind_Ok. destruct (negb _); [done|].
  assert (secure_describe limits segs <> Panic) as Hd.
  { clear. induction segs as [|s l IH]; [done|]. cbn [secure_describe]. destruct (_ || _); [done|]. destruct (negb _); [done|].
    by destruct (secure_describe limits l). }
  destruct (secure_describe limits segs); [rewrite bind_Ok|done|done].
  apply normalizeSegments_ok in Hn as [[Hn _] _].
  pose proof (secure_sizes_no_panic ((fun s => len (Data s)) <$> segs) limits) as H.
  destruct (secure_sizes _ _) as [[w r]| |]; [done|done|]. destruct H; [|done]. destruct segs; [cbn in Hn; lia|done].
Qed.

End encode.

(** ** What [Read] delivers *)

Lemma allZero_zeros n : allZero (zeros n) = true.
Proof. induction n as [|n IH]; [done|]. unfold zeros in *. cbn. done. Qed.

Lemma first_segment_short tag ds data : (length ds <= 4)%nat -> len data <= 48 ->
  slice PreambleSize (PreambleSize + secureInlineSize) (first_record tag ds data) = data ++ zeros (48 - length data).
Proof.
  intros Hd Hl. unfold first_record. rewrite take_ge by (unfold len in Hl; lia).
  rewrite <- (app_nil_r (data ++ zeros _)) at 1. apply slice_app.
  - unfold len. by rewrite length_preamble.
  - rewrite len_app, len_zeros. unfold len in *. rewrite length_preamble by done. unfold PreambleSize, secureInlineSize. lia.
Qed.

Lemma first_segment_long tag ds data : (length ds <= 4)%nat -> len data <= MaxUint32 ->
  48 < paddedSecureLength (len data) ->
  drop (Z.to_nat PreambleSize) (first_record tag ds data) ++ drop 48 (pad data) = pad data.
Proof.
  intros Hd Hl H. unfold MaxUint32 in Hl. pose proof (len_nonneg data). destruct (padded_spec (len data)) as (Hp & Hm & _); [lia|].
  assert (48 <= len data) as Hl48 by (apply Z.mod_divide in Hm as [z Hz]; [lia|lia]).
  unfold first_record. rewrite drop_app_length' by (by rewrite length_preamble).
  replace (48 - length data)%nat with 0%nat by (unfold len in *; lia). cbn [zeros replicate].
  rewrite app_nil_r. unfold pad. rewrite drop_app_le by (unfold len in *; lia). by rewrite app_assoc, take_drop.
Qed.

Lemma take_segments_eq segs (pre post : bytes) : short segs ->
  take_segments (len pre) (desc_of <$> segs) (pre ++ concat (pad ∘ Data <$> segs) ++ post)
  = Ok (len pre + padded_sum segs, segs).
Proof.
  intros H. revert pre. induction H as [|s l Hs _ IH]; intros pre; [cbn; by rewrite Z.add_0_r|].
  cbn [take_segments fmap list_fmap]. destruct (padded_short s Hs) as [Hp Hlp]. pose proof (len_nonneg (Data s)).
  cbn [desc_of sd_length sd_alignment concat]. change ((pad ∘ Data) s) with (pad (Data s)).
  assert (pre ++ (pad (Data s) ++ concat (pad ∘ Data <$> l)) ++ post
    = (pre ++ pad (Data s)) ++ concat (pad ∘ Data <$> l) ++ post) as E by (by rewrite <- !app_assoc).
  assert (slice (len pre) (len pre + len (Data s)) (pre ++ (pad (Data s) ++ concat (pad ∘ Data <$> l)) ++ post) = Data s) as ->.
  { unfold pad at 1. rewrite <- !app_assoc. by apply slice_app. }
  assert (slice (len pre + len (Data s)) (len pre + paddedSecureLength (len (Data s)))
     (pre ++ (pad (Data s) ++ concat (pad ∘ Data <$> l)) ++ post) = zeros (Z.to_nat (paddedSecureLength (len (Data s)) - len (Data s)))) as ->.
  { unfold pad at 1. rewrite <- !app_assoc, (app_assoc pre). apply slice_app; rewrite len_app; [done|]. rewrite len_zeros. lia. }
  rewrite allZero_zeros. cbn [negb]. rewrite E, <- Hlp, <- len_app, IH, bind_Ok. rewrite len_app, Hlp.
  cbn [padded_sum foldr]. fold (padded_sum l). do 2 f_equal; [lia|]. by destruct s.
Qed.

Lemma check_descriptors_eq limits segs :
  check_descriptors limits (desc_of <$> segs) = Ok tt \/
  (exists e, check_descriptors limits (desc_of <$> segs) = Err e) /\
  ~ Forall (fun s => validAlignment (Alignment s) = true /\ len (Data s) <= MaxSegmentBytes limits) segs.
Proof.
  induction segs as [|s l IH]; [by left|]. cbn [check_descriptors fmap list_fmap desc_of sd_alignment sd_length].
  destruct (validAlignment (Alignment s)) eqn:Ha; cbn [negb].
  2: { right. split; [by eexists|]. rewrite Forall_cons, Ha. by intros [[? _] _]. }
  destruct (Z.ltb_spec (MaxSegmentBytes limits) (len (Data s))).
  - right. split; [by eexists|]. rewrite Forall_cons. intros [[_ ?] _]. lia.
  - destruct IH as [->|[He Hn]]; [by left|]. right. split; [done|]. rewrite Forall_cons. by intros [_ ?].
Qed.

Lemma secure_memory_rest s0 rest backed inline peak retained remaining : short (s0 :: rest) -> (1 <= length rest <= 3)%nat ->
  secure_memory (paddedSecureLength (len (Data s0))) (wire_size (s0 :: rest)) backed inline = (peak, retained, remaining) ->
  remaining = len (rest_record rest) + 16.
Proof.
  intros Hs Hl. inversion Hs as [|? ? Hs0 Hsr]; subst. destruct (padded_short s0 Hs0) as [Hp _]. pose proof (len_nonneg (Data s0)).
  pose proof (padded_sum_nonneg rest Hsr). rewrite len_rest_record by done. unfold secure_memory, wire_size.
  assert (1 <? len (s0 :: rest) = true) as -> by (apply Z.ltb_lt; unfold len; cbn [length]; lia).
  assert (len rest <= 3) by (unfold len; lia).
  unfold long_first, securePreamble, PreambleSize, secureInlineSize, secureTagSize, secureBlockSize in *.
  intros E. assert (remaining = (if 48 <? paddedSecureLength (len (Data s0))
    then u64 (u64 (32 + 48 + 16 + (if 48 <? paddedSecureLength (len (Data s0)) then paddedSecureLength (len (Data s0)) - 48 + 16 else 0)
       + (padded_sum rest + 16 + 16) - (32 + 48 + 16)) - (paddedSecureLength (len (Data s0)) - 48 + 16))
    else u64 (32 + 48 + 16 + (if 48 <? paddedSecureLength (len (Data s0)) then paddedSecureLength (len (Data s0)) - 48 + 16 else 0)
       + (padded_sum rest + 16 + 16) - (32 + 48 + 16)))) as ->.
  { destruct (if 48 <? paddedSecureLength (len (Data s0)) then _ else _) as [pk rt] in E. by destruct inline; injection E as <- <- <-. }
  destruct (Z.ltb_spec 48 (paddedSecureLength (len (Data s0)))).
  - rewrite (wrapU_id 64 (_ - (32 + 48 + 16))) by (unfold inU; lia). rewrite wrapU_id by (unfold inU; lia). lia.
  - rewrite wrapU_id by (unfold inU; lia). lia.
Qed.

Section supplied.
Context {AE : AEAD} {R : Type} {RD : Reader R}.
Variables (k : aead_key) (f : Z) (E : error -> Prop).

(** [supply p ps r]: from position [p] on, whatever the reader delivers opens
    to the plaintexts [ps], in this order, or the read fails with an error
    in [E]. *)
Variable supply : Z -> list bytes -> R -> Prop.

Hypothesis supply_account : forall p ps r (m : RM R unit),
  m = reserveReceivePrelude \/ m = releaseReceivePrelude \/
  (exists n, m = reserveReceiveBytes n) \/ (exists n, m = receiveBacking n) ->
  supply p ps r -> wp E m r (fun _ r' => supply p ps r').

Hypothesis supply_open : forall p pt ps r n, 0 <= p < 2 ^ 64 -> n = len pt + 16 -> supply p (pt :: ps) r ->
  wp E (wrap msgr_ErrMalformed (ReadFull n)) r (fun c r' =>
    wp E (openLocked c) (at_pos k f p) (fun x d' => x = pt /\ d' = at_pos k f (p + 1) /\ supply (p + 1) ps r')).

Lemma wp_on_reader {A} (m : RM R A) r d (Q : A -> R * secureDirection -> Prop) :
  wp E m r (fun a r' => Q a (r', d)) -> wp E (on_reader m) (r, d) Q.
Proof. unfold wp, on_reader. cbn. by destruct (m r) as [[] ?]. Qed.

Lemma wp_on_direction {A} (m : RM secureDirection A) r d (Q : A -> R * secureDirection -> Prop) :
  wp E m d (fun a d' => Q a (r, d')) -> wp E (on_direction m) (r, d) Q.
Proof. unfold wp, on_direction. cbn. by destruct (m d) as [[] ?]. Qed.

Lemma wp_account_supply m p ps r d (Q : unit -> R * secureDirection -> Prop) :
  m = reserveReceivePrelude \/ m = releaseReceivePrelude \/
  (exists n, m = reserveReceiveBytes n) \/ (exists n, m = receiveBacking n) ->
  supply p ps r -> (forall r', supply p ps r' -> Q tt (r', d)) -> wp E (on_reader m) (r, d) Q.
Proof.
  intros Hm Hs HQ. apply wp_on_reader. eapply wp_mono; [by eapply supply_account|]. intros [] r' H. by apply HQ.
Qed.

(** Reading and opening one record. *)
Lemma wp_record {A} p pt ps r n (K : bytes -> RM (R * secureDirection) A) Q : 0 <= p < 2 ^ 64 -> n = len pt + 16 ->
  supply p (pt :: ps) r -> (forall r', supply (p + 1) ps r' -> wp E (K pt) (r', at_pos k f (p + 1)) Q) ->
  wp E (ciphertext ← on_reader (wrap msgr_ErrMalformed (ReadFull n)); plain ← on_direction (openLocked ciphertext); K plain)
    (r, at_pos k f p) Q.
Proof.
  intros Hp Hn Hs HK. apply wp_bind, wp_on_reader. eapply wp_mono; [by eapply supply_open|].
  intros c r' Hc. apply wp_bind, wp_on_direction. eapply wp_mono; [exact Hc|]. intros x d' (-> & -> & Hs'). by apply HK.
Qed.

Lemma wp_finish tag s0 rest p ps r d (Q : Frame -> R * secureDirection -> Prop) retained : short rest -> supply p ps r ->
  (forall r', supply p ps r' -> Q (mkFrame tag (s0 :: rest)) (r', d)) ->
  wp E (finish_frame tag s0 (desc_of <$> s0 :: rest) retained (rest_record rest)) (r, d) Q.
Proof.
  intros Hs Hr HQ. unfold finish_frame. cbn [fmap list_fmap drop]. rewrite drop_0.
  pose proof (take_segments_eq rest [] epilogue_block Hs) as HT. cbn [app] in HT. change (len (@nil Byte.byte)) with 0 in HT.
  unfold rest_record. change (list_fmap Segment segmentDescriptor desc_of rest) with (desc_of <$> rest). rewrite HT.
  apply wp_bind, wp_lift. cbv beta iota zeta.
  assert (drop (Z.to_nat (0 + padded_sum rest)) (concat (pad ∘ Data <$> rest) ++ epilogue_block) = epilogue_block) as ->.
  { apply drop_app_length'. pose proof (len_concat_pad rest Hs) as H. unfold len in H. lia. }
  cbn -[wp]. apply wp_bind. eapply wp_account_supply; [by eauto|exact Hr|]. intros r' Hr'. apply wp_ret. by apply HQ.
Qed.

Lemma wp_read_records tag segs s0 rest backed p ps r (Q : Frame -> R * secureDirection -> Prop) : segs = s0 :: rest ->
  short segs -> (length segs <= 4)%nat -> 1 <= p -> p + len (plain_records tag segs) - 1 <= 2 ^ 64 ->
  supply p (drop 1 (plain_records tag segs) ++ ps) r ->
  (forall r', supply (p + len (plain_records tag segs) - 1) ps r' ->
     Q (mkFrame tag segs) (r', at_pos k f (p + len (plain_records tag segs) - 1))) ->
  wp E (read_records tag (desc_of <$> segs) (first_record tag (desc_of <$> segs) (Data s0)) (wire_size segs) backed)
    (r, at_pos k f p) Q.
Proof.
  intros -> Hs Hl Hp Hav Hr HQ. inversion Hs as [|? ? Hs0 Hsr]; subst. destruct (padded_short s0 Hs0) as [Hpd _].
  assert (length (desc_of <$> s0 :: rest) <= 4)%nat as Hld by (by rewrite length_fmap).
  assert (len (desc_of <$> s0 :: rest) = len (s0 :: rest)) as Elen by (unfold len; by rewrite length_fmap).
  unfold read_records. assert (index (desc_of <$> s0 :: rest) 0 = Ok (desc_of s0)) as -> by done.
  apply wp_bind, wp_lift. cbv beta zeta. change (sd_length (desc_of s0)) with (len (Data s0)). rewrite Elen.
  destruct (secure_memory _ _ _ _) as [[peak retained] remaining] eqn:Emem. cbv beta iota.
  set (inline := _ && _ && _) in *. clearbody inline.
  apply wp_bind. eapply wp_account_supply; [by eauto|exact Hr|]. clear r Hr. intros r Hr.
  apply wp_bind. assert (forall Q', (forall r', supply p (drop 1 (plain_records tag (s0 :: rest)) ++ ps) r' -> Q' tt (r', at_pos k f p)) ->
    wp E (if negb inline then on_reader releaseReceivePrelude else mret tt) (r, at_pos k f p) Q') as Hrel.
  { intros Q' HQ'. destruct inline; cbn [negb]; [by apply wp_ret, HQ'|]. eapply wp_account_supply; [by eauto|exact Hr|done]. }
  apply Hrel. clear r Hr Hrel. intros r Hr.
  unfold plain_records in Hr, Hav, HQ. cbn [drop] in Hr. rewrite drop_0 in Hr. rewrite len_cons, len_app in Hav, HQ.
  assert (forall q r' data, data = Data s0 ++ zeros (length data - length (Data s0)) -> 0 <= q ->
    q = p + (if long_first (s0 :: rest) then 1 else 0) ->
    supply q ((if 1 <? len (s0 :: rest) then [rest_record rest] else []) ++ ps) r' ->
    wp E (if negb (allZero (drop (Z.to_nat (len (Data s0))) data)) then throw msgr_ErrMalformed
      else if len (s0 :: rest) =? 1 then _ ← on_reader (reserveReceiveBytes retained);
             mret (mkFrame tag [mkSegment (sd_alignment (desc_of s0)) (take (Z.to_nat (len (Data s0))) data)])
      else
      _ ← on_reader (receiveBacking remaining);
      ciphertext ← on_reader (wrap msgr_ErrMalformed (ReadFull remaining));
      remaining ← on_direction (openLocked ciphertext);
      finish_frame tag (mkSegment (sd_alignment (desc_of s0)) (take (Z.to_nat (len (Data s0))) data)) (desc_of <$> s0 :: rest) retained remaining)
      (r', at_pos k f q) Q) as Hrest.
  { intros q r' data Hdata Hq0 Hq Hr'. rewrite Hdata.
    assert (Z.to_nat (len (Data s0)) = length (Data s0)) as -> by (unfold len; lia).
    rewrite drop_app_length, take_app_length, allZero_zeros. cbn [negb].
    change (mkSegment (sd_alignment (desc_of s0)) (Data s0)) with (mkSegment (Alignment s0) (Data s0)).
    replace (mkSegment (Alignment s0) (Data s0)) with s0 by (by destruct s0).
    assert (len (if long_first (s0 :: rest) then [drop 48 (pad (Data s0))] else []) = if long_first (s0 :: rest) then 1 else 0) as Hlf by (by destruct (long_first _)).
    rewrite Hlf in HQ, Hav.
    destruct (Z.eqb_spec (len (s0 :: rest)) 1) as [E1|E1].
    - apply wp_bind. assert (1 <? len (s0 :: rest) = false) as E3 by (apply Z.ltb_ge; lia). rewrite E3 in *.
      eapply wp_account_supply; [by eauto|exact Hr'|]. intros r'' Hr''. apply wp_ret.
      assert (rest = []) as -> by (destruct rest; [done|unfold len in E1; cbn [length] in E1; lia]).
      change (len (@nil bytes)) with 0 in HQ. subst q.
      replace (p + (1 + ((if long_first [s0] then 1 else 0) + 0)) - 1) with (p + (if long_first [s0] then 1 else 0)) in HQ by lia.
      by apply HQ.
    - assert (1 <? len (s0 :: rest) = true) as E3 by (apply Z.ltb_lt; unfold len in *; cbn [length] in *; lia). rewrite E3 in *.
      change (len [rest_record rest]) with 1 in *.
      assert (1 <= length rest <= 3)%nat as Hlr by (unfold len in E1; cbn [length] in *; lia).
      apply wp_bind. eapply wp_account_supply; [by eauto|exact Hr'|]. clear r' Hr'. intros r' Hr'.
      eapply wp_record; [lia|by eapply secure_memory_rest|exact Hr'|]. clear r' Hr'. intros r' Hr'.
      apply wp_finish with (p := q + 1) (ps := ps); [done|done|]. intros r'' Hr''. subst q.
      replace (p + (1 + ((if long_first (s0 :: rest) then 1 else 0) + 1)) - 1) with (p + (if long_first (s0 :: rest) then 1 else 0) + 1) in HQ by lia.
      by apply HQ. }
  unfold long_first in *. destruct (Z.ltb_spec secureInlineSize (paddedSecureLength (len (Data s0)))) as [Hlong|Hshort].
  - apply wp_bind. rewrite <- app_assoc in Hr. eapply wp_record; [|  |exact Hr|].
    { change (len [drop 48 (pad (Data s0))]) with 1 in Hav. pose proof (len_nonneg (if 1 <? len (s0 :: rest) then [rest_record rest] else [])). lia. }
    { pose proof (len_pad (Data s0)) as Hlp. unfold MaxUint32 in Hs0. specialize (Hlp ltac:(lia)).
      unfold secureInlineSize, secureTagSize in *. unfold len in *. rewrite length_drop. lia. }
    clear r Hr. intros r Hr. apply wp_ret. rewrite first_segment_long by done.
    apply Hrest; [|lia|done|exact Hr]. unfold pad. f_equal. rewrite length_app. unfold zeros. rewrite length_replicate. f_equal. lia.
  - apply wp_bind, wp_ret. rewrite first_segment_short by (done || (unfold secureInlineSize in *; lia)).
    apply Hrest; [|lia|lia|].
    + f_equal. rewrite length_app. unfold zeros. rewrite length_replicate. f_equal. lia.
    + exact Hr.
Qed.

Definition limits_fit (limits : FrameLimits) (segs : list Segment) : Prop :=
  wire_size segs <= MaxFrameBytes limits /\
  Forall (fun s => validAlignment (Alignment s) = true /\ len (Data s) <= MaxSegmentBytes limits) segs.

Lemma wp_Read tag segs p ps r limits (Q : Frame -> R * secureDirection -> Prop) : frame_ok (mkFrame tag segs) ->
  short segs -> 0 <= p -> p + len (plain_records tag segs) <= 2 ^ 64 ->
  (forall e, E e) \/ limits_fit limits segs -> supply p (plain_records tag segs ++ ps) r ->
  (forall r', supply (p + len (plain_records tag segs)) ps r' ->
     Q (mkFrame tag segs) (r', at_pos k f (p + len (plain_records tag segs)))) ->
  wp E (Read limits) (r, at_pos k f p) Q.
Proof.
  intros Hok Hs Hp Hav HE Hr HQ. pose proof Hok as (_ & Hl & _). cbn [Segments] in Hl. rewrite length_fmap in Hl.
  assert (exists s0 rest, segs = s0 :: rest) as (s0 & rest & Hsegs) by (destruct segs; [cbn in Hl; lia|by eexists _, _]).
  assert (exists recs, plain_records tag segs = first_record tag (desc_of <$> segs) (Data s0) :: recs) as [recs Hrecs] by (rewrite Hsegs; by eexists).
  assert (1 <= len (plain_records tag segs)) as Hn by (rewrite Hrecs, len_cons; pose proof (len_nonneg recs); lia).
  destruct (secure_sizes_eq tag segs limits Hs Hl) as [Hw Hsz].
  unfold Read. apply wp_bind. unfold wp at 1, get_state. cbv beta iota. rewrite available_at by lia.
  destruct (Z.leb_spec (p + 1) (2 ^ 64)); [|lia]. cbn [negb].
  destruct (Z.ltb_spec (MaxFrameBytes limits) securePreamble) as [Hlim|Hlim].
  { apply wp_throw. destruct HE as [HE|[HE _]]; [apply HE|lia]. }
  apply wp_bind. eapply wp_account_supply; [by eauto|exact Hr|]. clear r Hr. intros r Hr.
  apply wp_bind. unfold wp at 1, get_state. cbv beta iota zeta. generalize (receivePreludeBuffer r). intros backed.
  rewrite Hrecs in Hr. cbn [app] in Hr.
  assert (len (first_record tag (desc_of <$> segs) (Data s0)) = 80) as Hfr by (apply len_first_record; rewrite length_fmap; lia).
  eapply wp_record; [lia|by rewrite Hfr|exact Hr|]. clear r Hr. intros r Hr.
  assert (slice 0 PreambleSize (first_record tag (desc_of <$> segs) (Data s0)) = encodePreamble tag (desc_of <$> segs)) as ->.
  { unfold first_record. apply slice_full. unfold len. rewrite length_preamble by (rewrite length_fmap; lia). done. }
  rewrite decode_encodePreamble by exact Hok. apply wp_bind, wp_lift. cbv beta iota.
  assert (sd_length <$> (desc_of <$> segs) = (fun s => len (Data s)) <$> segs) as Esd by (by rewrite <- list_fmap_compose).
  unfold validateSecureDescriptors. rewrite Esd, Hsz. apply wp_bind, wp_lift.
  destruct (check_descriptors_eq limits segs) as [->|[[e ->] Hnf]]; cbn [mbind res_bind].
  2: { destruct HE as [HE|[_ HE]]; [apply HE|done]. }
  destruct (_ || _) eqn:Hor.
  { destruct HE as [HE|[HE _]]; [apply HE|]. apply orb_true_iff in Hor as [Hor|Hor]; apply Z.ltb_lt in Hor; unfold maxInt in *; lia. }
  apply wp_bind. unfold wp at 1, get_state. cbv beta iota. rewrite available_at by lia.
  destruct (Z.leb_spec (p + 1 + (len (plain_records tag segs) - 1)) (2 ^ 64)); [|lia]. cbn [negb].
  eapply wp_read_records; [exact Hsegs|done|lia|lia|lia| |].
  - rewrite Hrecs. cbn [drop]. rewrite drop_0. exact Hr.
  - replace (p + 1 + len (plain_records tag segs) - 1) with (p + len (plain_records tag segs)) by lia. done.
Qed.

(** Nothing more was sealed: the first record does not open. *)
Lemma wp_Read_end p r limits (Q : Frame -> R * secureDirection -> Prop) : 0 <= p <= 2 ^ 64 -> (forall e, E e) ->
  (forall r, supply p [] r -> wp E (wrap msgr_ErrMalformed (ReadFull securePreamble)) r (fun c r' =>
     p < 2 ^ 64 -> Open k (nonce_of f p) c = None)) ->
  supply p [] r -> wp E (Read limits) (r, at_pos k f p) Q.
Proof.
  intros Hp HE Hend Hr. unfold Read. apply wp_bind. unfold wp at 1, get_state. cbv beta iota. rewrite available_at by lia.
  destruct (Z.leb_spec (p + 1) (2 ^ 64)); cbn [negb]; [|by apply wp_throw].
  destruct (_ <? _); [by apply wp_throw|].
  apply wp_bind. eapply wp_account_supply; [by eauto|exact Hr|]. clear r Hr. intros r Hr.
  apply wp_bind. unfold wp at 1, get_state. cbv beta iota zeta.
  apply wp_bind, wp_on_reader. eapply wp_mono; [by apply Hend|]. intros c r' Hc. apply wp_bind, wp_on_direction.
  unfold wp at 1. rewrite open_at, Hc by lia. apply HE.
Qed.

End supplied.

(** ** Senders and receivers *)

Section channel.
Context {AE : AEAD}.

(** A frame with the lease of its payload and the buffer that the transport
    reuses for it. *)
Definition job : Type := Frame * option PaddedLease * bytes.

Fixpoint send_frames (limits : FrameLimits) (jobs : list job) : RM secureDirection (list bytes) :=
  match jobs with
  | [] => mret []
  | (frame, lease, buffer) :: jobs =>
      '(wire, _) ← encodeInto frame limits lease buffer;
      wires ← send_frames limits jobs;
      mret (wire :: wires)
  end.

(** At most [n] reads, up to the first error, which ends the connection. *)
Fixpoint receive_frames (n : nat) (limits : FrameLimits) (s : bytes * secureDirection) : res (list Frame) :=
  match n with
  | O => Ok []
  | S n =>
      match Read limits s with
      | (Ok frame, s) => frames ← receive_frames n limits s; Ok (frame :: frames)
      | (Err _, _) => Ok []
      | (Panic, _) => Panic
      end
  end.

(** The frame as it arrives: without its trailing empty segments. *)
Definition delivered_form (frame : Frame) : Frame :=
  match normalizeSegments (Segments frame) with
  | Ok segments => mkFrame (Tag frame) segments
  | _ => frame
  end.

Definition job_ok (j : job) : Prop :=
  let '(frame, lease, _) := j in
  Forall (fun s => inU 16 (Alignment s)) (Segments frame) /\
  lease_ok lease (Segments (delivered_form frame)).

(** The records a sender seals: plaintexts, and nonces with ciphertexts. *)
Definition sent_records (jobs : list job) : list bytes :=
  flat_map (fun j : job => let f := delivered_form (fst (fst j)) in plain_records (Tag f) (Segments f)) jobs.

Fixpoint sealed_log (k : aead_key) (f p : Z) (ps : list bytes) : list (bytes * bytes) :=
  match ps with
  | [] => []
  | pt :: ps =>
      (nonce_of f p, match Seal k (nonce_of f p) pt with Ok c => c | _ => [] end) :: sealed_log k f (p + 1) ps
  end.

(** A piece of the stream opens under a nonce of the direction although the
    sender never sealed it under that nonce. *)
Definition forged (k : aead_key) (f : Z) (log : list (bytes * bytes)) (stream : bytes) : Prop :=
  exists i j q pt, (i <= length stream)%nat /\ (j <= length stream)%nat /\ inU 64 q /\
    let c := take j (drop i stream) in
    Open k (nonce_of f q) c = Some pt /\ (nonce_of f q, c) ∉ log.

#[export] Instance forged_dec k f log stream : Decision (forged k f log stream).
Proof.
  destruct (decide (Exists (fun i => Exists (fun j => Exists (fun q =>
    is_Some (Open k (nonce_of f q) (take j (drop i stream))) /\ (nonce_of f q, take j (drop i stream)) ∉ log)
    (seqZ 0 (2 ^ 64))) (seq 0 (S (length stream)))) (seq 0 (S (length stream))))) as [H|H].
  - left. apply Exists_exists in H as (i & Hi & H). apply Exists_exists in H as (j & Hj & H).
    apply Exists_exists in H as (q & Hq & [pt Ho] & Hn). apply elem_of_seq in Hi, Hj. apply elem_of_seqZ in Hq.
    exists i, j, q, pt. split_and!; [lia..|unfold inU; lia|done|done].
  - right. intros (i & j & q & pt & Hi & Hj & Hq & Ho & Hn). apply H. apply Exists_exists. exists i.
    split; [apply elem_of_seq; lia|]. apply Exists_exists. exists j. split; [apply elem_of_seq; lia|].
    apply Exists_exists. exists q. split; [apply elem_of_seqZ; unfold inU in Hq; lia|]. split; [by eexists|done].
Qed.

Lemma sealed_log_ok k f p ps rs : sealed k f p ps rs -> snd <$> sealed_log k f p ps = rs.
Proof.
  revert p rs. induction ps as [|pt ps IH]; intros p [|c rs] H; cbn in H; [done..|]. destruct H as [Hc H].
  cbn. rewrite Hc. f_equal. by apply IH.
Qed.

Lemma sealed_app k f p ps ps' rs rs' : sealed k f p ps rs -> sealed k f (p + len ps) ps' rs' ->
  sealed k f p (ps ++ ps') (rs ++ rs').
Proof.
  revert p rs. induction ps as [|pt ps IH]; intros p [|c rs] H H'; cbn in H; [|done..|].
  - cbn. change (len (@nil bytes)) with 0 in H'. by rewrite Z.add_0_r in H'.
  - destruct H as [Hc H]. cbn. split; [done|]. apply IH; [done|]. rewrite len_cons in H'.
    by replace (p + (1 + len ps)) with (p + 1 + len ps) in H' by lia.
Qed.

Lemma sealed_log_nonces k f p ps : fst <$> sealed_log k f p ps = nonce_of f <$> seqZ p (len ps).
Proof.
  revert p. induction ps as [|pt ps IH]; intros p; [done|]. rewrite len_cons, seqZ_cons by (pose proof (len_nonneg ps); lia).
  cbn. f_equal. rewrite IH. do 2 f_equal. lia.
Qed.

(** An entry of the log is the record at the position of its nonce. *)
Lemma sealed_log_lookup k f p ps rs q c : sealed k f p ps rs -> 0 <= p -> p + len ps <= 2 ^ 64 -> inU 64 q ->
  (nonce_of f q, c) ∈ sealed_log k f p ps ->
  p <= q < p + len ps /\ exists pt, ps !! Z.to_nat (q - p) = Some pt /\ Seal k (nonce_of f q) pt = Ok c.
Proof.
  revert p rs. induction ps as [|pt ps IH]; intros p rs Hs Hp Hb Hq Hin; [by apply not_elem_of_nil in Hin|].
  destruct rs as [|c' rs]; [done|]. destruct Hs as [Hc Hs]. rewrite len_cons in *. pose proof (len_nonneg ps).
  cbn in Hin. rewrite Hc in Hin. apply elem_of_cons in Hin as [E|Hin].
  - apply pair_eq in E as [En ->]. apply nonce_inj in En as ->; [|done|unfold inU; lia]. split; [lia|].
    exists pt. by rewrite Z.sub_diag.
  - destruct (IH (p + 1) rs Hs ltac:(lia) ltac:(lia) Hq Hin) as [Hr (x & Hx & Hsx)]. split; [lia|]. exists x.
    split; [|done]. replace (Z.to_nat (q - p)) with (S (Z.to_nat (q - (p + 1)))) by lia. done.
Qed.

Lemma send_frames_at limits jobs k f p wires d' : Forall job_ok jobs -> 0 <= p <= 2 ^ 64 ->
  send_frames limits jobs (at_pos k f p) = (Ok wires, d') ->
  exists rs, sealed k f p (sent_records jobs) rs /\ concat wires = concat rs /\
    p + len (sent_records jobs) <= 2 ^ 64 /\ d' = at_pos k f (p + len (sent_records jobs)) /\
    Forall (fun j : job => let fr := delivered_form (fst (fst j)) in frame_ok fr /\ short (Segments fr)) jobs.
Proof.
  intros HJ. revert p wires d'. induction HJ as [|[[frame lease] buffer] jobs [Hal Hlo] HJ IH]; intros p wires d' Hp H.
  { cbn in H. injection H as <- <-. exists []. change (len (sent_records [])) with 0. rewrite Z.add_0_r. split_and!; [done..|lia|done|apply Forall_nil_2]. }
  cbn [send_frames] in H. unfold mbind, rm_bind in H.
  destruct (encodeInto frame limits lease buffer (at_pos k f p)) as [[[wire lease']|e|] d1] eqn:E; [|done..].
  assert (exists ds segs size n, prepareSecureFrame frame limits = Ok (ds, segs, size, n)) as (ds & segs & size & n & HP).
  { unfold encodeInto, mbind, rm_bind, lift in E. destruct (prepareSecureFrame frame limits) as [[[[? ?] ?] ?]| |]; [by eexists _, _, _, _|done..]. }
  destruct (prepareSecureFrame_ok _ _ _ _ _ _ Hal HP) as (Hn & _ & Hs & _ & Hok & _).
  assert (delivered_form frame = mkFrame (Tag frame) segs) as Hdf by (unfold delivered_form; by rewrite Hn).
  rewrite Hdf in Hlo. pose proof (encodeInto_eq frame limits lease buffer k f p ds segs size n Hal HP Hlo Hp) as HE.
  cbv zeta in HE. destruct (Z.leb_spec (p + len (plain_records (Tag frame) segs)) (2 ^ 64)) as [Hav|]; [|congruence].
  destruct HE as (rs & lease'' & Hrs & _ & HE). rewrite HE in E. injection E as <- <- <-.
  destruct (send_frames limits jobs _) as [[wires'|e|] d2] eqn:E2 in H; [|done..]. injection H as <- <-.
  apply IH in E2 as (rs' & Hrs' & Hw & Hb & -> & Hf); [|pose proof (len_nonneg (plain_records (Tag frame) segs)); lia].
  exists (rs ++ rs'). unfold sent_records. cbn [flat_map fst snd]. rewrite Hdf. cbn [Tag Segments]. fold (sent_records jobs).
  rewrite len_app. split_and!.
  - by apply sealed_app.
  - cbn [concat]. by rewrite concat_app, Hw.
  - lia.
  - f_equal. lia.
  - apply Forall_cons_2; [|done]. cbn. by rewrite Hdf.
Qed.

(** The receiver, as long as nothing is forged. *)
Lemma receive_frames_at limits n k f p0 all rs stream jobs : sealed k f p0 all rs -> 0 <= p0 -> p0 + len all <= 2 ^ 64 ->
  ~ forged k f (sealed_log k f p0 all) stream ->
  Forall (fun j : job => let fr := delivered_form (fst (fst j)) in frame_ok fr /\ short (Segments fr)) jobs ->
  forall p s, p0 <= p -> p + len (sent_records jobs) = p0 + len all -> drop (Z.to_nat (p - p0)) all = sent_records jobs ->
    s `suffix_of` stream ->
    exists fs, receive_frames n limits (s, at_pos k f p) = Ok fs /\ fs `prefix_of` (delivered_form ∘ fst ∘ fst <$> jobs).
Proof.
  intros Hall Hp0 Hb Hforge Hjobs. revert n.
  pose (supply := fun (p : Z) (ps : list bytes) (s : bytes) =>
    p0 <= p /\ p + len ps = p0 + len all /\ drop (Z.to_nat (p - p0)) all = ps /\ s `suffix_of` stream).
  assert (forall p s n (K : bytes -> Prop), 0 <= n -> s `suffix_of` stream ->
    wp (fun _ => True) (wrap msgr_ErrMalformed (ReadFull n)) s (fun c s' => s' `suffix_of` stream /\
      (inU 64 p -> forall x, Open k (nonce_of f p) c = Some x -> p0 <= p < p0 + len all /\ all !! Z.to_nat (p - p0) = Some x))) as Hread.
  { intros p s n _ Hn [pre Hpre]. eapply (wp_read _ n _ s s); [done|done| |done]. intros c rest r' -> Hl Hr'. cbn in Hr'. subst r'.
    split; [exists (pre ++ c); by rewrite <- app_assoc|]. intros Hp x Hx.
    destruct (decide ((nonce_of f p, c) ∈ sealed_log k f p0 all)) as [Hin|Hnin].
    - destruct (sealed_log_lookup _ _ _ _ _ _ _ Hall Hp0 Hb Hp Hin) as [Hrange (pt & Hpt & Hseal)]. split; [done|].
      apply Open_iff in Hx. apply Open_iff in Hseal, Hx. rewrite Hseal in Hx. by injection Hx as <-.
    - destruct Hforge. exists (length pre), (length c), p, x. rewrite Hpre, drop_app_length, take_app_length, !length_app.
      split_and!; [lia|lia|done|by cbv zeta]. }
  assert (forall p ps r (m : RM bytes unit), m = reserveReceivePrelude \/ m = releaseReceivePrelude \/
      (exists n, m = reserveReceiveBytes n) \/ (exists n, m = receiveBacking n) ->
    supply p ps r -> wp (fun _ => True) m r (fun _ r' => supply p ps r')) as Hacc.
  { intros p ps r m Hm Hr. by destruct Hm as [->|[->|[[n ->]|[n ->]]]]. }
  assert (forall p pt ps r n, 0 <= p < 2 ^ 64 -> n = len pt + 16 -> supply p (pt :: ps) r ->
    wp (fun _ => True) (wrap msgr_ErrMalformed (ReadFull n)) r (fun c r' =>
      wp (fun _ => True) (openLocked c) (at_pos k f p) (fun x d' => x = pt /\ d' = at_pos k f (p + 1) /\ supply (p + 1) ps r'))) as Hopen.
  { intros p pt ps r n Hp -> (H1 & H2 & H3 & H4). eapply wp_mono; [eapply (Hread p r); [exact (fun _ => True)|pose proof (len_nonneg pt); lia|done]|].
    intros c r' [Hr' Hc]. unfold wp. rewrite open_at by done. destruct (Open k (nonce_of f p) c) as [x|] eqn:Hx; [|done].
    destruct (Hc ltac:(unfold inU; lia) x eq_refl) as [_ Hx'].
    assert (all !! Z.to_nat (p - p0) = Some pt) as Hpt.
    { rewrite <- (Nat.add_0_r (Z.to_nat _)), <- lookup_drop, H3. done. }
    split_and!; [congruence|done|]. rewrite len_cons in H2. split_and!; [lia|lia| |done].
    replace (Z.to_nat (p + 1 - p0)) with (Z.to_nat (p - p0) + 1)%nat by lia. by rewrite <- drop_drop, H3. }
  intros n. revert n. induction Hjobs as [|[[frame lease] buffer] jobs [Hok Hs] Hjobs IH]; intros n p s H1 H2 H3 H4.
  - destruct n as [|n]; [by exists []|]. cbn [receive_frames].
    pose proof (wp_Read_end k f (fun _ => True) supply Hacc p s limits (fun _ _ => False)) as HR. unfold wp in HR.
    change (len (sent_records [])) with 0 in H2.
    destruct (Read limits (s, at_pos k f p)) as [[fr|e|] s']; [|by exists []|]; (destruct HR; [lia|done| |done]).
    all: intros r (_ & _ & _ & Hr); eapply wp_mono; [eapply (Hread p r); [exact (fun _ => True)|done|done]|].
    all: intros c r' [_ Hc] Hp; destruct (Open k (nonce_of f p) c) as [x|] eqn:Hx; [|done].
    all: destruct (Hc ltac:(unfold inU; lia) x eq_refl) as [Hrange _]; lia.
  - destruct n as [|n]; [exists []; split; [done|apply prefix_nil]|]. cbn [receive_frames].
    unfold sent_records in H2, H3. cbn [flat_map fst snd] in H2, H3. fold (sent_records jobs) in H2, H3.
    cbn [fst snd] in Hok, Hs. destruct (delivered_form frame) as [tag segs] eqn:Hdf. cbn [Tag Segments] in *.
    rewrite len_app in H2. pose proof (len_nonneg (sent_records jobs)).
    pose proof (wp_Read k f (fun _ => True) supply Hacc Hopen tag segs p (sent_records jobs) s limits
      (fun fr s' => fr = mkFrame tag segs /\ exists r', s' = (r', at_pos k f (p + len (plain_records tag segs))) /\
         supply (p + len (plain_records tag segs)) (sent_records jobs) r') Hok Hs ltac:(lia) ltac:(lia) ltac:(by left)) as HR.
    unfold wp in HR. specialize (HR ltac:(split_and!; [done|rewrite len_app; lia|done|done])
      (fun r' H' => conj eq_refl (ex_intro _ r' (conj eq_refl H')))).
    destruct (Read limits (s, at_pos k f p)) as [[fr|e|] s']; [|exists []; split; [done|apply prefix_nil]|done].
    destruct HR as [-> (r' & -> & (Hq1 & Hq2 & Hq3 & Hq4))].
    destruct (IH n _ r' Hq1 Hq2 Hq3 Hq4) as (fs & -> & Hpre). exists (mkFrame tag segs :: fs). split; [done|].
    cbn. rewrite Hdf. by apply prefix_cons.
Qed.

End channel.

(** ** Properties *)



(** C16. Secure frames round trip: whatever buffer and leased payload the sender
    uses, the receiver at the same position of the same key reads the frame
    without its trailing empty segments, leaves the stream right after it, and
    both sides are at the same position again; the only other outcome is that
    the reader's budget refuses the memory. *)
Theorem secure_frame_roundtrip {AE : AEAD} frame limits lease buffer d bs lease' d' rest
    R (RD : Reader R) (SR : StreamReader R) r :
  direction_ok d -> job_ok (frame, lease, buffer) ->
  encodeInto frame limits lease buffer d = (Ok (bs, lease'), d') -> streams r (bs ++ rest) ->
  wp refusal (Read limits) (r, d) (fun f '(r', d'') => f = delivered_form frame /\ streams r' rest /\ d'' = d').
Proof.
  intros (k & f & p & -> & Hf & Hp) [Hal Hlo] HE Hr.
  assert (exists ds segs size n, prepareSecureFrame frame limits = Ok (ds, segs, size, n)) as (ds & segs & size & n & HP).
  { unfold encodeInto, mbind, rm_bind, lift in HE. destruct (prepareSecureFrame frame limits) as [[[[? ?] ?] ?]| |]; [by eexists _, _, _, _|done..]. }
  destruct (prepareSecureFrame_ok _ _ _ _ _ _ Hal HP) as (Hn & _ & Hs & _ & Hok & -> & _ & Hsz & _ & Hfit).
  assert (delivered_form frame = mkFrame (Tag frame) segs) as Hdf by (unfold delivered_form; by rewrite Hn). rewrite Hdf in *.
  pose proof (encodeInto_eq frame limits lease buffer k f p _ segs _ n Hal HP Hlo Hp) as HS. cbv zeta in HS.
  destruct (Z.leb_spec (p + len (plain_records (Tag frame) segs)) (2 ^ 64)) as [Hav|]; [|congruence].
  destruct HS as (rs & l'' & Hrs & _ & HS). rewrite HS in HE. injection HE as <- <- <-.
  apply (wp_Read k f refusal (fun p ps r => exists rs, sealed k f p ps rs /\ streams r (concat rs ++ rest))) with (tag := Tag frame) (segs := segs) (ps := []).
  - intros p1 ps1 r1 m Hm (rs1 & H1 & H2). eapply wp_account; [exact Hm|exact H2|done|]. intros r' Hr'. by exists rs1.
  - intros p1 pt ps1 r1 n1 Hp1 -> (rs1 & H1 & H2). destruct rs1 as [|c rs1]; [done|]. destruct H1 as [Hc H1].
    cbn [concat] in H2. rewrite <- app_assoc in H2. eapply wp_read_known; [exact H2|by rewrite (Seal_len _ _ _ _ Hc)|].
    intros r' Hr'. unfold wp. rewrite open_at by done. apply Open_iff in Hc. rewrite Hc. split_and!; [done..|]. by exists rs1.
  - exact Hok.
  - exact Hs.
  - lia.
  - done.
  - right. split; [lia|done].
  - rewrite app_nil_r. by exists rs.
  - intros r' (rs1 & H1 & H2). destruct rs1; [|done]. done.
Qed.

Definition sample_limits : FrameLimits := mkFrameLimits 4096 8192 16 1024.
Definition sample_secure_frame : Frame :=
  mkFrame 17 [mkSegment 8 (zeros 60); mkSegment 8 (replicate 3 Byte.x61); mkSegment 4096 (replicate 16 Byte.x62); mkSegment 8 []].
Definition sample_key : list (list Z) := Eval vm_compute in key_expansion (to_Zs (zeros 16)).
Definition sample_direction : secureDirection (AE := aes_gcm) := at_pos (AE := aes_gcm) sample_key 0 0.

Lemma sample_direction_ok : direction_ok sample_direction.
Proof. exists sample_key, 0, 0. split; [reflexivity|]. split; [unfold inU; lia|lia]. Qed.

Lemma sample_job_ok buffer : job_ok (sample_secure_frame, None, buffer).
Proof.
  split; [|done]. repeat (apply Forall_cons_2; [unfold inU; cbn; lia|]). apply Forall_nil_2.
Qed.

Lemma secure_frame_roundtrip_witness :
  exists bs d', encodeInto sample_secure_frame sample_limits None (zeros 500) sample_direction = (Ok (bs, None), d') /\
  wp (R := bytes * secureDirection) refusal (Read sample_limits) (bs ++ [Byte.xff], sample_direction)
    (fun f '(r', d'') => f = delivered_form sample_secure_frame /\ streams r' [Byte.xff] /\ d'' = d').
Proof.
  assert (match fst (encodeInto sample_secure_frame sample_limits None (zeros 500) sample_direction) with
          | Ok (_, None) => true | _ => false end = true) as Hok by (vm_compute; reflexivity).
  destruct (encodeInto sample_secure_frame sample_limits None (zeros 500) sample_direction) as [[[bs [l|]]|e|] d'] eqn:E;
    try discriminate Hok.
  exists bs, d'. split; [reflexivity|].
  apply (secure_frame_roundtrip sample_secure_frame sample_limits None (zeros 500) sample_direction bs None d' [Byte.xff]).
  - apply sample_direction_ok.
  - apply sample_job_ok.
  - exact E.
  - reflexivity.
Defined.

(** C15. The secure channel against an attacker who controls the network: the
    sender seals frames one after the other, the receiver reads an arbitrary
    byte stream until its first error.  It never panics, and the frames it
    delivers are a prefix of the frames sent, in order and without
    repetition, or else the stream contains a forgery, a ciphertext that opens
    under a nonce of the direction although the sender did not seal it under
    that nonce.  The records in the log are what the sender wrote. *)
Theorem secure_channel_prefix {AE : AEAD} limits limits' jobs d wires d' stream n :
  direction_ok d -> Forall job_ok jobs -> send_frames limits jobs d = (Ok wires, d') ->
  let log := sealed_log (aead d) (fixed d) (counter d) (sent_records jobs) in
  concat wires = concat (snd <$> log) /\ NoDup (fst <$> log) /\
  ((exists fs, receive_frames n limits' (stream, d) = Ok fs /\ fs `prefix_of` (delivered_form ∘ fst ∘ fst <$> jobs)) \/
   forged (aead d) (fixed d) log stream).
Proof.
  intros (k & f & p & -> & Hf & Hp) HJ HS log. destruct (send_frames_at _ _ _ _ _ _ _ HJ Hp HS) as (rs & Hrs & Hw & Hb & _ & Hfr).
  pose proof (len_nonneg (sent_records jobs)) as Hlen.
  assert (log = sealed_log k f p (sent_records jobs)) as ->.
  { unfold log. cbn [aead fixed counter at_pos]. destruct (Z.eq_dec p (2 ^ 64)) as [->|Hne]; [|f_equal; unfold MaxUint64; clear -Hp Hne; lia].
    destruct (sent_records jobs) as [|x l] eqn:Er; [done|]. rewrite len_cons in Hb. pose proof (len_nonneg l). lia. }
  rewrite (sealed_log_ok _ _ _ _ _ Hrs). split_and!; [done| |].
  - rewrite sealed_log_nonces. apply nonces_distinct; lia.
  - cbn [aead fixed at_pos]. destruct (decide (forged k f (sealed_log k f p (sent_records jobs)) stream)) as [|Hn]; [by right|left].
    apply (receive_frames_at limits' n k f p (sent_records jobs) rs stream jobs); [done|lia|done|done|done|lia|done| |done].
    by rewrite Z.sub_diag.
Qed.

Lemma secure_channel_prefix_witness :
  exists wires d', send_frames sample_limits [(sample_secure_frame, None, []); (sample_secure_frame, None, zeros 300)] sample_direction
    = (Ok wires, d') /\
  concat wires = concat (snd <$> sealed_log (aead sample_direction) (fixed sample_direction) (counter sample_direction)
    (sent_records [(sample_secure_frame, None, []); (sample_secure_frame, None, zeros 300)])).
Proof.
  pose (jobs := [(sample_secure_frame, None, []); (sample_secure_frame, None, zeros 300)] : list job).
  assert (match fst (send_frames sample_limits jobs sample_direction) with Ok _ => true | _ => false end = true) as Hok
    by (vm_compute; reflexivity).
  destruct (send_frames sample_limits jobs sample_direction) as [[wires|e|] d'] eqn:E; try discriminate Hok.
  exists wires, d'. split; [exact E|].
  destruct (secure_channel_prefix sample_limits sample_limits jobs sample_direction wires d' (concat wires) 2) as [H _].
  - apply sample_direction_ok.
  - repeat (apply Forall_cons_2; [apply sample_job_ok|]). apply Forall_nil_2.
  - exact E.
  - exact H.
Defined.

(** C26. Buffers do not matter to what is sealed: [encodeInto] writes the same
    frame and moves to the same nonce whatever the reused buffer holds,
    whether or not the payload is leased in a padded storage that is sealed
    directly; an error seals nothing and uses no nonce.  A lease that was
    laid out by [NewPaddedMessageLease] stays laid out, so that the message
    can be sent again. *)
Theorem secure_encode_buffers {AE : AEAD} frame limits lease buffer d :
  direction_ok d -> job_ok (frame, lease, buffer) ->
  match encodeInto frame limits lease buffer d with
  | (Ok (bs, lease'), d') => Encode frame limits d = (Ok bs, d') /\ job_ok (frame, lease', buffer)
  | (Err e, d') => Encode frame limits d = (Err e, d) /\ d' = d
  | (Panic, _) => False
  end /\
  (forall storage payload l, NewPaddedMessageLease storage payload true = Ok l ->
     slice LeasedPayloadPrefix (LeasedPayloadPrefix + len payload) storage = payload -> padded_ok l payload).
Proof.
  intros (k & f & p & -> & Hf & Hp) [Hal Hlo]. split.
  - destruct (prepareSecureFrame frame limits) as [[[[ds segs] size] n]|e|] eqn:HP.
    + destruct (prepareSecureFrame_ok _ _ _ _ _ _ Hal HP) as (Hn & _).
      assert (delivered_form frame = mkFrame (Tag frame) segs) as Hdf by (unfold delivered_form; by rewrite Hn).
      rewrite Hdf in Hlo.
      pose proof (encodeInto_eq frame limits lease buffer k f p _ segs _ n Hal HP Hlo Hp) as H1.
      pose proof (encodeInto_eq frame limits None [] k f p _ segs _ n Hal HP ltac:(done) Hp) as H2. cbv zeta in H1, H2.
      unfold Encode, mbind, rm_bind. destruct (_ <=? _); [|by rewrite H1, H2].
      destruct H1 as (rs & l1 & Hrs & Hl1 & ->), H2 as (rs' & l2 & Hrs' & _ & ->).
      rewrite <- (sealed_log_ok _ _ _ _ _ Hrs), <- (sealed_log_ok _ _ _ _ _ Hrs'). split; [done|]. split; [done|]. by rewrite Hdf.
    + unfold encodeInto, Encode, encodeInto, mbind, rm_bind. rewrite HP. done.
    + exfalso. by apply (prepareSecureFrame_no_panic frame limits).
  - intros storage payload l H Hs. by apply (padded_lease_ok storage payload l).
Qed.

Lemma secure_encode_buffers_witness :
  exists bs d', encodeInto sample_secure_frame sample_limits None (zeros 500) sample_direction = (Ok (bs, None), d') /\
    Encode sample_secure_frame sample_limits sample_direction = (Ok bs, d').
Proof.
  assert (match fst (encodeInto sample_secure_frame sample_limits None (zeros 500) sample_direction) with
          | Ok (_, None) => true | _ => false end = true) as Hok by (vm_compute; reflexivity).
  pose proof (secure_encode_buffers sample_secure_frame sample_limits None (zeros 500) sample_direction
    sample_direction_ok (sample_job_ok _)) as [H _].
  destruct (encodeInto sample_secure_frame sample_limits None (zeros 500) sample_direction) as [[[bs [l|]]|e|] d'];
    try discriminate Hok.
  exists bs, d'. split; [reflexivity|]. exact (proj1 H).
Defined.
