(* ===== verification/SecureBudget.v ===== *)
(** * Secure frames under a receive budget (secure.go with receive_budget.go)

    The secure codec keeps the contract [BudgetedCodec] of the file Budget: it
    reserves the memory of a frame before it reads it, at its peak while
    records are opened and what the frame retains afterwards, and takes the
    buffer of the last record from the transport's scratch pool.  With this
    instance the theorems about budgeted transports hold for both codecs. *)

From stdpp Require Import base gmap list numbers relations.
From coqutil Require Import Byte Word.LittleEndianList.
From S2P Require Import Prelude Codec Crc MsgrFrame MsgrMessage Budget Aead Secure.
From stdpp Require Import list.

Open Scope Z_scope.
Open Scope go_scope.

(** ** Taking a scratch buffer leaves the pool with fewer idle leases *)

(** Operations on budgets and leases do not touch the pools. *)
Definition keeps_pools {A} (m : HM A) : Prop := forall h, scratches (snd (m h)) = scratches h.

Lemma keeps_ret {A} (a : A) : keeps_pools (mret a).
Proof. done. Qed.

Lemma keeps_throw {A} e : keeps_pools (throw (A := A) e).
Proof. done. Qed.

Lemma accounts_bind {A B} (m : HM A) (k : A -> HM B) : keeps_pools m -> (forall a, keeps_pools (k a)) -> keeps_pools (m ≫= k).
Proof.
  intros Hm Hk h. unfold mbind, rm_bind. specialize (Hm h). destruct (m h) as [[a| |] h1]; [|done..].
  cbn in Hm. rewrite <- Hm. apply Hk.
Qed.

Lemma keeps_deref {A} (objects : heap -> list A) p : keeps_pools (deref objects p).
Proof. intros h. unfold deref. by destruct (objects h !! p). Qed.

Lemma keeps_attempt {A} (m : HM A) : keeps_pools m -> keeps_pools (attempt m).
Proof. intros Hm h. unfold attempt. specialize (Hm h). by destruct (m h) as [[] ?]. Qed.

Ltac keeps :=
  repeat first [ apply keeps_ret | apply keeps_throw | apply keeps_deref | apply keeps_attempt
               | apply accounts_bind; [|intros ?] | case_match | (intros ?; reflexivity) ].

Lemma keeps_recordScratch b hit bypass : keeps_pools (recordScratch b hit bypass).
Proof. unfold recordScratch, budget_at. keeps. Qed.

Lemma accounts_release p : keeps_pools (release p).
Proof. destruct p; unfold release, budget_at, lease_at; keeps. Qed.

Lemma keeps_resize p n : keeps_pools (Budget.resize p n).
Proof. destruct p; unfold Budget.resize, budget_at, lease_at; cbv zeta; keeps. Qed.

(** [get] takes at most the last idle lease of its pool. *)
Lemma get_pool h s S p l size : scratches h !! s = Some S -> leases h !! p = Some l ->
  exists S', scratches (snd (get s p size h)) !! s = Some S' /\ idle S' `prefix_of` idle S.
Proof.
  intros HS Hp. unfold get, lease_at. rewrite (deref_bind leases _ _ _ _ Hp).
  destruct (_ || _); [by exists S; rewrite keeps_recordScratch|].
  assert (forall found, keeps_pools (
    let capacity := match found with Some b => buf_cap b | None => Z.ldiff (size + 8191) 8191 end in
    _ ← set_extra p (u64 (capacity - size));
    err ← attempt (Budget.resize (Some p) (l_bytes l));
    match err with
    | Some _ => _ ← set_extra p 0; recordScratch (l_budget l) false true
    | None =>
        _ ← recordScratch (l_budget l) (match found with Some _ => true | None => false end) false;
        b ← match found with Some b => mret b | None => new_buffer capacity end;
        attach p b s
    end)) as Hk.
  { intros found. cbv zeta. unfold set_extra, attach, lease_at. apply accounts_bind; [keeps|intros _].
    apply accounts_bind; [apply keeps_attempt, keeps_resize|intros [e|]].
    - apply accounts_bind; [keeps|intros _; apply keeps_recordScratch].
    - apply accounts_bind; [apply keeps_recordScratch|intros _]. apply accounts_bind; [keeps|intros b]. keeps. }
  assert (exists S', scratches (snd (take_idle s p size h)) !! s = Some S' /\ idle S' `prefix_of` idle S) as (S' & HS' & Hpre).
  { unfold take_idle, scratch_at. rewrite (deref_bind scratches _ _ _ _ HS). destruct (last (idle S)) as [q|] eqn:Hl; [|by exists S].
    exists (mkScratch (removelast (idle S)) (closed S)). split.
    - unfold mbind at 1, rm_bind at 1, set_scratch at 1. rewrite (accounts_bind _ _ (keeps_deref leases q)).
      + cbn. apply list_lookup_insert_eq. by eapply lookup_lt_Some.
      + intros i. unfold lease_at. apply accounts_bind; [keeps|intros l0]. apply accounts_bind; [apply accounts_release|keeps].
    - apply last_Some in Hl as [l' ->]. rewrite removelast_last. by exists [q]. }
  exists S'. split; [|done]. unfold mbind at 1, rm_bind at 1.
  destruct (take_idle s p size h) as [[found| |] h1]; cbn [snd] in HS'; [|done..]. by rewrite (Hk found).
Qed.

(** ** Reasoning about a read with a direction *)

Section budgeted.
Context {AE : AEAD}.

Definition wpd {A} (m : RM (budgetReader * secureDirection) A) (r : budgetReader) (d : secureDirection)
    (Q : A -> budgetReader -> secureDirection -> Prop) (E : budgetReader -> Prop) : Prop :=
  match m (r, d) with
  | (Ok a, (r', d')) => Q a r' d'
  | (Err _, (r', _)) => E r'
  | (Panic, _) => False
  end.

Lemma wpd_bind {A B} (m : RM (budgetReader * secureDirection) A) (k : A -> RM (budgetReader * secureDirection) B) r d Q E :
  wpd m r d (fun a r' d' => wpd (k a) r' d' Q E) E -> wpd (m ≫= k) r d Q E.
Proof. unfold wpd, mbind, rm_bind. by destruct (m (r, d)) as [[] [? ?]]. Qed.

Lemma wpd_ret {A} (a : A) r d Q E : Q a r d -> wpd (mret a) r d Q E.
Proof. done. Qed.

Lemma wpd_throw {A} e r d (Q : A -> budgetReader -> secureDirection -> Prop) (E : budgetReader -> Prop) :
  E r -> wpd (throw e) r d Q E.
Proof. done. Qed.

Lemma wpd_lift {A} (x : res A) r d (Q : A -> budgetReader -> secureDirection -> Prop) (E : budgetReader -> Prop) :
  x <> Panic -> (forall a, x = Ok a -> Q a r d) -> E r -> wpd (lift x) r d Q E.
Proof. intros Hp HQ HE. unfold wpd, lift. destruct x; [by apply HQ|done|by destruct Hp]. Qed.

Lemma wpd_reader {A} (m : RM budgetReader A) r d Q E :
  wpe m r (fun a r' => Q a r' d) E -> wpd (on_reader m) r d Q E.
Proof. unfold wpd, wpe, on_reader. cbn. by destruct (m r) as [[] ?]. Qed.

(** Opening a record: the plaintext has the length of the record less its tag. *)
Lemma wpd_open c r d (Q : bytes -> budgetReader -> secureDirection -> Prop) (E : budgetReader -> Prop) :
  (forall x d', len x + 16 = len c -> Q x r d') -> E r -> wpd (on_direction (openLocked c)) r d Q E.
Proof.
  intros HQ HE. unfold wpd, on_direction, openLocked, mbind, rm_bind, nonceLocked. cbn [fst snd].
  destruct (negb _); [done|]. destruct (Open _ _ _) as [x|] eqn:Ho; cbn; [|done].
  apply HQ. apply Open_iff in Ho. by rewrite (Seal_len _ _ _ _ Ho).
Qed.

(** The buffer of the last record. *)
Lemma wpe_backing n r l (Q : unit -> budgetReader -> Prop) E : charged r l -> l_scratch l = None -> l_extra l = 0 ->
  0 <= n <= l_bytes l ->
  (forall r' l', tracks r r' -> charged r' l' -> l_budget l' = l_budget l -> l_controlBytes l' = l_controlBytes l ->
     0 <= l_extra l' -> l_bytes l' = l_bytes l + l_extra l' ->
     (forall q, l_scratch l' = Some q -> cap (l_backing l') <= n + l_extra l') -> Q tt r') ->
  wpe (receiveBacking n) r Q E.
Proof.
  intros (Hh & Hp & Hpool) Hsc Hex Hn HQ. unfold wpe. cbn [receiveBacking budget_reader].
  destruct (rd_scratch r) as [s|] eqn:Hs.
  - destruct (Hpool s eq_refl) as (S & HS & Hnin).
    destruct (get_run _ _ _ _ _ _ Hh HS Hp Hnin Hsc Hex Hn) as (h' & l' & E1 & HR & Hh' & Hp' & Hb & Hc & Hby & Hor).
    destruct (get_pool _ _ _ _ _ n HS Hp) as (S' & HS' & Hpre). unfold on_heap. rewrite E1 in *. cbn [snd] in HS'.
    eapply (HQ _ l').
    + by split_and!; cbn.
    + split_and!; [done..|]. cbn. intros s0 Hs0. assert (s0 = s) as -> by congruence. exists S'. split; [done|]. intros Hin. apply Hnin.
      destruct Hpre as [k Ek]. rewrite Ek. set_solver.
    + done.
    + done.
    + pose proof (lease_ok_at _ _ _ Hh' Hp') as (_ & _ & _ & ? & _). lia.
    + done.
    + intros q Hq. destruct Hor as [->|[_ ->]]; [congruence|lia].
  - eapply (HQ r l); [apply tracks_refl|split_and!; [done|done|by rewrite Hs]|done|done|lia|lia|]. intros q Hq. congruence.
Qed.

(** ** The numbers *)

(** Segments with the lengths of given descriptors. *)
Definition blank (ds : list segmentDescriptor) : list Segment :=
  (fun d => mkSegment (sd_alignment d) (zeros (Z.to_nat (sd_length d)))) <$> ds.

Lemma blank_ok ds : Forall desc_typed ds -> short (blank ds) /\ length (blank ds) = length ds /\
  (fun s => len (Data s)) <$> blank ds = sd_length <$> ds.
Proof.
  intros H. unfold blank, short. rewrite length_fmap. split_and!; [|done|].
  - apply Forall_fmap. eapply Forall_impl; [exact H|]. intros d [[? ?] _]. cbn. rewrite len_zeros. unfold MaxUint32. lia.
  - rewrite <- list_fmap_compose. apply list_fmap_ext. intros i d Hd. cbn.
    rewrite Forall_lookup in H. destruct (H i d Hd) as [[? ?] _]. rewrite len_zeros. lia.
Qed.

(** What the reservations of a frame amount to: the last record fits into the
    peak and into what is retained, and what is retained pays for the frame;
    a small control frame is paid by the prelude. *)
Lemma secure_memory_enough d0 ds backed inline peak retained remaining :
  Forall desc_typed (d0 :: ds) -> (length ds <= 3)%nat ->
  (inline = true -> ds = [] /\ paddedSecureLength (sd_length d0) <= secureInlineSize) ->
  secure_memory (paddedSecureLength (sd_length d0)) (wire_size (blank (d0 :: ds))) backed inline = (peak, retained, remaining) ->
  0 <= remaining /\ 0 <= peak /\ 0 <= retained /\
  (inline = true -> sd_length d0 + desc_sum ds <= securePreamble) /\
  (inline = false -> remaining <= peak /\ remaining <= retained /\ sd_length d0 + desc_sum ds <= retained).
Proof.
  intros Ht Hl Hin E. inversion Ht as [|? ? [[Hd0 Hd1] _] Htds]; subst. destruct (blank_ok _ Ht) as (Hsh & _ & Elen).
  destruct (blank_ok _ Htds) as (Hshds & Hlb & Elends).
  destruct (padded_spec (sd_length d0)) as (Hp & _); [lia|].
  pose proof (padded_sum_nonneg (blank ds) Hshds) as Hps.
  assert (desc_sum ds <= padded_sum (blank ds) /\ 0 <= desc_sum ds) as Hsum.
  { clear -Htds. induction Htds as [|d l [[? ?] _] _ IH]; [done|]. change (blank (d :: l)) with (mkSegment (sd_alignment d) (zeros (Z.to_nat (sd_length d))) :: blank l).
    cbn [desc_sum foldr padded_sum Data]. fold (desc_sum l) (padded_sum (blank l)). rewrite len_zeros, Z2Nat.id by done. destruct (padded_spec (sd_length d)); lia. }
  assert (len (blank (d0 :: ds)) = 1 + len ds) as Elen1 by (unfold len, blank; rewrite length_fmap; cbn [length]; lia).
  assert (0 <= len ds <= 3) as Hl3 by (unfold len; lia).
  assert (padded_sum (blank ds) <= 2 ^ 32 * 3) as Hps3 by (unfold len in *; rewrite Hlb in Hps; lia).
  assert (wire_size (blank (d0 :: ds)) = 96 + (if 48 <? paddedSecureLength (sd_length d0) then paddedSecureLength (sd_length d0) - 48 + 16 else 0)
    + (if 1 <? 1 + len ds then padded_sum (blank ds) + 16 + 16 else 0)) as Hw.
  { unfold wire_size. cbn [blank fmap list_fmap] in *. unfold long_first. cbn [Data]. rewrite len_zeros, Z2Nat.id by done. rewrite Elen1. done. }
  unfold secure_memory in E. rewrite Hw in E. clear Hw.
  unfold securePreamble, PreambleSize, secureInlineSize, secureTagSize in *. change (32 + 48 + 16) with 96 in *.
  set (P := paddedSecureLength (sd_length d0)) in *. clearbody P.
  set (S := if 1 <? 1 + len ds then padded_sum (blank ds) + 16 + 16 else 0) in *.
  assert (desc_sum ds <= S <= 2 ^ 32 * 3 + 32 /\ 0 <= S) as HS.
  { unfold S. destruct (Z.ltb_spec 1 (1 + len ds)); [lia|]. assert (ds = []) as -> by (destruct ds; [done|unfold len in *; cbn [length] in *; lia]). cbn. lia. }
  clearbody S. destruct (Z.ltb_spec 48 P) as [HP|HP].
  - rewrite (wrapU_id 64 (96 + (P - 48 + 16) + S - 96)) in E by (unfold inU; lia).
    rewrite (wrapU_id 64 (96 + (P - 48 + 16) + S - 96 - (P - 48 + 16))) in E by (unfold inU; lia).
    rewrite (wrapU_id 64 (96 + P + P - 48 + 16)) in E by (unfold inU; lia).
    destruct inline; [destruct (Hin eq_refl); lia|]. destruct backed.
    + rewrite (wrapU_id 64 (P + 96)) in E by (unfold inU; lia). rewrite !wrapU_id in E by (unfold inU; lia).
      injection E as <- <- <-. split_and!; [lia..|done|lia].
    + rewrite !wrapU_id in E by (unfold inU; lia). injection E as <- <- <-. split_and!; [lia..|done|lia].
  - rewrite (wrapU_id 64 (96 + 0 + S - 96)) in E by (unfold inU; lia).
    destruct inline.
    + injection E as <- <- <-. destruct (Hin eq_refl) as [-> _]. cbn in *. split_and!; [lia..|done].
    + rewrite !wrapU_id in E by (unfold inU; lia). injection E as <- <- <-. split_and!; [lia..|done|lia].
Qed.

(** ** The codec *)

Definition secure_read (d : secureDirection) : FrameLimits -> RM budgetReader Frame := fun limits r =>
  let '(x, (r', _)) := Read limits (r, d) in (x, r').

Section reading.
Variables (r : budgetReader) (b : nat).

Definition paid (f : Frame) (r' : budgetReader) : Prop :=
  tracks r r' /\ exists l, charged r' l /\ l_budget l = b /\ payload_bytes f <= l_bytes l + l_controlBytes l.

Definition open_account (r' : budgetReader) : Prop := tracks r r' /\ exists l, charged r' l /\ l_budget l = b.

Lemma open_account_in r1 l s : tracks r r1 -> charged r1 l -> l_budget l = b -> open_account (with_in s r1).
Proof. intros T C B. split; [eapply tracks_trans; [exact T|apply tracks_in]|by exists l]. Qed.

Lemma secure_charged_in r1 l s : charged r1 l -> charged (with_in s r1) l.
Proof. done. Qed.

Lemma tracks_in_trans r1 s : tracks r r1 -> tracks r (with_in s r1).
Proof. intros T. eapply tracks_trans; [exact T|apply tracks_in]. Qed.

(** The final reservation of what the frame retains. *)
Lemma wpd_retain f retained r1 l d : tracks r r1 -> charged r1 l -> l_budget l = b -> 0 <= retained ->
  (forall q, l_scratch l = Some q -> cap (l_backing l) <= retained + l_extra l) -> 0 <= l_extra l ->
  payload_bytes f <= retained + l_controlBytes l ->
  wpd (_ ← on_reader (reserveReceiveBytes retained); mret f) r1 d (fun f r' _ => paid f r') open_account.
Proof.
  intros T C B Hn Hc He Hp. apply wpd_bind, wpd_reader. eapply wpe_reserve_bytes; [exact C|done|done| |].
  - intros r2 T2 C2. apply wpd_ret. split; [by eapply tracks_trans|]. eexists. split; [exact C2|]. cbn. split; [done|lia].
  - intros r2 T2 C2. split; [by eapply tracks_trans|]. by exists l.
Qed.

Lemma take_segments_bound offset ds remaining : take_segments offset ds remaining <> Panic /\
  (Forall desc_typed ds -> forall offset' segs, take_segments offset ds remaining = Ok (offset', segs) ->
     payload_bytes (mkFrame 0 segs) <= desc_sum ds).
Proof.
  revert offset. induction ds as [|d ds IH]; intros offset; cbn [take_segments].
  { split; [done|]. intros _ ? ? [= <- <-]. done. }
  destruct (negb _); [split; [done|intros; discriminate]|]. destruct (IH (offset + paddedSecureLength (sd_length d))) as [Hn Hb].
  destruct (take_segments _ ds remaining) as [[o segs]| |]; [|split; [done|intros; discriminate]|done]. cbn. split; [done|].
  intros Ht o' segs' [= <- <-]. inversion Ht as [|? ? [[? ?] _] Ht']; subst. specialize (Hb Ht' o segs eq_refl).
  unfold payload_bytes in *. cbn [Segments foldr Data desc_sum] in *. fold (desc_sum ds).
  enough (len (slice offset (offset + sd_length d) remaining) <= sd_length d) by lia.
  unfold slice, len. rewrite length_take. lia.
Qed.

Lemma wpd_finish tag s0 d0 ds retained remaining r1 l d : Forall desc_typed (d0 :: ds) -> tracks r r1 -> charged r1 l -> l_budget l = b ->
  0 <= retained -> (forall q, l_scratch l = Some q -> cap (l_backing l) <= retained + l_extra l) -> 0 <= l_extra l ->
  len (Data s0) <= sd_length d0 -> sd_length d0 + desc_sum ds <= retained + l_controlBytes l ->
  wpd (finish_frame tag s0 (d0 :: ds) retained remaining) r1 d (fun f r' _ => paid f r') open_account.
Proof.
  intros Ht T C B H1 H2 H3 H4 H5. unfold finish_frame. cbn [drop]. rewrite drop_0.
  assert (open_account r1) as HE by (split; [done|by exists l]).
  inversion Ht as [|? ? _ Htds]; subst. destruct (take_segments_bound 0 ds remaining) as [Hn Hb]. specialize (Hb Htds).
  apply wpd_bind, wpd_lift; [done| |done]. intros [o segs] Ho. cbv beta iota zeta. apply Hb in Ho.
  destruct (_ || _); [by apply wpd_throw|]. destruct (_ =? _); [|destruct (_ =? _); by apply wpd_throw].
  eapply wpd_retain; [done..|]. unfold payload_bytes in *. cbn [Segments foldr] in *. lia.
Qed.

Lemma wpd_read_records tag ds first backed r1 d : preamble_ok tag ds -> tracks r r1 ->
  charged r1 (mkLease b 0 securePreamble 0 None None) ->
  wpd (read_records tag ds first (wire_size (blank ds)) backed) r1 d (fun f r' _ => paid f r') open_account.
Proof.
  intros (Htag & Hl & Ht & _) T C. destruct ds as [|d0 ds]; [cbn in Hl; lia|].
  pose proof Ht as Ht0. inversion Ht0 as [|? ? [[Hd0 Hd1] _] Htds]; subst. cbn [length] in Hl.
  destruct (padded_spec (sd_length d0)) as (Hp & _); [lia|].
  unfold read_records. apply wpd_bind, wpd_lift; [done| |by split; [|eexists]]. intros x [= <-]. cbv zeta.
  set (inline := _ && _ && _).
  assert (inline = true -> ds = [] /\ paddedSecureLength (sd_length d0) <= secureInlineSize) as Hin.
  { unfold inline. intros H. bsplit. apply Z.leb_le in H1. apply Z.eqb_eq in H0. split; [|done]. destruct ds; [done|unfold len in H0; cbn [length] in H0; lia]. }
  clearbody inline. destruct (secure_memory _ _ _ inline) as [[peak retained] remaining] eqn:Emem.
  destruct (secure_memory_enough d0 ds backed inline peak retained remaining Ht ltac:(lia) Hin Emem) as (Hr0 & Hpk & Hrt & Hi & Hni).
  apply wpd_bind, wpd_reader. eapply wpe_reserve_bytes; [exact C|done|done| |].
  2: { intros r2 T2 C2. split; [by eapply tracks_trans|by eexists]. }
  intros r2 T2 C2. cbn [l_budget l_controlBytes l_extra l_backing l_scratch] in C2. rewrite Z.add_0_r in C2.
  assert (tracks r r2) as TT by (by eapply tracks_trans). clear T T2 C. rename TT into T, C2 into C. clear r1. rename r2 into r1.
  (* the prelude is released, except for a small control frame *)
  set (control := if inline then securePreamble else 0).
  apply wpd_bind.
  assert (forall Q : unit -> budgetReader -> secureDirection -> Prop,
    (forall r2, tracks r r2 -> charged r2 (mkLease b peak control 0 None None) -> Q tt r2 d) ->
    wpd (if negb inline then on_reader releaseReceivePrelude else mret tt) r1 d Q open_account) as Hrel.
  { intros Q HQ. unfold control in HQ. destruct inline; cbn [negb]; [by apply wpd_ret, HQ|]. apply wpd_reader.
    eapply wpe_release_prelude; [exact C|]. intros r2 T2 C2. apply HQ; [by eapply tracks_trans|exact C2]. }
  apply Hrel. clear Hrel T C. clear r1. intros r1 T C.
  assert (sd_length d0 + desc_sum ds <= retained + control) as Hpay by (unfold control; destruct inline; [specialize (Hi eq_refl)|specialize (Hni eq_refl)]; lia).
  assert (ds <> [] -> remaining <= peak /\ remaining <= retained) as Hrem.
  { intros Hne. destruct inline; [by destruct (Hin eq_refl)|]. by destruct (Hni eq_refl) as (? & ? & _). }
  apply wpd_bind. assert (forall Q : bytes -> budgetReader -> secureDirection -> Prop,
    (forall data s d', Q data (with_in s r1) d') ->
    wpd (if secureInlineSize <? paddedSecureLength (sd_length d0) then
       ciphertext ← on_reader (wrap msgr_ErrMalformed (ReadFull (paddedSecureLength (sd_length d0) - secureInlineSize + secureTagSize)));
       remainder ← on_direction (openLocked ciphertext);
       mret (drop (Z.to_nat PreambleSize) first ++ remainder)
     else mret (slice PreambleSize (PreambleSize + secureInlineSize) first)) r1 d Q open_account) as Hfirst.
  { intros Q HQ. destruct (Z.ltb_spec secureInlineSize (paddedSecureLength (sd_length d0))).
    - apply wpd_bind, wpd_reader. apply wpe_read; [unfold secureTagSize; lia| |intros s; by eapply open_account_in].
      intros c s Hc. apply wpd_bind, wpd_open; [|by eapply open_account_in]. intros x d' _. apply wpd_ret, HQ.
    - apply wpd_ret. specialize (HQ (slice PreambleSize (PreambleSize + secureInlineSize) first) (rd_in r1) d).
      by replace (with_in (rd_in r1) r1) with r1 in HQ by (by destruct r1). }
  apply Hfirst. clear Hfirst. intros data s d'. apply (secure_charged_in _ _ s) in C. apply (tracks_in_trans _ s) in T.
  revert T C. generalize (with_in s r1). clear r1 s. intros r1 T C.
  destruct (negb _); [apply wpd_throw; split; [done|by eexists]|].
  set (seg := mkSegment _ _). assert (len (Data seg) <= sd_length d0) as Hseg.
  { unfold seg, len. cbn. rewrite length_take. lia. }
  destruct (len (d0 :: ds) =? 1) eqn:E1.
  - eapply wpd_retain; [exact T|exact C|done|done|done|done|]. unfold payload_bytes. cbn [Segments foldr l_controlBytes].
    assert (0 <= desc_sum ds) as Hs0 by (clear -Htds; induction Htds as [|x l [[? ?] _] _ IH]; [done|]; cbn [desc_sum foldr]; fold (desc_sum l); lia).
    lia.
  - assert (ds <> []) as Hne by (intros ->; done). specialize (Hrem Hne).
    apply wpd_bind, wpd_reader. eapply wpe_backing; [exact C|done|done|cbn; lia|].
    intros r2 l2 T2 C2 Hb2 Hc2 He2 Hby2 Hcap2. apply wpd_bind, wpd_reader.
    assert (tracks r r2) as TT by (by eapply tracks_trans).
    apply wpe_read; [done| |intros s; by eapply open_account_in]. intros c s Hc.
    apply wpd_bind, wpd_open; [|by eapply open_account_in]. intros x d2 _.
    eapply wpd_finish; [exact Ht|by apply tracks_in_trans|by apply secure_charged_in|done|done| |done|done|].
    + intros q Hq. specialize (Hcap2 q Hq). lia.
    + rewrite Hc2. cbn. lia.
Qed.

End reading.

#[export] Instance secure_codec_accounts d : BudgetedCodec (secure_read d).
Proof.
  intros limits r b Hr. enough (wpd (Read limits) r d (fun f r' _ => paid r b f r') (open_account r b)) as H.
  { unfold secure_read. unfold wpd in H. by destruct (Read limits (r, d)) as [[] [? ?]]. }
  assert (open_account r b r) as HE by (split; [apply tracks_refl|by eexists]).
  unfold Read. apply wpd_bind, wpd_ret. cbv beta iota.
  destruct (negb _); [by apply wpd_throw|]. destruct (_ <? _); [by apply wpd_throw|].
  apply wpd_bind, wpd_reader. eapply wpe_reserve_prelude; [exact Hr|done| |done]. intros r1 T1 C1. cbn in C1.
  apply wpd_bind, wpd_ret. cbv beta iota zeta. apply wpd_bind, wpd_reader.
  apply wpe_read; [done| |intros s; by eapply open_account_in]. intros c s Hc.
  assert (open_account r b (with_in s r1)) as HE1 by (by eapply open_account_in).
  apply wpd_bind, wpd_open; [|done]. intros first d1 Hf. change (len c = 96) in Hc.
  apply wpd_bind, wpd_lift; [apply decodePreamble_no_panic| |done]. intros [tag ds] HD. cbv beta iota.
  apply decodePreamble_ok in HD as [_ Hok].
  2: { unfold slice. change (Z.to_nat (PreambleSize - 0)) with 32%nat. rewrite drop_0, length_take. unfold len in *. lia. }
  pose proof Hok as (_ & Hl & Ht & _). destruct (blank_ok ds Ht) as (Hsh & Hbl & Elen).
  apply wpd_bind, wpd_lift.
  - unfold validateSecureDescriptors. assert (check_descriptors limits ds <> Panic) as Hcd.
    { clear. induction ds as [|x ds IH]; [done|]. cbn [check_descriptors]. by repeat case_match. }
    destruct (check_descriptors limits ds); [|done|done]. cbn. apply secure_sizes_no_panic. destruct ds; [cbn in Hl; lia|done].
  - intros [w n] Hw. cbv beta iota. unfold validateSecureDescriptors in Hw. apply res_bind_ok in Hw as (? & _ & Hw).
    destruct (secure_sizes_eq tag (blank ds) limits Hsh ltac:(lia)) as [_ Hsz]. rewrite <- Elen, Hsz in Hw.
    destruct (_ || _) in Hw; [done|]. injection Hw as <- <-.
    apply wpd_bind, wpd_ret. cbv beta iota. destruct (negb _); [by apply wpd_throw|].
    apply wpd_read_records; [done|by apply tracks_in_trans|exact C1].
  - done.
Qed.

(** A secure transport under a budget: what the file Budget shows of every
    accounting codec. *)
Corollary secure_transport_run d budget scratch limits own stream h x stream' h' :
  heap_ok h -> (budget < length (budgets h))%nat -> (scratch < length (scratches h))%nat ->
  ReadFrameWithBudget (secure_read d) true budget scratch limits own stream h = (x, stream', h') ->
  rtc atomic h h' /\ heap_ok h' /\
  match x with
  | Ok (f, lease) => exists l, leases h' !! lease = Some l /\ l_budget l = budget /\
      payload_bytes f <= l_bytes l + l_controlBytes l
  | Err _ => exists l, leases h' !! length (leases h) = Some l /\ l_bytes l = 0 /\ l_controlBytes l = 0 /\ l_backing l = None
  | Panic => False
  end.
Proof. intros Hh Hb Hs. by apply ReadFrameWithBudget_run; [apply secure_codec_accounts|..]. Qed.

End budgeted.
