(* ===== verification/Control.v ===== *)
(** * Control frames (src/internal/msgr/control.go)

    The payloads of the handshake, of authentication and of a running session,
    each in a frame with one segment.  [control] is the set of dynamic types
    that [EncodeControl] switches on. *)

From stdpp Require Import base gmap list numbers.
From coqutil Require Import Byte Word.LittleEndianList.
From S2P Require Import Prelude Codec Crc Protocol MsgrFrame MsgrMessage.
From stdpp Require Import list.

Open Scope Z_scope.
Open Scope go_scope.

Definition controlFeatures : Z := Z.lor FeatureMessageAddress2 FeatureServerNautilusMask.

Definition ConnectionFlagLossy : Z := 1.

Definition TagAuthRequest : Z := 2.
Definition TagAuthBadMethod : Z := 3.
Definition TagAuthReplyMore : Z := 4.
Definition TagAuthRequestMore : Z := 5.
Definition TagAuthDone : Z := 6.
Definition TagAuthSignature : Z := 7.
Definition TagClientIdent : Z := 8.
Definition TagServerIdent : Z := 9.
Definition TagIdentMissingFeatures : Z := 10.
Definition TagSessionReconnect : Z := 11.
Definition TagSessionReset : Z := 12.
Definition TagSessionRetry : Z := 13.
Definition TagSessionRetryGlobal : Z := 14.
Definition TagSessionReconnectOK : Z := 15.
Definition TagWait : Z := 16.
Definition TagKeepalive2 : Z := 18.
Definition TagKeepalive2Ack : Z := 19.
Definition TagCompressionRequest : Z := 21.
Definition TagCompressionDone : Z := 22.

Record ClientIdent := mkClientIdent {
  ci_Addresses : list EntityAddr;
  ci_TargetAddress : EntityAddr;
  ci_GlobalID : Z;
  ci_GlobalSequence : Z;
  ci_SupportedFeatures : Z;
  ci_RequiredFeatures : Z;
  ci_Flags : Z;
  ci_Cookie : Z }.

Record ServerIdent := mkServerIdent {
  si_Addresses : list EntityAddr;
  si_GlobalID : Z;
  si_GlobalSequence : Z;
  si_SupportedFeatures : Z;
  si_RequiredFeatures : Z;
  si_Flags : Z;
  si_Cookie : Z }.

Record SessionReconnect := mkSessionReconnect {
  sr_Addresses : list EntityAddr;
  sr_ClientCookie : Z;
  sr_ServerCookie : Z;
  sr_GlobalSequence : Z;
  sr_ConnectSequence : Z;
  sr_MessageSequence : Z }.

Record Timestamp := mkTimestamp { Seconds : Z; Nanoseconds : Z }.

Inductive control :=
  | Hello (EntityType : Z) (PeerAddress : EntityAddr)
  | CClientIdent (ident : ClientIdent)
  | CServerIdent (ident : ServerIdent)
  | IdentMissingFeatures (Features : Z)
  | CSessionReconnect (reconnect : SessionReconnect)
  | SessionReset (Full : bool)
  | SessionRetry (ConnectSequence : Z)
  | SessionRetryGlobal (GlobalSequence : Z)
  | SessionReconnectOK (MessageSequence : Z)
  | Wait
  | Keepalive2 (timestamp : Timestamp)
  | Keepalive2Ack (timestamp : Timestamp)
  | Ack (Sequence : Z)
  | AuthRequest (Method : Z) (PreferredModes : list Z) (AuthPayload : bytes)
  | AuthBadMethod (Method Result : Z) (AllowedMethods AllowedModes : list Z)
  | AuthReplyMore (AuthPayload : bytes)
  | AuthRequestMore (AuthPayload : bytes)
  | AuthDone (GlobalID ConnectionMode : Z) (AuthPayload : bytes)
  | AuthSignature (Signature : bytes)
  | AuthPayload (tag : Z) (Payload : bytes).

Definition controlTag (payload : control) : res Z :=
  match payload with
  | Hello _ _ => Ok TagHello
  | CClientIdent _ => Ok TagClientIdent
  | CServerIdent _ => Ok TagServerIdent
  | IdentMissingFeatures _ => Ok TagIdentMissingFeatures
  | CSessionReconnect _ => Ok TagSessionReconnect
  | SessionReset _ => Ok TagSessionReset
  | SessionRetry _ => Ok TagSessionRetry
  | SessionRetryGlobal _ => Ok TagSessionRetryGlobal
  | SessionReconnectOK _ => Ok TagSessionReconnectOK
  | Wait => Ok TagWait
  | Keepalive2 _ => Ok TagKeepalive2
  | Keepalive2Ack _ => Ok TagKeepalive2Ack
  | Ack _ => Ok TagAck
  | AuthRequest _ _ _ => Ok TagAuthRequest
  | AuthBadMethod _ _ _ _ => Ok TagAuthBadMethod
  | AuthReplyMore _ => Ok TagAuthReplyMore
  | AuthRequestMore _ => Ok TagAuthRequestMore
  | AuthDone _ _ _ => Ok TagAuthDone
  | AuthSignature _ => Ok TagAuthSignature
  | AuthPayload tag _ =>
      if (tag <? TagAuthRequest) || (TagAuthSignature <? tag) then Err msgr_ErrMalformed else Ok tag
  end.

(** ** Encoding

    A step writes to the encoder and may return an error, after which the
    encoder is not used any more. *)

Definition EncE := Encoder -> option error * Encoder.

Definition writes (f : Enc.M) : EncE := fun e => (None, f e).

Definition andThen (f g : EncE) : EncE := fun e =>
  match f e with
  | (None, e) => g e
  | (Some x, e) => (Some x, e)
  end.

Definition encodeTimestamp (value : Timestamp) : Enc.M :=
  Enc.Uint32 (Seconds value) ⨾ Enc.Uint32 (Nanoseconds value).

Definition encodeUint32Slice (values : list Z) : EncE := fun e =>
  match checkedUint32Length (len values) with
  | Ok length => (None, foldl (fun e value => Enc.Uint32 value e) (Enc.Uint32 length e) values)
  | Err x => (Some x, e)
  | Panic => (None, e)
  end.

(** The limits that are checked before anything is written. *)
Definition control_guard (limits : FrameLimits) (payload : control) : bool :=
  match payload with
  | CClientIdent v => MaxAddresses limits <? len (ci_Addresses v)
  | CServerIdent v => MaxAddresses limits <? len (si_Addresses v)
  | CSessionReconnect v => MaxAddresses limits <? len (sr_Addresses v)
  | AuthRequest _ _ p | AuthReplyMore p | AuthRequestMore p | AuthDone _ _ p | AuthPayload _ p =>
      MaxAuthBytes limits <? len p
  | _ => false
  end.

Definition control_writes (payload : control) : EncE :=
  match payload with
  | Hello t a => andThen (writes (Enc.Uint8 t)) (EntityAddr_Encode a controlFeatures)
  | CClientIdent v =>
      andThen (EntityAddrVec_Encode (ci_Addresses v) controlFeatures)
        (andThen (EntityAddr_Encode (ci_TargetAddress v) controlFeatures)
          (writes (Enc.Int64 (ci_GlobalID v) ⨾ Enc.Uint64 (ci_GlobalSequence v) ⨾ Enc.Uint64 (ci_SupportedFeatures v)
                   ⨾ Enc.Uint64 (ci_RequiredFeatures v) ⨾ Enc.Uint64 (ci_Flags v) ⨾ Enc.Uint64 (ci_Cookie v))))
  | CServerIdent v =>
      andThen (EntityAddrVec_Encode (si_Addresses v) controlFeatures)
        (writes (Enc.Int64 (si_GlobalID v) ⨾ Enc.Uint64 (si_GlobalSequence v) ⨾ Enc.Uint64 (si_SupportedFeatures v)
                 ⨾ Enc.Uint64 (si_RequiredFeatures v) ⨾ Enc.Uint64 (si_Flags v) ⨾ Enc.Uint64 (si_Cookie v)))
  | IdentMissingFeatures features => writes (Enc.Uint64 features)
  | CSessionReconnect v =>
      andThen (EntityAddrVec_Encode (sr_Addresses v) controlFeatures)
        (writes (Enc.Uint64 (sr_ClientCookie v) ⨾ Enc.Uint64 (sr_ServerCookie v) ⨾ Enc.Uint64 (sr_GlobalSequence v)
                 ⨾ Enc.Uint64 (sr_ConnectSequence v) ⨾ Enc.Uint64 (sr_MessageSequence v)))
  | SessionReset full => writes (Enc.Bool full)
  | SessionRetry s | SessionRetryGlobal s | SessionReconnectOK s | Ack s => writes (Enc.Uint64 s)
  | Wait => writes Enc.skip
  | Keepalive2 t | Keepalive2Ack t => writes (encodeTimestamp t)
  | AuthRequest method modes p =>
      andThen (writes (Enc.Uint32 method)) (andThen (encodeUint32Slice modes) (writes (Enc.Bytes p)))
  | AuthBadMethod method result methods modes =>
      andThen (writes (Enc.Uint32 method ⨾ Enc.Int32 result))
        (andThen (encodeUint32Slice methods) (encodeUint32Slice modes))
  | AuthReplyMore p | AuthRequestMore p => writes (Enc.Bytes p)
  | AuthDone id mode p => writes (Enc.Uint64 id ⨾ Enc.Uint32 mode ⨾ Enc.Bytes p)
  | AuthSignature s => writes (Enc.Raw s)
  | AuthPayload _ p => writes (Enc.Raw p)
  end.

Definition EncodeControl (payload : control) (limits : FrameLimits) : res Frame :=
  tag ← controlTag payload;
  if (tag =? TagCompressionRequest) || (tag =? TagCompressionDone) then Err msgr_ErrUnsupportedPayload
  else if control_guard limits payload then Err wire_ErrLimitExceeded
  else
    match control_writes payload (NewEncoder (MaxSegmentBytes limits)) with
    | (Some x, _) => Err x
    | (None, e) =>
        data ← Enc.BytesResult e;
        Ok (mkFrame tag [mkSegment DefaultAlignment data])
    end.

(** ** Decoding *)

Definition decodeKeepalive (ack : bool) : DecM (res control) :=
  seconds ← Dec.Uint32;
  nanoseconds ← Dec.Uint32;
  _ ←? Dec.Finish;
  if 1000000000 <=? nanoseconds then fail wire_ErrMalformed
  else
    let value := mkTimestamp seconds nanoseconds in
    ok (if ack then Keepalive2Ack value else Keepalive2 value).

Definition decodeUint32Slice (maxBytes : Z) : DecM (res (list Z)) :=
  count ← Dec.Uint32;
  remaining ← Dec.Remaining;
  if remaining <? count * 4 then fail wire_ErrMalformed
  else if maxBytes / 4 <? count then fail wire_ErrLimitExceeded
  else
    values ← repeat_dec (Z.to_nat count) Dec.Uint32;
    ok values.

Definition decodeAuthBytes (limits : FrameLimits) : DecM (res bytes) :=
  length ← Dec.Uint32;
  if MaxAuthBytes limits <? length then fail wire_ErrLimitExceeded
  else
    remaining ← Dec.Remaining;
    if remaining <? length then fail wire_ErrMalformed
    else data ← Dec.Raw length; ok data.

Definition decodeAuthRequest (limits : FrameLimits) : DecM (res control) :=
  method ← Dec.Uint32;
  modes ←? decodeUint32Slice (MaxAuthBytes limits);
  p ←? decodeAuthBytes limits;
  ok (AuthRequest method modes p).

Definition decodeAuthBadMethod (limits : FrameLimits) : DecM (res control) :=
  method ← Dec.Uint32;
  result ← Dec.Int32;
  methods ←? decodeUint32Slice (MaxAuthBytes limits);
  modes ←? decodeUint32Slice (MaxAuthBytes limits);
  ok (AuthBadMethod method result methods modes).

Definition decodeAuthReplyMore (limits : FrameLimits) : DecM (res control) :=
  p ←? decodeAuthBytes limits; ok (AuthReplyMore p).

Definition decodeAuthRequestMore (limits : FrameLimits) : DecM (res control) :=
  p ←? decodeAuthBytes limits; ok (AuthRequestMore p).

Definition decodeAuthDone (limits : FrameLimits) : DecM (res control) :=
  globalID ← Dec.Uint64;
  connectionMode ← Dec.Uint32;
  p ←? decodeAuthBytes limits;
  ok (AuthDone globalID connectionMode p).

Definition decodeAuthSignature : DecM (res control) :=
  raw ← Dec.Raw 32;
  if negb (len raw =? 32) then fail wire_ErrMalformed else ok (AuthSignature raw).

Definition decodeClientIdent (limits : FrameLimits) : DecM (res control) :=
  addresses ←? DecodeEntityAddrVec (MaxAddresses limits);
  target ←? DecodeEntityAddr;
  globalID ← Dec.Int64;
  globalSequence ← Dec.Uint64;
  supported ← Dec.Uint64;
  required ← Dec.Uint64;
  flags ← Dec.Uint64;
  cookie ← Dec.Uint64;
  ok (CClientIdent (mkClientIdent addresses target globalID globalSequence supported required flags cookie)).

Definition decodeServerIdent (limits : FrameLimits) : DecM (res control) :=
  addresses ←? DecodeEntityAddrVec (MaxAddresses limits);
  globalID ← Dec.Int64;
  globalSequence ← Dec.Uint64;
  supported ← Dec.Uint64;
  required ← Dec.Uint64;
  flags ← Dec.Uint64;
  cookie ← Dec.Uint64;
  ok (CServerIdent (mkServerIdent addresses globalID globalSequence supported required flags cookie)).

Definition decodeSessionReconnect (limits : FrameLimits) : DecM (res control) :=
  addresses ←? DecodeEntityAddrVec (MaxAddresses limits);
  clientCookie ← Dec.Uint64;
  serverCookie ← Dec.Uint64;
  globalSequence ← Dec.Uint64;
  connectSequence ← Dec.Uint64;
  messageSequence ← Dec.Uint64;
  ok (CSessionReconnect (mkSessionReconnect addresses clientCookie serverCookie globalSequence connectSequence messageSequence)).

Definition one_uint64 (f : Z -> control) : DecM (res control) := v ← Dec.Uint64; ok (f v).

Definition control_reads (tag : Z) (limits : FrameLimits) : DecM (res control) :=
  if tag =? TagHello then t ← Dec.Uint8; a ←? DecodeEntityAddr; ok (Hello t a)
  else if tag =? TagClientIdent then decodeClientIdent limits
  else if tag =? TagServerIdent then decodeServerIdent limits
  else if tag =? TagIdentMissingFeatures then one_uint64 IdentMissingFeatures
  else if tag =? TagSessionReconnect then decodeSessionReconnect limits
  else if tag =? TagSessionReset then
    encoded ← Dec.Uint8;
    if 1 <? encoded then fail wire_ErrMalformed else ok (SessionReset (encoded =? 1))
  else if tag =? TagSessionRetry then one_uint64 SessionRetry
  else if tag =? TagSessionRetryGlobal then one_uint64 SessionRetryGlobal
  else if tag =? TagSessionReconnectOK then one_uint64 SessionReconnectOK
  else if tag =? TagWait then ok Wait
  else if tag =? TagKeepalive2 then decodeKeepalive false
  else if tag =? TagKeepalive2Ack then decodeKeepalive true
  else if tag =? TagAck then one_uint64 Ack
  else if tag =? TagAuthRequest then decodeAuthRequest limits
  else if tag =? TagAuthBadMethod then decodeAuthBadMethod limits
  else if tag =? TagAuthReplyMore then decodeAuthReplyMore limits
  else if tag =? TagAuthRequestMore then decodeAuthRequestMore limits
  else if tag =? TagAuthDone then decodeAuthDone limits
  else decodeAuthSignature.

Definition DecodeControl (frame : Frame) (limits : FrameLimits) : res control :=
  if (Tag frame =? TagCompressionRequest) || (Tag frame =? TagCompressionDone) then Err msgr_ErrUnsupportedPayload
  else if (Tag frame =? TagMessage) || (Tag frame <? TagHello) || (TagAck <? Tag frame) then Err msgr_ErrMalformed
  else
    match Segments frame with
    | [segment] =>
        if negb (Alignment segment =? DefaultAlignment) then Err msgr_ErrMalformed
        else
          let data := Data segment in
          if MaxSegmentBytes limits <? len data then Err wire_ErrLimitExceeded
          else
            fst ((payload ←? control_reads (Tag frame) limits;
                  _ ←? Dec.Finish;
                  remaining ← Dec.Remaining;
                  if negb (remaining =? 0) then fail wire_ErrMalformed else ok payload)
                 (NewDecoder data (mkLimits (MaxSegmentBytes limits))))
    | _ => Err msgr_ErrMalformed
    end.

(** ** No frame and no payload makes them panic *)

Lemma DecodeEntityAddr_post : yields DecodeEntityAddr (okP (fun _ => True)).
Proof. unfold DecodeEntityAddr. ysteps. apply decodeEntityAddrAfterMarker_post. Qed.

Lemma decodeUint32Slice_post n : yields (decodeUint32Slice n) (okP (fun _ => True)).
Proof.
  unfold decodeUint32Slice. yany. yany. apply yields_if; intros _; [apply yields_fail|].
  apply yields_if; intros _; [apply yields_fail|]. yany. by apply yields_ok.
Qed.

Lemma decodeAuthBytes_post limits : yields (decodeAuthBytes limits) (okP (fun _ => True)).
Proof.
  unfold decodeAuthBytes. yany. apply yields_if; intros _; [apply yields_fail|]. yany.
  apply yields_if; intros _; [apply yields_fail|]. yany. by apply yields_ok.
Qed.

Ltac ypost :=
  repeat first
    [ by apply yields_ok | apply yields_fail
    | eapply yields_try; [first [apply DecodeEntityAddr_post | apply DecodeEntityAddrVec_post | apply decodeUint32Slice_post
                                | apply decodeAuthBytes_post | apply yields_finish]|intros ? _]
    | eapply yields_bind; [apply yields_any|intros ? _]
    | apply yields_if; intros _ ].

Lemma control_reads_post tag limits : yields (control_reads tag limits) (okP (fun _ => True)).
Proof.
  unfold control_reads, decodeClientIdent, decodeServerIdent, decodeSessionReconnect, decodeKeepalive, decodeAuthRequest,
    decodeAuthBadMethod, decodeAuthReplyMore, decodeAuthRequestMore, decodeAuthDone, decodeAuthSignature, one_uint64.
  ypost.
Qed.

Lemma DecodeControl_no_panic frame limits : DecodeControl frame limits <> Panic.
Proof.
  unfold DecodeControl. destruct (_ || _); [done|]. destruct (_ || _); [done|].
  destruct (Segments frame) as [|segment []]; [done| |done]. destruct (negb _); [done|]. destruct (_ <? _); [done|].
  match goal with |- fst (?m ?d) <> _ => assert (yields m (okP (fun _ => True))) as H; [|specialize (H d); by destruct (fst (m d))] end.
  eapply yields_try; [apply control_reads_post|intros p _]. ypost.
Qed.

Lemma EncodeControl_no_panic payload limits : EncodeControl payload limits <> Panic.
Proof.
  unfold EncodeControl. destruct (controlTag payload) as [tag| |] eqn:E; [rewrite bind_Ok|done|].
  - destruct (_ || _); [done|]. destruct (control_guard _ _); [done|].
    destruct (control_writes _ _) as [[x|] e]; [done|]. unfold Enc.BytesResult. by destruct (e_err e).
  - destruct payload; cbn in E; try done. by destruct (_ || _).
Qed.

(** ** Round trip *)

Definition emitsE (f : EncE) (bs : bytes) : Prop :=
  (forall e, fst (f e) = None) /\ emits (fun e => snd (f e)) bs.

Lemma emitsE_writes f bs : emits f bs -> emitsE (writes f) bs.
Proof. by split. Qed.

Lemma emitsE_then f g a b : emitsE f a -> emitsE g b -> emitsE (andThen f g) (a ++ b).
Proof.
  intros [F1 F2] [G1 G2].
  assert (forall e, andThen f g e = g (snd (f e))) as Step.
  { intros e. unfold andThen. specialize (F1 e). by destruct (f e) as [o e1]; cbn in F1; subst. }
  split; [intros e; by rewrite Step|].
  pose proof (emits_seq _ _ _ _ F2 G2) as S. unfold Enc.seq in S.
  intros e We. specialize (S e We). by rewrite Step.
Qed.

Lemma emitsE_addr a : addr_wf a -> emitsE (EntityAddr_Encode a controlFeatures) (addr_bytes controlFeatures a).
Proof.
  intros Ha. destruct (addr_emits controlFeatures a Ha) as [E1 E2]. split; [|done].
  intros e. by rewrite (encode_ok_any _ _ e (NewEncoder 0)).
Qed.

Lemma emitsE_vec l : Forall addr_wf l -> len l <= MaxUint32 ->
  emitsE (EntityAddrVec_Encode l controlFeatures) (vec_bytes controlFeatures l).
Proof. apply vec_emits. Qed.

Definition slice_bytes (values : list Z) : bytes := le_split 4 (len values) ++ concat (le_split 4 <$> values).

Lemma emits_each_u32 values :
  emits (fun e => foldl (fun e value => Enc.Uint32 value e) e values) (concat (le_split 4 <$> values)).
Proof.
  induction values as [|v values IH]; [apply emits_skip|].
  apply (emits_seq _ _ _ _ (emits_u32 v) IH).
Qed.

Lemma emitsE_slice values : len values <= MaxUint32 -> emitsE (encodeUint32Slice values) (slice_bytes values).
Proof.
  intros Hl. unfold encodeUint32Slice, checkedUint32Length. pose proof (len_nonneg values).
  replace ((len values <? 0) || (MaxUint32 <? len values)) with false by lia.
  rewrite wrapU_id by (unfold inU, MaxUint32 in *; lia). split; [done|].
  apply (emits_seq _ _ _ _ (emits_u32 (len values)) (emits_each_u32 values)).
Qed.

#[export] Hint Resolve emitsE_writes emitsE_then emitsE_addr emitsE_vec emitsE_slice : wire.

(** The bytes of a payload. *)
Definition control_bytes (payload : control) : bytes :=
  match payload with
  | Hello t a => [byte.of_Z t] ++ addr_bytes controlFeatures a
  | CClientIdent v =>
      vec_bytes controlFeatures (ci_Addresses v) ++ addr_bytes controlFeatures (ci_TargetAddress v) ++
      le_split 8 (u64 (ci_GlobalID v)) ++ le_split 8 (ci_GlobalSequence v) ++ le_split 8 (ci_SupportedFeatures v) ++
      le_split 8 (ci_RequiredFeatures v) ++ le_split 8 (ci_Flags v) ++ le_split 8 (ci_Cookie v)
  | CServerIdent v =>
      vec_bytes controlFeatures (si_Addresses v) ++
      le_split 8 (u64 (si_GlobalID v)) ++ le_split 8 (si_GlobalSequence v) ++ le_split 8 (si_SupportedFeatures v) ++
      le_split 8 (si_RequiredFeatures v) ++ le_split 8 (si_Flags v) ++ le_split 8 (si_Cookie v)
  | IdentMissingFeatures v | SessionRetry v | SessionRetryGlobal v | SessionReconnectOK v | Ack v => le_split 8 v
  | CSessionReconnect v =>
      vec_bytes controlFeatures (sr_Addresses v) ++ le_split 8 (sr_ClientCookie v) ++ le_split 8 (sr_ServerCookie v) ++
      le_split 8 (sr_GlobalSequence v) ++ le_split 8 (sr_ConnectSequence v) ++ le_split 8 (sr_MessageSequence v)
  | SessionReset full => [byte.of_Z (Z.b2z full)]
  | Wait => []
  | Keepalive2 t | Keepalive2Ack t => le_split 4 (Seconds t) ++ le_split 4 (Nanoseconds t)
  | AuthRequest method modes p => le_split 4 method ++ slice_bytes modes ++ prefixed p
  | AuthBadMethod method result methods modes =>
      (le_split 4 method ++ le_split 4 (u32 result)) ++ slice_bytes methods ++ slice_bytes modes
  | AuthReplyMore p | AuthRequestMore p => prefixed p
  | AuthDone id mode p => le_split 8 id ++ le_split 4 mode ++ prefixed p
  | AuthSignature s => s
  | AuthPayload _ p => p
  end.

Definition u32s_ok (limits : FrameLimits) (values : list Z) : Prop :=
  Forall (inU 32) values /\ len values <= MaxAuthBytes limits / 4.

(** The values of the Go types that a peer accepts: the fields within their
    widths, valid addresses, fractions of a second, and the mode lists within
    the limit that only the reader checks.  [AuthPayload] is for writing: a
    reader returns one of the typed payloads. *)
Definition control_ok (limits : FrameLimits) (payload : control) : Prop :=
  match payload with
  | Hello t a => inU 8 t /\ addr_wf a
  | CClientIdent v =>
      Forall addr_wf (ci_Addresses v) /\ addr_wf (ci_TargetAddress v) /\ inS 64 (ci_GlobalID v) /\
      inU 64 (ci_GlobalSequence v) /\ inU 64 (ci_SupportedFeatures v) /\ inU 64 (ci_RequiredFeatures v) /\
      inU 64 (ci_Flags v) /\ inU 64 (ci_Cookie v)
  | CServerIdent v =>
      Forall addr_wf (si_Addresses v) /\ inS 64 (si_GlobalID v) /\
      inU 64 (si_GlobalSequence v) /\ inU 64 (si_SupportedFeatures v) /\ inU 64 (si_RequiredFeatures v) /\
      inU 64 (si_Flags v) /\ inU 64 (si_Cookie v)
  | IdentMissingFeatures v | SessionRetry v | SessionRetryGlobal v | SessionReconnectOK v | Ack v => inU 64 v
  | CSessionReconnect v =>
      Forall addr_wf (sr_Addresses v) /\ inU 64 (sr_ClientCookie v) /\ inU 64 (sr_ServerCookie v) /\
      inU 64 (sr_GlobalSequence v) /\ inU 64 (sr_ConnectSequence v) /\ inU 64 (sr_MessageSequence v)
  | SessionReset _ | Wait | AuthReplyMore _ | AuthRequestMore _ => True
  | Keepalive2 t | Keepalive2Ack t => inU 32 (Seconds t) /\ 0 <= Nanoseconds t < 1000000000
  | AuthRequest method modes _ => inU 32 method /\ u32s_ok limits modes
  | AuthBadMethod method result methods modes =>
      inU 32 method /\ inS 32 result /\ u32s_ok limits methods /\ u32s_ok limits modes
  | AuthDone id mode _ => inU 64 id /\ inU 32 mode
  | AuthSignature s => len s = 32
  | AuthPayload _ _ => False
  end.

Definition limits_ok (limits : FrameLimits) : Prop :=
  40 <= MaxSegmentBytes limits <= MaxUint32 /\ 0 <= MaxAddresses limits <= MaxUint32 /\
  0 <= MaxAuthBytes limits <= MaxUint32.

Lemma control_emits limits payload : limits_ok limits -> control_ok limits payload ->
  control_guard limits payload = false ->
  emitsE (control_writes payload) (control_bytes payload).
Proof.
  intros (L1 & L2 & L3) Hok Hg.
  assert (forall p : bytes, (MaxAuthBytes limits <? len p) = false -> len p <= MaxUint32) as Hb by (intros p ?; lia).
  assert (forall l : list EntityAddr, (MaxAddresses limits <? len l) = false -> len l <= MaxUint32) as Hv
    by (intros l ?; lia).
  assert (forall l, u32s_ok limits l -> len l <= MaxUint32) as Hs
    by (intros l [_ ?]; Z.to_euclidean_division_equations; lia).
  destruct payload; cbn [control_ok control_guard control_writes control_bytes] in *; unfold encodeTimestamp;
    destruct_and?; auto 12 with wire.
  all: try done.
Qed.

Lemma Has_control : Has controlFeatures FeatureMessageAddress2 = true.
Proof. reflexivity. Qed.

Lemma control_addr_received a : addr_received controlFeatures a = a.
Proof.
  unfold addr_received, sent_type. rewrite Has_control.
  change (Has controlFeatures FeatureServerNautilusMask) with true.
  rewrite andb_false_r. by destruct a.
Qed.

Lemma control_addr_parses max a : addr_wf a -> 40 <= max -> max <= MaxUint32 ->
  parses max DecodeEntityAddr (addr_bytes controlFeatures a) (Ok a).
Proof.
  intros Ha Hm Hx. eapply parses_eq; [by apply (addr_parses max controlFeatures a)|done|]. by rewrite control_addr_received.
Qed.

Lemma control_vec_parses max n l : Forall addr_wf l -> (n <? len l) = false -> n <= MaxUint32 ->
  40 <= max -> max <= MaxUint32 -> parses max (DecodeEntityAddrVec n) (vec_bytes controlFeatures l) (Ok l).
Proof.
  intros Hl Hn Hn' Hm Hx. eapply parses_eq; [apply (vec_parses max controlFeatures n l); auto; lia|done|].
  unfold vec_received. rewrite Has_control. f_equal. rewrite <- (list_fmap_id l) at 2.
  apply list_fmap_ext. intros i x _. apply control_addr_received.
Qed.

Lemma len_concat_u32 values : len (concat (le_split 4 <$> values)) = 4 * len values.
Proof.
  induction values as [|v values IH]; [done|]. cbn [fmap list_fmap concat].
  rewrite len_app, len_le_split, len_cons, IH. lia.
Qed.

Lemma slice_parses max limits values : u32s_ok limits values -> 0 <= MaxAuthBytes limits <= MaxUint32 ->
  parses max (decodeUint32Slice (MaxAuthBytes limits)) (slice_bytes values) (Ok values).
Proof.
  intros [Hv Hl] Hm. pose proof (len_nonneg values). unfold decodeUint32Slice, slice_bytes.
  eapply parses_bind; [apply parses_u32; unfold inU, MaxUint32 in *; Z.to_euclidean_division_equations; lia|].
  apply parses_remaining. intros n Hn. rewrite len_concat_u32 in Hn.
  replace (n <? len values * 4) with false by lia.
  replace (MaxAuthBytes limits / 4 <? len values) with false by lia.
  unfold len. rewrite Nat2Z.id.
  eapply parses_eq; [eapply parses_bind; [|apply parses_ret]|apply app_nil_r|done].
  apply parses_repeat. eapply Forall_impl; [exact Hv|]. intros v. apply parses_u32.
Qed.

Lemma auth_bytes_parses max limits p : (MaxAuthBytes limits <? len p) = false ->
  MaxAuthBytes limits <= MaxUint32 -> parses max (decodeAuthBytes limits) (prefixed p) (Ok p).
Proof.
  intros Hp Hm. pose proof (len_nonneg p). unfold decodeAuthBytes, prefixed.
  eapply parses_bind; [apply parses_u32; unfold inU, MaxUint32 in *; lia|]. rewrite Hp.
  apply parses_remaining. intros n Hn. replace (n <? len p) with false by lia.
  eapply parses_eq; [eapply parses_bind; [by apply parses_raw|apply parses_ret]|apply app_nil_r|done].
Qed.

#[export] Hint Resolve control_addr_parses control_vec_parses slice_parses auth_bytes_parses : wire.

Lemma keepalive_parses max ack t : inU 32 (Seconds t) -> 0 <= Nanoseconds t < 1000000000 ->
  parses max (decodeKeepalive ack) (le_split 4 (Seconds t) ++ le_split 4 (Nanoseconds t))
    (Ok (if ack then Keepalive2Ack t else Keepalive2 t)).
Proof.
  intros Hs Hn. unfold decodeKeepalive. eapply parses_bind; [by apply parses_u32|].
  eapply parses_eq; [eapply (parses_bind _ _ _ _ [] (Nanoseconds t)); [apply parses_u32; unfold inU; lia|]|
    apply app_nil_r|done].
  apply parses_finish_then. replace (1000000000 <=? Nanoseconds t) with false by lia.
  destruct t. apply parses_ret.
Qed.

Lemma signature_parses max s : len s = 32 -> parses max decodeAuthSignature s (Ok (AuthSignature s)).
Proof.
  intros Hs. unfold decodeAuthSignature.
  eapply parses_eq; [eapply (parses_bind _ _ _ _ [] s); [by apply parses_raw|]|apply app_nil_r|done].
  rewrite Hs. apply parses_ret.
Qed.

Lemma reset_parses max full : parses max
  (encoded ← Dec.Uint8; if 1 <? encoded then fail wire_ErrMalformed else ok (SessionReset (encoded =? 1)))
  [byte.of_Z (Z.b2z full)] (Ok (SessionReset full)).
Proof.
  eapply (parses_bind _ _ _ [_] [] (Z.b2z full)); [apply parses_u8; by destruct full|].
  by destruct full; apply parses_ret.
Qed.

Lemma control_parses limits payload tag : limits_ok limits -> control_ok limits payload ->
  control_guard limits payload = false -> controlTag payload = Ok tag ->
  parses (MaxSegmentBytes limits) (control_reads tag limits) (control_bytes payload) (Ok payload).
Proof.
  intros (L1 & L2 & L3) Hok Hg Ht.
  assert (MaxAddresses limits <= MaxUint32) by lia. assert (MaxAuthBytes limits <= MaxUint32) by lia.
  destruct payload; cbn in Ht; simplify_eq; cbn [control_ok control_guard control_bytes] in *;
    destruct_and?; try (by exfalso); unfold control_reads; cbn [Z.eqb Pos.eqb TagHello]; cbn;
    unfold decodeClientIdent, decodeServerIdent, decodeSessionReconnect, decodeAuthRequest,
      decodeAuthBadMethod, decodeAuthReplyMore, decodeAuthRequestMore, decodeAuthDone, one_uint64.
  all: rewrite <- ?app_assoc.
  all: try match goal with v : ClientIdent |- _ => destruct v | v : ServerIdent |- _ => destruct v
           | v : SessionReconnect |- _ => destruct v | v : Timestamp |- _ => destruct v end.
  all: cbn in *; try (solve [parse_steps]).
  - eapply (parses_bind _ _ _ [_]); [by apply parses_u8|]. parse_steps.
  - apply reset_parses.
  - by apply (keepalive_parses _ false (mkTimestamp _ _)).
  - by apply (keepalive_parses _ true (mkTimestamp _ _)).
  - by apply signature_parses.
Qed.

Lemma DecodeControl_frame limits payload tag :
  limits_ok limits -> control_ok limits payload -> control_guard limits payload = false ->
  controlTag payload = Ok tag -> len (control_bytes payload) <= MaxSegmentBytes limits ->
  DecodeControl (mkFrame tag [mkSegment DefaultAlignment (control_bytes payload)]) limits = Ok payload.
Proof.
  intros L Hok Hg Ht Hl. unfold DecodeControl. cbn [Tag Segments Alignment Data].
  replace ((tag =? TagCompressionRequest) || (tag =? TagCompressionDone)) with false
    by (destruct payload; cbn in Ht; simplify_eq; try reflexivity; by destruct Hok).
  replace ((tag =? TagMessage) || (tag <? TagHello) || (TagAck <? tag)) with false
    by (destruct payload; cbn in Ht; simplify_eq; try reflexivity; by destruct Hok).
  rewrite Z.eqb_refl. cbn [negb]. replace (MaxSegmentBytes limits <? len (control_bytes payload)) with false by lia.
  pose proof (control_parses limits payload tag L Hok Hg Ht) as P.
  pose proof (ready_new (MaxSegmentBytes limits) (control_bytes payload)) as R.
  rewrite <- (app_nil_r (control_bytes payload)) in R at 2. destruct (P _ _ R) as [E R'].
  unfold try_bind. rewrite bind_eq, E. cbn [fst snd].
  destruct R' as (E1 & _ & W & Hr).
  unfold Dec.Finish, mbind, dec_bind. rewrite E1. cbn [of_err]. unfold Dec.Remaining.
  rewrite <- len_rest, Hr by done. reflexivity.
Qed.


Definition sample_reconnect : control :=
  CSessionReconnect (mkSessionReconnect [sample_addr; sample_addr] 7 (2 ^ 64 - 1) 3 4 5).

Definition sample_bad_method : control := AuthBadMethod 2 (-22) [1; 2] [0; 2 ^ 32 - 1; 7].

