(* ===== verification/SessionTable.v ===== *)
(** * The request table of a session (src/internal/msgr/session.go, session_control.go)

    A session keeps the requests it has admitted in a slice that is updated by
    swapping with the last element, in a doubly linked list in the order of
    admission, and in two maps; the ones that may have to be sent again are in
    a second slice and a second linked list.  The nodes are shared, so they live
    in a store and the slices, the lists and the maps hold pointers to them.

    The first part models the operations on the pointers as they are written:
    a nil dereference or an index out of range is [Panic], and so is a loop
    that exceeds its bound.  The second part proves that under [table_ok] the
    operations behave as the same operations on two plain lists. *)

From stdpp Require Import base gmap list numbers sorting.
From coqutil Require Import Byte Word.LittleEndianList Datatypes.RecordSettersUsingExistingGetters.
From S2P Require Import Prelude Codec Crc MsgrFrame MsgrMessage.
From stdpp Require Import list.

Open Scope Z_scope.
Open Scope go_scope.

Arguments RecordSettersUsingExistingGetters.const {E} newValue _ /.

(** ** Data *)

(** The errors that [errors.Is] finds in a wrapped error. *)
Definition serror := list error.

Definition Is (err : serror) (target : error) : bool := bool_decide (target ∈ err).

(** The lease of a received message and the bytes it accounts for; the
    payloads' capacities otherwise. *)
Record received := mkReceived { r_lease : option nat; r_bytes : Z }.

Record SMessage := mkSMessage {
  wire_message : Message;
  TransportGeneration : Z;
  receiveLease : received;
  transferred : bool;
  payloadLease : option nat }.

Definition no_receipt : received := mkReceived None 0.

(** A submitted command, identified by its pointer. *)
Record submitCommand := mkSubmit {
  command_id : nat;
  controlGeneration : Z;
  command_message : SMessage;
  oneWay : bool;
  control : bool;
  registered : bool }.

Record submitResult := mkResult { result_message : option SMessage; result_err : option serror }.

Definition failed (err : serror) : submitResult := mkResult None (Some err).

(** What the owner does to its environment, in order: sends on channels,
    calls of the transport and the connector, and the reference counts. *)
Inductive output :=
  | OResult (request : nat) (result : submitResult)
  | OAdmitted (request : nat)
  | ORegistered (request : nat)
  | ORetain (lease : nat)
  | ORelease (lease : nat)
  | OReleaseReceive (lease : nat)
  | OWrite (generation : Z) (task : Z) (frame : Frame) (request : option nat) (sequence transactionID : Z)
  | OConnect (generation delay : Z)
  | OCancelConnector
  | OClose (transport : nat)
  | OIncoming (message : SMessage)
  | ODiagnostic (kind generation : Z)
  | OMode (transport : nat)
  | OStopped.

Record links := mkLinks { previous : option nat; next : option nat; index_ : Z }.

Record entry := mkEntry {
  request : submitCommand;
  message : SMessage;
  p_bytes : Z;
  seq : Z;
  sent : bool;
  mayHaveExecuted : bool }.

(** A node: its place in the lists and the rest of its fields. *)
Record pendingRequest := mkPending {
  pendingLinks : links;
  replayLinks : links;
  inReplay : bool;
  body :> entry }.

Record lane := mkLane { slots : list nat; head : option nat; tail : option nat }.

Record table := mkTable {
  nodes : gmap nat pendingRequest;
  pending : lane;
  replay : lane;
  byRequest : gmap nat nat;
  byTID : gmap Z nat;
  retainedBytes : Z;
  controlCount : Z;
  controlBytes : Z;
  inFlight : Z;
  trace : list output }.

Definition empty_lane : lane := mkLane [] None None.
Definition empty_table : table := mkTable ∅ empty_lane empty_lane ∅ ∅ 0 0 0 0 [].

Definition emitted (o : output) (t : table) : table := t <| trace ::= fun l => l ++ [o] |>.

Definition transaction (n : entry) : Z := TransactionID (Header (wire_message (message n))).

Definition deref (p : nat) (t : table) : res pendingRequest :=
  match nodes t !! p with Some n => Ok n | None => Panic end.

Definition update (p : nat) (f : pendingRequest -> pendingRequest) (t : table) : res table :=
  n ← deref p t; Ok (t <| nodes ::= <[p := f n]> |>).

(** ** The two intrusive lists

    [addPending] and [addReplay] append in the same way, and [removePending]
    and [removeReplay] unlink in the same way, each on its own fields. *)

Inductive which := Pending | Replay.

Definition links_of (w : which) (n : pendingRequest) : links :=
  match w with Pending => pendingLinks n | Replay => replayLinks n end.

Definition set_links (w : which) (l : links) (n : pendingRequest) : pendingRequest :=
  match w with Pending => n <| pendingLinks := l |> | Replay => n <| replayLinks := l |> end.

Definition on_links (w : which) (f : links -> links) (n : pendingRequest) : pendingRequest :=
  set_links w (f (links_of w n)) n.

Definition lane_of (w : which) (t : table) : lane :=
  match w with Pending => pending t | Replay => replay t end.

Definition set_lane (w : which) (l : lane) (t : table) : table :=
  match w with Pending => t <| pending := l |> | Replay => t <| replay := l |> end.

Definition append_lane (w : which) (p : nat) (t : table) : res table :=
  let l := lane_of w t in
  t ← update p (set_links w (mkLinks (tail l) None (len (slots l)))) t;
  '(t, first) ← match tail l with
                | None => Ok (t, Some p)
                | Some q => t ← update q (on_links w (fun k => k <| next := Some p |>)) t; Ok (t, head l)
                end;
  Ok (set_lane w (mkLane (slots l ++ [p]) first (Some p)) t).

(** The slot of [target] gets the last element. *)
Definition remove_slot (w : which) (target : nat) (t : table) : res table :=
  let l := lane_of w t in
  let last := len (slots l) - 1 in
  moved ← Prelude.index (slots l) last;
  n ← deref target t;
  slots' ← store (slots l) (index_ (links_of w n)) moved;
  t ← update moved (on_links w (fun k => k <| index_ := index_ (links_of w n) |>)) t;
  Ok (set_lane w (mkLane (take (Z.to_nat last) slots') (head l) (tail l)) t).

Definition unlink (w : which) (target : nat) (t : table) : res table :=
  n ← deref target t;
  let k := links_of w n in
  t ← match previous k with
      | None => Ok (set_lane w ((lane_of w t) <| head := next k |>) t)
      | Some q => update q (on_links w (fun l => l <| next := next k |>)) t
      end;
  t ← match next k with
      | None => Ok (set_lane w ((lane_of w t) <| tail := previous k |>) t)
      | Some q => update q (on_links w (fun l => l <| previous := previous k |>)) t
      end;
  update target (set_links w (mkLinks None None (-1))) t.

Definition remove_lane (w : which) (target : nat) (t : table) : res table :=
  t ← remove_slot w target t; unlink w target t.

Definition addPending (p : nat) (t : table) : res table := append_lane Pending p t.

Definition addReplay (p : nat) (t : table) : res table :=
  n ← deref p t;
  if inReplay n then Ok t
  else
    t ← update p (fun n => n <| inReplay := true |>) t;
    append_lane Replay p t.

Definition removeReplay (target : nat) (t : table) : res table :=
  n ← deref target t;
  if negb (inReplay n) then Ok t
  else
    t ← remove_lane Replay target t;
    update target (fun n => n <| inReplay := false |>) t.

(** ** Admission and removal *)

(** The end of [submit]: the node is allocated, linked and entered in the maps
    and the totals, and the session takes its own reference to a leased payload. *)
Definition register (command : submitCommand) (message : SMessage) (messageBytes : Z) (t : table) : res table :=
  let p := fresh (dom (nodes t)) in
  let n := mkPending (mkLinks None None 0) (mkLinks None None 0) false
             (mkEntry command message messageBytes 0 false false) in
  let t := t <| nodes ::= <[p := n]> |> in
  let t := match payloadLease message with Some lease => emitted (ORetain lease) t | None => t end in
  t ← addPending p t;
  let t := t <| byRequest ::= <[command_id command := p]> |>
             <| byTID ::= <[TransactionID (Header (wire_message message)) := p]> |> in
  Ok (if control command
      then t <| controlCount ::= fun n => n + 1 |> <| controlBytes ::= fun n => u64 (n + messageBytes) |>
      else t <| retainedBytes ::= fun n => u64 (n + messageBytes) |>).

Definition without_payload (m : SMessage) : SMessage :=
  let w := wire_message m in
  m <| payloadLease := None |>
    <| wire_message := mkMessage (Header w) (Lengths w) (Front w) (Middle w) [] |>.

(** The maps, the totals and the reference to a leased payload. *)
Definition forget (target : nat) (t : table) : res table :=
  n ← deref target t;
  let t := t <| byRequest ::= delete (command_id (request (body n))) |> <| byTID ::= delete (transaction (body n)) |> in
  let t := if control (request (body n))
           then t <| controlCount ::= fun k => k - 1 |> <| controlBytes ::= fun k => u64 (k - p_bytes (body n)) |>
           else t <| retainedBytes ::= fun k => u64 (k - p_bytes (body n)) |> in
  match payloadLease (message (body n)) with
  | None => Ok t
  | Some lease =>
      t ← update target (fun n => n <| body ::= fun e => e <| message ::= without_payload |> |>) t;
      Ok (emitted (ORelease lease) t)
  end.

Definition removePending (target : nat) (t : table) : res table :=
  n ← deref target t;
  let t := if sent (body n) && negb (control (request (body n))) then t <| inFlight ::= fun k => k - 1 |> else t in
  t ← remove_lane Pending target t;
  t ← removeReplay target t;
  forget target t.

(** [pending.request.result <- result] *)
Definition reply (p : nat) (result : submitResult) (t : table) : res table :=
  n ← deref p t; Ok (emitted (OResult (command_id (request (body n))) result) t).

(** [owner.removePending(pending); pending.request.result <- result] *)
Definition finish (p : nat) (result : submitResult) (t : table) : res table :=
  t ← removePending p t; reply p result t.

Definition unknown (cause : serror) : serror := msgr_ErrOutcomeUnknown :: cause.

Definition fail_entry (err : serror) (p : nat) (t : table) : res table :=
  n ← deref p t;
  let resultErr := if mayHaveExecuted (body n) && negb (Is err msgr_ErrOutcomeUnknown) then unknown err else err in
  t ← reply p (failed resultErr) t;
  update p (fun n => n <| pendingLinks := mkLinks None None (-1) |> <| replayLinks := mkLinks None None (-1) |>
                       <| inReplay := false |>) t.

Definition failAll (err : serror) (t : table) : res table :=
  t ← fold_res (fail_entry err) (slots (pending t)) t;
  Ok (t <| pending := empty_lane |> <| replay := empty_lane |> <| byRequest := ∅ |> <| byTID := ∅ |>
        <| retainedBytes := 0 |> <| controlCount := 0 |> <| controlBytes := 0 |> <| inFlight := 0 |>).

(** [for owner.replayHead != nil && keep(owner.replayHead) { owner.removeReplay(owner.replayHead) }] *)
Fixpoint drop_replay (fuel : nat) (test : entry -> bool) (t : table) : res table :=
  match head (replay t) with
  | None => Ok t
  | Some p =>
      n ← deref p t;
      if negb (test (body n)) then Ok t
      else match fuel with
           | O => Panic
           | S fuel => t ← removeReplay p t; drop_replay fuel test t
           end
  end.

Definition trimReplay (sequence : Z) (t : table) : res table :=
  drop_replay (length (slots (replay t))) (fun n => seq n <=? sequence) t.

Definition prepare_entry (p : nat) (t : table) : res table :=
  n ← deref p t;
  if bool_decide (is_Some (byRequest t !! command_id (request (body n)))) && sent (body n) then
    let t := if negb (control (request (body n))) then t <| inFlight ::= fun k => k - 1 |> else t in
    update p (fun n => n <| body ::= fun e => e <| sent := false |> |>) t
  else Ok t.

Definition prepareReplay (t : table) : res table := fold_res prepare_entry (slots (replay t)) t.

Definition fail_sent (cause : serror) (p : nat) (t : table) : res table :=
  n ← deref p t;
  if negb (sent (body n)) then Ok t else finish p (failed (unknown cause)) t.

Definition failSentUnknown (cause : serror) (t : table) : res table :=
  t ← fold_res (fail_sent cause) (slots (pending t)) t;
  t ← drop_replay (length (slots (replay t))) (fun _ => true) t;
  Ok (t <| replay ::= fun l => l <| slots := [] |> |>).

(** [for index := 0; index < len(owner.pending); { ... }]: a removal puts
    another entry at [index]. *)
Fixpoint invalidate_from (fuel : nat) (i : nat) (t : table) : res table :=
  match slots (pending t) !! i with
  | None => Ok t
  | Some p =>
      match fuel with
      | O => Panic
      | S fuel =>
          n ← deref p t;
          if negb (controlGeneration (request (body n)) =? 0)
          then t ← finish p (failed [msgr_ErrControlInvalidated]) t; invalidate_from fuel i t
          else invalidate_from fuel (S i) t
      end
  end.

Definition invalidate (t : table) : res table := invalidate_from (length (slots (pending t))) 0 t.

(** ** The next request to write *)

(** [for pending := owner.pendingHead; pending != nil; pending = pending.next] *)
Fixpoint scan {A} (fuel : nat) (p : option nat) (body : nat -> pendingRequest -> A -> A + option nat) (acc : A) (t : table)
    : res (A + option nat) :=
  match p with
  | None => Ok (inl acc)
  | Some p =>
      match fuel with
      | O => Panic
      | S fuel =>
          n ← deref p t;
          match body p n acc with
          | inl acc => scan fuel (next (pendingLinks n)) body acc t
          | inr r => Ok (inr r)
          end
      end
  end.

Record candidates := mkCandidates {
  c_replay : option (nat * Z);
  c_control : option nat;
  c_application : option nat }.

Definition consider (p : nat) (n : pendingRequest) (c : candidates) : candidates + option nat :=
  inl (if sent n then c
       else if negb (seq n =? 0) then
         match c_replay c with
         | Some (_, least) => if seq n <? least then c <| c_replay := Some (p, seq n) |> else c
         | None => c <| c_replay := Some (p, seq n) |>
         end
       else if control (request n) then
         match c_control c with None => c <| c_control := Some p |> | Some _ => c end
       else match c_application c with None => c <| c_application := Some p |> | Some _ => c end).

Definition first_unsent (p : nat) (n : pendingRequest) (_ : unit) : unit + option nat :=
  if negb (sent n) then inr (Some p) else inl tt.

Definition nextPendingWrite (t : table) : res (option nat) :=
  let fuel := length (slots (pending t)) in
  if controlCount t =? 0 then
    r ← scan fuel (head (pending t)) first_unsent tt t;
    Ok (match r with inr p => p | inl _ => None end)
  else
    r ← scan fuel (head (pending t)) consider (mkCandidates None None None) t;
    Ok (match r with
        | inr p => p
        | inl c => match c_replay c, c_control c with
                   | Some (p, _), _ => Some p
                   | None, Some p => Some p
                   | None, None => c_application c
                   end
        end).

(** ** The intrusive lists represent lists *)

Definition hd_or (L : list nat) (nx : option nat) : option nat :=
  match L with [] => nx | p :: _ => Some p end.

Definition last_or (pv : option nat) (L : list nat) : option nat :=
  match last L with Some p => Some p | None => pv end.

Fixpoint chain (w : which) (ns : gmap nat pendingRequest) (pv : option nat) (L : list nat) (nx : option nat) : Prop :=
  match L with
  | [] => True
  | p :: L =>
      (exists n, ns !! p = Some n /\ previous (links_of w n) = pv /\ next (links_of w n) = hd_or L nx) /\
      chain w ns (Some p) L nx
  end.

Definition indexed (w : which) (ns : gmap nat pendingRequest) (sl : list nat) : Prop :=
  forall i q, sl !! i = Some q -> exists n, ns !! q = Some n /\ index_ (links_of w n) = Z.of_nat i.

Record lane_ok (w : which) (ns : gmap nat pendingRequest) (l : lane) (L : list nat) : Prop := {
  lane_nodup : NoDup L;
  lane_perm : slots l ≡ₚ L;
  lane_head : head l = hd_or L None;
  lane_tail : tail l = last L;
  lane_chain : chain w ns None L None;
  lane_index : indexed w ns (slots l) }.

(** The node without the links of one list. *)
Definition erase (w : which) (n : pendingRequest) : pendingRequest := set_links w (mkLinks None None 0) n.

Definition same_rest (w : which) (ns ns' : gmap nat pendingRequest) : Prop := erase w <$> ns' = erase w <$> ns.

Lemma links_set w l n : links_of w (set_links w l n) = l.
Proof. by destruct w. Qed.

Lemma erase_set w l n : erase w (set_links w l n) = erase w n.
Proof. by destruct w, n. Qed.

Lemma links_on w f n : links_of w (on_links w f n) = f (links_of w n).
Proof. apply links_set. Qed.

Lemma erase_on w f n : erase w (on_links w f n) = erase w n.
Proof. apply erase_set. Qed.

Lemma same_rest_refl w ns : same_rest w ns ns.
Proof. done. Qed.

Lemma same_rest_trans w a b c : same_rest w a b -> same_rest w b c -> same_rest w a c.
Proof. unfold same_rest. congruence. Qed.

Lemma same_rest_insert w ns p n n' : ns !! p = Some n -> erase w n' = erase w n -> same_rest w ns (<[p := n']> ns).
Proof.
  intros Hp He. unfold same_rest. rewrite fmap_insert, He, <- fmap_insert. by rewrite insert_id.
Qed.

Lemma same_rest_lookup w ns ns' p n : same_rest w ns ns' -> ns !! p = Some n ->
  exists n', ns' !! p = Some n' /\ erase w n' = erase w n.
Proof.
  intros H Hp. pose proof (f_equal (.!! p) H) as E. cbn in E. rewrite !lookup_fmap, Hp in E.
  destruct (ns' !! p) as [n'|]; cbn in E; [|done]. injection E as E. eauto.
Qed.

Lemma chain_app w ns pv A B nx :
  chain w ns pv (A ++ B) nx <-> chain w ns pv A (hd_or B nx) /\ chain w ns (last_or pv A) B nx.
Proof.
  revert pv. induction A as [|a A IH]; intros pv; cbn [app chain]; [naive_solver|].
  rewrite IH. assert (hd_or (A ++ B) nx = hd_or A (hd_or B nx)) as -> by by destruct A.
  assert (last_or pv (a :: A) = last_or (Some a) A) as ->; [|naive_solver].
  unfold last_or. rewrite last_cons. by destruct (last A).
Qed.

Lemma chain_frame w ns ns' pv L nx :
  (forall q, q ∈ L -> forall n, ns !! q = Some n -> exists n', ns' !! q = Some n' /\
     previous (links_of w n') = previous (links_of w n) /\ next (links_of w n') = next (links_of w n)) ->
  chain w ns pv L nx -> chain w ns' pv L nx.
Proof.
  revert pv. induction L as [|a L IH]; intros pv H; [done|]. intros [(n & Hn & Hp & Hx) Hc]. split.
  - destruct (H a ltac:(left) n Hn) as (n' & ? & ? & ?). exists n'. split_and!; congruence.
  - apply IH; [|done]. intros q Hq. apply H. by right.
Qed.

Lemma chain_insert w ns pv L nx p n : p ∉ L -> chain w ns pv L nx -> chain w (<[p := n]> ns) pv L nx.
Proof.
  intros Hp. apply chain_frame. intros q Hq m Hm. exists m. rewrite lookup_insert_ne by (intros ->; done). done.
Qed.

Lemma chain_set_next w ns pv A q nx nx' n : q ∉ A -> ns !! q = Some n ->
  chain w ns pv (A ++ [q]) nx ->
  chain w (<[q := on_links w (fun k => k <| next := nx' |>) n]> ns) pv (A ++ [q]) nx'.
Proof.
  intros Hq Hn. rewrite !chain_app. intros [HA [(n' & Hn' & Hp & Hx) _]]. simplify_eq. split.
  - by apply chain_insert.
  - split; [|done]. eexists. rewrite lookup_insert_eq. split; [done|]. by rewrite links_on.
Qed.

Lemma chain_set_prev w ns pv pv' q B nx n : q ∉ B -> ns !! q = Some n ->
  chain w ns pv (q :: B) nx ->
  chain w (<[q := on_links w (fun k => k <| previous := pv' |>) n]> ns) pv' (q :: B) nx.
Proof.
  intros Hq Hn [(n' & Hn' & Hp & Hx) HB]. simplify_eq. split; [|by apply chain_insert].
  eexists. rewrite lookup_insert_eq. split; [done|]. by rewrite links_on.
Qed.

Lemma chain_lookup w ns pv A p B nx : chain w ns pv (A ++ p :: B) nx ->
  exists n, ns !! p = Some n /\ previous (links_of w n) = last_or pv A /\ next (links_of w n) = hd_or B nx.
Proof. rewrite chain_app. intros [_ [H _]]. exact H. Qed.

Lemma indexed_insert w ns sl q n n' : ns !! q = Some n -> index_ (links_of w n') = index_ (links_of w n) ->
  indexed w ns sl -> indexed w (<[q := n']> ns) sl.
Proof.
  intros Hq Hi H i r Hr. destruct (H i r Hr) as (m & Hm & Hx). destruct (decide (r = q)) as [->|Hne].
  - rewrite lookup_insert_eq. eexists. split; [done|]. congruence.
  - rewrite lookup_insert_ne by done. eauto.
Qed.

Lemma indexed_insert_out w ns sl q n' : q ∉ sl -> indexed w ns sl -> indexed w (<[q := n']> ns) sl.
Proof.
  intros Hq H i r Hr. destruct (H i r Hr) as (m & Hm & Hx). exists m.
  rewrite lookup_insert_ne; [done|]. intros ->. apply Hq. by eapply list_elem_of_lookup_2.
Qed.

Lemma update_ok p f t n : nodes t !! p = Some n -> update p f t = Ok (t <| nodes := <[p := f n]> (nodes t) |>).
Proof. intros H. unfold update, deref. by rewrite H. Qed.

Lemma deref_ok p t n : nodes t !! p = Some n -> deref p t = Ok n.
Proof. intros H. unfold deref. by rewrite H. Qed.

Lemma lane_of_set_lane w l t : lane_of w (set_lane w l t) = l.
Proof. by destruct w. Qed.
Lemma nodes_set_lane w l t : nodes (set_lane w l t) = nodes t.
Proof. by destruct w. Qed.
Lemma lane_of_nodes w ns t : lane_of w (t <| nodes := ns |>) = lane_of w t.
Proof. by destruct w. Qed.

(** [moved w t l ns] is [t] with another lane and store. *)
Definition relaid (w : which) (t : table) (l : lane) (ns : gmap nat pendingRequest) : table :=
  set_lane w l (t <| nodes := ns |>).

Lemma relaid_nodes w t l ns : nodes (relaid w t l ns) = ns.
Proof. by destruct w. Qed.
Lemma relaid_lane w t l ns : lane_of w (relaid w t l ns) = l.
Proof. by destruct w. Qed.
Lemma relaid_relaid w t l ns l' ns' : relaid w (relaid w t l ns) l' ns' = relaid w t l' ns'.
Proof. by destruct w. Qed.
Lemma relaid_id w t : relaid w t (lane_of w t) (nodes t) = t.
Proof. by destruct w, t. Qed.
Lemma set_lane_relaid w t l ns l' : set_lane w l' (relaid w t l ns) = relaid w t l' ns.
Proof. by destruct w. Qed.
Lemma set_nodes_relaid w t l ns ns' : (relaid w t l ns) <| nodes := ns' |> = relaid w t l ns'.
Proof. by destruct w. Qed.

Lemma update_relaid w t l ns p f n : ns !! p = Some n -> update p f (relaid w t l ns) = Ok (relaid w t l (<[p := f n]> ns)).
Proof.
  intros H. erewrite update_ok by (by rewrite relaid_nodes). by rewrite set_nodes_relaid, relaid_nodes.
Qed.

Lemma update_as_relaid w t p f n : nodes t !! p = Some n ->
  update p f t = Ok (relaid w t (lane_of w t) (<[p := f n]> (nodes t))).
Proof. intros H. rewrite (update_ok _ _ _ _ H). by destruct w, t. Qed.

Lemma append_lane_ok w t L p n : lane_ok w (nodes t) (lane_of w t) L -> nodes t !! p = Some n -> p ∉ L ->
  exists l' ns', append_lane w p t = Ok (relaid w t l' ns') /\ lane_ok w ns' l' (L ++ [p]) /\
    same_rest w (nodes t) ns'.
Proof.
  intros [Nd Pm Hh Ht Hc Hi] Hn Hp. unfold append_lane.
  set (n1 := set_links w (mkLinks (tail (lane_of w t)) None (len (slots (lane_of w t)))) n).
  assert (p ∉ slots (lane_of w t)) as Hps by by rewrite Pm.
  assert (NoDup (L ++ [p])) as Nd'.
  { apply NoDup_app. split_and!; [done| |apply NoDup_singleton]. intros x Hx. rewrite list_elem_of_singleton. by intros ->. }
  rewrite (update_as_relaid w _ _ _ _ Hn), bind_Ok. fold n1.
  assert (indexed w (<[p := n1]> (nodes t)) (slots (lane_of w t) ++ [p])) as Hi1.
  { intros i q [Hq|[Hlen Hq]]%lookup_app_Some.
    - by apply (indexed_insert_out w _ _ p n1 Hps Hi).
    - apply list_lookup_singleton_Some in Hq as [Hz <-]. exists n1. rewrite lookup_insert_eq. split; [done|].
      unfold n1. rewrite links_set. cbn. unfold len. lia. }
  destruct L as [|q L0 _] using rev_ind.
  - rewrite Ht. cbn [last]. rewrite bind_Ok. eexists _, _. rewrite set_lane_relaid. split; [done|]. split.
    + split; cbn; auto; [by rewrite Pm|]. split; [|done]. exists n1. rewrite lookup_insert_eq. split; [done|].
      unfold n1. by rewrite links_set, Ht.
    + eapply same_rest_insert; [done|]. apply erase_set.
  - rewrite Ht, last_snoc. apply NoDup_app in Nd as (Nd0 & Hq & _).
    assert (q ∉ L0) as Hq0 by (intros Hx; apply (Hq q Hx); by left).
    assert (p <> q) as Hpq by (intros ->; apply Hp; apply elem_of_app; right; by left).
    destruct (chain_lookup w _ _ L0 q [] _ Hc) as (nq & Hnq & _ & _).
    assert (<[p := n1]> (nodes t) !! q = Some nq) as Hnq1 by by rewrite lookup_insert_ne.
    rewrite (update_relaid _ _ _ _ _ _ _ Hnq1), bind_Ok. cbn zeta. rewrite bind_Ok, set_lane_relaid.
    eexists _, _. split; [done|]. split.
    + split; cbn [slots head tail].
      * done.
      * by rewrite Pm.
      * rewrite Hh. by destruct L0.
      * by rewrite last_snoc.
      * rewrite chain_app. split.
        -- eapply chain_set_next; [done|done|]. apply chain_insert; [done|exact Hc].
        -- cbn [chain]. split; [|done]. exists n1. rewrite lookup_insert_ne, lookup_insert_eq by done.
           split; [done|]. unfold n1. rewrite links_set. cbn. unfold last_or. by rewrite Ht, last_snoc.
      * eapply indexed_insert; [exact Hnq1| |exact Hi1]. by rewrite links_on.
    + eapply same_rest_trans; [eapply same_rest_insert; [exact Hn|apply erase_set]|].
      eapply same_rest_insert; [exact Hnq1|apply erase_on].
Qed.

(** Swapping with the last element and truncating removes one element. *)
Lemma swap_remove_perm (sl : list nat) i p m : sl !! i = Some p -> last sl = Some m ->
  p :: take (length sl - 1) (<[i := m]> sl) ≡ₚ sl.
Proof.
  intros Hi Hm. destruct sl as [|x sl0 _] using rev_ind; [done|]. rewrite last_snoc in Hm. injection Hm as ->.
  rewrite length_app. cbn [length]. replace (length sl0 + 1 - 1)%nat with (length sl0) by lia.
  apply lookup_app_Some in Hi as [Hi|[Hlen Hi]].
  - rewrite insert_app_l by (by eapply lookup_lt_Some). rewrite take_app_length'; [|by rewrite length_insert].
    rewrite <- (take_drop_middle sl0 i p Hi) at 2. rewrite insert_take_drop by (by eapply lookup_lt_Some).
    solve_Permutation.
  - apply list_lookup_singleton_Some in Hi as [Hz ->].
    rewrite insert_app_r_alt by lia. rewrite take_app_length. solve_Permutation.
Qed.

Definition swapped (p : nat) (sl sl' : list nat) : Prop :=
  exists i m, sl !! i = Some p /\ last sl = Some m /\ sl' = take (length sl - 1) (<[i := m]> sl).

Lemma remove_slot_ok w t A p B : lane_ok w (nodes t) (lane_of w t) (A ++ p :: B) ->
  exists sl' ns', remove_slot w p t = Ok (relaid w t (mkLane sl' (head (lane_of w t)) (tail (lane_of w t))) ns') /\
    swapped p (slots (lane_of w t)) sl' /\ sl' ≡ₚ A ++ B /\ indexed w ns' sl' /\
    chain w ns' None (A ++ p :: B) None /\ same_rest w (nodes t) ns'.
Proof.
  intros [Nd Pm Hh Ht Hc Hi]. unfold remove_slot. set (sl := slots (lane_of w t)) in *.
  assert (NoDup sl) as NdS by by rewrite Pm.
  assert (p ∈ sl) as Hp by (rewrite Pm; apply elem_of_app; right; left).
  apply list_elem_of_lookup_1 in Hp as [i Hpi]. destruct (Hi i p Hpi) as (n & Hn & Hx).
  pose proof (lookup_lt_Some _ _ _ Hpi) as Hlt.
  assert (exists m, last sl = Some m) as [m Hm].
  { destruct (last sl) eqn:E; [eauto|]. apply last_None in E. rewrite E in Hlt. cbn in Hlt. lia. }
  rewrite last_lookup in Hm.
  assert (Prelude.index sl (len sl - 1) = Ok m) as ->.
  { apply index_ok. split; [unfold len; lia|]. rewrite <- Hm. f_equal. unfold len. lia. }
  rewrite bind_Ok, (deref_ok _ _ _ Hn), bind_Ok, Hx.
  assert (store sl (Z.of_nat i) m = Ok (<[i := m]> sl)) as ->.
  { unfold store. rewrite Nat2Z.id. replace ((0 <=? Z.of_nat i) && (Z.of_nat i <? len sl)) with true; [done|].
    unfold len. lia. }
  rewrite bind_Ok. destruct (Hi _ m Hm) as (nm & Hnm & Hxm).
  rewrite (update_as_relaid w _ _ _ _ Hnm), bind_Ok, set_lane_relaid.
  replace (Z.to_nat (len sl - 1)) with (length sl - 1)%nat by (unfold len; lia).
  eexists _, _. split; [done|]. rewrite <- last_lookup in Hm.
  split_and!.
  - by exists i, m.
  - apply (Permutation_cons_inv (a := p)). rewrite (swap_remove_perm sl i p m Hpi Hm), Pm. solve_Permutation.
  - intros j q Hq. apply lookup_take_Some in Hq as [Hq Hj].
    destruct (decide (j = i)) as [->|Hne].
    + rewrite list_lookup_insert_eq in Hq by done. injection Hq as <-.
      eexists. rewrite lookup_insert_eq. split; [done|]. by rewrite links_on.
    + rewrite list_lookup_insert_ne in Hq by done. destruct (Hi j q Hq) as (nq & Hnq & Hxq).
      exists nq. rewrite lookup_insert_ne; [done|]. intros ->. rewrite last_lookup in Hm.
      pose proof (NoDup_lookup _ _ _ _ NdS Hq Hm). lia.
  - eapply chain_frame; [|exact Hc]. intros q _ nq Hnq. destruct (decide (q = m)) as [->|Hne].
    + eexists. rewrite lookup_insert_eq. split; [done|]. rewrite links_on. cbn. by simplify_eq.
    + exists nq. by rewrite lookup_insert_ne.
  - eapply same_rest_insert; [exact Hnm|apply erase_on].
Qed.

Lemma unlink_ok w t sl A p B : NoDup (A ++ p :: B) -> chain w (nodes t) None (A ++ p :: B) None ->
  lane_of w t = mkLane sl (hd_or (A ++ p :: B) None) (last (A ++ p :: B)) -> sl ≡ₚ A ++ B -> indexed w (nodes t) sl ->
  exists l' ns', unlink w p t = Ok (relaid w t l' ns') /\ lane_ok w ns' l' (A ++ B) /\ same_rest w (nodes t) ns' /\
    slots l' = sl.
Proof.
  intros Nd Hc Hl Pm Hi. unfold unlink.
  assert (NoDup (A ++ B) /\ p ∉ A ++ B) as [NdAB HpAB].
  { rewrite <- Permutation_middle in Nd. apply NoDup_cons in Nd. tauto. }
  apply not_elem_of_app in HpAB as [HpA HpB].
  destruct (chain_lookup _ _ _ _ _ _ _ Hc) as (n & Hn & Hpv & Hnx).
  rewrite (deref_ok _ _ _ Hn), bind_Ok. cbn zeta. rewrite Hpv, Hnx.
  apply chain_app in Hc as [HcA [_ HcB]]. cbn [hd_or] in HcA.
  assert (exists ns1, match last_or None A with
      | None => Ok (set_lane w ((lane_of w t) <| head := hd_or B None |>) t)
      | Some q => update q (on_links w (fun l => l <| next := hd_or B None |>)) t
      end = Ok (relaid w t (mkLane sl (hd_or (A ++ B) None) (last (A ++ p :: B))) ns1) /\
      same_rest w (nodes t) ns1 /\ chain w ns1 None A (hd_or B None) /\ chain w ns1 (Some p) B None /\
      indexed w ns1 sl /\ exists n1, ns1 !! p = Some n1) as (ns1 & -> & S1 & CA1 & CB1 & I1 & n1 & Hn1).
  { destruct A as [|a A0 _] using rev_ind; cbn [last_or last].
    - exists (nodes t). split_and!; eauto; [|apply same_rest_refl]. rewrite Hl. cbn. by destruct w, t.
    - unfold last_or. rewrite last_snoc.
      destruct (chain_lookup _ _ _ A0 a [] _ HcA) as (na & Hna & _).
      apply not_elem_of_app in HpA as [HpA0 Hpa]. rewrite not_elem_of_cons in Hpa.
      apply NoDup_app in NdAB as (NdA & Hdis & _). apply NoDup_app in NdA as (_ & Ha0 & _).
      assert (a ∉ A0) by (intros Hx; apply (Ha0 a Hx); by left).
      assert (a ∉ B) by (apply Hdis; apply elem_of_app; right; by left).
      rewrite (update_as_relaid w _ _ _ _ Hna), Hl. eexists. split_and!.
      + f_equal. f_equal. f_equal. by destruct A0.
      + eapply same_rest_insert; [exact Hna|apply erase_on].
      + by eapply chain_set_next.
      + by apply chain_insert.
      + eapply indexed_insert; [exact Hna| |done]. by rewrite links_on.
      + exists n. rewrite lookup_insert_ne; [done|]. intros ->; tauto. }
  rewrite bind_Ok.
  assert (exists ns2, match hd_or B None with
      | None => Ok (set_lane w ((lane_of w (relaid w t (mkLane sl (hd_or (A ++ B) None) (last (A ++ p :: B))) ns1))
                      <| tail := last_or None A |>) (relaid w t (mkLane sl (hd_or (A ++ B) None) (last (A ++ p :: B))) ns1))
      | Some q => update q (on_links w (fun l => l <| previous := last_or None A |>))
                    (relaid w t (mkLane sl (hd_or (A ++ B) None) (last (A ++ p :: B))) ns1)
      end = Ok (relaid w t (mkLane sl (hd_or (A ++ B) None) (last (A ++ B))) ns2) /\
      same_rest w ns1 ns2 /\ chain w ns2 None (A ++ B) None /\ indexed w ns2 sl /\ exists n2, ns2 !! p = Some n2)
    as (ns2 & -> & S2 & C2 & I2 & n2 & Hn2).
  { destruct B as [|b B0]; cbn [hd_or].
    - exists ns1. rewrite app_nil_r in *. split_and!; eauto; [|apply same_rest_refl].
      rewrite relaid_lane, set_lane_relaid. unfold last_or. cbn. by destruct (last A).
    - destruct (chain_lookup w ns1 (Some p) [] b B0 None CB1) as (nb & Hnb & _).
      rewrite not_elem_of_cons in HpB. apply NoDup_app in NdAB as (NdA & Hdis & NdB). apply NoDup_cons in NdB as [Hb0 _].
      assert (b ∉ A) by (intros Hx; apply (Hdis b Hx); by left).
      rewrite (update_relaid _ _ _ _ _ _ _ Hnb). eexists. split_and!.
      + f_equal. f_equal. f_equal. rewrite !last_app_cons. by rewrite last_cons_cons.
      + eapply same_rest_insert; [exact Hnb|apply erase_on].
      + rewrite chain_app. split; [by apply chain_insert|]. by eapply chain_set_prev.
      + eapply indexed_insert; [exact Hnb| |done]. by rewrite links_on.
      + exists n1. rewrite lookup_insert_ne; [done|]. intros ->; tauto. }
  rewrite bind_Ok, (update_relaid _ _ _ _ _ _ _ Hn2). eexists _, _. split; [done|].
  assert (p ∉ A ++ B) by (apply not_elem_of_app; done).
  split_and!; [|eapply same_rest_trans; [eapply same_rest_trans; [exact S1|exact S2]|
            eapply same_rest_insert; [exact Hn2|apply erase_set]]|done].
  split; cbn [slots head tail]; auto.
  - by apply chain_insert.
  - apply indexed_insert_out; [by rewrite Pm|done].
Qed.

Lemma remove_lane_ok w t A p B : lane_ok w (nodes t) (lane_of w t) (A ++ p :: B) ->
  exists l' ns', remove_lane w p t = Ok (relaid w t l' ns') /\ lane_ok w ns' l' (A ++ B) /\ same_rest w (nodes t) ns' /\
    swapped p (slots (lane_of w t)) (slots l').
Proof.
  intros H. destruct (remove_slot_ok w t A p B H) as (sl & ns1 & E1 & Sw & Pm & I1 & C1 & S1).
  unfold remove_lane. rewrite E1, bind_Ok.
  destruct (unlink_ok w (relaid w t (mkLane sl (head (lane_of w t)) (tail (lane_of w t))) ns1) sl A p B)
    as (l' & ns' & E & Hok & S2 & Sl).
  - apply H.
  - by rewrite relaid_nodes.
  - rewrite relaid_lane. by rewrite (lane_head _ _ _ _ H), (lane_tail _ _ _ _ H).
  - done.
  - by rewrite relaid_nodes.
  - exists l', ns'. rewrite E, relaid_relaid. split_and!; [done|done| |by rewrite Sl].
    rewrite relaid_nodes in S2. by eapply same_rest_trans.
Qed.

(** ** The invariant of the table *)

Abbreviation store_of := (gmap nat pendingRequest).

(** The nodes of [X] hold the same fields in two stores, up to the links. *)
Definition agree (X : list nat) (ns ns' : store_of) : Prop :=
  forall q, q ∈ X -> body <$> ns' !! q = body <$> ns !! q.

Definition total (f : entry -> Z) (ns : store_of) (L : list nat) : Z :=
  foldr (fun p a => from_option (fun n => f (body n)) 0 (ns !! p) + a) 0 L.

Definition keyed {K} `{Countable K} (key : entry -> K) (m : gmap K nat) (ns : store_of) (L : list nat) : Prop :=
  forall k p, m !! k = Some p <-> p ∈ L /\ exists n, ns !! p = Some n /\ key (body n) = k.

Definition request_id (e : entry) : nat := command_id (request e).
Definition app_bytes (e : entry) : Z := if control (request e) then 0 else p_bytes e.
Definition ctl_bytes (e : entry) : Z := if control (request e) then p_bytes e else 0.
Definition ctl_count (e : entry) : Z := if control (request e) then 1 else 0.
Definition flying (e : entry) : Z := if sent e && negb (control (request e)) then 1 else 0.

Definition ids (ns : store_of) (L : list nat) : list nat := omap (fun p => request_id ∘ body <$> ns !! p) L.

Definition result_of (o : output) : option nat := match o with OResult r _ => Some r | _ => None end.
Definition results (o : list output) : list nat := omap result_of o.

Definition rm (p : nat) (L : list nat) : list nat := filter (fun q => q <> p) L.

(** [table_ok A t L R]: [L] are the admitted requests in order, [R] the ones
    that may be sent again, and every request of [A] has had one result or is in
    [L]. *)
Record table_ok (A : list nat) (t : table) (L R : list nat) : Prop := {
  ok_pending : lane_ok Pending (nodes t) (pending t) L;
  ok_replay : lane_ok Replay (nodes t) (replay t) R;
  ok_flag : forall p n, nodes t !! p = Some n -> inReplay n = true <-> p ∈ R;
  ok_sub : R ⊆ L;
  ok_request : keyed request_id (byRequest t) (nodes t) L;
  ok_tid : keyed transaction (byTID t) (nodes t) L;
  ok_retained : retainedBytes t = total app_bytes (nodes t) L;
  ok_controlBytes : controlBytes t = total ctl_bytes (nodes t) L;
  ok_controlCount : controlCount t = total ctl_count (nodes t) L;
  ok_inFlight : inFlight t = total flying (nodes t) L;
  ok_bytes : forall p (n : pendingRequest), nodes t !! p = Some n -> 0 <= p_bytes n;
  ok_widths : inU 64 (retainedBytes t) /\ inU 64 (controlBytes t);
  ok_account : A ≡ₚ results (trace t) ++ ids (nodes t) L }.

(** *** Removing one element *)

Lemma rm_app A p B : p ∉ A -> p ∉ B -> rm p (A ++ p :: B) = A ++ B.
Proof.
  intros HA HB. unfold rm. rewrite filter_app, filter_cons_False by (intros []; done).
  rewrite !list_filter_all; [done| |]; apply Forall_forall; intros x Hx ->; done.
Qed.

Lemma rm_out p L : p ∉ L -> rm p L = L.
Proof. intros H. apply list_filter_all. apply Forall_forall. by intros x Hx ->. Qed.

Lemma elem_of_rm q p L : q ∈ rm p L <-> q <> p /\ q ∈ L.
Proof. unfold rm. by rewrite list_elem_of_filter. Qed.

Lemma rm_nodup p L : NoDup L -> NoDup (rm p L).
Proof. apply NoDup_filter. Qed.

Lemma rm_sub p L R : R ⊆ L -> rm p R ⊆ rm p L.
Proof. intros H q. rewrite !elem_of_rm. naive_solver. Qed.

(** Where an element of a list without duplicates stands. *)
Lemma member_split p (L : list nat) : NoDup L -> p ∈ L -> exists A B, L = A ++ p :: B /\ rm p L = A ++ B /\ p ∉ A /\ p ∉ B.
Proof.
  intros Nd Hp. apply list_elem_of_split in Hp as (A & B & ->). exists A, B.
  assert (p ∉ A ++ B) as H by (rewrite <- Permutation_middle in Nd; apply NoDup_cons in Nd; tauto).
  apply not_elem_of_app in H as [HA HB]. split_and!; auto. by apply rm_app.
Qed.

Lemma agree_refl X ns : agree X ns ns.
Proof. done. Qed.

Lemma agree_trans X a b c : agree X a b -> agree X b c -> agree X a c.
Proof. intros H1 H2 q Hq. by rewrite (H2 q Hq), (H1 q Hq). Qed.

Lemma agree_sub X Y ns ns' : X ⊆ Y -> agree Y ns ns' -> agree X ns ns'.
Proof. intros H HY q Hq. by apply HY, H. Qed.

Lemma agree_lookup X ns ns' q n : agree X ns ns' -> q ∈ X -> ns !! q = Some n ->
  exists n', ns' !! q = Some n' /\ body n' = body n.
Proof.
  intros H Hq Hn. specialize (H q Hq). rewrite Hn in H. destruct (ns' !! q) as [n'|]; [|done]. cbn in H. naive_solver.
Qed.

Lemma agree_sym X ns ns' : agree X ns ns' -> agree X ns' ns.
Proof. intros H q Hq. by rewrite (H q Hq). Qed.

Lemma body_erase w n : body (erase w n) = body n.
Proof. by destruct w. Qed.

Lemma same_rest_agree w ns ns' X : same_rest w ns ns' -> agree X ns ns'.
Proof.
  intros H q _. pose proof (f_equal (.!! q) H) as E. cbn in E. rewrite !lookup_fmap in E.
  destruct (ns !! q), (ns' !! q); cbn in *; try done. injection E as E. f_equal.
  by rewrite <- (body_erase w), E, body_erase.
Qed.

Definition weight (f : entry -> Z) (ns : store_of) (p : nat) : Z := from_option (fun n => f (body n)) 0 (ns !! p).

Lemma weight_cons f ns p L : total f ns (p :: L) = weight f ns p + total f ns L.
Proof. done. Qed.

Lemma total_agree f ns ns' L : agree L ns ns' -> total f ns' L = total f ns L.
Proof.
  induction L as [|p L IH]; intros H; [done|]. rewrite !weight_cons, IH by (intros q Hq; apply H; by right).
  f_equal. specialize (H p ltac:(left)). unfold weight.
  destruct (ns !! p), (ns' !! p); cbn in *; simplify_eq; congruence.
Qed.

Lemma weight_app f ns A B : total f ns (A ++ B) = total f ns A + total f ns B.
Proof. induction A as [|p A IH]; [done|]. cbn [app]. rewrite !weight_cons, IH. lia. Qed.

Lemma total_rm f ns L p (n : pendingRequest) : NoDup L -> p ∈ L -> ns !! p = Some n -> total f ns L = f n + total f ns (rm p L).
Proof.
  intros Nd Hp Hn. destruct (member_split p L Nd Hp) as (A & B & -> & -> & _ & _).
  rewrite !weight_app, weight_cons. unfold weight. rewrite Hn. cbn. lia.
Qed.

Lemma weight_nonneg (f : entry -> Z) ns L : (forall p (n : pendingRequest), ns !! p = Some n -> 0 <= f n) -> 0 <= total f ns L.
Proof.
  intros H. induction L as [|p L IH]; [done|]. rewrite weight_cons. unfold weight.
  destruct (ns !! p) eqn:E; cbn; [specialize (H _ _ E)|]; lia.
Qed.

Lemma ids_agree ns ns' L : agree L ns ns' -> ids ns' L = ids ns L.
Proof.
  induction L as [|p L IH]; intros H; [done|]. cbn [ids omap list_omap].
  unfold ids in IH. rewrite IH by (intros q Hq; apply H; by right).
  specialize (H p ltac:(left)). destruct (ns !! p), (ns' !! p); cbn in *; simplify_eq; congruence.
Qed.

Lemma ids_app ns A B : ids ns (A ++ B) = ids ns A ++ ids ns B.
Proof. apply omap_app. Qed.

Lemma ids_rm ns L p (n : pendingRequest) : NoDup L -> p ∈ L -> ns !! p = Some n -> ids ns L ≡ₚ request_id n :: ids ns (rm p L).
Proof.
  intros Nd Hp Hn. destruct (member_split p L Nd Hp) as (A & B & -> & -> & _ & _).
  rewrite !ids_app. cbn [ids omap list_omap]. rewrite Hn. cbn. apply Permutation_sym, Permutation_middle.
Qed.

Lemma results_app a b : results (a ++ b) = results a ++ results b.
Proof. apply omap_app. Qed.

Section Keyed.
Context {K : Type} `{Countable K} (key : entry -> K).

Lemma keyed_agree m ns ns' L : agree L ns ns' -> keyed key m ns L -> keyed key m ns' L.
Proof.
  intros Ha Hk k p. rewrite (Hk k p). split; intros [Hp (n & Hn & E)]; (split; [done|]).
  - destruct (agree_lookup _ _ _ _ _ Ha Hp Hn) as (n' & ? & ?). exists n'. split; [done|congruence].
  - destruct (agree_lookup _ _ _ _ _ (agree_sym _ _ _ Ha) Hp Hn) as (n' & ? & ?). exists n'. split; [done|congruence].
Qed.

Lemma keyed_delete m ns L p (n : pendingRequest) : keyed key m ns L -> p ∈ L -> ns !! p = Some n ->
  keyed key (delete (key n) m) ns (rm p L).
Proof.
  intros Hk Hp Hn k q. rewrite lookup_delete_Some, (Hk k q), elem_of_rm. split.
  - intros [Hne [Hq (n' & Hn' & E)]]. split; [|eauto]. split; [|done]. intros ->. simplify_eq.
  - intros [[Hne Hq] (n' & Hn' & E)]. split; [|eauto]. intros Ek.
    assert (m !! k = Some p) as E1 by (apply Hk; eauto).
    assert (m !! k = Some q) as E2 by (apply Hk; eauto). congruence.
Qed.

Lemma keyed_insert m ns L p (n : pendingRequest) : keyed key m ns L -> p ∉ L -> ns !! p = Some n -> m !! key n = None ->
  keyed key (<[key n := p]> m) ns (L ++ [p]).
Proof.
  intros Hk Hp Hn Hm k q. rewrite lookup_insert_Some, (Hk k q), elem_of_app, list_elem_of_singleton. split.
  - intros [[<- <-]|[Hne [Hq He]]]; eauto.
  - intros [[Hq|Hq] (n' & Hn' & E)].
    + right. split; [|eauto]. intros Ek. assert (m !! k = Some q) by (apply Hk; eauto). congruence.
    + simplify_eq. auto.
Qed.
End Keyed.

(** *** The list of requests that may be sent again *)

Lemma lane_frame w ns ns' l L : lane_ok w ns l L ->
  (forall q, q ∈ L -> links_of w <$> ns' !! q = links_of w <$> ns !! q) -> lane_ok w ns' l L.
Proof.
  intros [Nd Pm Hh Ht Hc Hi] H. split; auto.
  - eapply chain_frame; [|exact Hc]. intros q Hq n Hn. specialize (H q Hq). rewrite Hn in H.
    destruct (ns' !! q) as [n'|]; [|done]. cbn in H. injection H as H. exists n'. by rewrite H.
  - intros i q Hq. destruct (Hi i q Hq) as (n & Hn & Hx).
    assert (q ∈ L) as HqL by (rewrite <- Pm; by eapply list_elem_of_lookup_2).
    specialize (H q HqL). rewrite Hn in H. destruct (ns' !! q) as [n'|]; [|done]. cbn in H. injection H as H.
    exists n'. by rewrite H.
Qed.

Definition flags_ok (ns : store_of) (R : list nat) : Prop :=
  forall p n, ns !! p = Some n -> inReplay n = true <-> p ∈ R.

(** Everything but the replay links and flags is the same. *)
Definition same_pending (ns ns' : store_of) : Prop :=
  forall q, (fun n => (pendingLinks n, body n)) <$> ns' !! q = (fun n => (pendingLinks n, body n)) <$> ns !! q.

Lemma same_rest_other ns ns' q : same_rest Pending ns ns' ->
  (fun n => (replayLinks n, inReplay n, body n)) <$> ns' !! q = (fun n => (replayLinks n, inReplay n, body n)) <$> ns !! q.
Proof.
  intros H. pose proof (f_equal (.!! q) H) as E. cbn in E. rewrite !lookup_fmap in E.
  destruct (ns !! q) as [[]|], (ns' !! q) as [[]|]; cbn in *; try done. unfold erase in E. cbn in E. by injection E as -> -> ->.
Qed.

Lemma same_rest_pending ns ns' : same_rest Replay ns ns' -> same_pending ns ns' /\
  forall q n, ns' !! q = Some n -> exists m, ns !! q = Some m /\ inReplay m = inReplay n.
Proof.
  intros H. assert (forall q, erase Replay <$> ns' !! q = erase Replay <$> ns !! q) as E.
  { intros q. pose proof (f_equal (.!! q) H) as E. cbn in E. by rewrite !lookup_fmap in E. }
  split; [intros q|intros q n Hn]; specialize (E q).
  - destruct (ns !! q) as [[]|], (ns' !! q) as [[]|]; cbn in *; try done. unfold erase in E. cbn in E. by injection E as -> -> ->.
  - rewrite Hn in E. destruct n, (ns !! q) as [[]|]; cbn in *; try done. unfold erase in E. cbn in E. injection E as -> -> ->.
    eexists. split; [done|done].
Qed.

Lemma same_pending_trans a b c : same_pending a b -> same_pending b c -> same_pending a c.
Proof. intros H1 H2 q. by rewrite (H2 q), (H1 q). Qed.

Lemma same_pending_agree ns ns' X : same_pending ns ns' -> agree X ns ns'.
Proof.
  intros H q _. specialize (H q). destruct (ns !! q), (ns' !! q); cbn in *; simplify_eq; congruence.
Qed.

Lemma same_pending_lane ns ns' l L : same_pending ns ns' -> lane_ok Pending ns l L -> lane_ok Pending ns' l L.
Proof.
  intros H Hl. eapply lane_frame; [exact Hl|]. intros q _. specialize (H q). cbn.
  destruct (ns !! q), (ns' !! q); cbn in *; simplify_eq; congruence.
Qed.

Lemma same_pending_lookup ns ns' p n : same_pending ns ns' -> ns !! p = Some n ->
  exists n', ns' !! p = Some n' /\ body n' = body n.
Proof. intros H. specialize (H p). intros E. rewrite E in H. destruct (ns' !! p); cbn in H; naive_solver. Qed.

Lemma same_pending_insert ns p n f : ns !! p = Some n ->
  pendingLinks (f n) = pendingLinks n -> body (f n) = body n -> same_pending ns (<[p := f n]> ns).
Proof.
  intros Hn H1 H2 q. destruct (decide (q = p)) as [->|Hne].
  - rewrite lookup_insert_eq, Hn. cbn. congruence.
  - by rewrite lookup_insert_ne.
Qed.

Lemma flags_cleared ns ns' R p n : same_rest Replay ns ns' -> flags_ok ns R -> ns' !! p = Some n ->
  flags_ok (<[p := n <| inReplay := false |>]> ns') (rm p R).
Proof.
  intros HS HF Hn q m. rewrite elem_of_rm. destruct (decide (q = p)) as [->|Hne].
  - rewrite lookup_insert_eq. intros [= <-]. cbn. naive_solver.
  - rewrite lookup_insert_ne by done. intros Hm.
    destruct (same_rest_pending _ _ HS) as [_ Hx]. destruct (Hx q m Hm) as (m0 & Hm0 & <-).
    rewrite (HF q m0 Hm0). naive_solver.
Qed.

Lemma removeReplay_ok t R p n : lane_ok Replay (nodes t) (replay t) R -> flags_ok (nodes t) R -> nodes t !! p = Some n ->
  exists l' ns', removeReplay p t = Ok (relaid Replay t l' ns') /\ lane_ok Replay ns' l' (rm p R) /\
    flags_ok ns' (rm p R) /\ same_pending (nodes t) ns'.
Proof.
  intros HL HF Hn. unfold removeReplay. rewrite (deref_ok _ _ _ Hn), bind_Ok.
  destruct (inReplay n) eqn:E; cbn [negb].
  - apply (HF p n Hn) in E. destruct (member_split p R (lane_nodup _ _ _ _ HL) E) as (A & B & -> & Hrm & HA & HB).
    destruct (remove_lane_ok Replay t A p B HL) as (l' & ns1 & Eq & HL1 & S1 & _).
    rewrite Eq, bind_Ok. destruct (same_rest_lookup _ _ _ _ _ S1 Hn) as (n1 & Hn1 & _).
    rewrite (update_relaid _ _ _ _ _ _ _ Hn1). eexists _, _. split; [done|]. rewrite Hrm. split_and!.
    + eapply lane_frame; [exact HL1|]. intros q Hq. rewrite lookup_insert_ne; [done|].
      intros ->. apply elem_of_app in Hq as [?|?]; done.
    + rewrite <- Hrm. by apply (flags_cleared (nodes t)).
    + eapply same_pending_trans; [by apply same_rest_pending|]. by eapply same_pending_insert.
  - assert (p ∉ R) as Hp by (rewrite <- (HF p n Hn), E; done).
    exists (replay t), (nodes t). rewrite (rm_out p R Hp). split_and!; [|done..]. f_equal. symmetry. apply (relaid_id Replay t).
Qed.

(** Changing only which requests may be sent again. *)
Lemma replay_changed_ok A t L R R' l' ns' : table_ok A t L R -> lane_ok Replay ns' l' R' -> flags_ok ns' R' -> R' ⊆ L ->
  same_pending (nodes t) ns' -> table_ok A (relaid Replay t l' ns') L R'.
Proof.
  intros H HL HF HS SP. pose proof (same_pending_agree _ _ L SP) as Ag. destruct H. split; cbn; auto.
  - by eapply same_pending_lane.
  - by eapply keyed_agree.
  - by eapply keyed_agree.
  - by rewrite (total_agree _ _ _ _ Ag).
  - by rewrite (total_agree _ _ _ _ Ag).
  - by rewrite (total_agree _ _ _ _ Ag).
  - by rewrite (total_agree _ _ _ _ Ag).
  - intros q m Hm. specialize (SP q). rewrite Hm in SP. destruct (nodes t !! q) as [m0|] eqn:E0; [|done].
    cbn in SP. injection SP as _ ->. eauto.
  - by rewrite (ids_agree _ _ _ Ag).
Qed.

Lemma addReplay_ok A t L R p n : table_ok A t L R -> p ∈ L -> nodes t !! p = Some n ->
  exists t', addReplay p t = Ok t' /\ table_ok A t' L (if inReplay n then R else R ++ [p]) /\
    agree L (nodes t) (nodes t') /\ trace t' = trace t.
Proof.
  intros H Hp Hn. unfold addReplay. rewrite (deref_ok _ _ _ Hn), bind_Ok.
  destruct (inReplay n) eqn:E; [exists t; split_and!; [done..|apply agree_refl|done]|].
  assert (p ∉ R) as HpR by (rewrite <- (ok_flag _ _ _ _ H p n Hn), E; done).
  rewrite (update_ok _ _ _ _ Hn), bind_Ok. set (n1 := n <| inReplay := true |>).
  set (ns1 := <[p := n1]> (nodes t)). set (t1 := t <| nodes := ns1 |>).
  assert (same_pending (nodes t) ns1) as SP by (by apply (same_pending_insert (nodes t) p n (fun n => n <| inReplay := true |>))).
  assert (lane_ok Replay ns1 (replay t) R) as HR.
  { eapply lane_frame; [apply H|]. intros q Hq. unfold ns1. rewrite lookup_insert_ne; [done|]. by intros ->. }
  destruct (append_lane_ok Replay t1 R p n1) as (l' & ns' & Eq & HL' & S'); [exact HR|apply lookup_insert_eq|done|].
  rewrite Eq. change (nodes t1) with ns1 in S'.
  destruct (same_rest_pending _ _ S') as [SP' SF].
  assert (same_pending (nodes t) ns') as SPa by by eapply same_pending_trans.
  eexists. split; [done|]. split; [|split; [exact (same_pending_agree _ _ L SPa)|done]].
  change (relaid Replay t1 l' ns') with (relaid Replay t l' ns'). eapply replay_changed_ok; eauto.
  - intros q m Hm. destruct (SF q m Hm) as (m0 & Hm0 & <-). unfold ns1 in Hm0.
    rewrite elem_of_app, list_elem_of_singleton. destruct (decide (q = p)) as [->|Hne].
    + rewrite lookup_insert_eq in Hm0. injection Hm0 as <-. cbn. tauto.
    + rewrite lookup_insert_ne in Hm0 by done. rewrite (ok_flag _ _ _ _ H q m0 Hm0). tauto.
  - intros q [Hq|Hq]%elem_of_app; [by apply (ok_sub _ _ _ _ H)|]. apply list_elem_of_singleton in Hq as ->. done.
Qed.

Lemma removeReplay_table A t L R p n : table_ok A t L R -> nodes t !! p = Some n ->
  exists t', removeReplay p t = Ok t' /\ table_ok A t' L (rm p R) /\ (forall X, agree X (nodes t) (nodes t')) /\
    trace t' = trace t.
Proof.
  intros H Hn. destruct (removeReplay_ok t R p n) as (l' & ns' & E & HL & HF & SP);
    [apply H|exact (ok_flag _ _ _ _ H)|done|].
  exists (relaid Replay t l' ns'). split_and!; [done| |intros X; by apply same_pending_agree|done].
  eapply replay_changed_ok; eauto. intros q Hq. apply (ok_sub _ _ _ _ H). apply elem_of_rm in Hq. tauto.
Qed.

(** *** Removing a request *)

Definition released (e : entry) : list output :=
  match payloadLease (message e) with Some lease => [ORelease lease] | None => [] end.

Lemma results_released e : results (released e) = [].
Proof. unfold released. by destruct (payloadLease (message e)). Qed.

(** The two lists after the request has been taken out of both. *)
Lemma remove_both_ok A t t0 L R p n : table_ok A t L R -> p ∈ L -> nodes t !! p = Some n ->
  nodes t0 = nodes t -> pending t0 = pending t -> replay t0 = replay t ->
  exists l1 l2 ns', (t1 ← remove_lane Pending p t0; removeReplay p t1) =
      Ok (t0 <| nodes := ns' |> <| pending := l1 |> <| replay := l2 |>) /\
    lane_ok Pending ns' l1 (rm p L) /\ lane_ok Replay ns' l2 (rm p R) /\ flags_ok ns' (rm p R) /\
    swapped p (slots (pending t)) (slots l1) /\ forall X, agree X (nodes t) ns'.
Proof.
  intros H Hp Hn E1 E2 E3. pose proof (ok_pending _ _ _ _ H) as HP. pose proof (ok_replay _ _ _ _ H) as HR.
  destruct (member_split p L (lane_nodup _ _ _ _ HP) Hp) as (A0 & B0 & HL & Hrm & _ & _).
  destruct (remove_lane_ok Pending t0 A0 p B0) as (l1 & ns1 & Eq1 & HL1 & S1 & Sw).
  { cbn. by rewrite E1, E2, <- HL. }
  rewrite Eq1, bind_Ok. rewrite E1 in S1.
  assert (lane_ok Replay ns1 (replay t) R) as HR1.
  { eapply lane_frame; [exact HR|]. intros q _. pose proof (same_rest_other _ _ q S1) as E. cbn.
    destruct (nodes t !! q), (ns1 !! q); cbn in *; simplify_eq; congruence. }
  assert (flags_ok ns1 R) as HF1.
  { intros q m Hm. pose proof (same_rest_other _ _ q S1) as E. rewrite Hm in E.
    destruct (nodes t !! q) as [m0|] eqn:E0; [|done]. cbn in E. injection E as _ -> _. by apply (ok_flag _ _ _ _ H). }
  destruct (same_rest_lookup _ _ _ _ _ S1 Hn) as (n1 & Hn1 & _).
  destruct (removeReplay_ok (relaid Pending t0 l1 ns1) R p n1) as (l2 & ns2 & Eq2 & HL2 & HF2 & SP2).
  - cbn. by rewrite E3.
  - by rewrite relaid_nodes.
  - by rewrite relaid_nodes.
  - exists l1, l2, ns2. rewrite relaid_nodes in SP2. split_and!.
    + rewrite Eq2. by destruct t0.
    + rewrite Hrm. by eapply same_pending_lane.
    + done.
    + done.
    + by rewrite <- E2.
    + intros X. eapply agree_trans; [by eapply same_rest_agree|by apply same_pending_agree].
Qed.

(** What [removePending] leaves: the entries of [rm p L] as they were. *)
Record removed (p : nat) (t : table) (L : list nat) (n : pendingRequest) (t' : table) : Prop := {
  removed_agree : agree (rm p L) (nodes t) (nodes t');
  removed_node : exists n' : pendingRequest, nodes t' !! p = Some n' /\ request n' = request n;
  removed_slots : swapped p (slots (pending t)) (slots (pending t'));
  removed_trace : trace t' = trace t ++ released n }.

Lemma shares_nonneg A t L R p (n : pendingRequest) X : table_ok A t L R -> nodes t !! p = Some n ->
  0 <= total app_bytes (nodes t) X /\ 0 <= app_bytes n /\ 0 <= total ctl_bytes (nodes t) X /\ 0 <= ctl_bytes n.
Proof.
  intros H Hn. pose proof (ok_bytes _ _ _ _ H) as Hb. unfold app_bytes, ctl_bytes.
  split_and!; [apply weight_nonneg; intros q m Hm|pose proof (Hb p n Hn)|apply weight_nonneg; intros q m Hm|
               pose proof (Hb p n Hn)]; try pose proof (Hb q m Hm); destruct (control _); lia.
Qed.

Lemma total_widths A t L R : table_ok A t L R -> forall p (n : pendingRequest), p ∈ L -> nodes t !! p = Some n ->
  u64 (retainedBytes t - app_bytes n) = retainedBytes t - app_bytes n /\
  u64 (controlBytes t - ctl_bytes n) = controlBytes t - ctl_bytes n.
Proof.
  intros H p n Hp Hn. pose proof (lane_nodup _ _ _ _ (ok_pending _ _ _ _ H)) as Nd.
  destruct (ok_widths _ _ _ _ H) as [[_ W1] [_ W2]].
  destruct (shares_nonneg A t L R p n (rm p L) H Hn) as (F1 & F1' & F2 & F2').
  rewrite (ok_retained _ _ _ _ H), (total_rm _ _ _ _ _ Nd Hp Hn) in *.
  rewrite (ok_controlBytes _ _ _ _ H), (total_rm ctl_bytes _ _ _ _ Nd Hp Hn) in *.
  split; apply wrapU_id; unfold inU; lia.
Qed.

Lemma emitted_ok A t L R o : result_of o = None -> table_ok A t L R -> table_ok A (emitted o t) L R.
Proof.
  intros Ho []. split; cbn; auto. rewrite results_app. cbn. rewrite Ho. cbn. by rewrite app_nil_r.
Qed.

(** A node that has left the lists may change. *)
Lemma outside_ok A t L R p n n' : table_ok A t L R -> p ∉ L -> nodes t !! p = Some n ->
  inReplay n' = inReplay n -> p_bytes n' = p_bytes n -> table_ok A (t <| nodes := <[p := n']> (nodes t) |>) L R.
Proof.
  intros H Hp Hn Hf Hb.
  assert (forall q, q ∈ L -> <[p := n']> (nodes t) !! q = nodes t !! q) as Hsame.
  { intros q Hq. apply lookup_insert_ne. by intros ->. }
  assert (agree L (nodes t) (<[p := n']> (nodes t))) as Ag by (intros q Hq; by rewrite Hsame).
  destruct H. split; cbn.
  - eapply lane_frame; [done|]. intros q Hq. by rewrite Hsame.
  - eapply lane_frame; [done|]. intros q Hq. rewrite Hsame; [done|]. auto.
  - intros q m. destruct (decide (q = p)) as [->|Hne].
    + rewrite lookup_insert_eq. intros [= <-]. rewrite Hf. eauto.
    + rewrite lookup_insert_ne by done. eauto.
  - done.
  - by eapply keyed_agree.
  - by eapply keyed_agree.
  - by rewrite (total_agree _ _ _ _ Ag).
  - by rewrite (total_agree _ _ _ _ Ag).
  - by rewrite (total_agree _ _ _ _ Ag).
  - by rewrite (total_agree _ _ _ _ Ag).
  - intros q m. destruct (decide (q = p)) as [->|Hne].
    + rewrite lookup_insert_eq. intros [= <-]. rewrite Hb. eauto.
    + rewrite lookup_insert_ne by done. eauto.
  - done.
  - by rewrite (ids_agree _ _ _ Ag).
Qed.

(** The table without [p], from the lists without [p] and the totals less its share. *)
Lemma without_ok A A' t L R p (n : pendingRequest) t' : table_ok A t L R -> p ∈ L -> nodes t !! p = Some n ->
  A ≡ₚ request_id n :: A' ->
  lane_ok Pending (nodes t') (pending t') (rm p L) -> lane_ok Replay (nodes t') (replay t') (rm p R) ->
  flags_ok (nodes t') (rm p R) -> (forall X, agree X (nodes t) (nodes t')) ->
  byRequest t' = delete (request_id n) (byRequest t) -> byTID t' = delete (transaction n) (byTID t) ->
  retainedBytes t' = retainedBytes t - app_bytes n -> controlBytes t' = controlBytes t - ctl_bytes n ->
  controlCount t' = controlCount t - ctl_count n -> inFlight t' = inFlight t - flying n ->
  trace t' = trace t -> table_ok A' t' (rm p L) (rm p R).
Proof.
  intros H Hp Hn HA HL HR HF Ag E1 E2 E3 E4 E5 E6 E7.
  pose proof (lane_nodup _ _ _ _ (ok_pending _ _ _ _ H)) as Nd.
  assert (forall q (m : pendingRequest), nodes t' !! q = Some m -> 0 <= p_bytes m) as Hb.
  { intros q m Hm. destruct (agree_lookup [q] _ _ _ _ (agree_sym _ _ _ (Ag [q])) ltac:(left) Hm) as (m0 & Hm0 & <-).
    by eapply ok_bytes. }
  destruct (shares_nonneg A t L R p n (rm p L) H Hn) as (F1 & F1' & F2 & F2').
  destruct H. split.
  - done.
  - done.
  - done.
  - by apply rm_sub.
  - rewrite E1. eapply keyed_agree; [apply Ag|]. by apply keyed_delete.
  - rewrite E2. eapply keyed_agree; [apply Ag|]. by apply keyed_delete.
  - rewrite E3, ok_retained0, (total_rm _ _ _ _ _ Nd Hp Hn), (total_agree _ _ _ _ (Ag _)). lia.
  - rewrite E4, ok_controlBytes0, (total_rm _ _ _ _ _ Nd Hp Hn), (total_agree _ _ _ _ (Ag _)). lia.
  - rewrite E5, ok_controlCount0, (total_rm _ _ _ _ _ Nd Hp Hn), (total_agree _ _ _ _ (Ag _)). lia.
  - rewrite E6, ok_inFlight0, (total_rm _ _ _ _ _ Nd Hp Hn), (total_agree _ _ _ _ (Ag _)). lia.
  - done.
  - rewrite E3, E4. rewrite ok_retained0, ok_controlBytes0 in *.
    rewrite (total_rm app_bytes _ _ _ _ Nd Hp Hn), (total_rm ctl_bytes _ _ _ _ Nd Hp Hn) in *.
    unfold inU in *. lia.
  - rewrite E7, (ids_agree _ _ _ (Ag _)). apply (Permutation_cons_inv (a := request_id n)).
    rewrite <- HA, ok_account0, (ids_rm _ _ _ _ Nd Hp Hn). solve_Permutation.
Qed.

Lemma removePending_ok A A' t L R p (n : pendingRequest) : table_ok A t L R -> p ∈ L -> nodes t !! p = Some n ->
  A ≡ₚ request_id n :: A' ->
  exists t', removePending p t = Ok t' /\ table_ok A' t' (rm p L) (rm p R) /\ removed p t L n t'.
Proof.
  intros H Hp Hn HA. unfold removePending. rewrite (deref_ok _ _ _ Hn), bind_Ok.
  set (t0 := if sent n && negb (control (request n)) then t <| inFlight ::= fun k => k - 1 |> else t).
  destruct (remove_both_ok A t t0 L R p n H Hp Hn) as (l1 & l2 & ns & Eq & HL & HR & HF & Sw & Ag);
    [unfold t0; by destruct (_ && _)..|].
  destruct (remove_lane Pending p t0) as [t1| |]; [|done..]. rewrite bind_Ok in *. cbn zeta. rewrite Eq, bind_Ok.
  destruct (agree_lookup [p] _ _ _ _ (Ag [p]) ltac:(left) Hn) as (m & Hm & Em).
  unfold forget. erewrite deref_ok by exact Hm. rewrite bind_Ok, Em. cbn zeta.
  destruct (total_widths A t L R H p n Hp Hn) as [W1 W2].
  set (t2 := if control (request n) then _ else _).
  assert (table_ok A' t2 (rm p L) (rm p R)) as H2.
  { unfold app_bytes, ctl_bytes in W1, W2.
    eapply (without_ok A A' t L R p n); eauto; unfold t2, t0, app_bytes, ctl_bytes, ctl_count, flying;
      destruct (control (request n)) eqn:C; destruct (sent n) eqn:S; cbn; try done; try lia;
      unfold app_bytes, ctl_bytes in *; rewrite ?C, ?Z.sub_0_r in *; auto. }
  assert (nodes t2 = ns /\ trace t2 = trace t /\ pending t2 = l1) as (E1 & E2 & E3) by (unfold t2, t0; by repeat case_match).
  assert (p ∉ rm p L) as Hout by (rewrite elem_of_rm; tauto).
  destruct (payloadLease (message n)) as [lease|] eqn:HP.
  - rewrite (update_ok p _ t2 m) by by rewrite E1. rewrite bind_Ok. eexists. split; [done|]. split.
    + apply emitted_ok; [done|]. apply (outside_ok _ _ _ _ _ m); [done|done|by rewrite E1|done|done].
    + split; cbn.
      * intros q Hq. rewrite lookup_insert_ne by (intros ->; done). rewrite E1. by apply (Ag (rm p L)).
      * eexists. rewrite lookup_insert_eq. split; [done|]. cbn. congruence.
      * by rewrite E3.
      * unfold released. by rewrite HP, E2.
  - eexists. split; [done|]. split; [done|]. split; rewrite ?E1.
    + apply Ag.
    + exists m. split; [done|]. congruence.
    + by rewrite E3.
    + unfold released. by rewrite HP, app_nil_r.
Qed.

Lemma table_split A t L R p (n : pendingRequest) : table_ok A t L R -> p ∈ L -> nodes t !! p = Some n ->
  exists A', A ≡ₚ request_id n :: A'.
Proof.
  intros H Hp Hn. exists (results (trace t) ++ ids (nodes t) (rm p L)).
  rewrite (ok_account _ _ _ _ H), (ids_rm _ _ _ _ (lane_nodup _ _ _ _ (ok_pending _ _ _ _ H)) Hp Hn). solve_Permutation.
Qed.

Lemma ok_lookup A t L R p : table_ok A t L R -> p ∈ L -> exists n, nodes t !! p = Some n.
Proof.
  intros H Hp. apply list_elem_of_split in Hp as (X & Y & E).
  pose proof (lane_chain _ _ _ _ (ok_pending _ _ _ _ H)) as C. rewrite E in C.
  destruct (chain_lookup _ _ _ _ _ _ _ C) as (n & ? & _). eauto.
Qed.

Lemma table_ok_perm A A' t L R : A ≡ₚ A' -> table_ok A t L R -> table_ok A' t L R.
Proof. intros HA []. split; auto. by rewrite <- HA. Qed.

(** A result for a request that is not in the table. *)
Lemma answered_ok A t L R r result : table_ok A t L R -> table_ok (r :: A) (emitted (OResult r result) t) L R.
Proof.
  intros []. split; cbn; auto. rewrite ok_account0, results_app. cbn. solve_Permutation.
Qed.

Lemma finish_entry_ok A t L R p (n : pendingRequest) result : table_ok A t L R -> p ∈ L -> nodes t !! p = Some n ->
  exists t', finish p result t = Ok t' /\ table_ok A t' (rm p L) (rm p R) /\ agree (rm p L) (nodes t) (nodes t') /\
    swapped p (slots (pending t)) (slots (pending t')) /\ trace t' = trace t ++ released n ++ [OResult (request_id n) result].
Proof.
  intros H Hp Hn. destruct (table_split A t L R p n H Hp Hn) as [A' HA].
  destruct (removePending_ok A A' t L R p n H Hp Hn HA) as (t1 & E & H1 & [Ag (n1 & Hn1 & Er) Sw Tr]).
  unfold finish, reply. rewrite E, bind_Ok, (deref_ok _ _ _ Hn1), bind_Ok. eexists. split; [done|]. split_and!.
  - eapply table_ok_perm; [symmetry; exact HA|]. rewrite Er. by apply answered_ok.
  - done.
  - done.
  - cbn. rewrite Tr, Er. by rewrite app_assoc.
Qed.

(** Changing the fields of an entry, the number in flight with them. *)
Lemma update_entry_ok A t L R p (n : pendingRequest) e k : table_ok A t L R -> p ∈ L -> nodes t !! p = Some n ->
  request e = request n -> transaction e = transaction n -> p_bytes e = p_bytes n ->
  k = inFlight t + flying e - flying n ->
  table_ok A (t <| nodes := <[p := n <| body := e |>]> (nodes t) |> <| inFlight := k |>) L R.
Proof.
  intros H Hp Hn Er Et Eb Ek. pose proof (lane_nodup _ _ _ _ (ok_pending _ _ _ _ H)) as Nd.
  assert (forall f : entry -> Z, total f (<[p := n <| body := e |>]> (nodes t)) L = total f (nodes t) L + f e - f n) as Ht.
  { intros f. rewrite (total_rm f (nodes t) L p n Nd Hp Hn).
    rewrite (total_rm f _ L p (n <| body := e |>) Nd Hp) by apply lookup_insert_eq.
    rewrite (total_agree f (nodes t)); [cbn; lia|]. intros q Hq. rewrite lookup_insert_ne; [done|].
    intros ->. apply elem_of_rm in Hq. tauto. }
  assert (forall {K} `{Countable K} (key : entry -> K) m, key e = key n -> keyed key m (nodes t) L ->
    keyed key m (<[p := n <| body := e |>]> (nodes t)) L) as Hk.
  { intros K ? ? key m Hkey Hm k' q. rewrite (Hm k' q). destruct (decide (q = p)) as [->|Hne].
    - rewrite lookup_insert_eq. split; intros [Hq (n' & Hn' & E)]; (split; [done|]); simplify_eq; eauto.
    - by rewrite lookup_insert_ne. }
  assert (forall w q, links_of w <$> <[p := n <| body := e |>]> (nodes t) !! q = links_of w <$> nodes t !! q) as Hl.
  { intros w q. destruct (decide (q = p)) as [->|Hne]; [|by rewrite lookup_insert_ne].
    rewrite lookup_insert_eq, Hn. by destruct w. }
  destruct H. split; cbn.
  - eapply lane_frame; [done|]. intros q _. apply (Hl Pending).
  - eapply lane_frame; [done|]. intros q _. apply (Hl Replay).
  - intros q m. destruct (decide (q = p)) as [->|Hne]; [|rewrite lookup_insert_ne by done; eauto].
    rewrite lookup_insert_eq. intros [= <-]. cbn. eauto.
  - done.
  - apply Hk; [|done]. unfold request_id. by rewrite Er.
  - by apply Hk.
  - rewrite Ht. unfold app_bytes at 2 3. rewrite Er, Eb. lia.
  - rewrite Ht. unfold ctl_bytes at 2 3. rewrite Er, Eb. lia.
  - rewrite Ht. unfold ctl_count at 2 3. rewrite Er. lia.
  - rewrite Ht, Ek, ok_inFlight0. lia.
  - intros q m. destruct (decide (q = p)) as [->|Hne]; [|rewrite lookup_insert_ne by done; eauto].
    rewrite lookup_insert_eq. intros [= <-]. cbn. rewrite Eb. eauto.
  - done.
  - rewrite ok_account0, (ids_rm (nodes t) L p n Nd Hp Hn).
    rewrite (ids_rm (<[p := n <| body := e |>]> (nodes t)) L p (n <| body := e |>) Nd Hp) by apply lookup_insert_eq.
    change (request_id (body (n <| body := e |>))) with (request_id e). unfold request_id. rewrite Er.
    rewrite (ids_agree (nodes t) (<[p := n <| body := e |>]> (nodes t)) (rm p L)); [done|].
    intros q Hq. rewrite lookup_insert_ne; [done|].
    intros ->. apply elem_of_rm in Hq. tauto.
Qed.

(** *** Failing every request *)

(** The error of a request: its outcome is unknown when it may have been executed. *)
Definition outcome (err : serror) (e : entry) : serror :=
  if mayHaveExecuted e && negb (Is err msgr_ErrOutcomeUnknown) then unknown err else err.

Definition failures (err : serror) (ns : store_of) (ps : list nat) : list output :=
  omap (fun p => (fun n : pendingRequest => OResult (request_id n) (failed (outcome err n))) <$> ns !! p) ps.

Lemma results_failures err ns ps : results (failures err ns ps) = ids ns ps.
Proof.
  induction ps as [|p ps IH]; [done|]. unfold failures, ids in *. cbn [omap list_omap].
  destruct (ns !! p) as [n|]; cbn; [|done]. unfold results in *. cbn. by rewrite IH.
Qed.

Lemma ids_perm ns L L' : L ≡ₚ L' -> ids ns L ≡ₚ ids ns L'.
Proof. intros H. unfold ids. by rewrite H. Qed.

(** While the loop runs: the nodes keep their fields, the ones done have left the lists. *)
Record failing (err : serror) (t : table) (l : list nat) (s : table) : Prop := {
  failing_done : exists done, slots (pending t) = done ++ l /\ trace s = trace t ++ failures err (nodes t) done /\
    forall p n, nodes s !! p = Some n -> inReplay n = true -> p ∉ done /\ exists m, nodes t !! p = Some m /\ inReplay m = true;
  failing_agree : forall X, agree X (nodes t) (nodes s) }.

Lemma fail_entry_step A t L R err x l s : table_ok A t L R -> failing err t (x :: l) s ->
  exists s', fail_entry err x s = Ok s' /\ failing err t l s'.
Proof.
  intros H [(done & Hd & Tr & Fl) Ag].
  assert (x ∈ L) as Hx.
  { rewrite <- (lane_perm _ _ _ _ (ok_pending _ _ _ _ H)), Hd. apply elem_of_app. right. by left. }
  destruct (ok_lookup _ _ _ _ _ H Hx) as [n Hn].
  destruct (agree_lookup [x] _ _ _ _ (Ag [x]) ltac:(left) Hn) as (m & Hm & Em).
  unfold fail_entry, reply. rewrite (deref_ok _ _ _ Hm), !bind_Ok. cbn zeta.
  erewrite update_ok by exact Hm. eexists. split; [done|]. split; cbn.
  - exists (done ++ [x]). split_and!.
    + by rewrite Hd, <- app_assoc.
    + rewrite Tr. unfold failures. rewrite omap_app. cbn. rewrite Hn. cbn. by rewrite Em, app_assoc.
    + intros p k. rewrite not_elem_of_app, list_elem_of_singleton. destruct (decide (p = x)) as [->|Hne].
      * rewrite lookup_insert_eq. by intros [= <-].
      * rewrite lookup_insert_ne by done. intros Hk Hr. destruct (Fl p k Hk Hr) as [? ?]. auto.
  - intros X q Hq. destruct (decide (q = x)) as [->|Hne].
    + rewrite lookup_insert_eq, Hn. cbn. by rewrite Em.
    + rewrite lookup_insert_ne by done. by apply (Ag X).
Qed.

Lemma lane_ok_empty w ns : lane_ok w ns empty_lane [].
Proof. split; try done. apply NoDup_nil_2. Qed.

Lemma keyed_empty {K} `{Countable K} (key : entry -> K) ns : keyed key ∅ ns [].
Proof. intros k p. rewrite lookup_empty, elem_of_nil. naive_solver. Qed.

Lemma failAll_ok A t L R err : table_ok A t L R ->
  exists t', failAll err t = Ok t' /\ table_ok A t' [] [] /\
    trace t' = trace t ++ failures err (nodes t) (slots (pending t)).
Proof.
  intros H. unfold failAll.
  destruct (fold_res_inv (fail_entry err) (failing err t) (slots (pending t)) t) as (s & E & [(done & Hd & Tr & Fl) Ag]).
  - intros x l s. by apply (fail_entry_step A t L R).
  - split; [|by intros X]. exists []. split_and!; [done| |].
    + cbn. by rewrite app_nil_r.
    + intros p n Hn Hr. split; [apply not_elem_of_nil|]. eauto.
  - rewrite E, bind_Ok. rewrite app_nil_r in Hd. subst done. eexists. split; [done|]. split; [|exact Tr].
    pose proof (lane_perm _ _ _ _ (ok_pending _ _ _ _ H)) as Pm.
    split; cbn; try apply lane_ok_empty; try apply keyed_empty; try done.
    + intros p n Hn. split; [|by intros ?%elem_of_nil]. intros Hr.
      destruct (Fl p n Hn Hr) as [Hp (m & Hm & Hrm)]. exfalso. apply Hp. rewrite Pm.
      apply (ok_sub _ _ _ _ H). by apply (ok_flag _ _ _ _ H p m).
    + intros p n Hn. destruct (agree_lookup [p] _ _ _ _ (agree_sym _ _ _ (Ag [p])) ltac:(left) Hn) as (m & Hm & <-).
      by eapply ok_bytes.
    + rewrite (ok_account _ _ _ _ H), app_nil_r, Tr, results_app, results_failures. by rewrite (ids_perm _ _ _ Pm).
Qed.

(** *** Acknowledged requests *)

Definition holds (test : entry -> bool) (ns : store_of) (p : nat) : bool :=
  from_option (fun n : pendingRequest => test n) false (ns !! p).

Lemma holds_agree test ns ns' p : agree [p] ns ns' -> holds test ns' p = holds test ns p.
Proof.
  intros H. specialize (H p ltac:(left)). unfold holds.
  destruct (ns !! p), (ns' !! p); cbn in *; simplify_eq; congruence.
Qed.

Fixpoint dropping (test : entry -> bool) (ns : store_of) (R : list nat) : list nat :=
  match R with
  | [] => []
  | p :: R' => if holds test ns p then dropping test ns R' else R
  end.

Lemma dropping_agree test ns ns' R : (forall X, agree X ns ns') -> dropping test ns' R = dropping test ns R.
Proof.
  intros H. induction R as [|p R IH]; [done|]. cbn [dropping].
  by rewrite IH, (holds_agree test ns ns' p (H [p])).
Qed.

Lemma drop_replay_ok A test fuel t L R : table_ok A t L R -> (length R <= fuel)%nat ->
  exists t', drop_replay fuel test t = Ok t' /\ table_ok A t' L (dropping test (nodes t) R) /\
    (forall X, agree X (nodes t) (nodes t')) /\ trace t' = trace t.
Proof.
  revert t R. induction fuel as [|fuel IH]; intros t R H Hf; cbn [drop_replay];
    rewrite (lane_head _ _ _ _ (ok_replay _ _ _ _ H)); destruct R as [|p R]; cbn [hd_or].
  - exists t. by split_and!.
  - cbn in Hf. lia.
  - exists t. by split_and!.
  - destruct (ok_lookup A t L (p :: R) p H) as [n Hn]; [apply (ok_sub _ _ _ _ H); by left|].
    rewrite (deref_ok _ _ _ Hn), bind_Ok. cbn [dropping]. unfold holds. rewrite Hn. cbn [from_option].
    destruct (test n) eqn:Et; cbn [negb]; [|exists t; by split_and!].
    destruct (removeReplay_table A t L (p :: R) p n H Hn) as (t1 & E & H1 & Ag & Tr).
    rewrite E, bind_Ok.
    assert (rm p (p :: R) = R) as Hrm.
    { pose proof (lane_nodup _ _ _ _ (ok_replay _ _ _ _ H)) as Nd. apply NoDup_cons in Nd as [? _].
      apply (rm_app [] p R); [apply not_elem_of_nil|done]. }
    rewrite Hrm in H1. destruct (IH t1 R H1) as (t2 & E2 & H2 & Ag2 & Tr2); [cbn in Hf; lia|].
    exists t2. split_and!; [done| | |congruence].
    + by rewrite (dropping_agree test (nodes t) (nodes t1) R Ag) in H2.
    + intros X. by eapply agree_trans.
Qed.

Lemma lane_length w ns l L : lane_ok w ns l L -> length (slots l) = length L.
Proof. intros H. by rewrite (lane_perm _ _ _ _ H). Qed.

Lemma trimReplay_ok A t L R sequence : table_ok A t L R ->
  exists t', trimReplay sequence t = Ok t' /\
    table_ok A t' L (dropping (fun e => seq e <=? sequence) (nodes t) R) /\
    (forall X, agree X (nodes t) (nodes t')) /\ trace t' = trace t.
Proof.
  intros H. apply drop_replay_ok; [done|]. by rewrite (lane_length _ _ _ _ (ok_replay _ _ _ _ H)).
Qed.

(** *** Calling requests back for another transmission *)

Definition recall (e : entry) : entry := e <| sent := false |>.

Lemma recall_unsent e : sent e = false -> recall e = e.
Proof. destruct e; cbn. by intros ->. Qed.

(** [ns'] is [ns] with the entries of [X] recalled. *)
Definition recalled (X : list nat) (ns ns' : store_of) : Prop :=
  forall q, body <$> ns' !! q = (fun n : pendingRequest => if bool_decide (q ∈ X) then recall n else body n) <$> ns !! q.

Lemma prepare_entry_ok A t L R p n : table_ok A t L R -> p ∈ L -> nodes t !! p = Some n ->
  exists t', prepare_entry p t = Ok t' /\ table_ok A t' L R /\ recalled [p] (nodes t) (nodes t') /\ trace t' = trace t.
Proof.
  intros H Hp Hn. unfold prepare_entry. rewrite (deref_ok _ _ _ Hn), bind_Ok.
  assert (byRequest t !! command_id (request n) = Some p) as Hr by (apply (ok_request _ _ _ _ H); eauto).
  rewrite Hr. rewrite bool_decide_eq_true_2 by done. cbn [andb].
  assert (forall ns', (forall q, q <> p -> ns' !! q = nodes t !! q) ->
    body <$> ns' !! p = Some (recall n) -> recalled [p] (nodes t) ns') as HR.
  { intros ns' Ho Hs q. destruct (decide (q = p)) as [->|Hne].
    - rewrite bool_decide_eq_true_2 by by left. by rewrite Hs, Hn.
    - rewrite bool_decide_eq_false_2 by (rewrite list_elem_of_singleton; done). rewrite Ho by done. by destruct (nodes t !! q). }
  destruct (sent n) eqn:Es.
  - erewrite update_ok by (by destruct (control (request n))). eexists. split; [done|].
    assert (nodes (if negb (control (request n)) then t <| inFlight ::= fun k => k - 1 |> else t) = nodes t) as ->
      by by destruct (control (request n)).
    split_and!.
    + pose proof (update_entry_ok A t L R p n (recall n) (inFlight t - flying n) H Hp Hn) as U.
      specialize (U eq_refl eq_refl eq_refl). unfold flying in U. rewrite Es in U. cbn in U.
      destruct (control (request n)); cbn in *; [|apply U; lia].
      rewrite Z.sub_0_r in U. specialize (U ltac:(lia)). by destruct t.
    + apply HR; cbn.
      * intros q Hq. destruct (control (request n)); cbn; by rewrite lookup_insert_ne.
      * destruct (control (request n)); cbn; by rewrite lookup_insert_eq.
    + by destruct (control (request n)).
  - exists t. split_and!; [done|done| |done]. apply HR; [done|]. rewrite Hn. cbn. by rewrite recall_unsent.
Qed.

Lemma recalled_trans X Y ns ns1 ns2 : recalled X ns ns1 -> recalled Y ns1 ns2 -> recalled (X ++ Y) ns ns2.
Proof.
  intros H1 H2 q. specialize (H1 q). specialize (H2 q).
  destruct (ns !! q) as [n|], (ns1 !! q) as [n1|], (ns2 !! q) as [n2|]; cbn in *; simplify_eq; [|done].
  f_equal. rewrite H2, H1. repeat case_bool_decide; rewrite ?elem_of_app in *; cbn; try tauto; by destruct (body n).
Qed.

Lemma recalled_lookup X ns ns' q (n : pendingRequest) : recalled X ns ns' -> ns !! q = Some n ->
  exists n', ns' !! q = Some n' /\ body n' = if bool_decide (q ∈ X) then recall n else body n.
Proof. intros H Hn. specialize (H q). rewrite Hn in H. destruct (ns' !! q); cbn in H; naive_solver. Qed.

Lemma recalled_iff X Y ns ns' : (forall q, q ∈ X <-> q ∈ Y) -> recalled X ns ns' -> recalled Y ns ns'.
Proof.
  intros HXY H q. rewrite (H q). destruct (ns !! q); [|done]. cbn. f_equal. by rewrite (bool_decide_ext _ _ (HXY q)).
Qed.

Lemma prepareReplay_ok A t L R : table_ok A t L R ->
  exists t', prepareReplay t = Ok t' /\ table_ok A t' L R /\ recalled R (nodes t) (nodes t') /\ trace t' = trace t.
Proof.
  intros H. unfold prepareReplay.
  destruct (fold_res_inv prepare_entry (fun l s => exists done, slots (replay t) = done ++ l /\ table_ok A s L R /\
    recalled done (nodes t) (nodes s) /\ trace s = trace t) (slots (replay t)) t) as (s & E & done & Hd & Hs & Hc & Tr).
  - intros x l s (done & Hd & Hs & Hc & Tr).
    assert (x ∈ L) as Hx.
    { apply (ok_sub _ _ _ _ H). rewrite <- (lane_perm _ _ _ _ (ok_replay _ _ _ _ H)), Hd. apply elem_of_app. right. by left. }
    destruct (ok_lookup _ _ _ _ _ Hs Hx) as [n Hn].
    destruct (prepare_entry_ok A s L R x n Hs Hx Hn) as (s' & E & Hs' & Hc' & Tr').
    exists s'. split; [done|]. exists (done ++ [x]). split_and!; [by rewrite <- app_assoc|done| |congruence].
    by eapply recalled_trans.
  - exists []. split_and!; [done|done| |done]. intros q. by destruct (nodes t !! q).
  - exists s. split_and!; [done|done| |done]. rewrite app_nil_r in Hd. subst done.
    eapply recalled_iff; [|exact Hc]. intros q. by rewrite (lane_perm _ _ _ _ (ok_replay _ _ _ _ H)).
Qed.

(** *** Loops that end some of the requests *)

Definition kept (keep : entry -> bool) (ns : store_of) (L : list nat) : list nat :=
  filter (fun p => holds keep ns p = true) L.

(** Nothing but results that satisfy [P], and payload references. *)
Definition only (P : submitResult -> Prop) (o : list output) : Prop :=
  Forall (fun x => match x with OResult _ r => P r | ORelease _ => True | _ => False end) o.

Record pruned (A : list nat) (keep : entry -> bool) (P : submitResult -> Prop) (t : table) (L R : list nat)
    (s : table) (L1 R1 : list nat) : Prop := {
  pruned_ok : table_ok A s L1 R1;
  pruned_L : kept keep (nodes t) L1 = kept keep (nodes t) L;
  pruned_R : kept keep (nodes t) R1 = kept keep (nodes t) R;
  pruned_agree : agree L1 (nodes t) (nodes s);
  pruned_trace : exists o, trace s = trace t ++ o /\ only P o }.

Lemma kept_rm keep ns p L : holds keep ns p = false -> kept keep ns (rm p L) = kept keep ns L.
Proof.
  intros Hp. unfold kept, rm. rewrite list_filter_filter. apply list_filter_iff. intros q. split; [tauto|].
  intros Hq. split; [done|]. intros ->. congruence.
Qed.

Lemma kept_all keep ns L : (forall q, q ∈ L -> holds keep ns q = true) -> kept keep ns L = L.
Proof. intros H. apply list_filter_all. by apply Forall_forall. Qed.

Lemma only_app P a b : only P a -> only P b -> only P (a ++ b).
Proof. apply Forall_app_2. Qed.

Lemma only_mono (P Q : submitResult -> Prop) o : (forall r, P r -> Q r) -> only P o -> only Q o.
Proof. intros H Ho. eapply Forall_impl; [exact Ho|]. intros []; cbn; auto. Qed.

Lemma only_released P e : only P (released e).
Proof. unfold released. destruct (payloadLease _); repeat constructor. Qed.

Lemma pruned_refl A keep P t L R : table_ok A t L R -> pruned A keep P t L R t L R.
Proof. intros H. split; auto; [done|]. exists []. split; [by rewrite app_nil_r|constructor]. Qed.

Lemma pruned_step A keep P t L R s L1 R1 p result : pruned A keep P t L R s L1 R1 -> p ∈ L1 ->
  holds keep (nodes t) p = false -> P result ->
  exists s', finish p result s = Ok s' /\ pruned A keep P t L R s' (rm p L1) (rm p R1) /\
    swapped p (slots (pending s)) (slots (pending s')).
Proof.
  intros [Hok HL HR Ag (o & Tr & Ho)] Hp Hk HP. destruct (ok_lookup _ _ _ _ _ Hok Hp) as [n Hn].
  destruct (finish_entry_ok A s L1 R1 p n result Hok Hp Hn) as (s' & E & Hok' & Ag' & Sw & Tr').
  exists s'. split_and!; [done| |done]. split; [done| | | |].
  - by rewrite kept_rm.
  - by rewrite kept_rm.
  - eapply agree_trans; [|exact Ag']. eapply agree_sub; [|exact Ag]. intros q Hq. apply elem_of_rm in Hq. tauto.
  - rewrite Tr', Tr, <- app_assoc. eexists. split; [done|]. apply only_app; [done|].
    apply only_app; [apply only_released|]. by constructor.
Qed.

(** All that is left is kept. *)
Lemma pruned_end A keep P t L R s L1 R1 : pruned A keep P t L R s L1 R1 ->
  (forall q, q ∈ L1 -> holds keep (nodes t) q = true) -> L1 = kept keep (nodes t) L /\ R1 = kept keep (nodes t) R.
Proof.
  intros [Hok HL HR _ _] H. rewrite <- HL, <- HR. split; symmetry; apply kept_all; auto.
  intros q Hq. apply H. by apply (ok_sub _ _ _ _ Hok).
Qed.

Definition unsent (e : entry) : bool := negb (sent e).

Lemma fail_sent_loop A t L R cause : table_ok A t L R ->
  exists s R1, fold_res (fail_sent cause) (slots (pending t)) t = Ok s /\
    pruned A unsent (eq (failed (unknown cause))) t L R s (kept unsent (nodes t) L) R1.
Proof.
  intros H. pose proof (lane_perm _ _ _ _ (ok_pending _ _ _ _ H)) as Pm.
  destruct (fold_res_inv (fail_sent cause) (fun l s => exists L1 R1,
    pruned A unsent (eq (failed (unknown cause))) t L R s L1 R1 /\ NoDup l /\ (forall q, q ∈ l -> q ∈ L1) /\
    (forall q, q ∈ L1 -> q ∈ l \/ holds unsent (nodes t) q = true)) (slots (pending t)) t)
    as (s & E & L1 & R1 & Hp & _ & _ & Hk).
  - intros x l s (L1 & R1 & Hp & Nd & Hin & Hout). apply NoDup_cons in Nd as [Hx Nd].
    assert (x ∈ L1) as HxL by (apply Hin; by left).
    destruct (ok_lookup _ _ _ _ _ (pruned_ok _ _ _ _ _ _ _ _ _ Hp) HxL) as [n Hn].
    assert (holds unsent (nodes t) x = unsent n) as Hh.
    { rewrite <- (holds_agree unsent (nodes t) (nodes s)).
      - unfold holds. by rewrite Hn.
      - eapply agree_sub; [|apply Hp]. intros q Hq. apply list_elem_of_singleton in Hq as ->. done. }
    unfold fail_sent. rewrite (deref_ok _ _ _ Hn), bind_Ok. unfold unsent in Hh. destruct (sent n); cbn [negb] in *.
    + destruct (pruned_step _ _ _ _ _ _ _ _ _ x (failed (unknown cause)) Hp HxL Hh eq_refl) as (s' & E & Hp' & _).
      exists s'. split; [done|]. exists (rm x L1), (rm x R1). split_and!; [done|done| |].
      * intros q Hq. apply elem_of_rm. split; [by intros ->|]. apply Hin. by right.
      * intros q Hq. apply elem_of_rm in Hq as [Hne Hq]. destruct (Hout q Hq) as [Hl|?]; [|auto].
        apply elem_of_cons in Hl as [->|?]; [done|auto].
    + exists s. split; [done|]. exists L1, R1. split_and!; [done|done| |].
      * intros q Hq. apply Hin. by right.
      * intros q Hq. destruct (Hout q Hq) as [Hl|?]; [|auto]. apply elem_of_cons in Hl as [->|?]; auto.
  - exists L, R. split_and!; [by apply pruned_refl| | |].
    + rewrite Pm. apply H.
    + intros q. by rewrite Pm.
    + intros q. rewrite Pm. auto.
  - exists s, R1. split; [done|]. destruct (pruned_end _ _ _ _ _ _ _ _ _ Hp) as [<- _]; [|done].
    intros q Hq. destruct (Hk q Hq) as [Hn|?]; [|done]. by apply elem_of_nil in Hn.
Qed.

Lemma dropping_all A t L R : table_ok A t L R -> dropping (fun _ => true) (nodes t) R = [].
Proof.
  intros H. assert (forall q, q ∈ R -> holds (fun _ => true) (nodes t) q = true) as Hh.
  { intros q Hq. destruct (ok_lookup _ _ _ _ q H) as [n Hn]; [by apply (ok_sub _ _ _ _ H)|]. unfold holds. by rewrite Hn. }
  clear H. induction R as [|p R IH]; [done|]. cbn [dropping]. rewrite (Hh p) by by left. apply IH.
  intros q Hq. apply Hh. by right.
Qed.

Lemma failSentUnknown_ok A t L R cause : table_ok A t L R ->
  exists t' o, failSentUnknown cause t = Ok t' /\ table_ok A t' (kept unsent (nodes t) L) [] /\
    agree (kept unsent (nodes t) L) (nodes t) (nodes t') /\
    trace t' = trace t ++ o /\ only (eq (failed (unknown cause))) o.
Proof.
  intros H. unfold failSentUnknown. destruct (fail_sent_loop A t L R cause H) as (s & R1 & E & [Hok _ _ Ag (o & Tr & Ho)]).
  rewrite E, bind_Ok.
  destruct (drop_replay_ok A (fun _ => true) (length (slots (replay s))) s _ R1 Hok) as (t1 & E1 & H1 & Ag1 & Tr1).
  { by rewrite (lane_length _ _ _ _ (ok_replay _ _ _ _ Hok)). }
  rewrite E1, bind_Ok. rewrite (dropping_all A s _ R1 Hok) in H1. eexists _, o. split; [done|]. split_and!.
  - assert (slots (replay t1) = []) as Hs by (apply Permutation_nil_r; apply H1).
    assert (t1 <| replay ::= fun l => l <| slots := [] |> |> = t1) as ->; [|done].
    destruct t1 as [? ? [sl ? ?]]. cbn in *. by subst sl.
  - eapply agree_trans; [exact Ag|]. apply Ag1.
  - cbn. congruence.
  - done.
Qed.

Definition uncontrolled (e : entry) : bool := controlGeneration (request e) =? 0.

(** Removing the element at [i] keeps the ones before it. *)
Lemma swapped_prefix p i sl sl' : NoDup sl -> sl !! i = Some p -> swapped p sl sl' ->
  length sl = S (length sl') /\ forall j q, (j < i)%nat -> sl' !! j = Some q -> sl !! j = Some q.
Proof.
  intros Nd Hi (i' & m & Hi' & Hm & ->). assert (i' = i) as -> by by eapply NoDup_lookup.
  pose proof (lookup_lt_Some _ _ _ Hi). split.
  - rewrite length_take, length_insert. lia.
  - intros j q Hj Hq. apply lookup_take_Some in Hq as [Hq _]. by rewrite list_lookup_insert_ne in Hq by lia.
Qed.

Lemma invalidate_loop A t L R fuel i s L1 R1 :
  pruned A uncontrolled (eq (failed [msgr_ErrControlInvalidated])) t L R s L1 R1 ->
  (forall j q, (j < i)%nat -> slots (pending s) !! j = Some q -> holds uncontrolled (nodes t) q = true) ->
  (length (slots (pending s)) <= i + fuel)%nat ->
  exists s', invalidate_from fuel i s = Ok s' /\
    pruned A uncontrolled (eq (failed [msgr_ErrControlInvalidated])) t L R s'
      (kept uncontrolled (nodes t) L) (kept uncontrolled (nodes t) R).
Proof.
  revert i s L1 R1. induction fuel as [|fuel IH]; intros i s L1 R1 Hp Hb Hf; cbn [invalidate_from];
    destruct (slots (pending s) !! i) as [p|] eqn:Hi;
    pose proof (lane_perm _ _ _ _ (ok_pending _ _ _ _ (pruned_ok _ _ _ _ _ _ _ _ _ Hp))) as Pm.
  1: apply lookup_lt_Some in Hi; lia.
  1, 3: exists s; split; [done|]; destruct (pruned_end _ _ _ _ _ _ _ _ _ Hp) as [<- <-]; [|done];
    intros q Hq; rewrite <- Pm in Hq; apply list_elem_of_lookup_1 in Hq as [j Hj];
    apply (Hb j q); [|done]; apply lookup_ge_None in Hi; apply lookup_lt_Some in Hj; lia.
  assert (p ∈ L1) as HpL by (rewrite <- Pm; by eapply list_elem_of_lookup_2).
  destruct (ok_lookup _ _ _ _ _ (pruned_ok _ _ _ _ _ _ _ _ _ Hp) HpL) as [n Hn].
  assert (holds uncontrolled (nodes t) p = uncontrolled n) as Hh.
  { rewrite <- (holds_agree uncontrolled (nodes t) (nodes s)); [unfold holds; by rewrite Hn|].
    eapply agree_sub; [|apply Hp]. intros q Hq. apply list_elem_of_singleton in Hq as ->. done. }
  rewrite (deref_ok _ _ _ Hn), bind_Ok. unfold uncontrolled in Hh.
  destruct (controlGeneration (request n) =? 0); cbn [negb].
  - apply (IH _ _ L1 R1); [done| |lia]. intros j q Hj Hq. destruct (decide (j = i)) as [->|Hne].
    + by rewrite Hi in Hq; injection Hq as <-.
    + apply (Hb j q); [lia|done].
  - destruct (pruned_step _ _ _ _ _ _ _ _ _ p (failed [msgr_ErrControlInvalidated]) Hp HpL Hh eq_refl)
      as (s' & E & Hp' & Sw).
    assert (NoDup (slots (pending s))) as Nd by (rewrite Pm; apply Hp).
    rewrite E, bind_Ok. destruct (swapped_prefix p i _ _ Nd Hi Sw) as [Hl Hpre].
    apply (IH _ _ _ _ Hp'); [|lia]. intros j q Hj Hq. apply (Hb j q Hj). by apply Hpre.
Qed.

Lemma invalidate_ok A t L R : table_ok A t L R ->
  exists t', invalidate t = Ok t' /\
    pruned A uncontrolled (eq (failed [msgr_ErrControlInvalidated])) t L R t'
      (kept uncontrolled (nodes t) L) (kept uncontrolled (nodes t) R).
Proof.
  intros H. apply (invalidate_loop A t L R _ 0 t L R); [by apply pruned_refl| |lia]. intros j q Hj. lia.
Qed.

(** *** Admission *)

(** The table with one more entry, from the lists, the maps and the totals with it. *)
Lemma with_ok A t L R p (n : pendingRequest) t' : table_ok A t L R -> p ∉ L -> nodes t' !! p = Some n ->
  lane_ok Pending (nodes t') (pending t') (L ++ [p]) -> lane_ok Replay (nodes t') (replay t') R ->
  flags_ok (nodes t') R -> agree L (nodes t) (nodes t') ->
  (forall q (k : pendingRequest), nodes t' !! q = Some k -> 0 <= p_bytes k) ->
  byRequest t !! request_id n = None -> byRequest t' = <[request_id n := p]> (byRequest t) ->
  byTID t !! transaction n = None -> byTID t' = <[transaction n := p]> (byTID t) ->
  retainedBytes t' = retainedBytes t + app_bytes n -> inU 64 (retainedBytes t') ->
  controlBytes t' = controlBytes t + ctl_bytes n -> inU 64 (controlBytes t') ->
  controlCount t' = controlCount t + ctl_count n -> inFlight t' = inFlight t + flying n ->
  results (trace t') = results (trace t) -> table_ok (request_id n :: A) t' (L ++ [p]) R.
Proof.
  intros H Hp Hn HL HR HF Ag Hb M1 E1 M2 E2 E3 W3 E4 W4 E5 E6 E7.
  assert (forall f : entry -> Z, total f (nodes t') (L ++ [p]) = total f (nodes t) L + f n) as Ht.
  { intros f. rewrite weight_app, (total_agree _ _ _ _ Ag), weight_cons. unfold weight. rewrite Hn. cbn. lia. }
  destruct H. split; auto.
  - intros q Hq. apply elem_of_app. auto.
  - rewrite E1. apply keyed_insert; auto. by eapply keyed_agree.
  - rewrite E2. apply keyed_insert; auto. by eapply keyed_agree.
  - rewrite Ht. congruence.
  - rewrite Ht. congruence.
  - rewrite Ht. congruence.
  - rewrite Ht. congruence.
  - rewrite ok_account0, E7, ids_app, (ids_agree _ _ _ Ag). cbn [ids omap list_omap]. rewrite Hn. cbn. solve_Permutation.
Qed.

Definition retains (m : SMessage) : list output :=
  match payloadLease m with Some lease => [ORetain lease] | None => [] end.

(** The allocation of the node and its place in the list of requests. *)
Lemma allocate_ok A t L R e p t1 : table_ok A t L R -> p ∉ dom (nodes t) -> 0 <= p_bytes e ->
  nodes t1 = <[p := mkPending (mkLinks None None 0) (mkLinks None None 0) false e]> (nodes t) ->
  pending t1 = pending t -> replay t1 = replay t ->
  exists l' ns' n, addPending p t1 = Ok (relaid Pending t1 l' ns') /\ p ∉ L /\ lane_ok Pending ns' l' (L ++ [p]) /\
    lane_ok Replay ns' (replay t) R /\ flags_ok ns' R /\ agree L (nodes t) ns' /\
    (forall q (k : pendingRequest), ns' !! q = Some k -> 0 <= p_bytes k) /\ ns' !! p = Some n /\ body n = e.
Proof.
  intros H Hp%not_elem_of_dom Hb E1 E2 E3. set (n0 := mkPending _ _ _ _) in E1.
  assert (p ∉ L) as HpL by (intros Hx; destruct (ok_lookup _ _ _ _ _ H Hx) as [n Hn]; congruence).
  assert (p ∉ R) as HpR by (intros Hx; by apply HpL, (ok_sub _ _ _ _ H)).
  assert (forall q, q ∈ L -> nodes t1 !! q = nodes t !! q) as Same.
  { intros q Hq. rewrite E1, lookup_insert_ne; [done|]. by intros ->. }
  destruct (append_lane_ok Pending t1 L p n0) as (l' & ns' & Eq & HL' & S').
  { cbn. rewrite E2. eapply lane_frame; [apply H|]. intros q Hq. by rewrite Same. }
  { by rewrite E1, lookup_insert_eq. }
  { done. }
  assert (forall X, agree X (nodes t1) ns') as Ag2 by (intros X; by eapply same_rest_agree).
  destruct (agree_lookup [p] _ _ p n0 (Ag2 [p]) ltac:(left)) as (n & Hn & Bn); [by rewrite E1, lookup_insert_eq|].
  exists l', ns', n. split_and!; auto.
  - eapply lane_frame; [apply H|]. intros q Hq. pose proof (same_rest_other _ _ q S') as E.
    rewrite Same in E by by apply (ok_sub _ _ _ _ H).
    destruct (nodes t !! q), (ns' !! q); cbn in *; simplify_eq; congruence.
  - intros q k Hk. pose proof (same_rest_other _ _ q S') as E. rewrite Hk, E1 in E. destruct (decide (q = p)) as [->|Hne].
    + rewrite lookup_insert_eq in E. cbn in E. injection E as _ -> _. done.
    + rewrite lookup_insert_ne in E by done. destruct (nodes t !! q) as [k0|] eqn:Ek; [|done].
      cbn in E. injection E as _ -> _. by apply (ok_flag _ _ _ _ H).
  - intros q Hq. rewrite (Ag2 L q Hq). by rewrite Same.
  - intros q k Hk. destruct (agree_lookup [q] _ _ _ _ (agree_sym _ _ _ (Ag2 [q])) ltac:(left) Hk) as (k0 & Hk0 & <-).
    rewrite E1 in Hk0. destruct (decide (q = p)) as [->|Hne].
    + rewrite lookup_insert_eq in Hk0. by injection Hk0 as <-.
    + rewrite lookup_insert_ne in Hk0 by done. by eapply ok_bytes.
Qed.

Lemma register_ok A t L R command m bytes : table_ok A t L R ->
  byRequest t !! command_id command = None -> byTID t !! TransactionID (Header (wire_message m)) = None ->
  0 <= bytes -> (control command = false -> inU 64 (retainedBytes t + bytes)) ->
  (control command = true -> inU 64 (controlBytes t + bytes)) ->
  exists p t' n, register command m bytes t = Ok t' /\ p ∉ L /\ table_ok (command_id command :: A) t' (L ++ [p]) R /\
    agree L (nodes t) (nodes t') /\ nodes t' !! p = Some n /\ body n = mkEntry command m bytes 0 false false /\
    trace t' = trace t ++ retains m.
Proof.
  intros H Hr Ht Hb W1 W2. unfold register. set (p := fresh (dom (nodes t))). cbn zeta.
  set (e := mkEntry command m bytes 0 false false).
  set (t1 := match payloadLease m with Some lease => emitted (ORetain lease) _ | None => _ end).
  destruct (allocate_ok A t L R e p t1 H (is_fresh _) Hb) as (l' & ns' & n & Eq & HpL & HL & HR & HF & Ag & Hbs & Hn & Bn);
    [unfold t1; by destruct (payloadLease m)..|].
  rewrite Eq, bind_Ok. exists p. eexists _, n. split; [done|].
  destruct (ok_widths _ _ _ _ H) as [V1 V2].
  split_and!; [done| |unfold t1; by destruct (payloadLease m), (control command)..|done|
    unfold t1, retains; destruct (payloadLease m), (control command); cbn; by rewrite ?app_nil_r].
  replace (command_id command) with (request_id n) by by rewrite Bn.
  unfold app_bytes, ctl_bytes, t1.
  eapply (with_ok A t L R p n); eauto; unfold t1, app_bytes, ctl_bytes, ctl_count, flying; rewrite ?Bn; cbn;
    destruct (payloadLease m), (control command); cbn; auto with lia;
    rewrite ?results_app, ?app_nil_r; auto; try apply wrapU_range; try (rewrite wrapU_id; auto); try lia; auto.
Qed.

(** *** The next request to write *)

Fixpoint scan_list {A} (body : nat -> pendingRequest -> A -> A + option nat) (acc : A) (ns : store_of) (L : list nat)
    : A + option nat :=
  match L with
  | [] => inl acc
  | p :: L =>
      match ns !! p with
      | Some n => match body p n acc with inl acc => scan_list body acc ns L | inr r => inr r end
      | None => inl acc
      end
  end.

Lemma scan_ok {A} (body : nat -> pendingRequest -> A -> A + option nat) acc t pv L fuel :
  chain Pending (nodes t) pv L None -> (length L <= fuel)%nat ->
  scan fuel (hd_or L None) body acc t = Ok (scan_list body acc (nodes t) L).
Proof.
  revert acc pv L. induction fuel as [|fuel IH]; intros acc pv [|p L]; cbn [chain hd_or scan length]; try done; [lia|].
  intros [(n & Hn & _ & Hx) Hc] Hf. rewrite (deref_ok _ _ _ Hn), bind_Ok. cbn [scan_list]. rewrite Hn.
  destruct (body p n acc) as [acc'|r]; [|done]. cbn in Hx. rewrite Hx. apply (IH acc' (Some p)); [done|lia].
Qed.

(** Applications are numbered in the order of admission. *)
Definition before (a b : Z) : Prop := b = 0 \/ 0 < a < b.

Definition app_seqs (ns : store_of) (L : list nat) : list Z :=
  omap (fun p => ns !! p ≫= fun n : pendingRequest => if control (request n) then None else Some (seq n)) L.

Definition numbered (ns : store_of) (L : list nat) : Prop := StronglySorted before (app_seqs ns L).

(** What [nextPendingWrite] has to find: among the requests not yet sent on
    this transport the one with the least sequence number; when none has a
    number, one of the control lane if there is any, and otherwise the first. *)
Definition preferred (n m : entry) : Prop :=
  (seq m <> 0 -> seq n <> 0 /\ seq n <= seq m) /\
  (seq n = 0 -> seq m = 0 /\ (control (request m) = true -> control (request n) = true)).

Definition choice (ns : store_of) (L : list nat) (r : option nat) : Prop :=
  match r with
  | None => forall q (m : pendingRequest), q ∈ L -> ns !! q = Some m -> sent m = true
  | Some p => exists n : pendingRequest, p ∈ L /\ ns !! p = Some n /\ sent n = false /\
      (forall q (m : pendingRequest), q ∈ L -> ns !! q = Some m -> sent m = false -> preferred n m) /\
      (seq n = 0 -> control (request n) = false -> exists L1 L2, L = L1 ++ p :: L2 /\
         forall q (m : pendingRequest), q ∈ L1 -> ns !! q = Some m -> sent m = true)
  end.

Lemma app_seqs_cons ns p (n : pendingRequest) L : ns !! p = Some n -> control (request n) = false ->
  app_seqs ns (p :: L) = seq n :: app_seqs ns L.
Proof. intros Hn Hc. unfold app_seqs. cbn [omap list_omap]. rewrite Hn. cbn. by rewrite Hc. Qed.

Lemma elem_of_app_seqs ns L p (n : pendingRequest) : p ∈ L -> ns !! p = Some n -> control (request n) = false ->
  seq n ∈ app_seqs ns L.
Proof. intros Hp Hn Hc. apply list_elem_of_omap. exists p. split; [done|]. rewrite Hn. cbn. by rewrite Hc. Qed.

(** Without a control lane the first request that is not sent is the one. *)
Lemma first_unsent_choice ns L : (forall p, p ∈ L -> exists n : pendingRequest, ns !! p = Some n /\ control (request n) = false) ->
  numbered ns L ->
  choice ns L match scan_list first_unsent tt ns L with inr p => p | inl _ => None end.
Proof.
  unfold numbered. induction L as [|p L IH]; intros Hall Hs.
  - cbn. intros q m Hq. by apply elem_of_nil in Hq.
  - destruct (Hall p ltac:(left)) as (n & Hn & Hc). rewrite (app_seqs_cons ns p n L Hn Hc) in Hs.
    inversion Hs as [|? ? Hs' Hf]; subst. cbn [scan_list]. rewrite Hn. unfold first_unsent at 1.
    destruct (sent n) eqn:Es; cbn [negb].
    + specialize (IH ltac:(intros q Hq; apply Hall; by right) Hs').
      destruct (scan_list first_unsent tt ns L) as [[]|[r|]] eqn:Er; cbn in *.
      * intros q m [->|Hq]%elem_of_cons Hm; [congruence|eauto].
      * destruct IH as (k & Hk & Hk' & Hu & Hpref & Hpos). exists k. split_and!; [by right|done|done| |].
        -- intros q m [->|Hq]%elem_of_cons Hm Hum; [congruence|eauto].
        -- intros Hz Hck. destruct (Hpos Hz Hck) as (L1 & L2 & -> & H1). exists (p :: L1), L2. split; [done|].
           intros q m [->|Hq]%elem_of_cons Hm; [congruence|eauto].
      * intros q m [->|Hq]%elem_of_cons Hm; [congruence|eauto].
    + cbn. exists n. split_and!; [by left|done|done| |intros _ _; exists [], L; split; [done|intros q m Hq; by apply elem_of_nil in Hq]].
      intros q m [->|Hq]%elem_of_cons Hm Hum; [simplify_eq; by split; [lia|]|].
      destruct (Hall q ltac:(by right)) as (m' & Hm' & Hcm).
      rewrite Hm in Hm'. injection Hm' as <-.
      rewrite Forall_forall in Hf. specialize (Hf (seq m) (elem_of_app_seqs _ _ _ _ Hq Hm Hcm)).
      unfold before in Hf. split; [lia|]. intros Hz. split; [lia|]. congruence.
Qed.

(** With one, the whole list is searched for three candidates. *)
Definition seen_least (ns : store_of) (X : list nat) (r : option (nat * Z)) : Prop :=
  match r with
  | Some (p, s) => exists n : pendingRequest, p ∈ X /\ ns !! p = Some n /\ sent n = false /\ seq n = s /\ s <> 0 /\
      forall q (m : pendingRequest), q ∈ X -> ns !! q = Some m -> sent m = false -> seq m <> 0 -> s <= seq m
  | None => forall q (m : pendingRequest), q ∈ X -> ns !! q = Some m -> sent m = false -> seq m = 0
  end.

Definition seen_first (b : bool) (ns : store_of) (X : list nat) (r : option nat) : Prop :=
  match r with
  | Some p => exists (n : pendingRequest) X1 X2, X = X1 ++ p :: X2 /\ ns !! p = Some n /\ sent n = false /\ seq n = 0 /\
      control (request n) = b /\
      forall q (m : pendingRequest), q ∈ X1 -> ns !! q = Some m -> sent m = false -> seq m = 0 -> control (request m) <> b
  | None => forall q (m : pendingRequest), q ∈ X -> ns !! q = Some m -> sent m = false -> seq m = 0 -> control (request m) <> b
  end.

Record considered (ns : store_of) (X : list nat) (c : candidates) : Prop := {
  seen_replay : seen_least ns X (c_replay c);
  seen_control : seen_first true ns X (c_control c);
  seen_application : seen_first false ns X (c_application c) }.

Lemma elem_of_snoc (X : list nat) p q : q ∈ X ++ [p] <-> q ∈ X \/ q = p.
Proof. by rewrite elem_of_app, list_elem_of_singleton. Qed.

Section Candidates.
Context (ns : store_of) (X : list nat) (p : nat) (n : pendingRequest) (Hn : ns !! p = Some n).

Lemma least_skip r : seen_least ns X r -> sent n = true \/ seq n = 0 -> seen_least ns (X ++ [p]) r.
Proof.
  intros Hr Hskip. destruct r as [[p' s]|]; cbn in *.
  - destruct Hr as (n' & ? & ? & ? & ? & ? & Hmin). exists n'. split_and!; [apply elem_of_snoc; auto|done..|].
    intros q m [Hq| ->]%elem_of_snoc Hm Hu Hz; [eauto|]. simplify_eq. destruct Hskip; congruence.
  - intros q m [Hq| ->]%elem_of_snoc Hm Hu; [eauto|]. simplify_eq. destruct Hskip; congruence.
Qed.

Lemma least_found r : seen_least ns X r -> sent n = false -> seq n <> 0 ->
  seen_least ns (X ++ [p]) match r with
                           | Some (p', least) => if seq n <? least then Some (p, seq n) else r
                           | None => Some (p, seq n)
                           end.
Proof.
  intros Hr Hu Hz. assert (p ∈ X ++ [p]) by (apply elem_of_snoc; auto). destruct r as [[p' s]|]; cbn in *.
  - destruct Hr as (n' & Hp' & Hn' & Hu' & Hs' & Hz' & Hmin). destruct (Z.ltb_spec (seq n) s).
    + exists n. split_and!; auto. intros q m [Hq| ->]%elem_of_snoc Hm Hum Hzm; [specialize (Hmin q m Hq Hm Hum Hzm); lia|].
      simplify_eq. lia.
    + exists n'. split_and!; auto; [apply elem_of_snoc; auto|].
      intros q m [Hq| ->]%elem_of_snoc Hm Hum Hzm; [eauto|]. simplify_eq. lia.
  - exists n. split_and!; auto. intros q m [Hq| ->]%elem_of_snoc Hm Hum Hzm; [|simplify_eq; lia].
    specialize (Hr q m Hq Hm Hum). congruence.
Qed.

Lemma first_skip b r : seen_first b ns X r -> sent n = true \/ seq n <> 0 \/ control (request n) <> b ->
  seen_first b ns (X ++ [p]) r.
Proof.
  intros Hr Hskip. destruct r as [p'|]; cbn in *.
  - destruct Hr as (n' & X1 & X2 & -> & ? & ? & ? & ? & ?). exists n', X1, (X2 ++ [p]).
    split_and!; [by rewrite <- app_assoc|done..].
  - intros q m [Hq| ->]%elem_of_snoc Hm Hu Hz; [eauto|]. simplify_eq. destruct Hskip as [?|[?|?]]; congruence.
Qed.

Lemma first_found b r : seen_first b ns X r -> sent n = false -> seq n = 0 -> control (request n) = b ->
  seen_first b ns (X ++ [p]) match r with None => Some p | Some _ => r end.
Proof.
  intros Hr Hu Hz Hb. destruct r as [p'|]; cbn in *.
  - destruct Hr as (n' & X1 & X2 & -> & ? & ? & ? & ? & ?). exists n', X1, (X2 ++ [p]).
    split_and!; [by rewrite <- app_assoc|done..].
  - exists n, X, []. split_and!; auto.
Qed.

Lemma consider_step c : considered ns X c ->
  exists c', consider p n c = inl c' /\ considered ns (X ++ [p]) c'.
Proof.
  intros [Hr Hc Ha]. unfold consider. eexists. split; [done|].
  destruct (sent n) eqn:Es; [split; [apply least_skip|apply first_skip|apply first_skip]; auto|].
  destruct (Z.eqb_spec (seq n) 0) as [Ez|Ez]; cbn [negb].
  - destruct (control (request n)) eqn:Ec.
    + pose proof (first_found true _ Hc Es Ez Ec) as F.
      destruct (c_control c) eqn:E; split; cbn; rewrite ?E;
        first [exact F|by apply least_skip; auto|apply first_skip; [done|]; right; right; congruence].
    + pose proof (first_found false _ Ha Es Ez Ec) as F.
      destruct (c_application c) eqn:E; split; cbn; rewrite ?E;
        first [exact F|by apply least_skip; auto|apply first_skip; [done|]; right; right; congruence].
  - pose proof (least_found _ Hr Es Ez) as F.
    destruct (c_replay c) as [[p' s]|] eqn:E; [destruct (seq n <? s)|]; split; cbn; rewrite ?E; first [exact F|by apply first_skip; auto].
Qed.
End Candidates.

Lemma consider_all ns X L c : considered ns X c -> (forall p, p ∈ L -> exists n : pendingRequest, ns !! p = Some n) ->
  exists c', scan_list consider c ns L = inl c' /\ considered ns (X ++ L) c'.
Proof.
  revert X c. induction L as [|p L IH]; intros X c Hc Hall; [exists c; by rewrite app_nil_r|].
  destruct (Hall p ltac:(left)) as [n Hn]. cbn [scan_list]. rewrite Hn.
  destruct (consider_step ns X p n Hn c Hc) as (c1 & -> & Hc1).
  destruct (IH (X ++ [p]) c1 Hc1) as (c' & E & Hc'); [intros q Hq; apply Hall; by right|].
  exists c'. split; [done|]. by rewrite <- app_assoc in Hc'.
Qed.

Lemma considered_choice ns L c : considered ns L c ->
  choice ns L match c_replay c, c_control c with
              | Some (p, _), _ => Some p
              | None, Some p => Some p
              | None, None => c_application c
              end.
Proof.
  intros [Hr Hc Ha]. destruct (c_replay c) as [[p s]|]; cbn in Hr.
  - destruct Hr as (n & Hp & Hn & Hu & <- & Hz & Hmin). exists n. split_and!; auto; [|done].
    intros q m Hq Hm Hum. split; [intros Hm0; split; [done|eauto]|done].
  - destruct (c_control c) as [p|]; cbn in Hc.
    + destruct Hc as (n & X1 & X2 & -> & Hn & Hu & Hz & Hcn & _). exists n. split_and!; auto.
      * apply elem_of_app. right. by left.
      * intros q m Hq Hm Hum. specialize (Hr q m Hq Hm Hum). split; [lia|auto].
      * intros _ ?. congruence.
    + destruct (c_application c) as [p|]; cbn in Ha.
      * destruct Ha as (n & X1 & X2 & -> & Hn & Hu & Hz & Hcn & Hfirst).
        assert (forall q (m : pendingRequest), q ∈ X1 ++ p :: X2 -> ns !! q = Some m -> sent m = false ->
          seq m = 0 /\ control (request m) = false) as Hall.
        { intros q m Hq Hm Hum. specialize (Hr q m Hq Hm Hum). specialize (Hc q m Hq Hm Hum Hr).
          split; [done|]. by destruct (control (request m)). }
        exists n. split_and!; auto.
        -- apply elem_of_app. right. by left.
        -- intros q m Hq Hm Hum. destruct (Hall q m Hq Hm Hum) as [? ?]. split; [lia|]. split; [done|congruence].
        -- intros _ _. exists X1, X2. split; [done|]. intros q m Hq Hm. destruct (sent m) eqn:Es; [done|].
           destruct (Hall q m ltac:(apply elem_of_app; auto) Hm Es) as [Hz' Hc']. by destruct (Hfirst q m Hq Hm Es Hz').
      * intros q m Hq Hm. destruct (sent m) eqn:Es; [done|].
        specialize (Hr q m Hq Hm Es). specialize (Hc q m Hq Hm Es Hr). specialize (Ha q m Hq Hm Es Hr).
        by destruct (control (request m)).
Qed.

Lemma total_zero f ns L : (forall e, 0 <= f e) -> total f ns L = 0 -> forall p (n : pendingRequest), p ∈ L -> ns !! p = Some n -> f n = 0.
Proof.
  intros Hf. induction L as [|q L IH]; intros Ht p n Hp Hn; [by apply elem_of_nil in Hp|].
  rewrite weight_cons in Ht. assert (0 <= weight f ns q) by (unfold weight; destruct (ns !! q); cbn; auto; lia).
  pose proof (weight_nonneg f ns L ltac:(auto)).
  apply elem_of_cons in Hp as [->|Hp]; [|apply (IH ltac:(lia) p n Hp Hn)]. unfold weight in *. rewrite Hn in *. cbn in *. lia.
Qed.

Lemma nextPendingWrite_ok A t L R : table_ok A t L R -> numbered (nodes t) L ->
  exists r, nextPendingWrite t = Ok r /\ choice (nodes t) L r.
Proof.
  intros H Hs. unfold nextPendingWrite. pose proof (ok_pending _ _ _ _ H) as HP.
  rewrite (lane_head _ _ _ _ HP), (lane_length _ _ _ _ HP).
  rewrite !(scan_ok _ _ _ _ _ _ (lane_chain _ _ _ _ HP)) by done.
  assert (forall p, p ∈ L -> exists n : pendingRequest, nodes t !! p = Some n) as Hall by (intros p; by eapply ok_lookup).
  destruct (Z.eqb_spec (controlCount t) 0) as [E|_]; rewrite bind_Ok.
  - eexists. split; [done|]. apply first_unsent_choice; [|done].
    intros p Hp. destruct (Hall p Hp) as [n Hn]. exists n. split; [done|].
    rewrite (ok_controlCount _ _ _ _ H) in E.
    pose proof (total_zero ctl_count _ _ ltac:(intros e; unfold ctl_count; destruct (control _); lia) E p n Hp Hn) as Hz.
    unfold ctl_count in Hz. by destruct (control (request n)).
  - destruct (consider_all (nodes t) [] L (mkCandidates None None None)) as (c & -> & Hc); [|done|].
    + split; cbn; intros q m Hq; by apply elem_of_nil in Hq.
    + eexists. split; [done|]. by apply considered_choice.
Qed.
