(* ===== verification/Session.v ===== *)
(** * The session owner (src/internal/msgr/session.go, session_control.go)

    One goroutine owns a session: it reads commands, frames, write completions,
    faults, renewals, connection results and a timer, and changes its state in
    between; [handle] is one turn of its loop.  What it sends to the callers,
    the transport and the connector is recorded in order in the [trace] of the
    table.  The buffered channels that are tested for room (events, resets,
    incoming messages, the terminal error) are part of the state.

    What other components answer during a turn is a [world]: the errors of the
    callers' contexts, the global sequence source, the cookie source and the
    receive budget.  [generation], [nextWriteID] and the control generation
    count connections and writes and are not wrapped at 64 bits. *)

From stdpp Require Import base gmap list numbers sorting.
From coqutil Require Import Byte Word.LittleEndianList Datatypes.RecordSettersUsingExistingGetters.
From S2P Require Import Prelude Codec Crc Protocol MsgrFrame MsgrMessage Control.
From stdpp Require Import list.
From S2P Require Import SessionTable.

Open Scope Z_scope.
Open Scope go_scope.

(** ** Data *)

Inductive SessionState :=
  | StateDisconnected | StateConnecting | StateReconnecting | StateReady | StateWait | StateStopped.

#[export] Instance state_eq_dec : EqDecision SessionState.
Proof. solve_decision. Defined.

Definition is_state (a b : SessionState) : bool := bool_decide (a = b).

Inductive ReconnectPolicy := FailPending | ReplayPending.

(** The kind of an event with the fields it sets; the session's state is added
    when it is emitted. *)
Inductive EventKind :=
  | EventStateChanged
  | EventSequenceGap (sequence expected : Z)
  | EventDuplicateDropped (sequence : Z)
  | EventAcknowledged (sequence : Z)
  | EventKeepaliveAck (time : Timestamp)
  | EventTransportFault (err : serror)
  | EventSessionReset (full : bool)
  | EventRetry (sequence : Z)
  | EventRetryGlobal (sequence : Z)
  | EventWait
  | EventReconnectOK (sequence : Z)
  | EventOverflow (dropped : Z)
  | EventCredentialRenewal.

Record SessionEvent := mkEvent { Kind : EventKind; ev_State : SessionState }.

Record SessionConfig := mkConfig {
  cfg_Limits : FrameLimits;
  cfg_Budgeted : bool;
  MaxQueuedReceiveBytes : Z;
  MaxQueuedMessages : Z;
  MaxRetainedBytes : Z;
  MaxInFlightTransactions : Z;
  MaxReconnectAttempts : Z;
  InitialReconnectBackoff : Z;
  MaxReconnectBackoff : Z;
  MaxHandshakeTransitions : Z;
  EventBuffer : Z;
  cfg_ReconnectPolicy : ReconnectPolicy;
  cfg_ClientIdent : ClientIdent;
  cfg_Observed : bool;
  cfg_ModeObserved : bool }.

(** A transport and what its optional methods return. *)
Record Transport := mkTransport {
  t_id : nat;
  AuthenticatedGlobalID : option Z;
  CredentialIdentity : option bytes;
  RenewalDue : bool }.

Record owner := mkOwner {
  config : SessionConfig;
  controlGen : Z;
  tab : table;
  receiveQueue : list SMessage;
  receiveBytes : Z;
  state : SessionState;
  transport : option Transport;
  transportDone : bool;
  generation : Z;
  writeTasks : bool;
  writeBusy : bool;
  nextWriteID : Z;
  controlQueue : list Frame;
  pendingAck : Z;
  ackTimerC : bool;
  nextOutbound : Z;
  sequenceExhausted : bool;
  lastInbound : Z;
  nextTID : Z;
  tidExhausted : bool;
  clientCookie : Z;
  serverCookie : Z;
  globalSeq : Z;
  connectSeq : Z;
  authenticatedGlobalID : Z;
  serverGlobalID : Z;
  serverAddresses : list EntityAddr;
  serverFeatures : Z;
  serverFlags : Z;
  connectedOnce : bool;
  reconnectAttempts : Z;
  transitions : Z;
  connectPending : bool;
  partialReset : bool;
  terminalErr : option serror;
  renewalPending : bool;
  renewalInProgress : bool;
  credentialKnown : bool;
  credentialChanged : bool;
  credentialID : bytes;
  droppedEvents : Z;
  reportedDrops : Z;
  events : list SessionEvent;
  resets : bool;
  incoming : list SMessage;
  terminal : option serror }.

Record world := mkWorld {
  ctx_err : nat -> option serror;
  source_Next : Z -> res Z;
  source_Cookie : res Z;
  lease_resize : option serror }.

Definition MaxControlMessages : Z := 16.
Definition MaxControlRetainedBytes : Z := Z.shiftl 1 20.
Definition MaxInt64 : Z := 2 ^ 63 - 1.
Definition MessageOSDBackoff : Z := 61.

(** ** Channels, events and diagnostics *)

Definition out (o : output) (s : owner) : owner := s <| tab ::= emitted o |>.

Definition outs (os : list output) (s : owner) : owner := foldl (fun s o => out o s) s os.

(** A table operation on behalf of the owner. *)
Definition on_table (f : table -> res table) (s : owner) : res owner :=
  t ← f (tab s); Ok (s <| tab := t |>).

Definition room (s : owner) : bool := len (events s) <? EventBuffer (config s).

Definition emit (kind : EventKind) (s : owner) : owner :=
  let s := if (reportedDrops s <? droppedEvents s) && room s
           then s <| events ::= fun l => l ++ [mkEvent (EventOverflow (droppedEvents s)) (state s)] |>
                  <| reportedDrops := droppedEvents s |>
           else s in
  if room s then s <| events ::= fun l => l ++ [mkEvent kind (state s)] |>
  else s <| droppedEvents ::= fun n => n + 1 |>.

Definition setState (new : SessionState) (s : owner) : owner :=
  if is_state (state s) new then s else emit EventStateChanged (s <| state := new |>).

Definition DiagnosticCredentialRenewalDue : Z := 1.
Definition DiagnosticCredentialRenewalCompleted : Z := 2.
Definition DiagnosticSessionClosed : Z := 3.

Definition emitDiagnostic (kind : Z) (s : owner) : owner :=
  if cfg_Observed (config s) then out (ODiagnostic kind (generation s)) s else s.

Definition observeTransportMode (t : Transport) (s : owner) : owner :=
  if cfg_ModeObserved (config s) then out (OMode (t_id t)) s else s.

Definition signalReset (s : owner) : owner := s <| resets := true |>.

Definition stopTransportRenewal (s : owner) : owner := s <| transportDone := false |>.

Definition release_receipt (r : received) : list output :=
  match r_lease r with Some lease => [OReleaseReceive lease] | None => [] end.

Definition releaseReceiveQueue (s : owner) : owner :=
  (outs (concat ((fun m => release_receipt (receiveLease m)) <$> receiveQueue s)) s)
    <| receiveQueue := [] |> <| receiveBytes := 0 |>.

Definition clearPendingAcknowledgment (s : owner) : owner := s <| ackTimerC := false |> <| pendingAck := 0 |>.

Definition invalidateControls (s : owner) : res owner :=
  on_table invalidate ((releaseReceiveQueue s) <| controlGen ::= fun n => n + 1 |>).

(** ** Sequence numbers *)

Definition nextGlobalSequence (w : world) (after : Z) : res Z :=
  next ← source_Next w after;
  if next <=? after then Err msgr_ErrMalformed else Ok next.

Definition allocateSequence (s : owner) : res Z * owner :=
  if sequenceExhausted s then (Err msgr_ErrTransitionLimit, s)
  else
    let sequence := if nextOutbound s =? 0 then 1 else nextOutbound s in
    (Ok sequence,
     if sequence =? MaxUint64 then s <| sequenceExhausted := true |> <| nextOutbound := 0 |>
     else s <| nextOutbound := sequence + 1 |>).

Fixpoint take_tid (fuel : nat) (s : owner) : res Z * owner :=
  if tidExhausted s then (Err msgr_ErrTransitionLimit, s)
  else
    match fuel with
    | O => (Panic, s)
    | S fuel =>
        let transactionID := if nextTID s =? 0 then 1 else nextTID s in
        let s := if transactionID =? MaxUint64 then s <| tidExhausted := true |> <| nextTID := 0 |>
                 else s <| nextTID := transactionID + 1 |> in
        if bool_decide (is_Some (byTID (tab s) !! transactionID)) then take_tid fuel s else (Ok transactionID, s)
    end.

(** Every number that is in use costs one turn of the loop. *)
Definition takeTID (s : owner) : res Z * owner := take_tid (S (size (byTID (tab s)))) s.

(** [min(InitialReconnectBackoff << steps, MaxReconnectBackoff)], without overflow. *)
Fixpoint double_backoff (steps : nat) (delay maximum : Z) : Z :=
  match steps with
  | O => Z.min delay maximum
  | S steps =>
      if delay <? maximum then
        if Z.quot maximum 2 <? delay then maximum else double_backoff steps (delay * 2) maximum
      else Z.min delay maximum
  end.

Definition nextReconnectBackoff (s : owner) : Z :=
  if negb (connectedOnce s) && (reconnectAttempts s =? 0) then 0
  else
    let steps := if negb (connectedOnce s) then reconnectAttempts s - 1 else reconnectAttempts s in
    double_backoff (Z.to_nat steps) (InitialReconnectBackoff (config s)) (MaxReconnectBackoff (config s)).

(** ** Faults and reconnection *)

(** The transport is closed and what was queued for it is dropped. *)
Definition drop_transport (s : owner) : owner :=
  let s := stopTransportRenewal s in
  let s := match transport s with Some t => (out (OClose (t_id t)) s) <| transport := None |> | None => s end in
  s <| writeTasks := false |> <| writeBusy := false |> <| controlQueue := [] |>.

Definition failTerminal (err : serror) (s : owner) : res owner :=
  let s := releaseReceiveQueue (clearPendingAcknowledgment s) in
  let s := out OCancelConnector (s <| generation ::= fun n => n + 1 |>) in
  s ← invalidateControls s;
  let s := s <| terminalErr := Some err |>
             <| terminal := match terminal s with None => Some err | Some e => Some e end |> in
  let s := drop_transport (emit (EventTransportFault err) s) in
  s ← on_table (failAll err) (s <| connectPending := false |>);
  Ok (setState StateDisconnected s).

Definition beginReconnect (s : owner) : res owner :=
  if (0 <? MaxReconnectAttempts (config s)) && (MaxReconnectAttempts (config s) <=? reconnectAttempts s)
  then failTerminal [msgr_ErrReconnectExhausted] s
  else
    let delay := nextReconnectBackoff s in
    let s := s <| reconnectAttempts ::= fun n => n + 1 |> <| connectPending := true |>
               <| generation ::= fun n => n + 1 |> in
    Ok (out (OConnect (generation s) delay) s).

Definition resetForNewIdentity (s : owner) : res owner :=
  let s := (clearPendingAcknowledgment s) <| serverCookie := 0 |> <| serverFlags := 0 |> <| connectSeq := 0 |>
    <| lastInbound := 0 |> <| nextOutbound := 1 |> <| sequenceExhausted := false |>
    <| nextTID := 1 |> <| tidExhausted := false |> in
  s ← on_table (failAll [msgr_ErrSessionDisconnected]) s;
  Ok (s <| partialReset := false |>).

(** What becomes of the pending requests when the transport is lost. *)
Definition settle_fault (err : serror) (s : owner) : res owner :=
  if negb (Z.land (serverFlags s) ConnectionFlagLossy =? 0) then
    s ← on_table (failSentUnknown err) s; resetForNewIdentity s
  else match cfg_ReconnectPolicy (config s) with
  | FailPending => on_table (failAll [msgr_ErrSessionDisconnected]) s
  | ReplayPending =>
      if serverCookie s =? 0 then on_table (failSentUnknown err) s
      else on_table prepareReplay s
  end.

Definition handleFault (err : serror) (s : owner) : res owner :=
  if bool_decide (is_Some (terminalErr s)) || is_state (state s) StateStopped
     || is_state (state s) StateDisconnected && connectPending s
  then Ok s
  else
    s ← invalidateControls (clearPendingAcknowledgment s);
    let s := drop_transport (signalReset (emit (EventTransportFault err) s)) in
    s ← settle_fault err s;
    beginReconnect (setState StateDisconnected s).

(** ** Control frames to send *)

Definition pending_ack_slot (s : owner) : Z := if pendingAck s =? 0 then 0 else 1.

Definition queueControl (payload : Control.control) (s : owner) : res owner :=
  match EncodeControl payload (cfg_Limits (config s)) with
  | Panic => Panic
  | Err e => handleFault [e] s
  | Ok frame =>
      if MaxQueuedMessages (config s) <=? len (controlQueue s) + pending_ack_slot s
      then handleFault [msgr_ErrQueueSaturated] s
      else Ok (s <| controlQueue ::= fun l => l ++ [frame] |>)
  end.

Definition flushPendingAcknowledgment (s : owner) : res owner :=
  let sequence := pendingAck s in
  let s := clearPendingAcknowledgment s in
  if negb (sequence =? 0) then queueControl (Ack sequence) s else Ok s.

Definition queueAcknowledgment (sequence : Z) (s : owner) : res owner :=
  if negb (is_state (state s) StateReady) then queueControl (Ack sequence) s
  else if negb (pendingAck s =? 0) then Ok (s <| pendingAck := sequence |>)
  else if MaxQueuedMessages (config s) <=? len (controlQueue s) then handleFault [msgr_ErrQueueSaturated] s
  else Ok (s <| pendingAck := sequence |> <| ackTimerC := true |>).

Definition queueClientIdent (s : owner) : res owner :=
  let i := cfg_ClientIdent (config s) in
  queueControl (CClientIdent (mkClientIdent (ci_Addresses i) (ci_TargetAddress i) (ci_GlobalID i) (globalSeq s)
    (ci_SupportedFeatures i) (ci_RequiredFeatures i) (ci_Flags i) (clientCookie s))) s.

Definition sendReconnect (s : owner) : res owner :=
  queueControl (CSessionReconnect (mkSessionReconnect (ci_Addresses (cfg_ClientIdent (config s)))
    (clientCookie s) (serverCookie s) (globalSeq s) (connectSeq s) (lastInbound s))) (s <| controlQueue := [] |>).

(** The error of the cookie source is reported as a lost session. *)
Definition refreshClientCookie (w : world) (s : owner) : option serror * owner :=
  match source_Cookie w with
  | Ok cookie => if cookie =? 0 then (Some [msgr_ErrMalformed], s) else (None, s <| clientCookie := cookie |>)
  | _ => (Some [msgr_ErrSessionDisconnected], s)
  end.

(** ** Commands *)

Definition retainedMessageBytes (m : Message) : Z := MessageHeaderSize + len (Front m) + len (Middle m) + len (m_Data m).

Definition admissionMessageBytes (m : Message) (limits : FrameLimits) : res Z :=
  frontLength ← checkedUint32Length (len (Front m));
  middleLength ← checkedUint32Length (len (Middle m));
  dataLength ← checkedUint32Length (len (m_Data m));
  if negb (bool_decide (Lengths m = mkLengths frontLength middleLength dataLength)) then Err msgr_ErrMalformed
  else if dataLength <? DataPrePaddingLength (Header m) then Err msgr_ErrMalformed
  else
    _ ← validateMessageSegments
          [mkSegment DefaultAlignment (zeros (Z.to_nat MessageHeaderSize)); mkSegment DefaultAlignment (Front m);
           mkSegment DefaultAlignment (Middle m); mkSegment PageAlignment (m_Data m)] limits;
    Ok (retainedMessageBytes m).

Definition validateControlMessage (m : Message) : option serror :=
  let h := Header m in
  if negb (MsgrMessage.Type_ h =? MessageOSDBackoff) || negb (Version h =? 1) || (1 <? CompatVersion h)
     || (len (Front m) <? 29) || negb (byte.unsigned (nth 28 (Front m) Byte.x00) =? 2)
     || negb (len (Middle m) =? 0) || negb (len (m_Data m) =? 0)
  then Some [msgr_ErrUnsupportedPayload] else None.

Definition set_tid (tid : Z) (m : SMessage) : SMessage :=
  let w := wire_message m in
  let h := Header w in
  m <| wire_message := mkMessage (mkHeader (Sequence h) tid (MsgrMessage.Type_ h) (Priority h) (Version h)
         (DataPrePaddingLength h) (DataOffset h) (AckSequence h) (Flags h) (CompatVersion h) (Reserved h))
         (Lengths w) (Front w) (Middle w) (m_Data w) |>.

Definition set_sequences (sequence ack : Z) (m : SMessage) : SMessage :=
  let w := wire_message m in
  let h := Header w in
  m <| wire_message := mkMessage (mkHeader sequence (TransactionID h) (MsgrMessage.Type_ h) (Priority h) (Version h)
         (DataPrePaddingLength h) (DataOffset h) ack (Flags h) (CompatVersion h) (Reserved h))
         (Lengths w) (Front w) (Middle w) (m_Data w) |>.

(** [len(owner.pending) - owner.controlCount >= MaxQueuedMessages || ...] *)
Definition saturated (command : submitCommand) (messageBytes : Z) (s : owner) : bool :=
  let t := tab s in
  if control command then
    (MaxControlMessages <=? controlCount t) || (MaxControlRetainedBytes <? controlBytes t)
    || (MaxControlRetainedBytes - controlBytes t <? messageBytes)
  else
    (MaxQueuedMessages (config s) <=? len (slots (pending t)) - controlCount t)
    || (MaxRetainedBytes (config s) <? retainedBytes t) || (MaxRetainedBytes (config s) - retainedBytes t <? messageBytes).

(** The admission of a command, or the error it is refused with. *)
Definition accept (w : world) (command : submitCommand) (s : owner) : res (option serror * owner) :=
  let m := wire_message (command_message command) in
  if negb (controlGeneration command =? 0) && negb (controlGeneration command =? controlGen s)
  then Ok (Some [msgr_ErrControlInvalidated], s)
  else match ctx_err w (command_id command) with
  | Some err => Ok (Some err, s)
  | None =>
  match terminalErr s with
  | Some err => Ok (Some err, s)
  | None =>
  match (if control command then validateControlMessage m else None) with
  | Some err => Ok (Some err, s)
  | None =>
  match admissionMessageBytes m (cfg_Limits (config s)) with
  | Panic => Panic
  | Err e => Ok (Some [e], s)
  | Ok messageBytes =>
      if saturated command messageBytes s then Ok (Some [msgr_ErrQueueSaturated], s)
      else
        let message := (command_message command) <| transferred := false |> in
        let message := if transferred (command_message command) then message else message <| receiveLease := no_receipt |> in
        if TransactionID (Header m) =? 0 then
          match takeTID s with
          | (Ok transactionID, s) =>
              s ← on_table (register command (set_tid transactionID message) messageBytes) s; Ok (None, s)
          | (Err e, s) => s ← failTerminal [e] s; Ok (Some [e], s)
          | (Panic, _) => Panic
          end
        else if bool_decide (is_Some (byTID (tab s) !! TransactionID (Header m))) then Ok (Some [msgr_ErrMalformed], s)
        else s ← on_table (register command message messageBytes) s; Ok (None, s)
  end end end end.

Definition submit (w : world) (command : submitCommand) (s : owner) : res owner :=
  '(refused, s) ← accept w command s;
  let s := match refused with Some err => out (OResult (command_id command) (failed err)) s | None => s end in
  let s := if registered command then out (ORegistered (command_id command)) s else s in
  Ok (out (OAdmitted (command_id command)) s).

Definition cancel_entry (err : serror) (p : nat) (t : table) : res table :=
  n ← deref p t;
  finish p (failed (if mayHaveExecuted (body n) then unknown err else err)) t.

Definition cancel (request : nat) (err : serror) (s : owner) : res owner :=
  match byRequest (tab s) !! request with
  | None => Ok s
  | Some p => on_table (cancel_entry err p) s
  end.

(** ** Writing *)

Definition sendWrite (frame : Frame) (request : option nat) (sequence transactionID : Z) (s : owner) : owner :=
  let s := s <| nextWriteID ::= fun n => n + 1 |> <| writeBusy := true |> in
  out (OWrite (generation s) (nextWriteID s) frame request sequence transactionID) s.

(** [pending.seq], [pending.message.Header] *)
Definition number_entry (sequence ack : Z) (p : nat) (t : table) : res table :=
  update p (fun n => n <| body ::= fun e => e <| seq := sequence |> <| message ::= set_sequences sequence ack |> |>) t.

Definition mark_sent (p : nat) (t : table) : res table :=
  n ← deref p t;
  let t := if negb (control (request (body n))) then t <| inFlight ::= fun k => k + 1 |> else t in
  t ← update p (fun n => n <| body ::= fun e => e <| sent := true |> <| mayHaveExecuted := true |> |>) t;
  t ← addReplay p t;
  Ok (match payloadLease (message (body n)) with Some lease => emitted (ORetain lease) t | None => t end).

(** The request gets its number, is encoded and handed to the writer. *)
Definition send_entry (p : nat) (s : owner) : res owner :=
  n ← deref p (tab s);
  let e := body n in
  '(sequence, s) ← (if seq e =? 0 then
                      match allocateSequence s with
                      | (Ok sequence, s) => Ok (Some sequence, s)
                      | (Err err, s) => s ← failTerminal [err] s; Ok (None, s)
                      | (Panic, _) => Panic
                      end
                    else Ok (Some (seq e), s));
  match sequence with
  | None => Ok s
  | Some sequence =>
      s ← on_table (number_entry sequence (lastInbound s) p) s;
      match encodeMessage (wire_message (set_sequences sequence (lastInbound s) (message e))) (cfg_Limits (config s)) with
      | Panic => Panic
      | Err err => on_table (finish p (failed [err])) s
      | Ok frame =>
          s ← on_table (mark_sent p) (clearPendingAcknowledgment s);
          Ok (sendWrite frame (Some (command_id (request e))) sequence (transaction e) s)
      end
  end.

Definition dispatch_pending (w : world) (s : owner) : res owner :=
  p ← nextPendingWrite (tab s);
  e ← match p with None => Ok None | Some p => n ← deref p (tab s); Ok (Some (p, body n)) end;
  if renewalPending s && match e with Some (_, e) => negb (control (request e)) | None => true end then
    if inFlight (tab s) =? 0 then handleFault [msgr_ErrSessionRenewal] (s <| renewalPending := false |>) else Ok s
  else match e with
  | None => Ok s
  | Some (p, e) =>
      let r := request e in
      if negb (controlGeneration r =? 0) && negb (controlGeneration r =? controlGen s)
      then on_table (finish p (failed [msgr_ErrControlInvalidated])) s
      else if negb (control r) && (MaxInFlightTransactions (config s) <=? inFlight (tab s)) then Ok s
      else match ctx_err w (command_id r) with
      | Some err =>
          if control r then cancel (command_id r) err s else on_table (finish p (failed err)) s
      | None => send_entry p s
      end
  end.

Definition dispatch (w : world) (s : owner) : res owner :=
  if writeBusy s || negb (writeTasks s) || is_state (state s) StateDisconnected || is_state (state s) StateWait
     || is_state (state s) StateStopped
  then Ok s
  else
    s ← (if renewalPending s && negb (pendingAck s =? 0) && (inFlight (tab s) =? 0)
         then flushPendingAcknowledgment s else Ok s);
    match controlQueue s with
    | frame :: queue => Ok (sendWrite frame None 0 0 (s <| controlQueue := queue |>))
    | [] => if negb (is_state (state s) StateReady) then Ok s else dispatch_pending w s
    end.

(** ** Received messages *)

Definition acceptAcknowledgment (sequence : Z) (s : owner) : res (bool * owner) :=
  if negb (sequenceExhausted s) && (nextOutbound s <=? sequence) && negb (sequence =? 0)
  then s ← handleFault [msgr_ErrMalformed] s; Ok (false, s)
  else Ok (true, s).

Definition receiveMessageBytes (m : SMessage) : Z := r_bytes (receiveLease m).

(** A message that is not the reply to a pending request: it is queued for the
    consumer, or the session ends. *)
Definition deliver_unsolicited (m : SMessage) (s : owner) : res owner :=
  if cfg_Budgeted (config s) || negb (MaxQueuedReceiveBytes (config s) =? 0) then
    let bytes := receiveMessageBytes m in
    let limit := MaxQueuedReceiveBytes (config s) in
    if (MaxQueuedMessages (config s) <=? len (receiveQueue s))
       || negb (limit =? 0) && ((limit <? receiveBytes s) || (limit - receiveBytes s <? bytes))
    then s ← failTerminal [msgr_ErrQueueSaturated] s; Ok (outs (release_receipt (receiveLease m)) s)
    else Ok (s <| receiveQueue ::= fun l => l ++ [m] |> <| receiveBytes ::= fun n => u64 (n + bytes) |>)
  else if len (incoming s) <? MaxQueuedMessages (config s)
  then Ok (outs (release_receipt (receiveLease m)) (s <| incoming ::= fun l => l ++ [m] |>))
  else s ← failTerminal [msgr_ErrQueueSaturated] s; Ok (outs (release_receipt (receiveLease m)) s).

Definition handleMessage (m : SMessage) (s : owner) : res owner :=
  let h := Header (wire_message m) in
  let released := outs (release_receipt (receiveLease m)) in
  let transportGeneration := controlGen s in
  '(accepted, s) ← acceptAcknowledgment (AckSequence h) s;
  if negb accepted then Ok (released s)
  else
    let sequence := Sequence h in
    if sequence <=? lastInbound s then Ok (released (emit (EventDuplicateDropped sequence) s))
    else
      let s := if negb (lastInbound s =? MaxUint64) && negb (sequence =? lastInbound s + 1)
               then emit (EventSequenceGap sequence (lastInbound s + 1)) s else s in
      let s := s <| lastInbound := sequence |> in
      s ← on_table (trimReplay (AckSequence h)) s;
      match byTID (tab s) !! TransactionID h with
      | Some p =>
          n ← deref p (tab s);
          if negb (control (request (body n))) then
            s ← on_table (finish p (mkResult (Some m) None)) s;
            queueAcknowledgment sequence s
          else
            s ← queueAcknowledgment sequence s;
            if negb (controlGen s =? transportGeneration) then Ok (released s)
            else deliver_unsolicited (m <| TransportGeneration := transportGeneration |>) s
      | None =>
          s ← queueAcknowledgment sequence s;
          if negb (controlGen s =? transportGeneration) then Ok (released s)
          else deliver_unsolicited (m <| TransportGeneration := transportGeneration |>) s
      end.

(** ** Control frames received *)

Definition completeRenewal (s : owner) : owner :=
  if negb (renewalInProgress s) || negb (credentialChanged s) then s
  else emitDiagnostic DiagnosticCredentialRenewalCompleted
         (s <| renewalInProgress := false |> <| credentialChanged := false |>).

Definition readyControl (s : owner) : res (bool * owner) :=
  if is_state (state s) StateReady then Ok (true, s)
  else s ← handleFault [msgr_ErrMalformed] s; Ok (false, s).

Definition transitionAllowed (want : SessionState) (s : owner) : res (bool * owner) :=
  if negb (is_state (state s) want) then s ← handleFault [msgr_ErrMalformed] s; Ok (false, s)
  else
    let s := s <| transitions ::= fun n => n + 1 |> in
    if MaxHandshakeTransitions (config s) <? transitions s
    then s ← handleFault [msgr_ErrTransitionLimit] s; Ok (false, s)
    else Ok (true, s).

(** Both kinds of reset: the server has forgotten the session. *)
Definition note_reset (full : bool) (s : owner) : owner :=
  (signalReset (emit (EventSessionReset full) s)) <| serverCookie := 0 |> <| serverFlags := 0 |>
    <| connectSeq := 0 |> <| lastInbound := 0 |>.

(** A full reset ends every request and starts the numbers again. *)
Definition full_reset (s : owner) : res owner :=
  let s := s <| nextOutbound := 1 |> <| sequenceExhausted := false |> <| nextTID := 1 |> <| tidExhausted := false |> in
  s ← on_table (failAll [msgr_ErrSessionDisconnected]) s;
  Ok (s <| tab ::= fun t => t <| replay ::= fun l => l <| slots := [] |> |> <| retainedBytes := 0 |> |>
        <| partialReset := false |>).

Definition handleReset (w : world) (full : bool) (s : owner) : res owner :=
  s ← invalidateControls (clearPendingAcknowledgment s);
  let s := note_reset full s in
  if full then
    match refreshClientCookie w s with
    | (Some err, s) => failTerminal err s
    | (None, s) =>
        s ← full_reset s;
        queueClientIdent (setState StateConnecting s)
    end
  else
    s ← on_table prepareReplay (s <| partialReset := true |>);
    queueClientIdent (setState StateConnecting s).

Definition containsEntityEndpoint (addresses : list EntityAddr) (target : EntityAddr) : bool :=
  match EntityAddr_AddrPort target with
  | None => false
  | Some endpoint =>
      existsb (fun a => match EntityAddr_AddrPort a with
                        | Some e => bool_decide (e = endpoint)
                        | None => false
                        end) addresses
  end.

Definition adopt_server (value : ServerIdent) (s : owner) : owner :=
  s <| serverCookie := si_Cookie value |> <| serverGlobalID := si_GlobalID value |>
    <| serverAddresses := si_Addresses value |> <| serverFeatures := si_SupportedFeatures value |>
    <| serverFlags := si_Flags value |> <| partialReset := false |> <| reconnectAttempts := 0 |>.

Definition count_transition (s : owner) : owner := s <| transitions ::= fun n => n + 1 |>.

(** A server whose features, required features and addresses fit. *)
Definition handleServerIdent (value : ServerIdent) (s : owner) : res owner :=
  if negb (is_state (state s) StateConnecting) then handleFault [msgr_ErrMalformed] s
  else
    let s := count_transition s in
    let client := cfg_ClientIdent (config s) in
    if MaxHandshakeTransitions (config s) <? transitions s then handleFault [msgr_ErrTransitionLimit] s
    else if negb (Z.ldiff (si_RequiredFeatures value) (ci_SupportedFeatures client) =? 0)
    then failTerminal [msgr_ErrUnsupportedFeature] s
    else if negb (Z.ldiff (ci_RequiredFeatures client) (si_SupportedFeatures value) =? 0)
    then failTerminal [msgr_ErrUnsupportedFeature] s
    else if negb (containsEntityEndpoint (si_Addresses value) (ci_TargetAddress client))
    then handleFault [msgr_ErrMalformed] s
    else
      s ← on_table (failSentUnknown [msgr_ErrSessionDisconnected]) (adopt_server value s);
      Ok (completeRenewal (setState StateReady s)).

Definition handleReconnectOK (sequence : Z) (s : owner) : res owner :=
  '(accepted, s) ← acceptAcknowledgment sequence s;
  if negb accepted then Ok s
  else
    s ← on_table (trimReplay sequence) s;
    s ← on_table prepareReplay s;
    let s := setState StateReady (s <| partialReset := false |> <| reconnectAttempts := 0 |>) in
    Ok (completeRenewal (emit (EventReconnectOK sequence) s)).

(** [if !guard { return }; ...] *)
Definition guarded (guard : owner -> res (bool * owner)) (k : owner -> res owner) (s : owner) : res owner :=
  '(allowed, s) ← guard s;
  if negb allowed then Ok s else k s.

Definition handleControl (w : world) (payload : Control.control) (s : owner) : res owner :=
  match payload with
  | Ack sequence =>
      guarded readyControl (guarded (acceptAcknowledgment sequence) (fun s =>
        s ← on_table (trimReplay sequence) s;
        Ok (emit (EventAcknowledged sequence) s))) s
  | Keepalive2 time => guarded readyControl (queueControl (Keepalive2Ack time)) s
  | Keepalive2Ack time => guarded readyControl (fun s => Ok (emit (EventKeepaliveAck time) s)) s
  | SessionReset full => guarded (transitionAllowed StateReconnecting) (handleReset w full) s
  | SessionRetry sequence =>
      guarded (transitionAllowed StateReconnecting) (fun s =>
        if sequence =? MaxUint64 then failTerminal [msgr_ErrTransitionLimit] s
        else let s := s <| connectSeq := sequence + 1 |> in sendReconnect (emit (EventRetry (connectSeq s)) s)) s
  | SessionRetryGlobal sequence =>
      guarded (transitionAllowed StateReconnecting) (fun s =>
        match nextGlobalSequence w (Z.max (globalSeq s) sequence) with
        | Ok next => let s := s <| globalSeq := next |> in sendReconnect (emit (EventRetryGlobal (globalSeq s)) s)
        | _ => failTerminal [msgr_ErrTransitionLimit] s
        end) s
  | Wait =>
      if negb (is_state (state s) StateConnecting) && negb (is_state (state s) StateReconnecting)
      then handleFault [msgr_ErrMalformed] s
      else
        let s := setState StateWait (s <| transitions ::= fun n => n + 1 |>) in
        handleFault [msgr_ErrSessionDisconnected] (emit EventWait s)
  | SessionReconnectOK sequence => guarded (transitionAllowed StateReconnecting) (handleReconnectOK sequence) s
  | CServerIdent value => handleServerIdent value s
  | IdentMissingFeatures _ => failTerminal [msgr_ErrUnsupportedPayload] s
  | _ => handleFault [msgr_ErrUnsupportedPayload] s
  end.

Definition auth_tag (tag : Z) : bool :=
  existsb (Z.eqb tag) [TagAuthRequest; TagAuthReplyMore; TagAuthRequestMore; TagAuthDone; TagAuthSignature].

Definition handleFrame (w : world) (frame : Frame) (receipt : received) (s : owner) : res owner :=
  let limits := cfg_Limits (config s) in
  let release (s : owner) := Ok (outs (release_receipt receipt) s) in
  if Tag frame =? TagMessage then
    if negb (is_state (state s) StateReady) then s ← handleFault [msgr_ErrMalformed] s; release s
    else match decodeMessage frame limits with
    | Panic => Panic
    | Err e => s ← handleFault [e] s; release s
    | Ok m => handleMessage (mkSMessage m 0 receipt false None) s
    end
  else
    match (if bool_decide (is_Some (r_lease receipt)) && auth_tag (Tag frame) then lease_resize w else None) with
    | Some err => s ← failTerminal err s; release s
    | None =>
        match DecodeControl frame limits with
        | Panic => Panic
        | Err e => s ← handleFault [e] s; release s
        | Ok payload => s ← handleControl w payload s; release s
        end
    end.

(** ** Connections *)

Definition startTransport (t : Transport) (new : SessionState) (s : owner) : owner :=
  let s := (stopTransportRenewal s) <| transport := Some t |> <| generation ::= fun n => n + 1 |>
             <| writeTasks := true |> <| transportDone := true |> in
  setState new s.

(** The session continues on the new transport, or introduces itself again. *)
Definition resume (w : world) (t : Transport) (s : owner) : res owner :=
  if negb (serverCookie s =? 0) then
    if connectSeq s =? MaxUint64 then failTerminal [msgr_ErrTransitionLimit] (out (OClose (t_id t)) s)
    else sendReconnect (startTransport t StateReconnecting (s <| connectSeq ::= fun n => n + 1 |>))
  else
    match refreshClientCookie w s with
    | (Some err, s) => failTerminal err (out (OClose (t_id t)) s)
    | (None, s) => queueClientIdent (startTransport t StateConnecting (s <| connectSeq := 0 |>))
    end.

Definition note_credential (t : Transport) (s : owner) : owner :=
  match CredentialIdentity t with
  | None => s <| credentialChanged := true |>
  | Some id => s <| credentialChanged := negb (credentialKnown s) || negb (bool_decide (id = credentialID s)) |>
                 <| credentialID := id |> <| credentialKnown := true |>
  end.

Definition set_client_id (id : Z) (c : SessionConfig) : SessionConfig :=
  c <| cfg_ClientIdent ::= fun i => i <| ci_GlobalID := id |> |>.

Definition connected (w : world) (t : Transport) (s : owner) : res owner :=
  let s := s <| terminalErr := None |> <| transitions := 0 |> in
  let next := if connectedOnce s then nextGlobalSequence w (globalSeq s) else Ok (globalSeq s) in
  match next with
  | Ok next =>
      let s := observeTransportMode t (s <| globalSeq := next |> <| connectedOnce := true |>) in
      match AuthenticatedGlobalID t with
      | Some id =>
          if MaxInt64 <? id then failTerminal [msgr_ErrMalformed] (out (OClose (t_id t)) s)
          else
            let identityChanged := negb (authenticatedGlobalID s =? 0) && negb (authenticatedGlobalID s =? id) in
            let s := note_credential t (s <| config ::= set_client_id id |> <| authenticatedGlobalID := id |>) in
            s ← (if identityChanged then resetForNewIdentity s else Ok s);
            resume w t s
      | None => resume w t (note_credential t s)
      end
  | _ => failTerminal [msgr_ErrTransitionLimit] (out (OClose (t_id t)) s)
  end.

Definition handleConnected (w : world) (gen : Z) (t : option Transport) (err : option serror) (s : owner) : res owner :=
  if negb (gen =? generation s) || negb (connectPending s)
  then Ok (match t with Some t => out (OClose (t_id t)) s | None => s end)
  else
    let s := s <| connectPending := false |> in
    match err, t with
    | None, Some t => connected w t s
    | Some err, _ => beginReconnect (emit (EventTransportFault err) s)
    | None, None => beginReconnect (emit (EventTransportFault [msgr_ErrSessionDisconnected]) s)
    end.

(** ** The loop *)

Definition stop (drained : list received) (s : owner) : res owner :=
  s ← invalidateControls s;
  let s := setState StateStopped s in
  let s := if renewalInProgress s then emitDiagnostic DiagnosticSessionClosed s else s in
  s ← on_table (failAll [msgr_ErrSessionClosed]) s;
  let s := stopTransportRenewal (out OCancelConnector s) in
  let s := match transport s with Some t => out (OClose (t_id t)) s | None => s end in
  let s := releaseReceiveQueue (outs (concat (release_receipt <$> drained)) s) in
  Ok (clearPendingAcknowledgment (out OStopped (s <| transport := None |>))).

(** What a caller is told about the session. *)
Record SessionSnapshot := mkSnapshot {
  sn_State : SessionState;
  sn_AuthenticatedGlobalID : Z;
  sn_ServerGlobalID : Z;
  sn_ServerAddresses : list EntityAddr;
  sn_ServerFeatures : Z;
  sn_ServerFlags : Z;
  sn_NextOutboundSequence : Z;
  sn_LastInboundSequence : Z;
  sn_NextTransactionID : Z;
  sn_ClientCookie : Z;
  sn_ServerCookie : Z;
  sn_GlobalSequence : Z;
  sn_ConnectSequence : Z;
  sn_Queued : Z;
  sn_InFlight : Z;
  sn_Replay : Z;
  sn_RetainedBytes : Z;
  sn_QueuedReceiveMessages : Z;
  sn_RetainedReceiveBytes : Z;
  sn_ControlQueued : Z;
  sn_ControlRetainedBytes : Z;
  sn_ReconnectAttempts : Z;
  sn_HandshakeTransitions : Z;
  sn_DroppedEvents : Z }.

Definition count_queued (t : table) (p : nat) (queued : Z) : res Z :=
  n ← deref p t;
  Ok (if negb (sent (body n)) && negb (control (request (body n))) then queued + 1 else queued).

Definition snapshot (s : owner) : res SessionSnapshot :=
  queued ← fold_res (count_queued (tab s)) (slots (pending (tab s))) 0;
  Ok (mkSnapshot (state s) (authenticatedGlobalID s) (serverGlobalID s) (serverAddresses s) (serverFeatures s)
        (serverFlags s) (nextOutbound s) (lastInbound s) (nextTID s) (clientCookie s) (serverCookie s) (globalSeq s)
        (connectSeq s) queued (inFlight (tab s)) (len (slots (replay (tab s)))) (retainedBytes (tab s))
        (len (receiveQueue s)) (receiveBytes s) (controlCount (tab s)) (controlBytes (tab s)) (reconnectAttempts s)
        (transitions s) (droppedEvents s)).

(** What the select statement of [run] receives. *)
Inductive input :=
  | InDeliver
  | InSubmit (command : submitCommand)
  | InCancel (request : nat) (err : serror)
  | InSnapshot
  | InFrame (gen : Z) (frame : Frame) (receipt : received)
  | InFrameError (gen : Z) (err : serror) (receipt : received)
  | InWritten (gen : Z) (request : option nat) (err : option serror)
  | InFault (gen : Z) (err : serror)
  | InRenewal (gen : Z)
  | InConnected (gen : Z) (t : option Transport) (err : option serror)
  | InAckTimer
  | InStop (drained : list received).

Definition deliver_queued (s : owner) : res owner :=
  match receiveQueue s with
  | [] => Ok s
  | queued :: rest =>
      let s := out (OIncoming (queued <| receiveLease := no_receipt |>)) s in
      Ok ((outs (release_receipt (receiveLease queued)) (s <| receiveBytes ::= fun n => u64 (n - receiveMessageBytes queued) |>))
            <| receiveQueue := rest |>)
  end.

Definition handleWritten (request : option nat) (err : option serror) (s : owner) : res owner :=
  let s := s <| writeBusy := false |> in
  match err, request with
  | Some err, _ => handleFault err s
  | None, None => Ok s
  | None, Some r =>
      match byRequest (tab s) !! r with
      | None => Ok s
      | Some p =>
          n ← deref p (tab s);
          if oneWay (SessionTable.request (body n)) then on_table (finish p (mkResult None None)) s else Ok s
      end
  end.

Definition handleRenewal (s : owner) : owner :=
  let s := s <| renewalPending := true |> in
  if renewalInProgress s then s
  else emitDiagnostic DiagnosticCredentialRenewalDue (emit EventCredentialRenewal (s <| renewalInProgress := true |>)).

Definition current (gen : Z) (s : owner) : bool := gen =? generation s.

Definition receive (w : world) (i : input) (s : owner) : res owner :=
  match i with
  | InDeliver => deliver_queued s
  | InSubmit command => submit w command s
  | InCancel request err => cancel request err s
  | InSnapshot => _ ← snapshot s; Ok s
  | InFrame gen frame receipt =>
      if current gen s && negb (bool_decide (is_Some (terminalErr s))) then handleFrame w frame receipt s
      else Ok (outs (release_receipt receipt) s)
  | InFrameError gen err receipt =>
      if current gen s && negb (bool_decide (is_Some (terminalErr s))) then
        if Is err msgr_ErrReceiveBudgetExceeded then failTerminal err s else handleFault err s
      else Ok (outs (release_receipt receipt) s)
  | InWritten gen request err => if current gen s then handleWritten request err s else Ok s
  | InFault gen err => if current gen s then handleFault err s else Ok s
  | InRenewal gen => Ok (if current gen s then handleRenewal s else s)
  | InConnected gen t err => handleConnected w gen t err s
  | InAckTimer => if ackTimerC s then flushPendingAcknowledgment s else Ok s
  | InStop drained => stop drained s
  end.

(** One turn of the loop. *)
Definition turn (w : world) (i : input) (s : owner) : res owner :=
  s ← dispatch w s; receive w i s.

(** The start of [run]. *)
Definition start (s : owner) : res owner :=
  match transport s with
  | Some t => Ok (startTransport t StateReady s)
  | None => beginReconnect s
  end.

(** ** Creating a session *)

(** The configuration a caller passes: the fields that are read only here, and
    what the source of session identities returns. *)
Record SessionOptions := mkOptions {
  o_Config : SessionConfig;
  o_ClientCookie : Z;
  o_ServerCookie : Z;
  o_GlobalSequence : Z;
  o_ConnectSequence : Z;
  o_DiagnosticService : bytes;
  o_DiagnosticSessionID : Z;
  o_DiagnosticSessionIDSource : option Z }.

Definition defaultInitialReconnectBackoff : Z := 200 * 1000000.
Definition defaultMaxReconnectBackoff : Z := 15 * 1000000000.

Definition with_defaults (c : SessionConfig) : SessionConfig :=
  let c := if InitialReconnectBackoff c =? 0 then c <| InitialReconnectBackoff := defaultInitialReconnectBackoff |> else c in
  if MaxReconnectBackoff c =? 0 then c <| MaxReconnectBackoff := defaultMaxReconnectBackoff |> else c.

Definition diagnostic_id (o : SessionOptions) : Z :=
  match o_DiagnosticSessionIDSource o with
  | Some id => if cfg_Observed (o_Config o) then id else o_DiagnosticSessionID o
  | None => o_DiagnosticSessionID o
  end.

Definition validate_options (o : SessionOptions) : res SessionConfig :=
  let c := o_Config o in
  if (MaxQueuedMessages c <=? 0) || (MaxRetainedBytes c =? 0) || (MaxInFlightTransactions c <=? 0) then Err msgr_ErrQueueSaturated
  else if (MaxReconnectAttempts c <? 0) || (InitialReconnectBackoff c <? 0) || (MaxReconnectBackoff c <? 0)
          || (MaxHandshakeTransitions c <=? 0) || (EventBuffer c <? 0) then Err msgr_ErrMalformed
  else
    let c := with_defaults c in
    if MaxReconnectBackoff c <? InitialReconnectBackoff c then Err msgr_ErrMalformed
    else if (MaxSegmentBytes (cfg_Limits c) =? 0) || (MaxFrameBytes (cfg_Limits c) =? 0) then Err msgr_ErrMalformed
    else if cfg_Observed c && (bool_decide (o_DiagnosticService o = []) || (diagnostic_id o =? 0)) then Err msgr_ErrMalformed
    else if negb (o_GlobalSequence o =? 0) && negb (ci_GlobalSequence (cfg_ClientIdent c) =? 0)
            && negb (o_GlobalSequence o =? ci_GlobalSequence (cfg_ClientIdent c)) then Err msgr_ErrMalformed
    else Ok c.

Definition new_owner (c : SessionConfig) (o : SessionOptions) (t : option Transport) (globalSequence : Z) : owner :=
  let id := match t with Some t => CredentialIdentity t | None => None end in
  mkOwner (c <| cfg_ClientIdent ::= fun i => i <| ci_GlobalSequence := globalSequence |> |>)
    1 empty_table [] 0 StateDisconnected t false 0 false false 0 [] 0 false
    1 false 0 1 false (o_ClientCookie o) (o_ServerCookie o) globalSequence (o_ConnectSequence o)
    0 0 [] 0 0 (bool_decide (is_Some t)) 0 0 false false None false false
    (bool_decide (is_Some id)) false (default [] id) 0 0 [] false [] None.

(** [admitted] is what [ReceiveBudget.admit] returns. *)
Definition NewSession (w : world) (admitted : res unit) (t : option Transport) (o : SessionOptions) : res owner :=
  c ← validate_options o;
  let sequence := if o_GlobalSequence o =? 0 then ci_GlobalSequence (cfg_ClientIdent c) else o_GlobalSequence o in
  let minimumAfter := if 0 <? sequence then sequence - 1 else 0 in
  next ← nextGlobalSequence w minimumAfter;
  _ ← admitted;
  let s := new_owner c o t next in
  Ok (match t with Some t => observeTransportMode t s | None => s end).
