(* ===== verification/SessionInv.v ===== *)
(** * The invariant of a session

    [core_ok] relates the request table to the sequence numbers, the writes so
    far and the configured limits; [link_ok] is the state machine of the
    connection.  Every turn of the loop keeps both, from any input, and none
    panics.  The table operations enter only through [shrinks]. *)

From stdpp Require Import base gmap list numbers sorting.
From coqutil Require Import Byte Word.LittleEndianList Datatypes.RecordSettersUsingExistingGetters.
From S2P Require Import Prelude Codec Crc Protocol MsgrFrame MsgrMessage Control.
From stdpp Require Import list.
From S2P Require Import SessionTable Session.

Open Scope Z_scope.
Open Scope go_scope.

(** ** What the writer was given *)

(** The sequence numbers of the messages written on one transport. *)
Definition written_of (g : Z) (o : output) : option Z :=
  match o with
  | OWrite gen _ _ (Some _) sequence _ => if gen =? g then Some sequence else None
  | _ => None
  end.

Definition written (g : Z) (os : list output) : list Z := omap (written_of g) os.

Lemma written_app g a b : written g (a ++ b) = written g a ++ written g b.
Proof. apply omap_app. Qed.

(** Outputs that are neither results nor messages. *)
Definition quiet (o : output) : Prop := result_of o = None /\ forall g, written_of g o = None.

Lemma only_written P os g : only P os -> written g os = [].
Proof. induction 1 as [|o os Ho Hos IH]; [done|]. cbn. destruct o; try done; exact IH. Qed.

(** ** Operations that only end requests

    [strict]: they do not call requests back either. *)

Record shrinks (strict : bool) (t : table) (L : list nat) (t' : table) (L' : list nat) : Prop := {
  sh_sub : L' `sublist_of` L;
  sh_entries : forall p (n' : pendingRequest), p ∈ L' -> nodes t' !! p = Some n' -> exists n : pendingRequest,
    nodes t !! p = Some n /\ request n' = request n /\ seq n' = seq n /\ p_bytes n' = p_bytes n /\
    (if strict then sent n' = sent n else sent n' = true -> sent n = true);
  sh_written : forall g, written g (trace t') = written g (trace t) }.

Lemma shrinks_agree strict t L t' L' : L' `sublist_of` L -> agree L' (nodes t) (nodes t') ->
  (forall g, written g (trace t') = written g (trace t)) -> shrinks strict t L t' L'.
Proof.
  intros Hs Ag Hw. split; auto. intros p n' Hp Hn'.
  destruct (agree_lookup _ _ _ _ _ (agree_sym _ _ _ Ag) Hp Hn') as (n & Hn & E). exists n.
  rewrite E. split_and!; auto. by destruct strict.
Qed.

Lemma shrinks_trans strict t1 L1 t2 L2 t3 L3 :
  shrinks strict t1 L1 t2 L2 -> shrinks strict t2 L2 t3 L3 -> shrinks strict t1 L1 t3 L3.
Proof.
  intros [S1 E1 W1] [S2 E2 W2]. split.
  - by etrans.
  - intros p n3 Hp Hn3. destruct (E2 p n3 Hp Hn3) as (n2 & Hn2 & R2 & Q2 & B2 & T2).
    assert (p ∈ L2) as Hp2 by by apply (sublist_subseteq _ _ S2).
    destruct (E1 p n2 Hp2 Hn2) as (n1 & Hn1 & R1 & Q1 & B1 & T1). exists n1. split_and!; try congruence.
    destruct strict; [congruence|auto].
  - intros g. by rewrite W2, W1.
Qed.

Lemma shrinks_weaken t L t' L' : shrinks true t L t' L' -> shrinks false t L t' L'.
Proof.
  intros [S E W]. split; auto. intros p n' Hp Hn'. destruct (E p n' Hp Hn') as (n & ? & ? & ? & ? & Hs).
  exists n. split_and!; auto. congruence.
Qed.

Lemma rm_sublist p L : rm p L `sublist_of` L.
Proof. apply sublist_filter. Qed.

Lemma kept_sublist keep ns L : kept keep ns L `sublist_of` L.
Proof. apply sublist_filter. Qed.

(** [ends strict f]: from any good table, [f] ends some of the requests. *)
Definition ends (strict : bool) (A : list nat) (f : table -> res table) : Prop := forall t L R, table_ok A t L R ->
  exists t' L' R', f t = Ok t' /\ table_ok A t' L' R' /\ shrinks strict t L t' L'.

Lemma written_released g e : written g (released e) = [].
Proof. unfold released. by destruct (payloadLease _). Qed.

Lemma finish_shrinks A t L R p result : table_ok A t L R -> p ∈ L ->
  exists t', finish p result t = Ok t' /\ table_ok A t' (rm p L) (rm p R) /\ shrinks true t L t' (rm p L).
Proof.
  intros H Hp. destruct (ok_lookup _ _ _ _ _ H Hp) as [n Hn].
  destruct (finish_entry_ok A t L R p n result H Hp Hn) as (t' & E & H' & Ag & _ & Tr).
  exists t'. split_and!; auto. apply shrinks_agree; [apply rm_sublist|done|].
  intros g. rewrite Tr, !written_app, written_released. cbn. by rewrite app_nil_r.
Qed.

Lemma trimReplay_ends A sequence : ends true A (trimReplay sequence).
Proof.
  intros t L R H. destruct (trimReplay_ok A t L R sequence H) as (t' & E & H' & Ag & Tr).
  exists t'. eexists _, _. split_and!; eauto. apply shrinks_agree; [done|apply Ag|]. intros g. by rewrite Tr.
Qed.

Lemma prepareReplay_ends A : ends false A prepareReplay.
Proof.
  intros t L R H. destruct (prepareReplay_ok A t L R H) as (t' & E & H' & Hc & Tr).
  exists t'. eexists _, _. split_and!; eauto. split; [done| |intros g; by rewrite Tr].
  intros p n' Hp Hn'. destruct (ok_lookup _ _ _ _ _ H Hp) as [n Hn]. exists n. split; [done|].
  destruct (recalled_lookup _ _ _ _ _ Hc Hn) as (m & Hm & Em). simplify_eq.
  rewrite Em. destruct (bool_decide _); by split_and!.
Qed.

Lemma written_failures g err ns ps : written g (failures err ns ps) = [].
Proof.
  induction ps as [|p ps IH]; [done|]. unfold failures in *. cbn [omap list_omap]. destruct (ns !! p); exact IH.
Qed.

Lemma failAll_ends A err t L R : table_ok A t L R ->
  exists t', failAll err t = Ok t' /\ table_ok A t' [] [] /\ shrinks true t L t' [].
Proof.
  intros H. destruct (failAll_ok A t L R err H) as (t' & E & H' & Tr). exists t'. split_and!; auto.
  apply shrinks_agree; [apply sublist_nil_l|intros q Hq; by apply elem_of_nil in Hq|].
  intros g. by rewrite Tr, written_app, written_failures, app_nil_r.
Qed.

Lemma failSentUnknown_ends A cause : ends true A (failSentUnknown cause).
Proof.
  intros t L R H. destruct (failSentUnknown_ok A t L R cause H) as (t' & o & E & H' & Ag & Tr & Ho).
  exists t'. eexists _, _. split_and!; eauto. apply shrinks_agree; [apply kept_sublist|done|].
  intros g. by rewrite Tr, written_app, (only_written _ _ _ Ho), app_nil_r.
Qed.

Lemma invalidate_ends A : ends true A invalidate.
Proof.
  intros t L R H. destruct (invalidate_ok A t L R H) as (t' & E & [H' _ _ Ag (o & Tr & Ho)]).
  exists t'. eexists _, _. split_and!; eauto. apply shrinks_agree; [apply kept_sublist|done|].
  intros g. by rewrite Tr, written_app, (only_written _ _ _ Ho), app_nil_r.
Qed.

(** ** Totals of a smaller table *)

Definition app_count (e : entry) : Z := if control (request e) then 0 else 1.

Lemma total_sublist (f : entry -> Z) ns L' L : (forall p (n : pendingRequest), ns !! p = Some n -> 0 <= f n) ->
  L' `sublist_of` L -> total f ns L' <= total f ns L.
Proof.
  intros Hf. assert (forall p, 0 <= weight f ns p) as Hw.
  { intros p. unfold weight. destruct (ns !! p) eqn:E; cbn; [eauto|done]. }
  induction 1 as [|p L1 L2 _ IH|p L1 L2 _ IH]; rewrite ?weight_cons; [done|lia|]. specialize (Hw p). lia.
Qed.

Lemma total_le (f : entry -> Z) ns ns' L : (forall p (n' : pendingRequest), p ∈ L -> ns' !! p = Some n' ->
    exists n : pendingRequest, ns !! p = Some n /\ f n' <= f n) ->
  (forall p, p ∈ L -> is_Some (ns' !! p)) -> total f ns' L <= total f ns L.
Proof.
  induction L as [|p L IH]; intros H Hi; [done|]. rewrite !weight_cons.
  assert (weight f ns' p <= weight f ns p).
  { destruct (Hi p ltac:(left)) as [n' Hn']. destruct (H p n' ltac:(left) Hn') as (n & Hn & Hle).
    unfold weight. by rewrite Hn, Hn'. }
  assert (total f ns' L <= total f ns L); [|lia].
  apply IH; [intros q n' Hq; apply H; by right|intros q Hq; apply Hi; by right].
Qed.

Lemma shrinks_total (f : entry -> Z) strict A t L R t' L' R' : table_ok A t L R -> table_ok A t' L' R' -> shrinks strict t L t' L' ->
  (forall p (n : pendingRequest), nodes t !! p = Some n -> 0 <= f n) ->
  (forall e e', request e' = request e -> p_bytes e' = p_bytes e -> (sent e' = true -> sent e = true) -> f e' <= f e) ->
  total f (nodes t') L' <= total f (nodes t) L.
Proof.
  intros H H' [S E _] Hf Hle. etrans; [|by apply (total_sublist f (nodes t) L' L)].
  apply total_le; [|intros p Hp; destruct (ok_lookup _ _ _ _ _ H' Hp); eauto].
  intros p n' Hp Hn'. destruct (E p n' Hp Hn') as (n & Hn & Er & _ & Eb & Es). exists n. split; [done|].
  apply Hle; auto. destruct strict; [congruence|done].
Qed.

(** ** Numbers of a smaller table *)

Lemma sublist_omap {X Y} (f : X -> option Y) l k : l `sublist_of` k -> omap f l `sublist_of` omap f k.
Proof.
  induction 1 as [|x l k _ IH|x l k _ IH]; [constructor| |]; cbn; destruct (f x); try done; by constructor.
Qed.

Lemma StronglySorted_sublist {X} (Q : X -> X -> Prop) l k : l `sublist_of` k -> StronglySorted Q k -> StronglySorted Q l.
Proof.
  induction 1 as [|x l k Hs IH|x l k _ IH]; intros HS; [constructor| |]; apply StronglySorted_cons in HS as [Hf HS]; [|auto].
  apply StronglySorted_cons. split; [|auto]. rewrite Forall_forall in Hf |- *. intros y Hy. apply Hf.
  by apply (sublist_subseteq _ _ Hs).
Qed.

Lemma app_seqs_same ns ns' L : (forall p, p ∈ L -> exists n n' : pendingRequest,
    ns !! p = Some n /\ ns' !! p = Some n' /\ request n' = request n /\ seq n' = seq n) ->
  app_seqs ns' L = app_seqs ns L.
Proof.
  induction L as [|p L IH]; intros H; [done|]. unfold app_seqs in *. cbn [omap list_omap].
  destruct (H p ltac:(left)) as (n & n' & -> & -> & Er & Es). cbn. rewrite Er, Es.
  rewrite IH by (intros q Hq; apply H; by right). done.
Qed.

Lemma shrinks_numbered strict A t L R t' L' R' : table_ok A t L R -> table_ok A t' L' R' -> shrinks strict t L t' L' ->
  numbered (nodes t) L -> numbered (nodes t') L'.
Proof.
  intros H H' [S E _] Hn. unfold numbered. rewrite (app_seqs_same (nodes t)).
  - eapply StronglySorted_sublist; [|exact Hn]. by apply sublist_omap.
  - intros p Hp. destruct (ok_lookup _ _ _ _ _ H' Hp) as [n' Hn'].
    destruct (E p n' Hp Hn') as (n & ? & ? & ? & _). eauto 10.
Qed.

(** ** The invariant *)

(** The least number that has not been given out. *)
Definition high (s : owner) : Z := if sequenceExhausted s then 2 ^ 64 else nextOutbound s.

Record config_ok (c : SessionConfig) : Prop := {
  cfg_queue : 0 < MaxQueuedMessages c;
  cfg_retained : 0 < MaxRetainedBytes c < 2 ^ 64;
  cfg_flight : 0 < MaxInFlightTransactions c }.

Record within (c : SessionConfig) (ns : store_of) (L : list nat) : Prop := {
  in_queue : total app_count ns L <= MaxQueuedMessages c;
  in_bytes : total app_bytes ns L <= MaxRetainedBytes c;
  in_control : total ctl_count ns L <= MaxControlMessages;
  in_controlBytes : total ctl_bytes ns L <= MaxControlRetainedBytes;
  in_flight : total flying ns L <= MaxInFlightTransactions c }.

Record core_ok (A : list nat) (s : owner) (L R : list nat) : Prop := {
  co_config : config_ok (config s);
  co_table : table_ok A (tab s) L R;
  co_numbered : numbered (nodes (tab s)) L;
  co_sent : forall p (n : pendingRequest), p ∈ L -> nodes (tab s) !! p = Some n -> sent n = true -> seq n <> 0;
  co_distinct : forall p q (n m : pendingRequest), p ∈ L -> q ∈ L -> nodes (tab s) !! p = Some n ->
    nodes (tab s) !! q = Some m -> seq n = seq m -> seq n <> 0 -> p = q;
  co_seqs : forall p (n : pendingRequest), p ∈ L -> nodes (tab s) !! p = Some n -> 0 <= seq n < high s;
  co_high : 1 <= high s <= 2 ^ 64 /\ (sequenceExhausted s = false -> nextOutbound s < 2 ^ 64);
  co_sorted : forall g, StronglySorted Z.lt (written g (trace (tab s)));
  co_future : forall g, generation s < g -> written g (trace (tab s)) = [];
  co_within : within (config s) (nodes (tab s)) L }.

(** The states of the connection between two turns of a running session: a
    transport is in use, a connection is being made, or the session has failed
    for good. *)
Definition conn_ok (s : owner) (L : list nat) : Prop :=
  match state s with
  | StateDisconnected =>
      writeTasks s = false /\ transport s = None /\
      (connectPending s = true /\ terminalErr s = None \/ connectPending s = false /\ is_Some (terminalErr s) /\ L = [])
  | StateConnecting | StateReconnecting | StateReady =>
      writeTasks s = true /\ is_Some (transport s) /\ connectPending s = false /\ terminalErr s = None
  | StateWait | StateStopped => False
  end.

Definition idle (s : owner) : Prop := state s <> StateReady /\ state s <> StateStopped.

Record link_ok (s : owner) (L : list nat) : Prop := {
  lk_next : forall x, x ∈ written (generation s) (trace (tab s)) -> x < high s /\
    forall p (n : pendingRequest), p ∈ L -> nodes (tab s) !! p = Some n -> sent n = false -> seq n <> 0 -> x < seq n;
  lk_fresh : idle s -> written (generation s) (trace (tab s)) = [];
  lk_conn : conn_ok s L;
  lk_queue : len (controlQueue s) + pending_ack_slot s <= MaxQueuedMessages (config s);
  lk_ack : state s <> StateReady -> pendingAck s = 0 }.

Definition good (A : list nat) (s : owner) : Prop := exists L R, core_ok A s L R /\ link_ok s L.

(** *** What the invariant does not see *)

Definition rest_of (s : owner) :=
  (config s, generation s, (sequenceExhausted s, nextOutbound s), state s, (transport s, writeTasks s),
   (connectPending s, terminalErr s), (controlQueue s, pendingAck s)).

Definition tell (os : list output) (t : table) : table := foldl (fun t o => emitted o t) t os.

Record similar (s s' : owner) : Prop := {
  sim_rest : rest_of s' = rest_of s;
  sim_tab : exists os, Forall quiet os /\ tab s' = tell os (tab s) }.

Lemma tell_cons o os t : tell (o :: os) t = tell os (emitted o t).
Proof. done. Qed.

Lemma tell_nodes os t : nodes (tell os t) = nodes t.
Proof. revert t. induction os as [|o os IH]; intros t; [done|]. by rewrite tell_cons, IH. Qed.

Lemma tell_written os t g : Forall quiet os -> written g (trace (tell os t)) = written g (trace t).
Proof.
  intros H. revert t. induction H as [|o os [_ Ho] _ IH]; intros t; [done|]. rewrite tell_cons, IH.
  unfold emitted. cbn [trace RecordSettersUsingExistingGetters.set]. rewrite written_app. unfold written at 2. cbn. by rewrite Ho, app_nil_r.
Qed.

Lemma tell_ok A os t L R : Forall quiet os -> table_ok A t L R -> table_ok A (tell os t) L R.
Proof.
  intros Hq. revert t. induction Hq as [|o os [Ho _] _ IH]; intros t H; [done|]. rewrite tell_cons. apply IH. by apply emitted_ok.
Qed.

Lemma similar_refl s : similar s s.
Proof. split; [done|]. by exists []. Qed.

Lemma similar_trans a b c : similar a b -> similar b c -> similar a c.
Proof.
  intros [R1 (o1 & Q1 & T1)] [R2 (o2 & Q2 & T2)]. split; [congruence|]. exists (o1 ++ o2).
  split; [by apply Forall_app_2|]. unfold tell in *. by rewrite T2, T1, foldl_app.
Qed.

Lemma similar_same s s' : rest_of s' = rest_of s -> tab s' = tab s -> similar s s'.
Proof. intros H E. split; [done|]. exists []. by split. Qed.

Lemma similar_out o s : quiet o -> similar s (out o s).
Proof. intros H. split; [done|]. exists [o]. split; [by constructor|done]. Qed.

Lemma similar_outs os s : Forall quiet os -> similar s (outs os s).
Proof.
  intros H. revert s. induction H as [|o os Ho _ IH]; intros s; [apply similar_refl|].
  eapply similar_trans; [by apply similar_out|apply IH].
Qed.

Lemma similar_core A s s' L R : similar s s' -> core_ok A s L R -> core_ok A s' L R.
Proof.
  intros [E (os & Hq & T)] []. unfold rest_of in E. injection E as E1 E2 E3 E4 E5 E6 E7 E8 E9 E10 E11.
  unfold high in *.
  split; unfold high; rewrite ?T, ?tell_nodes, ?E1, ?E2, ?E3, ?E4; auto.
  - by apply tell_ok.
  - intros g. by rewrite tell_written.
  - intros g Hg. rewrite tell_written by done. auto.
Qed.

Lemma similar_link s s' L : similar s s' -> link_ok s L -> link_ok s' L.
Proof.
  intros [E (os & Hq & T)] [H1 H2 H3 H4 H5]. unfold rest_of in E. injection E as E1 E2 E3 E4 E5 E6 E7 E8 E9 E10 E11.
  unfold high, idle, conn_ok, pending_ack_slot in *.
  split; unfold high, idle, conn_ok, pending_ack_slot;
    rewrite ?T, ?tell_nodes, ?(tell_written _ _ _ Hq), ?E1, ?E2, ?E3, ?E4, ?E5, ?E6, ?E7, ?E8, ?E9, ?E10, ?E11; auto.
Qed.

Lemma similar_good A s s' : similar s s' -> good A s -> good A s'.
Proof. intros H (L & R & C & K). exists L, R. split; [by eapply similar_core|by eapply similar_link]. Qed.

Lemma similar_emit k s : similar s (emit k s).
Proof. unfold emit. repeat case_match; apply similar_same; done. Qed.

Lemma quiet_receipt r : Forall quiet (release_receipt r).
Proof. unfold release_receipt. destruct (r_lease r); repeat constructor. Qed.

Lemma quiet_receipts (l : list received) : Forall quiet (concat (release_receipt <$> l)).
Proof. induction l as [|r l IH]; [constructor|]. cbn. apply Forall_app_2; [apply quiet_receipt|done]. Qed.

Lemma similar_release s : similar s (releaseReceiveQueue s).
Proof.
  unfold releaseReceiveQueue. eapply similar_trans; [apply (similar_outs (concat ((release_receipt ∘ receiveLease) <$> receiveQueue s)))|by apply similar_same].
  rewrite list_fmap_compose. apply quiet_receipts.
Qed.

Lemma similar_diagnostic k s : similar s (emitDiagnostic k s).
Proof. unfold emitDiagnostic. destruct (cfg_Observed _); [by apply similar_out|apply similar_refl]. Qed.

Lemma similar_observe t s : similar s (observeTransportMode t s).
Proof. unfold observeTransportMode. destruct (cfg_ModeObserved _); [by apply similar_out|apply similar_refl]. Qed.

(** ** Table operations on behalf of the owner *)

Lemma weights_nonneg : (forall e, 0 <= app_count e) /\ (forall e, 0 <= ctl_count e) /\ (forall e, 0 <= flying e).
Proof.
  unfold app_count, ctl_count, flying. split_and!; intros e; repeat case_match; lia.
Qed.

Lemma shrinks_within strict A c t L R t' L' R' : table_ok A t L R -> table_ok A t' L' R' -> shrinks strict t L t' L' ->
  within c (nodes t) L -> within c (nodes t') L'.
Proof.
  intros H H' Hs [W1 W2 W3 W4 W5]. pose proof (ok_bytes _ _ _ _ H) as Hb.
  destruct weights_nonneg as (N1 & N2 & N3).
  assert (forall f : entry -> Z, (forall p (n : pendingRequest), nodes t !! p = Some n -> 0 <= f n) ->
    (forall e e', request e' = request e -> p_bytes e' = p_bytes e -> (sent e' = true -> sent e = true) -> f e' <= f e) ->
    total f (nodes t') L' <= total f (nodes t) L) as Hf by (intros f; by eapply shrinks_total).
  split; (etrans; [apply Hf|eassumption]); auto.
  - intros e e' E _ _. unfold app_count. by rewrite E.
  - intros p n Hn. specialize (Hb p n Hn). unfold app_bytes. destruct (control _); lia.
  - intros e e' E E' _. unfold app_bytes. by rewrite E, E'.
  - intros e e' E _ _. unfold ctl_count. by rewrite E.
  - intros p n Hn. specialize (Hb p n Hn). unfold ctl_bytes. destruct (control _); lia.
  - intros e e' E E' _. unfold ctl_bytes. by rewrite E, E'.
  - intros e e' E _ Es. unfold flying. rewrite E. destruct (sent e'); [rewrite Es by done; done|].
    cbn. destruct (_ && _); lia.
Qed.

(** The fields the state machine of the connection is about. *)
Definition link_of (s : owner) :=
  (config s, generation s, state s, (transport s, writeTasks s), (connectPending s, terminalErr s), controlQueue s).

Definition numbers_of (s : owner) := (sequenceExhausted s, nextOutbound s).

Lemma shrinks_sent strict t L t' L' : shrinks strict t L t' L' ->
  (forall p (n : pendingRequest), p ∈ L -> nodes t !! p = Some n -> sent n = true -> seq n <> 0) ->
  forall p (n : pendingRequest), p ∈ L' -> nodes t' !! p = Some n -> sent n = true -> seq n <> 0.
Proof.
  intros [S E W] H p n' Hp Hn' Hs. destruct (E p n' Hp Hn') as (n & Hn & _ & -> & _ & Es).
  apply (H p n); [by apply (sublist_subseteq _ _ S)|done|]. destruct strict; [congruence|auto].
Qed.

Lemma shrinks_distinct strict t L t' L' : shrinks strict t L t' L' ->
  (forall p q (n m : pendingRequest), p ∈ L -> q ∈ L -> nodes t !! p = Some n -> nodes t !! q = Some m ->
     seq n = seq m -> seq n <> 0 -> p = q) ->
  forall p q (n m : pendingRequest), p ∈ L' -> q ∈ L' -> nodes t' !! p = Some n -> nodes t' !! q = Some m ->
    seq n = seq m -> seq n <> 0 -> p = q.
Proof.
  intros [S E W] H p q n' m' Hp Hq Hn' Hm'. destruct (E p n' Hp Hn') as (n & Hn & _ & -> & _).
  destruct (E q m' Hq Hm') as (m & Hm & _ & -> & _). pose proof (sublist_subseteq _ _ S). eauto.
Qed.

Lemma core_shrinks strict A s L R s' L' R' : core_ok A s L R -> table_ok A (tab s') L' R' ->
  shrinks strict (tab s) L (tab s') L' -> config s' = config s -> numbers_of s' = numbers_of s ->
  generation s <= generation s' -> core_ok A s' L' R'.
Proof.
  intros [] H' Hs Ec En Hg. injection En as E1 E2. pose proof Hs as [S E W].
  split; unfold high in *; rewrite ?Ec, ?E1, ?E2; auto.
  - exact (shrinks_numbered _ _ _ _ _ _ _ _ co_table0 H' Hs co_numbered0).
  - by eapply shrinks_sent.
  - by eapply shrinks_distinct.
  - intros p n' Hp Hn'. destruct (E p n' Hp Hn') as (n & Hn & _ & -> & _). apply (co_seqs0 p n); [|done].
    by apply (sublist_subseteq _ _ S).
  - intros g. by rewrite W.
  - intros g Hgg. rewrite W. apply co_future0. lia.
  - exact (shrinks_within _ _ _ _ _ _ _ _ _ co_table0 H' Hs co_within0).
Qed.

(** When every request has ended, the numbers may start again. *)
Lemma core_empty A s L R s' : core_ok A s L R -> table_ok A (tab s') [] [] -> shrinks true (tab s) L (tab s') [] ->
  config s' = config s -> numbers_of s' = numbers_of s \/ numbers_of s' = (false, 1) -> generation s <= generation s' ->
  core_ok A s' [] [].
Proof.
  intros C H' Hs Ec [En|En] Hg; [by eapply core_shrinks|]. destruct C. injection En as E1 E2. pose proof Hs as [S E W].
  split; unfold high in *; rewrite ?Ec, ?E1, ?E2; auto.
  - exact (shrinks_numbered _ _ _ _ _ _ _ _ co_table0 H' Hs co_numbered0).
  - by eapply shrinks_sent.
  - by eapply shrinks_distinct.
  - intros p n' Hp. by apply elem_of_nil in Hp.
  - lia.
  - intros g. by rewrite W.
  - intros g Hgg. rewrite W. apply co_future0. lia.
  - exact (shrinks_within _ _ _ _ _ _ _ _ _ co_table0 H' Hs co_within0).
Qed.

Lemma link_shrinks s L s' L' : link_ok s L -> rest_of s' = rest_of s -> shrinks true (tab s) L (tab s') L' -> link_ok s' L'.
Proof.
  intros [H1 H2 H3 H4 H5] Er [S E W]. unfold rest_of in Er. injection Er as E1 E2 E3 E4 E5 E6 E7 E8 E9 E10 E11.
  unfold high, idle, conn_ok, pending_ack_slot in *.
  split; unfold high, idle, conn_ok, pending_ack_slot; rewrite ?W, ?E1, ?E2, ?E3, ?E4, ?E5, ?E6, ?E7, ?E8, ?E9, ?E10, ?E11; auto.
  - intros x Hx. destruct (H1 x Hx) as [? Hn]. split; [done|]. intros p n' Hp Hn' Hu Hz.
    destruct (E p n' Hp Hn') as (n & Hnn & _ & Eq & _ & Es). rewrite Eq in *. apply (Hn p n); auto; [|congruence].
    by apply (sublist_subseteq _ _ S).
  - assert (L = [] -> L' = []) as Hnil by (intros ->; by apply sublist_nil_r in S).
    destruct (state s); auto. destruct H3 as (? & ? & [?|(? & ? & ?)]); auto 10.
Qed.

Lemma on_table_ends strict A f s L R : ends strict A f -> core_ok A s L R ->
  exists s' L' R', on_table f s = Ok s' /\ core_ok A s' L' R' /\ rest_of s' = rest_of s /\ controlGen s' = controlGen s /\
    shrinks strict (tab s) L (tab s') L'.
Proof.
  intros Hf C. destruct (Hf (tab s) L R (co_table _ _ _ _ C)) as (t' & L' & R' & E & H' & Hs).
  unfold on_table. rewrite E, bind_Ok. eexists _, L', R'. split; [done|]. split_and!; [|done..].
  by eapply core_shrinks.
Qed.

Lemma on_table_good A f s : ends true A f -> good A s ->
  exists s', on_table f s = Ok s' /\ good A s' /\ rest_of s' = rest_of s /\ controlGen s' = controlGen s.
Proof.
  intros Hf (L & R & C & K). destruct (on_table_ends true A f s L R Hf C) as (s' & L' & R' & E & C' & Er & Eg & Hs).
  exists s'. split_and!; [done| |done..]. exists L', R'. split; [done|]. by eapply link_shrinks.
Qed.

Lemma similar_shrinks A s s' L R : similar s s' -> core_ok A s L R -> shrinks true (tab s) L (tab s') L.
Proof.
  intros [_ (os & Hq & T)] C. rewrite T. apply shrinks_agree; [done| |].
  - intros q _. by rewrite tell_nodes.
  - intros g. by apply tell_written.
Qed.

Lemma invalidateControls_core A s L R : core_ok A s L R ->
  exists s' L' R', invalidateControls s = Ok s' /\ core_ok A s' L' R' /\ rest_of s' = rest_of s /\
    shrinks true (tab s) L (tab s') L'.
Proof.
  intros C. unfold invalidateControls.
  set (s1 := (releaseReceiveQueue s) <| controlGen ::= fun n => n + 1 |>).
  assert (similar s s1) as Sim.
  { eapply similar_trans; [apply similar_release|]. by apply similar_same. }
  destruct (on_table_ends true A invalidate s1 L R) as (s' & L' & R' & E & C' & Er & _ & Hs).
  - apply invalidate_ends.
  - by eapply similar_core.
  - exists s', L', R'. split_and!; auto.
    + rewrite Er. apply Sim.
    + eapply shrinks_trans; [by eapply similar_shrinks|done].
Qed.

(** ** Losing the transport *)

(** The transport is gone. *)
Record dropped (s : owner) : Prop := {
  dr_tasks : writeTasks s = false;
  dr_transport : transport s = None;
  dr_queue : len (controlQueue s) <= MaxQueuedMessages (config s);
  dr_ack : pendingAck s = 0 }.

Lemma written_future A s L R g : core_ok A s L R -> generation s < g -> written g (trace (tab s)) = [].
Proof. intros C. apply (co_future _ _ _ _ C). Qed.

Lemma setState_core A st s L R : core_ok A s L R -> core_ok A (setState st s) L R.
Proof.
  intros C. unfold setState. destruct (is_state _ _); [done|]. eapply similar_core; [apply similar_emit|].
  destruct C. by split.
Qed.

Lemma setState_frame st s : state (setState st s) = st /\ tab (setState st s) = tab s /\
  (config (setState st s), generation (setState st s), numbers_of (setState st s)) = (config s, generation s, numbers_of s) /\
  (transport (setState st s), writeTasks (setState st s), connectPending (setState st s), terminalErr (setState st s)) =
  (transport s, writeTasks s, connectPending s, terminalErr s) /\
  (controlQueue (setState st s), pendingAck (setState st s)) = (controlQueue s, pendingAck s).
Proof.
  unfold setState, is_state. case_bool_decide; [by split_and!|]. unfold emit. repeat case_match; by split_and!.
Qed.

Lemma drop_transport_spec s : similar (s <| writeTasks := false |> <| transport := None |> <| controlQueue := [] |>) (drop_transport s).
Proof.
  unfold drop_transport, stopTransportRenewal. change (transport (s <| transportDone := false |>)) with (transport s).
  destruct (transport s) as [t|] eqn:E.
  - split; [done|]. exists [OClose (t_id t)]. split; [by repeat constructor|done].
  - apply similar_same; [|done]. unfold rest_of. cbn. by rewrite E.
Qed.

Lemma core_same A s s' L R : tab s' = tab s -> config s' = config s -> numbers_of s' = numbers_of s ->
  generation s <= generation s' -> core_ok A s L R -> core_ok A s' L R.
Proof.
  intros Et Ec En Hg []. injection En as E1 E2. split; unfold high in *; rewrite ?Et, ?Ec, ?E1, ?E2; auto.
  intros g Hgg. apply co_future0. lia.
Qed.

(** A session without transport on a new generation. *)
Lemma disconnected_link A s L R : core_ok A s L R -> dropped s -> state s = StateDisconnected ->
  written (generation s) (trace (tab s)) = [] ->
  (connectPending s = true /\ terminalErr s = None \/ connectPending s = false /\ is_Some (terminalErr s) /\ L = []) ->
  link_ok s L.
Proof.
  intros C [D1 D2 D3 D4] Hst Hw Hc. split.
  - intros x. rewrite Hw. by intros ?%elem_of_nil.
  - done.
  - unfold conn_ok. rewrite Hst. auto.
  - unfold pending_ack_slot. rewrite D4. cbn. lia.
  - done.
Qed.

Lemma queue_room A s L R : core_ok A s L R -> controlQueue s = [] -> len (controlQueue s) <= MaxQueuedMessages (config s).
Proof. intros C ->. pose proof (cfg_queue _ (co_config _ _ _ _ C)). change (len []) with 0. lia. Qed.

Definition detached (s : owner) : owner := s <| writeTasks := false |> <| transport := None |> <| controlQueue := [] |>.

Lemma detach_similar s s' : similar s s' -> similar (detached s) (detached s').
Proof.
  intros [E (os & Hq & T)]. split; [|by exists os]. unfold rest_of in E. injection E as Q1 Q2 Q3 Q4 Q5 Q6 Q7 Q8 Q9 Q10 Q11.
  unfold rest_of. cbn. by rewrite Q1, Q2, Q3, Q4, Q5, Q8, Q9, Q11.
Qed.

(** [emit], [signalReset] and closing the transport. *)
Lemma fault_similar k s s' : similar s s' -> similar (detached s) (drop_transport (emit k s')).
Proof.
  intros H. eapply similar_trans; [|apply drop_transport_spec]. apply detach_similar.
  eapply similar_trans; [exact H|apply similar_emit].
Qed.

Lemma rest_inv s s' : rest_of s' = rest_of s ->
  config s' = config s /\ generation s' = generation s /\ numbers_of s' = numbers_of s /\ state s' = state s /\
  transport s' = transport s /\ writeTasks s' = writeTasks s /\ connectPending s' = connectPending s /\
  terminalErr s' = terminalErr s /\ controlQueue s' = controlQueue s /\ pendingAck s' = pendingAck s.
Proof.
  unfold rest_of, numbers_of. intros E. injection E as Q1 Q2 Q3 Q4 Q5 Q6 Q7 Q8 Q9 Q10 Q11. split_and!; congruence.
Qed.

(** The last two steps of a terminal failure. *)
Lemma end_all A err s L R : core_ok A s L R -> dropped s -> is_Some (terminalErr s) ->
  written (generation s) (trace (tab s)) = [] ->
  exists s', on_table (failAll err) (s <| connectPending := false |>) = Ok s' /\ good A (setState StateDisconnected s') /\
    terminalErr (setState StateDisconnected s') = terminalErr s.
Proof.
  intros C [D1 D2 D3 D4] Ht Hw. destruct (failAll_ends A err (tab s) L R (co_table _ _ _ _ C)) as (t & E & H & Sh).
  unfold on_table. change (tab (s <| connectPending := false |>)) with (tab s). rewrite E, bind_Ok.
  eexists. split; [done|]. set (s1 := s <| connectPending := false |> <| tab := t |>).
  assert (core_ok A s1 [] []) as C1 by (eapply core_empty; [exact C|exact H|exact Sh|done|by left|done]).
  destruct (setState_frame StateDisconnected s1) as (F1 & F2 & F3 & F4 & F5).
  injection F3 as F3 F3' F3''. injection F4 as F4 F4' F4'' F4'''. injection F5 as F5 F5'.
  split; [|exact F4''']. exists [], []. split; [by apply setState_core|].
  apply (disconnected_link A _ [] []); [by apply setState_core| |done| |].
  - split; congruence.
  - rewrite F2, F3'. cbn. by rewrite (sh_written _ _ _ _ _ Sh).
  - right. rewrite F4'', F4'''. cbn. auto.
Qed.

Lemma failTerminal_ok A err s L R : core_ok A s L R ->
  exists s', failTerminal err s = Ok s' /\ good A s' /\ state s' = StateDisconnected /\ terminalErr s' = Some err.
Proof.
  intros C. unfold failTerminal.
  set (s0 := s <| ackTimerC := false |> <| pendingAck := 0 |> <| generation := generation s + 1 |>).
  remember (out OCancelConnector _) as s1 eqn:Es1.
  assert (similar s0 s1) as Sim1.
  { subst s1. eapply similar_trans; [|by apply similar_out].
    destruct (similar_release (clearPendingAcknowledgment s)) as [E (os & Hq & T)].
    remember (releaseReceiveQueue (clearPendingAcknowledgment s)) as sr eqn:Esr. clear Esr.
    apply rest_inv in E as (Q1 & Q2 & Q3 & Q4 & Q5 & Q6 & Q7 & Q8 & Q9 & Q10). injection Q3 as Q3 Q3'.
    split; [|by exists os]. unfold rest_of. cbn. rewrite Q1, Q2, Q3, Q3', Q4, Q5, Q6, Q7, Q8, Q9, Q10. done. }
  clear Es1. assert (core_ok A s0 L R) as C0 by (apply (core_same A s); try done; cbn; lia).
  destruct (invalidateControls_core A s1 L R (similar_core _ _ _ _ _ Sim1 C0)) as (s2 & L2 & R2 & -> & C2 & Er2 & Sh2).
  rewrite bind_Ok. destruct (rest_inv _ _ (sim_rest _ _ Sim1)) as (_ & G1 & _ & _ & _ & _ & _ & _ & _ & P1).
  destruct (rest_inv _ _ Er2) as (_ & G2 & _ & _ & _ & _ & _ & _ & _ & P2).
  remember (s2 <| terminalErr := Some err |> <| terminal := _ |>) as s3 eqn:Es3.
  pose proof (fault_similar (EventTransportFault err) s3 s3 (similar_refl s3)) as Sim4.
  remember (drop_transport (emit (EventTransportFault err) s3)) as s4 eqn:Es4. clear Es4.
  assert (core_ok A s4 L2 R2) as C4.
  { eapply similar_core; [exact Sim4|]. subst s3. by apply (core_same A s2). }
  destruct (rest_inv _ _ (sim_rest _ _ Sim4)) as (_ & X2 & _ & _ & X5 & X6 & _ & X8 & X9 & X10).
  destruct (sim_tab _ _ Sim4) as (os & Hq & T4). subst s3. cbn in X2, X5, X6, X8, X9, X10, T4.
  destruct (end_all A err s4 L2 R2 C4) as (s5 & -> & Hg & Ht).
  - split; [done..|by apply (queue_room A _ L2 R2)|by rewrite X10, P2, P1].
  - rewrite X8. eauto.
  - rewrite T4, tell_written, X2, G2, G1 by done. rewrite (sh_written _ _ _ _ _ Sh2).
    destruct (sim_tab _ _ Sim1) as (os1 & Hq1 & T1). rewrite T1, tell_written by done. cbn.
    apply (co_future _ _ _ _ C). lia.
  - rewrite bind_Ok. eexists. split; [done|]. split_and!; [done|by apply setState_frame|]. by rewrite Ht.
Qed.

Lemma beginReconnect_ok A s L R : core_ok A s L R -> dropped s -> state s = StateDisconnected -> terminalErr s = None ->
  exists s', beginReconnect s = Ok s' /\ good A s' /\ state s' = StateDisconnected.
Proof.
  intros C [D1 D2 D3 D4] Hst Ht. unfold beginReconnect. destruct (_ && _).
  - destruct (failTerminal_ok A [msgr_ErrReconnectExhausted] s L R C) as (s' & -> & ? & ? & _). eauto.
  - eexists. split; [done|]. split; [|done].
    set (s1 := s <| reconnectAttempts ::= _ |> <| connectPending := true |> <| generation ::= _ |>).
    assert (core_ok A s1 L R) as C1 by (apply (core_same A s); try done; cbn; lia).
    eapply similar_good; [by apply similar_out|]. exists L, R. split; [done|].
    apply (disconnected_link A _ L R); [done|by split|done| |by left].
    cbn. apply (co_future _ _ _ _ C). lia.
Qed.

Lemma on_table_failAll A err s L R : core_ok A s L R ->
  exists t, on_table (failAll err) s = Ok (s <| tab := t |>) /\ table_ok A t [] [] /\ shrinks true (tab s) L t [].
Proof.
  intros C. destruct (failAll_ends A err (tab s) L R (co_table _ _ _ _ C)) as (t & E & H & Sh).
  exists t. unfold on_table. by rewrite E.
Qed.

Lemma resetForNewIdentity_core A s L R : core_ok A s L R ->
  exists s', resetForNewIdentity s = Ok s' /\ core_ok A s' [] [] /\ link_of s' = link_of s /\ pendingAck s' = 0 /\
    lastInbound s' = 0 /\ shrinks true (tab s) L (tab s') [].
Proof.
  intros C. unfold resetForNewIdentity. set (s1 := (clearPendingAcknowledgment s) <| serverCookie := 0 |> <| serverFlags := 0 |>
    <| connectSeq := 0 |> <| lastInbound := 0 |> <| nextOutbound := 1 |> <| sequenceExhausted := false |>
    <| nextTID := 1 |> <| tidExhausted := false |>).
  destruct (failAll_ends A [msgr_ErrSessionDisconnected] (tab s) L R (co_table _ _ _ _ C)) as (t & E & H & Sh).
  unfold on_table. change (tab s1) with (tab s). rewrite E, !bind_Ok. eexists. split; [done|]. split_and!; try done.
  eapply core_empty; [exact C|exact H|exact Sh|done|by right|done].
Qed.

Lemma settle_fault_core A err s L R : core_ok A s L R -> pendingAck s = 0 ->
  exists s' L' R', settle_fault err s = Ok s' /\ core_ok A s' L' R' /\ link_of s' = link_of s /\ pendingAck s' = 0.
Proof.
  intros C Hp. unfold settle_fault.
  assert (forall strict f, ends strict A f -> exists s' L' R', on_table f s = Ok s' /\ core_ok A s' L' R' /\
    link_of s' = link_of s /\ pendingAck s' = 0) as Hf.
  { intros strict f Hf. destruct (on_table_ends strict A f s L R Hf C) as (s' & L' & R' & E & C' & Er & _ & _).
    apply rest_inv in Er as (Q1 & Q2 & Q3 & Q4 & Q5 & Q6 & Q7 & Q8 & Q9 & Q10).
    exists s', L', R'. split_and!; [done|done| |congruence]. unfold link_of. congruence. }
  destruct (negb _).
  - destruct (Hf true _ (failSentUnknown_ends A err)) as (s1 & L1 & R1 & -> & C1 & E1 & P1). rewrite bind_Ok.
    destruct (resetForNewIdentity_core A s1 L1 R1 C1) as (s2 & -> & C2 & E2 & P2 & _). eexists _, _, _.
    split_and!; eauto. congruence.
  - destruct (cfg_ReconnectPolicy _).
    + destruct (on_table_failAll A [msgr_ErrSessionDisconnected] s L R C) as (t & E & H & Sh).
      eexists _, [], []. rewrite E. split_and!; [done| |done|done].
      eapply core_empty; [exact C|exact H|exact Sh|done|by left|done].
    + destruct (serverCookie s =? 0); [apply (Hf true _ (failSentUnknown_ends A err))|apply (Hf false _ (prepareReplay_ends A))].
Qed.

(** A transport is in use. *)
Definition live (s : owner) : Prop := terminalErr s = None /\ state s <> StateStopped /\ state s <> StateDisconnected.

Lemma handleFault_live A err s L R : core_ok A s L R -> live s ->
  exists s', handleFault err s = Ok s' /\ good A s' /\ state s' = StateDisconnected.
Proof.
  intros C (Ht & Hs1 & Hs2). unfold handleFault, is_state. rewrite Ht.
  rewrite bool_decide_eq_false_2 by (intros []; done). rewrite !bool_decide_eq_false_2 by done. cbn [orb andb].
  destruct (invalidateControls_core A (clearPendingAcknowledgment s) L R) as (s1 & L1 & R1 & -> & C1 & Er1 & _).
  { by apply (core_same A s). }
  rewrite bind_Ok. destruct (rest_inv _ _ Er1) as (_ & _ & _ & _ & _ & _ & _ & T1 & _ & P1).
  assert (similar (detached s1) (drop_transport (signalReset (emit (EventTransportFault err) s1)))) as Sim.
  { eapply similar_trans; [|apply drop_transport_spec]. apply detach_similar.
    eapply similar_trans; [apply similar_emit|by apply similar_same]. }
  remember (drop_transport _) as s2 eqn:Es2. clear Es2.
  assert (core_ok A s2 L1 R1) as C2 by (eapply similar_core; [exact Sim|]; by apply (core_same A s1)).
  destruct (rest_inv _ _ (sim_rest _ _ Sim)) as (_ & _ & _ & _ & X5 & X6 & _ & X8 & X9 & X10). cbn in *.
  destruct (settle_fault_core A err s2 L1 R1 C2) as (s3 & L3 & R3 & -> & C3 & El & P3); [congruence|].
  rewrite bind_Ok. unfold link_of in El. injection El as E1 E2 E3 E4 E5 E6 E7 E8.
  destruct (setState_frame StateDisconnected s3) as (F1 & F2 & F3 & F4 & F5).
  injection F4 as F4 F4' F4'' F4'''. injection F5 as F5 F5'.
  apply (beginReconnect_ok A _ L3 R3); [by apply setState_core| |done|congruence].
  split; [congruence..| |congruence]. apply (queue_room A _ L3 R3); [by apply setState_core|congruence].
Qed.

Lemma handleFault_good A err s : good A s -> exists s', handleFault err s = Ok s' /\ good A s'.
Proof.
  intros (L & R & C & K). pose proof (lk_conn _ _ K) as Hc. unfold conn_ok in Hc.
  assert (good A s) as G by by exists L, R.
  destruct (state s) eqn:Hst.
  - exists s. split; [|done]. unfold handleFault, is_state. rewrite Hst. destruct Hc as (_ & _ & [[-> _]|(_ & H & _)]).
    + by rewrite orb_true_r.
    + by rewrite bool_decide_eq_true_2.
  - destruct (handleFault_live A err s L R C) as (s' & ? & ? & _); [split; [apply Hc|by rewrite Hst]|eauto].
  - destruct (handleFault_live A err s L R C) as (s' & ? & ? & _); [split; [apply Hc|by rewrite Hst]|eauto].
  - destruct (handleFault_live A err s L R C) as (s' & ? & ? & _); [split; [apply Hc|by rewrite Hst]|eauto].
  - done.
  - done.
Qed.

Lemma failTerminal_good A err s : good A s -> exists s', failTerminal err s = Ok s' /\ good A s'.
Proof. intros (L & R & C & K). destruct (failTerminal_ok A err s L R C) as (s' & ? & ? & _). eauto. Qed.
