(* ===== verification/SessionTurn.v ===== *)
(** * Every turn of a session keeps its invariant

    The handlers of [Session], one by one, then [turn].  None of them panics. *)

From stdpp Require Import base gmap list numbers sorting.
From coqutil Require Import Byte Word.LittleEndianList Datatypes.RecordSettersUsingExistingGetters.
From S2P Require Import Prelude Codec Crc Protocol MsgrFrame MsgrMessage Control.
From stdpp Require Import list.
From S2P Require Import SessionTable Session SessionInv.

Open Scope Z_scope.
Open Scope go_scope.

(** [keeps A f]: from a good state the handler returns one. *)
Definition keeps (A : list nat) (f : owner -> res owner) : Prop := forall s, good A s -> exists s', f s = Ok s' /\ good A s'.

Create HintDb session.

Lemma keeps_bind A f g : keeps A f -> keeps A g -> keeps A (fun s => s ← f s; g s).
Proof. intros Hf Hg s H. destruct (Hf s H) as (s1 & -> & H1). rewrite bind_Ok. auto. Qed.

Lemma keeps_similar A f : (forall s, similar s (f s)) -> keeps A (fun s => Ok (f s)).
Proof. intros Hf s H. eexists. split; [done|]. by eapply similar_good. Qed.

Lemma keeps_same A f : (forall s, rest_of (f s) = rest_of s) -> (forall s, tab (f s) = tab s) -> keeps A (fun s => Ok (f s)).
Proof. intros H1 H2. apply keeps_similar. intros s. by apply similar_same. Qed.

Lemma keeps_if A (b : owner -> bool) f g : keeps A f -> keeps A g -> keeps A (fun s => if b s then f s else g s).
Proof. intros Hf Hg s H. destruct (b s); auto. Qed.

Lemma keeps_id A : keeps A (fun s => Ok s).
Proof. intros s H. eauto. Qed.

Lemma keeps_fault A err : keeps A (handleFault err).
Proof. intros s. apply handleFault_good. Qed.

Lemma keeps_terminal A err : keeps A (failTerminal err).
Proof. intros s. apply failTerminal_good. Qed.

Lemma keeps_table A f : ends true A f -> keeps A (on_table f).
Proof. intros Hf s H. destruct (on_table_good A f s Hf H) as (s' & ? & ? & _). eauto. Qed.

#[export] Hint Resolve keeps_id keeps_fault keeps_terminal keeps_table trimReplay_ends failSentUnknown_ends invalidate_ends : session.

(** ** Control frames to send *)

(** Only the queue of control frames and the acknowledgment change. *)
Lemma good_queue A s s' : good A s -> tab s' = tab s -> numbers_of s' = numbers_of s ->
  (config s', generation s', state s', (transport s', writeTasks s'), (connectPending s', terminalErr s')) =
  (config s, generation s, state s, (transport s, writeTasks s), (connectPending s, terminalErr s)) ->
  len (controlQueue s') + pending_ack_slot s' <= MaxQueuedMessages (config s) ->
  (state s <> StateReady -> pendingAck s' = 0) -> good A s'.
Proof.
  intros (L & R & C & [H1 H2 H3 H4 H5]) Et En El Hq Ha. injection El as E1 E2 E3 E4 E5 E6 E7.
  exists L, R. split; [apply (core_same A s); auto; lia|]. injection En as N1 N2.
  split; unfold high, idle, conn_ok in *; rewrite ?Et, ?E1, ?E2, ?E3, ?E4, ?E5, ?E6, ?E7, ?N1, ?N2; auto.
Qed.

Lemma good_bound A s : good A s -> len (controlQueue s) + pending_ack_slot s <= MaxQueuedMessages (config s) /\
  (state s <> StateReady -> pendingAck s = 0) /\ 0 < MaxQueuedMessages (config s).
Proof. intros (L & R & C & K). split_and!; [apply K|apply K|]. apply (cfg_queue _ (co_config _ _ _ _ C)). Qed.

Lemma slot_range s : 0 <= pending_ack_slot s <= 1.
Proof. unfold pending_ack_slot. destruct (_ =? _); lia. Qed.

Lemma keeps_queueControl A payload : keeps A (queueControl payload).
Proof.
  intros s H. unfold queueControl. pose proof (EncodeControl_no_panic payload (cfg_Limits (config s))) as Hp.
  destruct (EncodeControl payload _) as [frame|e|]; [|by apply keeps_fault|done].
  destruct (Z.leb_spec (MaxQueuedMessages (config s)) (len (controlQueue s) + pending_ack_slot s)); [by apply keeps_fault|].
  destruct (good_bound A s H) as (_ & Ha & _).
  eexists. split; [done|]. apply (good_queue A s); try done.
  cbn. rewrite len_app. unfold pending_ack_slot in *. cbn in *. unfold len at 2. cbn. lia.
Qed.

Lemma keeps_clear A : keeps A (fun s => Ok (clearPendingAcknowledgment s)).
Proof.
  intros s H. eexists. split; [done|]. destruct (good_bound A s H) as (Hq & _ & _). pose proof (slot_range s).
  apply (good_queue A s); try done. cbn. lia.
Qed.

Lemma keeps_flush A : keeps A flushPendingAcknowledgment.
Proof.
  intros s H. unfold flushPendingAcknowledgment. destruct (keeps_clear A s H) as (s' & [= <-] & H').
  destruct (negb _); [by apply keeps_queueControl|eauto].
Qed.

Lemma keeps_queueAck A sequence : keeps A (queueAcknowledgment sequence).
Proof.
  intros s H. unfold queueAcknowledgment, is_state. case_bool_decide as Hs; cbn [negb]; [|by apply keeps_queueControl].
  destruct (good_bound A s H) as (Hq & _ & _). destruct (pendingAck s =? 0) eqn:Ep; cbn [negb].
  - destruct (Z.leb_spec (MaxQueuedMessages (config s)) (len (controlQueue s))); [by apply keeps_fault|].
    eexists. split; [done|]. apply (good_queue A s); try done. unfold pending_ack_slot. cbn. destruct (sequence =? 0); lia.
  - eexists. split; [done|]. apply (good_queue A s); try done. unfold pending_ack_slot in *. rewrite Ep in Hq. cbn.
    destruct (sequence =? 0); lia.
Qed.

Lemma keeps_clientIdent A : keeps A queueClientIdent.
Proof. intros s H. by apply keeps_queueControl. Qed.

Lemma keeps_sendReconnect A : keeps A sendReconnect.
Proof.
  intros s H. unfold sendReconnect. apply keeps_queueControl. destruct (good_bound A s H) as (Hq & Ha & Hm).
  apply (good_queue A s); try done. cbn. unfold pending_ack_slot in *. cbn. pose proof (len_nonneg (controlQueue s)).
  change (len (@nil Frame)) with 0. destruct (pendingAck s =? 0); lia.
Qed.

#[export] Hint Resolve keeps_queueControl keeps_clear keeps_flush keeps_queueAck keeps_clientIdent keeps_sendReconnect : session.

(** A guard that reports whether to go on; if so it may count the transition. *)
Definition guards (A : list nat) (P : owner -> Prop) (g : owner -> res (bool * owner)) : Prop := forall s, good A s ->
  exists b s', g s = Ok (b, s') /\ good A s' /\ (b = true -> P s').

Lemma keeps_guarded A P g k : guards A P g -> (forall s, good A s -> P s -> exists s', k s = Ok s' /\ good A s') ->
  keeps A (guarded g k).
Proof.
  intros Hg Hk s H. unfold guarded. destruct (Hg s H) as (b & s1 & -> & H1 & HP). rewrite bind_Ok.
  destruct b; cbn [negb]; [auto|eauto].
Qed.

Lemma guards_ready A : guards A (fun s => state s = StateReady) readyControl.
Proof.
  intros s H. unfold readyControl, is_state. case_bool_decide as Hs; [eauto|].
  destruct (handleFault_good A [msgr_ErrMalformed] s H) as (s' & -> & H'). rewrite bind_Ok. eexists false, s'. by split_and!.
Qed.

Lemma guards_ack A (P : owner -> Prop) sequence s : good A s -> P s ->
  exists b s', acceptAcknowledgment sequence s = Ok (b, s') /\ good A s' /\ (b = true -> P s').
Proof.
  intros H HP. unfold acceptAcknowledgment. destruct (_ && _); [|eauto].
  destruct (handleFault_good A [msgr_ErrMalformed] s H) as (s' & -> & H'). rewrite bind_Ok. eexists false, s'. by split_and!.
Qed.

Lemma guards_transition A want : guards A (fun s => state s = want) (transitionAllowed want).
Proof.
  intros s H. unfold transitionAllowed, is_state. case_bool_decide as Hs; cbn [negb].
  - set (s1 := s <| transitions ::= _ |>). assert (good A s1) as H1 by (apply (similar_good A s); [by apply similar_same|done]).
    destruct (_ <? _); [|eexists true, s1; by split_and!].
    destruct (handleFault_good A [msgr_ErrTransitionLimit] s1 H1) as (s' & -> & H'). rewrite bind_Ok. eexists false, s'. by split_and!.
  - destruct (handleFault_good A [msgr_ErrMalformed] s H) as (s' & -> & H'). rewrite bind_Ok. eexists false, s'. by split_and!.
Qed.

(** ** The handshake *)

Definition opened (s : owner) : Prop :=
  writeTasks s = true /\ is_Some (transport s) /\ connectPending s = false /\ terminalErr s = None.

(** A transport on which no message has been written yet. *)
Record handshaking (A : list nat) (s : owner) (L R : list nat) : Prop := {
  hs_core : core_ok A s L R;
  hs_fresh : written (generation s) (trace (tab s)) = [];
  hs_opened : opened s;
  hs_queue : len (controlQueue s) + pending_ack_slot s <= MaxQueuedMessages (config s);
  hs_ack : pendingAck s = 0 }.

Definition handshake_state (st : SessionState) : Prop := st = StateConnecting \/ st = StateReconnecting.

Lemma good_handshaking A s : good A s -> handshake_state (state s) -> exists L R, handshaking A s L R.
Proof.
  intros (L & R & C & K) Hs. exists L, R. assert (state s <> StateReady) as Hr by (intros E; rewrite E in Hs; by destruct Hs).
  pose proof (lk_conn _ _ K) as Hc. split; [done| | | |].
  - apply K. split; [done|]. intros E. rewrite E in Hs. by destruct Hs.
  - unfold conn_ok in Hc. by destruct Hs as [E|E]; rewrite E in Hc.
  - apply K.
  - by apply K.
Qed.

Lemma handshaking_good A st s L R : handshaking A s L R -> (handshake_state st \/ st = StateReady) -> good A (setState st s).
Proof.
  intros [C Hw (O1 & O2 & O3 & O4) Hq Ha] Hst. exists L, R. split; [by apply setState_core|].
  destruct (setState_frame st s) as (F1 & F2 & F3 & F4 & F5).
  injection F3 as F3 F3' F3''. injection F4 as F4 F4' F4'' F4'''. injection F5 as F5 F5'.
  split.
  - rewrite F2, F3', Hw. intros x Hx. by apply elem_of_nil in Hx.
  - intros _. by rewrite F2, F3'.
  - unfold conn_ok. rewrite F1, F4, F4', F4'', F4'''. destruct Hst as [[-> | ->]| ->]; auto.
  - unfold pending_ack_slot in *. by rewrite F5, F5', F3.
  - intros _. by rewrite F5'.
Qed.

(** Between the steps of the handshake: what may change. *)
Lemma handshaking_step A s L R s' L' R' : handshaking A s L R -> core_ok A s' L' R' ->
  (forall g, written g (trace (tab s')) = written g (trace (tab s))) ->
  (config s', generation s', (transport s', writeTasks s'), (connectPending s', terminalErr s'), controlQueue s', pendingAck s') =
  (config s, generation s, (transport s, writeTasks s), (connectPending s, terminalErr s), controlQueue s, pendingAck s) ->
  handshaking A s' L' R'.
Proof.
  intros [C Hw (O1 & O2 & O3 & O4) Hq Ha] C' W E. injection E as E1 E2 E3 E4 E5 E6 E7 E8.
  split; unfold opened, pending_ack_slot in *; rewrite ?W, ?E1, ?E2, ?E3, ?E4, ?E5, ?E6, ?E7, ?E8; auto.
Qed.

Lemma handshaking_similar A s s' L R : similar s s' -> handshaking A s L R -> handshaking A s' L R.
Proof.
  intros Sim H. destruct (rest_inv _ _ (sim_rest _ _ Sim)) as (Q1 & Q2 & Q3 & Q4 & Q5 & Q6 & Q7 & Q8 & Q9 & Q10).
  eapply handshaking_step; [exact H|eapply similar_core; [exact Sim|apply H]| |congruence].
  intros g. destruct (sim_tab _ _ Sim) as (os & Hq & ->). by apply tell_written.
Qed.

Lemma handshaking_table strict A f s L R : ends strict A f -> handshaking A s L R ->
  exists s' L' R', on_table f s = Ok s' /\ handshaking A s' L' R' /\ state s' = state s.
Proof.
  intros Hf H. destruct (on_table_ends strict A f s L R Hf (hs_core _ _ _ _ H)) as (s' & L' & R' & E & C' & Er & _ & Sh).
  destruct (rest_inv _ _ Er) as (Q1 & Q2 & Q3 & Q4 & Q5 & Q6 & Q7 & Q8 & Q9 & Q10).
  exists s', L', R'. split_and!; [done| |done]. eapply handshaking_step; [exact H|done|apply Sh|congruence].
Qed.

Lemma handshaking_invalidate A s L R : handshaking A s L R ->
  exists s' L' R', invalidateControls (clearPendingAcknowledgment s) = Ok s' /\ handshaking A s' L' R' /\ state s' = state s.
Proof.
  intros H. destruct (invalidateControls_core A (clearPendingAcknowledgment s) L R) as (s' & L' & R' & E & C' & Er & Sh).
  { apply (core_same A s); try done. apply H. }
  destruct (rest_inv _ _ Er) as (Q1 & Q2 & Q3 & Q4 & Q5 & Q6 & Q7 & Q8 & Q9 & Q10).
  exists s', L', R'. split_and!; [done| |done]. eapply handshaking_step; [exact H|done|apply Sh|].
  cbn in *. rewrite Q1, Q2, Q5, Q6, Q7, Q8, Q9, Q10, (hs_ack _ _ _ _ H). done.
Qed.

(** After [failAll] the two assignments of a full reset change nothing. *)
Lemma full_reset_table A t : table_ok A t [] [] ->
  t <| replay ::= fun l => l <| slots := [] |> |> <| retainedBytes := 0 |> = t.
Proof.
  intros H. assert (slots (replay t) = []) as Hs by (apply Permutation_nil_r; apply H).
  pose proof (ok_retained _ _ _ _ H) as Hr. cbn in Hr. destruct t as [? ? [sl ? ?]]. cbn in *. by subst.
Qed.

Lemma full_reset_ok A s L R : handshaking A s L R -> exists s', full_reset s = Ok s' /\ handshaking A s' [] [].
Proof.
  intros H. unfold full_reset.
  destruct (failAll_ends A [msgr_ErrSessionDisconnected] (tab s) L R (co_table _ _ _ _ (hs_core _ _ _ _ H))) as (t & E & Ht & Sh).
  unfold on_table. match goal with |- context [failAll _ (tab ?x)] => change (tab x) with (tab s) end.
  rewrite E, !bind_Ok. eexists. split; [done|].
  match goal with |- handshaking A ?x _ _ => assert (tab x = t) as Et; [exact (full_reset_table A t Ht)|] end.
  eapply handshaking_step; [exact H| |intros g; rewrite Et; apply Sh|done].
  eapply core_empty; [exact (hs_core _ _ _ _ H)|by rewrite Et|by rewrite Et|done|by right|done].
Qed.

Lemma similar_note_reset full s : similar s (note_reset full s).
Proof. eapply similar_trans; [apply similar_emit|by apply similar_same]. Qed.

Lemma handleReset_ok A w full s : good A s -> state s = StateReconnecting ->
  exists s', handleReset w full s = Ok s' /\ good A s'.
Proof.
  intros H Hs. destruct (good_handshaking A s H ltac:(by right)) as (L & R & Hh). unfold handleReset.
  destruct (handshaking_invalidate A s L R Hh) as (s1 & L1 & R1 & -> & H1 & _). rewrite bind_Ok.
  assert (handshaking A (note_reset full s1) L1 R1) as H2 by (eapply handshaking_similar; [apply similar_note_reset|exact H1]).
  generalize dependent (note_reset full s1). clear H1 s1. intros s2 H2. destruct full.
  - unfold refreshClientCookie. destruct (source_Cookie w) as [cookie| |].
    2, 3: destruct (failTerminal_ok A [msgr_ErrSessionDisconnected] s2 L1 R1 (hs_core _ _ _ _ H2)) as (s' & ? & ? & _); eauto.
    destruct (cookie =? 0).
    { destruct (failTerminal_ok A [msgr_ErrMalformed] s2 L1 R1 (hs_core _ _ _ _ H2)) as (s' & ? & ? & _); eauto. }
    destruct (full_reset_ok A (s2 <| clientCookie := cookie |>) L1 R1) as (s3 & -> & H3).
    { eapply handshaking_similar; [|exact H2]. by apply similar_same. }
    rewrite bind_Ok. apply keeps_clientIdent. by apply (handshaking_good A StateConnecting s3 [] []); [|left; left].
  - destruct (handshaking_table false A prepareReplay (s2 <| partialReset := true |>) L1 R1) as (s3 & L3 & R3 & -> & H3 & _).
    { apply prepareReplay_ends. }
    { eapply handshaking_similar; [|exact H2]. by apply similar_same. }
    rewrite bind_Ok. apply keeps_clientIdent. apply (handshaking_good A StateConnecting _ L3 R3); [done|by left; left].
Qed.

Lemma similar_renewal s : similar s (completeRenewal s).
Proof.
  unfold completeRenewal. destruct (_ || _); [apply similar_refl|].
  eapply similar_trans; [|apply similar_diagnostic]. by apply similar_same.
Qed.

Lemma handleReconnectOK_ok A sequence s : good A s -> state s = StateReconnecting ->
  exists s', handleReconnectOK sequence s = Ok s' /\ good A s'.
Proof.
  intros H Hs. unfold handleReconnectOK.
  destruct (guards_ack A (fun s => state s = StateReconnecting) sequence s H Hs) as (b & s1 & -> & H1 & Hb). rewrite bind_Ok.
  destruct b; cbn [negb]; [|eauto]. specialize (Hb eq_refl).
  destruct (good_handshaking A s1 H1 ltac:(by right)) as (L & R & Hh).
  destruct (handshaking_table true A (trimReplay sequence) s1 L R (trimReplay_ends A sequence) Hh) as (s2 & L2 & R2 & -> & H2 & _).
  rewrite bind_Ok.
  destruct (handshaking_table false A prepareReplay s2 L2 R2 (prepareReplay_ends A) H2) as (s3 & L3 & R3 & -> & H3 & _).
  rewrite bind_Ok. eexists. split; [done|]. eapply similar_good; [eapply similar_trans; [apply similar_emit|apply similar_renewal]|].
  apply (handshaking_good A StateReady _ L3 R3); [|by right]. eapply handshaking_similar; [|exact H3]. by apply similar_same.
Qed.

Lemma handleServerIdent_ok A value : keeps A (handleServerIdent value).
Proof.
  intros s H. unfold handleServerIdent, is_state. case_bool_decide as Hs; cbn [negb]; [|by apply keeps_fault].
  assert (good A (count_transition s) /\ state (count_transition s) = StateConnecting) as [H1 Hs1].
  { split; [|done]. apply (similar_good A s); [by apply similar_same|done]. }
  generalize dependent (count_transition s). clear H Hs s. intros s H Hs. cbn zeta.
  destruct (_ <? _); [by apply keeps_fault|]. destruct (negb _); [by apply keeps_terminal|].
  destruct (negb _); [by apply keeps_terminal|]. destruct (negb _); [by apply keeps_fault|].
  destruct (good_handshaking A s H ltac:(by left)) as (L & R & Hh).
  assert (handshaking A (adopt_server value s) L R) as H2 by (eapply handshaking_similar; [|exact Hh]; by apply similar_same).
  destruct (handshaking_table true A _ _ L R (failSentUnknown_ends A [msgr_ErrSessionDisconnected]) H2) as (s3 & L3 & R3 & -> & H3 & _).
  rewrite bind_Ok. eexists. split; [done|]. eapply similar_good; [apply similar_renewal|].
  apply (handshaking_good A StateReady _ L3 R3); [done|by right].
Qed.

Lemma good_same A s s' : good A s -> rest_of s' = rest_of s -> tab s' = tab s -> good A s'.
Proof. intros H Er Et. apply (similar_good A s); [by apply similar_same|done]. Qed.

(** The server asks to wait: the connection is given up at once. *)
Lemma handleWait_ok A s : good A s -> handshake_state (state s) ->
  exists s', handleFault [msgr_ErrSessionDisconnected] (emit EventWait (setState StateWait (count_transition s))) = Ok s' /\ good A s'.
Proof.
  intros H Hs. destruct (good_handshaking A s H Hs) as (L & R & [C _ (_ & _ & _ & Ht) _ _]).
  destruct (setState_frame StateWait (count_transition s)) as (F1 & _ & _ & F4 & _). injection F4 as _ _ _ F4.
  destruct (handleFault_live A [msgr_ErrSessionDisconnected] (emit EventWait (setState StateWait (count_transition s))) L R)
    as (s' & ? & ? & _); [|unfold live|eauto].
  - eapply similar_core; [apply similar_emit|]. apply setState_core. by apply (core_same A s).
  - destruct (rest_inv _ _ (sim_rest _ _ (similar_emit EventWait (setState StateWait (count_transition s)))))
      as (_ & _ & _ & Q4 & _ & _ & _ & Q8 & _). rewrite Q4, Q8, F1, F4. by split_and!.
Qed.

Lemma keeps_handleControl A w payload : keeps A (handleControl w payload).
Proof.
  intros s H. destruct payload; cbn [handleControl]; try (by apply keeps_fault); try (by apply keeps_terminal).
  - by apply handleServerIdent_ok.
  - apply (keeps_guarded A _ _ _ (guards_transition A StateReconnecting)); [|done]. intros s1 H1 E1. by apply handleReset_ok.
  - apply (keeps_guarded A _ _ _ (guards_transition A StateReconnecting)); [|done]. intros s1 H1 E1.
    destruct (_ =? _); [by apply keeps_terminal|]. apply keeps_sendReconnect.
    eapply similar_good; [apply similar_emit|]. by apply (good_same A s1).
  - apply (keeps_guarded A _ _ _ (guards_transition A StateReconnecting)); [|done]. intros s1 H1 E1.
    destruct (nextGlobalSequence _ _) as [next| |]; [|by apply keeps_terminal..]. apply keeps_sendReconnect.
    eapply similar_good; [apply similar_emit|]. by apply (good_same A s1).
  - apply (keeps_guarded A _ _ _ (guards_transition A StateReconnecting)); [|done]. intros s1 H1 E1. by apply handleReconnectOK_ok.
  - destruct (_ && _) eqn:Hb; [by apply keeps_fault|]. apply handleWait_ok; [done|].
    unfold is_state in Hb. unfold handshake_state. repeat case_bool_decide; auto. done.
  - apply (keeps_guarded A _ _ _ (guards_ready A)); [|done]. intros s1 H1 _. by apply keeps_queueControl.
  - apply (keeps_guarded A _ _ _ (guards_ready A)); [|done]. intros s1 H1 _. eexists. split; [done|].
    eapply similar_good; [apply similar_emit|done].
  - apply (keeps_guarded A _ _ _ (guards_ready A)); [|done]. intros s1 H1 _. revert s1 H1.
    apply (keeps_guarded A (fun _ => True)); [intros s1 H1; by apply (guards_ack A (fun _ => True))|]. intros s1 H1 _.
    destruct (keeps_table A _ (trimReplay_ends A Sequence) s1 H1) as (s2 & -> & H2). rewrite bind_Ok. eexists. split; [done|].
    eapply similar_good; [apply similar_emit|done].
Qed.

(** ** Received messages *)

Lemma keeps_release A r s : good A s -> good A (outs (release_receipt r) s).
Proof. intros H. eapply similar_good; [apply similar_outs, quiet_receipt|done]. Qed.

Lemma keeps_deliver A m : keeps A (deliver_unsolicited m).
Proof.
  intros s H. unfold deliver_unsolicited.
  destruct (keeps_terminal A [msgr_ErrQueueSaturated] s H) as (s1 & E1 & H1).
  destruct (_ || negb (MaxQueuedReceiveBytes _ =? 0)).
  - destruct (_ || _); [rewrite E1, bind_Ok; eexists; split; [done|]; by apply keeps_release|].
    eexists. split; [done|]. by apply (good_same A s).
  - destruct (_ <? _); [|rewrite E1, bind_Ok; eexists; split; [done|]; by apply keeps_release].
    eexists. split; [done|]. apply keeps_release. by apply (good_same A s).
Qed.

Lemma keeps_unsolicited A m sequence gen s : good A s ->
  exists s', (s ← queueAcknowledgment sequence s;
    if negb (controlGen s =? gen) then Ok (outs (release_receipt (receiveLease m)) s)
    else deliver_unsolicited (m <| TransportGeneration := gen |>) s) = Ok s' /\ good A s'.
Proof.
  intros H. destruct (keeps_queueAck A sequence s H) as (s1 & -> & H1). rewrite bind_Ok.
  destruct (negb _); [eexists; split; [done|]; by apply keeps_release|by apply keeps_deliver].
Qed.

Lemma keeps_handleMessage A m : keeps A (handleMessage m).
Proof.
  intros s H. unfold handleMessage.
  destruct (guards_ack A (fun _ => True) (AckSequence (Header (wire_message m))) s H I) as (b & s1 & -> & H1 & _).
  rewrite bind_Ok. destruct b; cbn [negb]; [|eexists; split; [done|]; by apply keeps_release]. cbn zeta.
  destruct (_ <=? _).
  { eexists. split; [done|]. apply keeps_release. eapply similar_good; [apply similar_emit|done]. }
  match goal with |- context [on_table _ (?x <| lastInbound := _ |>)] => set (s2 := x) end.
  assert (good A s2) as H2 by (unfold s2; destruct (_ && _); [eapply similar_good; [apply similar_emit|done]|done]).
  clearbody s2. assert (good A (s2 <| lastInbound := MsgrMessage.Sequence (Header (wire_message m)) |>)) as H3 by by apply (good_same A s2).
  destruct (keeps_table A _ (trimReplay_ends A (AckSequence (Header (wire_message m)))) _ H3) as (s4 & -> & H4). rewrite bind_Ok.
  destruct (byTID (tab s4) !! _) as [p|] eqn:Ep; [|by apply keeps_unsolicited].
  pose proof H4 as (L & R & C4 & K4). pose proof (co_table _ _ _ _ C4) as T4.
  destruct (proj1 (ok_tid _ _ _ _ T4 _ _) Ep) as [Hp (n & Hn & _)]. rewrite (deref_ok _ _ _ Hn), bind_Ok.
  destruct (negb _); [|by apply keeps_unsolicited].
  destruct (finish_shrinks A (tab s4) L R p (mkResult (Some m) None) T4 Hp) as (t & E & Ht & Sh).
  unfold on_table. rewrite E, !bind_Ok. apply keeps_queueAck. exists (rm p L), (rm p R). split.
  - by eapply (core_shrinks true A s4).
  - by eapply link_shrinks.
Qed.

Lemma keeps_handleFrame A w frame receipt : keeps A (handleFrame w frame receipt).
Proof.
  intros s H. unfold handleFrame.
  assert (forall f : owner -> res owner, keeps A f -> exists s', (s1 ← f s; Ok (outs (release_receipt receipt) s1)) = Ok s' /\ good A s') as Hr.
  { intros f Hf. destruct (Hf s H) as (s1 & -> & H1). rewrite bind_Ok. eexists. split; [done|]. by apply keeps_release. }
  destruct (_ =? _).
  - destruct (negb _); [by apply (Hr (handleFault [msgr_ErrMalformed])), keeps_fault|].
    pose proof (decodeMessage_no_panic frame (cfg_Limits (config s))) as Hn.
    destruct (decodeMessage _ _) as [m|e|]; [by apply keeps_handleMessage|by apply (Hr (handleFault [e])), keeps_fault|done].
  - destruct (if _ && _ then _ else _) as [err|]; [by apply (Hr (failTerminal err)), keeps_terminal|].
    pose proof (DecodeControl_no_panic frame (cfg_Limits (config s))) as Hn.
    destruct (DecodeControl _ _) as [payload|e|]; [|by apply (Hr (handleFault [e])), keeps_fault|done].
    by apply (Hr (handleControl w payload)), keeps_handleControl.
Qed.

(** ** Connections *)

(** A session without transport, about to be connected. *)
Record waiting (A : list nat) (s : owner) (L R : list nat) : Prop := {
  wt_core : core_ok A s L R;
  wt_dropped : dropped s;
  wt_connect : connectPending s = false;
  wt_terminal : terminalErr s = None }.

Lemma waiting_similar A s s' L R : similar s s' -> waiting A s L R -> waiting A s' L R.
Proof.
  intros Sim [C [D1 D2 D3 D4] W1 W2]. destruct (rest_inv _ _ (sim_rest _ _ Sim)) as (Q1 & Q2 & Q3 & Q4 & Q5 & Q6 & Q7 & Q8 & Q9 & Q10).
  split; [by eapply similar_core| |congruence..]. split; congruence.
Qed.

Lemma startTransport_core A t st s L R : core_ok A s L R -> len (controlQueue s) <= MaxQueuedMessages (config s) ->
  pendingAck s = 0 -> connectPending s = false -> terminalErr s = None -> handshake_state st \/ st = StateReady ->
  good A (startTransport t st s).
Proof.
  intros C D3 D4 W1 W2 Hst. unfold startTransport, stopTransportRenewal.
  apply (handshaking_good A st _ L R); [|done]. split; cbn.
  - apply (core_same A s); try done. cbn. lia.
  - apply (co_future _ _ _ _ C). lia.
  - unfold opened. cbn. by split_and!.
  - unfold pending_ack_slot. cbn. rewrite D4. cbn. lia.
  - done.
Qed.

Lemma startTransport_ok A t st s L R : waiting A s L R -> handshake_state st \/ st = StateReady ->
  good A (startTransport t st s).
Proof. intros [C [D1 D2 D3 D4] W1 W2]. by apply (startTransport_core A t st s L R). Qed.

Lemma failTerminal_closing A err t s L R : waiting A s L R ->
  exists s', failTerminal err (out (OClose (t_id t)) s) = Ok s' /\ good A s'.
Proof.
  intros H. destruct (failTerminal_ok A err (out (OClose (t_id t)) s) L R) as (s' & ? & ? & _); [|eauto].
  eapply similar_core; [by apply similar_out|apply H].
Qed.

Lemma resume_ok A w t s L R : waiting A s L R -> exists s', resume w t s = Ok s' /\ good A s'.
Proof.
  intros H. unfold resume. destruct (negb _).
  - destruct (_ =? _); [by eapply failTerminal_closing|]. apply keeps_sendReconnect.
    eapply startTransport_ok; [|by left; right]. eapply waiting_similar; [|exact H]. by apply similar_same.
  - unfold refreshClientCookie. destruct (source_Cookie w) as [cookie| |]; [|by eapply failTerminal_closing..].
    destruct (cookie =? 0); [by eapply failTerminal_closing|]. apply keeps_clientIdent.
    eapply startTransport_ok; [|by left; left]. eapply waiting_similar; [|exact H]. by apply similar_same.
Qed.

(** The identity the server has given the client is none of the limits. *)
Lemma set_client_id_ok A id s L R : waiting A s L R -> waiting A (s <| config ::= set_client_id id |>) L R.
Proof.
  intros [[C1 ? ? ? ? ? ? ? ? C10] [] W1 W2]. split; [|by split|done..]. split; try done.
  - by destruct C1.
  - by destruct C10.
Qed.

Lemma similar_credential t s : similar s (note_credential t s).
Proof. unfold note_credential. destruct (CredentialIdentity t); by apply similar_same. Qed.

Lemma waiting_reset A s L R : waiting A s L R -> exists s', resetForNewIdentity s = Ok s' /\ waiting A s' [] [].
Proof.
  intros [C [D1 D2 D3 D4] W1 W2]. destruct (resetForNewIdentity_core A s L R C) as (s' & -> & C' & El & Ep & _).
  eexists. split; [done|]. unfold link_of in El. injection El as E1 E2 E3 E4 E5 E6 E7 E8.
  split; [done|split; congruence|congruence..].
Qed.

Lemma connected_ok A w t s L R : waiting A s L R -> exists s', connected w t s = Ok s' /\ good A s'.
Proof.
  intros H. unfold connected.
  assert (waiting A (s <| terminalErr := None |> <| transitions := 0 |>) L R) as H1.
  { eapply waiting_similar; [|exact H]. apply similar_same; [|done]. unfold rest_of. cbn. by rewrite (wt_terminal _ _ _ _ H). }
  generalize dependent (s <| terminalErr := None |> <| transitions := 0 |>). clear H s. intros s H. cbn zeta.
  destruct (if connectedOnce s then _ else _) as [next| |]; [|by eapply failTerminal_closing..].
  assert (waiting A (observeTransportMode t (s <| globalSeq := next |> <| connectedOnce := true |>)) L R) as H1.
  { eapply waiting_similar; [|exact H]. eapply similar_trans; [|apply similar_observe]. by apply similar_same. }
  generalize dependent (observeTransportMode t (s <| globalSeq := next |> <| connectedOnce := true |>)). clear H s. intros s H.
  destruct (AuthenticatedGlobalID t) as [id|].
  2: { eapply resume_ok, waiting_similar; [apply similar_credential|exact H]. }
  destruct (_ <? _); [by eapply failTerminal_closing|].
  assert (waiting A (note_credential t (s <| config ::= set_client_id id |> <| authenticatedGlobalID := id |>)) L R) as H1.
  { eapply waiting_similar; [apply similar_credential|]. eapply waiting_similar; [|by apply (set_client_id_ok A id)]. by apply similar_same. }
  destruct (_ && _); [|rewrite bind_Ok; by eapply resume_ok].
  destruct (waiting_reset A _ _ _ H1) as (s2 & -> & H2). rewrite bind_Ok. by eapply resume_ok.
Qed.

Lemma good_waiting A s : good A s -> state s <> StateStopped -> connectPending s = true ->
  exists L R, waiting A (s <| connectPending := false |>) L R /\ state s = StateDisconnected.
Proof.
  intros (L & R & C & [K1 K2 K3 K4 K5]) Hs Hc. exists L, R. unfold conn_ok in K3. rewrite Hc in K3.
  destruct (state s) eqn:E; try done; try (by destruct K3 as (_ & _ & ? & _)).
  destruct K3 as (D1 & D2 & [[_ D3]|[? _]]); [|done]. pose proof (slot_range s). split; [|done]. split; [|split|..]; try done.
  - by apply (core_same A s).
  - cbn. lia.
  - cbn. by apply K5.
Qed.

Lemma keeps_handleConnected A w gen t err s : good A s -> state s <> StateStopped ->
  exists s', handleConnected w gen t err s = Ok s' /\ good A s'.
Proof.
  intros H Hs. unfold handleConnected. destruct (negb (gen =? _) || _) eqn:E.
  { eexists. split; [done|]. destruct t; [|done]. eapply similar_good; [by apply similar_out|done]. }
  apply orb_false_iff in E as [_ E]. apply negb_false_iff in E.
  destruct (good_waiting A s H Hs E) as (L & R & Hw & Hd).
  assert (forall e, exists s', beginReconnect (emit (EventTransportFault e) (s <| connectPending := false |>)) = Ok s' /\ good A s') as Hb.
  { intros e. pose proof (similar_emit (EventTransportFault e) (s <| connectPending := false |>)) as Sim.
    destruct (rest_inv _ _ (sim_rest _ _ Sim)) as (_ & _ & _ & Q4 & _).
    apply (waiting_similar _ _ _ _ _ Sim) in Hw as [C D W1 W2].
    destruct (beginReconnect_ok A _ L R C D) as (s' & ? & ? & _); [by rewrite Q4|done|eauto]. }
  destruct err, t; [apply Hb|apply Hb|by eapply connected_ok|apply Hb].
Qed.

(** ** Requests that end *)

Lemma keeps_finish A s L R p result : core_ok A s L R -> link_ok s L -> p ∈ L ->
  exists s', on_table (finish p result) s = Ok s' /\ good A s'.
Proof.
  intros C K Hp. destruct (finish_shrinks A (tab s) L R p result (co_table _ _ _ _ C) Hp) as (t & E & Ht & Sh).
  unfold on_table. rewrite E, bind_Ok. eexists. split; [done|]. exists (rm p L), (rm p R). split.
  - by eapply (core_shrinks true A s).
  - by eapply link_shrinks.
Qed.

(** A request that is looked up is in the table. *)
Lemma by_request A s L R r p : core_ok A s L R -> byRequest (tab s) !! r = Some p ->
  p ∈ L /\ exists n : pendingRequest, nodes (tab s) !! p = Some n /\ request_id n = r.
Proof. intros C E. exact (proj1 (ok_request _ _ _ _ (co_table _ _ _ _ C) _ _) E). Qed.

Lemma keeps_cancel A r err : keeps A (cancel r err).
Proof.
  intros s H. unfold cancel. destruct (byRequest (tab s) !! r) as [p|] eqn:E; [|eauto].
  pose proof H as (L & R & C & K). destruct (by_request A s L R r p C E) as [Hp (n & Hn & _)].
  unfold on_table, cancel_entry. rewrite (deref_ok _ _ _ Hn), bind_Ok. by apply (keeps_finish A s L R).
Qed.

Lemma keeps_handleWritten A r err : keeps A (handleWritten r err).
Proof.
  intros s H. unfold handleWritten. assert (good A (s <| writeBusy := false |>)) as H1 by by apply (good_same A s).
  generalize dependent (s <| writeBusy := false |>). clear H s. intros s H. cbn zeta.
  destruct err as [err|]; [by apply keeps_fault|]. destruct r as [r|]; [|eauto].
  destruct (byRequest (tab s) !! r) as [p|] eqn:E; [|eauto]. pose proof H as (L & R & C & K).
  destruct (by_request A s L R r p C E) as [Hp (n & Hn & _)]. rewrite (deref_ok _ _ _ Hn), bind_Ok.
  destruct (oneWay _); [by apply (keeps_finish A s L R)|eauto].
Qed.

Lemma keeps_handleRenewal A : keeps A (fun s => Ok (handleRenewal s)).
Proof.
  apply keeps_similar. intros s. unfold handleRenewal. cbn zeta. destruct (renewalInProgress _); [by apply similar_same|].
  eapply similar_trans; [|apply similar_diagnostic]. eapply similar_trans; [|apply similar_emit]. by apply similar_same.
Qed.

Lemma keeps_deliver_queued A : keeps A deliver_queued.
Proof.
  intros s H. unfold deliver_queued. destruct (receiveQueue s) as [|m rest]; [eauto|]. eexists. split; [done|].
  eapply good_same; [apply (keeps_release A (receiveLease m))|done..].
  eapply good_same; [eapply similar_good; [by apply (similar_out (OIncoming (m <| receiveLease := no_receipt |>)))|exact H]|done..].
Qed.

(** ** The end of the session *)

(** Everything [stop] does after the requests have ended. *)
Definition closing (drained : list received) (s : owner) : owner :=
  let s := stopTransportRenewal (out OCancelConnector s) in
  let s := match transport s with Some t => out (OClose (t_id t)) s | None => s end in
  let s := releaseReceiveQueue (outs (concat (release_receipt <$> drained)) s) in
  clearPendingAcknowledgment (out OStopped (s <| transport := None |>)).

Lemma similar_closing drained s : similar (s <| transport := None |> <| pendingAck := 0 |>) (closing drained s).
Proof.
  unfold closing. set (s1 := stopTransportRenewal _). assert (similar s s1) as S1.
  { eapply similar_trans; [by apply (similar_out OCancelConnector)|by apply similar_same]. }
  set (s2 := match transport s1 with Some _ => _ | None => _ end). assert (similar s s2) as S2.
  { eapply similar_trans; [exact S1|]. unfold s2. destruct (transport s1); [by apply similar_out|apply similar_refl]. }
  assert (similar s (releaseReceiveQueue (outs (concat (release_receipt <$> drained)) s2))) as S3.
  { eapply similar_trans; [exact S2|]. eapply similar_trans; [apply similar_outs, quiet_receipts|apply similar_release]. }
  generalize dependent (releaseReceiveQueue (outs (concat (release_receipt <$> drained)) s2)). clear s2 s1 S1 S2.
  intros s3 [E (os & Hq & T)]. apply rest_inv in E as (Q1 & Q2 & Q3 & Q4 & Q5 & Q6 & Q7 & Q8 & Q9 & Q10).
  injection Q3 as Q3 Q3'. split.
  - unfold rest_of. cbn. by rewrite Q1, Q2, Q3, Q3', Q4, Q6, Q7, Q8, Q9.
  - exists (os ++ [OStopped]). split; [apply Forall_app_2; [done|by repeat constructor]|].
    unfold tell in *. rewrite foldl_app. cbn. by rewrite T.
Qed.

(** Nothing is left when the session has stopped. *)
Lemma stop_ok A drained s : good A s -> exists s', stop drained s = Ok s' /\ core_ok A s' [] [] /\ state s' = StateStopped /\
  transport s' = None.
Proof.
  intros (L & R & C & K). unfold stop.
  destruct (invalidateControls_core A s L R C) as (s1 & L1 & R1 & -> & C1 & _). rewrite bind_Ok.
  destruct (setState_frame StateStopped s1) as (F1 & _).
  assert (core_ok A (setState StateStopped s1) L1 R1) as C2 by by apply setState_core.
  generalize dependent (setState StateStopped s1). intros s2 F1 C2. cbn zeta.
  assert (similar s2 (if renewalInProgress s2 then emitDiagnostic DiagnosticSessionClosed s2 else s2)) as S3.
  { destruct (renewalInProgress s2); [apply similar_diagnostic|apply similar_refl]. }
  generalize dependent (if renewalInProgress s2 then emitDiagnostic DiagnosticSessionClosed s2 else s2). intros s3 S3.
  assert (core_ok A s3 L1 R1) as C3 by by eapply similar_core.
  destruct (on_table_failAll A [msgr_ErrSessionClosed] s3 L1 R1 C3) as (t & -> & Ht & Sh). rewrite bind_Ok.
  set (s4 := s3 <| tab := t |>). assert (core_ok A s4 [] []) as C4 by (eapply core_empty; [exact C3|done|done|done|by left|done]).
  pose proof (similar_closing drained s4) as S5. exists (closing drained s4).
  split; [done|]. destruct (rest_inv _ _ (sim_rest _ _ S3)) as (_ & _ & _ & Q4 & _).
  destruct (rest_inv _ _ (sim_rest _ _ S5)) as (_ & _ & _ & P4 & P5 & _).
  split_and!; [|rewrite P4; cbn; congruence|by rewrite P5].
  eapply similar_core; [exact S5|]. by apply (core_same A s4).
Qed.
