(* ===== verification/SessionSend.v ===== *)
(** * Writing and admitting requests keeps the invariant of a session

    The sender chooses the next request, numbers it if it has no number and
    hands it to the writer; the numbers written on one transport increase.  The
    admission of a command keeps the configured limits. *)

From stdpp Require Import base gmap list numbers sorting.
From coqutil Require Import Byte Word.LittleEndianList Datatypes.RecordSettersUsingExistingGetters.
From S2P Require Import Prelude Codec Crc Protocol MsgrFrame MsgrMessage Control.
From stdpp Require Import list.
From S2P Require Import SessionTable Session SessionInv SessionTurn.

Open Scope Z_scope.
Open Scope go_scope.

(** ** The table *)

Definition sending (sequence ack : Z) (e : entry) : entry :=
  e <| seq := sequence |> <| message ::= set_sequences sequence ack |>.

Definition launched (e : entry) : entry := e <| sent := true |> <| mayHaveExecuted := true |>.

Lemma number_entry_ok A t L R p (n : pendingRequest) sequence ack : table_ok A t L R -> p ∈ L -> nodes t !! p = Some n ->
  exists t', number_entry sequence ack p t = Ok t' /\ table_ok A t' L R /\
    nodes t' = <[p := n <| body ::= sending sequence ack |>]> (nodes t) /\ trace t' = trace t.
Proof.
  intros H Hp Hn. unfold number_entry. rewrite (update_ok _ _ _ _ Hn). eexists. split; [done|]. split_and!; [|done..].
  apply (update_entry_ok A t L R p n (sending sequence ack n) (inFlight t)); try done. unfold flying. cbn. lia.
Qed.

Lemma mark_sent_ok A t L R p (n : pendingRequest) : table_ok A t L R -> p ∈ L -> nodes t !! p = Some n -> sent n = false ->
  exists t' R' (n' : pendingRequest), mark_sent p t = Ok t' /\ table_ok A t' L R' /\ agree (rm p L) (nodes t) (nodes t') /\
    nodes t' !! p = Some n' /\ body n' = launched n /\ trace t' = trace t ++ retains (message n).
Proof.
  intros H Hp Hn Hs. unfold mark_sent. rewrite (deref_ok _ _ _ Hn), bind_Ok. cbn zeta.
  set (k := inFlight t + flying (launched n) - flying n).
  set (t1 := t <| nodes := <[p := n <| body := launched n |>]> (nodes t) |> <| inFlight := k |>).
  assert (table_ok A t1 L R) as H1 by by apply update_entry_ok.
  assert (update p (fun n => n <| body ::= fun e => e <| sent := true |> <| mayHaveExecuted := true |> |>)
    (if negb (control (request n)) then t <| inFlight ::= fun k => k + 1 |> else t) = Ok t1) as ->.
  { unfold t1, k, flying. rewrite Hs. cbn [sent launched]. destruct (control (request n)) eqn:Ec; cbn [negb].
    - unfold update, deref. cbn. rewrite Hn, Ec. cbn. by rewrite Z.add_0_r, Z.sub_0_r.
    - unfold update, deref. cbn. rewrite Hn, Ec. cbn. by rewrite Z.sub_0_r. }
  rewrite bind_Ok. assert (nodes t1 !! p = Some (n <| body := launched n |>)) as Hn1 by apply lookup_insert_eq.
  destruct (addReplay_ok A t1 L R p _ H1 Hp Hn1) as (t2 & -> & H2 & Ag & Tr). rewrite bind_Ok.
  destruct (agree_lookup _ _ _ _ _ Ag Hp Hn1) as (n' & Hn' & Eb). cbn in Eb.
  assert (agree (rm p L) (nodes t) (nodes t2)) as Ag'.
  { intros q [Hne Hq]%elem_of_rm. rewrite (Ag q Hq). cbn. by rewrite lookup_insert_ne. }
  destruct (payloadLease (message n)) as [lease|] eqn:El; eexists _, _, n'.
  - split_and!; [done|by apply emitted_ok|done..|]. cbn. rewrite Tr. unfold retains. by rewrite El.
  - split_and!; [done|exact H2|done..|]. rewrite Tr. unfold retains. by rewrite El, app_nil_r.
Qed.

(** ** Numbers *)

Lemma allocate_spec A s L R : core_ok A s L R ->
  match allocateSequence s with
  | (Ok sequence, s') => sequenceExhausted s = false /\ sequence = high s /\ high s' = high s + 1 /\ 0 < sequence <= MaxUint64 /\
      s' = s <| sequenceExhausted := sequenceExhausted s' |> <| nextOutbound := nextOutbound s' |> /\
      (sequenceExhausted s' = false -> nextOutbound s' < 2 ^ 64)
  | (Err _, s') => s' = s
  | (Panic, _) => False
  end.
Proof.
  intros C. destruct (co_high _ _ _ _ C) as [Hh Hn]. unfold allocateSequence, high in *.
  destruct (sequenceExhausted s) eqn:E; [done|]. specialize (Hn eq_refl).
  destruct (Z.eqb_spec (nextOutbound s) 0) as [?|_]; [lia|]. unfold MaxUint64 in *.
  destruct (Z.eqb_spec (nextOutbound s) (2 ^ 64 - 1)) as [Em|Em]; split_and!; try done; cbn; rewrite ?E; try done; lia.
Qed.

(** The least free number may only grow. *)
Lemma core_raise A s s' L R : core_ok A s L R -> tab s' = tab s -> config s' = config s -> generation s' = generation s ->
  high s <= high s' <= 2 ^ 64 -> (sequenceExhausted s' = false -> nextOutbound s' < 2 ^ 64) -> core_ok A s' L R.
Proof.
  intros [C1 C2 C3 C4 C5 C6 [C7 _] C8 C9 C10] Et Ec Eg Hh Hx. split; rewrite ?Et, ?Ec, ?Eg; auto.
  - intros p n Hp Hn. specialize (C6 p n Hp Hn). lia.
  - split; [lia|done].
Qed.

(** ** One request is written *)

Lemma sorted_snoc (l : list Z) x : StronglySorted Z.lt l -> (forall y, y ∈ l -> y < x) -> StronglySorted Z.lt (l ++ [x]).
Proof.
  induction 1 as [|a l Hs IH Hf]; intros Hx; cbn; [by repeat constructor|]. constructor.
  - apply IH. intros y Hy. apply Hx. by right.
  - apply Forall_app_2; [done|]. repeat constructor. apply Hx. by left.
Qed.

Lemma app_seqs_app ns X Y : app_seqs ns (X ++ Y) = app_seqs ns X ++ app_seqs ns Y.
Proof. apply omap_app. Qed.

Lemma sorted_app_l {X} (Q : X -> X -> Prop) a b : StronglySorted Q (a ++ b) -> StronglySorted Q a.
Proof. apply StronglySorted_sublist, sublist_inserts_r. done. Qed.

Lemma sorted_app_r {X} (Q : X -> X -> Prop) a b : StronglySorted Q (a ++ b) -> StronglySorted Q b.
Proof. apply StronglySorted_sublist, sublist_inserts_l. done. Qed.

Lemma sorted_cross {X} (Q : X -> X -> Prop) a b x y : StronglySorted Q (a ++ b) -> x ∈ a -> y ∈ b -> Q x y.
Proof.
  induction a as [|z a IH]; intros Hs Hx Hy; [by apply elem_of_nil in Hx|]. cbn in Hs. inversion Hs as [|? ? Hs' Hf]; subst.
  apply elem_of_cons in Hx as [->|Hx]; [|auto]. rewrite Forall_forall in Hf. apply Hf, elem_of_app. by right.
Qed.

Lemma sorted_join {X} (Q : X -> X -> Prop) a b : StronglySorted Q a -> StronglySorted Q b ->
  (forall x y, x ∈ a -> y ∈ b -> Q x y) -> StronglySorted Q (a ++ b).
Proof.
  induction 1 as [|z a Hs IH Hf]; intros Hb Hx; [done|]. cbn. constructor.
  - apply IH; [done|]. intros x y ? ?. apply Hx; [by right|done].
  - apply Forall_app_2; [done|]. rewrite Forall_forall. intros y Hy. apply Hx; [by left|done].
Qed.

(** The chosen request [p] gets the number [sigma] and is sent: [n'] in [s']. *)
Record sends (s : owner) (L : list nat) (p : nat) (n : pendingRequest) (sigma : Z) (s' : owner) (n' : pendingRequest) : Prop := {
  sd_number : seq n <> 0 /\ sigma = seq n /\ high s' = high s \/
              seq n = 0 /\ sigma = high s /\ high s' = high s + 1;
  sd_agree : agree (rm p L) (nodes (tab s)) (nodes (tab s'));
  sd_node : nodes (tab s') !! p = Some n';
  sd_request : request n' = request n;
  sd_bytes : p_bytes n' = p_bytes n;
  sd_seq : seq n' = sigma;
  sd_sent : sent n' = true;
  sd_written : forall g, written g (trace (tab s')) = written g (trace (tab s)) ++ (if generation s =? g then [sigma] else []);
  sd_config : config s' = config s;
  sd_generation : generation s' = generation s }.

Section Sends.
Context (A : list nat) (s : owner) (L R : list nat) (p : nat) (n : pendingRequest) (sigma : Z) (s' : owner) (n' : pendingRequest).
Context (C : core_ok A s L R) (K : link_ok s L).
Context (Hp : p ∈ L) (Hn : nodes (tab s) !! p = Some n) (Hu : sent n = false).
Context (Hpref : forall q (m : pendingRequest), q ∈ L -> nodes (tab s) !! q = Some m -> sent m = false -> preferred n m).
Context (Hpos : seq n = 0 -> control (request n) = false -> exists L1 L2, L = L1 ++ p :: L2 /\
  forall q (m : pendingRequest), q ∈ L1 -> nodes (tab s) !! q = Some m -> sent m = true).
Context (S : sends s L p n sigma s' n').

Lemma sends_look q (m : pendingRequest) : q ∈ L -> nodes (tab s') !! q = Some m ->
  q = p /\ m = n' \/ q <> p /\ exists m0 : pendingRequest, nodes (tab s) !! q = Some m0 /\ body m0 = body m.
Proof.
  intros Hq Hm. destruct (decide (q = p)) as [->|Hne].
  - left. split; [done|]. pose proof (sd_node _ _ _ _ _ _ _ S). congruence.
  - right. split; [done|]. eapply agree_lookup; [apply agree_sym; apply S|by apply elem_of_rm|done].
Qed.

Lemma sends_high : 0 < sigma < high s' /\ high s <= high s' /\ sigma <= high s.
Proof.
  pose proof (co_seqs _ _ _ _ C p n Hp Hn). destruct (co_high _ _ _ _ C) as [? _].
  destruct (sd_number _ _ _ _ _ _ _ S) as [(? & ? & ?)|(? & ? & ?)]; lia.
Qed.

(** The other requests that wait for this transport come later. *)
Lemma sends_least q (m : pendingRequest) : q ∈ L -> q <> p -> nodes (tab s) !! q = Some m -> sent m = false -> seq m <> 0 ->
  sigma < seq m.
Proof.
  intros Hq Hne Hm Hum Hz. destruct (Hpref q m Hq Hm Hum) as [H1 H2]. destruct (H1 Hz) as [H3 H4].
  destruct (sd_number _ _ _ _ _ _ _ S) as [(_ & -> & _)|(? & _)]; [|done].
  assert (seq n <> seq m); [|lia]. intros E. apply Hne. symmetry. by apply (co_distinct _ _ _ _ C p q n m).
Qed.

Lemma sends_fresh x : x ∈ written (generation s) (trace (tab s)) -> x < sigma.
Proof.
  intros Hx. destruct (lk_next _ _ K x Hx) as [H1 H2].
  destruct (sd_number _ _ _ _ _ _ _ S) as [(? & -> & _)|(_ & -> & _)]; [by apply (H2 p n)|done].
Qed.

Lemma sends_seqs X : X ⊆ rm p L -> app_seqs (nodes (tab s')) X = app_seqs (nodes (tab s)) X.
Proof.
  intros HX. apply app_seqs_same. intros q Hq. apply HX in Hq.
  assert (q ∈ L) as HqL by (apply elem_of_rm in Hq; tauto).
  destruct (ok_lookup _ _ _ _ _ (co_table _ _ _ _ C) HqL) as [m Hm].
  destruct (agree_lookup _ _ _ _ _ (sd_agree _ _ _ _ _ _ _ S) Hq Hm) as (m' & Hm' & Eb). exists m, m'.
  rewrite Eb. by split_and!.
Qed.

Lemma sends_numbered : numbered (nodes (tab s')) L.
Proof.
  pose proof (co_numbered _ _ _ _ C) as Hnum. unfold numbered in *.
  pose proof (lane_nodup _ _ _ _ (ok_pending _ _ _ _ (co_table _ _ _ _ C))) as Nd.
  destruct (decide (control (request n) = true \/ seq n <> 0)) as [Hsame|Hnew].
  - assert (app_seqs (nodes (tab s')) L = app_seqs (nodes (tab s)) L) as ->; [|done].
    destruct (member_split p L Nd Hp) as (L1 & L2 & EL & Erm & _ & _).
    assert (app_seqs (nodes (tab s')) [p] = app_seqs (nodes (tab s)) [p]) as Eone.
    { unfold app_seqs. cbn. rewrite Hn, (sd_node _ _ _ _ _ _ _ S). cbn. rewrite (sd_request _ _ _ _ _ _ _ S), (sd_seq _ _ _ _ _ _ _ S).
      destruct (control (request n)) eqn:Ec; [done|]. destruct Hsame as [?|Hz]; [done|].
      destruct (sd_number _ _ _ _ _ _ _ S) as [(_ & -> & _)|(? & _)]; [done|congruence]. }
    rewrite EL. change (p :: L2) with ([p] ++ L2). rewrite !app_seqs_app, Eone.
    rewrite (sends_seqs L1), (sends_seqs L2); [done|rewrite Erm; intros ? ?; apply elem_of_app; auto..].
  - assert (control (request n) = false /\ seq n = 0) as [Hc Hz].
    { destruct (control (request n)); [by destruct Hnew; left|]. split; [done|]. destruct (decide (seq n = 0)); [done|].
      destruct Hnew. by right. }
    destruct (Hpos Hz Hc) as (L1 & L2 & EL & Hsent). rewrite EL in Nd, Hnum.
    assert (p ∉ L1 /\ p ∉ L2) as [Hp1 Hp2].
    { rewrite <- Permutation_middle in Nd. apply NoDup_cons in Nd as [Hnot _]. by apply not_elem_of_app in Hnot. }
    assert (rm p L = L1 ++ L2) as Erm by (rewrite EL; by apply rm_app).
    rewrite EL. change (p :: L2) with ([p] ++ L2) in *. rewrite !app_seqs_app in *.
    rewrite (sends_seqs L1), (sends_seqs L2) by (rewrite Erm; intros ? ?; apply elem_of_app; auto).
    assert (app_seqs (nodes (tab s)) [p] = [0]) as Eold by (rewrite (app_seqs_cons _ p n) by done; cbn; by rewrite Hz).
    assert (app_seqs (nodes (tab s')) [p] = [sigma]) as Enew.
    { rewrite (app_seqs_cons _ p n'); [|apply S|by rewrite (sd_request _ _ _ _ _ _ _ S)]. cbn. by rewrite (sd_seq _ _ _ _ _ _ _ S). }
    rewrite Enew. rewrite Eold in Hnum.
    assert (forall y, y ∈ app_seqs (nodes (tab s)) L2 -> y = 0) as Hzero.
    { intros y Hy. apply sorted_app_r in Hnum. destruct (sorted_cross _ [0] _ 0 y Hnum) as [?|?]; [by left|done|done|lia]. }
    apply sorted_join; [by eapply sorted_app_l| |].
    + apply SSorted_cons; [exact (sorted_app_r _ [0] _ (sorted_app_r _ _ _ Hnum))|]. rewrite Forall_forall. intros y Hy. left. auto.
    + intros x y Hx Hy. apply elem_of_app in Hy as [Hy|Hy]; [|left; auto]. apply list_elem_of_singleton in Hy as ->. right.
      apply list_elem_of_omap in Hx as (q & Hq & Hxq). destruct (nodes (tab s) !! q) as [m|] eqn:Em; [|done]. cbn in Hxq.
      destruct (control (request m)); [done|]. injection Hxq as <-.
      assert (q ∈ L) as HqL by (rewrite EL; apply elem_of_app; auto).
      pose proof (co_sent _ _ _ _ C q m HqL Em (Hsent q m Hq Em)). pose proof (co_seqs _ _ _ _ C q m HqL Em).
      destruct (sd_number _ _ _ _ _ _ _ S) as [(? & _)|(_ & -> & _)]; [done|lia].
Qed.

Lemma sends_distinct q r (a b : pendingRequest) : q ∈ L -> r ∈ L -> nodes (tab s') !! q = Some a -> nodes (tab s') !! r = Some b ->
  seq a = seq b -> seq a <> 0 -> q = r.
Proof.
  intros Hq Hr Ha Hb E Hz.
  assert (forall x (c : pendingRequest), x ∈ L -> x <> p -> nodes (tab s) !! x = Some c -> seq c <> sigma) as Hother.
  { intros x c Hx Hne Hcx Ec. destruct (sd_number _ _ _ _ _ _ _ S) as [(Hz0 & E0 & _)|(_ & E0 & _)].
    - apply Hne. apply (co_distinct _ _ _ _ C x p c n); congruence.
    - pose proof (co_seqs _ _ _ _ C x c Hx Hcx). lia. }
  destruct (sends_look q a Hq Ha) as [[-> ->]|(Hqp & a0 & Ha0 & Ea)], (sends_look r b Hr Hb) as [[-> ->]|(Hrp & b0 & Hb0 & Eb)].
  - done.
  - rewrite (sd_seq _ _ _ _ _ _ _ S) in E. destruct (Hother r b0 Hr Hrp Hb0). congruence.
  - rewrite (sd_seq _ _ _ _ _ _ _ S) in E. destruct (Hother q a0 Hq Hqp Ha0). congruence.
  - apply (co_distinct _ _ _ _ C q r a0 b0); congruence.
Qed.

Lemma sends_total (f : entry -> Z) : total f (nodes (tab s')) L = total f (nodes (tab s)) L + f n' - f n.
Proof.
  pose proof (lane_nodup _ _ _ _ (ok_pending _ _ _ _ (co_table _ _ _ _ C))) as Nd.
  rewrite (total_rm f (nodes (tab s)) L p n Nd Hp Hn), (total_rm f _ L p n' Nd Hp) by apply S.
  rewrite (total_agree f (nodes (tab s))) by apply S. lia.
Qed.

Lemma sends_within : (control (request n) = false -> total flying (nodes (tab s)) L < MaxInFlightTransactions (config s)) ->
  within (config s') (nodes (tab s')) L.
Proof.
  intros Hf. rewrite (sd_config _ _ _ _ _ _ _ S). destruct (co_within _ _ _ _ C) as [W1 W2 W3 W4 W5].
  split; rewrite sends_total; unfold app_count, app_bytes, ctl_count, ctl_bytes, flying in *;
    rewrite ?(sd_request _ _ _ _ _ _ _ S), ?(sd_bytes _ _ _ _ _ _ _ S), ?(sd_sent _ _ _ _ _ _ _ S), ?Hu; try lia.
  destruct (control (request n)); cbn; [lia|]. specialize (Hf eq_refl). lia.
Qed.

Lemma sends_core R' : table_ok A (tab s') L R' -> high s' <= 2 ^ 64 -> (sequenceExhausted s' = false -> nextOutbound s' < 2 ^ 64) ->
  (control (request n) = false -> total flying (nodes (tab s)) L < MaxInFlightTransactions (config s)) ->
  core_ok A s' L R'.
Proof.
  intros T Hh Hx Hf. destruct sends_high as (H1 & H2 & H3). destruct (co_high _ _ _ _ C) as [H4 _].
  split; [rewrite (sd_config _ _ _ _ _ _ _ S); apply C|done|apply sends_numbered| |exact sends_distinct| |split; [lia|done]| | |by apply sends_within].
  - intros q m Hq Hm Hs. destruct (sends_look q m Hq Hm) as [[-> ->]|(_ & m0 & Hm0 & E)].
    + rewrite (sd_seq _ _ _ _ _ _ _ S). lia.
    + rewrite <- E in *. by apply (co_sent _ _ _ _ C q m0).
  - intros q m Hq Hm. destruct (sends_look q m Hq Hm) as [[-> ->]|(_ & m0 & Hm0 & E)].
    + rewrite (sd_seq _ _ _ _ _ _ _ S). lia.
    + rewrite <- E. pose proof (co_seqs _ _ _ _ C q m0 Hq Hm0). lia.
  - intros g. rewrite (sd_written _ _ _ _ _ _ _ S). destruct (Z.eqb_spec (generation s) g) as [<-|_].
    + apply sorted_snoc; [apply C|]. exact sends_fresh.
    + rewrite app_nil_r. apply C.
  - intros g. rewrite (sd_generation _ _ _ _ _ _ _ S). intros Hg. rewrite (sd_written _ _ _ _ _ _ _ S), (co_future _ _ _ _ C) by done.
    destruct (Z.eqb_spec (generation s) g); [lia|done].
Qed.

Lemma sends_next x : x ∈ written (generation s') (trace (tab s')) -> x < high s' /\
  forall q (m : pendingRequest), q ∈ L -> nodes (tab s') !! q = Some m -> sent m = false -> seq m <> 0 -> x < seq m.
Proof.
  rewrite (sd_generation _ _ _ _ _ _ _ S), (sd_written _ _ _ _ _ _ _ S), Z.eqb_refl. destruct sends_high as (H1 & H2 & H3).
  intros Hx. assert (x <= sigma) as Hle.
  { apply elem_of_app in Hx as [Hx|Hx]; [by apply Z.lt_le_incl, sends_fresh|]. apply list_elem_of_singleton in Hx. lia. }
  split; [lia|]. intros q m Hq Hm Hs Hz. destruct (sends_look q m Hq Hm) as [[-> ->]|(Hne & m0 & Hm0 & E)].
  - by rewrite (sd_sent _ _ _ _ _ _ _ S) in Hs.
  - rewrite <- E in *. pose proof (sends_least q m0 Hq Hne Hm0 Hs Hz). lia.
Qed.
End Sends.

(** *** The request is numbered, encoded and handed to the writer *)

(** Only the numbers differ. *)
Definition others (s : owner) :=
  (config s, generation s, state s, (transport s, writeTasks s), (connectPending s, terminalErr s), (controlQueue s, pendingAck s)).

Lemma link_raise s s' L : link_ok s L -> tab s' = tab s -> others s' = others s -> high s <= high s' -> link_ok s' L.
Proof.
  intros [H1 H2 H3 H4 H5] Et E Hh. injection E as E1 E2 E3 E4 E5 E6 E7 E8 E9.
  split; unfold idle, conn_ok, pending_ack_slot in *; rewrite ?Et, ?E1, ?E2, ?E3, ?E4, ?E5, ?E6, ?E7, ?E8, ?E9; auto.
  intros x Hx. destruct (H1 x Hx) as [? ?]. split; [lia|done].
Qed.

Lemma on_table_set f s t : on_table f (s <| tab := t |>) = (t' ← f t; Ok (s <| tab := t' |>)).
Proof. done. Qed.

Lemma written_retains g m : written g (retains m) = [].
Proof. unfold retains. by destruct (payloadLease m). Qed.

(** The rest of [send_entry], with the number [sigma]. *)
Definition write_entry (p : nat) (e : entry) (sigma : Z) (s : owner) : res owner :=
  s ← on_table (number_entry sigma (lastInbound s) p) s;
  match encodeMessage (wire_message (set_sequences sigma (lastInbound s) (message e))) (cfg_Limits (config s)) with
  | Panic => Panic
  | Err err => on_table (finish p (failed [err])) s
  | Ok frame =>
      s ← on_table (mark_sent p) (clearPendingAcknowledgment s);
      Ok (sendWrite frame (Some (command_id (request e))) sigma (transaction e) s)
  end.

Section Writing.
Context (A : list nat) (s : owner) (L R : list nat) (p : nat) (n : pendingRequest) (sigma : Z).
Context (C : core_ok A s L R) (K : link_ok s L) (Ready : state s = StateReady).
Context (Hp : p ∈ L) (Hn : nodes (tab s) !! p = Some n) (Hu : sent n = false).
Context (Hpref : forall q (m : pendingRequest), q ∈ L -> nodes (tab s) !! q = Some m -> sent m = false -> preferred n m).
Context (Hpos : seq n = 0 -> control (request n) = false -> exists L1 L2, L = L1 ++ p :: L2 /\
  forall q (m : pendingRequest), q ∈ L1 -> nodes (tab s) !! q = Some m -> sent m = true).
Context (Hf : control (request n) = false -> total flying (nodes (tab s)) L < MaxInFlightTransactions (config s)).
Context (s1 : owner) (E1 : tab s1 = tab s) (O1 : others s1 = others s).
Context (Hnum : seq n <> 0 /\ sigma = seq n /\ high s1 = high s \/ seq n = 0 /\ sigma = high s /\ high s1 = high s + 1).
Context (Hh : high s1 <= 2 ^ 64) (Hx : sequenceExhausted s1 = false -> nextOutbound s1 < 2 ^ 64).

Lemma writing_raised : core_ok A s1 L R /\ link_ok s1 L.
Proof.
  pose proof O1 as O2. unfold others in O2. injection O2 as Q1 Q2 Q3 Q4 Q5 Q6 Q7 Q8 Q9.
  assert (high s <= high s1) by lia. split; [by apply (core_raise A s)|by apply (link_raise s)].
Qed.

(** A message that cannot be encoded ends the request. *)
Lemma writing_fails err t1 (n1 : pendingRequest) : table_ok A t1 L R -> nodes t1 = <[p := n1]> (nodes (tab s)) ->
  trace t1 = trace (tab s) ->
  exists s', on_table (finish p (failed err)) (s1 <| tab := t1 |>) = Ok s' /\ good A s'.
Proof.
  intros T1 N1 Tr1. destruct writing_raised as [C1 K1]. rewrite on_table_set.
  destruct (finish_entry_ok A t1 L R p n1 (failed err) T1 Hp) as (t2 & E & T2 & Ag & _ & Tr2); [rewrite N1; apply lookup_insert_eq|].
  rewrite E, bind_Ok. eexists. split; [done|]. exists (rm p L), (rm p R).
  assert (shrinks true (tab s1) L t2 (rm p L)) as Sh.
  { rewrite E1. apply shrinks_agree; [apply rm_sublist| |].
    - eapply agree_trans; [|exact Ag]. intros q [Hne _]%elem_of_rm. by rewrite N1, lookup_insert_ne.
    - intros g. rewrite Tr2, Tr1, !written_app, written_released. cbn. by rewrite app_nil_r. }
  split; [by eapply (core_shrinks true A s1)|]. eapply (link_shrinks s1 L); [exact K1|done|exact Sh].
Qed.

Lemma write_entry_ok : exists s', write_entry p n sigma s1 = Ok s' /\ good A s'.
Proof.
  destruct (number_entry_ok A (tab s) L R p n sigma (lastInbound s1) (co_table _ _ _ _ C) Hp Hn) as (t1 & En & T1 & N1 & Tr1).
  set (s2 := s1 <| tab := t1 |>). unfold write_entry.
  replace (on_table (number_entry sigma (lastInbound s1) p) s1) with (Ok s2) by (unfold on_table; rewrite E1, En; done).
  rewrite bind_Ok.
  pose proof (encodeMessage_no_panic (wire_message (set_sequences sigma (lastInbound s2) (message n))) (cfg_Limits (config s2))) as Hnp.
  destruct (encodeMessage _ _) as [frame|err|]; [|by eapply writing_fails|done].
  change (clearPendingAcknowledgment s2) with ((clearPendingAcknowledgment s1) <| tab := t1 |>). rewrite on_table_set.
  assert (nodes t1 !! p = Some (n <| body ::= sending sigma (lastInbound s1) |>)) as Hn1 by (rewrite N1; apply lookup_insert_eq).
  destruct (mark_sent_ok A t1 L R p _ T1 Hp Hn1 Hu) as (t2 & R' & n' & -> & T2 & Ag & Hn' & Eb & Tr2). rewrite !bind_Ok.
  eexists. split; [done|]. set (s' := sendWrite _ _ _ _ _).
  pose proof O1 as O2. unfold others in O2. injection O2 as Q1 Q2 Q3 Q4 Q5 Q6 Q7 Q8 Q9.
  assert (sends s L p n sigma s' n') as S.
  { split; try exact Hn'; try (by rewrite ?Eb); try done.
    - eapply agree_trans; [|exact Ag]. intros q [Hne _]%elem_of_rm. by rewrite N1, lookup_insert_ne.
    - intros g. transitivity (written g (trace t2) ++ written g [OWrite (generation s1) (nextWriteID s1 + 1) frame
        (Some (command_id (request n))) sigma (transaction n)]); [by rewrite <- written_app|].
      rewrite Tr2, Tr1, written_app, written_retains, app_nil_r. f_equal. cbn. rewrite Q2. by destruct (_ =? g). }
  exists L, R'. split.
  - eapply (sends_core A s L R p n sigma s' n'); eauto. by apply emitted_ok.
  - destruct K as [K1 K2 K3 K4 K5]. pose proof (slot_range s). split.
    + eapply (sends_next A s L R p n sigma s' n'); eauto.
    + intros [Hi _]. cbn in Hi. congruence.
    + unfold conn_ok in *. cbn. by rewrite Q3, Q4, Q5, Q6, Q7.
    + cbn. rewrite Q1, Q8. lia.
    + done.
Qed.
End Writing.

Lemma send_entry_ok A s L R p (n : pendingRequest) : core_ok A s L R -> link_ok s L -> state s = StateReady ->
  nodes (tab s) !! p = Some n -> choice (nodes (tab s)) L (Some p) ->
  (control (request n) = false -> total flying (nodes (tab s)) L < MaxInFlightTransactions (config s)) ->
  exists s', send_entry p s = Ok s' /\ good A s'.
Proof.
  intros C K Hs Hn (n0 & Hp & Hn0 & Hu & Hpref & Hpos) Hf. rewrite Hn in Hn0. injection Hn0 as <-.
  unfold send_entry. rewrite (deref_ok _ _ _ Hn), bind_Ok. cbn zeta.
  assert (forall sigma s1, tab s1 = tab s -> others s1 = others s ->
    (seq n <> 0 /\ sigma = seq n /\ high s1 = high s \/ seq n = 0 /\ sigma = high s /\ high s1 = high s + 1) ->
    high s1 <= 2 ^ 64 -> (sequenceExhausted s1 = false -> nextOutbound s1 < 2 ^ 64) ->
    exists s', write_entry p n sigma s1 = Ok s' /\ good A s') as Hw by (intros; by eapply write_entry_ok).
  destruct (co_high _ _ _ _ C) as [Hh Hx]. destruct (Z.eqb_spec (seq n) 0) as [Ez|Ez].
  - pose proof (allocate_spec A s L R C) as Ha. destruct (allocateSequence s) as [[sigma|err|] s1]; [| |done].
    + destruct Ha as (He & -> & Hh1 & Hr & E & Hx1). rewrite bind_Ok.
      apply (Hw (high s) s1); auto; [by rewrite E|by rewrite E|]. unfold MaxUint64 in Hr. lia.
    + subst s1. destruct (failTerminal_ok A [err] s L R C) as (s' & -> & H' & _). rewrite !bind_Ok. eauto.
  - rewrite bind_Ok. apply (Hw (seq n) s); auto. lia.
Qed.

(** ** The sender *)

Lemma keeps_dispatch_pending A w s : good A s -> state s = StateReady -> exists s', dispatch_pending w s = Ok s' /\ good A s'.
Proof.
  intros H Hs. pose proof H as (L & R & C & K). unfold dispatch_pending.
  destruct (nextPendingWrite_ok A (tab s) L R (co_table _ _ _ _ C) (co_numbered _ _ _ _ C)) as (r & -> & Hc). rewrite bind_Ok.
  assert (exists s', (if inFlight (tab s) =? 0 then handleFault [msgr_ErrSessionRenewal] (s <| renewalPending := false |>) else Ok s)
    = Ok s' /\ good A s') as Hr.
  { destruct (_ =? _); [|eauto]. apply keeps_fault. by apply (good_same A s). }
  destruct r as [p|]; [|rewrite bind_Ok; destruct (_ && _); [done|eauto]].
  pose proof Hc as (n & Hp & Hn & _). rewrite (deref_ok _ _ _ Hn), !bind_Ok.
  destruct (renewalPending s && _); [done|]. cbn zeta.
  destruct (negb _ && negb _); [by apply (keeps_finish A s L R)|].
  destruct (negb (control (request n)) && _) eqn:Ef; [eauto|].
  destruct (ctx_err w _) as [err|].
  - destruct (control (request n)); [by apply keeps_cancel|by apply (keeps_finish A s L R)].
  - eapply send_entry_ok; eauto. intros Hctl. rewrite Hctl in Ef. cbn in Ef. apply Z.leb_gt in Ef.
    by rewrite <- (ok_inFlight _ _ _ _ (co_table _ _ _ _ C)).
Qed.

Lemma keeps_sendControl A s frame queue : good A s -> controlQueue s = frame :: queue ->
  good A (sendWrite frame None 0 0 (s <| controlQueue := queue |>)).
Proof.
  intros H Eq. unfold sendWrite. eapply similar_good; [by apply similar_out|].
  destruct (good_bound A s H) as (Hq & Ha & _). apply (good_queue A s); try done. cbn.
  unfold pending_ack_slot in *. cbn. rewrite Eq, len_cons in Hq. lia.
Qed.

Lemma keeps_dispatch A w : keeps A (dispatch w).
Proof.
  intros s H. unfold dispatch. destruct (_ || is_state (state s) StateStopped); [eauto|].
  assert (exists s1, (if renewalPending s && negb (pendingAck s =? 0) && (inFlight (tab s) =? 0)
    then flushPendingAcknowledgment s else Ok s) = Ok s1 /\ good A s1) as (s1 & -> & H1).
  { destruct (_ && _); [by apply keeps_flush|eauto]. }
  rewrite bind_Ok. destruct (controlQueue s1) as [|frame queue] eqn:Eq.
  - unfold is_state. case_bool_decide; cbn [negb]; [by apply keeps_dispatch_pending|eauto].
  - eexists. split; [done|]. by apply keeps_sendControl.
Qed.

(** ** Transaction numbers *)

Definition next_id (s : owner) : Z := if nextTID s =? 0 then 1 else nextTID s.

(** The numbers in use from [i] on. *)
Definition in_use (i : Z) (t : table) : gset Z := filter (fun k => i <= k) (dom (byTID t)).

Lemma in_use_step i j t : is_Some (byTID t !! i) -> i < j -> (size (in_use j t) < size (in_use i t))%nat.
Proof.
  intros Hi Hj. apply subset_size. unfold in_use. split.
  - intros k. rewrite !elem_of_filter. intros [? ?]. split; [lia|done].
  - intros H. assert (i ∈ in_use j t) as Hin by (apply H, elem_of_filter; split; [lia|by apply elem_of_dom]).
    apply elem_of_filter in Hin as [? _]. lia.
Qed.

(** What the loop ends with: the least free number from [i] on, or the end of
    the numbers. *)
Definition tid_result (i : Z) (t : table) (r : res Z) (s' : owner) : Prop :=
  match r with
  | Ok tid => i <= tid /\ tid <> 0 /\ byTID t !! tid = None /\ forall k, i <= k < tid -> k = 0 \/ is_Some (byTID t !! k)
  | Err e => e = msgr_ErrTransitionLimit /\ tidExhausted s' = true
  | Panic => False
  end.

Lemma take_tid_ok fuel s : (size (in_use (next_id s) (tab s)) < fuel)%nat ->
  exists r s', take_tid fuel s = (r, s') /\ similar s s' /\ tab s' = tab s /\ tid_result (next_id s) (tab s) r s'.
Proof.
  revert s. induction fuel as [|fuel IH]; intros s Hf; [lia|]. cbn [take_tid].
  destruct (tidExhausted s) eqn:Ex; [by eexists _, s; split_and!; [|apply similar_refl| |]|].
  fold (next_id s). set (i := next_id s) in *. cbn zeta.
  set (s1 := if i =? MaxUint64 then _ else _).
  assert (similar s s1 /\ tab s1 = tab s /\ (tidExhausted s1 = true \/ (i < next_id s1 /\ forall k, i < k < next_id s1 -> k = 0)))
    as (S1 & T1 & H1).
  { unfold s1. destruct (i =? MaxUint64); (split; [by apply similar_same|]); (split; [done|]); [by left|].
    right. unfold next_id. cbn. destruct (Z.eqb_spec (i + 1) 0); (split; [|intros k]); lia. }
  rewrite T1. case_bool_decide as Hi.
  - destruct H1 as [H1|[H1 H2]].
    + exists (Err msgr_ErrTransitionLimit), s1. split_and!; [|done..]. destruct fuel; cbn; by rewrite H1.
    + destruct (IH s1) as (r & s' & E & Sim & T & Hr).
      { rewrite T1. pose proof (in_use_step i (next_id s1) (tab s) Hi H1). lia. }
      exists r, s'. split_and!; [done|by eapply similar_trans|congruence|]. rewrite T1 in Hr.
      destruct r as [tid| |]; [|done..]. destruct Hr as (R1 & R2 & R3 & R4). split_and!; [lia|done..|]. intros k Hk.
      destruct (decide (next_id s1 <= k)); [apply R4; lia|]. destruct (decide (k = i)) as [->|]; [by right|]. left. apply H2. lia.
  - exists (Ok i), s1. split_and!; [done..|]. split_and!; [done| |by apply eq_None_not_Some|intros k Hk; lia].
    unfold i, next_id. destruct (Z.eqb_spec (nextTID s) 0); lia.
Qed.

Lemma takeTID_spec s : exists r s', takeTID s = (r, s') /\ similar s s' /\ tab s' = tab s /\
  tid_result (next_id s) (tab s) r s'.
Proof.
  apply take_tid_ok. apply Nat.lt_succ_r. rewrite <- (size_dom (D := gset Z)). apply subseteq_size.
  intros k. unfold in_use. rewrite elem_of_filter. tauto.
Qed.


(** ** Admission *)

Lemma admission_bytes m limits n : admissionMessageBytes m limits = Ok n -> 0 <= n.
Proof.
  unfold admissionMessageBytes. intros H.
  repeat (apply res_bind_ok in H as (? & _ & H)). destruct (negb _); [done|]. destruct (_ <? _); [done|].
  apply res_bind_ok in H as (? & _ & H). injection H as <-. unfold retainedMessageBytes, MessageHeaderSize.
  pose proof (len_nonneg (Front m)). pose proof (len_nonneg (Middle m)). pose proof (len_nonneg (m_Data m)). lia.
Qed.

Lemma admission_no_panic m limits : admissionMessageBytes m limits <> Panic.
Proof.
  assert (forall n, checkedUint32Length n <> Panic) as H by (intros n; unfold checkedUint32Length; by destruct (_ || _)).
  unfold admissionMessageBytes. do 3 (apply bind_no_panic; [apply H|intros ?]). destruct (negb _); [done|].
  destruct (_ <? _); [done|]. by apply bind_no_panic; [apply validateMessageSegments_no_panic|].
Qed.

Lemma counts ns L : (forall p, p ∈ L -> exists n : pendingRequest, ns !! p = Some n) ->
  total app_count ns L = len L - total ctl_count ns L.
Proof.
  intros H. induction L as [|p L IH]; [done|]. rewrite !weight_cons, len_cons, IH by (intros q Hq; apply H; by right).
  destruct (H p ltac:(left)) as [n Hn]. unfold weight. rewrite Hn. cbn. unfold app_count, ctl_count. destruct (control _); lia.
Qed.

Section Admission.
Context (A : list nat) (s : owner) (L R : list nat) (command : submitCommand) (m : SMessage) (bytes : Z).
Context (C : core_ok A s L R) (K : link_ok s L).
Context (Hs : state s <> StateStopped) (Ht : terminalErr s = None).
Context (Hfresh : command_id command ∉ A) (Htid : byTID (tab s) !! TransactionID (Header (wire_message m)) = None).
Context (Hb : 0 <= bytes) (Hsat : saturated command bytes s = false).

Lemma fresh_request : byRequest (tab s) !! command_id command = None.
Proof.
  destruct (byRequest (tab s) !! command_id command) as [p|] eqn:E; [|done]. destruct Hfresh.
  destruct (by_request A s L R _ _ C E) as [Hp (n & Hn & Er)].
  rewrite (ok_account _ _ _ _ (co_table _ _ _ _ C)). apply elem_of_app. right. rewrite <- Er.
  apply list_elem_of_omap. exists p. split; [done|]. by rewrite Hn.
Qed.

(** What [saturated] leaves room for. *)
Lemma has_room :
  (control command = false -> total app_count (nodes (tab s)) L < MaxQueuedMessages (config s) /\
     retainedBytes (tab s) + bytes <= MaxRetainedBytes (config s)) /\
  (control command = true -> controlCount (tab s) < MaxControlMessages /\ controlBytes (tab s) + bytes <= MaxControlRetainedBytes).
Proof.
  pose proof (co_table _ _ _ _ C) as T. rewrite counts by (intros p; by eapply ok_lookup).
  rewrite <- (ok_controlCount _ _ _ _ T). unfold saturated in Hsat.
  replace (len (slots (pending (tab s)))) with (len L) in Hsat
    by (unfold len; by rewrite (lane_length _ _ _ _ (ok_pending _ _ _ _ T))).
  destruct (control command); apply orb_false_iff in Hsat as [[H1 H2]%orb_false_iff H3];
    rewrite ?Z.leb_gt, ?Z.ltb_ge in *; (split; [|]); intros [=]; lia.
Qed.

Lemma registers_core t p (n : pendingRequest) : p ∉ L -> table_ok (command_id command :: A) t (L ++ [p]) R ->
  agree L (nodes (tab s)) (nodes t) -> nodes t !! p = Some n -> body n = mkEntry command m bytes 0 false false ->
  trace t = trace (tab s) ++ retains m ->
  core_ok (command_id command :: A) (s <| tab := t |>) (L ++ [p]) R /\ link_ok (s <| tab := t |>) (L ++ [p]).
Proof.
  intros Hp T Ag Hn Eb Tr. pose proof (co_table _ _ _ _ C) as T0.
  assert (forall g, written g (trace t) = written g (trace (tab s))) as Hw.
  { intros g. by rewrite Tr, written_app, written_retains, app_nil_r. }
  assert (forall q (k : pendingRequest), q ∈ L ++ [p] -> nodes t !! q = Some k ->
    q = p /\ body k = mkEntry command m bytes 0 false false \/
    q ∈ L /\ exists k0 : pendingRequest, nodes (tab s) !! q = Some k0 /\ body k0 = body k) as Hlook.
  { intros q k [Hq| ->]%elem_of_snoc Hk; [right|left; split; [done|congruence]].
    split; [done|]. eapply agree_lookup; [apply agree_sym; exact Ag|done|done]. }
  assert (forall f : entry -> Z, total f (nodes t) (L ++ [p]) = total f (nodes (tab s)) L + f (mkEntry command m bytes 0 false false)) as Htot.
  { intros f. rewrite weight_app, (total_agree f (nodes (tab s))) by done. rewrite weight_cons. unfold weight. rewrite Hn. cbn.
    rewrite Eb. lia. }
  destruct (co_high _ _ _ _ C) as [Hh1 Hh2]. split; [split; cbn [tab config generation RecordSettersUsingExistingGetters.set]|split].
  - apply C.
  - done.
  - unfold numbered. rewrite app_seqs_app. apply sorted_join.
    + rewrite (app_seqs_same (nodes (tab s))); [apply C|]. intros q Hq. destruct (ok_lookup _ _ _ _ _ T0 Hq) as [k Hk].
      destruct (agree_lookup _ _ _ _ _ Ag Hq Hk) as (k' & Hk' & E). exists k, k'. rewrite E. by split_and!.
    + unfold app_seqs. cbn. rewrite Hn. cbn. rewrite Eb. cbn. destruct (control command); repeat constructor.
    + intros x y _ Hy. left. apply list_elem_of_omap in Hy as (q & Hq & Hy). apply list_elem_of_singleton in Hq as ->.
      cbn in Hy. rewrite Hn in Hy. cbn in Hy. rewrite Eb in Hy. cbn in Hy. destruct (control command); [done|]. by injection Hy.
  - intros q k Hq Hk. destruct (Hlook q k Hq Hk) as [[-> ->]|(Hq' & k0 & Hk0 & <-)]; [done|]. by apply (co_sent _ _ _ _ C q).
  - intros q r a b Hq Hr Ha Hb' E Hz.
    destruct (Hlook q a Hq Ha) as [[-> E1]|(Hq' & a0 & Ha0 & E1)]; [by rewrite E1 in Hz|].
    destruct (Hlook r b Hr Hb') as [[-> E2]|(Hr' & b0 & Hb0 & E2)]; [rewrite E, E2 in Hz; done|].
    apply (co_distinct _ _ _ _ C q r a0 b0); congruence.
  - intros q k Hq Hk. change (high (s <| tab := t |>)) with (high s).
    destruct (Hlook q k Hq Hk) as [[-> ->]|(Hq' & k0 & Hk0 & <-)]; [cbn; lia|]. by apply (co_seqs _ _ _ _ C q).
  - done.
  - intros g. rewrite Hw. apply C.
  - intros g Hg. rewrite Hw. by apply (co_future _ _ _ _ C).
  - destruct has_room as [R1 R2]. destruct (co_within _ _ _ _ C) as [W1 W2 W3 W4 W5].
    rewrite (ok_retained _ _ _ _ T0) in R1. rewrite (ok_controlCount _ _ _ _ T0), (ok_controlBytes _ _ _ _ T0) in R2.
    set (e := mkEntry command m bytes 0 false false) in *.
    assert (app_count e = (if control command then 0 else 1) /\ app_bytes e = (if control command then 0 else bytes) /\
      ctl_count e = (if control command then 1 else 0) /\ ctl_bytes e = (if control command then bytes else 0) /\ flying e = 0)
      as (V1 & V2 & V3 & V4 & V5) by done.
    split; rewrite Htot, ?V1, ?V2, ?V3, ?V4, ?V5; destruct (control command); try lia;
      try (specialize (R1 eq_refl); lia); specialize (R2 eq_refl); lia.
  - cbn. intros x. rewrite Hw. intros Hx. destruct (lk_next _ _ K x Hx) as [X1 X2]. split; [done|].
    intros q k Hq Hk Hu Hz. destruct (Hlook q k Hq Hk) as [[-> E]|(Hq' & k0 & Hk0 & E)]; [by rewrite E in Hz|].
    rewrite <- E in *. by apply (X2 q k0).
  - intros Hi. cbn. rewrite Hw. by apply (lk_fresh _ _ K).
  - pose proof (lk_conn _ _ K) as Hc. unfold conn_ok in *. cbn. destruct (state s); try done.
    destruct Hc as (? & ? & [?|(_ & [e He] & _)]); [auto|congruence].
  - apply K.
  - apply K.
Qed.

Lemma register_good : exists s', on_table (register command m bytes) s = Ok s' /\ good (command_id command :: A) s'.
Proof.
  pose proof (co_table _ _ _ _ C) as T0. destruct (ok_widths _ _ _ _ T0) as [V1 V2]. destruct has_room as [R1 R2].
  pose proof (cfg_retained _ (co_config _ _ _ _ C)) as Hr. unfold inU, MaxControlRetainedBytes in *.
  destruct (register_ok A (tab s) L R command m bytes T0 fresh_request Htid Hb) as (p & t & n & E & Hp & T & Ag & Hn & Eb & Tr).
  - intros Hc. destruct (R1 Hc). unfold inU. lia.
  - intros Hc. destruct (R2 Hc). unfold inU. change (Z.shiftl 1 20) with 1048576 in *. lia.
  - unfold on_table. rewrite E, bind_Ok. eexists. split; [done|]. exists (L ++ [p]), R. by eapply registers_core.
Qed.
End Admission.

(** A command that is refused is answered at once. *)
Lemma refused_good A s r result : good A s -> good (r :: A) (out (OResult r result) s).
Proof.
  intros (L & R & C & K). exists L, R.
  assert (forall g, written g (trace (tab (out (OResult r result) s))) = written g (trace (tab s))) as Hw.
  { intros g. transitivity (written g (trace (tab s)) ++ []); [|apply app_nil_r]. exact (written_app g (trace (tab s)) [OResult r result]). }
  split.
  - destruct C as [C1 C2 C3 C4 C5 C6 C7 C8 C9 C10]. split; try done.
    + by apply answered_ok.
    + intros g. rewrite Hw. auto.
    + intros g Hg. rewrite Hw. auto.
  - destruct K as [K1 K2 K3 K4 K5]. split; try done.
    + intros x. rewrite Hw. apply K1.
    + intros Hi. rewrite Hw. by apply K2.
Qed.

Lemma accept_ok A w command s : good A s -> state s <> StateStopped -> command_id command ∉ A ->
  exists r s', accept w command s = Ok (r, s') /\
    match r with Some _ => good A s' | None => good (command_id command :: A) s' end.
Proof.
  intros H Hs Hf. unfold accept. destruct (negb _ && negb _); [eauto|]. destruct (ctx_err w _); [eauto|].
  destruct (terminalErr s) eqn:Ht; [eauto|]. destruct (if control command then _ else _); [eauto|].
  pose proof H as (L & R & C & K).
  destruct (admissionMessageBytes _ _) as [bytes|e|] eqn:Eb; [|eauto|].
  2: { by apply admission_no_panic in Eb. }
  apply admission_bytes in Eb. destruct (saturated command bytes s) eqn:Esat; [eauto|]. cbn zeta.
  match goal with |- context [set_tid _ ?x] => set (message := x) end.
  destruct (Z.eqb_spec (TransactionID (Header (wire_message (command_message command)))) 0) as [_|_].
  - destruct (takeTID_spec s) as ([tid|e|] & s1 & -> & Sim & T1 & Hr); [| |done].
    2: { destruct (failTerminal_good A [e] s1) as (s' & -> & H'); [by eapply similar_good|]. rewrite bind_Ok. eauto. }
    + destruct Hr as (_ & _ & Hfree & _). destruct (rest_inv _ _ (sim_rest _ _ Sim)) as (Q1 & _ & _ & Q4 & _ & _ & _ & Q8 & _).
      destruct (register_good A s1 L R command (set_tid tid message) bytes) as (s' & -> & H').
      * by eapply similar_core.
      * by eapply similar_link.
      * congruence.
      * congruence.
      * done.
      * by rewrite T1.
      * done.
      * unfold saturated in *. by rewrite T1, Q1.
      * rewrite bind_Ok. eauto.
  - case_bool_decide as Hi; [eauto|].
    destruct (register_good A s L R command message bytes) as (s' & -> & H'); auto.
    + apply eq_None_not_Some. unfold message. by destruct (transferred _).
    + rewrite bind_Ok. eauto.
Qed.

Lemma submit_ok A w command s : good A s -> state s <> StateStopped -> command_id command ∉ A ->
  exists s', submit w command s = Ok s' /\ good (command_id command :: A) s'.
Proof.
  intros H Hs Hf. unfold submit. destruct (accept_ok A w command s H Hs Hf) as (r & s1 & -> & H1). rewrite bind_Ok. cbn zeta.
  eexists. split; [done|]. eapply similar_good; [by apply similar_out|].
  assert (good (command_id command :: A) (match r with Some err => out (OResult (command_id command) (failed err)) s1 | None => s1 end)) as H2.
  { destruct r; [by apply refused_good|done]. }
  destruct (registered command); [|done]. eapply similar_good; [by apply similar_out|done].
Qed.
