(* ===== verification/SessionRun.v ===== *)
(** * Runs of a session

    A run starts a new session and takes turns until it is stopped.  Every state
    it reaches satisfies the invariant, whatever the inputs are. *)

From stdpp Require Import base gmap list numbers sorting.
From coqutil Require Import Byte Word.LittleEndianList Datatypes.RecordSettersUsingExistingGetters.
From S2P Require Import Prelude Codec Crc Protocol MsgrFrame MsgrMessage Control.
From stdpp Require Import list.
From S2P Require Import SessionTable Session SessionInv SessionTurn SessionSend.

Open Scope Z_scope.
Open Scope go_scope.

(** ** One turn *)

(** The commands an input submits. *)
Definition submitted (i : input) : list nat := match i with InSubmit command => [command_id command] | _ => [] end.

Definition stops (i : input) : bool := match i with InStop _ => true | _ => false end.

Lemma good_running A s : good A s -> state s <> StateStopped.
Proof. intros (L & R & _ & K) E. pose proof (lk_conn _ _ K) as Hc. unfold conn_ok in Hc. by rewrite E in Hc. Qed.

Lemma count_queued_ok t l k : Forall (fun p => is_Some (nodes t !! p)) l ->
  fold_res (count_queued t) l k = Ok (k + total (fun e => if negb (sent e) && negb (control (request e)) then 1 else 0) (nodes t) l).
Proof.
  intros H. revert k. induction H as [|p l [n Hn] _ IH]; intros k; [cbn; f_equal; lia|]. cbn [fold_res].
  unfold count_queued at 2. rewrite (deref_ok _ _ _ Hn), !bind_Ok, IH, weight_cons. unfold weight. rewrite Hn. cbn.
  destruct (_ && _); f_equal; lia.
Qed.

Lemma pending_nodes A t L R : table_ok A t L R -> Forall (fun p => is_Some (nodes t !! p)) (slots (pending t)).
Proof.
  intros H. apply Forall_forall. intros p Hp. rewrite (lane_perm _ _ _ _ (ok_pending _ _ _ _ H)) in Hp.
  destruct (ok_lookup _ _ _ _ _ H Hp). eauto.
Qed.

Lemma receive_ok A w i s : good A s -> stops i = false -> Forall (fun r => r ∉ A) (submitted i) ->
  exists s', receive w i s = Ok s' /\ good (submitted i ++ A) s'.
Proof.
  intros H Hi Hf. pose proof (good_running A s H) as Hs. destruct i; cbn [receive submitted app] in *; try done.
  - by apply keeps_deliver_queued.
  - apply submit_ok; auto. by inversion Hf.
  - by apply keeps_cancel.
  - pose proof H as (L & R & C & _). unfold snapshot.
    rewrite (count_queued_ok _ _ _ (pending_nodes _ _ _ _ (co_table _ _ _ _ C))), !bind_Ok. eauto.
  - destruct (_ && _); [by apply keeps_handleFrame|]. eexists. split; [done|]. by apply keeps_release.
  - destruct (_ && _); [|eexists; split; [done|]; by apply keeps_release].
    destruct (Is _ _); [by apply keeps_terminal|by apply keeps_fault].
  - destruct (current _ _); [by apply keeps_handleWritten|eauto].
  - destruct (current _ _); [by apply keeps_fault|eauto].
  - destruct (current _ _); [by apply keeps_handleRenewal|eauto].
  - by apply keeps_handleConnected.
  - destruct (ackTimerC s); [by apply keeps_flush|eauto].
Qed.

Lemma turn_ok A w i s : good A s -> stops i = false -> Forall (fun r => r ∉ A) (submitted i) ->
  exists s', turn w i s = Ok s' /\ good (submitted i ++ A) s'.
Proof.
  intros H Hi Hf. unfold turn. destruct (keeps_dispatch A w s H) as (s1 & -> & H1). rewrite bind_Ok. by apply receive_ok.
Qed.

Lemma turn_stop A w drained s : good A s -> exists s', turn w (InStop drained) s = Ok s' /\ core_ok A s' [] [] /\
  state s' = StateStopped /\ transport s' = None.
Proof.
  intros H. unfold turn. destruct (keeps_dispatch A w s H) as (s1 & -> & H1). rewrite bind_Ok. by apply stop_ok.
Qed.

(** ** A new session *)

Lemma table_ok_empty : table_ok [] empty_table [] [].
Proof.
  split; try exact (lane_ok_empty _ _); try exact (keyed_empty _ _); try (by intros p n Hn; rewrite lookup_empty in Hn); done.
Qed.

(** The widths of the configuration. *)
Definition typed_config (c : SessionConfig) : Prop := inU 64 (MaxRetainedBytes c).

Lemma with_defaults_same c : MaxQueuedMessages (with_defaults c) = MaxQueuedMessages c /\
  MaxRetainedBytes (with_defaults c) = MaxRetainedBytes c /\ MaxInFlightTransactions (with_defaults c) = MaxInFlightTransactions c.
Proof. unfold with_defaults. repeat case_match; done. Qed.

Lemma validate_options_ok o c : typed_config (o_Config o) -> validate_options o = Ok c -> config_ok c.
Proof.
  intros Ht H. unfold validate_options in H. cbn zeta in H.
  destruct ((MaxQueuedMessages _ <=? 0) || _ || _) eqn:E1 in H; [done|].
  repeat match type of H with (if ?b then _ else _) = _ => destruct b; [done|] end.
  injection H as <-. destruct (with_defaults_same (o_Config o)) as (Q1 & Q2 & Q3).
  apply orb_false_iff in E1 as [[E1 E2]%orb_false_iff E3]. apply Z.leb_gt in E1, E3. apply Z.eqb_neq in E2.
  unfold typed_config, inU in Ht. split; lia.
Qed.

(** The owner before its first turn, with or without a transport. *)
Lemma new_owner_core c o t next : config_ok c -> core_ok [] (new_owner c o t next) [] [].
Proof.
  intros Hc. split.
  - by destruct Hc.
  - exact table_ok_empty.
  - constructor.
  - by intros p n ?%elem_of_nil.
  - by intros p q n m ?%elem_of_nil.
  - by intros p n ?%elem_of_nil.
  - done.
  - constructor.
  - done.
  - destruct Hc as [H1 H2 H3]. split; cbn; unfold MaxControlMessages, MaxControlRetainedBytes; try change (Z.shiftl 1 20) with 1048576; lia.
Qed.

Lemma NewSession_inv w admitted t o s : NewSession w admitted t o = Ok s -> exists c next,
  validate_options o = Ok c /\ similar (new_owner c o t next) s.
Proof.
  unfold NewSession. intros H. apply res_bind_ok in H as (c & Ec & H). apply res_bind_ok in H as (next & _ & H).
  apply res_bind_ok in H as (_ & _ & H). injection H as <-. exists c, next. split; [done|].
  destruct t; [apply similar_observe|apply similar_refl].
Qed.

(** The transport passed to a new session is not counted as used yet. *)
Lemma start_ok w admitted t o s : typed_config (o_Config o) -> NewSession w admitted t o = Ok s ->
  exists s', start s = Ok s' /\ good [] s'.
Proof.
  intros Ht H. destruct (NewSession_inv _ _ _ _ _ H) as (c & next & Ec & Sim).
  pose proof (validate_options_ok _ _ Ht Ec) as Hc. pose proof (new_owner_core c o t next Hc) as C.
  destruct (rest_inv _ _ (sim_rest _ _ Sim)) as (Q1 & Q2 & Q3 & Q4 & Q5 & Q6 & Q7 & Q8 & Q9 & Q10).
  apply (similar_core _ _ _ _ _ Sim) in C. cbn in *.
  assert (len (controlQueue s) <= MaxQueuedMessages (config s)) as Hq by by apply (queue_room [] s [] []).
  unfold start. destruct (transport s) as [tr|] eqn:Et.
  - eexists. split; [done|]. by apply (startTransport_core [] tr StateReady s [] []); [..|right].
  - destruct (beginReconnect_ok [] s [] [] C) as (s' & -> & Hg & _); [by split|done|done|]. eauto.
Qed.

(** ** Runs *)

Definition run_turns (inputs : list (world * input)) (s : owner) : res owner :=
  fold_res (fun '(w, i) s => turn w i s) inputs s.

(** A session from its creation on. *)
Definition run (w : world) (admitted : res unit) (t : option Transport) (o : SessionOptions) (inputs : list (world * input)) : res owner :=
  s ← NewSession w admitted t o; s ← start s; run_turns inputs s.

Definition all_submitted (inputs : list (world * input)) : list nat := concat ((submitted ∘ snd) <$> inputs).

(** The commands are distinct and none stops the session. *)
Definition proper (inputs : list (world * input)) : Prop :=
  NoDup (all_submitted inputs) /\ Forall (fun wi => stops wi.2 = false) inputs.

Lemma all_submitted_cons w i inputs : all_submitted ((w, i) :: inputs) = submitted i ++ all_submitted inputs.
Proof. done. Qed.

Lemma run_turns_ok A inputs s : good A s -> proper inputs -> (forall r, r ∈ all_submitted inputs -> r ∉ A) ->
  exists s' A', run_turns inputs s = Ok s' /\ good A' s' /\ A' ≡ₚ all_submitted inputs ++ A.
Proof.
  revert A s. induction inputs as [|[w i] inputs IH]; intros A s H [Hd Hn] Hf; [by exists s, A|].
  inversion Hn as [|? ? Hi Hn']; subst. cbn in Hi. rewrite all_submitted_cons in Hd, Hf.
  apply NoDup_app in Hd as (Hd1 & Hd2 & Hd3).
  destruct (turn_ok A w i s H Hi) as (s1 & E & H1).
  { apply Forall_forall. intros r Hr. apply Hf, elem_of_app. by left. }
  destruct (IH (submitted i ++ A) s1 H1) as (s' & A' & E' & H' & P).
  { by split. }
  { intros r Hr Hx. apply elem_of_app in Hx as [Hx|Hx]; [by apply (Hd2 r)|]. apply (Hf r); [|done]. apply elem_of_app. by right. }
  exists s', A'. unfold run_turns in *. cbn [fold_res]. rewrite E, bind_Ok. split_and!; [done..|].
  rewrite P, all_submitted_cons, !app_assoc. by rewrite (Permutation_app_comm (all_submitted inputs)).
Qed.

Lemma good_perm A A' s : A ≡ₚ A' -> good A s -> good A' s.
Proof.
  intros P (L & R & [C1 C2 C3 C4 C5 C6 C7 C8 C9 C10] & K). exists L, R. split; [|done]. split; try done. by eapply table_ok_perm.
Qed.

Section Runs.
Context (w : world) (admitted : res unit) (t : option Transport) (o : SessionOptions) (inputs : list (world * input)) (s0 : owner).
Context (Ht : typed_config (o_Config o)) (Hnew : NewSession w admitted t o = Ok s0) (Hp : proper inputs).

Lemma run_good : exists s, run w admitted t o inputs = Ok s /\ good (all_submitted inputs) s.
Proof.
  unfold run. rewrite Hnew, bind_Ok. destruct (start_ok w admitted t o s0 Ht Hnew) as (s1 & -> & H1). rewrite bind_Ok.
  destruct (run_turns_ok [] inputs s1 H1 Hp) as (s & A & E & H & P); [by intros r _ ?%elem_of_nil|].
  exists s. split; [done|]. eapply good_perm; [|exact H]. by rewrite app_nil_r in P.
Qed.

Lemma run_stop w' drained : exists s, run w admitted t o (inputs ++ [(w', InStop drained)]) = Ok s /\
  core_ok (all_submitted inputs) s [] [] /\ state s = StateStopped /\ transport s = None.
Proof.
  destruct run_good as (s & E & H). destruct (turn_stop _ w' drained s H) as (s' & E' & C).
  exists s'. split; [|done]. unfold run in *. apply res_bind_ok in E as (a & -> & E). apply res_bind_ok in E as (b & E1 & E).
  rewrite bind_Ok, E1, bind_Ok. unfold run_turns in *. rewrite fold_res_app, E, bind_Ok. cbn. by rewrite E'.
Qed.
End Runs.

(** ** What every run has *)

Record within_limits (s : owner) : Prop := {
  lim_queue : len (slots (pending (tab s))) - controlCount (tab s) <= MaxQueuedMessages (config s);
  lim_retained : 0 <= retainedBytes (tab s) <= MaxRetainedBytes (config s);
  lim_control : 0 <= controlCount (tab s) <= MaxControlMessages;
  lim_controlBytes : 0 <= controlBytes (tab s) <= MaxControlRetainedBytes;
  lim_flight : 0 <= inFlight (tab s) <= MaxInFlightTransactions (config s);
  lim_frames : len (controlQueue s) <= MaxQueuedMessages (config s) }.

Lemma good_limits A s : good A s -> within_limits s.
Proof.
  intros (L & R & C & K). pose proof (co_table _ _ _ _ C) as T. destruct (co_within _ _ _ _ C) as [W1 W2 W3 W4 W5].
  destruct weights_nonneg as (N1 & N2 & N3). rewrite counts in W1 by (intros p; by eapply ok_lookup).
  assert (forall p (n : pendingRequest), nodes (tab s) !! p = Some n -> 0 <= app_bytes n /\ 0 <= ctl_bytes n) as Hb.
  { intros p n Hn. pose proof (ok_bytes _ _ _ _ T p n Hn). unfold app_bytes, ctl_bytes. destruct (control _); lia. }
  pose proof (lk_queue _ _ K). pose proof (slot_range s).
  split; rewrite ?(ok_controlCount _ _ _ _ T), ?(ok_retained _ _ _ _ T), ?(ok_controlBytes _ _ _ _ T), ?(ok_inFlight _ _ _ _ T).
  - unfold len in *. by rewrite (lane_length _ _ _ _ (ok_pending _ _ _ _ T)).
  - split; [|done]. apply weight_nonneg. intros p n Hn. by apply (Hb p n).
  - split; [|done]. apply weight_nonneg. auto.
  - split; [|done]. apply weight_nonneg. intros p n Hn. by apply (Hb p n).
  - split; [|done]. apply weight_nonneg. auto.
  - lia.
Qed.

(** A transport is in use, a connection has been asked for, or the session has
    failed for good and holds no request. *)
Definition progressing (s : owner) : Prop :=
  match state s with
  | StateConnecting | StateReconnecting | StateReady =>
      is_Some (transport s) /\ writeTasks s = true /\ connectPending s = false /\ terminalErr s = None
  | StateDisconnected =>
      transport s = None /\ writeTasks s = false /\
      (connectPending s = true /\ terminalErr s = None \/
       connectPending s = false /\ is_Some (terminalErr s) /\ slots (pending (tab s)) = [])
  | StateWait | StateStopped => False
  end.

Lemma good_progressing A s : good A s -> progressing s.
Proof.
  intros (L & R & C & K). pose proof (lk_conn _ _ K) as Hc. unfold conn_ok, progressing in *.
  destruct (state s); try tauto. destruct Hc as (? & ? & [?|(? & ? & ->)]); [tauto|]. split_and!; [done..|]. right.
  split_and!; [done..|]. apply Permutation_nil_r. apply (lane_perm _ _ _ _ (ok_pending _ _ _ _ (co_table _ _ _ _ C))).
Qed.

(** The requests without a result are the ones in the table. *)
Record accounted (A : list nat) (s : owner) : Prop := {
  acc_once : NoDup (results (trace (tab s)));
  acc_only : forall r, r ∈ results (trace (tab s)) -> r ∈ A;
  acc_rest : forall r, r ∈ A -> r ∉ results (trace (tab s)) <-> is_Some (byRequest (tab s) !! r) }.

Lemma elem_of_ids A t L R r : table_ok A t L R -> r ∈ ids (nodes t) L <-> is_Some (byRequest t !! r).
Proof.
  intros T. split.
  - intros (p & Hp & E)%list_elem_of_omap. destruct (nodes t !! p) as [n|] eqn:En; [|done]. injection E as E.
    exists p. apply (ok_request _ _ _ _ T). split; [done|]. eauto.
  - intros [p Ep]. apply (ok_request _ _ _ _ T) in Ep as [Hp (n & Hn & E)]. apply list_elem_of_omap. exists p.
    split; [done|]. rewrite Hn. cbn. by rewrite <- E.
Qed.

Lemma table_accounted A s L R : NoDup A -> table_ok A (tab s) L R -> accounted A s.
Proof.
  intros Nd T. pose proof (ok_account _ _ _ _ T) as P. rewrite P in Nd. apply NoDup_app in Nd as (N1 & N2 & N3).
  split; [done|intros r Hr; rewrite P; apply elem_of_app; by left|].
  intros r Hr. rewrite <- (elem_of_ids _ _ _ _ _ T). rewrite P in Hr. apply elem_of_app in Hr as [Hr|Hr].
  - split; [done|]. intros H. by destruct (N2 r).
  - split; [done|]. intros _ H. by destruct (N2 r).
Qed.

Section Properties.
Context (w : world) (admitted : res unit) (t : option Transport) (o : SessionOptions) (inputs : list (world * input)) (s0 : owner).

(** C10. Whatever commands, frames, write results, faults, connection results and
    timers arrive, and whatever the contexts and the number sources answer, a
    session never panics and stays within its limits: application requests and
    their bytes, control requests and their bytes, requests in flight, and
    control frames waiting to be written. *)
Theorem session_within_limits : typed_config (o_Config o) -> NewSession w admitted t o = Ok s0 -> proper inputs ->
  exists s, run w admitted t o inputs = Ok s /\ within_limits s.
Proof.
  intros Ht Hn Hp. destruct (run_good w admitted t o inputs s0 Ht Hn Hp) as (s & E & H). exists s. split; [done|].
  by eapply good_limits.
Qed.


(** C9. A submitted request gets at most one result, only submitted requests get
    one, and a request without a result is in the table of the session. *)
Theorem session_answers_once : typed_config (o_Config o) -> NewSession w admitted t o = Ok s0 -> proper inputs ->
  exists s, run w admitted t o inputs = Ok s /\ accounted (all_submitted inputs) s.
Proof.
  intros Ht Hn Hp. destruct (run_good w admitted t o inputs s0 Ht Hn Hp) as (s & E & L & R & C & _). exists s. split; [done|].
  apply (table_accounted _ s L R); [apply Hp|apply C].
Qed.


End Properties.

(** ** A concrete run *)

Module Sample.

Definition calm : world := mkWorld (fun _ => None) (fun after => Ok (after + 1)) (Ok 77) None.

(** The context of request [r] has been cancelled. *)
Definition cancelled (r : nat) : world := calm <| ctx_err := fun x => if bool_decide (x = r) then Some [context_Canceled] else None |>.

Definition ident : ClientIdent := mkClientIdent [sample_addr] sample_addr 0 0 0 0 0 0.

Definition configuration : SessionConfig :=
  mkConfig sample_frame_limits false 0 4 65536 2 0 0 0 8 16 ReplayPending ident false false.

(** A session that is known to the server. *)
Definition options : SessionOptions := mkOptions configuration 5 9 0 0 [] 0 None.

Definition link (k : nat) : Transport := mkTransport k None None false.

Definition message (lease : option nat) : SMessage :=
  mkSMessage (mkMessage (mkHeader 0 0 42 0 1 0 0 0 0 1 0) (mkLengths 3 0 0) [Byte.x01; Byte.x02; Byte.x03] [] []) 0 no_receipt false lease.

Definition request (r : nat) (lease : option nat) : submitCommand := mkSubmit r 0 (message lease) false false false.

Definition reconnected : Frame :=
  match EncodeControl (SessionReconnectOK 0) sample_frame_limits with Ok frame => frame | _ => mkFrame 0 [] end.

(** Two requests, the first of them written; the transport is lost, the session
    continues on another one and writes the first request again. *)
Definition inputs : list (world * input) :=
  [ (calm, InSubmit (request 1 None));
    (calm, InSubmit (request 2 None));
    (calm, InWritten 1 (Some 1%nat) None);
    (calm, InFault 1 [msgr_ErrSessionDisconnected]);
    (calm, InConnected 2 (Some (link 2)) None);
    (calm, InWritten 3 None None);
    (calm, InFrame 3 reconnected no_receipt);
    (calm, InSnapshot) ].

Definition session : owner := new_owner (with_defaults configuration) options (Some (link 1)) 1.

Definition writes (s : owner) : list (Z * option nat * Z) :=
  omap (fun o => match o with OWrite g _ _ r sequence _ => Some (g, r, sequence) | _ => None end) (trace (tab s)).

Lemma session_new : NewSession calm (Ok tt) (Some (link 1)) options = Ok session.
Proof. vm_compute. reflexivity. Qed.

Lemma typed : typed_config (o_Config options).
Proof. vm_compute. split; [discriminate|reflexivity]. Qed.

Lemma inputs_proper : proper inputs.
Proof. split; [by apply (bool_decide_unpack _); vm_compute|by repeat constructor]. Qed.

(** The first request is numbered 1 on both transports, the second follows it. *)
Example replayed_in_order : match run calm (Ok tt) (Some (link 1)) options (inputs ++ [(calm, InWritten 3 (Some 1%nat) None); (calm, InSnapshot)]) with
  | Ok s => writes s = [(1, Some 1%nat, 1); (1, Some 2%nat, 2); (3, None, 0); (3, Some 1%nat, 1); (3, Some 2%nat, 2)]
  | _ => False
  end.
Proof. vm_compute. reflexivity. Qed.

(** A request that has been written and waits to be written again ends with the
    error of its context alone: the caller is not told that the outcome is
    unknown, although [cancel] would say so. *)
Theorem replayed_request_plain_error :
  match run calm (Ok tt) (Some (link 1)) options (take 7 inputs ++ [(cancelled 1, InSnapshot)]) with
  | Ok s => (1, Some 1%nat, 1) ∈ writes s /\ OResult 1 (failed [context_Canceled]) ∈ trace (tab s)
  | _ => False
  end.
Proof. vm_compute. split; [left|]. repeat first [left|right]. Qed.

(** A session that is stopped keeps its reference to the leased payload of a
    request it has not written. *)
Theorem stop_keeps_payload_lease :
  match run calm (Ok tt) None options [(calm, InSubmit (request 1 (Some 5%nat))); (calm, InStop [])] with
  | Ok s => ORetain 5 ∈ trace (tab s) /\ Forall (fun o => o <> ORelease 5) (trace (tab s)) /\
            OResult 1 (failed [msgr_ErrSessionClosed]) ∈ trace (tab s)
  | _ => False
  end.
Proof. vm_compute. split_and!; [repeat first [left|right]|by repeat constructor|repeat first [left|right]]. Qed.

End Sample.

Lemma session_within_limits_witness : exists s, run Sample.calm (Ok tt) (Some (Sample.link 1)) Sample.options Sample.inputs = Ok s /\
  within_limits s.
Proof.
  exact (session_within_limits Sample.calm (Ok tt) (Some (Sample.link 1)) Sample.options Sample.inputs Sample.session
    Sample.typed Sample.session_new Sample.inputs_proper).
Defined.


Lemma session_answers_once_witness : exists s, run Sample.calm (Ok tt) (Some (Sample.link 1)) Sample.options Sample.inputs = Ok s /\
  accounted [1%nat; 2%nat] s.
Proof.
  exact (session_answers_once Sample.calm (Ok tt) (Some (Sample.link 1)) Sample.options Sample.inputs Sample.session
    Sample.typed Sample.session_new Sample.inputs_proper).
Defined.



(** ** The delay of a connection attempt *)

Lemma double_backoff_min n d m : 0 < d <= m -> double_backoff n d m = Z.min (d * 2 ^ Z.of_nat n) m.
Proof.
  revert d. induction n as [|n IH]; intros d Hd; cbn [double_backoff]; [f_equal; cbn; lia|].
  rewrite Nat2Z.inj_succ, Z.pow_succ_r by lia. pose proof (Z.pow_pos_nonneg 2 (Z.of_nat n) ltac:(lia) ltac:(lia)).
  destruct (Z.ltb_spec d m) as [Hlt|Hge]; [|rewrite !Z.min_r; nia].
  rewrite Z.quot_div_nonneg by lia. destruct (Z.ltb_spec (m / 2) d) as [Hh|Hh].
  - assert (m < 2 * d) by (pose proof (Z.mod_pos_bound m 2 ltac:(lia)); pose proof (Z.div_mod m 2 ltac:(lia)); lia).
    rewrite Z.min_r; [done|nia].
  - assert (2 * d <= m) by (pose proof (Z.div_mod m 2 ltac:(lia)); pose proof (Z.mod_pos_bound m 2 ltac:(lia)); lia).
    rewrite IH by lia. f_equal. ring.
Qed.

(** The attempts that count: the first connection of a session is not delayed. *)
Definition backoff_steps (s : owner) : Z := if connectedOnce s then reconnectAttempts s else reconnectAttempts s - 1.

(** C28. The delay before a connection attempt is the initial backoff doubled once
    per failed attempt and capped at the maximum, and zero before the first
    connection. *)
Theorem reconnect_backoff_doubles s : 0 < InitialReconnectBackoff (config s) <= MaxReconnectBackoff (config s) ->
  0 <= reconnectAttempts s ->
  nextReconnectBackoff s = if negb (connectedOnce s) && (reconnectAttempts s =? 0) then 0
    else Z.min (InitialReconnectBackoff (config s) * 2 ^ backoff_steps s) (MaxReconnectBackoff (config s)).
Proof.
  intros Hc Ha. unfold nextReconnectBackoff, backoff_steps. destruct (_ && _) eqn:E; [done|].
  destruct (connectedOnce s); cbn in *.
  - rewrite double_backoff_min by lia. by rewrite Z2Nat.id by lia.
  - apply Z.eqb_neq in E. rewrite double_backoff_min by lia. by rewrite Z2Nat.id by lia.
Qed.

Lemma reconnect_backoff_doubles_witness : nextReconnectBackoff (Sample.session <| reconnectAttempts := 5 |>) = 6400000000 /\
  nextReconnectBackoff (Sample.session <| reconnectAttempts := 100 |>) = 15000000000.
Proof.
  split; rewrite reconnect_backoff_doubles by (vm_compute; split; [reflexivity|discriminate] || (vm_compute; discriminate)); reflexivity.
Defined.
