(* ===== verification/SessionRefine.v ===== *)
(** * The request table of a session refines a queue

    The abstract table is two plain lists of requests: the admitted ones in
    order and the ones that may have to be sent again.  Each operation of
    [SessionTable] on slices, linked lists and maps does what the operation on
    the lists does and sends the same results, up to their order: the results of
    a loop over the slice come in the order of the slice, which removals
    shuffle. *)

From stdpp Require Import base gmap list numbers sorting.
From coqutil Require Import Byte Datatypes.RecordSettersUsingExistingGetters.
From S2P Require Import Prelude Codec Crc Protocol MsgrFrame MsgrMessage.
From stdpp Require Import list.
From S2P Require Import SessionTable Session SessionInv SessionRun.

Open Scope Z_scope.
Open Scope go_scope.

(** ** The specification *)

Record queue := mkQueue { q_pending : list entry; q_replay : list entry }.

Inductive operation :=
  | ORegister (command : submitCommand) (m : SMessage) (bytes : Z)
  | OFinish (r : nat) (result : submitResult)
  | OFailAll (err : serror)
  | OFailSent (cause : serror)
  | OInvalidate
  | OTrim (sequence : Z)
  | ORecall.

Fixpoint drop_while (test : entry -> bool) (l : list entry) : list entry :=
  match l with
  | [] => []
  | e :: l' => if test e then drop_while test l' else l
  end.

Definition keeping (test : entry -> bool) : list entry -> list entry := filter (fun e => test e = true).

Definition other (r : nat) (e : entry) : bool := negb (bool_decide (request_id e = r)).

Definition recall_in (l : list entry) (e : entry) : entry :=
  if bool_decide (request_id e ∈ request_id <$> l) then recall e else e.

Definition spec (op : operation) (q : queue) : queue :=
  match op with
  | ORegister command m bytes => mkQueue (q_pending q ++ [mkEntry command m bytes 0 false false]) (q_replay q)
  | OFinish r _ => mkQueue (keeping (other r) (q_pending q)) (keeping (other r) (q_replay q))
  | OFailAll _ => mkQueue [] []
  | OFailSent _ => mkQueue (keeping unsent (q_pending q)) []
  | OInvalidate => mkQueue (keeping uncontrolled (q_pending q)) (keeping uncontrolled (q_replay q))
  | OTrim sequence => mkQueue (q_pending q) (drop_while (fun e => seq e <=? sequence) (q_replay q))
  | ORecall => mkQueue (recall_in (q_replay q) <$> q_pending q) (recall <$> q_replay q)
  end.

(** The results an operation sends. *)
Definition answers (op : operation) (q : queue) : list (nat * submitResult) :=
  match op with
  | OFinish r result => (fun _ => (r, result)) <$> keeping (fun e => negb (other r e)) (q_pending q)
  | OFailAll err => (fun e => (request_id e, failed (outcome err e))) <$> q_pending q
  | OFailSent cause => (fun e => (request_id e, failed (unknown cause))) <$> keeping (fun e => negb (unsent e)) (q_pending q)
  | OInvalidate => (fun e => (request_id e, failed [msgr_ErrControlInvalidated])) <$> keeping (fun e => negb (uncontrolled e)) (q_pending q)
  | _ => []
  end.

(** A command is registered once, under a free transaction number, within the
    width of the totals. *)
Definition permitted (op : operation) (q : queue) : Prop :=
  match op with
  | ORegister command m bytes =>
      Forall (fun e => request_id e <> command_id command) (q_pending q) /\
      Forall (fun e => transaction e <> TransactionID (Header (wire_message m))) (q_pending q) /\
      0 <= bytes /\ inU 64 (foldr (fun e a => p_bytes e + a) 0 (q_pending q) + bytes)
  | _ => True
  end.

(** ** The implementation *)

Definition exec (op : operation) (t : table) : res table :=
  match op with
  | ORegister command m bytes => register command m bytes t
  | OFinish r result => match byRequest t !! r with Some p => finish p result t | None => Ok t end
  | OFailAll err => failAll err t
  | OFailSent cause => failSentUnknown cause t
  | OInvalidate => invalidate t
  | OTrim sequence => trimReplay sequence t
  | ORecall => prepareReplay t
  end.

Definition contents (ns : store_of) (X : list nat) : list entry := omap (fun p => body <$> ns !! p) X.

Definition represents (t : table) (q : queue) : Prop := exists A L R, table_ok A t L R /\
  contents (nodes t) L = q_pending q /\ contents (nodes t) R = q_replay q.

Definition answered_of (o : output) : option (nat * submitResult) := match o with OResult r x => Some (r, x) | _ => None end.
Definition answered (os : list output) : list (nat * submitResult) := omap answered_of os.

(** ** Contents *)

Lemma contents_agree ns ns' X : agree X ns ns' -> contents ns' X = contents ns X.
Proof.
  intros H. unfold contents. induction X as [|p X IH]; [done|]. cbn. rewrite (H p) by left.
  rewrite IH by (intros q Hq; apply H; by right). done.
Qed.

Lemma ids_contents ns X : ids ns X = request_id <$> contents ns X.
Proof. unfold ids, contents. induction X as [|p X IH]; [done|]. cbn. destruct (ns !! p); cbn; by rewrite ?IH. Qed.

Lemma contents_cons ns p X : contents ns (p :: X) =
  match ns !! p with Some n => body n :: contents ns X | None => contents ns X end.
Proof. unfold contents. cbn. by destruct (ns !! p). Qed.

Lemma contents_kept test ns X : contents ns (kept test ns X) = keeping test (contents ns X).
Proof.
  unfold kept, keeping. induction X as [|p X IH]; [done|]. rewrite filter_cons, contents_cons.
  assert (holds test ns p = from_option (fun n : pendingRequest => test n) false (ns !! p)) as Eh by done.
  destruct (ns !! p) as [n|] eqn:E; cbn in Eh; [|by rewrite decide_False by (by rewrite Eh)]. rewrite filter_cons.
  destruct (decide (holds test ns p = true)) as [Ht|Ht]; rewrite Eh in Ht.
  - by rewrite decide_True, contents_cons, E, IH.
  - by rewrite decide_False.
Qed.

Lemma contents_dropping test ns X : Forall (fun p => is_Some (ns !! p)) X ->
  contents ns (dropping test ns X) = drop_while test (contents ns X).
Proof.
  induction 1 as [|p X [n Hn] _ IH]; [done|]. cbn [dropping]. unfold holds. rewrite contents_cons, Hn. cbn [from_option drop_while].
  destruct (test n); [done|]. by rewrite contents_cons, Hn.
Qed.

Lemma contents_app ns X Y : contents ns (X ++ Y) = contents ns X ++ contents ns Y.
Proof. apply omap_app. Qed.

Lemma contents_take ns L p (n : pendingRequest) : NoDup L -> p ∈ L -> ns !! p = Some n ->
  contents ns L ≡ₚ body n :: contents ns (rm p L).
Proof.
  intros Nd Hp Hn. destruct (member_split p L Nd Hp) as (L1 & L2 & -> & -> & _).
  by rewrite !contents_app, contents_cons, Hn, Permutation_middle.
Qed.

Section Members.
Context (A : list nat) (t : table) (L R : list nat) (T : table_ok A t L R).

Lemma members : Forall (fun p => is_Some (nodes t !! p)) L /\ Forall (fun p => is_Some (nodes t !! p)) R.
Proof.
  assert (forall p, p ∈ L -> is_Some (nodes t !! p)) as H by (intros p Hp; destruct (ok_lookup _ _ _ _ _ T Hp); eauto).
  split; apply Forall_forall; [done|]. intros p Hp. by apply H, (ok_sub _ _ _ _ T).
Qed.

(** A request is one entry. *)
Lemma same_request p q (n m : pendingRequest) : p ∈ L -> q ∈ L -> nodes t !! p = Some n -> nodes t !! q = Some m ->
  request_id n = request_id m -> p = q.
Proof.
  intros Hp Hq Hn Hm E.
  assert (byRequest t !! request_id n = Some p) as E1 by (apply (ok_request _ _ _ _ T); eauto).
  assert (byRequest t !! request_id n = Some q) as E2 by (apply (ok_request _ _ _ _ T); eauto).
  congruence.
Qed.

Lemma contents_rm p (n : pendingRequest) X : p ∈ L -> nodes t !! p = Some n -> X ⊆ L ->
  contents (nodes t) (rm p X) = keeping (other (request_id n)) (contents (nodes t) X).
Proof.
  intros Hp Hn HX. assert (rm p X = kept (other (request_id n)) (nodes t) X) as ->; [|apply contents_kept].
  unfold rm, kept. induction X as [|q X IH]; [done|]. rewrite !filter_cons.
  rewrite IH by (intros x Hx; apply HX; by right).
  destruct (ok_lookup _ _ _ _ _ T (HX q ltac:(left))) as [m Hm]. unfold holds. rewrite Hm. cbn. unfold other.
  destruct (decide (q = p)) as [->|Hne].
  - rewrite decide_False by (intros []; done). rewrite decide_False; [done|]. simplify_eq. by rewrite bool_decide_eq_true_2.
  - rewrite decide_True by done. rewrite decide_True; [done|]. rewrite bool_decide_eq_false_2; [done|].
    intros E. apply Hne. by apply (same_request q p m n); [apply HX; left|..].
Qed.

Lemma elem_of_contents e X : e ∈ contents (nodes t) X <-> exists p (n : pendingRequest), p ∈ X /\ nodes t !! p = Some n /\ body n = e.
Proof.
  unfold contents. rewrite list_elem_of_omap. split.
  - intros (p & Hp & E). destruct (nodes t !! p) as [n|] eqn:En; [|done]. injection E as E. eauto.
  - intros (p & n & Hp & Hn & <-). exists p. by rewrite Hn.
Qed.
End Members.

(** ** Results *)

Lemma answered_app a b : answered (a ++ b) = answered a ++ answered b.
Proof. apply omap_app. Qed.

Lemma answered_none os : results os = [] -> answered os = [].
Proof.
  induction os as [|o os IH]; [done|]. unfold answered, results in *. cbn. destruct o; try done; exact IH.
Qed.

Lemma answered_only x os : only (eq x) os -> answered os = (fun r => (r, x)) <$> results os.
Proof.
  induction 1 as [|o os Ho _ IH]; [done|]. unfold answered, results in *. cbn. destruct o; try done. subst. cbn. by rewrite IH.
Qed.

Lemma answered_failures err ns X : answered (failures err ns X) = (fun e => (request_id e, failed (outcome err e))) <$> contents ns X.
Proof.
  induction X as [|p X IH]; [done|]. unfold failures, contents, answered in *. cbn [omap list_omap]. destruct (ns !! p); cbn; [by rewrite IH|done].
Qed.

Lemma keeping_split test l : l ≡ₚ keeping test l ++ keeping (fun e => negb (test e)) l.
Proof.
  induction l as [|e l IH]; [done|]. unfold keeping in *. rewrite !filter_cons.
  destruct (decide (test e = true)) as [H|H], (decide (negb (test e) = true)) as [H'|H'].
  - by rewrite H in H'.
  - cbn. by rewrite <- IH.
  - rewrite <- Permutation_middle. by rewrite <- IH.
  - by destruct (test e).
Qed.

(** The requests that a loop has ended are the ones that are not kept. *)
Lemma pruned_answers A t L R t' R' test x os : table_ok A t L R -> table_ok A t' (kept test (nodes t) L) R' ->
  agree (kept test (nodes t) L) (nodes t) (nodes t') -> trace t' = trace t ++ os -> only (eq x) os ->
  answered os ≡ₚ (fun e => (request_id e, x)) <$> keeping (fun e => negb (test e)) (contents (nodes t) L).
Proof.
  intros T T' Ag Tr Ho. rewrite (answered_only x os Ho).
  assert (results os ≡ₚ request_id <$> keeping (fun e => negb (test e)) (contents (nodes t) L)) as ->; [|by rewrite <- list_fmap_compose].
  pose proof (ok_account _ _ _ _ T) as P. rewrite (ok_account _ _ _ _ T'), Tr, results_app, <- app_assoc in P.
  apply Permutation_app_inv_l in P.
  rewrite (ids_agree _ _ _ Ag), !ids_contents, contents_kept in P.
  pose proof (fmap_Permutation request_id _ _ (keeping_split test (contents (nodes t) L))) as Q. rewrite fmap_app in Q.
  rewrite Q, (Permutation_app_comm (results os)) in P. by apply Permutation_app_inv_l in P.
Qed.

(** ** Refinement *)

Definition refines (op : operation) : Prop := forall t q, represents t q -> permitted op q ->
  exists t', exec op t = Ok t' /\ represents t' (spec op q) /\ answered (trace t') ≡ₚ answered (trace t) ++ answers op q.

Lemma total_contents f ns X : total f ns X = foldr (fun e a => f e + a) 0 (contents ns X).
Proof.
  induction X as [|p X IH]; [done|]. rewrite weight_cons, contents_cons, IH. unfold weight. by destruct (ns !! p).
Qed.

Lemma sum_le (f g : entry -> Z) l : (forall e, e ∈ l -> f e <= g e) ->
  foldr (fun e a => f e + a) 0 l <= foldr (fun e a => g e + a) 0 l.
Proof.
  induction l as [|e l IH]; intros H; cbn; [done|]. pose proof (H e ltac:(left)).
  specialize (IH ltac:(intros x Hx; apply H; by right)). lia.
Qed.

Lemma refines_register command m bytes : refines (ORegister command m bytes).
Proof.
  intros t q (A & L & R & T & EL & ER) (P1 & P2 & P3 & P4). rewrite Forall_forall in P1, P2.
  assert (byRequest t !! command_id command = None) as F1.
  { destruct (byRequest t !! command_id command) as [p|] eqn:E; [|done]. apply (ok_request _ _ _ _ T) in E as [Hp (n & Hn & Er)].
    destruct (P1 n); [rewrite <- EL; apply (elem_of_contents t); eauto|done]. }
  assert (byTID t !! TransactionID (Header (wire_message m)) = None) as F2.
  { destruct (byTID t !! _) as [p|] eqn:E; [|done]. apply (ok_tid _ _ _ _ T) in E as [Hp (n & Hn & Er)].
    destruct (P2 n); [rewrite <- EL; apply (elem_of_contents t); eauto|done]. }
  assert (forall f : entry -> Z, (forall e, 0 <= p_bytes e -> f e <= p_bytes e) ->
    total f (nodes t) L <= foldr (fun e a => p_bytes e + a) 0 (q_pending q)) as Hsum.
  { intros f Hf. rewrite total_contents, EL. apply sum_le. intros e He. apply Hf. rewrite <- EL in He.
    apply (elem_of_contents t) in He as (p & n & Hp & Hn & <-). by apply (ok_bytes _ _ _ _ T p n). }
  assert (total app_bytes (nodes t) L <= foldr (fun e a => p_bytes e + a) 0 (q_pending q)).
  { apply Hsum. intros e He. unfold app_bytes. destruct (control _); lia. }
  assert (total ctl_bytes (nodes t) L <= foldr (fun e a => p_bytes e + a) 0 (q_pending q)).
  { apply Hsum. intros e He. unfold ctl_bytes. destruct (control _); lia. }
  destruct (ok_widths _ _ _ _ T) as [V1 V2]. rewrite (ok_retained _ _ _ _ T), (ok_controlBytes _ _ _ _ T) in *. unfold inU in *.
  destruct (register_ok A t L R command m bytes T F1 F2 P3) as (p & t' & n & E & Hp & T' & Ag & Hn & Eb & Tr).
  { rewrite (ok_retained _ _ _ _ T). unfold inU. lia. }
  { rewrite (ok_controlBytes _ _ _ _ T). unfold inU. lia. }
  exists t'. split; [done|]. split.
  - exists (command_id command :: A), (L ++ [p]), R. split; [done|]. cbn. split.
    + by rewrite contents_app, (contents_agree (nodes t)), EL, contents_cons, Hn, Eb.
    + rewrite (contents_agree (nodes t)); [done|]. eapply agree_sub; [|exact Ag]. apply T.
  - rewrite Tr, answered_app. by rewrite (answered_none (retains m)) by (unfold retains; by destruct (payloadLease m)).
Qed.

Lemma refines_finish r result : refines (OFinish r result).
Proof.
  intros t q (A & L & R & T & EL & ER) _. cbn [exec spec answers].
  destruct (byRequest t !! r) as [p|] eqn:Er.
  - apply (ok_request _ _ _ _ T) in Er as [Hp (n & Hn & Er)].
    destruct (finish_entry_ok A t L R p n result T Hp Hn) as (t' & -> & T' & Ag & _ & Tr). exists t'. split; [done|]. split.
    + exists A, (rm p L), (rm p R). split; [done|]. cbn. rewrite <- EL, <- ER, <- Er.
      rewrite <- !(contents_rm A t L R T p n) by (try done; apply T).
      split; apply contents_agree; [done|]. eapply agree_sub; [|exact Ag]. apply rm_sub, T.
    + rewrite Tr, !answered_app, (answered_none (released n)) by apply results_released. cbn. f_equiv.
      rewrite <- EL, <- Er. pose proof (lane_nodup _ _ _ _ (ok_pending _ _ _ _ T)) as Nd.
      assert (keeping (fun e => negb (other (request_id n) e)) (contents (nodes t) L) ≡ₚ [body n]) as ->; [|by cbn].
      pose proof (keeping_split (other (request_id n)) (contents (nodes t) L)) as P.
      rewrite <- (contents_rm A t L R T p n L Hp Hn) in P by done.
      pose proof (contents_take (nodes t) L p n Nd Hp Hn) as Q. rewrite Permutation_cons_append in Q. rewrite Q in P at 1.
      apply Permutation_app_inv_l in P. by symmetry.
  - exists t. assert (forall X, X ⊆ L -> keeping (other r) (contents (nodes t) X) = contents (nodes t) X) as Hk.
    { intros X HX. apply list_filter_all. apply Forall_forall. intros e (p & n & Hp & Hn & <-)%(elem_of_contents t).
      unfold other. rewrite bool_decide_eq_false_2; [done|]. intros E.
      assert (byRequest t !! r = Some p); [|congruence]. apply (ok_request _ _ _ _ T). eauto. }
    split; [done|]. split.
    + exists A, L, R. split; [done|]. cbn. rewrite <- EL, <- ER. by rewrite !Hk by (try done; apply T).
    + rewrite <- EL. assert (keeping (fun e => negb (other r e)) (contents (nodes t) L) = []) as ->; [|by rewrite app_nil_r].
      apply Permutation_nil_r. pose proof (keeping_split (other r) (contents (nodes t) L)) as P. rewrite Hk in P by done.
      rewrite <- (app_nil_r (contents (nodes t) L)) in P at 1. apply Permutation_app_inv_l in P. by symmetry.
Qed.

Lemma refines_failAll err : refines (OFailAll err).
Proof.
  intros t q (A & L & R & T & EL & ER) _. destruct (failAll_ok A t L R err T) as (t' & E & T' & Tr).
  exists t'. split; [done|]. split; [by exists A, [], []|]. rewrite Tr, answered_app, answered_failures. cbn. f_equiv. rewrite <- EL.
  apply fmap_Permutation. unfold contents. by rewrite (lane_perm _ _ _ _ (ok_pending _ _ _ _ T)).
Qed.

Lemma refines_failSent cause : refines (OFailSent cause).
Proof.
  intros t q (A & L & R & T & EL & ER) _. destruct (failSentUnknown_ok A t L R cause T) as (t' & os & E & T' & Ag & Tr & Ho).
  exists t'. split; [done|]. split.
  - exists A, (kept unsent (nodes t) L), []. split; [done|]. cbn. rewrite <- EL, <- contents_kept. split; [by apply contents_agree|done].
  - rewrite Tr, answered_app. cbn. f_equiv. rewrite <- EL. by eapply pruned_answers.
Qed.

Lemma refines_invalidate : refines OInvalidate.
Proof.
  intros t q (A & L & R & T & EL & ER) _. destruct (invalidate_ok A t L R T) as (t' & E & [T' _ _ Ag (os & Tr & Ho)]).
  exists t'. split; [done|]. split.
  - eexists A, _, _. split; [done|]. cbn. rewrite <- EL, <- ER, <- !contents_kept. split; apply contents_agree; [done|].
    eapply agree_sub; [|exact Ag]. apply T'.
  - rewrite Tr, answered_app. cbn. f_equiv. rewrite <- EL. by eapply pruned_answers.
Qed.

Lemma refines_trim sequence : refines (OTrim sequence).
Proof.
  intros t q (A & L & R & T & EL & ER) _. destruct (trimReplay_ok A t L R sequence T) as (t' & E & T' & Ag & Tr).
  exists t'. split; [done|]. split; [|rewrite Tr; cbn; by rewrite app_nil_r].
  eexists A, _, _. split; [done|]. cbn. rewrite <- EL, <- ER, <- contents_dropping by apply (members A t L R T).
  by split; apply contents_agree.
Qed.

Lemma refines_recall : refines ORecall.
Proof.
  intros t q (A & L & R & T & EL & ER) _. destruct (prepareReplay_ok A t L R T) as (t' & E & T' & Hc & Tr).
  exists t'. split; [done|]. split; [|rewrite Tr; cbn; by rewrite app_nil_r].
  exists A, L, R. split; [done|]. cbn. rewrite <- EL, <- ER.
  assert (forall X, X ⊆ L -> contents (nodes t') X = recall_in (contents (nodes t) R) <$> contents (nodes t) X) as Hx.
  { induction X as [|p X IH]; intros HX; [done|]. rewrite !contents_cons.
    destruct (ok_lookup _ _ _ _ _ T (HX p ltac:(left))) as [n Hn].
    destruct (recalled_lookup _ _ _ _ _ Hc Hn) as (n' & -> & Eb). rewrite Hn. cbn.
    rewrite IH by (intros x ?; apply HX; by right). f_equal. rewrite Eb. unfold recall_in.
    rewrite (bool_decide_ext (p ∈ R) (request_id n ∈ request_id <$> contents (nodes t) R)); [done|].
    rewrite list_elem_of_fmap. split.
    - intros Hp. exists (body n). split; [done|]. apply (elem_of_contents t). eauto.
    - intros (e & Ee & (q' & m & Hq & Hm & <-)%(elem_of_contents t)).
      rewrite (same_request A t L R T p q' n m); auto; [apply HX; left|by apply (ok_sub _ _ _ _ T)]. }
  split; [by apply Hx|]. rewrite Hx by apply T. apply list_fmap_ext. intros i e He. unfold recall_in.
  rewrite bool_decide_eq_true_2; [done|]. apply list_elem_of_fmap. exists e. split; [done|]. by eapply list_elem_of_lookup_2.
Qed.

(** C13. The table of slices, linked lists and maps refines the queue: from a
    table that represents a queue every permitted operation returns, leaves a
    table that represents the queue the operation leads to, and sends exactly the
    results the specification names. *)
Theorem table_refines_queue t q op : represents t q -> permitted op q ->
  exists t', exec op t = Ok t' /\ represents t' (spec op q) /\ answered (trace t') ≡ₚ answered (trace t) ++ answers op q.
Proof.
  intros H P. destruct op.
  - by apply refines_register.
  - by apply refines_finish.
  - by apply refines_failAll.
  - by apply refines_failSent.
  - by apply refines_invalidate.
  - by apply refines_trim.
  - by apply refines_recall.
Qed.

Lemma table_refines_queue_witness :
  (exists t', exec (ORegister (Sample.request 1 None) (Sample.message None) 44) empty_table = Ok t' /\
    represents t' (spec (ORegister (Sample.request 1 None) (Sample.message None) 44) (mkQueue [] [])) /\
    answered (trace t') ≡ₚ []).
Proof.
  apply (table_refines_queue empty_table (mkQueue [] []) (ORegister (Sample.request 1 None) (Sample.message None) 44)).
  - exists [], [], []. split; [exact table_ok_empty|done].
  - split_and!; [constructor|constructor|lia|vm_compute; split; [discriminate|reflexivity]].
Defined.
