(* ===== verification/OsdWire.v ===== *)
(** * Objects, placement groups and backoffs on the wire of an OSD
    (src/internal/osd/backoff.go, the shared part of messages.go)

    [HObject] is the position of an object in the order an OSD keeps its
    objects in; a backoff blocks an interval of that order. *)

From stdpp Require Import base gmap list numbers.
From coqutil Require Import Byte Word.LittleEndianList.
From S2P Require Import Prelude Codec Crc Protocol MsgrFrame MsgrMessage OSDMap.
From stdpp Require Import list.

Open Scope Z_scope.
Open Scope go_scope.

(** ** Data *)

Record OsdLimits := mkOsdLimits { ol_MaxBytes : Z; ol_MaxOperations : Z }.

Record HObject := mkHObject {
  h_Key : bytes;
  h_Object : bytes;
  h_Snapshot : Z;
  h_Hash : Z;
  h_Max : bool;
  h_Namespace : bytes;
  h_Pool : Z }.

Definition BackoffBlock : Z := 1.
Definition BackoffAckBlock : Z := 2.
Definition BackoffUnblock : Z := 3.
Definition MessageOSDBackoff : Z := 61.

Record Backoff := mkBackoff {
  b_PG : PG;
  b_Shard : Z;
  b_MapEpoch : Z;
  b_Operation : Z;
  b_ID : Z;
  b_Begin : HObject;
  b_End : HObject }.

Definition MinInt64 : Z := - 2 ^ 63.

Definition IsMin (o : HObject) : bool :=
  (h_Snapshot o =? 0) && (h_Hash o =? 0) && negb (h_Max o) && (h_Pool o =? MinInt64).

Definition IsMax (o : HObject) : bool := h_Max o.

(** ** Placement groups *)

Definition encodePG (pg : PG) : Enc.M :=
  Enc.Uint8 1 ⨾ Enc.Uint64 (pg_Pool pg) ⨾ Enc.Uint32 (pg_Seed pg) ⨾ Enc.Int32 (-1).

Definition decodePG : DecM (res PG) :=
  v ← Dec.Uint8;
  if negb (v =? 1) then fail wire_ErrUnsupportedVersion
  else
    pool ← Dec.Uint64;
    seed ← Dec.Uint32;
    preferred ← Dec.Int32;
    _ ←? Dec.Finish;
    ok (mkPG pool seed preferred).

Definition encodeSPGWithShard (pg : PG) (shard : Z) : Enc.M :=
  Enc.Versioned 1 1 (encodePG pg ⨾ Enc.Uint8 (u8 shard)).

(** [if err := decoder.Finish(); err != nil || cond { return e }] *)
Definition checked (e : error) (cond : bool) : DecM (res unit) :=
  r ← Dec.Finish;
  match r with Ok _ => if cond then fail e else ok tt | _ => fail e end.

Definition decodeSPG : DecM (res (PG * Z)) :=
  '(version, payload) ← Dec.Versioned 1;
  _ ←? checked wire_ErrUnsupportedVersion (negb (version =? 1));
  child payload (
    pg ←? decodePG;
    shard ← Dec.Uint8;
    _ ←? ended osd_ErrMalformedReply;
    ok (pg, i8 shard)).

(** ** Objects *)

Definition hobject_writes (o : HObject) : Enc.M :=
  Enc.String (h_Key o) ⨾ Enc.String (h_Object o) ⨾ Enc.Uint64 (h_Snapshot o) ⨾ Enc.Uint32 (h_Hash o)
  ⨾ Enc.Bool (h_Max o) ⨾ Enc.String (h_Namespace o) ⨾ Enc.Int64 (h_Pool o).

Definition encodeHObject (o : HObject) : Enc.M := Enc.Versioned 4 3 (hobject_writes o).

Definition decodeHObject : DecM (res HObject) :=
  '(version, payload) ← Dec.Versioned 4;
  _ ←? checked wire_ErrUnsupportedVersion ((version <? 3) || (4 <? version));
  child payload (
    key ← Dec.String;
    object ← Dec.String;
    snapshot ← Dec.Uint64;
    hash ← Dec.Uint32;
    max ← Dec.Bool;
    '(ns, pool) ← (if 4 <=? version then ns ← Dec.String; pool ← Dec.Int64; mret (ns, pool) else mret ([], 0));
    _ ←? ended osd_ErrMalformedReply;
    ok (mkHObject key object snapshot hash max ns pool)).

Definition MarshalHObject (o : HObject) (maxBytes : Z) : res bytes :=
  Enc.BytesResult (encodeHObject o (NewEncoder maxBytes)).

Definition UnmarshalHObject (data : bytes) (maxBytes : Z) : res HObject :=
  fst ((o ←? decodeHObject; _ ←? ended osd_ErrMalformedReply; ok o) (NewDecoder data (mkLimits maxBytes))).

(** ** The order of objects *)

(** Go compares strings by their bytes. *)
Fixpoint bytes_compare (a b : bytes) : Z :=
  match a, b with
  | [], [] => 0
  | [], _ => -1
  | _, [] => 1
  | x :: a, y :: b =>
      if byte.unsigned x <? byte.unsigned y then -1 else if byte.unsigned y <? byte.unsigned x then 1 else bytes_compare a b
  end.

Definition compareOrdered (left right : Z) : Z := if left <? right then -1 else if right <? left then 1 else 0.

Definition compareBool (left right : bool) : Z := if eqb left right then 0 else if negb left then -1 else 1.

Definition effectiveKey (o : HObject) : bytes :=
  if negb (bool_decide (h_Key o = [])) then h_Key o else h_Object o.

Definition ReverseBits (value : Z) : Z :=
  let value := Z.lor (Z.land (Z.shiftr value 1) 0x55555555) (u32 (Z.shiftl (Z.land value 0x55555555) 1)) in
  let value := Z.lor (Z.land (Z.shiftr value 2) 0x33333333) (u32 (Z.shiftl (Z.land value 0x33333333) 2)) in
  let value := Z.lor (Z.land (Z.shiftr value 4) 0x0f0f0f0f) (u32 (Z.shiftl (Z.land value 0x0f0f0f0f) 4)) in
  let value := Z.lor (Z.land (Z.shiftr value 8) 0x00ff00ff) (u32 (Z.shiftl (Z.land value 0x00ff00ff) 8)) in
  Z.lor (Z.shiftr value 16) (u32 (Z.shiftl value 16)).

(** [if result := c; result != 0 { return result }; k] *)
Definition or_else (c k : Z) : Z := if negb (c =? 0) then c else k.

Definition CompareHObject (left right : HObject) : Z :=
  if h_Max left && h_Max right then 0
  else
    or_else (compareBool (h_Max left) (h_Max right)) (
    or_else (compareOrdered (h_Pool left) (h_Pool right)) (
    or_else (compareOrdered (ReverseBits (h_Hash left)) (ReverseBits (h_Hash right))) (
    or_else (bytes_compare (h_Namespace left) (h_Namespace right)) (
    or_else (if negb (bool_decide (h_Key left = [])) || negb (bool_decide (h_Key right = []))
             then bytes_compare (effectiveKey left) (effectiveKey right) else 0) (
    or_else (bytes_compare (h_Object left) (h_Object right))
      (compareOrdered (h_Snapshot left) (h_Snapshot right))))))).

Definition Contains (b : Backoff) (target : HObject) : bool :=
  if CompareHObject (b_Begin b) (b_End b) =? 0 then CompareHObject target (b_Begin b) =? 0
  else (CompareHObject (b_Begin b) target <=? 0) && (CompareHObject target (b_End b) <? 0).

(** ** Backoffs *)

Definition DecodeBackoff (m : Message) (limits : OsdLimits) : res Backoff :=
  let h := Header m in
  if (ol_MaxBytes limits =? 0) || negb (MsgrMessage.Type_ h =? MessageOSDBackoff) || negb (Version h =? 1) || (1 <? CompatVersion h)
     || negb (len (Middle m) =? 0) || negb (len (m_Data m) =? 0) || (ol_MaxBytes limits <? len (Front m))
  then Err osd_ErrMalformedReply
  else
    fst ((
      '(pg, shard) ←? decodeSPG;
      mapEpoch ← Dec.Uint32;
      operation ← Dec.Uint8;
      id ← Dec.Uint64;
      if negb (operation =? BackoffBlock) && negb (operation =? BackoffUnblock) then fail wire_ErrUnsupportedVersion
      else
        begin_ ←? decodeHObject;
        end_ ←? decodeHObject;
        _ ←? ended osd_ErrMalformedReply;
        ok (mkBackoff pg shard mapEpoch operation id begin_ end_)) (NewDecoder (Front m) (mkLimits (ol_MaxBytes limits)))).

Definition backoff_writes (operation : Z) (b : Backoff) : Enc.M :=
  encodeSPGWithShard (b_PG b) (b_Shard b) ⨾ Enc.Uint32 (b_MapEpoch b) ⨾ Enc.Uint8 operation ⨾ Enc.Uint64 (b_ID b)
  ⨾ encodeHObject (b_Begin b) ⨾ encodeHObject (b_End b).

Definition EncodeBackoffAcknowledgment (b : Backoff) (limits : OsdLimits) : res Message :=
  if (ol_MaxBytes limits =? 0) || negb (b_Operation b =? BackoffBlock) then Err wire_ErrMalformed
  else
    front ← Enc.BytesResult (backoff_writes BackoffAckBlock b (NewEncoder (ol_MaxBytes limits)));
    Ok (mkMessage (mkHeader 0 0 MessageOSDBackoff 0 1 0 0 0 0 1 0) (mkLengths (u32 (len front)) 0 0) front [] []).

(** ** Total orders *)

Record total_cmp {A} (c : A -> A -> Z) : Prop := {
  tc_range a b : c a b = -1 \/ c a b = 0 \/ c a b = 1;
  tc_opp a b : c b a = - c a b;
  tc_le a b d : c a b <= 0 -> c b d <= 0 -> c a d <= 0 }.

Lemma cmp_Z : total_cmp compareOrdered.
Proof.
  unfold compareOrdered. split; intros.
  - destruct (a <? b), (b <? a); auto.
  - destruct (Z.ltb_spec b a), (Z.ltb_spec a b); lia.
  - destruct (Z.ltb_spec a b), (Z.ltb_spec b a), (Z.ltb_spec b d), (Z.ltb_spec d b), (Z.ltb_spec a d), (Z.ltb_spec d a); lia.
Qed.

Lemma cmp_bool : total_cmp compareBool.
Proof. split; intros; unfold compareBool; repeat match goal with b : bool |- _ => destruct b end; cbn in *; auto; lia. Qed.

Lemma cmp_lex {A} (c k : A -> A -> Z) : total_cmp c -> total_cmp k -> total_cmp (fun a b => or_else (c a b) (k a b)).
Proof.
  intros [R1 O1 L1] [R2 O2 L2]. split; intros; unfold or_else in *.
  - destruct (negb _); auto.
  - rewrite O1, O2. destruct (Z.eqb_spec (- c a b) 0), (Z.eqb_spec (c a b) 0); cbn; lia.
  - pose proof (L1 a b d). pose proof (L1 b d a). pose proof (L1 d a b). pose proof (O1 a b). pose proof (O1 b d). pose proof (O1 a d).
    pose proof (L2 a b d). destruct (Z.eqb_spec (c a b) 0), (Z.eqb_spec (c b d) 0), (Z.eqb_spec (c a d) 0); cbn in *; lia.
Qed.

Lemma cmp_on {A B} (f : A -> B) (c : B -> B -> Z) : total_cmp c -> total_cmp (fun a b => c (f a) (f b)).
Proof. intros [R O L]. split; intros; eauto. Qed.

Lemma cmp_bytes : total_cmp bytes_compare.
Proof.
  split.
  - induction a as [|x a IH]; intros [|y b]; cbn; auto. destruct (_ <? _); [auto|]. destruct (_ <? _); [auto|apply IH].
  - induction a as [|x a IH]; intros [|y b]; cbn; try done.
    destruct (Z.ltb_spec (byte.unsigned y) (byte.unsigned x)), (Z.ltb_spec (byte.unsigned x) (byte.unsigned y)); try lia. apply IH.
  - induction a as [|x a IH]; intros [|y b] [|z d]; cbn; try lia.
    destruct (Z.ltb_spec (byte.unsigned x) (byte.unsigned y)), (Z.ltb_spec (byte.unsigned y) (byte.unsigned x)),
      (Z.ltb_spec (byte.unsigned y) (byte.unsigned z)), (Z.ltb_spec (byte.unsigned z) (byte.unsigned y)),
      (Z.ltb_spec (byte.unsigned x) (byte.unsigned z)), (Z.ltb_spec (byte.unsigned z) (byte.unsigned x)); try lia. apply IH.
Qed.

Lemma bytes_compare_refl a : bytes_compare a a = 0.
Proof. induction a as [|x a IH]; [done|]. cbn. by rewrite Z.ltb_irrefl. Qed.

Lemma bytes_compare_eq a b : bytes_compare a b = 0 <-> a = b.
Proof.
  split; [|intros ->; apply bytes_compare_refl]. revert b. induction a as [|x a IH]; intros [|y b]; cbn; try done.
  destruct (Z.ltb_spec (byte.unsigned x) (byte.unsigned y)); [done|].
  destruct (Z.ltb_spec (byte.unsigned y) (byte.unsigned x)); [done|]. intros E. f_equal; [|by apply IH].
  rewrite <- (byte.of_Z_unsigned x), <- (byte.of_Z_unsigned y). f_equal. lia.
Qed.

(** ** The order of objects is lexicographic *)

(** What the order sees of an object: every object that stands for the end is
    the same, and a key that is missing is the name. *)
Definition position (o : HObject) : bool * (Z * (Z * (bytes * (bytes * (bytes * Z))))) :=
  if h_Max o then (true, (0, (0, ([], ([], ([], 0))))))
  else (false, (h_Pool o, (ReverseBits (h_Hash o), (h_Namespace o, (effectiveKey o, (h_Object o, h_Snapshot o)))))).

Definition lex {A B} (c : A -> A -> Z) (k : B -> B -> Z) (a b : A * B) : Z := or_else (c a.1 b.1) (k a.2 b.2).

Definition position_compare : bool * (Z * (Z * (bytes * (bytes * (bytes * Z))))) -> _ -> Z :=
  lex compareBool (lex compareOrdered (lex compareOrdered (lex bytes_compare (lex bytes_compare (lex bytes_compare compareOrdered))))).

Lemma cmp_pair {A B} (c : A -> A -> Z) (k : B -> B -> Z) : total_cmp c -> total_cmp k -> total_cmp (lex c k).
Proof. intros Hc Hk. apply cmp_lex; by apply cmp_on. Qed.

Lemma position_total : total_cmp position_compare.
Proof. repeat apply cmp_pair; auto using cmp_bool, cmp_Z, cmp_bytes. Qed.

Lemma lex_eq {A B} (c : A -> A -> Z) (k : B -> B -> Z) : (forall a b, c a b = 0 <-> a = b) -> (forall a b, k a b = 0 <-> a = b) ->
  forall a b, lex c k a b = 0 <-> a = b.
Proof.
  intros Hc Hk [a1 a2] [b1 b2]. unfold lex, or_else. cbn. specialize (Hc a1 b1). specialize (Hk a2 b2).
  destruct (Z.eqb_spec (c a1 b1) 0) as [E|E]; cbn; [|split; [lia|intros [=]; tauto]]. rewrite Hk. apply Hc in E. naive_solver.
Qed.

Lemma compareOrdered_eq a b : compareOrdered a b = 0 <-> a = b.
Proof. unfold compareOrdered. destruct (Z.ltb_spec a b), (Z.ltb_spec b a); lia. Qed.

Lemma compareBool_eq a b : compareBool a b = 0 <-> a = b.
Proof. by destruct a, b. Qed.

Lemma CompareHObject_position l r : CompareHObject l r = position_compare (position l) (position r).
Proof.
  unfold CompareHObject, position, position_compare, lex. destruct (h_Max l), (h_Max r); try reflexivity. cbn [andb fst snd].
  unfold or_else at 1 7. cbn [compareBool eqb negb Z.eqb].
  do 3 apply (f_equal (or_else _)).
  destruct (bool_decide (h_Key l = [])) eqn:El, (bool_decide (h_Key r = [])) eqn:Er; cbn [negb orb]; [|reflexivity..].
  unfold effectiveKey. rewrite El, Er. cbn [negb]. unfold or_else. cbn. by destruct (bytes_compare (h_Object l) (h_Object r) =? 0).
Qed.

(** C0. Comparing objects is a total order on their positions: swapping the
    arguments negates the result, the order is transitive, and two objects compare
    equal exactly when they have the same position. *)
Theorem CompareHObject_total_order a b c :
  CompareHObject b a = - CompareHObject a b /\
  (CompareHObject a b <= 0 -> CompareHObject b c <= 0 -> CompareHObject a c <= 0) /\
  (CompareHObject a b = 0 <-> position a = position b).
Proof.
  rewrite !CompareHObject_position. destruct position_total as [_ O L]. split_and!; [apply O|apply L|].
  repeat apply lex_eq; auto using compareBool_eq, compareOrdered_eq, bytes_compare_eq.
Qed.

(** ** Reversing bits *)

Lemma swap_bits v k mask i : inU 32 v -> 0 <= k -> 0 <= i < 32 ->
  Z.testbit (Z.lor (Z.land (Z.shiftr v k) mask) (u32 (Z.shiftl (Z.land v mask) k))) i =
  (Z.testbit v (i + k) && Z.testbit mask i) || (Z.testbit v (i - k) && Z.testbit mask (i - k)).
Proof.
  intros Hv Hk Hi. rewrite Z.lor_spec, Z.land_spec, Z.shiftr_spec by lia. f_equal.
  unfold u32, wrapU. rewrite Z.mod_pow2_bits_low, Z.shiftl_spec, Z.land_spec by lia. done.
Qed.

Lemma swap_inU v k mask : inU 32 v -> 0 <= k -> inU 32 mask ->
  inU 32 (Z.lor (Z.land (Z.shiftr v k) mask) (u32 (Z.shiftl (Z.land v mask) k))).
Proof. intros Hv Hk Hm. apply inU_lor; [lia|apply inU_land_r; [lia|done]|apply wrapU_range; lia]. Qed.

Lemma outside_bits v j : inU 32 v -> j < 0 \/ 32 <= j -> Z.testbit v j = false.
Proof. intros Hv [Hj|Hj]; [by apply Z.testbit_neg_r|by apply (inU_testbit 32 v)]. Qed.

(** The bits of [v] at constant places, by [S] or as outside of 32 bits. *)
Ltac read_bits v Hv S :=
  repeat match goal with
  | |- context [Z.testbit v ?x] =>
      let y := eval vm_compute in x in
      first [rewrite (outside_bits v x Hv) by lia | progress (change (Z.testbit v x) with (Z.testbit v y)); rewrite (S y) by lia | rewrite (S x) by lia]
  end;
  repeat match goal with
  | |- context [Z.testbit (Zpos ?m) ?x] =>
      let b := eval vm_compute in (Z.testbit (Zpos m) x) in change (Z.testbit (Zpos m) x) with b
  end; rewrite ?andb_true_r, ?andb_false_r, ?orb_false_r, ?orb_false_l.

(** Every bit moves to the mirrored place. *)
Theorem ReverseBits_mirrors v i : inU 32 v -> 0 <= i < 32 -> Z.testbit (ReverseBits v) i = Z.testbit v (31 - i).
Proof.
  intros Hv Hi. unfold ReverseBits. cbv zeta.
  set (v1 := Z.lor (Z.land (Z.shiftr v 1) _) _). assert (inU 32 v1) as H1 by (apply swap_inU; [done|lia|vm_compute; split; congruence]).
  set (v2 := Z.lor (Z.land (Z.shiftr v1 2) _) _). assert (inU 32 v2) as H2 by (apply swap_inU; [done|lia|vm_compute; split; congruence]).
  set (v3 := Z.lor (Z.land (Z.shiftr v2 4) _) _). assert (inU 32 v3) as H3 by (apply swap_inU; [done|lia|vm_compute; split; congruence]).
  set (v4 := Z.lor (Z.land (Z.shiftr v3 8) _) _). assert (inU 32 v4) as H4 by (apply swap_inU; [done|lia|vm_compute; split; congruence]).
  pose proof (fun i => swap_bits v 1 0x55555555 i Hv ltac:(lia)) as S1. fold v1 in S1.
  pose proof (fun i => swap_bits v1 2 0x33333333 i H1 ltac:(lia)) as S2. fold v2 in S2.
  pose proof (fun i => swap_bits v2 4 0x0f0f0f0f i H2 ltac:(lia)) as S3. fold v3 in S3.
  pose proof (fun i => swap_bits v3 8 0x00ff00ff i H3 ltac:(lia)) as S4. fold v4 in S4.
  assert (Z.testbit (Z.lor (Z.shiftr v4 16) (u32 (Z.shiftl v4 16))) i = Z.testbit v4 (i + 16) || Z.testbit v4 (i - 16)) as ->.
  { rewrite Z.lor_spec, Z.shiftr_spec by lia. f_equal. unfold u32, wrapU. by rewrite Z.mod_pow2_bits_low, Z.shiftl_spec by lia. }
  clearbody v1 v2 v3 v4.
  assert (i ∈ seqZ 0 32) as Hin by (apply elem_of_seqZ; lia). cbn in Hin.
  repeat (apply elem_of_cons in Hin as [->|Hin]); [..|by apply elem_of_nil in Hin].
  all: read_bits v4 H4 S4; read_bits v3 H3 S3; read_bits v2 H2 S2; read_bits v1 H1 S1; reflexivity.
Qed.

(** ** Round trips *)

Definition hobject_bytes (o : HObject) : bytes :=
  prefixed (h_Key o) ++ prefixed (h_Object o) ++ le_split 8 (h_Snapshot o) ++ le_split 4 (h_Hash o) ++
  [byte.of_Z (Z.b2z (h_Max o))] ++ prefixed (h_Namespace o) ++ le_split 8 (u64 (h_Pool o)).

Record hobject_ok (o : HObject) : Prop := {
  ho_key : len (h_Key o) <= MaxUint32;
  ho_object : len (h_Object o) <= MaxUint32;
  ho_namespace : len (h_Namespace o) <= MaxUint32;
  ho_snapshot : inU 64 (h_Snapshot o);
  ho_hash : inU 32 (h_Hash o);
  ho_pool : inS 64 (h_Pool o) }.

Lemma hobject_emits o : hobject_ok o -> emits (encodeHObject o) (envelope 4 3 (hobject_bytes o)).
Proof. intros []. apply emits_versioned. unfold hobject_writes, hobject_bytes. repeat apply emits_seq; auto with wire. Qed.

Lemma parses_checked max e : parses max (checked e false) [] (Ok tt).
Proof. apply (parses_bind _ _ _ [] [] (Ok tt)); [apply parses_finish|apply parses_ret]. Qed.

Lemma len_prefixed bs : len (prefixed bs) = 4 + len bs.
Proof. unfold prefixed. rewrite len_app, len_le_split. lia. Qed.

Lemma hobject_parses max o : hobject_ok o -> len (hobject_bytes o) <= max -> max <= MaxUint32 ->
  parses max decodeHObject (envelope 4 3 (hobject_bytes o)) (Ok o).
Proof.
  intros [] Hl Hm. unfold decodeHObject. rewrite <- (app_nil_r (envelope _ _ _)).
  eapply parses_bind; [apply parses_versioned; try done; unfold inU; lia|]. cbv beta iota.
  eapply (parses_try _ _ _ [] []); [apply parses_checked|].
  eapply consumes_child; [apply ready_new|]. unfold hobject_bytes in *. rewrite !len_app, !len_prefixed, !len_le_split in Hl.
  pose proof (len_nonneg (h_Key o)). pose proof (len_nonneg (h_Object o)). pose proof (len_nonneg (h_Namespace o)).
  pose proof (len_nonneg [byte.of_Z (Z.b2z (h_Max o))]).
  eapply consumes_bind; [apply parses_bytes; lia|]. eapply consumes_bind; [apply parses_bytes; lia|].
  eapply consumes_bind; [by apply parses_u64|]. eapply consumes_bind; [by apply parses_u32|].
  eapply consumes_bind; [apply parses_bool|]. cbn [Z.leb Z.compare Pos.compare Pos.compare_cont].
  rewrite <- (app_nil_r (prefixed (h_Namespace o) ++ _)). eapply consumes_bind.
  { eapply parses_bind; [apply parses_bytes; lia|]. rewrite <- (app_nil_r (le_split 8 _)).
    eapply parses_bind; [by apply parses_i64|apply parses_ret]. }
  cbv beta iota. apply consumes_ended. destruct o. apply consumes_ret.
Qed.

(** C0. An object that is marshalled within a limit is unmarshalled under it; an
    object that does not fit is reported. *)
Theorem hobject_roundtrip o maxBytes : hobject_ok o -> 0 <= maxBytes <= MaxUint32 ->
  match MarshalHObject o maxBytes with
  | Ok data => UnmarshalHObject data maxBytes = Ok o
  | Err e => e = wire_ErrLimitExceeded /\ maxBytes < 6 + len (hobject_bytes o)
  | Panic => False
  end.
Proof.
  intros Ho Hm. unfold MarshalHObject, UnmarshalHObject. rewrite (emits_result _ _ _ Hm (hobject_emits o Ho)).
  rewrite len_envelope. destruct (Z.leb_spec (6 + len (hobject_bytes o)) maxBytes); [|auto].
  apply (consumes_new maxBytes). rewrite <- (app_nil_r (envelope _ _ _)).
  eapply consumes_try; [apply hobject_parses; [done|lia|lia]|]. by apply consumes_ended.
Qed.

Definition sample_object : HObject :=
  mkHObject [] [Byte.x61; Byte.x62] 18446744073709551614 0x12345678 false [Byte.x6e] 3.

Lemma hobject_roundtrip_witness : UnmarshalHObject (envelope 4 3 (hobject_bytes sample_object)) 4096 = Ok sample_object.
Proof.
  pose proof (hobject_roundtrip sample_object 4096) as H. apply H.
  - split; vm_compute; split || idtac; congruence.
  - unfold MaxUint32. lia.
Defined.

(** An acknowledgment tells the OSD the interval it sent. *)
Lemma backoff_emits operation b : hobject_ok (b_Begin b) -> hobject_ok (b_End b) -> emits (backoff_writes operation b)
  (envelope 1 1 ([byte.of_Z 1] ++ le_split 8 (pg_Pool (b_PG b)) ++ le_split 4 (pg_Seed (b_PG b)) ++ le_split 4 (u32 (-1)) ++ [byte.of_Z (u8 (b_Shard b))])
   ++ le_split 4 (b_MapEpoch b) ++ [byte.of_Z operation] ++ le_split 8 (b_ID b)
   ++ envelope 4 3 (hobject_bytes (b_Begin b)) ++ envelope 4 3 (hobject_bytes (b_End b))).
Proof.
  intros HB HE. unfold backoff_writes, encodeSPGWithShard, encodePG.
  apply emits_seq; [apply emits_versioned; eapply emits_eq; [repeat apply emits_seq; auto with wire|by rewrite <- !app_assoc]|].
  repeat apply emits_seq; auto using hobject_emits with wire.
Qed.
