(* ===== verification/OsdMessages.v ===== *)
(** * Requests and replies of an OSD (src/internal/osd/messages.go)

    [encodeRequest] writes the payload length into the operations of its
    caller, so it returns the operations as they are afterwards.  [decodeReply]
    cuts the data segment of a reply into the results of its operations. *)

From stdpp Require Import base gmap list numbers.
From coqutil Require Import Byte Word.LittleEndianList.
From S2P Require Import Prelude Codec Crc Protocol MsgrFrame MsgrMessage OSDMap OsdWire.
From stdpp Require Import list.

Open Scope Z_scope.
Open Scope go_scope.

(** ** Constants *)

Definition OpRead : Z := 0x1201.
Definition OpStat : Z := 0x1202.
Definition OpSparseRead : Z := 0x1205.
Definition OpNotify : Z := 0x1206.
Definition OpNotifyAck : Z := 0x1207.
Definition OpListWatchers : Z := 0x1209.
Definition OpAssertVer : Z := 0x1208.
Definition OpOmapGetKeys : Z := 0x1211.
Definition OpOmapGetValues : Z := 0x1212.
Definition OpOmapGetHeader : Z := 0x1213.
Definition OpOmapGetValuesByKeys : Z := 0x1214.
Definition OpOmapCompare : Z := 0x1219.
Definition OpChecksum : Z := 0x121f.
Definition OpCompareExtent : Z := 0x1220.
Definition OpGetXattr : Z := 0x1301.
Definition OpGetXattrs : Z := 0x1302.
Definition OpCompareXattr : Z := 0x1303.
Definition OpCall : Z := 0x1401.
Definition OpPGList : Z := 0x1501.
Definition OpPGNList : Z := 0x1505.
Definition OpScrubList : Z := 0x1507.
Definition OpWrite : Z := 0x2201.
Definition OpWriteFull : Z := 0x2202.
Definition OpTruncate : Z := 0x2203.
Definition OpZero : Z := 0x2204.
Definition OpDelete : Z := 0x2205.
Definition OpAppend : Z := 0x2206.
Definition OpWatch : Z := 0x220f.
Definition OpCreate : Z := 0x220d.
Definition OpRollback : Z := 0x220e.
Definition OpOmapSetValues : Z := 0x2215.
Definition OpOmapSetHeader : Z := 0x2216.
Definition OpOmapClear : Z := 0x2217.
Definition OpOmapRemoveKeys : Z := 0x2218.
Definition OpCopyFrom : Z := 0x221a.
Definition OpSetAllocationHint : Z := 0x2223.
Definition OpWriteSame : Z := 0x2226.
Definition OpCopyFrom2 : Z := 0x222d.
Definition OpOmapRemoveRange : Z := 0x222c.
Definition OpSetXattr : Z := 0x2301.
Definition OpRemoveXattr : Z := 0x2304.
Definition OpFlagExclusive : Z := 0x0001.
Definition OpFlagFailOK : Z := 0x0002.

Definition FlagAck : Z := 0x0001.
Definition FlagWrite : Z := 0x0020.
Definition FlagOnDisk : Z := 0x0004.
Definition FlagRead : Z := 0x0010.
Definition FlagRetry : Z := 0x0008.
Definition FlagPGOp : Z := 0x0400.
Definition FlagIgnoreCache : Z := 0x8000.
Definition FlagIgnoreOverlay : Z := 0x20000.
Definition FlagRedirected : Z := 0x200000.
Definition FlagReturnVector : Z := 0x04000000.

Definition NoSnap : Z := 2 ^ 64 - 2.
Definition operationDescriptorSize : Z := 38.
Definition EntityClient : Z := 0x08.
Definition MessageOSDOp : Z := 42.
Definition MessageOSDOpReply : Z := 43.

Definition WatchOperationUnwatch : Z := 0.
Definition WatchOperationRegister : Z := 3.
Definition WatchOperationReconnect : Z := 5.
Definition WatchOperationPing : Z := 7.

Definition ChecksumXXHash32 : Z := 0.
Definition ChecksumXXHash64 : Z := 1.
Definition ChecksumCRC32C : Z := 2.

(** ** Data *)

Record Operation := mkOperation {
  op_Code : Z;
  op_Flags : Z;
  op_Offset : Z;
  op_Length : Z;
  op_PatternLength : Z;
  op_ChecksumType : Z;
  op_ChunkSize : Z;
  op_ExpectedObjectSize : Z;
  op_ExpectedWriteSize : Z;
  op_AllocationFlags : Z;
  op_XattrNameLength : Z;
  op_XattrValueLength : Z;
  op_CompareOperator : Z;
  op_CompareMode : Z;
  op_ClassNameLength : Z;
  op_MethodNameLength : Z;
  op_ClassInputLength : Z;
  op_WatchCookie : Z;
  op_WatchVersion : Z;
  op_WatchOperation : Z;
  op_WatchGeneration : Z;
  op_WatchTimeout : Z;
  op_AssertVersion : Z;
  op_SnapshotID : Z;
  op_SourceSnapshotID : Z;
  op_SourceVersion : Z;
  op_CopyFlags : Z;
  op_SourceFadviseFlags : Z;
  op_ListCount : Z;
  op_ListStartEpoch : Z;
  op_PayloadLength : Z;
  op_Data : bytes }.

Definition set_PayloadLength (o : Operation) (n : Z) : Operation :=
  mkOperation (op_Code o) (op_Flags o) (op_Offset o) (op_Length o) (op_PatternLength o) (op_ChecksumType o) (op_ChunkSize o) (op_ExpectedObjectSize o) (op_ExpectedWriteSize o) (op_AllocationFlags o) (op_XattrNameLength o) (op_XattrValueLength o) (op_CompareOperator o) (op_CompareMode o) (op_ClassNameLength o) (op_MethodNameLength o) (op_ClassInputLength o) (op_WatchCookie o) (op_WatchVersion o) (op_WatchOperation o) (op_WatchGeneration o) (op_WatchTimeout o) (op_AssertVersion o) (op_SnapshotID o) (op_SourceSnapshotID o) (op_SourceVersion o) (op_CopyFlags o) (op_SourceFadviseFlags o) (op_ListCount o) (op_ListStartEpoch o) n (op_Data o).

Record Request := mkRequest {
  rq_MapEpoch : Z;
  rq_PG : PG;
  rq_Shard : Z;
  rq_Sharded : bool;
  rq_ObjectHash : Z;
  rq_PoolID : Z;
  rq_Object : bytes;
  rq_Locator : bytes;
  rq_Namespace : bytes;
  rq_Snapshot : Z;
  rq_SnapshotSequence : Z;
  rq_WriteSnapshots : list Z;
  rq_TransactionID : Z;
  rq_ClientGlobalID : Z;
  rq_ClientIncarnation : Z;
  rq_Retry : Z;
  rq_Flags : Z;
  rq_ExplicitFlags : bool;
  rq_Features : Z;
  rq_Operations : list Operation }.

Definition set_Operations (r : Request) (ops : list Operation) : Request :=
  mkRequest (rq_MapEpoch r) (rq_PG r) (rq_Shard r) (rq_Sharded r) (rq_ObjectHash r) (rq_PoolID r) (rq_Object r) (rq_Locator r) (rq_Namespace r) (rq_Snapshot r) (rq_SnapshotSequence r) (rq_WriteSnapshots r) (rq_TransactionID r) (rq_ClientGlobalID r) (rq_ClientIncarnation r) (rq_Retry r) (rq_Flags r) (rq_ExplicitFlags r) (rq_Features r) ops.

Record OperationResult := mkOperationResult {
  or_Operation : Z;
  or_Code : Z;
  or_Data : bytes }.

Record Redirect := mkRedirect {
  rd_Pool : Z;
  rd_Locator : bytes;
  rd_Namespace : bytes;
  rd_Object : bytes }.

Record Reply := mkReply {
  rp_Object : bytes;
  rp_PG : PG;
  rp_Flags : Z;
  rp_Result : Z;
  rp_MapEpoch : Z;
  rp_Retry : Z;
  rp_Version : Z;
  rp_Redirect : option Redirect;
  rp_Operations : list OperationResult }.

(** ** Checks *)

(** [switch code { case codes...: }] *)
Definition among (codes : list Z) (code : Z) : bool := existsb (Z.eqb code) codes.

Definition supportedOperation (code : Z) : bool :=
  among [OpRead; OpStat; OpSparseRead; OpNotify; OpNotifyAck; OpListWatchers; OpAssertVer; OpOmapGetKeys; OpOmapGetValues;
         OpOmapGetValuesByKeys; OpOmapGetHeader; OpOmapCompare; OpChecksum; OpCompareExtent;
         OpGetXattr; OpGetXattrs; OpCompareXattr; OpCall; OpPGList; OpPGNList; OpScrubList;
         OpWrite; OpWriteFull; OpTruncate; OpZero; OpDelete; OpAppend; OpWatch; OpCreate; OpRollback;
         OpOmapSetValues; OpOmapSetHeader; OpOmapClear; OpOmapRemoveKeys; OpCopyFrom;
         OpSetAllocationHint; OpWriteSame; OpCopyFrom2; OpOmapRemoveRange; OpSetXattr; OpRemoveXattr] code.

Definition isMutation (code : Z) : bool := negb (Z.land code 0x2000 =? 0).

Definition ChecksumSize (kind : Z) : Z * bool :=
  if among [ChecksumXXHash32; ChecksumCRC32C] kind then (4, true)
  else if kind =? ChecksumXXHash64 then (8, true)
  else (0, false).

(** A length and what it is added to stay below 2^64 in the sums of lengths
    below; the comparisons are of unsigned 64-bit values. *)
Definition validateOperation (o : Operation) : res unit :=
  let malformed (b : bool) : res unit := if b then Err wire_ErrMalformed else Ok tt in
  let data := len (op_Data o) in
  let code := op_Code o in
  if code =? OpChecksum then
    let '(seedSize, validType) := ChecksumSize (op_ChecksumType o) in
    malformed (negb validType
      || (negb (data =? seedSize) || (2 ^ 31 - 1 <? op_Length o) || (2 ^ 64 - 1 - op_Offset o <? op_Length o)
          || (negb (op_ChunkSize o =? 0) && ((op_Length o =? 0) || negb (op_Length o mod op_ChunkSize o =? 0)))))
  else if code =? OpSetAllocationHint then malformed (negb (op_Flags o =? OpFlagFailOK) || negb (data =? 0))
  else if code =? OpWriteSame then
    malformed ((op_PatternLength o =? 0) || negb (op_PatternLength o =? data) || (op_Length o =? 0)
      || negb (op_Length o mod op_PatternLength o =? 0) || (2 ^ 64 - 1 - op_Length o <? op_Offset o))
  else if code =? OpCopyFrom then malformed (negb (op_CopyFlags o =? 0) || (data =? 0))
  else if code =? OpCopyFrom2 then malformed (negb (op_CopyFlags o =? 0) || (data =? 0))
  else if code =? OpPGNList then malformed ((op_ListCount o =? 0) || (data =? 0))
  else if code =? OpScrubList then malformed (data =? 0)
  else if among [OpGetXattr; OpRemoveXattr] code then
    malformed (negb (op_XattrValueLength o =? 0) || negb (op_XattrNameLength o =? data))
  else if among [OpSetXattr; OpCompareXattr] code then
    malformed (negb (u64 (op_XattrNameLength o + op_XattrValueLength o) =? data))
  else if code =? OpCall then
    malformed ((op_ClassNameLength o =? 0) || (op_MethodNameLength o =? 0)
      || negb (u64 (op_ClassNameLength o + op_MethodNameLength o + op_ClassInputLength o) =? data))
  else if code =? OpWatch then
    malformed ((op_WatchCookie o =? 0)
      || (negb (op_WatchOperation o =? WatchOperationUnwatch) && negb (op_WatchOperation o =? WatchOperationRegister)
          && negb (op_WatchOperation o =? WatchOperationReconnect) && negb (op_WatchOperation o =? WatchOperationPing))
      || negb (data =? 0))
  else if among [OpNotify; OpNotifyAck] code then malformed ((op_WatchCookie o =? 0) || (data =? 0))
  else Ok tt.

(** [previous] is the element before, if there is one. *)
Fixpoint validSnapshots (sequence : Z) (previous : option Z) (snapshots : list Z) : bool :=
  match snapshots with
  | [] => true
  | s :: rest =>
      if (sequence <? s) || match previous with Some p => p <=? s | None => false end then false
      else validSnapshots sequence (Some s) rest
  end.

Definition validSnapshotContext (sequence : Z) (snapshots : list Z) : bool := validSnapshots sequence None snapshots.

(** ** The parts of a request *)

Definition encodeOperation (o : Operation) : Enc.M :=
  let code := op_Code o in
  Enc.Uint16 code ⨾ Enc.Uint32 (op_Flags o) ⨾
  (if among [OpGetXattr; OpGetXattrs; OpCompareXattr; OpSetXattr; OpRemoveXattr] code then
     Enc.Uint32 (op_XattrNameLength o) ⨾ Enc.Uint32 (op_XattrValueLength o) ⨾ Enc.Uint8 (op_CompareOperator o)
     ⨾ Enc.Uint8 (op_CompareMode o) ⨾ Enc.Raw (zeros 18)
   else if code =? OpAssertVer then Enc.Uint64 0 ⨾ Enc.Uint64 (op_AssertVersion o) ⨾ Enc.Raw (zeros 12)
   else if code =? OpCall then
     Enc.Uint8 (op_ClassNameLength o) ⨾ Enc.Uint8 (op_MethodNameLength o) ⨾ Enc.Uint8 0
     ⨾ Enc.Uint32 (op_ClassInputLength o) ⨾ Enc.Raw (zeros 21)
   else if code =? OpWatch then
     Enc.Uint64 (op_WatchCookie o) ⨾ Enc.Uint64 (op_WatchVersion o) ⨾ Enc.Uint8 (op_WatchOperation o)
     ⨾ Enc.Uint32 (op_WatchGeneration o) ⨾ Enc.Uint32 (op_WatchTimeout o) ⨾ Enc.Raw (zeros 3)
   else if among [OpNotify; OpNotifyAck] code then Enc.Uint64 (op_WatchCookie o) ⨾ Enc.Raw (zeros 20)
   else if among [OpPGList; OpPGNList] code then
     Enc.Uint64 (op_ListCount o) ⨾ Enc.Uint32 (op_ListStartEpoch o) ⨾ Enc.Raw (zeros 16)
   else if code =? OpSetAllocationHint then
     Enc.Uint64 (op_ExpectedObjectSize o) ⨾ Enc.Uint64 (op_ExpectedWriteSize o) ⨾ Enc.Uint32 (op_AllocationFlags o)
     ⨾ Enc.Raw (zeros 8)
   else if code =? OpWriteSame then
     Enc.Uint64 (op_Offset o) ⨾ Enc.Uint64 (op_Length o) ⨾ Enc.Uint64 (op_PatternLength o) ⨾ Enc.Uint32 0
   else if code =? OpChecksum then
     Enc.Uint64 (op_Offset o) ⨾ Enc.Uint64 (op_Length o) ⨾ Enc.Uint32 (op_ChunkSize o) ⨾ Enc.Uint8 (op_ChecksumType o)
     ⨾ Enc.Raw (zeros 7)
   else if among [OpCopyFrom; OpCopyFrom2] code then
     Enc.Uint64 (op_SourceSnapshotID o) ⨾ Enc.Uint64 (op_SourceVersion o) ⨾ Enc.Uint8 (op_CopyFlags o)
     ⨾ Enc.Uint32 (op_SourceFadviseFlags o) ⨾ Enc.Raw (zeros 7)
   else if code =? OpRollback then Enc.Uint64 (op_SnapshotID o) ⨾ Enc.Raw (zeros 20)
   else Enc.Uint64 (op_Offset o) ⨾ Enc.Uint64 (op_Length o) ⨾ Enc.Uint64 0 ⨾ Enc.Uint32 0)
  ⨾ Enc.Uint32 (op_PayloadLength o).

Definition encodeLocator (pool : Z) (key namespace : bytes) : Enc.M :=
  Enc.Versioned 6 3 (Enc.Int64 pool ⨾ Enc.Int32 (-1) ⨾ Enc.String key ⨾ Enc.String namespace ⨾ Enc.Int64 (-1)).

Definition encodeRequestID (globalID transactionID incarnation : Z) : Enc.M :=
  Enc.Versioned 2 2 (Enc.Uint8 EntityClient ⨾ Enc.Uint64 globalID ⨾ Enc.Uint64 transactionID ⨾ Enc.Int32 incarnation).

Definition encodeUTime (seconds nanoseconds : Z) : Enc.M := Enc.Uint32 seconds ⨾ Enc.Uint32 nanoseconds.

Definition encodeTrace : Enc.M := Enc.Int64 0 ⨾ Enc.Int64 0 ⨾ Enc.Int64 0.

Definition EncodeCopyFromSource (object : bytes) (poolID : Z) (locator namespace : bytes) (truncateSequence truncateSize : Z)
    (includeTruncate : bool) (maxBytes : Z) : res bytes :=
  if (maxBytes =? 0) || bool_decide (object = []) || (poolID <? 0) then Err wire_ErrMalformed
  else
    Enc.BytesResult ((Enc.String object
      ⨾ Enc.Versioned 6 3 (Enc.Int64 poolID ⨾ Enc.Int32 (-1) ⨾ Enc.String locator ⨾ Enc.String namespace ⨾ Enc.Int64 (-1))
      ⨾ (if includeTruncate then Enc.Uint32 truncateSequence ⨾ Enc.Uint64 truncateSize else Enc.skip)) (NewEncoder maxBytes)).

(** ** Requests *)

(** The loop over the operations: whether one of them writes, the length of
    their data, and the operations after it. *)
Fixpoint checkOperations (limits : OsdLimits) (mutation : bool) (dataLength : Z) (ops : list Operation)
    : res (bool * Z) * list Operation :=
  match ops with
  | [] => (Ok (mutation, dataLength), [])
  | o :: rest =>
      if negb (supportedOperation (op_Code o)) then (Err wire_ErrUnsupportedVersion, o :: rest)
      else
        let mutation := if isMutation (op_Code o) then true else mutation in
        if MaxUint32 <? len (op_Data o) then (Err wire_ErrLimitExceeded, o :: rest)
        else if negb (op_PayloadLength o =? 0) && negb (op_PayloadLength o =? u32 (len (op_Data o)))
        then (Err wire_ErrMalformed, o :: rest)
        else
          match validateOperation o with
          | Ok _ =>
              let o := set_PayloadLength o (u32 (len (op_Data o))) in
              let dataLength := u64 (dataLength + len (op_Data o)) in
              if ol_MaxBytes limits <? dataLength then (Err wire_ErrLimitExceeded, o :: rest)
              else
                let '(r, rest) := checkOperations limits mutation dataLength rest in
                (r, o :: rest)
          | Err e => (Err e, o :: rest)
          | Panic => (Panic, o :: rest)
          end
  end.

Definition fixedSize : Z := 24 + 12 + 27 + 24 + 4 + 8 + 34 + 4 + 2 + 32.

Fixpoint addLengths (maxBytes : Z) (values : list bytes) (size : Z) : res Z :=
  match values with
  | [] => Ok size
  | v :: rest =>
      if (MaxUint32 <? len v) || (u64 (maxBytes - size) <? len v) then Err wire_ErrLimitExceeded
      else addLengths maxBytes rest (u64 (size + len v))
  end.

Definition requestFrontSize (r : Request) (maxBytes : Z) : res Z :=
  if maxBytes <? fixedSize then Err wire_ErrLimitExceeded
  else
    size ← addLengths maxBytes [rq_Object r; rq_Locator r; rq_Namespace r] fixedSize;
    let operationCount := len (rq_Operations r) in
    if u64 (maxBytes - size) / operationDescriptorSize <? operationCount then Err wire_ErrLimitExceeded
    else
      let size := u64 (size + u64 (operationCount * operationDescriptorSize)) in
      let snapshotCount := len (rq_WriteSnapshots r) in
      if u64 (maxBytes - size) / 8 <? snapshotCount then Err wire_ErrLimitExceeded
      else Ok (u64 (size + u64 (snapshotCount * 8))).

Definition requestFlags (r : Request) (mutation : bool) : Z :=
  if negb (rq_ExplicitFlags r) then
    Z.lor (if mutation || negb (Z.land (rq_Flags r) FlagWrite =? 0) then Z.lor FlagWrite FlagOnDisk else FlagRead) (rq_Flags r)
  else rq_Flags r.

Fixpoint for_enc {A} (body : A -> Enc.M) (l : list A) : Enc.M :=
  match l with [] => Enc.skip | x :: l => body x ⨾ for_enc body l end.

Definition request_writes (r : Request) (flags : Z) : Enc.M :=
  encodeSPGWithShard (rq_PG r) (if rq_Sharded r then rq_Shard r else -1)
  ⨾ Enc.Uint32 (rq_ObjectHash r) ⨾ Enc.Uint32 (rq_MapEpoch r) ⨾ Enc.Uint32 flags
  ⨾ encodeRequestID (rq_ClientGlobalID r) (rq_TransactionID r) (rq_ClientIncarnation r)
  ⨾ encodeTrace ⨾ Enc.Int32 (rq_ClientIncarnation r) ⨾ encodeUTime 0 0
  ⨾ encodeLocator (rq_PoolID r) (rq_Locator r) (rq_Namespace r)
  ⨾ Enc.String (rq_Object r) ⨾ Enc.Uint16 (u16 (len (rq_Operations r)))
  ⨾ for_enc encodeOperation (rq_Operations r)
  ⨾ Enc.Uint64 (rq_Snapshot r) ⨾ Enc.Uint64 (rq_SnapshotSequence r) ⨾ Enc.Uint32 (u32 (len (rq_WriteSnapshots r)))
  ⨾ for_enc Enc.Uint64 (rq_WriteSnapshots r)
  ⨾ Enc.Int32 (rq_Retry r) ⨾ Enc.Uint64 (rq_Features r).

Definition encodeRequest (r : Request) (limits : OsdLimits) (immutable : bool) : res Message * list Operation :=
  if (ol_MaxBytes limits =? 0) || (ol_MaxOperations limits =? 0) || (len (rq_Operations r) =? 0)
     || (ol_MaxOperations limits <? len (rq_Operations r)) || (2 ^ 16 - 1 <? len (rq_Operations r))
     || (MaxUint32 <? len (rq_WriteSnapshots r)) || (rq_PoolID r <? 0)
  then (Err wire_ErrLimitExceeded, rq_Operations r)
  else if negb (validSnapshotContext (rq_SnapshotSequence r) (rq_WriteSnapshots r))
  then (Err wire_ErrMalformed, rq_Operations r)
  else
    let '(checked, ops) := checkOperations limits false 0 (rq_Operations r) in
    let r := set_Operations r ops in
    (('(mutation, dataLength) ← checked;
      _ ← requestFrontSize r (u64 (ol_MaxBytes limits - dataLength));
      front ← fst (Enc.TakeBytesResult (request_writes r (requestFlags r mutation) (NewEncoder (ol_MaxBytes limits))));
      if ol_MaxBytes limits <? u64 (len front + dataLength) then Err wire_ErrLimitExceeded
      else
        data ← (if immutable && (len ops =? 1) then (o ← index ops 0; Ok (op_Data o)) else Ok (concat (op_Data <$> ops)));
        Ok (mkMessage (mkHeader 0 (rq_TransactionID r) MessageOSDOp 0 8 0 0 0 0 3 0)
             (mkLengths (u32 (len front)) 0 (u32 (len data))) front [] data)), ops).

(** ** Replies *)

Definition decodeOperation : DecM (Z * Z) :=
  code ← Dec.Uint16;
  _ ← Dec.Uint32;
  _ ← Dec.Raw 28;
  length ← Dec.Uint32;
  mret (code, length).

Definition decodeEVersion : DecM unit := _ ← Dec.Uint32; _ ← Dec.Uint64; mret tt.

Definition decodeTrace : DecM (res unit) := _ ← Dec.Int64; _ ← Dec.Int64; _ ← Dec.Int64; Dec.Finish.

Definition decodeRedirect : DecM (res Redirect) :=
  '(version, payload) ← Dec.Versioned 1;
  _ ←? Dec.Finish;
  if negb (version =? 1) then fail wire_ErrUnsupportedVersion
  else child payload (
    '(locatorVersion, locator) ← Dec.Versioned 6;
    _ ←? Dec.Finish;
    if locatorVersion <? 3 then fail wire_ErrUnsupportedVersion
    else
      '(pool, key, ns) ←? child locator (
        pool ← Dec.Int64;
        _ ← Dec.Int32;
        key ← Dec.String;
        ns ← Dec.String;
        _ ← (if 6 <=? locatorVersion then Dec.Int64 else mret 0);
        _ ←? ended osd_ErrMalformedReply;
        ok (pool, key, ns));
      object ← Dec.String;
      legacyLength ← Dec.Uint32;
      remaining ← Dec.Remaining;
      if remaining <? legacyLength then fail osd_ErrMalformedReply
      else
        _ ← Dec.Raw legacyLength;
        _ ←? ended osd_ErrMalformedReply;
        ok (mkRedirect pool key ns object)).

(** [if version >= 7 { if decoder.Bool() { ... } }] *)
Definition redirect_reads (version : Z) : DecM (res (option Redirect)) :=
  if 7 <=? version then
    redirected ← Dec.Bool;
    if (redirected : bool) then redirect ←? decodeRedirect; ok (Some redirect) else ok None
  else ok None.

(** [data[from:to:to]], which panics when the bounds are not in order or out of range. *)
Definition sub {A} (from to : Z) (l : list A) : res (list A) :=
  if (0 <=? from) && (from <=? to) && (to <=? len l) then Ok (slice from to l) else Panic.

(** The results get their share of the data segment; [offset] is at its end. *)
Fixpoint splitData (data : bytes) (offset : Z) (lengths : list Z) : res (list bytes * Z) :=
  match lengths with
  | [] => Ok ([], offset)
  | length :: rest =>
      if u64 (len data - offset) <? length then Err osd_ErrMalformedReply
      else
        d ← sub offset (u64 (offset + length)) data;
        '(ds, offset) ← splitData data (u64 (offset + length)) rest;
        Ok (d :: ds, offset)
  end.

Definition results (codes returns : list Z) (datas : list bytes) : list OperationResult :=
  zip_with (fun '(code, r) d => mkOperationResult code r d) (zip codes returns) datas.

(** What the front segment holds: the reply without its data, and the length
    of the data of each operation. *)
Definition reply_reads (version : Z) (limits : OsdLimits) : DecM (res (Reply * list Z * list Z * list Z)) :=
  object ← Dec.String;
  pg ←? decodePG;
  flags ← Dec.Int64;
  result ← Dec.Int32;
  _ ← decodeEVersion;
  mapEpoch ← Dec.Uint32;
  count ← Dec.Uint32;
  _ ←? Dec.Finish;
  remaining ← Dec.Remaining;
  if (ol_MaxOperations limits <? count) || (remaining <? u64 (count * operationDescriptorSize)) then fail wire_ErrLimitExceeded
  else
    operations ← repeat_dec (Z.to_nat count) decodeOperation;
    retry ← Dec.Int32;
    returns ← repeat_dec (Z.to_nat count) Dec.Int32;
    _ ← decodeEVersion;
    userVersion ← Dec.Uint64;
    if version =? 6 then fail wire_ErrUnsupportedVersion
    else
      redirect ←? redirect_reads version;
      _ ←? (if 8 <=? version then decodeTrace else ok tt);
      _ ←? ended osd_ErrMalformedReply;
      ok (mkReply object pg flags result mapEpoch retry userVersion redirect [], fst <$> operations, returns, snd <$> operations).

Definition decodeReply (m : Message) (limits : OsdLimits) (copyPayloads : bool) : res Reply :=
  let h := Header m in
  if (ol_MaxBytes limits =? 0) || (ol_MaxOperations limits =? 0) || negb (MsgrMessage.Type_ h =? MessageOSDOpReply)
     || (Version h <? 4) || (8 <? CompatVersion h) || (ol_MaxBytes limits <? u64 (len (Front m) + len (Middle m) + len (m_Data m)))
  then Err osd_ErrMalformedReply
  else
    '(reply, codes, returns, lengths) ← fst (reply_reads (Version h) limits (NewDecoder (Front m) (mkLimits (ol_MaxBytes limits))));
    '(datas, offset) ← splitData (m_Data m) 0 lengths;
    if negb (offset =? len (m_Data m)) then Err osd_ErrMalformedReply
    else
      Ok (mkReply (rp_Object reply) (rp_PG reply) (rp_Flags reply) (rp_Result reply) (rp_MapEpoch reply) (rp_Retry reply)
            (rp_Version reply) (rp_Redirect reply) (results codes returns datas)).
